(* ===== verification/_CoqProject ===== *)
-Q . S2P
Prelude.v
RustStr.v
Crates.v
StandIns.v
Codec.v
Mac.v
Cookie.v
Target.v
Ip.v
Context.v
Pow.v
ReqProof.v
Uri.v
Clearance.v
Nojs.v
Redemption.v
Store.v
Ledger.v
Redis.v
VerdictCache.v
Decision.v
Ranges.v
Replay.v
Runtime.v
Cluster.v
Verifier.v
Http.v
Challenge.v
Gate.v
Config.v
Dns.v
Directives.v
Startup.v
Fleet.v
Client.v
LoadTool.v
Fates.v
Site.v
