(* ===== verification/Prelude.v ===== *)
(** * ngx_http_pow_gate: verification library

    The program is an nginx module that keeps automated clients out of a site: a request
    without a clearance is answered with a challenge (a proof of work, or a wait for clients
    without JavaScript), and a solved challenge is redeemed, once, for a signed cookie bound
    to the client.  It has two crates: the engine [pow-gate-core], pure code, and the module
    [ngx-http-pow-gate], which runs it on nginx's request phases, shared memory, event loop
    and configuration.

    ** Parts and files

    Paths are below [src/src/]; [core] is [pow-gate-core/src], [ngx] is
    [ngx-http-pow-gate/src].  Definitions keep the names of the source.

    - Prelude (this file): machine integers, bytes, tactics, hint databases, list lemmas.
    - RustStr: the operations of Rust's [str] and integer formatting the code uses.
    - Ip: [std::net]'s addresses, their printer and their parser.
    - Crates: the third-party crates as type classes with the laws the code relies on
      (base64, HMAC, SHA-256, constant-time equality, serde_json, ECDSA).  StandIns has
      computable instances that satisfy the laws; witnesses run on them.  No law says that a
      hash or MAC is injective: theorems that need it conclude "or these two messages
      collide", and exhibit them.
    - Codec, Mac, Cookie, Target, Context, Pow, ReqProof, Uri, Clearance, Nojs, Redemption,
      Redis, VerdictCache, Decision, Ranges, Replay: one file per file of [core]
      ([proof.rs] is ReqProof).
    - Store: the interface between redemption and its two stores, with the laws of a one-use
      store; the theorem that a token is redeemed once is proved against it.  Ledger
      ([ngx/redemption.rs], shared memory) and Redis (the Lua script) are its instances.
    - Runtime ([ngx/runtime.rs]): cookies, headers, addresses, request bodies from memory and
      file buffers, the resolved configuration.
    - Cluster ([ngx/cluster.rs]): the Redis client.  Its state is [Runtime], with the jobs in
      a heap of numbered cells so that the pointers in the active list and the queue, and
      their freeing, are explicit; each nginx callback is a function, [handle] runs one event
      with whatever the network answers, [reach] are the histories.
    - Verifier ([core/feeds.rs], [ngx/verifier.rs]): feeds, DNS queue and threads, registry,
      the [pow_gate_verifier] block; [vreach] interleaves queries, fetches, and the two steps
      of a DNS thread (take a job, complete it), and keeps a log of the evidence.  Dns has the
      resolver: socket addresses and the two libc lookups, with libc as a class.
    - Http ([ngx/response.rs], [ngx/observability.rs], [ngx/body_limit.rs]): the state monad
      [M] over one request and its worker, responses, the request record, the body limiter.
      nginx's own functions are the class [Nginx].
    - Challenge ([ngx/challenge.rs], templates): pages and the solver's cache key.
    - Gate ([ngx/access.rs], [ngx/engine], the rest of [ngx/challenge.rs], [ngx/replay.rs],
      [redeem] and [finish] of [ngx/redemption.rs]): the access handler and every endpoint.
    - Config ([ngx/config.rs]): the location's configuration, inheritance and validation.
      Directives has the directive table of the same file, each offset a lens into the struct,
      and [load], which runs the lines of the blocks around a location and merges them; how
      nginx reads an argument is the class [NginxConf].
    - Startup ([ngx/lib.rs], [ngx/engine/mod.rs], the registration functions of
      [ngx/redemption.rs], [ngx/observability.rs], [ngx/body_limit.rs] and [ngx/access.rs]):
      the module's hooks, in a model of nginx's loads, cycles and workers.  A worker's [ZONE] points to a segment of shared memory;
      [srun] runs a history of loads, starts, stops and redemptions.
    - Fleet: the composition of any number of Cluster workers with one Redis server, over
      byte streams; [freach] are its histories.
    - Fates: what every handler of Gate does to the request it is given, as one of four fates
      (left to nginx, answered, waiting for its body, redeeming), with the reason for a
      redemption.  Site: histories of a whole site ([hreach]), many requests over the workers
      of Gate and either the shared ledger or the wires and the server of Fleet, with body
      callbacks, completions and leaving clients; the clustered site refines Fleet.
    - Client ([perf/src/main.rs], outside [src/src]): the native client, composed with Gate.
      LoadTool: the load threads of the same program and the figures it prints.

    A request enters at [Gate.pow_gate_access], which parses the policy (Decision), asks the
    verifiers (Verifier) and checks the cookie ([Gate.check_clearance], on Clearance, Context
    and ReqProof); a challenged client comes back to [issue_challenge], [verify_solution] with
    its callback [verify_body], or [pass], which end in [redeem] and so in Ledger or Cluster.

    ** What the theorems show

    - The gate (Gate): who is let through and when a cookie is set, as equivalences over the
      handlers themselves; with Client, that the handshake of the repository's own client
      ends and opens the gate of a site with the default endpoint and a shared ledger, and that its search stops exactly when there is a solution.
    - Tokens (Clearance, Nojs, Pow, Context, ReqProof, Cookie): exactly what each verifier
      accepts, that what the server issues is accepted back, and that tokens of one kind, or
      one client, cannot pass for another.
    - Work (Target): the long division is exact and the check is the inequality it stands for.
    - One use (Redemption, Store, Ledger, Redis): the table refines an abstract store and no
      token is accepted twice, as long as the clock of Redis is never behind the latest time
      it has shown by more than half a second per second of skew and one half;
      [Redis.backward_step_reopens_token] says how far a marker reaches after a step back.
      Startup carries it through reloads, failed reloads and worker crashes (the zone is
      handed on), Fleet through many workers, slow wires and abandoned requests.
    - The whole site (Fates, Site): in every history each cookie was earned by its own request
      and by no other, and every request comes to one end, whichever store is behind it.
    - The cluster client (Cluster): everyone is answered once, bounds hold, only the server
      accepts, a fence is final, and what is written is what was meant.
    - Bots (Ranges, VerdictCache, Verifier, Dns): lookup is membership, feeds are all or
      nothing, suffixes match by labels, a bot passes only on recent evidence, lookups are
      bounded and none is lost, and what the resolver confirms.
    - The nginx side (Runtime, Http, Challenge, Replay, Config): bodies and cookies come out
      as they went in, the limiter limits, templates are substituted exactly, captured
      requests cannot break out of the page.
    - Configuration (Config, Directives, Startup): the innermost stated value wins, every
      configuration that loads is typed and can be served, and workers start from the last
      load that succeeded.

    ** Choices

    Bytes are [list byte]; integers are [Z] with [in_u], [in_i], [wrap_u] and [wrap_i] where
    width matters ([i64_add] wraps, as a release build does).  Functions that loop over a
    buffer take its length as fuel: each round removes a byte (or, for the cluster queue, a
    job), so the fuel is never the reason a loop ends; the theorems about them are about the
    functions with that fuel.  The client's search takes its number of rounds as an argument
    and its theorem says which numbers end it.  Clocks and random bytes are streams of the worker, read one
    element at a time; nothing is assumed about them beyond what a theorem states.
    Allocation in nginx pools succeeds.  The completions of a cluster event are collected and
    [finish] runs on each after the event; the program calls it inside [complete].

    ** Not modelled

    nginx itself, the C library, the HTTP client of the feed refresher and of the native
    client, and the Redis server apart from the two scripts: they are classes, arguments or
    events.  Thread creation may fail, but threads do not die.  The printing of
    [perf/src/main.rs]; the hash experiment; the browser's solver
    and pages, which are a parameter; benchmarks and tests.

    ** Further work

    The responses of [status] and of the variables as theorems; reloads within the histories
    of Site (they are in Startup). *)
From Stdlib Require Import ZArith Lia.
From Stdlib Require Import Strings.Byte.
From stdpp Require Import base list strings option numbers countable sets.
Local Open Scope Z_scope.

(** ** Scope, tactics and hint databases *)

Declare Scope pow_scope.
Delimit Scope pow_scope with pow.

Create HintDb pow discriminated.
Create Rewrite HintDb pow_len.

(** [x <-? e ; k] is Rust's [let x = e?;] in a function returning [Option]. *)
Notation "x <-? e ; k" := (match e with Some x => k | None => None end)
  (at level 20, e at level 100, k at level 200) : pow_scope.
Notation "' x <-? e ; k" := (match e with Some x => k | None => None end)
  (at level 20, x pattern, e at level 100, k at level 200) : pow_scope.
(** [let-some x := e else d ; k] is Rust's [let Some(x) = e else { return d };]. *)
Notation "'let-some' x := e 'else' d ; k" := (match e with Some x => k | None => d end)
  (at level 100, e at level 99, d at level 99, right associativity) : pow_scope.
Open Scope pow_scope.

(** Split the head [match] or [if] of the goal or of a hypothesis and clean up;
    the shape of almost every handler proof. *)
Ltac split_match :=
  match goal with
  | |- context [match ?x with _ => _ end] => destruct x eqn:?; simplify_eq/=
  end.
Ltac split_match_in H :=
  match type of H with
  | context [match ?x with _ => _ end] => destruct x eqn:?; simplify_eq/=
  end.
(** Turn boolean tests of the code into propositions. *)
Ltac to_prop :=
  repeat first
    [ match goal with
      | H : (_ && _)%bool = true |- _ => apply andb_true_iff in H as [? ?]
      | H : (_ || _)%bool = false |- _ => apply orb_false_iff in H as [? ?]
      | H : negb _ = true |- _ => apply negb_true_iff in H
      | H : negb _ = false |- _ => apply negb_false_iff in H
      | H : bool_decide _ = true |- _ => apply bool_decide_eq_true in H
      | H : bool_decide _ = false |- _ => apply bool_decide_eq_false in H
      | H : (_ =? _)%Z = true |- _ => apply Z.eqb_eq in H
      | H : (_ =? _)%Z = false |- _ => apply Z.eqb_neq in H
      | H : (_ <=? _)%Z = true |- _ => apply Z.leb_le in H
      | H : (_ <=? _)%Z = false |- _ => apply Z.leb_gt in H
      | H : (_ <? _)%Z = true |- _ => apply Z.ltb_lt in H
      | H : (_ <? _)%Z = false |- _ => apply Z.ltb_ge in H
      | H : (_ <=? _)%nat = true |- _ => apply Nat.leb_le in H
      | H : (_ <=? _)%nat = false |- _ => apply Nat.leb_gt in H
      | H : (_ <? _)%nat = true |- _ => apply Nat.ltb_lt in H
      | H : (_ <? _)%nat = false |- _ => apply Nat.ltb_ge in H
      | H : (_ =? _)%nat = true |- _ => apply Nat.eqb_eq in H
      | H : (_ =? _)%nat = false |- _ => apply Nat.eqb_neq in H
      end ].

(** Split a goal that is a conjunction of boolean tests. *)
Ltac all_true :=
  repeat match goal with |- (_ && _)%bool = true => apply andb_true_iff; split end.

(** ** Machine integers

    A Rust integer is a [Z] in the range of its type.  The release profile of the
    workspace has overflow checks off, so [+], [-] and [as] wrap. *)

Definition in_u (w z : Z) : bool := (0 <=? z) && (z <? 2 ^ w).
Definition in_i (w z : Z) : bool := (- 2 ^ (w - 1) <=? z) && (z <? 2 ^ (w - 1)).
Definition wrap_u (w z : Z) : Z := z mod 2 ^ w.
Definition wrap_i (w z : Z) : Z := (z + 2 ^ (w - 1)) mod 2 ^ w - 2 ^ (w - 1).
Arguments in_u : simpl never.
Arguments in_i : simpl never.
Arguments wrap_u : simpl never.
Arguments wrap_i : simpl never.
Abbreviation in_u8 := (in_u 8).
Abbreviation in_u32 := (in_u 32).
Abbreviation in_u64 := (in_u 64).
Abbreviation in_i64 := (in_i 64).
(** [a + b] on [i64] in release mode. *)
Definition i64_add (a b : Z) : Z := wrap_i 64 (a + b).
(** [i64::checked_sub]. *)
Definition i64_checked_sub (a b : Z) : option Z :=
  if in_i64 (a - b) then Some (a - b) else None.
(** [i64::abs_diff], a [u64]. *)
Definition abs_diff (a b : Z) : Z := Z.abs (a - b).

Lemma in_u_iff w z : in_u w z = true <-> 0 <= z < 2 ^ w.
Proof. unfold in_u. rewrite andb_true_iff, Z.leb_le, Z.ltb_lt. lia. Qed.
Lemma in_i_iff w z : in_i w z = true <-> - 2 ^ (w - 1) <= z < 2 ^ (w - 1).
Proof. unfold in_i. rewrite andb_true_iff, Z.leb_le, Z.ltb_lt. lia. Qed.
Lemma in_i64_iff z : in_i64 z = true <-> -9223372036854775808 <= z < 9223372036854775808.
Proof. apply in_i_iff. Qed.
Lemma in_u64_iff z : in_u64 z = true <-> 0 <= z < 18446744073709551616.
Proof. apply in_u_iff. Qed.

Lemma wrap_u_id w z : in_u w z = true -> wrap_u w z = z.
Proof. intros H%in_u_iff. unfold wrap_u. apply Z.mod_small; lia. Qed.
Lemma wrap_i_id w z : 0 < w -> in_i w z = true -> wrap_i w z = z.
Proof.
  intros Hw H. apply in_i_iff in H. unfold wrap_i.
  assert (2 ^ w = 2 * 2 ^ (w - 1)) as E
    by (rewrite <- Z.pow_succ_r by lia; f_equal; lia).
  rewrite Z.mod_small; lia.
Qed.
Lemma wrap_i_range w z : 0 < w -> in_i w (wrap_i w z) = true.
Proof.
  intros Hw. apply in_i_iff. unfold wrap_i.
  assert (2 ^ w = 2 * 2 ^ (w - 1)) as E
    by (rewrite <- Z.pow_succ_r by lia; f_equal; lia).
  pose proof (Z.mod_pos_bound (z + 2 ^ (w - 1)) (2 ^ w)).
  assert (0 < 2 ^ w) by (apply Z.pow_pos_nonneg; lia). lia.
Qed.
Lemma i64_add_id a b : in_i64 (a + b) = true -> i64_add a b = a + b.
Proof. intros H. unfold i64_add. apply wrap_i_id; [lia | exact H]. Qed.
Lemma i64_checked_sub_Some a b d :
  i64_checked_sub a b = Some d <-> in_i64 (a - b) = true /\ d = a - b.
Proof. unfold i64_checked_sub. case_match; naive_solver. Qed.

(** ** Bytes *)

Abbreviation byte := Byte.byte.
Abbreviation bytes := (list Byte.byte).

#[export] Instance byte_eq_dec : EqDecision byte := Byte.byte_eq_dec.
#[export] Instance byte_countable : Countable byte.
Proof.
  apply (inj_countable Byte.to_N Byte.of_N). intros x. apply Byte.of_to_N.
Defined.

(** The number of a byte, and [z as u8]. *)
Definition u8 (b : byte) : Z := Z.of_N (Byte.to_N b).
Definition byte_of (z : Z) : byte :=
  default Byte.x00 (Byte.of_N (Z.to_N (z mod 256))).

Lemma u8_range b : 0 <= u8 b < 256.
Proof. unfold u8. pose proof (Byte.to_N_bounded b). lia. Qed.
Lemma u8_inj a b : u8 a = u8 b -> a = b.
Proof.
  unfold u8. intros H%N2Z.inj.
  pose proof (Byte.of_to_N a) as Ha. pose proof (Byte.of_to_N b) as Hb.
  rewrite H in Ha. congruence.
Qed.
Lemma u8_byte_of z : u8 (byte_of z) = z mod 256.
Proof.
  unfold u8, byte_of. pose proof (Z.mod_pos_bound z 256 ltac:(lia)) as Hr.
  destruct (Byte.of_N (Z.to_N (z mod 256))) eqn:E; simpl.
  - apply Byte.to_of_N in E. rewrite E. lia.
  - apply Byte.of_N_None_iff in E. lia.
Qed.
Lemma byte_of_u8 b : byte_of (u8 b) = b.
Proof. apply u8_inj. rewrite u8_byte_of. apply Z.mod_small, u8_range. Qed.
Lemma u8_byte_of_small z : 0 <= z < 256 -> u8 (byte_of z) = z.
Proof. intros. rewrite u8_byte_of. apply Z.mod_small; lia. Qed.

(** [blia]: [lia] with the range of every byte in sight. *)
Ltac byte_ranges :=
  repeat match goal with
    | b : byte |- _ =>
        match goal with
        | _ : 0 <= u8 b < 256 |- _ => fail 1
        | _ => pose proof (u8_range b)
        end
    end.
(** [dlia]: [lia] that also knows division and remainder. *)
Ltac dlia := Z.to_euclidean_division_equations; lia.
Ltac blia := byte_ranges; dlia.

(** A Rust byte-string or string literal. *)
Definition bs (s : string) : bytes := String.list_byte_of_string s.
Arguments bs _%_string.

(** [slice == slice]. *)
Definition beq (a b : bytes) : bool := bool_decide (a = b).
Lemma beq_true a b : beq a b = true <-> a = b.
Proof. unfold beq. apply bool_decide_eq_true. Qed.
Lemma beq_refl a : beq a a = true.
Proof. by apply beq_true. Qed.
Lemma beq_false a b : beq a b = false <-> a <> b.
Proof. unfold beq. apply bool_decide_eq_false. Qed.

(** ** Big-endian numbers: [to_be_bytes] / [from_be_bytes] *)

Definition be_val (l : bytes) : Z := foldl (fun acc b => acc * 256 + u8 b) 0 l.
Fixpoint to_be_bytes (n : nat) (z : Z) : bytes :=
  match n with
  | O => []
  | S n' => to_be_bytes n' (z / 256) ++ [byte_of z]
  end.

Lemma be_val_snoc l b : be_val (l ++ [b]) = be_val l * 256 + u8 b.
Proof. unfold be_val. by rewrite foldl_app. Qed.
Lemma be_val_nonneg l : 0 <= be_val l.
Proof.
  induction l as [|b l IH] using rev_ind; [done|].
  rewrite be_val_snoc. pose proof (u8_range b). lia.
Qed.
Lemma be_val_cons b l : be_val (b :: l) = u8 b * 256 ^ Z.of_nat (length l) + be_val l.
Proof.
  induction l as [|c l IH] using rev_ind; [by unfold be_val; simpl; lia|].
  rewrite app_comm_cons, !be_val_snoc, IH, length_app. simpl.
  replace (Z.of_nat (length l + 1)) with (Z.succ (Z.of_nat (length l))) by lia.
  rewrite Z.pow_succ_r by lia. ring.
Qed.
Lemma be_val_range l : 0 <= be_val l < 256 ^ Z.of_nat (length l).
Proof.
  induction l as [|b l IH] using rev_ind; [done|].
  rewrite be_val_snoc, length_app. simpl.
  replace (Z.of_nat (length l + 1)) with (Z.succ (Z.of_nat (length l))) by lia.
  rewrite Z.pow_succ_r by lia. pose proof (u8_range b). lia.
Qed.
Lemma to_be_bytes_length n z : length (to_be_bytes n z) = n.
Proof. revert z. induction n; intros; simpl; [done|]. rewrite length_app, IHn. simpl. lia. Qed.
Lemma be_val_to_be_bytes n z : be_val (to_be_bytes n z) = z mod 256 ^ Z.of_nat n.
Proof.
  revert z. induction n as [|n IH]; intros z; simpl to_be_bytes.
  - change (256 ^ Z.of_nat 0) with 1. by rewrite Z.mod_1_r.
  - rewrite be_val_snoc, IH, u8_byte_of.
    replace (Z.of_nat (S n)) with (Z.succ (Z.of_nat n)) by lia.
    rewrite Z.pow_succ_r by lia.
    rewrite Z.rem_mul_r by lia. lia.
Qed.
Lemma be_val_inj l1 l2 : length l1 = length l2 -> be_val l1 = be_val l2 -> l1 = l2.
Proof.
  revert l2. induction l1 as [|b l1 IH] using rev_ind; intros l2 Hlen Hv.
  - by destruct l2.
  - destruct l2 as [|c l2 _] using rev_ind; [rewrite length_app in Hlen; simpl in Hlen; lia|].
    rewrite !length_app in Hlen. rewrite !be_val_snoc in Hv.
    pose proof (u8_range b). pose proof (u8_range c).
    assert (be_val l1 = be_val l2 /\ u8 b = u8 c) as [? ?] by lia.
    f_equal; [apply IH; [simpl in Hlen; lia | done] | f_equal; by apply u8_inj].
Qed.
Lemma to_be_bytes_inj n a b :
  0 <= a < 256 ^ Z.of_nat n -> 0 <= b < 256 ^ Z.of_nat n ->
  to_be_bytes n a = to_be_bytes n b -> a = b.
Proof.
  intros Ha Hb E. apply (f_equal be_val) in E.
  rewrite !be_val_to_be_bytes, !Z.mod_small in E by lia. done.
Qed.
Arguments to_be_bytes : simpl never.
#[export] Hint Rewrite to_be_bytes_length @length_app @length_cons : pow_len.

(** ** Lists *)

(** A common prefix of the same length splits an equation between appends. *)
Lemma app_eq_inj {A} (a1 a2 b1 b2 : list A) :
  length a1 = length a2 -> a1 ++ b1 = a2 ++ b2 -> a1 = a2 /\ b1 = b2.
Proof. apply app_inj_1. Qed.

(** Two lists that agree after a separator that occurs in neither head. *)
Lemma sep_inj {A} (c : A) (a1 a2 b1 b2 : list A) :
  c ∉ a1 -> c ∉ a2 -> a1 ++ c :: b1 = a2 ++ c :: b2 -> a1 = a2 /\ b1 = b2.
Proof.
  revert a2. induction a1 as [|x a1 IH]; intros [|y a2]; simpl; intros H1 H2 E.
  - by simplify_eq.
  - simplify_eq. set_solver.
  - simplify_eq. set_solver.
  - simplify_eq. destruct (IH a2) as [-> ->]; set_solver.
Qed.

Lemma forallb_Forall {A} (f : A -> bool) l : forallb f l = true <-> Forall (fun x => f x = true) l.
Proof. rewrite forallb_forall, Forall_forall. setoid_rewrite list_elem_of_In. done. Qed.
Lemma existsb_Exists {A} (f : A -> bool) l : existsb f l = true <-> Exists (fun x => f x = true) l.
Proof. rewrite existsb_exists, Exists_exists. setoid_rewrite list_elem_of_In. done. Qed.
(** A map without repetitions is injective on its list. *)
Lemma NoDup_map_inj {A B} (f : A -> B) l x y : NoDup (map f l) -> x ∈ l -> y ∈ l -> f x = f y -> x = y.
Proof.
  induction l as [|a l IH]; [intros _ []%elem_of_nil|]. cbn [map]. intros [Ha Hn]%NoDup_cons.
  assert (forall z, z ∈ l -> f a <> f z) as Hd by (intros z Hz Ef; apply Ha; rewrite Ef; by apply (list_elem_of_fmap_2 f)).
  intros [->|Hx]%elem_of_cons [->|Hy]%elem_of_cons Ef; [done|by destruct (Hd y)|by destruct (Hd x)|by apply IH].
Qed.
