(* ===== verification/RustStr.v ===== *)
(** * The parts of Rust's [str] and integer formatting the gate uses

    A [str] or [String] is its UTF-8 bytes.  The separators and patterns of the
    source are ASCII, so searching and splitting are byte-wise; [trim] removes the
    Unicode [White_Space] characters, written here as their UTF-8 sequences.
    Integers print and parse as [Display] and [FromStr] of [u64] and [i64] do. *)
From Stdlib Require Import ZArith Lia.
From Stdlib Require Import Strings.Byte.
From stdpp Require Import base list strings option numbers countable sets.
From S2P Require Import Prelude.
Local Open Scope Z_scope.

(** ** Searching and splitting *)

(** [str::starts_with] and [str::strip_prefix]. *)
Fixpoint strip_prefix (p s : bytes) : option bytes :=
  match p, s with
  | [], _ => Some s
  | a :: p', b :: s' => if bool_decide (a = b) then strip_prefix p' s' else None
  | _ :: _, [] => None
  end.
Definition starts_with (p s : bytes) : bool := bool_decide (is_Some (strip_prefix p s)).

(** [str::ends_with]. *)
Definition ends_with (p s : bytes) : bool := starts_with (reverse p) (reverse s).

(** [str::split_once(c)] and [str::rsplit_once(c)]. *)
Fixpoint split_once (c : byte) (s : bytes) : option (bytes * bytes) :=
  match s with
  | [] => None
  | b :: s' =>
      if bool_decide (b = c) then Some ([], s')
      else '(h, t) <-? split_once c s'; Some (b :: h, t)
  end.
Definition rsplit_once (c : byte) (s : bytes) : option (bytes * bytes) :=
  '(h, t) <-? split_once c (reverse s); Some (reverse t, reverse h).
(** [str::split(c)]: every piece between separators, empty ones included. *)
Fixpoint split_on (c : byte) (s : bytes) : list bytes :=
  match s with
  | [] => [[]]
  | b :: s' =>
      if bool_decide (b = c) then [] :: split_on c s'
      else match split_on c s' with
           | [] => [[b]]
           | h :: t => (b :: h) :: t
           end
  end.

(** [str::trim_start_matches(c)], [trim_end_matches(c)], [trim_matches(c)]. *)
Fixpoint trim_start_matches (c : byte) (s : bytes) : bytes :=
  match s with
  | b :: s' => if bool_decide (b = c) then trim_start_matches c s' else s
  | [] => []
  end.
Definition trim_end_matches (c : byte) (s : bytes) : bytes :=
  reverse (trim_start_matches c (reverse s)).
Definition trim_matches (c : byte) (s : bytes) : bytes :=
  trim_end_matches c (trim_start_matches c s).

(** ** ASCII case *)

Definition is_ascii_uppercase (b : byte) : bool := (65 <=? u8 b) && (u8 b <=? 90).
Definition is_ascii_lowercase (b : byte) : bool := (97 <=? u8 b) && (u8 b <=? 122).
Definition is_ascii_digit (b : byte) : bool := (48 <=? u8 b) && (u8 b <=? 57).
Definition is_ascii_alphabetic (b : byte) : bool := is_ascii_uppercase b || is_ascii_lowercase b.
Definition is_ascii_alphanumeric (b : byte) : bool := is_ascii_alphabetic b || is_ascii_digit b.
Definition is_ascii_hexdigit (b : byte) : bool :=
  is_ascii_digit b || ((65 <=? u8 b) && (u8 b <=? 70)) || ((97 <=? u8 b) && (u8 b <=? 102)).
Definition ascii_lower (b : byte) : byte :=
  if is_ascii_uppercase b then byte_of (u8 b + 32) else b.
Definition to_ascii_lowercase (s : bytes) : bytes := map ascii_lower s.
Definition eq_ignore_ascii_case (a b : bytes) : bool :=
  beq (to_ascii_lowercase a) (to_ascii_lowercase b).

(** ** UTF-8 *)

(** [str::from_utf8(..).is_ok()]: the well-formed sequences of Unicode's table 3-7. *)
Definition utf8_cont (b : byte) : bool := (128 <=? u8 b) && (u8 b <=? 191).
Definition utf8_second3 (lead c : byte) : bool :=
  if u8 lead =? 224 then (160 <=? u8 c) && (u8 c <=? 191)
  else if u8 lead =? 237 then (128 <=? u8 c) && (u8 c <=? 159)
  else utf8_cont c.
Definition utf8_second4 (lead c : byte) : bool :=
  if u8 lead =? 240 then (144 <=? u8 c) && (u8 c <=? 191)
  else if u8 lead =? 244 then (128 <=? u8 c) && (u8 c <=? 143)
  else utf8_cont c.
Fixpoint utf8_valid (s : bytes) : bool :=
  match s with
  | [] => true
  | b :: s1 =>
      if u8 b <? 128 then utf8_valid s1 else
      match s1 with
      | [] => false
      | c1 :: s2 =>
          if (194 <=? u8 b) && (u8 b <=? 223) then utf8_cont c1 && utf8_valid s2 else
          match s2 with
          | [] => false
          | c2 :: s3 =>
              if (224 <=? u8 b) && (u8 b <=? 239)
              then utf8_second3 b c1 && utf8_cont c2 && utf8_valid s3 else
              match s3 with
              | [] => false
              | c3 :: s4 =>
                  (240 <=? u8 b) && (u8 b <=? 244) && utf8_second4 b c1
                  && utf8_cont c2 && utf8_cont c3 && utf8_valid s4
              end
          end
      end
  end.
(** [str::is_ascii]. *)
Definition is_ascii (s : bytes) : bool := forallb (fun b => u8 b <? 128) s.

(** [str::trim]: the UTF-8 sequences of the [White_Space] characters. *)
Definition white_space : list bytes :=
  map (fun n => [byte_of n]) [9; 10; 11; 12; 13; 32] ++
  map (map byte_of)
    ([[194; 133]; [194; 160]; [225; 154; 128]] ++
     map (fun k => [226; 128; 128 + k]) [0; 1; 2; 3; 4; 5; 6; 7; 8; 9; 10] ++
     [[226; 128; 168]; [226; 128; 169]; [226; 128; 175]; [226; 129; 159]; [227; 128; 128]]).
Fixpoint strip_any (ps : list bytes) (s : bytes) : option bytes :=
  match ps with
  | [] => None
  | p :: ps' => match strip_prefix p s with Some r => Some r | None => strip_any ps' s end
  end.
(** Each round removes at least one byte, so the length is enough fuel. *)
Fixpoint trim_with (ps : list bytes) (fuel : nat) (s : bytes) : bytes :=
  match fuel with
  | O => s
  | S f => match strip_any ps s with Some r => trim_with ps f r | None => s end
  end.
Definition trim_start (s : bytes) : bytes := trim_with white_space (length s) s.
Definition trim_end (s : bytes) : bytes :=
  reverse (trim_with (map reverse white_space) (length s) (reverse s)).
Definition trim (s : bytes) : bytes := trim_end (trim_start s).

(** ** Decimal integers *)

Definition digit (d : Z) : byte := byte_of (48 + d).
(** [Display] of an unsigned integer; [log2 z + 1] bounds the number of digits. *)
Fixpoint show_digits (fuel : nat) (z : Z) : bytes :=
  match fuel with
  | O => []
  | S f => if z <? 10 then [digit z] else show_digits f (z / 10) ++ [digit (z mod 10)]
  end.
Definition show_u (z : Z) : bytes := show_digits (S (Z.to_nat (Z.log2 z))) z.
(** [Display] of a signed integer. *)
Definition show_i (z : Z) : bytes := if z <? 0 then "-"%byte :: show_u (- z) else show_u z.

Definition dec_step (acc : option Z) (b : byte) : option Z :=
  v <-? acc; if is_ascii_digit b then Some (v * 10 + (u8 b - 48)) else None.
Definition parse_digits (s : bytes) : option Z :=
  match s with [] => None | _ => foldl dec_step (Some 0) s end.
(** [FromStr] of an unsigned type: an optional [+], then digits, no overflow. *)
Definition parse_u (w : Z) (s : bytes) : option Z :=
  let s := match s with b :: t => if bool_decide (b = "+"%byte) then t else s | [] => s end in
  v <-? parse_digits s; if in_u w v then Some v else None.
(** [FromStr] of a signed type: an optional sign, then digits, no overflow. *)
Definition parse_i (w : Z) (s : bytes) : option Z :=
  let v := match s with
           | b :: t =>
               if bool_decide (b = "-"%byte) then (v <-? parse_digits t; Some (- v))
               else if bool_decide (b = "+"%byte) then parse_digits t
               else parse_digits s
           | [] => None
           end in
  v <-? v; if in_i w v then Some v else None.

(** ** Lemmas on searching and splitting *)

Lemma strip_prefix_Some p s r : strip_prefix p s = Some r <-> s = p ++ r.
Proof.
  revert s. induction p as [|a p IH]; intros [|b s]; simpl; try naive_solver.
  case_bool_decide; subst; [rewrite IH|]; naive_solver.
Qed.
Lemma starts_with_iff p s : starts_with p s = true <-> exists r, s = p ++ r.
Proof.
  unfold starts_with. rewrite bool_decide_eq_true. unfold is_Some.
  by setoid_rewrite strip_prefix_Some.
Qed.
Lemma starts_with_app p r : starts_with p (p ++ r) = true.
Proof. apply starts_with_iff. eauto. Qed.
Lemma ends_with_iff p s : ends_with p s = true <-> exists r, s = r ++ p.
Proof.
  unfold ends_with. rewrite starts_with_iff. split; intros [r H].
  - exists (reverse r). apply (f_equal reverse) in H.
    by rewrite reverse_involutive, reverse_app, reverse_involutive in H.
  - exists (reverse r). by rewrite H, reverse_app.
Qed.

Lemma split_once_Some c s h t : split_once c s = Some (h, t) <-> s = h ++ c :: t /\ c ∉ h.
Proof.
  revert h t. induction s as [|b s IH]; intros h t; simpl.
  - split; [done|]. intros [E _]. by destruct h.
  - case_bool_decide as Hb; subst.
    + split; [intros [= <- <-]; set_solver|]. intros [E Hn].
      destruct h; simplify_eq/=; [done|set_solver].
    + destruct (split_once c s) as [[h' t']|] eqn:E'.
      * destruct (proj1 (IH h' t') eq_refl) as [-> Hn]. split; [intros; simplify_eq; set_solver|].
        intros [E Hh]. destruct h as [|x h]; simplify_eq/=.
        destruct (sep_inj c h' h t' t) as [-> ->]; [done|set_solver|done|done].
      * split; [done|]. intros [E Hh]. destruct h as [|x h]; simplify_eq/=.
        exfalso. cut (@None (bytes * bytes) = Some (h, t)); [done|]. apply IH. set_solver.
Qed.
Lemma split_once_None c s : split_once c s = None <-> c ∉ s.
Proof.
  induction s as [|b s IH]; simpl; [set_solver|].
  case_bool_decide; subst; [set_solver|].
  destruct (split_once c s) as [[h t]|]; [|set_solver].
  split; [done|]. intros Hn. exfalso. assert (c ∉ s) as Hs by set_solver. by apply IH in Hs.
Qed.
Lemma split_once_app c h t : c ∉ h -> split_once c (h ++ c :: t) = Some (h, t).
Proof. intros. by apply split_once_Some. Qed.
Lemma rsplit_once_Some c s h t : rsplit_once c s = Some (h, t) <-> s = h ++ c :: t /\ c ∉ t.
Proof.
  unfold rsplit_once. destruct (split_once c (reverse s)) as [[a b]|] eqn:E.
  - apply split_once_Some in E as [E Hn].
    apply (f_equal reverse) in E. rewrite reverse_involutive, reverse_app, reverse_cons in E.
    rewrite <- app_assoc in E. simpl in E. subst s. split.
    + intros [= <- <-]. split; [done|]. by rewrite elem_of_reverse.
    + intros [E Ht]. apply (f_equal reverse) in E.
      rewrite !reverse_app, !reverse_cons, !reverse_involutive, <- !app_assoc in E. simpl in E.
      apply sep_inj in E as [-> ->]; [by rewrite !reverse_involutive|done|by rewrite elem_of_reverse].
  - split; [done|]. intros [-> Ht]. apply split_once_None in E.
    rewrite reverse_app, reverse_cons in E. set_solver.
Qed.

Lemma trim_start_matches_eq c s :
  exists n, s = replicate n c ++ trim_start_matches c s
            /\ head (trim_start_matches c s) <> Some c.
Proof.
  induction s as [|b s (n & E & H)]; simpl; [by exists O|].
  case_bool_decide as Hb; subst.
  - exists (S n). by split; [simpl; f_equal|].
  - exists O. split; [done|]. simpl. congruence.
Qed.

(** ** Lemmas on case, ASCII and UTF-8 *)

(** Decide a property of one byte by running it on all of them. *)
Lemma byte_forall (P : byte -> bool) :
  forallb (fun n => P (byte_of (Z.of_nat n))) (seq 0 256) = true -> forall b, P b = true.
Proof.
  intros H b. rewrite forallb_forall in H. specialize (H (Z.to_nat (u8 b))).
  pose proof (u8_range b). rewrite Z2Nat.id, byte_of_u8 in H by lia.
  apply H. apply in_seq. lia.
Qed.
Ltac byte_all f := exact (byte_forall f ltac:(vm_compute; reflexivity)).

Lemma ascii_lower_idemp b : ascii_lower (ascii_lower b) = ascii_lower b.
Proof.
  refine (proj1 (bool_decide_eq_true (ascii_lower (ascii_lower b) = ascii_lower b)) _).
  revert b. byte_all (fun b => bool_decide (ascii_lower (ascii_lower b) = ascii_lower b)).
Qed.
Lemma to_ascii_lowercase_idemp s : to_ascii_lowercase (to_ascii_lowercase s) = to_ascii_lowercase s.
Proof. unfold to_ascii_lowercase. rewrite map_map. apply map_ext. apply ascii_lower_idemp. Qed.
Lemma ascii_lower_no_upper b : is_ascii_uppercase (ascii_lower b) = false.
Proof.
  apply negb_true_iff. revert b.
  byte_all (fun b => negb (is_ascii_uppercase (ascii_lower b))).
Qed.

Lemma utf8_valid_cons b s : u8 b < 128 -> utf8_valid (b :: s) = utf8_valid s.
Proof. intros H. simpl. apply Z.ltb_lt in H. by rewrite H. Qed.
Lemma is_ascii_Forall s : is_ascii s = true <-> Forall (fun b => u8 b < 128) s.
Proof.
  unfold is_ascii. rewrite forallb_Forall.
  split; intros H; apply (Forall_impl _ _ _ H); intros b; apply Z.ltb_lt.
Qed.
Lemma utf8_valid_ascii_app s t : is_ascii s = true -> utf8_valid (s ++ t) = utf8_valid t.
Proof.
  rewrite is_ascii_Forall. induction 1 as [|b s Hb _ IH]; [done|].
  simpl app. by rewrite utf8_valid_cons.
Qed.
Lemma utf8_valid_ascii s : is_ascii s = true -> utf8_valid s = true.
Proof. intros H. rewrite <- (app_nil_r s). by rewrite utf8_valid_ascii_app. Qed.
#[export] Hint Resolve utf8_valid_ascii : pow.

(** Lower-casing moves ASCII letters among ASCII bytes and nothing else. *)
Lemma ascii_lower_cases b :
  (u8 b < 128 /\ u8 (ascii_lower b) < 128) \/ ascii_lower b = b.
Proof.
  unfold ascii_lower. destruct (is_ascii_uppercase b) eqn:E; [left|by right].
  unfold is_ascii_uppercase in E. to_prop. rewrite u8_byte_of_small; lia.
Qed.
Lemma utf8_cont_lower c : utf8_cont (ascii_lower c) = utf8_cont c.
Proof. destruct (ascii_lower_cases c) as [[? ?]| ->]; unfold utf8_cont; [lia|done]. Qed.
Lemma utf8_second3_lower b c : utf8_second3 b (ascii_lower c) = utf8_second3 b c.
Proof.
  destruct (ascii_lower_cases c) as [[? ?]| ->]; [|done].
  unfold utf8_second3. rewrite utf8_cont_lower. repeat case_match; try done; lia.
Qed.
Lemma utf8_second4_lower b c : utf8_second4 b (ascii_lower c) = utf8_second4 b c.
Proof.
  destruct (ascii_lower_cases c) as [[? ?]| ->]; [|done].
  unfold utf8_second4. rewrite utf8_cont_lower. repeat case_match; try done; lia.
Qed.
Lemma utf8_valid_lower s : utf8_valid (to_ascii_lowercase s) = utf8_valid s.
Proof.
  unfold to_ascii_lowercase. revert s. fix IH 1. intros [|b s]; [done|]. simpl.
  destruct (Z.ltb_spec (u8 b) 128) as [Hb|Hb].
  - replace (u8 (ascii_lower b) <? 128) with true; [apply IH|].
    destruct (ascii_lower_cases b) as [[? ?]|E]; [|rewrite E]; lia.
  - assert (ascii_lower b = b) as E by (destruct (ascii_lower_cases b) as [[? ?]|E]; [lia|done]).
    rewrite E. rewrite (proj2 (Z.ltb_ge _ _)) by lia.
    destruct s as [|c1 s]; [done|]. simpl. rewrite utf8_cont_lower, IH.
    case_match; [done|]. destruct s as [|c2 s]; [done|]. simpl.
    rewrite utf8_second3_lower, utf8_cont_lower, IH. case_match; [done|].
    destruct s as [|c3 s]; [done|]. simpl.
    by rewrite utf8_second4_lower, !utf8_cont_lower, IH.
Qed.
Lemma utf8_valid_trim c s :
  u8 c < 128 -> utf8_valid (trim_start_matches c s) = utf8_valid s.
Proof.
  intros Hc. induction s as [|b s IH]; [done|]. cbn [trim_start_matches].
  case_bool_decide; subst; [|done]. by rewrite utf8_valid_cons.
Qed.
Lemma lowercase_no_upper s : existsb is_ascii_uppercase s = false -> to_ascii_lowercase s = s.
Proof.
  induction s as [|b s IH]; simpl; [done|]. intros [Hb Hs]%orb_false_iff.
  unfold to_ascii_lowercase in *. simpl. rewrite IH by done. unfold ascii_lower. by rewrite Hb.
Qed.

(** ** Lemmas on decimal integers *)

Lemma u8_digit d : 0 <= d < 10 -> u8 (digit d) = 48 + d.
Proof. intros. unfold digit. apply u8_byte_of_small. lia. Qed.
Lemma is_ascii_digit_digit d : 0 <= d < 10 -> is_ascii_digit (digit d) = true.
Proof. intros. unfold is_ascii_digit. rewrite u8_digit by lia. lia. Qed.
Lemma parse_digits_snoc s b v :
  s <> [] -> parse_digits s = Some v -> is_ascii_digit b = true ->
  parse_digits (s ++ [b]) = Some (v * 10 + (u8 b - 48)).
Proof.
  intros Hne Hs Hb. unfold parse_digits in *.
  destruct s as [|a s]; [done|]. simpl app. cbv iota in Hs |- *.
  rewrite app_comm_cons, foldl_app, Hs. simpl. by rewrite Hb.
Qed.
Lemma parse_digits_one b : is_ascii_digit b = true -> parse_digits [b] = Some (u8 b - 48).
Proof. intros H. unfold parse_digits. simpl. by rewrite H. Qed.

Lemma show_digits_spec fuel z :
  0 <= z < 2 ^ Z.of_nat fuel -> (0 < fuel)%nat ->
  parse_digits (show_digits fuel z) = Some z /\ show_digits fuel z <> []
  /\ Forall (fun b => is_ascii_digit b = true) (show_digits fuel z).
Proof.
  revert z. induction fuel as [|f IH]; intros z Hz Hf; [lia|]. simpl.
  destruct (Z.ltb_spec z 10) as [Hlt|Hge].
  - assert (is_ascii_digit (digit z) = true) by (apply is_ascii_digit_digit; lia).
    rewrite parse_digits_one, u8_digit by (done || lia).
    split; [f_equal; lia|split; [done|by repeat constructor]].
  - assert (2 ^ Z.of_nat (S f) = 2 * 2 ^ Z.of_nat f) as E
      by (rewrite Nat2Z.inj_succ, Z.pow_succ_r; lia).
    destruct f as [|f']; [simpl in Hz; lia|].
    destruct (IH (z / 10)) as (Hp & Hne & Hall); [|lia|].
    { split; [apply Z.div_pos; lia|]. apply Z.div_lt_upper_bound; lia. }
    assert (0 <= z mod 10 < 10) by (apply Z.mod_pos_bound; lia).
    assert (is_ascii_digit (digit (z mod 10)) = true) by (apply is_ascii_digit_digit; lia).
    rewrite (parse_digits_snoc _ _ _ Hne Hp) by done. rewrite u8_digit by lia.
    split; [f_equal; pose proof (Z.div_mod z 10); lia|].
    split; [by intros [_ ?]%app_nil | apply Forall_app; by repeat constructor].
Qed.
Lemma show_u_spec z :
  0 <= z -> parse_digits (show_u z) = Some z /\ show_u z <> []
            /\ Forall (fun b => is_ascii_digit b = true) (show_u z).
Proof.
  intros Hz. unfold show_u. apply show_digits_spec; [|lia].
  split; [done|]. destruct (decide (z = 0)) as [->|]; [done|].
  rewrite Nat2Z.inj_succ, Z2Nat.id by apply Z.log2_nonneg.
  apply Z.log2_spec. lia.
Qed.
Lemma show_u_inj a b : 0 <= a -> 0 <= b -> show_u a = show_u b -> a = b.
Proof.
  intros Ha Hb E. destruct (show_u_spec a Ha) as [Pa _]. destruct (show_u_spec b Hb) as [Pb _].
  congruence.
Qed.
Lemma digit_not_sign b : is_ascii_digit b = true -> b <> "-"%byte /\ b <> "+"%byte.
Proof. intros H. by split; intros ->. Qed.
Lemma show_u_head z :
  0 <= z -> exists b t, show_u z = b :: t /\ is_ascii_digit b = true.
Proof.
  intros Hz. destruct (show_u_spec z Hz) as (_ & Hne & Hall).
  destruct (show_u z) as [|b t]; [done|]. inversion Hall. eauto.
Qed.
(** Printing and parsing back: [u64] and [i64] round trips. *)
Lemma parse_u_show w z : in_u w z = true -> parse_u w (show_u z) = Some z.
Proof.
  intros H. pose proof (proj1 (in_u_iff _ _) H). unfold parse_u.
  destruct (show_u_head z) as (b & t & E & Hb); [lia|].
  destruct (show_u_spec z) as [P _]; [lia|]. rewrite E in *.
  rewrite bool_decide_eq_false_2 by (by apply digit_not_sign).
  by rewrite P, H.
Qed.
Lemma parse_i_show w z : in_i w z = true -> parse_i w (show_i z) = Some z.
Proof.
  intros H. unfold parse_i, show_i. destruct (Z.ltb_spec z 0) as [Hn|Hp].
  - rewrite bool_decide_eq_true_2 by done.
    destruct (show_u_spec (- z)) as [-> _]; [lia|]. by rewrite Z.opp_involutive, H.
  - destruct (show_u_head z) as (b & t & E & Hb); [lia|].
    destruct (show_u_spec z) as [P _]; [lia|]. rewrite E in *.
    rewrite !bool_decide_eq_false_2 by (by apply digit_not_sign).
    by rewrite P, H.
Qed.
Lemma show_i_inj a b : in_i64 a = true -> in_i64 b = true -> show_i a = show_i b -> a = b.
Proof.
  intros Ha%parse_i_show Hb%parse_i_show E. congruence.
Qed.
Lemma show_u_ascii z : 0 <= z -> is_ascii (show_u z) = true.
Proof.
  intros Hz. destruct (show_u_spec z Hz) as (_ & _ & H). apply is_ascii_Forall.
  apply (Forall_impl _ _ _ H). intros b. unfold is_ascii_digit. lia.
Qed.
Lemma show_u_no_byte z c : 0 <= z -> is_ascii_digit c = false -> c ∉ show_u z.
Proof.
  intros Hz Hc Hin. destruct (show_u_spec z Hz) as (_ & _ & H).
  rewrite Forall_forall in H. apply H in Hin. congruence.
Qed.
Lemma show_i_no_byte z c : is_ascii_digit c = false -> c <> "-"%byte -> c ∉ show_i z.
Proof.
  intros Hd Hc. unfold show_i. destruct (Z.ltb_spec z 0); [apply not_elem_of_cons; split; [done|]|];
    apply show_u_no_byte; (lia || done).
Qed.
Lemma parse_u_range w s v : parse_u w s = Some v -> in_u w v = true.
Proof. unfold parse_u. repeat case_match; naive_solver. Qed.
Lemma parse_i_range w s v : parse_i w s = Some v -> in_i w v = true.
Proof. unfold parse_i. intros H. repeat split_match_in H; done. Qed.
Lemma show_digits_length fuel z : (length (show_digits fuel z) <= fuel)%nat.
Proof.
  revert z. induction fuel as [|f IH]; intros z; simpl; [done|]. case_match; simpl; [lia|].
  rewrite length_app. specialize (IH (z / 10)). simpl. lia.
Qed.
Lemma show_i_length z : in_i64 z = true -> (length (show_i z) <= 65)%nat.
Proof.
  intros Hz%in_i64_iff.
  assert (forall y, 0 <= y <= 9223372036854775808 -> (length (show_u y) <= 64)%nat) as Hu.
  { intros y Hy. unfold show_u. pose proof (show_digits_length (S (Z.to_nat (Z.log2 y))) y).
    pose proof (Z.log2_le_mono y 9223372036854775808 ltac:(lia)) as Hl.
    change (Z.log2 9223372036854775808) with 63 in Hl. pose proof (Z.log2_nonneg y). lia. }
  unfold show_i. case_match; to_prop; [cbn [length]; specialize (Hu (- z))|specialize (Hu z)]; lia.
Qed.
