(* ===== verification/Crates.v ===== *)
(** * Interfaces of the crates the gate links against

    The code of [base64], [hmac]/[ring], [sha2], [subtle], [serde_json] and
    [p256]/[ring] is not part of the repository.  Each crate is a type class of the
    operations the source calls, and a class of laws that state the documented
    behaviour a theorem relies on.  Nothing here assumes that a hash or a MAC is
    injective: theorems about authentication exhibit the colliding messages instead. *)
From Stdlib Require Import ZArith Lia.
From Stdlib Require Import Strings.Byte.
From stdpp Require Import base list strings option numbers countable sets.
From S2P Require Import Prelude RustStr.
Local Open Scope Z_scope.

(** ** [base64] 0.22, engine [URL_SAFE_NO_PAD] *)

Class Base64 := {
  b64_encode : bytes -> bytes;
  b64_decode : bytes -> option bytes;
  (** [decode_slice] into a buffer of the given size: the bytes written. *)
  b64_decode_slice : bytes -> nat -> option bytes;
}.
Definition b64_char (b : byte) : bool :=
  is_ascii_alphanumeric b || bool_decide (b = "-"%byte) || bool_decide (b = "_"%byte).
Class Base64Laws (B : Base64) : Prop := {
  b64_decode_encode b : b64_decode (b64_encode b) = Some b;
  (** The engine refuses padding, foreign characters and non-zero trailing bits. *)
  b64_decode_strict s b : b64_decode s = Some b -> s = b64_encode b;
  b64_encode_alphabet b : Forall (fun c => b64_char c = true) (b64_encode b);
  b64_encode_length b : length (b64_encode b) = ((4 * length b + 2) / 3)%nat;
  b64_decode_slice_spec s n :
    b64_decode_slice s n =
    (b <-? b64_decode s; if (length b <=? n)%nat then Some b else None);
}.

(** ** HMAC-SHA256 ([hmac] or [ring]) *)

Class Hmac := {
  KeyState : Type;
  MacState : Type;
  hmac_key : bytes -> KeyState;
  hmac_init : KeyState -> MacState;
  hmac_update : MacState -> bytes -> MacState;
  hmac_finish : MacState -> bytes;
  (** The one-shot function the streaming interface computes. *)
  hmac_sha256 : bytes -> bytes -> bytes;
}.
Class HmacLaws (H : Hmac) : Prop := {
  hmac_stream k parts :
    hmac_finish (foldl hmac_update (hmac_init (hmac_key k)) parts) = hmac_sha256 k (concat parts);
  hmac_length k m : length (hmac_sha256 k m) = 32%nat;
}.

(** ** SHA-256 ([sha2]) *)

Class Sha256 := {
  ShaState : Type;
  sha_new : ShaState;
  sha_update : ShaState -> bytes -> ShaState;
  sha_finalize : ShaState -> bytes;
  sha_digest : bytes -> bytes;
}.
Class Sha256Laws (S : Sha256) : Prop := {
  sha_stream parts :
    sha_finalize (foldl sha_update sha_new parts) = sha_digest (concat parts);
  sha_length m : length (sha_digest m) = 32%nat;
}.

(** ** Constant-time comparison ([subtle]) *)

Class Subtle := { slice_ct_eq : bytes -> bytes -> bool }.
Class SubtleLaws (S : Subtle) : Prop := {
  slice_ct_eq_spec a b : length a = length b -> slice_ct_eq a b = true <-> a = b;
}.

(** ** JSON ([serde_json])

    [rust_ok] holds of the values the Rust type has: integers in range, strings in
    UTF-8.  [serde]'s derived codecs round-trip on them and decode to nothing else. *)

Class RustVal (A : Type) := rust_ok : A -> bool.
Class Json (A : Type) := {
  to_vec : A -> bytes;
  from_slice : bytes -> option A;
}.
Class JsonLaws (A : Type) {R : RustVal A} {J : Json A} : Prop := {
  json_roundtrip a : rust_ok a = true -> from_slice (to_vec a) = Some a;
  json_typed s a : from_slice s = Some a -> rust_ok a = true;
}.
Lemma to_vec_inj `{JsonLaws A} (a b : A) :
  rust_ok a = true -> rust_ok b = true -> to_vec a = to_vec b -> a = b.
Proof.
  intros Ha%json_roundtrip Hb%json_roundtrip E. rewrite E in Ha. congruence.
Qed.

(** JSON text of strings: [to_string(&str)], and [to_string] of a tuple of strings,
    which the compact formatter prints as an array. *)
Class JsonText := {
  json_string : bytes -> bytes;
  json_strings : list bytes -> bytes;
}.
Fixpoint join (sep : bytes) (l : list bytes) : bytes :=
  match l with
  | [] => []
  | [x] => x
  | x :: l' => x ++ sep ++ join sep l'
  end.
Lemma join_cons sep x l : l <> [] -> join sep (x :: l) = x ++ sep ++ join sep l.
Proof. by destruct l. Qed.
Class JsonTextLaws (J : JsonText) : Prop := {
  json_strings_spec l :
    json_strings l = bs "[" ++ join (bs ",") (map json_string l) ++ bs "]";
  (** A JSON string literal ends at its closing quote. *)
  json_string_delimited a b x y :
    utf8_valid a = true -> utf8_valid b = true ->
    json_string a ++ x = json_string b ++ y -> a = b /\ x = y;
  json_strings_utf8 l : forallb utf8_valid l = true -> utf8_valid (json_strings l) = true;
}.
Section json_text_lemmas.
Context {J : JsonText} {JL : JsonTextLaws J}.

Lemma join_json_inj l1 l2 x y :
  forallb utf8_valid l1 = true -> forallb utf8_valid l2 = true ->
  length l1 = length l2 ->
  join (bs ",") (map json_string l1) ++ x = join (bs ",") (map json_string l2) ++ y -> l1 = l2.
Proof.
  revert l2. induction l1 as [|a l1 IH]; intros [|b l2] H1 H2 Hl E; try done.
  injection Hl as Hl. cbn [forallb] in H1, H2. to_prop. cbn [map] in E.
  destruct l1 as [|a' l1], l2 as [|b' l2]; try done; cbn [map join] in E.
  - apply json_string_delimited in E as [-> _]; done.
  - rewrite <- !app_assoc in E. apply json_string_delimited in E as [-> E]; [|done..].
    apply app_inv_head in E. f_equal. by apply IH.
Qed.
(** The array text determines the strings. *)
Lemma json_strings_inj l1 l2 :
  forallb utf8_valid l1 = true -> forallb utf8_valid l2 = true -> length l1 = length l2 ->
  json_strings l1 = json_strings l2 -> l1 = l2.
Proof.
  intros H1 H2 Hl E. rewrite !json_strings_spec in E. apply app_inv_head in E.
  by eapply join_json_inj.
Qed.
End json_text_lemmas.

(** ** ECDSA P-256 ([p256], [ring]) *)

Class Ecdsa := {
  VerifyingKey : Type;
  Signature : Type;
  vk_from_sec1 : bytes -> option VerifyingKey;
  vk_to_uncompressed : VerifyingKey -> bytes;
  sig_from_slice : bytes -> option Signature;
  vk_verify : VerifyingKey -> bytes -> Signature -> bool;
  (** [UnparsedPublicKey::new(&ECDSA_P256_SHA256_FIXED, pk).verify(msg, sig).is_ok()] *)
  ring_verify : bytes -> bytes -> bytes -> bool;
}.
(** Both back ends decide the same relation on an uncompressed key; [ring] takes
    no other encoding, [p256] also the compressed one. *)
Class EcdsaLaws (E : Ecdsa) : Prop := {
  vk_uncompressed_roundtrip vk : vk_from_sec1 (vk_to_uncompressed vk) = Some vk;
  ring_verify_spec pk m s :
    length pk <> 33%nat ->
    ring_verify pk m s =
    match vk_from_sec1 pk, sig_from_slice s with
    | Some vk, Some sg => vk_verify vk m sg
    | _, _ => false
    end;
  vk_uncompressed_length vk : length (vk_to_uncompressed vk) = 65%nat;
}.

(** ** Lemmas *)

Section base64_lemmas.
Context {B : Base64} {BL : Base64Laws B}.

Lemma b64_encode_inj a b : b64_encode a = b64_encode b -> a = b.
Proof. intros E. pose proof (b64_decode_encode a). pose proof (b64_decode_encode b). congruence. Qed.
Lemma b64_char_ascii c : b64_char c = true -> u8 c < 128.
Proof.
  intros H. apply Z.ltb_lt. revert c H.
  cut (forall c, implb (b64_char c) (u8 c <? 128) = true).
  { intros Hc c H. specialize (Hc c). by rewrite H in Hc. }
  byte_all (fun c => implb (b64_char c) (u8 c <? 128)).
Qed.
Lemma b64_encode_ascii b : is_ascii (b64_encode b) = true.
Proof.
  apply is_ascii_Forall. eapply Forall_impl; [apply b64_encode_alphabet|]. apply b64_char_ascii.
Qed.
Lemma b64_encode_utf8 b : utf8_valid (b64_encode b) = true.
Proof. apply utf8_valid_ascii, b64_encode_ascii. Qed.
Lemma b64_encode_no_byte c b : b64_char c = false -> c ∉ b64_encode b.
Proof.
  intros Hc Hin. pose proof (b64_encode_alphabet b) as H. rewrite Forall_forall in H.
  apply H in Hin. congruence.
Qed.
Lemma b64_no_dot b : "."%byte ∉ b64_encode b.
Proof. by apply b64_encode_no_byte. Qed.
Lemma b64_decode_length s b :
  b64_decode s = Some b -> length s = ((4 * length b + 2) / 3)%nat.
Proof. intros ->%b64_decode_strict. apply b64_encode_length. Qed.
End base64_lemmas.
#[export] Hint Resolve b64_encode_utf8 b64_encode_ascii b64_no_dot : pow.
