(* ===== verification/StandIns.v ===== *)
(** * Concrete instances of the crate interfaces

    Witnesses evaluate the theorems on these: base64url as RFC 4648 section 5
    describes it, and small deterministic functions in place of the hash, the MAC,
    the signature scheme and the JSON codec.  No definition that models the source
    uses this file; it shows that the laws of the interfaces can hold together. *)
From Stdlib Require Import ZArith Lia.
From Stdlib Require Import Strings.Byte.
From stdpp Require Import base list strings option numbers countable sets.
From S2P Require Import Prelude RustStr Crates.
Local Open Scope Z_scope.

(** ** base64url without padding *)

Definition alphabet : bytes :=
  bs "ABCDEFGHIJKLMNOPQRSTUVWXYZabcdefghijklmnopqrstuvwxyz0123456789-_".
Definition sextet_char (n : Z) : byte := default Byte.x00 (alphabet !! Z.to_nat n).
Definition char_sextet (c : byte) : option Z :=
  '(i, _) <-? list_find (fun x => x = c) alphabet; Some (Z.of_nat i).

Lemma sextet_char_ok n : 0 <= n < 64 ->
  char_sextet (sextet_char n) = Some n /\ b64_char (sextet_char n) = true.
Proof.
  intros H.
  cut (forallb (fun i => bool_decide (char_sextet (sextet_char (Z.of_nat i)) = Some (Z.of_nat i)
                           /\ b64_char (sextet_char (Z.of_nat i)) = true)) (seq 0 64) = true).
  { rewrite forallb_forall. intros Hf. specialize (Hf (Z.to_nat n)).
    rewrite Z2Nat.id in Hf by lia. apply bool_decide_eq_true in Hf; [done|]. apply in_seq. lia. }
  vm_compute. reflexivity.
Qed.
Lemma char_sextet_ok c n : char_sextet c = Some n -> 0 <= n < 64 /\ sextet_char n = c.
Proof.
  unfold char_sextet. destruct (list_find _ alphabet) as [[i x]|] eqn:E; [|done].
  intros [= <-]. apply list_find_Some in E as (Hi & -> & _).
  split; [apply lookup_lt_Some in Hi; change (length alphabet) with 64%nat in Hi; lia|].
  unfold sextet_char. by rewrite Nat2Z.id, Hi.
Qed.

Fixpoint std_encode (b : bytes) : bytes :=
  match b with
  | x :: y :: z :: b' =>
      sextet_char (u8 x / 4) :: sextet_char (u8 x mod 4 * 16 + u8 y / 16)
      :: sextet_char (u8 y mod 16 * 4 + u8 z / 64) :: sextet_char (u8 z mod 64) :: std_encode b'
  | [x; y] => [sextet_char (u8 x / 4); sextet_char (u8 x mod 4 * 16 + u8 y / 16);
               sextet_char (u8 y mod 16 * 4)]
  | [x] => [sextet_char (u8 x / 4); sextet_char (u8 x mod 4 * 16)]
  | [] => []
  end.
Fixpoint std_decode (s : bytes) : option bytes :=
  match s with
  | [] => Some []
  | [_] => None
  | [a; b] =>
      p <-? char_sextet a; q <-? char_sextet b;
      if q mod 16 =? 0 then Some [byte_of (p * 4 + q / 16)] else None
  | [a; b; c] =>
      p <-? char_sextet a; q <-? char_sextet b; r <-? char_sextet c;
      if r mod 4 =? 0
      then Some [byte_of (p * 4 + q / 16); byte_of (q mod 16 * 16 + r / 4)] else None
  | a :: b :: c :: d :: s' =>
      p <-? char_sextet a; q <-? char_sextet b; r <-? char_sextet c; t <-? char_sextet d;
      l <-? std_decode s';
      Some (byte_of (p * 4 + q / 16) :: byte_of (q mod 16 * 16 + r / 4)
            :: byte_of (r mod 4 * 64 + t) :: l)
  end.

(** Induction three bytes, or four characters, at a time. *)
Lemma list_ind3 {A} (P : list A -> Prop) :
  P [] -> (forall x, P [x]) -> (forall x y, P [x; y]) ->
  (forall x y z l, P l -> P (x :: y :: z :: l)) -> forall l, P l.
Proof.
  intros H0 H1 H2 H3. fix IH 1. intros [|x [|y [|z l]]]; [done|done|done|].
  apply H3, IH.
Qed.
Lemma list_ind4 {A} (P : list A -> Prop) :
  P [] -> (forall x, P [x]) -> (forall x y, P [x; y]) -> (forall x y z, P [x; y; z]) ->
  (forall x y z w l, P l -> P (x :: y :: z :: w :: l)) -> forall l, P l.
Proof.
  intros H0 H1 H2 H3 H4. fix IH 1. intros [|x [|y [|z [|w l]]]]; [done|done|done|done|].
  apply H4, IH.
Qed.
(** Every sextet the encoder computes is below 64. *)
Ltac sextets :=
  repeat match goal with
    | |- context [char_sextet (sextet_char ?n)] =>
        destruct (sextet_char_ok n) as [-> _]; [blia|]
    end.
Ltac byte_arith := apply u8_inj; rewrite u8_byte_of; blia.

Lemma std_decode_encode b : std_decode (std_encode b) = Some b.
Proof.
  induction b as [|x|x y|x y z l IH] using list_ind3; simpl; sextets; [done| | |].
  - rewrite (proj2 (Z.eqb_eq _ _)) by dlia. do 2 f_equal. byte_arith.
  - rewrite (proj2 (Z.eqb_eq _ _)) by dlia. f_equal. f_equal; [|f_equal]; byte_arith.
  - rewrite IH. f_equal. f_equal; [|f_equal; [|f_equal]]; byte_arith.
Qed.
Ltac sextets_in :=
  repeat match goal with
    | H : char_sextet ?c = Some _ |- _ => apply char_sextet_ok in H as [? <-]
    end.
Lemma std_decode_strict s b : std_decode s = Some b -> s = std_encode b.
Proof.
  revert b. induction s as [|x|x y|x y z|x y z w l IH] using list_ind4; intros b E; simpl in E.
  - by simplify_eq.
  - done.
  - repeat split_match_in E; to_prop; sextets_in. simpl.
    rewrite !u8_byte_of_small by dlia. repeat (f_equal; try dlia).
  - repeat split_match_in E; to_prop; sextets_in. simpl.
    rewrite !u8_byte_of_small by dlia. repeat (f_equal; try dlia).
  - repeat split_match_in E. erewrite (IH _ eq_refl). sextets_in. simpl.
    rewrite !u8_byte_of_small by dlia. repeat (f_equal; try dlia).
Qed.
Lemma std_encode_alphabet b : Forall (fun c => b64_char c = true) (std_encode b).
Proof.
  induction b as [|x|x y|x y z l IH] using list_ind3; simpl;
    repeat (constructor; [apply sextet_char_ok; blia|]); done.
Qed.
Lemma std_encode_length b : length (std_encode b) = ((4 * length b + 2) / 3)%nat.
Proof.
  induction b as [|x|x y|x y z l IH] using list_ind3; try done.
  cbn [std_encode length]. rewrite IH.
  replace (4 * S (S (S (length l))) + 2)%nat with (4 * length l + 2 + 4 * 3)%nat by lia.
  rewrite Nat.div_add by lia. lia.
Qed.

#[export] Instance std_base64 : Base64 := {|
  b64_encode := std_encode;
  b64_decode := std_decode;
  b64_decode_slice s n := b <-? std_decode s; if (length b <=? n)%nat then Some b else None;
|}.
#[export] Instance std_base64_laws : Base64Laws std_base64.
Proof.
  split; [apply std_decode_encode|apply std_decode_strict|apply std_encode_alphabet
         |apply std_encode_length|done].
Qed.

(** ** A 32-byte checksum in place of the hash and the MAC *)

Definition mix (acc : Z) (b : byte) : Z := Z.land (acc * 8197 + u8 b + 1) (Z.ones 256).
Definition checksum (m : bytes) : bytes := reverse (to_be_bytes 32 (foldl mix 0 m)).
Lemma checksum_length m : length (checksum m) = 32%nat.
Proof. unfold checksum. by rewrite length_reverse, to_be_bytes_length. Qed.

#[export] Instance std_hmac : Hmac := {|
  KeyState := bytes; MacState := bytes;
  hmac_key k := k; hmac_init k := k ++ [Byte.x00]; hmac_update s m := s ++ m;
  hmac_finish s := checksum s;
  hmac_sha256 k m := checksum (k ++ [Byte.x00] ++ m);
|}.
Lemma foldl_app_concat (s : bytes) parts : foldl (fun s m => s ++ m) s parts = s ++ concat parts.
Proof.
  revert s. induction parts as [|p ps IH]; intros s; simpl; [by rewrite app_nil_r|].
  by rewrite IH, app_assoc.
Qed.
#[export] Instance std_hmac_laws : HmacLaws std_hmac.
Proof.
  split; [|intros; apply checksum_length]. intros k parts. simpl.
  by rewrite foldl_app_concat, <- app_assoc.
Qed.
#[export] Instance std_sha : Sha256 := {|
  ShaState := bytes; sha_new := []; sha_update s m := s ++ m; sha_finalize := checksum;
  sha_digest := checksum;
|}.
#[export] Instance std_sha_laws : Sha256Laws std_sha.
Proof.
  split; [|intros; apply checksum_length]. intros parts. simpl. by rewrite foldl_app_concat.
Qed.
#[export] Instance std_subtle : Subtle := {| slice_ct_eq a b := beq a b |}.
#[export] Instance std_subtle_laws : SubtleLaws std_subtle.
Proof. split. intros. apply beq_true. Qed.

(** ** A codec in place of JSON: the fields of a value as string literals *)

(** String literals of this codec: the bytes, each in two characters, then a quote. *)
Definition quote_byte (b : byte) : bytes := [byte_of (65 + u8 b / 16); byte_of (65 + u8 b mod 16)].
Definition std_quote (s : bytes) : bytes := concat (map quote_byte s) ++ [Byte.x22].
Lemma quote_byte_delim b : Byte.x22 ∉ quote_byte b.
Proof.
  unfold quote_byte. rewrite !not_elem_of_cons.
  split_and!; try set_solver; intros E; apply (f_equal u8) in E; rewrite u8_byte_of_small in E;
    change (u8 Byte.x22) with 34 in E; blia.
Qed.
Lemma quote_byte_inj a b : quote_byte a = quote_byte b -> a = b.
Proof.
  intros E. apply u8_inj. injection E as E1 E2. apply (f_equal u8) in E1, E2.
  rewrite !u8_byte_of_small in E1, E2 by blia. blia.
Qed.
Lemma std_quote_delimited a b x y : std_quote a ++ x = std_quote b ++ y -> a = b /\ x = y.
Proof.
  unfold std_quote. intros E. rewrite <- !app_assoc in E. simpl in E.
  assert (forall l, Byte.x22 ∉ concat (map quote_byte l)) as Hn.
  { intros l. induction l as [|c l IH]; simpl; [set_solver|].
    pose proof (quote_byte_delim c). set_solver. }
  apply sep_inj in E as [E ->]; [|done..]. split; [|done].
  revert b E. induction a as [|c a IH]; intros [|d b] E; try done.
  cbn [map concat] in E. apply app_inj_1 in E as [E1 E2]; [|done].
  apply quote_byte_inj in E1 as ->. f_equal. by apply IH.
Qed.
#[export] Instance std_json_text : JsonText := {|
  json_string := std_quote;
  json_strings l := bs "[" ++ join (bs ",") (map std_quote l) ++ bs "]";
|}.
Lemma std_quote_ascii s : is_ascii (std_quote s) = true.
Proof.
  apply is_ascii_Forall. unfold std_quote. apply Forall_app. split; [|by repeat constructor].
  induction s as [|b s IH]; simpl; [constructor|].
  repeat constructor; [rewrite u8_byte_of_small; blia..|apply IH].
Qed.
Lemma is_ascii_app a b : is_ascii (a ++ b) = is_ascii a && is_ascii b.
Proof. apply forallb_app. Qed.
Lemma join_ascii l : is_ascii (join (bs ",") (map std_quote l)) = true.
Proof.
  induction l as [|x [|y l] IH]; [done|apply std_quote_ascii|].
  cbn [map join] in *. by rewrite !is_ascii_app, std_quote_ascii, IH.
Qed.
#[export] Instance std_json_text_laws : JsonTextLaws std_json_text.
Proof.
  split; [done|intros a b x y _ _; apply std_quote_delimited|].
  intros l _. apply utf8_valid_ascii. unfold json_strings, std_json_text.
  by rewrite !is_ascii_app, join_ascii.
Qed.

(** A value as its fields in order; the codec writes one literal after the other. *)
Class Fields (A : Type) := {
  to_fields : A -> list bytes;
  of_fields : list bytes -> option A;
}.
Fixpoint unquote_all (cur s : bytes) : option (list bytes) :=
  match s with
  | [] => match cur with [] => Some [] | _ => None end
  | a :: s1 =>
      if bool_decide (a = Byte.x22) then l <-? unquote_all [] s1; Some (reverse cur :: l)
      else match s1 with
           | b :: s2 => unquote_all (byte_of ((u8 a - 65) * 16 + (u8 b - 65)) :: cur) s2
           | [] => None
           end
  end.
Lemma unquote_all_quote cur f s :
  unquote_all cur (std_quote f ++ s) = l <-? unquote_all [] s; Some ((reverse cur ++ f) :: l).
Proof.
  revert cur. induction f as [|b f IH]; intros cur.
  - simpl. by rewrite app_nil_r.
  - assert (std_quote (b :: f) ++ s = quote_byte b ++ std_quote f ++ s) as ->.
    { unfold std_quote. simpl. done. }
    pose proof (quote_byte_delim b) as Hq. unfold quote_byte in *. cbn [app unquote_all].
    rewrite bool_decide_eq_false_2 by set_solver.
    rewrite IH, reverse_cons, <- app_assoc. rewrite !u8_byte_of_small by blia.
    replace (byte_of _) with b; [done|]. apply u8_inj. rewrite u8_byte_of_small; blia.
Qed.
Lemma unquote_all_concat l : unquote_all [] (concat (map std_quote l)) = Some l.
Proof. induction l as [|f l IH]; simpl; [done|]. by rewrite unquote_all_quote, IH. Qed.

Section std_json.
Context {A : Type} {R : RustVal A} {F : Fields A}.

Definition std_json : Json A := {|
  to_vec a := concat (map std_quote (to_fields a));
  from_slice s :=
    l <-? unquote_all [] s; a <-? of_fields l; if rust_ok a then Some a else None;
|}.
Lemma std_json_laws :
  (forall a, rust_ok a = true -> of_fields (to_fields a) = Some a) -> JsonLaws A (J := std_json).
Proof.
  intros HF. split.
  - intros a Ha. simpl. by rewrite unquote_all_concat, HF, Ha.
  - intros s a E. simpl in E. by repeat split_match_in E.
Qed.
End std_json.

(** ** A signature scheme in which the signature is a checksum of key and message *)

Definition std_sign (pk m : bytes) : bytes := checksum (pk ++ m) ++ checksum m.
#[export] Instance std_ecdsa : Ecdsa := {|
  VerifyingKey := sig (fun k : bytes => bool_decide (length k = 65%nat) = true);
  Signature := bytes;
  vk_from_sec1 k := let k := if (length k =? 33)%nat then k ++ replicate 32 Byte.x00 else k in
                    match decide (bool_decide (length k = 65%nat) = true) with
                    | left H => Some (k ↾ H) | right _ => None end;
  vk_to_uncompressed k := `k;
  sig_from_slice s := if (length s =? 64)%nat then Some s else None;
  vk_verify k m s := beq s (std_sign (`k) m);
  ring_verify k m s := bool_decide (length k = 65%nat) && (length s =? 64)%nat && beq s (std_sign k m);
|}.
#[export] Instance std_ecdsa_laws : EcdsaLaws std_ecdsa.
Proof.
  split.
  - intros [k Hk]. simpl. pose proof Hk as Hl. apply bool_decide_eq_true in Hl.
    replace (length k =? 33)%nat with false by (symmetry; apply Nat.eqb_neq; lia).
    case_decide; [|done]. f_equal. by apply (sig_eq_pi _).
  - intros pk m s H33. simpl. rewrite (proj2 (Nat.eqb_neq _ 33) H33). case_decide as H.
    + simpl. replace (bool_decide (length pk = 65%nat)) with true by done.
      by destruct (length s =? 64)%nat.
    + apply not_true_is_false in H. by rewrite H.
  - intros [k Hk]. simpl. by apply bool_decide_eq_true in Hk.
Qed.
