(* ===== verification/Codec.v ===== *)
(** * [codec.rs]: base64url and hex *)
From Stdlib Require Import ZArith Lia.
From Stdlib Require Import Strings.Byte.
From stdpp Require Import base list strings option numbers countable sets.
From S2P Require Import Prelude RustStr Crates StandIns.
Local Open Scope Z_scope.

Section codec.
Context {B : Base64}.

Definition b64url (b : bytes) : bytes := b64_encode b.
Definition unb64url (s : bytes) : option bytes := b64_decode s.
(** The bytes written to an output slice of [n] bytes; their number is what the
    Rust function returns. *)
Definition unb64url_into (s : bytes) (n : nat) : option bytes := b64_decode_slice s n.
Definition unb64url_fixed (N : nat) (s : bytes) : option bytes :=
  output <-? unb64url_into s N;
  if (length output =? N)%nat then Some output else None.
End codec.

(** [char::from_digit(d, 16)]. *)
Definition from_digit16 (d : Z) : byte := if d <? 10 then byte_of (48 + d) else byte_of (87 + d).
Definition hex (b : bytes) : bytes :=
  flat_map (fun x => [from_digit16 (Z.shiftr (u8 x) 4); from_digit16 (Z.land (u8 x) 15)]) b.

(** ** Lemmas *)

Section codec_lemmas.
Context {B : Base64} {BL : Base64Laws B}.

Lemma unb64url_b64url b : unb64url (b64url b) = Some b.
Proof. apply b64_decode_encode. Qed.
Lemma unb64url_into_eq s n :
  unb64url_into s n = (b <-? unb64url s; if (length b <=? n)%nat then Some b else None).
Proof. apply b64_decode_slice_spec. Qed.
Lemma unb64url_fixed_eq N s :
  unb64url_fixed N s = (b <-? unb64url s; if (length b =? N)%nat then Some b else None).
Proof.
  unfold unb64url_fixed. rewrite unb64url_into_eq.
  destruct (unb64url s) as [b|]; [|done].
  destruct (Nat.leb_spec (length b) N), (Nat.eqb_spec (length b) N); try done; try lia.
Qed.
Lemma unb64url_fixed_Some N s b :
  unb64url_fixed N s = Some b <-> s = b64url b /\ length b = N.
Proof.
  rewrite unb64url_fixed_eq. split.
  - destruct (unb64url s) as [c|] eqn:E; [|done]. case_match; [|done]. intros [= ->]. to_prop.
    by apply b64_decode_strict in E.
  - intros [-> <-]. by rewrite unb64url_b64url, Nat.eqb_refl.
Qed.
Lemma b64url_utf8 b : utf8_valid (b64url b) = true.
Proof. apply b64_encode_utf8. Qed.
Lemma b64url_no_dot b : "."%byte ∉ b64url b.
Proof. apply b64_no_dot. Qed.
Lemma b64url_inj a b : b64url a = b64url b -> a = b.
Proof. apply b64_encode_inj. Qed.
Lemma unb64url_Some s b : unb64url s = Some b <-> s = b64url b.
Proof. split; [apply b64_decode_strict|intros ->; apply unb64url_b64url]. Qed.
Lemma b64url_length b : length (b64url b) = ((4 * length b + 2) / 3)%nat.
Proof. apply b64_encode_length. Qed.
End codec_lemmas.
#[export] Hint Resolve b64url_utf8 b64url_no_dot : pow.

Lemma hex_nibbles x :
  u8 (from_digit16 (Z.shiftr (u8 x) 4)) = (let d := u8 x / 16 in if d <? 10 then 48 + d else 87 + d) /\
  u8 (from_digit16 (Z.land (u8 x) 15)) = (let d := u8 x mod 16 in if d <? 10 then 48 + d else 87 + d).
Proof.
  rewrite Z.shiftr_div_pow2 by lia. change 15 with (Z.ones 4). rewrite Z.land_ones by lia.
  change (2 ^ 4) with 16. unfold from_digit16. cbv zeta.
  split; case_match; to_prop; rewrite u8_byte_of_small; blia.
Qed.
Lemma hex_length b : length (hex b) = (2 * length b)%nat.
Proof. induction b as [|x b IH]; [done|]. simpl. rewrite IH. lia. Qed.
Lemma hex_inj a b : hex a = hex b -> a = b.
Proof.
  revert b. induction a as [|x a IH]; intros [|y b]; simpl; intros E; try done.
  injection E as E1 E2 E3. f_equal; [|by apply IH]. apply u8_inj.
  destruct (hex_nibbles x) as [H1 H2], (hex_nibbles y) as [H3 H4]. cbv zeta in *.
  apply (f_equal u8) in E1, E2. rewrite H1, H3 in E1. rewrite H2, H4 in E2.
  repeat case_match; to_prop; blia.
Qed.
Definition hex_char (c : byte) : bool := is_ascii_digit c || ((97 <=? u8 c) && (u8 c <=? 102)).
Lemma hex_alphabet b : Forall (fun c => hex_char c = true) (hex b).
Proof.
  induction b as [|x b IH]; simpl; [constructor|].
  destruct (hex_nibbles x) as [H1 H2]. unfold hex_char, is_ascii_digit.
  repeat constructor; [rewrite H1|rewrite H2|apply IH]; cbv zeta; case_match; to_prop; blia.
Qed.
Lemma hex_char_ascii c : hex_char c = true -> u8 c < 128.
Proof. unfold hex_char, is_ascii_digit. lia. Qed.
Lemma hex_utf8 b : utf8_valid (hex b) = true.
Proof.
  apply utf8_valid_ascii, is_ascii_Forall.
  eapply Forall_impl; [apply hex_alphabet|]. apply hex_char_ascii.
Qed.
#[export] Hint Resolve hex_utf8 : pow.
