(* ===== verification/Mac.v ===== *)
(** * [mac.rs]: HMAC-SHA256 over parts and over length-prefixed fields

    [HmacKey] is the prepared key schedule; [parts] and [fields] are the two loops
    that feed a fresh MAC state; [ct_eq] the comparison every token check uses. *)
From Stdlib Require Import ZArith Lia.
From Stdlib Require Import Strings.Byte.
From stdpp Require Import base list strings option numbers countable sets.
From S2P Require Import Prelude RustStr Crates StandIns.
Local Open Scope Z_scope.

(** The [update] calls of a loop that sends each field's length and then the field. *)
Definition framed (fs : list bytes) : list bytes :=
  flat_map (fun f => [to_be_bytes 8 (Z.of_nat (length f)); f]) fs.
(** Every [usize] fits the eight bytes of the prefix. *)
Definition framable (fs : list bytes) : bool :=
  forallb (fun f => Z.of_nat (length f) <? 2 ^ 64) fs.

Section mac.
Context {H : Hmac} {C : Subtle}.

Definition HmacKey : Type := KeyState.
Definition new (key : bytes) : HmacKey := hmac_key key.
Definition start (k : HmacKey) : MacState := hmac_init k.
Definition parts (k : HmacKey) (ps : list bytes) : bytes :=
  hmac_finish (foldl hmac_update (start k) ps).
Definition fields (k : HmacKey) (fs : list bytes) : bytes :=
  hmac_finish
    (foldl (fun mac f => hmac_update (hmac_update mac (to_be_bytes 8 (Z.of_nat (length f)))) f)
       (start k) fs).
Definition hmac (key msg : bytes) : bytes := parts (new key) [msg].
Definition ct_eq (a b : bytes) : bool := (length a =? length b)%nat && slice_ct_eq a b.
End mac.

(** Two different messages with one MAC under one key. *)
Definition hmac_collision {H : Hmac} (key m1 m2 : bytes) : Prop :=
  m1 <> m2 /\ hmac_sha256 key m1 = hmac_sha256 key m2.

(** ** Lemmas *)

Lemma foldl_framed {S} (upd : S -> bytes -> S) (s : S) fs :
  foldl (fun st f => upd (upd st (to_be_bytes 8 (Z.of_nat (length f)))) f) s fs
  = foldl upd s (framed fs).
Proof.
  revert s. induction fs as [|f fs IH]; intros s; [done|]. simpl. apply IH.
Qed.
Lemma framed_cons f fs :
  concat (framed (f :: fs)) = to_be_bytes 8 (Z.of_nat (length f)) ++ f ++ concat (framed fs).
Proof. done. Qed.
(** The framing is injective: no two field lists give the same bytes. *)
Lemma framed_inj a b :
  framable a = true -> framable b = true -> concat (framed a) = concat (framed b) -> a = b.
Proof.
  revert b. induction a as [|x a IH]; intros [|y b]; intros Ha Hb E;
    rewrite ?framed_cons in E.
  - done.
  - by apply (f_equal length) in E; rewrite length_app, to_be_bytes_length in E.
  - by apply (f_equal length) in E; rewrite length_app, to_be_bytes_length in E.
  - simpl in Ha, Hb. to_prop.
    apply app_eq_inj in E as [E1 E2]; [|by rewrite !to_be_bytes_length].
    apply to_be_bytes_inj in E1; [|change (256 ^ Z.of_nat 8) with (2 ^ 64); lia..].
    apply app_eq_inj in E2 as [-> E2]; [|lia].
    f_equal. by apply IH.
Qed.

Section mac_lemmas.
Context {H : Hmac} {HL : HmacLaws H} {C : Subtle} {CL : SubtleLaws C}.

Lemma parts_eq key ps : parts (new key) ps = hmac_sha256 key (concat ps).
Proof. apply hmac_stream. Qed.
Lemma fields_eq key fs : fields (new key) fs = hmac_sha256 key (concat (framed fs)).
Proof. unfold fields. rewrite foldl_framed. apply hmac_stream. Qed.
Lemma hmac_eq key m : hmac key m = hmac_sha256 key m.
Proof. unfold hmac. rewrite parts_eq. simpl. by rewrite app_nil_r. Qed.
Lemma ct_eq_true a b : ct_eq a b = true <-> a = b.
Proof.
  unfold ct_eq. rewrite andb_true_iff, Nat.eqb_eq. split.
  - intros [Hl Hs]. by apply slice_ct_eq_spec in Hs.
  - intros ->. split; [done|]. by apply slice_ct_eq_spec.
Qed.
Lemma ct_eq_refl a : ct_eq a a = true.
Proof. by apply ct_eq_true. Qed.
Lemma ct_eq_beq a b : ct_eq a b = beq a b.
Proof. apply eq_true_iff_eq. by rewrite ct_eq_true, beq_true. Qed.
(** Equal MACs: equal messages, or a collision. *)
Lemma hmac_sha256_cases key m1 m2 :
  hmac_sha256 key m1 = hmac_sha256 key m2 -> m1 = m2 \/ hmac_collision key m1 m2.
Proof. intros E. destruct (decide (m1 = m2)); [by left|by right]. Qed.
Lemma fields_cases key f1 f2 :
  framable f1 = true -> framable f2 = true ->
  fields (new key) f1 = fields (new key) f2 ->
  f1 = f2 \/ hmac_collision key (concat (framed f1)) (concat (framed f2)).
Proof.
  intros H1 H2. rewrite !fields_eq. intros [E|E]%hmac_sha256_cases; [left|by right].
  by apply framed_inj.
Qed.
End mac_lemmas.
