(* ===== verification/Cookie.v ===== *)
(** * [cookie.rs]: scoped cookie names *)
From Stdlib Require Import ZArith Lia.
From Stdlib Require Import Strings.Byte.
From stdpp Require Import base list strings option numbers countable sets.
From S2P Require Import Prelude RustStr Crates StandIns Codec Mac.
Local Open Scope Z_scope.

(** [format!("{b:02x}")] of each byte, concatenated. *)
Definition lower_hex2 (b : bytes) : bytes :=
  flat_map (fun x => [from_digit16 (u8 x / 16); from_digit16 (u8 x mod 16)]) b.

Section cookie.
Context {S : Sha256}.

Definition scoped_name (base : bytes) (fields : list bytes) : bytes :=
  let hash := sha_update sha_new (bs "pow-gate-cookie-scope-v2") in
  let hash := foldl (fun hash field =>
                sha_update (sha_update hash (to_be_bytes 8 (Z.of_nat (length field)))) field)
                hash (base :: fields) in
  let digest := sha_finalize hash in
  let suffix := lower_hex2 (take 12 digest) in
  base ++ bs "_" ++ suffix.
End cookie.

(** ** Lemmas *)

Lemma lower_hex2_hex b : lower_hex2 b = hex b.
Proof.
  unfold lower_hex2, hex. induction b as [|x b IH]; [done|]. simpl. rewrite IH.
  rewrite Z.shiftr_div_pow2 by lia. change 15 with (Z.ones 4). by rewrite Z.land_ones by lia.
Qed.
Lemma scoped_name_eq {S : Sha256} {SL : Sha256Laws S} base fields :
  scoped_name base fields =
  base ++ bs "_" ++
  hex (take 12 (sha_digest (bs "pow-gate-cookie-scope-v2" ++ concat (framed (base :: fields))))).
Proof.
  unfold scoped_name. cbv zeta. rewrite foldl_framed, lower_hex2_hex.
  pose proof (sha_stream (bs "pow-gate-cookie-scope-v2" :: framed (base :: fields))) as E.
  cbn [foldl] in E. rewrite E. done.
Qed.

(** ** Properties *)

(** Two scopes with the same cookie name are the same
    scope, field by field, or exhibit two different messages whose SHA-256 digests
    agree on their first 96 bits. *)
Theorem scoped_name_distinct {S : Sha256} {SL : Sha256Laws S} base1 base2 fields1 fields2 :
  framable (base1 :: fields1) = true -> framable (base2 :: fields2) = true ->
  scoped_name base1 fields1 = scoped_name base2 fields2 ->
  (base1 = base2 /\ fields1 = fields2) \/
  exists m1 m2, m1 <> m2 /\ take 12 (sha_digest m1) = take 12 (sha_digest m2).
Proof.
  intros H1 H2. rewrite !scoped_name_eq. intros E. rewrite !app_assoc in E.
  apply app_inj_2 in E as [_ E]; [|by rewrite !hex_length, !length_take, !sha_length].
  apply hex_inj in E.
  match type of E with take _ (sha_digest ?a) = take _ (sha_digest ?b) =>
    destruct (decide (a = b)) as [Hab|Hab]; [left|right; by exists a, b] end.
  apply app_inv_head in Hab. apply framed_inj in Hab; [by simplify_eq|done..].
Qed.
Lemma scoped_name_distinct_witness :
  scoped_name (bs "pow_clearance") [bs "a"; bs "/"] <> scoped_name (bs "pow_clearance") [bs "a/"; []]
  /\ bs "pow_clearance" = bs "pow_clearance".
Proof.
  split; [vm_compute; discriminate|].
  destruct (scoped_name_distinct (bs "pow_clearance") (bs "pow_clearance") [bs "a"] [bs "a"])
    as [[? _]|_]; [vm_compute; reflexivity..|reflexivity|reflexivity].
Defined.
