(* ===== verification/Target.v ===== *)
(** * [target.rs]: difficulty, target and the proof-of-work check *)
From Stdlib Require Import ZArith Lia.
From Stdlib Require Import Strings.Byte.
From stdpp Require Import base list strings option numbers countable sets.
From S2P Require Import Prelude RustStr Crates StandIns.
Local Open Scope Z_scope.

(** The 33 base-256 digits of [2^256]. *)
Definition numerator : bytes := Byte.x01 :: replicate 32 Byte.x00.

(** One round of the long division: [cur = (remainder << 8) | digit]. *)
Definition div_step (d : Z) (st : bytes * Z) (dig : byte) : bytes * Z :=
  let '(quotient, remainder) := st in
  let cur := Z.lor (wrap_u 128 (Z.shiftl remainder 8)) (u8 dig) in
  (quotient ++ [byte_of (cur / d)], cur mod d).
Definition difficulty_to_target (difficulty : Z) : bytes :=
  if difficulty <=? 1 then replicate 32 Byte.xff
  else drop 1 (foldl (div_step difficulty) ([], 0) numerator).1.

Fixpoint hash_below (hash target : bytes) : bool :=
  match hash, target with
  | h :: hash', t :: target' =>
      if bool_decide (h = t) then hash_below hash' target' else u8 h <? u8 t
  | _, _ => false
  end.

Section target.
Context {S : Sha256}.

Definition pow_hash (salt : bytes) (nonce : Z) : bytes :=
  sha_finalize (sha_update (sha_update sha_new salt) (show_u nonce)).
Definition solution_valid (salt : bytes) (nonce difficulty : Z) : bool :=
  hash_below (pow_hash salt nonce) (difficulty_to_target difficulty).
End target.

(** ** The long division *)

Lemma lor_shift8 r b : 0 <= r -> Z.lor (Z.shiftl r 8) (u8 b) = r * 256 + u8 b.
Proof.
  intros Hr. rewrite Z.shiftl_mul_pow2 by lia. change (2 ^ 8) with 256.
  rewrite <- Z.add_lor_land, Z.add_comm.
  assert (Z.land (r * 256) (u8 b) = 0) as ->; [|lia].
  apply Z.bits_inj'. intros n Hn. rewrite Z.land_spec, Z.bits_0.
  change 256 with (2 ^ 8). rewrite <- Z.shiftl_mul_pow2 by lia.
  destruct (Z.ltb_spec n 8); [by rewrite Z.shiftl_spec_low|].
  rewrite (Z.bits_above_log2 (u8 b) n); [by rewrite andb_false_r|blia|].
  destruct (decide (u8 b = 0)) as [->|]; [change (Z.log2 0) with 0; lia|].
  apply Z.log2_lt_pow2; [blia|]. apply Z.lt_le_trans with (2 ^ 8); [blia|].
  apply Z.pow_le_mono_r; lia.
Qed.
(** The loop invariant: quotient digits and remainder of the digits read so far.  The
    remainder stays below the divisor, so the shift keeps every bit and each quotient
    digit fits a byte. *)
Lemma div_loop d l q r v :
  2 <= d < 2 ^ 64 -> 0 <= r < d -> be_val q * d + r = v ->
  let '(q', r') := foldl (div_step d) (q, r) l in
  length q' = (length q + length l)%nat /\ 0 <= r' < d /\
  be_val q' * d + r' = v * 256 ^ Z.of_nat (length l) + be_val l.
Proof.
  intros Hd. revert q r v. induction l as [|b l IH]; intros q r v Hr Hv.
  - simpl. change (256 ^ Z.of_nat 0) with 1. change (be_val []) with 0. split; lia.
  - cbn [foldl]. unfold div_step at 2.
    rewrite (wrap_u_id 128) by (apply in_u_iff; rewrite Z.shiftl_mul_pow2 by lia; lia).
    rewrite lor_shift8 by lia.
    assert (0 <= (r * 256 + u8 b) / d < 256) as Hq.
    { split; [apply Z.div_pos; blia|]. apply Z.div_lt_upper_bound; blia. }
    pose proof (Z.mod_pos_bound (r * 256 + u8 b) d ltac:(lia)).
    specialize (IH (q ++ [byte_of ((r * 256 + u8 b) / d)]) ((r * 256 + u8 b) mod d)
                  (v * 256 + u8 b)).
    destruct (foldl _ _ l) as [q' r'].
    destruct IH as (Hl & Hr' & He); [done| |].
    { rewrite be_val_snoc, u8_byte_of_small by lia.
      pose proof (Z.div_mod (r * 256 + u8 b) d ltac:(lia)). lia. }
    split; [rewrite Hl, length_app; simpl; lia|]. split; [done|].
    rewrite He, be_val_cons. simpl length.
    replace (Z.of_nat (S (length l))) with (Z.succ (Z.of_nat (length l))) by lia.
    rewrite Z.pow_succ_r by lia. ring.
Qed.
Lemma difficulty_to_target_length d : 0 <= d < 2 ^ 64 -> length (difficulty_to_target d) = 32%nat.
Proof.
  intros Hd. unfold difficulty_to_target. case_match; [done|]. to_prop.
  pose proof (div_loop d numerator [] 0 0 ltac:(lia) ltac:(lia) eq_refl) as H0.
  destruct (foldl _ _ numerator) as [q r]. destruct H0 as (Hl & _ & _). simpl.
  rewrite length_drop, Hl. done.
Qed.
Lemma difficulty_to_target_val d :
  0 <= d < 2 ^ 64 ->
  be_val (difficulty_to_target d) = if d <=? 1 then 2 ^ 256 - 1 else 2 ^ 256 / d.
Proof.
  intros Hd. unfold difficulty_to_target. case_match; [done|]. to_prop.
  pose proof (div_loop d numerator [] 0 0 ltac:(lia) ltac:(lia) eq_refl) as H0.
  destruct (foldl _ _ numerator) as [q r]. destruct H0 as (Hl & Hr & He). simpl.
  change (length numerator) with 33%nat in *. change (be_val numerator) with (2 ^ 256) in He.
  assert (be_val q = 2 ^ 256 / d) as Hq.
  { apply Z.div_unique with r; [lia|]. rewrite Z.mul_comm. lia. }
  destruct q as [|b q]; [done|]. change (drop 1 (b :: q)) with q. rewrite <- Hq, be_val_cons.
  injection Hl as Hl. rewrite Hl. change (256 ^ Z.of_nat 32) with (2 ^ 256).
  assert (be_val (b :: q) < 2 ^ 256) as Hlt.
  { rewrite Hq. apply Z.div_lt_upper_bound; lia. }
  rewrite be_val_cons, Hl in Hlt. change (256 ^ Z.of_nat 32) with (2 ^ 256) in Hlt.
  pose proof (be_val_nonneg q). assert (u8 b = 0) as -> by blia. lia.
Qed.
(** The comparison byte by byte is the comparison of the numbers. *)
Lemma hash_below_lt h t : length h = length t -> hash_below h t = (be_val h <? be_val t).
Proof.
  revert t. induction h as [|a h IH]; intros [|b t] Hl; try done. cbn [hash_below].
  injection Hl as Hl. rewrite !be_val_cons, Hl.
  pose proof (be_val_range h) as Hh. pose proof (be_val_range t) as Ht. rewrite Hl in Hh.
  case_bool_decide as Hab.
  - subst. rewrite IH by done. apply eq_true_iff_eq. rewrite !Z.ltb_lt. lia.
  - assert (u8 a <> u8 b) by (intros ?%u8_inj; done).
    apply eq_true_iff_eq. rewrite !Z.ltb_lt.
    set (w := 256 ^ Z.of_nat (length t)) in *. split; intros; nia.
Qed.

(** ** Properties *)

(** C14: For every difficulty from 2 up to the largest [u64], the
    base-256 long division computes the 32 big-endian bytes of
    [floor(2^256 / difficulty)]. *)
Theorem target_exact difficulty :
  2 <= difficulty < 2 ^ 64 ->
  difficulty_to_target difficulty = to_be_bytes 32 (2 ^ 256 / difficulty).
Proof.
  intros Hd. apply be_val_inj.
  - rewrite difficulty_to_target_length, to_be_bytes_length by lia. done.
  - rewrite difficulty_to_target_val, be_val_to_be_bytes by lia.
    rewrite (proj2 (Z.leb_gt _ _)) by lia. change (256 ^ Z.of_nat 32) with (2 ^ 256).
    rewrite Z.mod_small; [done|]. split; [apply Z.div_pos; lia|].
    apply Z.div_lt_upper_bound; lia.
Qed.
Lemma target_exact_witness :
  difficulty_to_target 50000 = to_be_bytes 32 (2 ^ 256 / 50000).
Proof. apply (target_exact 50000). lia. Defined.

Section target_properties.
Context {S : Sha256} {SL : Sha256Laws S}.

Lemma pow_hash_eq salt nonce : pow_hash salt nonce = sha_digest (salt ++ show_u nonce).
Proof.
  unfold pow_hash. pose proof (sha_stream [salt; show_u nonce]) as E. simpl in E.
  by rewrite E, app_nil_r.
Qed.
Lemma solution_valid_lt salt nonce d :
  0 <= d < 2 ^ 64 ->
  solution_valid salt nonce d =
  (be_val (sha_digest (salt ++ show_u nonce)) <? if d <=? 1 then 2 ^ 256 - 1 else 2 ^ 256 / d).
Proof.
  intros Hd. unfold solution_valid. rewrite pow_hash_eq, hash_below_lt.
  - by rewrite difficulty_to_target_val.
  - by rewrite sha_length, difficulty_to_target_length.
Qed.
End target_properties.

(** The bound of a difficulty: [floor(2^256 / difficulty)], and for 0 and 1, which ask for no
    work, the largest 256-bit number. *)
Definition bound (difficulty : Z) : Z := if difficulty <=? 1 then 2 ^ 256 - 1 else 2 ^ 256 / difficulty.

(** C15: The rule a client must meet and the server checks, for every [u64] difficulty: a nonce
    solves a salt exactly when the digest of [salt || decimal nonce], read as a 256-bit number,
    is strictly below [floor(2^256 / difficulty)] for difficulties from 2, and strictly below
    [2^256 - 1] (so every digest but the one of all ones) for difficulties 0 and 1. *)
Theorem solution_valid_exact {S : Sha256} {SL : Sha256Laws S} salt nonce difficulty :
  in_u64 difficulty = true ->
  solution_valid salt nonce difficulty = true <->
  be_val (sha_digest (salt ++ show_u nonce)) < bound difficulty.
Proof. intros Hd%in_u64_iff. by rewrite solution_valid_lt, Z.ltb_lt by lia. Qed.
Lemma solution_valid_exact_witness :
  (solution_valid (bs "salt") 7 2 = true <-> be_val (sha_digest (bs "salt" ++ show_u 7)) < 2 ^ 256 / 2)
  /\ (solution_valid (bs "salt") 7 1 = true <-> be_val (sha_digest (bs "salt" ++ show_u 7)) < 2 ^ 256 - 1).
Proof.
  split; [apply (solution_valid_exact (bs "salt") 7 2)|apply (solution_valid_exact (bs "salt") 7 1)]; reflexivity.
Defined.

(** Work for a difficulty is work for every lower one:
    raising the difficulty can only shrink the set of accepted nonces. *)
Theorem solution_valid_mono {S : Sha256} {SL : Sha256Laws S} salt nonce low high :
  0 <= low <= high -> high < 2 ^ 64 ->
  solution_valid salt nonce high = true -> solution_valid salt nonce low = true.
Proof.
  intros Hle Hhi. rewrite !solution_valid_lt, !Z.ltb_lt by lia. intros Hs.
  eapply Z.lt_le_trans; [exact Hs|].
  destruct (Z.leb_spec high 1), (Z.leb_spec low 1); try lia.
  - assert (2 ^ 256 / high <= 2 ^ 256 / 2) by (apply Z.div_le_compat_l; lia).
    change (2 ^ 256 / 2) with (2 ^ 255) in *. lia.
  - apply Z.div_le_compat_l; lia.
Qed.
Lemma solution_valid_mono_witness :
  solution_valid (bs "salt") 5 3 = true /\ solution_valid (bs "salt") 7 2 = true.
Proof.
  assert (solution_valid (bs "salt") 5 3 = true) as H3 by (vm_compute; reflexivity).
  split; [exact H3|]. apply (solution_valid_mono (bs "salt") 7 2 3); [lia|lia|exact H3].
Defined.

(** At difficulty 0 and 1 the comparison is still
    strict, so the one digest of all ones is refused: "every hash passes" holds of
    every digest but that one. *)
Theorem minimal_difficulty_not_total {S : Sha256} {SL : Sha256Laws S} salt nonce difficulty :
  0 <= difficulty <= 1 ->
  solution_valid salt nonce difficulty = true <->
  sha_digest (salt ++ show_u nonce) <> replicate 32 Byte.xff.
Proof.
  intros Hd. rewrite solution_valid_lt, (proj2 (Z.leb_le _ _)), Z.ltb_lt by lia.
  pose proof (be_val_range (sha_digest (salt ++ show_u nonce))) as Hr. rewrite sha_length in Hr.
  change (256 ^ Z.of_nat 32) with (2 ^ 256) in Hr. split.
  - intros Hlt E. rewrite E in Hlt. vm_compute in Hlt. discriminate.
  - intros Hne. enough (be_val (sha_digest (salt ++ show_u nonce)) <> 2 ^ 256 - 1) by lia.
    intros E. apply Hne. apply be_val_inj; [by rewrite sha_length|]. rewrite E. done.
Qed.
Lemma minimal_difficulty_not_total_witness :
  solution_valid (bs "salt") 0 1 = true <->
  sha_digest (bs "salt" ++ show_u 0) <> replicate 32 Byte.xff.
Proof. apply (minimal_difficulty_not_total (bs "salt") 0 1). lia. Defined.
