(* ===== verification/Ip.v ===== *)
(** * [std::net]: IP addresses, how they print and how they parse

    An address is its number, as [u32::from] and [u128::from] give it.  Printing and
    parsing follow the standard library: RFC 5952 text for IPv6, strict dotted
    decimal for IPv4. *)
From Stdlib Require Import ZArith Lia.
From Stdlib Require Import Strings.Byte.
From stdpp Require Import base list strings option numbers countable sets.
From S2P Require Import Prelude RustStr.
Local Open Scope Z_scope.

Inductive IpAddr := V4 (a : Z) | V6 (a : Z).
#[export] Instance ip_eq_dec : EqDecision IpAddr.
Proof. solve_decision. Defined.
#[export] Instance ip_countable : Countable IpAddr.
Proof.
  apply (inj_countable (fun ip => match ip with V4 a => (false, a) | V6 a => (true, a) end)
           (fun p => Some (if p.1 then V6 p.2 else V4 p.2))).
  by intros [a|a].
Defined.
Definition ip_ok (ip : IpAddr) : bool :=
  match ip with V4 a => in_u 32 a | V6 a => in_u 128 a end.

(** [Ipv6Addr::to_ipv4_mapped]: [::ffff:a.b.c.d] only. *)
Definition to_ipv4_mapped (a : Z) : option Z :=
  if Z.shiftr a 32 =? 65535 then Some (Z.land a (2 ^ 32 - 1)) else None.

Arguments to_ipv4_mapped : simpl never.

(** ** Display *)

Definition octets4 (a : Z) : list Z := [a / 2 ^ 24 mod 256; a / 2 ^ 16 mod 256; a / 2 ^ 8 mod 256; a mod 256].
Definition join_sep (c : byte) (l : list bytes) : bytes :=
  match l with [] => [] | x :: l' => x ++ concat (map (cons c) l') end.
Definition show_v4 (a : Z) : bytes := join_sep "." (map show_u (octets4 a)).

Definition nibble (d : Z) : byte := if d <? 10 then byte_of (48 + d) else byte_of (87 + d).
(** [{:x}] of a [u16]: no leading zeros. *)
Definition show_x16 (g : Z) : bytes :=
  if g <? 16 then [nibble g]
  else if g <? 256 then [nibble (g / 16); nibble (g mod 16)]
  else if g <? 4096 then [nibble (g / 256); nibble (g / 16 mod 16); nibble (g mod 16)]
  else [nibble (g / 4096); nibble (g / 256 mod 16); nibble (g / 16 mod 16); nibble (g mod 16)].
Definition segments (a : Z) : list Z :=
  map (fun i => a / 2 ^ (16 * (7 - i)) mod 65536) [0; 1; 2; 3; 4; 5; 6; 7].

(** The longest run of zero groups, the first one when there are several:
    (start, length). *)
Fixpoint zero_span (i : nat) (cur best : nat * nat) (gs : list Z) : nat * nat :=
  match gs with
  | [] => best
  | g :: gs' =>
      if g =? 0 then
        let cur := ((if (cur.2 =? 0)%nat then i else cur.1), S cur.2) in
        zero_span (S i) cur (if (best.2 <? cur.2)%nat then cur else best) gs'
      else zero_span (S i) (O, O) best gs'
  end.
Definition show_groups (gs : list Z) : bytes := join_sep ":" (map show_x16 gs).
Definition show_v6 (a : Z) : bytes :=
  match to_ipv4_mapped a with
  | Some v4 => bs "::ffff:" ++ show_v4 v4
  | None =>
      let gs := segments a in
      let '(start, len) := zero_span 0 (O, O) (O, O) gs in
      if (1 <? len)%nat
      then show_groups (take start gs) ++ bs "::" ++ show_groups (drop (start + len) gs)
      else show_groups gs
  end.
Definition show_ip (ip : IpAddr) : bytes :=
  match ip with V4 a => show_v4 a | V6 a => show_v6 a end.

(** ** FromStr *)

Definition digit_of (radix : Z) (b : byte) : option Z :=
  let x := u8 b in
  let d := if (48 <=? x) && (x <=? 57) then x - 48
           else if (97 <=? x) && (x <=? 122) then x - 87
           else if (65 <=? x) && (x <=? 90) then x - 55 else 99 in
  if d <? radix then Some d else None.
(** [read_number]: greedy digits, at most [max_digits] of them, value below [bound]. *)
Fixpoint read_digits (radix bound : Z) (left : nat) (v : Z) (n : nat) (s : bytes)
  : option (Z * nat * bytes) :=
  match s with
  | [] => Some (v, n, [])
  | b :: s' =>
      match digit_of radix b with
      | None => Some (v, n, s)
      | Some d =>
          match left with
          | O => None
          | S left' =>
              if v * radix + d <? bound then read_digits radix bound left' (v * radix + d) (S n) s'
              else None
          end
      end
  end.
Definition read_number (radix bound : Z) (max_digits : nat) (zero_prefix : bool) (s : bytes)
  : option (Z * bytes) :=
  '(v, n, r) <-? read_digits radix bound max_digits 0 0 s;
  if (n =? 0)%nat then None
  else if negb zero_prefix && (1 <? n)%nat && bool_decide (head s = Some "0"%byte) then None
  else Some (v, r).
Definition read_char (c : byte) (s : bytes) : option bytes :=
  match s with b :: r => if bool_decide (b = c) then Some r else None | [] => None end.
Definition read_sep {A} (c : byte) (index : nat) (inner : bytes -> option (A * bytes)) (s : bytes)
  : option (A * bytes) :=
  match index with
  | O => inner s
  | S _ => r <-? read_char c s; inner r
  end.
Definition read_v4 (s : bytes) : option (Z * bytes) :=
  let octet i := read_sep "." i (read_number 10 256 3 false) in
  '(a, s) <-? octet 0%nat s; '(b, s) <-? octet 1%nat s;
  '(c, s) <-? octet 2%nat s; '(d, s) <-? octet 3%nat s;
  Some (((a * 256 + b) * 256 + c) * 256 + d, s).
(** [read_groups]: up to [limit] groups, the last two possibly as dotted decimal.
    Returns the groups, whether they end in an IPv4 part, and the rest. *)
Fixpoint read_groups (left i limit : nat) (acc : list Z) (s : bytes) : list Z * bool * bytes :=
  match left with
  | O => (acc, false, s)
  | S left' =>
      match (if (i <? limit - 1)%nat then read_sep ":" i read_v4 s else None) with
      | Some (v4, r) => (acc ++ [v4 / 65536; v4 mod 65536], true, r)
      | None =>
          match read_sep ":" i (read_number 16 65536 4 true) s with
          | Some (g, r) => read_groups left' (S i) limit (acc ++ [g]) r
          | None => (acc, false, s)
          end
      end
  end.
Definition groups_val (gs : list Z) : Z := foldl (fun v g => v * 65536 + g) 0 gs.
Definition read_v6 (s : bytes) : option (Z * bytes) :=
  let '(hd, hd_v4, r) := read_groups 8 0 8 [] s in
  if (length hd =? 8)%nat then Some (groups_val hd, r)
  else if hd_v4 then None
  else
    r <-? read_char ":" r; r <-? read_char ":" r;
    let limit := (8 - (length hd + 1))%nat in
    let '(tl, _, r) := read_groups limit 0 limit [] r in
    Some (groups_val (hd ++ replicate (8 - length hd - length tl) 0 ++ tl), r).
(** [str::parse::<IpAddr>]. *)
Definition parse_ip (s : bytes) : option IpAddr :=
  match read_v4 s with
  | Some (a, r) => match r with [] => Some (V4 a) | _ => None end
  | None => match read_v6 s with Some (a, []) => Some (V6 a) | _ => None end
  end.
Example parse_ip_ex :
  map (fun s => parse_ip (bs s))
    ["192.0.2.1"; "2001:db8::"; "::ffff:1.2.3.4"; "1:2:3:4:5:6:7:8"; "01.2.3.4"; "1::2::3"; "256.1.1.1"; "::"]%string
  = [Some (V4 3221225985); Some (V6 (0x20010db8 * 2 ^ 96)); Some (V6 (0xffff01020304));
     Some (V6 0x00010002000300040005000600070008); None; None; None; Some (V6 0)].
Proof. vm_compute. reflexivity. Qed.
Example show_ip_ex :
  map show_ip [V4 3221225985; V6 (0x20010db8 * 2 ^ 96); V6 0xffff01020304; V6 0; V6 1;
               V6 0x00010000000000040005000000000008]
  = map bs ["192.0.2.1"; "2001:db8::"; "::ffff:1.2.3.4"; "::"; "::1"; "1::4:5:0:0:8"]%string.
Proof. vm_compute. reflexivity. Qed.

(** ** The text of an address determines it *)

Lemma split_on_app c x s : c ∉ x -> split_on c (x ++ c :: s) = x :: split_on c s.
Proof.
  induction x as [|b x IH]; simpl; intros Hx; [by rewrite bool_decide_eq_true_2|].
  rewrite bool_decide_eq_false_2, IH by set_solver. done.
Qed.
Lemma split_on_none c x : c ∉ x -> split_on c x = [x].
Proof.
  induction x as [|b x IH]; simpl; intros Hx; [done|].
  rewrite bool_decide_eq_false_2, IH by set_solver. done.
Qed.
(** The pieces of a joined list; an empty list joins to one empty piece. *)
Definition pieces (l : list bytes) : list bytes := match l with [] => [[]] | _ => l end.
Lemma split_on_join c l : Forall (fun x => c ∉ x) l -> split_on c (join_sep c l) = pieces l.
Proof.
  destruct l as [|x l]; [done|]. intros H. unfold join_sep. simpl pieces.
  revert x H. induction l as [|y l IH]; intros x H; simpl.
  - rewrite app_nil_r. apply split_on_none. by inversion H.
  - inversion H; subst. rewrite split_on_app by done. f_equal. by apply IH.
Qed.
Lemma split_on_join_app c l s :
  Forall (fun x => c ∉ x) l -> split_on c (join_sep c l ++ c :: s) = pieces l ++ split_on c s.
Proof.
  destruct l as [|x l]; intros H; [simpl; by rewrite bool_decide_eq_true_2|].
  unfold join_sep. simpl pieces. revert x H.
  induction l as [|y l IH]; intros x H; simpl; rewrite <- ?app_assoc; simpl.
  - apply split_on_app. by inversion H.
  - inversion H; subst. rewrite split_on_app by done. f_equal.
    by apply IH.
Qed.
Lemma join_sep_inj c l1 l2 :
  l1 <> [] -> l2 <> [] -> Forall (fun x => c ∉ x) l1 -> Forall (fun x => c ∉ x) l2 ->
  join_sep c l1 = join_sep c l2 -> l1 = l2.
Proof.
  intros H1 H2 F1 F2 E. apply (f_equal (split_on c)) in E. rewrite !split_on_join in E by done.
  by destruct l1, l2.
Qed.
Lemma join_sep_elem c x l : x ∈ join_sep c l -> x = c \/ exists p, p ∈ l /\ x ∈ p.
Proof.
  destruct l as [|y l]; [set_solver|]. unfold join_sep. rewrite elem_of_app.
  intros [H|H]; [right; exists y; set_solver|].
  induction l as [|z l IH]; simpl in H; [set_solver|].
  rewrite elem_of_cons, elem_of_app in H. destruct H as [->|[H|H]]; [by left| |].
  - right. exists z. set_solver.
  - destruct (IH H) as [->|(p & Hp & Hx)]; [by left|]. right. exists p. set_solver.
Qed.

Lemma show_v4_digits a x : x ∈ show_v4 a -> x = "."%byte \/ is_ascii_digit x = true.
Proof.
  unfold show_v4. intros [->|(p & Hp & Hx)]%join_sep_elem; [by left|right].
  apply list_elem_of_In, in_map_iff in Hp as (o & <- & Ho).
  assert (0 <= o) as Hpos.
  { unfold octets4 in Ho. simpl in Ho. destruct Ho as [<-|[<-|[<-|[<-|[]]]]]; apply Z.mod_pos_bound; lia. }
  destruct (show_u_spec o Hpos) as (_ & _ & Hall). rewrite Forall_forall in Hall. by apply Hall.
Qed.
Lemma octets4_inj a b : in_u 32 a = true -> in_u 32 b = true -> octets4 a = octets4 b -> a = b.
Proof.
  intros Ha%in_u_iff Hb%in_u_iff E. unfold octets4 in E.
  change (2 ^ 24) with 16777216 in *. change (2 ^ 16) with 65536 in *. change (2 ^ 8) with 256 in *.
  change (2 ^ 32) with 4294967296 in *.
  injection E as E1 E2 E3 E4. dlia.
Qed.
Lemma show_v4_inj a b : in_u 32 a = true -> in_u 32 b = true -> show_v4 a = show_v4 b -> a = b.
Proof.
  intros Ha Hb E. apply octets4_inj; [done..|].
  assert (forall z, Forall (fun x => 0 <= x) (octets4 z)) as Hpos
    by (intros z; repeat constructor; apply Z.mod_pos_bound; lia).
  assert (forall z, Forall (fun x => "."%byte ∉ x) (map show_u (octets4 z))) as Hdot.
  { intros z. apply Forall_map. eapply Forall_impl; [apply Hpos|].
    intros x Hx. simpl. by apply show_u_no_byte. }
  apply join_sep_inj in E; [|done..].
  generalize (Hpos a) (Hpos b). revert E. generalize (octets4 b). generalize (octets4 a).
  intros l1. induction l1 as [|x l1 IH]; intros [|y l2] E F1 F2; try done.
  inversion F1; inversion F2; subst. injection E as E1 E2.
  f_equal; [by apply show_u_inj|by apply IH].
Qed.

Definition hex_val (s : bytes) : Z := foldl (fun v b => v * 16 + default 0 (digit_of 16 b)) 0 s.
Lemma nibble_ok d : 0 <= d < 16 -> digit_of 16 (nibble d) = Some d /\ nibble d <> ":"%byte /\ nibble d <> "."%byte.
Proof.
  intros H. assert (d = Z.of_nat (Z.to_nat d)) as E by lia. rewrite E.
  assert (Z.to_nat d < 16)%nat as Hn by lia. clear E H. revert Hn. generalize (Z.to_nat d). intros n Hn.
  do 16 (destruct n as [|n]; [by vm_compute|]). lia.
Qed.
(** Evaluate the nibbles of a group. *)
Ltac nibbles :=
  repeat match goal with
    | |- context [digit_of 16 (nibble ?d)] =>
        destruct (nibble_ok d) as (-> & _); [dlia|]; simpl
    end.
Lemma hex_val_show g : 0 <= g < 65536 -> hex_val (show_x16 g) = g.
Proof.
  intros H. unfold show_x16, hex_val. repeat case_match; to_prop; simpl; nibbles; dlia.
Qed.
Lemma show_x16_chars g c :
  0 <= g < 65536 -> (c = ":"%byte \/ c = "."%byte) -> c ∉ show_x16 g.
Proof.
  intros H Hc. unfold show_x16.
  repeat case_match; to_prop;
    repeat (apply not_elem_of_cons; split;
      [match goal with |- _ <> nibble ?d => destruct (nibble_ok d) as (_ & ? & ?); [dlia|] end;
       destruct Hc; congruence|]); apply not_elem_of_nil.
Qed.
Lemma show_x16_nonempty g : show_x16 g <> [].
Proof. unfold show_x16. by repeat case_match. Qed.

Definition is_group (g : Z) : Prop := 0 <= g < 65536.
Lemma segments_group a : Forall is_group (segments a).
Proof. repeat constructor; try apply Z.mod_pos_bound; try lia; apply Z.mod_pos_bound; lia. Qed.
(** A number below [65536^(n+1)] is determined by its groups. *)
Lemma groups_determine n a b :
  (forall k, (k <= n)%nat -> a / 65536 ^ Z.of_nat k mod 65536 = b / 65536 ^ Z.of_nat k mod 65536) ->
  a / 65536 ^ Z.of_nat (S n) = b / 65536 ^ Z.of_nat (S n) -> a = b.
Proof.
  assert (forall z k, z / 65536 ^ Z.of_nat k
            = z / 65536 ^ Z.of_nat (S k) * 65536 + z / 65536 ^ Z.of_nat k mod 65536) as S.
  { intros z k. rewrite Nat2Z.inj_succ, Z.pow_succ_r, (Z.mul_comm 65536), <- Z.div_div by lia.
    pose proof (Z.div_mod (z / 65536 ^ Z.of_nat k) 65536). lia. }
  induction n as [|n IH]; intros Hk Htop.
  - pose proof (S a 0%nat) as A. pose proof (S b 0%nat) as B. specialize (Hk 0%nat ltac:(lia)).
    change (65536 ^ Z.of_nat 0) with 1 in *. rewrite !Z.div_1_r in *. lia.
  - apply IH; [intros; apply Hk; lia|].
    rewrite (S a), (S b), Htop, (Hk (Datatypes.S n)) by lia. done.
Qed.
Lemma segments_inj a b : in_u 128 a = true -> in_u 128 b = true -> segments a = segments b -> a = b.
Proof.
  intros Ha%in_u_iff Hb%in_u_iff E. apply (groups_determine 7).
  - injection E as E1 E2 E3 E4 E5 E6 E7 E8. intros k Hk.
    do 8 (destruct k as [|k]; [done|]). lia.
  - change (65536 ^ Z.of_nat 8) with (2 ^ 128). by rewrite !Z.div_small.
Qed.

(** [zero_span] finds a run of zeros inside the list. *)
Definition zeros_at (gs : list Z) (sp : nat * nat) : Prop :=
  (sp.1 + sp.2 <= length gs)%nat /\ forall j, (sp.1 <= j < sp.1 + sp.2)%nat -> gs !! j = Some 0.
Lemma zero_span_ok full : forall gs i cur best,
  full = take i full ++ gs -> (i + length gs)%nat = length full ->
  zeros_at full best -> zeros_at full cur -> ((0 < cur.2)%nat -> (cur.1 + cur.2 = i)%nat) ->
  zeros_at full (zero_span i cur best gs).
Proof.
  induction gs as [|g gs IH]; intros i [cs cn] [bs' bn] Hf Hl Hb Hc Hi; simpl; [done|].
  simpl in Hi, Hl.
  assert (full !! i = Some g) as Hg.
  { rewrite Hf, lookup_app_r; rewrite length_take; [|lia].
    replace (i - i `min` length full)%nat with 0%nat by lia. done. }
  assert (full = take (S i) full ++ gs) as Hf'.
  { rewrite (take_S_r _ _ g) by done. rewrite <- app_assoc. simpl. done. }
  destruct (Z.eqb_spec g 0) as [->|].
  - assert (zeros_at full (if (cn =? 0)%nat then i else cs, S cn)) as Hc'.
    { unfold zeros_at in *. simpl in *. destruct Hc as [Hc1 Hc2].
      destruct (Nat.eqb_spec cn 0) as [->|Hn]; (split; [lia|]); intros j Hj.
      - by replace j with i by lia.
      - destruct (decide (j = i)) as [->|]; [done|]. apply Hc2. lia. }
    apply IH; [done|lia| |done|]; simpl.
    + by match goal with |- zeros_at _ (if ?b then _ else _) => destruct b end.
    + intros _. destruct (Nat.eqb_spec cn 0); simpl in *; lia.
  - apply IH; [done|lia|done| |simpl; lia]. split; simpl; [lia|intros; lia].
Qed.
Lemma zeros_at_split gs s n : zeros_at gs (s, n) ->
  gs = take s gs ++ replicate n 0 ++ drop (s + n) gs.
Proof.
  intros [Hl Hz]. simpl in *. rewrite <- (take_drop s gs) at 1. f_equal.
  rewrite <- (take_drop n (drop s gs)) at 1. rewrite drop_drop. f_equal.
  apply list_eq. intros j. rewrite lookup_take, lookup_drop.
  case_decide as Hj.
  - rewrite Hz, lookup_replicate_2 by lia. done.
  - symmetry. apply lookup_replicate_None. lia.
Qed.
Lemma segments_span a start len :
  zero_span 0 (O, O) (O, O) (segments a) = (start, len) ->
  segments a = take start (segments a) ++ replicate len 0 ++ drop (start + len) (segments a).
Proof.
  intros E. apply zeros_at_split. rewrite <- E.
  assert (zeros_at (segments a) (O, O)) by (split; simpl; [lia|intros; lia]).
  apply zero_span_ok; [done|done|done|done|simpl; lia].
Qed.

(** The groups on either side of the [::] can be read back from the pieces. *)
Definition nonempty (x : bytes) : bool := match x with [] => false | _ => true end.
Fixpoint take_while {A} (f : A -> bool) (l : list A) : list A :=
  match l with x :: l' => if f x then x :: take_while f l' else [] | [] => [] end.
Lemma take_while_pieces l s :
  Forall (fun x => nonempty x = true) l -> take_while nonempty (pieces l ++ [] :: s) = l.
Proof.
  destruct l as [|x l]; [done|]. simpl pieces. generalize (x :: l). clear x l.
  intros l. induction 1 as [|x l Hx _ IH]; [done|]. simpl. by rewrite Hx, IH.
Qed.
Lemma reverse_pieces l : reverse (pieces l) = pieces (reverse l).
Proof.
  destruct l as [|x l]; [done|]. simpl pieces. rewrite reverse_cons.
  by destruct (reverse l).
Qed.
Lemma show_groups_pieces gs :
  Forall is_group gs ->
  Forall (fun x => ":"%byte ∉ x) (map show_x16 gs) /\ Forall (fun x => nonempty x = true) (map show_x16 gs).
Proof.
  intros H. split; apply Forall_map; eapply Forall_impl; try exact H; intros g Hg; simpl.
  - apply show_x16_chars; [done|by left].
  - pose proof (show_x16_nonempty g). by destruct (show_x16 g).
Qed.
Lemma map_show_x16_inj l1 l2 :
  Forall is_group l1 -> Forall is_group l2 -> map show_x16 l1 = map show_x16 l2 -> l1 = l2.
Proof.
  intros H1. revert l2. induction H1 as [|x l1 Hx _ IH]; intros [|y l2] H2 E; try done.
  inversion H2; subst. injection E as E1 E2. f_equal; [|by apply IH].
  apply (f_equal hex_val) in E1. rewrite !hex_val_show in E1; done.
Qed.
Lemma compressed_inj l1 r1 l2 r2 :
  Forall is_group l1 -> Forall is_group r1 -> Forall is_group l2 -> Forall is_group r2 ->
  show_groups l1 ++ bs "::" ++ show_groups r1 = show_groups l2 ++ bs "::" ++ show_groups r2 ->
  l1 = l2 /\ r1 = r2.
Proof.
  intros Hl1 Hr1 Hl2 Hr2 E.
  destruct (show_groups_pieces _ Hl1) as [Cl1 Nl1], (show_groups_pieces _ Hr1) as [Cr1 Nr1],
    (show_groups_pieces _ Hl2) as [Cl2 Nl2], (show_groups_pieces _ Hr2) as [Cr2 Nr2].
  assert (forall l r, Forall (fun x => ":"%byte ∉ x) (map show_x16 l) ->
            Forall (fun x => ":"%byte ∉ x) (map show_x16 r) ->
            split_on ":" (show_groups l ++ bs "::" ++ show_groups r)
            = pieces (map show_x16 l) ++ [] :: pieces (map show_x16 r)) as Sp.
  { intros l r Cl Cr. change (bs "::" ++ show_groups r) with (":"%byte :: ":"%byte :: show_groups r).
    unfold show_groups. rewrite split_on_join_app by done. f_equal.
    change (":"%byte :: join_sep ":" (map show_x16 r)) with ([] ++ ":"%byte :: join_sep ":" (map show_x16 r)).
    rewrite split_on_app, split_on_join by set_solver. done. }
  apply (f_equal (split_on ":")) in E. rewrite !Sp in E by done. split.
  - apply (f_equal (take_while nonempty)) in E. rewrite !take_while_pieces in E by done.
    by apply map_show_x16_inj.
  - apply (f_equal reverse) in E. rewrite !reverse_app, !reverse_cons, !reverse_pieces in E.
    rewrite <- !app_assoc in E. simpl in E.
    apply (f_equal (take_while nonempty)) in E.
    rewrite !take_while_pieces in E by (by apply Forall_reverse).
    apply (f_equal reverse) in E. rewrite !reverse_involutive in E. by apply map_show_x16_inj.
Qed.

Lemma to_ipv4_mapped_Some a v :
  to_ipv4_mapped a = Some v -> a = 65535 * 2 ^ 32 + v /\ in_u 32 v = true.
Proof.
  unfold to_ipv4_mapped. case_match; [|done]. intros [= <-]. to_prop.
  change (2 ^ 32 - 1) with (Z.ones 32). rewrite Z.land_ones by lia.
  rewrite Z.shiftr_div_pow2 in * by lia.
  pose proof (Z.div_mod a (2 ^ 32) ltac:(lia)). pose proof (Z.mod_pos_bound a (2 ^ 32) ltac:(lia)).
  split; [lia|]. apply in_u_iff. lia.
Qed.
Lemma show_groups_elem gs x : Forall is_group gs -> x ∈ show_groups gs -> x <> "."%byte.
Proof.
  intros Hg Hx ->. apply join_sep_elem in Hx as [?|(p & Hp & Hx)]; [done|].
  apply list_elem_of_In, in_map_iff in Hp as (g & <- & Hin).
  apply show_x16_chars in Hx; [done| |by right].
  rewrite Forall_forall in Hg. apply Hg. by apply list_elem_of_In.
Qed.
(** A printed IPv6 address is in one of three shapes. *)
Lemma show_v6_shape a :
  (exists v, to_ipv4_mapped a = Some v /\ show_v6 a = bs "::ffff:" ++ show_v4 v) \/
  (exists l n r, show_v6 a = show_groups l ++ bs "::" ++ show_groups r
     /\ segments a = l ++ replicate n 0 ++ r /\ Forall is_group l /\ Forall is_group r) \/
  show_v6 a = show_groups (segments a).
Proof.
  unfold show_v6. destruct (to_ipv4_mapped a) as [v|]; [left; eauto|right].
  destruct (zero_span _ _ _ _) as [s n] eqn:E. apply segments_span in E.
  case_match; [left|by right]. do 3 eexists. split; [done|]. split; [exact E|].
  pose proof (segments_group a) as Hg. rewrite <- (take_drop s (segments a)) in Hg at 1.
  split; [by apply Forall_app in Hg as [? _]|]. apply Forall_drop, segments_group.
Qed.
Lemma show_v4_dot a : "."%byte ∈ show_v4 a.
Proof. unfold show_v4, octets4. simpl. set_solver. Qed.
Lemma mapped_dot v : "."%byte ∈ bs "::ffff:" ++ show_v4 v.
Proof. apply elem_of_app. right. apply show_v4_dot. Qed.
Lemma compressed_no_dot l r :
  Forall is_group l -> Forall is_group r -> "."%byte ∉ show_groups l ++ bs "::" ++ show_groups r.
Proof.
  intros Hl Hr Hin. rewrite !elem_of_app in Hin.
  destruct Hin as [Hin|[Hin|Hin]]; [by apply show_groups_elem in Hin| |by apply show_groups_elem in Hin].
  change (bs "::") with [":"%byte; ":"%byte] in Hin. set_solver.
Qed.
Lemma compressed_not_plain l r c :
  Forall is_group l -> Forall is_group r ->
  show_groups l ++ bs "::" ++ show_groups r <> show_groups (segments c).
Proof.
  intros Hl Hr Ec. apply (f_equal (split_on ":")) in Ec.
  destruct (show_groups_pieces _ Hl) as [Cl _].
  destruct (show_groups_pieces _ (segments_group c)) as [Cc Nec].
  unfold show_groups in Ec. change (bs "::" ++ join_sep ":" (map show_x16 r))
    with (":"%byte :: ([] ++ ":"%byte :: join_sep ":" (map show_x16 r))) in Ec.
  rewrite split_on_join_app, split_on_app, (split_on_join _ (map show_x16 (segments c))) in Ec
    by (done || set_solver).
  change (pieces (map show_x16 (segments c))) with (map show_x16 (segments c)) in Ec.
  rewrite <- Ec, Forall_app, Forall_cons in Nec. destruct Nec as (_ & ? & _). done.
Qed.
Lemma show_v6_inj a b : in_u 128 a = true -> in_u 128 b = true -> show_v6 a = show_v6 b -> a = b.
Proof.
  intros Ha Hb E. pose proof (segments_group a) as Ga. pose proof (segments_group b) as Gb.
  destruct (show_v6_shape a) as [(v & Ma & Sa)|[(l & n & r & Sa & Za & Hl & Hr)|Sa]],
    (show_v6_shape b) as [(v' & Mb & Sb)|[(l' & n' & r' & Sb & Zb & Hl' & Hr')|Sb]];
    rewrite Sa, Sb in E.
  - apply app_inv_head in E. apply to_ipv4_mapped_Some in Ma as [-> Hv], Mb as [-> Hv'].
    by rewrite (show_v4_inj v v').
  - exfalso. apply (compressed_no_dot l' r'); [done..|]. rewrite <- E. apply mapped_dot.
  - exfalso. pose proof (mapped_dot v) as Hd. rewrite E in Hd. by apply show_groups_elem in Hd.
  - exfalso. apply (compressed_no_dot l r); [done..|]. rewrite E. apply mapped_dot.
  - apply compressed_inj in E as [<- <-]; [|done..].
    apply segments_inj; [done..|]. rewrite Za, Zb. do 2 f_equal.
    assert (length (segments a) = length (segments b)) as Hlen by done.
    rewrite Za, Zb, !length_app, !length_replicate in Hlen. f_equal. lia.
  - exfalso. by apply compressed_not_plain in E.
  - exfalso. pose proof (mapped_dot v') as Hd. rewrite <- E in Hd. by apply show_groups_elem in Hd.
  - exfalso. symmetry in E. by apply compressed_not_plain in E.
  - apply segments_inj; [done..|]. unfold show_groups in E.
    destruct (show_groups_pieces _ Ga) as [Ca _], (show_groups_pieces _ Gb) as [Cb _].
    apply join_sep_inj in E; [|done..]. by apply map_show_x16_inj.
Qed.
Lemma show_v6_colon a : ":"%byte ∈ show_v6 a.
Proof.
  destruct (show_v6_shape a) as [(v & _ & ->)|[(l & n & r & -> & _)| ->]].
  - apply elem_of_app. left. change (":"%byte) with (":"%byte). apply list_elem_of_In. by left.
  - rewrite !elem_of_app. right. left. apply list_elem_of_In. by left.
  - unfold show_groups, segments. simpl. set_solver.
Qed.
Lemma show_v4_no_colon a : ":"%byte ∉ show_v4 a.
Proof. by intros [?|?]%show_v4_digits. Qed.
(** Distinct addresses print differently, across both families. *)
Lemma show_ip_inj x y : ip_ok x = true -> ip_ok y = true -> show_ip x = show_ip y -> x = y.
Proof.
  destruct x as [a|a], y as [b|b]; simpl; intros Ha Hb E.
  - f_equal. by apply show_v4_inj.
  - exfalso. apply (show_v4_no_colon a). rewrite E. apply show_v6_colon.
  - exfalso. apply (show_v4_no_colon b). rewrite <- E. apply show_v6_colon.
  - f_equal. by apply show_v6_inj.
Qed.

(** ** The text of an address is short *)

Lemma show_octet_length z : 0 <= z < 256 -> (length (show_u z) <= 8)%nat.
Proof.
  intros Hz. unfold show_u. etransitivity; [apply show_digits_length|].
  destruct (decide (z = 0)) as [->|]; [change (Z.log2 0) with 0; lia|].
  pose proof (Z.log2_lt_pow2 z 8 ltac:(lia)) as [Hl _]. change (2 ^ 8) with 256 in Hl. lia.
Qed.
Lemma join_sep_length c l n :
  Forall (fun x => (length x <= n)%nat) l -> (length (join_sep c l) <= length l * S n)%nat.
Proof.
  intros H. destruct l as [|x l]; [simpl; lia|]. apply Forall_cons in H as [Hx Hl].
  simpl. rewrite length_app.
  assert (length (concat (map (cons c) l)) <= length l * S n)%nat; [|lia].
  induction Hl as [|y l Hy _ IH]; simpl; [lia|]. rewrite length_app. lia.
Qed.
Lemma show_v4_length a : (length (show_v4 a) <= 36)%nat.
Proof.
  unfold show_v4. etransitivity; [apply (join_sep_length _ _ 8)|done].
  apply Forall_map. unfold octets4.
  do 4 (apply Forall_cons; split; [apply show_octet_length, Z.mod_pos_bound; lia|]). done.
Qed.
Lemma show_groups_length gs : (length (show_groups gs) <= length gs * 5)%nat.
Proof.
  unfold show_groups. etransitivity; [apply (join_sep_length _ _ 4)|by rewrite length_map].
  apply Forall_map, Forall_true. intros g. simpl. unfold show_x16. repeat case_match; simpl; lia.
Qed.
Lemma show_ip_length ip : (length (show_ip ip) <= 100)%nat.
Proof.
  destruct ip as [a|a]; cbn [show_ip].
  - pose proof (show_v4_length a). lia.
  - unfold show_v6. destruct (to_ipv4_mapped a) as [v|].
    + rewrite length_app. change (length (bs "::ffff:")) with 7%nat.
      pose proof (show_v4_length v). lia.
    + assert (length (segments a) = 8%nat) as Hl by reflexivity.
      destruct (zero_span _ _ _ _) as [start len]. case_match.
      * rewrite !length_app. change (length (bs "::")) with 2%nat.
        pose proof (show_groups_length (take start (segments a))) as H1.
        pose proof (show_groups_length (drop (start + len) (segments a))) as H2.
        rewrite length_take in H1. rewrite length_drop in H2. lia.
      * pose proof (show_groups_length (segments a)). lia.
Qed.

(** ** Parsed addresses are in range *)

Lemma digit_of_range radix b d : digit_of radix b = Some d -> 0 <= d < radix.
Proof. unfold digit_of. intros E. repeat case_match; simplify_eq; to_prop; lia. Qed.
Lemma read_digits_range radix bound left v n s v' n' r :
  0 <= radix -> 0 <= v < bound -> read_digits radix bound left v n s = Some (v', n', r) -> 0 <= v' < bound.
Proof.
  intros Hr. revert left v n. induction s as [|b s IH]; intros left v n Hv E; destruct left as [|left]; cbn [read_digits] in E.
  - by simplify_eq.
  - by simplify_eq.
  - destruct (digit_of radix b) as [d|]; by simplify_eq.
  - destruct (digit_of radix b) as [d|] eqn:Ed; [|by simplify_eq]. apply digit_of_range in Ed.
    destruct (Z.ltb_spec (v * radix + d) bound); [|done]. eapply IH; [|exact E]. nia.
Qed.
Lemma read_number_range radix bound k z s v r :
  0 <= radix -> 0 < bound -> read_number radix bound k z s = Some (v, r) -> 0 <= v < bound.
Proof.
  unfold read_number. intros Hr Hb E. destruct (read_digits _ _ _ _ _ _) as [[[v' n] r']|] eqn:Ed; [|done].
  apply read_digits_range in Ed; [|done|lia]. repeat case_match; by simplify_eq.
Qed.
Lemma read_sep_range {A} c i (inner : bytes -> option (A * bytes)) s v r (P : A -> Prop) :
  (forall s v r, inner s = Some (v, r) -> P v) -> read_sep c i inner s = Some (v, r) -> P v.
Proof.
  intros Hi E. unfold read_sep in E. destruct i; [eauto|]. destruct (read_char c s); [eauto|done].
Qed.
Lemma read_v4_range s v r : read_v4 s = Some (v, r) -> 0 <= v < 2 ^ 32.
Proof.
  unfold read_v4. intros E.
  assert (forall i s v r, read_sep "." i (read_number 10 256 3 false) s = Some (v, r) -> 0 <= v < 256) as Ho.
  { intros i s0 v0 r0. apply (read_sep_range _ _ _ _ _ _ (fun v => 0 <= v < 256)).
    intros ? ? ? X. eapply read_number_range; [| |exact X]; lia. }
  repeat match type of E with
    | context [read_sep "." ?i ?f ?x] =>
        let H := fresh "H" in destruct (read_sep "." i f x) as [[? ?]|] eqn:H; [apply Ho in H|done]
    end.
  simplify_eq. lia.
Qed.
Lemma read_groups_range left i limit acc s gs b r :
  (i + left = limit)%nat -> length acc = i -> Forall is_group acc ->
  read_groups left i limit acc s = (gs, b, r) -> Forall is_group gs /\ (length gs <= limit)%nat.
Proof.
  revert i acc s. induction left as [|left IH]; intros i acc s Hl Ha Hg E; cbn [read_groups] in E.
  { simplify_eq. split; [done|lia]. }
  destruct (if (i <? limit - 1)%nat then read_sep ":" i read_v4 s else None) as [[v r']|] eqn:Ev.
  - destruct (Nat.ltb_spec i (limit - 1)) as [Hi|]; [|done]. simplify_eq.
    apply (read_sep_range _ _ _ _ _ _ (fun v => 0 <= v < 2 ^ 32)) in Ev; [|apply read_v4_range].
    split; [|rewrite length_app; simpl; lia]. apply Forall_app. split; [done|].
    repeat constructor; unfold is_group; dlia.
  - destruct (read_sep ":" i (read_number 16 65536 4 true) s) as [[g r']|] eqn:Eg; [|simplify_eq; split; [done|lia]].
    eapply IH; [| | |exact E]; [lia|rewrite length_app; simpl; lia|].
    apply Forall_app. split; [done|]. constructor; [|done].
    apply (read_sep_range _ _ _ _ _ _ is_group) in Eg; [done|]. intros ? ? ? X. eapply read_number_range; [| |exact X]; lia.
Qed.
Lemma groups_val_range gs : Forall is_group gs -> 0 <= groups_val gs < 65536 ^ Z.of_nat (length gs).
Proof.
  unfold groups_val. induction gs as [|g gs IH] using rev_ind; intros Hg; [done|].
  apply Forall_app in Hg as [Hg Hl]. specialize (IH Hg). inversion Hl; subst. rewrite foldl_app, length_app.
  simpl. replace (Z.of_nat (length gs + 1)) with (Z.succ (Z.of_nat (length gs))) by lia.
  rewrite Z.pow_succ_r by lia. unfold is_group in *. lia.
Qed.
Lemma groups8_range gs : Forall is_group gs -> length gs = 8%nat -> in_u 128 (groups_val gs) = true.
Proof.
  intros Hg Hl. apply in_u_iff. apply groups_val_range in Hg. rewrite Hl in Hg. exact Hg.
Qed.
Lemma read_v6_range s v r : read_v6 s = Some (v, r) -> in_u 128 v = true.
Proof.
  unfold read_v6. destruct (read_groups 8 0 8 [] s) as [[hd hv] r1] eqn:E1.
  apply read_groups_range in E1 as [H1 L1]; [|lia|done|constructor].
  destruct (Nat.eqb_spec (length hd) 8); [intros [= <- <-]; by apply groups8_range|].
  destruct hv; [done|]. destruct (read_char ":" r1) as [r2|]; [|done].
  destruct (read_char ":" r2) as [r3|]; [|done].
  destruct (read_groups _ _ _ _ r3) as [[tl tv] r4] eqn:E2.
  apply read_groups_range in E2 as [H2 L2]; [|lia|done|constructor]. intros [= <- <-].
  apply groups8_range; [|rewrite !length_app, length_replicate; lia].
  rewrite !Forall_app. split_and!; try done. apply Forall_replicate. unfold is_group. lia.
Qed.
Lemma parse_ip_ok s ip : parse_ip s = Some ip -> ip_ok ip = true.
Proof.
  unfold parse_ip. destruct (read_v4 s) as [[a r]|] eqn:E.
  - destruct r; [|done]. intros [= <-]. apply in_u_iff. by apply read_v4_range in E.
  - destruct (read_v6 s) as [[a r]|] eqn:E6; [|done]. destruct r; [|done]. intros [= <-].
    by apply read_v6_range in E6.
Qed.
