(* ===== verification/Context.v ===== *)
(** * [context.rs]: address policy, policy scope, client binding and assurance *)
From Stdlib Require Import ZArith Lia.
From Stdlib Require Import Strings.Byte.
From stdpp Require Import base list strings option numbers countable sets.
From S2P Require Import Prelude RustStr Crates StandIns Codec Mac Ip.
Local Open Scope Z_scope.

(** ** Address policy *)

Record AddressPolicy := mkAddressPolicy { ipv4_prefix : Z; ipv6_prefix : Z }.
Definition default_policy : AddressPolicy := mkAddressPolicy 32 128.
Definition valid (self : AddressPolicy) : bool :=
  (1 <=? ipv4_prefix self) && (ipv4_prefix self <=? 32)
  && (1 <=? ipv6_prefix self) && (ipv6_prefix self <=? 128).
Definition network (self : AddressPolicy) (ip : IpAddr) : option IpAddr :=
  if negb (valid self) then None else
  let ip := match ip with
            | V6 v6 => match to_ipv4_mapped v6 with Some v4 => V4 v4 | None => ip end
            | _ => ip
            end in
  Some (match ip with
        | V4 v4 => V4 (Z.land v4 (wrap_u 32 (Z.shiftl (2 ^ 32 - 1) (32 - ipv4_prefix self))))
        | V6 v6 => V6 (Z.land v6 (wrap_u 128 (Z.shiftl (2 ^ 128 - 1) (128 - ipv6_prefix self))))
        end).

(** ** Scope: the JSON array of host, cookie name, path, endpoint and policy *)

Record Scope := mkScope { tail : bytes; domain : option bytes }.

Section scope.
Context {J : JsonText}.

Definition Scope_new (domain : option bytes) (name path endpoint policy : bytes) : Scope :=
  let fields := json_strings [name; path; endpoint; policy] in
  let tail := bs "," ++ drop 1 fields in
  let domain :=
    match domain with
    | Some domain =>
        let domain := to_ascii_lowercase (trim_start_matches "." domain) in
        if beq domain [] then Some [] else Some (bs "[" ++ json_string domain ++ tail)
    | None => None
    end in
  mkScope tail domain.
Definition for_host (self : Scope) (host : bytes) : option bytes :=
  match domain self with
  | Some domain => if beq domain [] then None else Some domain
  | None =>
      let host := trim_start_matches "." host in
      if beq host [] then None else
      let host := if existsb is_ascii_uppercase host then to_ascii_lowercase host else host in
      let scope := bs "[" ++ json_string host ++ tail self in
      if utf8_valid scope then Some scope else None
  end.
End scope.

(** ** Binding *)

Section binding.
Context {B : Base64} {H : Hmac}.

Definition binding_prepared (key : HmacKey) (ip : IpAddr) (user_agent scope issuer : bytes)
  (address : AddressPolicy) : option bytes :=
  network <-? network address ip;
  let network := show_ip network in
  let prefixes := [byte_of (ipv4_prefix address); byte_of (ipv6_prefix address)] in
  Some (b64url (fields key
    [bs "pow-gate-context-v2"; network; user_agent; scope; issuer; prefixes])).
Definition binding (key : bytes) (ip : IpAddr) (user_agent scope issuer : bytes)
  (address : AddressPolicy) : option bytes :=
  binding_prepared (new key) ip user_agent scope issuer address.
End binding.

(** ** Assurance *)

Inductive Assurance := Pow (difficulty : Z) | NoJs (delay : Z).
#[export] Instance assurance_eq_dec : EqDecision Assurance.
Proof. solve_decision. Defined.
#[export] Instance assurance_countable : Countable Assurance.
Proof.
  apply (inj_countable (fun a => match a with Pow d => (true, d) | NoJs d => (false, d) end)
           (fun p => Some (if p.1 then Pow p.2 else NoJs p.2))). by intros [d|d].
Defined.
#[export] Instance assurance_val : RustVal Assurance := fun a =>
  match a with Pow d => in_u64 d | NoJs d => in_i64 d end.
Definition satisfies (self required : Assurance) : bool :=
  match self, required with
  | Pow got, Pow need => (0 <? need) && (need <=? got)
  | NoJs got, NoJs need => (0 <? need) && (need <=? got)
  | _, _ => false
  end.

(** ** Lemmas *)

(** Masking with the top [p] bits set clears the low [w - p] bits. *)
Lemma land_mask w p a :
  0 <= p <= w -> in_u w a = true ->
  Z.land a (wrap_u w (Z.shiftl (2 ^ w - 1) (w - p))) = a / 2 ^ (w - p) * 2 ^ (w - p).
Proof.
  intros Hp Ha%in_u_iff. set (k := w - p). assert (0 <= k <= w) as Hk by lia.
  assert (wrap_u w (Z.shiftl (2 ^ w - 1) k) = Z.shiftl (Z.ones (w - k)) k) as ->.
  { unfold wrap_u. rewrite !Z.shiftl_mul_pow2, Z.ones_equiv by lia.
    rewrite Z.mul_pred_l. unfold Z.pred. rewrite <- Z.pow_add_r by lia. replace (w - k + k) with w by lia.
    assert (0 < 2 ^ k <= 2 ^ w)
      by (split; [apply Z.pow_pos_nonneg; lia|apply Z.pow_le_mono_r; lia]).
    symmetry. apply Z.mod_unique_pos with (2 ^ k - 1); lia. }
  rewrite <- Z.shiftl_mul_pow2, <- Z.shiftr_div_pow2 by lia.
  apply Z.bits_inj'. intros n Hn. rewrite Z.land_spec, !Z.shiftl_spec by lia.
  destruct (Z.ltb_spec n k).
  - rewrite !(Z.testbit_neg_r _ (n - k)) by lia. by rewrite andb_false_r.
  - rewrite Z.shiftr_spec by lia. replace (n - k + k) with n by lia.
    rewrite Z.testbit_ones_nonneg by lia.
    destruct (Z.ltb_spec (n - k) (w - k)); [by rewrite andb_true_r|].
    rewrite andb_false_r. symmetry. destruct (decide (a = 0)) as [->|]; [apply Z.bits_0|].
    apply Z.bits_above_log2; [lia|]. apply Z.log2_lt_pow2; [lia|].
    apply Z.lt_le_trans with (2 ^ w); [lia|]. apply Z.pow_le_mono_r; lia.
Qed.
(** The address a binding is about: mapped IPv6 is the IPv4 it carries. *)
Definition unmapped (ip : IpAddr) : IpAddr :=
  match ip with
  | V6 a => match to_ipv4_mapped a with Some v => V4 v | None => V6 a end
  | _ => ip
  end.
Definition block (p : AddressPolicy) (ip : IpAddr) : IpAddr :=
  match ip with
  | V4 a => V4 (a / 2 ^ (32 - ipv4_prefix p) * 2 ^ (32 - ipv4_prefix p))
  | V6 a => V6 (a / 2 ^ (128 - ipv6_prefix p) * 2 ^ (128 - ipv6_prefix p))
  end.
Lemma unmapped_ok ip : ip_ok ip = true -> ip_ok (unmapped ip) = true.
Proof.
  destruct ip as [a|a]; cbn [ip_ok unmapped]; [tauto|]. intros Ha.
  destruct (to_ipv4_mapped a) as [v|] eqn:E; [|done]. by apply to_ipv4_mapped_Some in E as [_ ?].
Qed.
Lemma valid_iff p :
  valid p = true <-> 1 <= ipv4_prefix p <= 32 /\ 1 <= ipv6_prefix p <= 128.
Proof. unfold valid. rewrite !andb_true_iff, !Z.leb_le. lia. Qed.
Lemma network_block p ip :
  valid p = true -> ip_ok ip = true -> network p ip = Some (block p (unmapped ip)).
Proof.
  intros Hv Hi. unfold network. rewrite Hv. simpl negb. cbv iota. apply valid_iff in Hv.
  apply unmapped_ok in Hi. destruct ip as [a|a]; cbn [ip_ok unmapped] in *.
  - rewrite land_mask by (assumption || lia). reflexivity.
  - destruct (to_ipv4_mapped a); cbn [ip_ok] in *; rewrite land_mask by (assumption || lia); reflexivity.
Qed.
Lemma div_block_range a k w : 0 <= k <= w -> 0 <= a < 2 ^ w -> 0 <= a / 2 ^ k * 2 ^ k < 2 ^ w.
Proof.
  intros Hk Ha. assert (0 < 2 ^ k) by (apply Z.pow_pos_nonneg; lia).
  pose proof (Z.div_mod a (2 ^ k) ltac:(lia)). pose proof (Z.mod_pos_bound a (2 ^ k) ltac:(lia)).
  assert (0 <= a / 2 ^ k) by (apply Z.div_pos; lia). nia.
Qed.
Lemma block_ok p ip : valid p = true -> ip_ok ip = true -> ip_ok (block p ip) = true.
Proof.
  intros Hv%valid_iff Hi. destruct ip as [a|a]; cbn [ip_ok block] in *; apply in_u_iff in Hi; apply in_u_iff;
    apply div_block_range; lia.
Qed.

(** ** Properties *)

(** The same client as far as a policy can tell: same family once IPv4-mapped
    addresses are unwrapped, and the same leading prefix bits. *)
Definition same_prefix (p : AddressPolicy) (x y : IpAddr) : Prop :=
  match unmapped x, unmapped y with
  | V4 a, V4 b => a / 2 ^ (32 - ipv4_prefix p) = b / 2 ^ (32 - ipv4_prefix p)
  | V6 a, V6 b => a / 2 ^ (128 - ipv6_prefix p) = b / 2 ^ (128 - ipv6_prefix p)
  | _, _ => False
  end.
Lemma div_block_inj a b k : 0 <= k -> a / 2 ^ k * 2 ^ k = b / 2 ^ k * 2 ^ k -> a / 2 ^ k = b / 2 ^ k.
Proof. intros Hk E. apply Z.mul_reg_r in E; [done|]. assert (0 < 2 ^ k) by (apply Z.pow_pos_nonneg; lia). lia. Qed.
Lemma block_same p x y :
  valid p = true -> block p (unmapped x) = block p (unmapped y) <-> same_prefix p x y.
Proof.
  intros Hv%valid_iff. unfold same_prefix.
  destruct (unmapped x) as [a|a], (unmapped y) as [b|b]; cbn [block]; split; try done;
    first [intros [= E]; apply div_block_inj in E; [done|lia] | intros E; by rewrite E].
Qed.

(** Under a valid policy two addresses get the same network exactly when they
    are the same client for that policy: a native IPv4 address and its IPv4-mapped
    IPv6 form always do, and the host bits below the prefix never matter. *)
Theorem network_same_iff p x y :
  valid p = true -> ip_ok x = true -> ip_ok y = true ->
  network p x = network p y <-> same_prefix p x y.
Proof.
  intros Hv Hx Hy. rewrite !network_block, <- block_same by done. split; [by intros [= ->]|by intros ->].
Qed.
Lemma network_same_iff_witness :
  network default_policy (V4 3221225985) = network default_policy (V6 (65535 * 2 ^ 32 + 3221225985)) <->
  same_prefix default_policy (V4 3221225985) (V6 (65535 * 2 ^ 32 + 3221225985)).
Proof. apply network_same_iff; vm_compute; reflexivity. Defined.

Section context_properties.
Context {B : Base64} {BL : Base64Laws B} {H : Hmac} {HL : HmacLaws H}
  {J : JsonText} {JL : JsonTextLaws J}.

Lemma Scope_new_tail d name path endpoint policy h :
  bs "[" ++ json_string h ++ tail (Scope_new d name path endpoint policy)
  = json_strings [h; name; path; endpoint; policy].
Proof.
  cbn [Scope_new tail]. rewrite !json_strings_spec. cbn [map join].
  change (bs "[") with ["["%byte]. change (bs ",") with [","%byte]. cbn [app drop].
  rewrite drop_0. repeat (rewrite <- app_assoc || rewrite <- app_comm_cons). done.
Qed.
(** The host a scope is about, and the array a scope is the text of. *)
Definition scope_host (domain : option bytes) (host : bytes) : bytes :=
  to_ascii_lowercase (trim_start_matches "." (default host domain)).
Lemma to_ascii_lowercase_nil s : beq (to_ascii_lowercase s) [] = beq s [].
Proof. by destruct s. Qed.
Lemma scope_array_utf8 domain name path endpoint policy host :
  forallb utf8_valid [default host domain; name; path; endpoint; policy] = true ->
  forallb utf8_valid [scope_host domain host; name; path; endpoint; policy] = true.
Proof.
  cbn [forallb]. unfold scope_host. by rewrite utf8_valid_lower, utf8_valid_trim.
Qed.
Lemma for_host_eq domain name path endpoint policy host :
  forallb utf8_valid [default host domain; name; path; endpoint; policy] = true ->
  for_host (Scope_new domain name path endpoint policy) host =
  if beq (scope_host domain host) [] then None
  else Some (json_strings [scope_host domain host; name; path; endpoint; policy]).
Proof.
  intros Hu%scope_array_utf8. apply json_strings_utf8 in Hu. unfold for_host.
  destruct domain as [d|]; cbn [default Scope_new Context.domain] in *; unfold scope_host in *.
  - destruct (beq (to_ascii_lowercase _) []) eqn:E; [done|].
    change (bs "," ++ drop 1 (json_strings [name; path; endpoint; policy]))
      with (tail (Scope_new None name path endpoint policy)).
    rewrite Scope_new_tail, (proj2 (beq_false _ _)); [done|]. by rewrite json_strings_spec.
  - cbn [default] in *. rewrite to_ascii_lowercase_nil. destruct (beq _ []); [done|].
    assert (forall b : bool, b = existsb is_ascii_uppercase (trim_start_matches "." host) ->
      (if b then to_ascii_lowercase (trim_start_matches "." host) else trim_start_matches "." host)
      = to_ascii_lowercase (trim_start_matches "." host)) as Hlow.
    { intros [] Hb; [done|]. symmetry. by apply lowercase_no_upper. }
    rewrite (Hlow _ eq_refl), Scope_new_tail. cbn [tail].
    by rewrite Hu.
Qed.
(** A policy scope is the JSON array of the normalised host, the cookie name, the
    path, the endpoint and the policy, although the code splices it from a prefix
    computed once; a host that is empty once its leading dots are gone has no scope. *)
Theorem scope_is_array domain name path endpoint policy host :
  forallb utf8_valid [default host domain; name; path; endpoint; policy] = true ->
  for_host (Scope_new domain name path endpoint policy) host =
  if beq (scope_host domain host) [] then None
  else Some (json_strings [scope_host domain host; name; path; endpoint; policy]).
Proof. apply for_host_eq. Qed.

Lemma scope_inj d1 n1 p1 e1 q1 h1 d2 n2 p2 e2 q2 h2 s :
  forallb utf8_valid [default h1 d1; n1; p1; e1; q1] = true ->
  forallb utf8_valid [default h2 d2; n2; p2; e2; q2] = true ->
  for_host (Scope_new d1 n1 p1 e1 q1) h1 = Some s ->
  for_host (Scope_new d2 n2 p2 e2 q2) h2 = Some s ->
  scope_host d1 h1 = scope_host d2 h2 /\ n1 = n2 /\ p1 = p2 /\ e1 = e2 /\ q1 = q2.
Proof.
  intros H1 H2. rewrite !for_host_eq by done. apply scope_array_utf8 in H1, H2.
  repeat case_match; try done. intros [= <-] [= E].
  apply json_strings_inj in E; [by simplify_eq|done..].
Qed.

(** The text of a masked network determines the network. *)
Lemma network_show_inj p1 p2 x y n1 n2 :
  ip_ok x = true -> ip_ok y = true -> network p1 x = Some n1 -> network p2 y = Some n2 ->
  show_ip n1 = show_ip n2 -> n1 = n2.
Proof.
  intros Hx Hy E1 E2. destruct (valid p1) eqn:V1; [|unfold network in E1; by rewrite V1 in E1].
  destruct (valid p2) eqn:V2; [|unfold network in E2; by rewrite V2 in E2].
  rewrite network_block in E1, E2 by done. simplify_eq.
  apply show_ip_inj; apply block_ok; by try apply unmapped_ok.
Qed.
Lemma network_valid p x n : network p x = Some n -> valid p = true.
Proof. unfold network. by destruct (valid p). Qed.
Lemma valid_prefixes_inj p1 p2 :
  valid p1 = true -> valid p2 = true ->
  [byte_of (ipv4_prefix p1); byte_of (ipv6_prefix p1)]
  = [byte_of (ipv4_prefix p2); byte_of (ipv6_prefix p2)] -> p1 = p2.
Proof.
  intros V1%valid_iff V2%valid_iff [= E1 E2]. apply (f_equal u8) in E1, E2.
  rewrite !u8_byte_of_small in E1, E2 by lia. destruct p1, p2; simpl in *. by subst.
Qed.
Definition context_fields (network : IpAddr) (ua scope issuer : bytes) (p : AddressPolicy) : list bytes :=
  [bs "pow-gate-context-v2"; show_ip network; ua; scope; issuer;
   [byte_of (ipv4_prefix p); byte_of (ipv6_prefix p)]].
Lemma context_framable n ua scope issuer p :
  framable [ua; scope; issuer] = true -> framable (context_fields n ua scope issuer p) = true.
Proof.
  unfold framable, context_fields. cbn [forallb]. intros Hf. to_prop.
  pose proof (show_ip_length n). rewrite (proj2 (Z.ltb_lt (Z.of_nat (length (show_ip n))) _)) by lia.
  repeat (rewrite (proj2 (Z.ltb_lt _ _)) by (assumption || (vm_compute; reflexivity))). done.
Qed.

(** The message that is authenticated: the six fields, each after its length. *)
Definition context_message (network : IpAddr) (ua scope issuer : bytes) (p : AddressPolicy) : bytes :=
  concat (framed (context_fields network ua scope issuer p)).

(** C11: A context token pins down the client and the policy.  When two bindings under
    one key are equal, the addresses are the same client under the same address policy,
    and User-Agent, scope and issuer agree, or the two messages that were authenticated (the
    framed fields of the one and of the other binding) are different and have one MAC. *)
Theorem context_binding_sound key x1 x2 ua1 ua2 s1 s2 i1 i2 p1 p2 c :
  ip_ok x1 = true -> ip_ok x2 = true ->
  framable [ua1; s1; i1] = true -> framable [ua2; s2; i2] = true ->
  binding key x1 ua1 s1 i1 p1 = Some c -> binding key x2 ua2 s2 i2 p2 = Some c ->
  (p1 = p2 /\ same_prefix p1 x1 x2 /\ ua1 = ua2 /\ s1 = s2 /\ i1 = i2)
  \/ exists n1 n2, network p1 x1 = Some n1 /\ network p2 x2 = Some n2
       /\ hmac_collision key (context_message n1 ua1 s1 i1 p1) (context_message n2 ua2 s2 i2 p2).
Proof.
  intros Hx1 Hx2 F1 F2. unfold binding, binding_prepared.
  destruct (network p1 x1) as [n1|] eqn:N1; [|done].
  destruct (network p2 x2) as [n2|] eqn:N2; [|done].
  intros [= <-] [= E]. apply b64_encode_inj, eq_sym in E.
  pose proof (context_framable n1 _ _ _ p1 F1). pose proof (context_framable n2 _ _ _ p2 F2).
  apply fields_cases in E as [E|E]; [left|right; by exists n1, n2|done..].
  injection E as En -> -> -> E4 E6. pose proof (network_valid _ _ _ N1) as V1.
  assert (p1 = p2) as ->.
  { apply valid_prefixes_inj; [done|by eapply network_valid|]. by rewrite E4, E6. }
  split_and!; try done. apply (network_show_inj _ _ _ _ _ _ Hx1 Hx2 N1 N2) in En as ->.
  apply block_same; [done|]. rewrite !network_block in N1, N2 by done. congruence.
Qed.
End context_properties.

Lemma scope_is_array_witness :
  for_host (Scope_new None (bs "c") (bs "/") (bs "/pow") (bs "site")) (bs ".Example.ORG")
  = Some (json_strings [bs "example.org"; bs "c"; bs "/"; bs "/pow"; bs "site"]).
Proof.
  rewrite (scope_is_array None (bs "c") (bs "/") (bs "/pow") (bs "site") (bs ".Example.ORG"));
    vm_compute; reflexivity.
Defined.
Definition witness_context : bytes :=
  Eval vm_compute in
  default [] (binding (bs "k") (V4 3221225985) (bs "ua") (bs "s") (bs "i") default_policy).
Lemma context_binding_sound_witness :
  let x2 := V6 (65535 * 2 ^ 32 + 3221225985) in
  (default_policy = default_policy /\ same_prefix default_policy (V4 3221225985) x2
   /\ bs "ua" = bs "ua" /\ bs "s" = bs "s" /\ bs "i" = bs "i")
  \/ exists n1 n2, network default_policy (V4 3221225985) = Some n1 /\ network default_policy x2 = Some n2
       /\ hmac_collision (bs "k") (context_message n1 (bs "ua") (bs "s") (bs "i") default_policy)
            (context_message n2 (bs "ua") (bs "s") (bs "i") default_policy).
Proof.
  apply (context_binding_sound (bs "k") (V4 3221225985) (V6 (65535 * 2 ^ 32 + 3221225985))
           (bs "ua") (bs "ua") (bs "s") (bs "s") (bs "i") (bs "i") default_policy default_policy
           witness_context);
    vm_compute; reflexivity.
Defined.

(** Assurance only weakens.  What satisfies a requirement satisfies every weaker one
    of its kind, a no-JS clearance satisfies no proof-of-work requirement at all, and a
    requirement of zero is satisfied by nothing. *)
Theorem assurance_order a b c d n :
  (satisfies a b = true -> satisfies b c = true -> satisfies a c = true)
  /\ satisfies (NoJs n) (Pow d) = false /\ satisfies (Pow d) (NoJs n) = false
  /\ satisfies a (Pow 0) = false /\ satisfies a (NoJs 0) = false.
Proof.
  split_and!; try (by destruct a); try done.
  destruct a, b, c; simpl; try done; intros; to_prop; lia.
Qed.
