(* ===== verification/Pow.v ===== *)
(** * [pow.rs]: stateless proof-of-work challenges

    [issue] mints a challenge whose token is a MAC over everything the server will
    later rely on; [verify_solution] recomputes it from the submitted challenge. *)
From Stdlib Require Import ZArith Lia.
From Stdlib Require Import Strings.Byte.
From stdpp Require Import base list strings option numbers countable sets.
From S2P Require Import Prelude RustStr Crates StandIns Codec Mac Target.
Local Open Scope Z_scope.

Record Challenge := mkChallenge {
  version : Z; salt : bytes; exp : Z; difficulty : Z; token : bytes;
}.
#[export] Instance challenge_eq_dec : EqDecision Challenge.
Proof. solve_decision. Defined.

(** The tuple [(&str, &str, i64, u64, String, &str)] that is MACed. *)
Definition Tuple : Type := bytes * bytes * Z * Z * bytes * bytes.
#[export] Instance tuple_val : RustVal Tuple := fun '(tag, salt, exp, difficulty, pk, context) =>
  utf8_valid tag && utf8_valid salt && in_i64 exp && in_u64 difficulty
  && utf8_valid pk && utf8_valid context.

Inductive Verdict := Ok | Expired | BadToken | WrongSolution.
#[export] Instance verdict_eq_dec : EqDecision Verdict.
Proof. solve_decision. Defined.

Section pow.
Context {B : Base64} {H : Hmac} {C : Subtle} {S : Sha256} {J : Json Tuple}.

Definition binding (salt : bytes) (exp difficulty : Z) (pk context : bytes) : bytes :=
  to_vec ((bs "pow-gate-challenge-v2", salt, exp, difficulty, b64url pk, context) : Tuple).

(** [raw] is what the OS random generator wrote. *)
Definition issue (raw key pk context : bytes) (difficulty now ttl : Z) : Challenge :=
  let salt := hex raw in
  let exp := i64_add now ttl in
  let token := b64url (hmac key (binding salt exp difficulty pk context)) in
  mkChallenge 2 salt exp difficulty token.

Definition verify_solution (key : bytes) (challenge : Challenge) (nonce : Z) (pk context : bytes)
  (required_difficulty now : Z) : Verdict :=
  let expect := b64url (hmac key
    (binding (salt challenge) (exp challenge) (difficulty challenge) pk context)) in
  if negb (version challenge =? 2) || (difficulty challenge =? 0)
     || negb (difficulty challenge =? required_difficulty) || negb (ct_eq expect (token challenge))
  then BadToken
  else if exp challenge <=? now then Expired
  else if negb (solution_valid (salt challenge) nonce (difficulty challenge)) then WrongSolution
  else Ok.
End pow.

(** ** Lemmas *)

Section pow_lemmas.
Context {B : Base64} {BL : Base64Laws B} {H : Hmac} {HL : HmacLaws H} {C : Subtle} {CL : SubtleLaws C}
  {S : Sha256} {J : Json Tuple} {JL : JsonLaws Tuple}.

(** The values a deserialised challenge and a UTF-8 context can have. *)
Definition challenge_ok (c : Challenge) (context : bytes) : bool :=
  utf8_valid (salt c) && in_i64 (exp c) && in_u64 (difficulty c) && utf8_valid context.
(** The tuple a challenge stands for under a key and a context. *)
Definition tuple_of (c : Challenge) (pk context : bytes) : Tuple :=
  (bs "pow-gate-challenge-v2", salt c, exp c, difficulty c, b64url pk, context).
Definition authentic (key : bytes) (c : Challenge) (pk context : bytes) : Prop :=
  token c = b64url (hmac_sha256 key (to_vec (tuple_of c pk context))).
#[export] Instance authentic_dec key c pk context : Decision (authentic key c pk context).
Proof. unfold authentic. apply _. Defined.

Lemma verify_solution_eq key c nonce pk context required now :
  verify_solution key c nonce pk context required now =
  if bool_decide (version c = 2 /\ difficulty c <> 0 /\ difficulty c = required
                  /\ authentic key c pk context)
  then if exp c <=? now then Expired
       else if solution_valid (salt c) nonce (difficulty c) then Ok else WrongSolution
  else BadToken.
Proof.
  unfold verify_solution, authentic. rewrite hmac_eq, ct_eq_beq. unfold binding.
  fold (tuple_of c pk context). unfold beq.
  repeat case_bool_decide; destruct (Z.eqb_spec (version c) 2), (Z.eqb_spec (difficulty c) 0),
    (Z.eqb_spec (difficulty c) required); simpl; try naive_solver;
    by destruct (exp c <=? now), (solution_valid (salt c) nonce (difficulty c)).
Qed.
Lemma tuple_of_ok c pk context : challenge_ok c context = true -> rust_ok (tuple_of c pk context) = true.
Proof.
  unfold challenge_ok, rust_ok, tuple_val, tuple_of. intros Hc. to_prop.
  all_true; first [assumption|apply b64url_utf8|reflexivity].
Qed.
Lemma authentic_cases key c1 pk1 x1 c2 pk2 x2 :
  challenge_ok c1 x1 = true -> challenge_ok c2 x2 = true ->
  authentic key c1 pk1 x1 -> authentic key c2 pk2 x2 -> token c1 = token c2 ->
  (salt c1 = salt c2 /\ exp c1 = exp c2 /\ difficulty c1 = difficulty c2 /\ pk1 = pk2 /\ x1 = x2)
  \/ hmac_collision key (to_vec (tuple_of c1 pk1 x1)) (to_vec (tuple_of c2 pk2 x2)).
Proof.
  intros O1 O2 A1 A2 E. rewrite A1, A2 in E. apply b64_encode_inj in E.
  apply hmac_sha256_cases in E as [E|E]; [left|by right].
  apply to_vec_inj in E; [|by apply tuple_of_ok..]. unfold tuple_of in E. simplify_eq.
  split_and!; try done. by apply b64_encode_inj.
Qed.
Lemma issue_authentic raw key pk context difficulty now ttl :
  authentic key (issue raw key pk context difficulty now ttl) pk context.
Proof. unfold authentic, issue. simpl. by rewrite hmac_eq. Qed.

(** The verdict on a submitted solution, on every branch: anything but version 2, the
    required non-zero difficulty and the MAC of exactly these fields is [BadToken]; an
    authentic challenge at or past its expiry is [Expired]; an unexpired one is [Ok] or
    [WrongSolution] as the nonce solves it or not. *)
Theorem verify_solution_table key c nonce pk context required now :
  verify_solution key c nonce pk context required now =
  if bool_decide (version c = 2 /\ difficulty c <> 0 /\ difficulty c = required
                  /\ authentic key c pk context)
  then if exp c <=? now then Expired
       else if solution_valid (salt c) nonce (difficulty c) then Ok else WrongSolution
  else BadToken.
Proof. apply verify_solution_eq. Qed.

(** C12: A challenge the server issued is accepted back, from the same client, at the
    difficulty in force, at any time before [now + ttl], with every nonce that solves it
    (the sum is assumed to be an [i64]: a later expiry would wrap). *)
Theorem issued_challenge_accepted raw key pk context d now ttl now' nonce :
  0 < d -> in_i64 (now + ttl) = true -> now' < now + ttl ->
  solution_valid (hex raw) nonce d = true ->
  verify_solution key (issue raw key pk context d now ttl) nonce pk context d now' = Ok.
Proof.
  intros Hd Hr Hn Hs. rewrite verify_solution_eq, bool_decide_eq_true_2.
  - unfold issue. simpl. rewrite i64_add_id, Hs, (proj2 (Z.leb_gt _ _)) by done. done.
  - split_and!; [done|simpl; lia|done|apply issue_authentic].
Qed.

(** C13: The token identifies the challenge.  Two submissions that carry the same token and
    are both past the token check agree on salt, expiry, difficulty, public key and
    context, or their MAC inputs are a collision: spending a token spends one challenge. *)
Theorem token_identifies_challenge key c1 n1 pk1 x1 r1 t1 c2 n2 pk2 x2 r2 t2 :
  challenge_ok c1 x1 = true -> challenge_ok c2 x2 = true -> token c1 = token c2 ->
  verify_solution key c1 n1 pk1 x1 r1 t1 <> BadToken ->
  verify_solution key c2 n2 pk2 x2 r2 t2 <> BadToken ->
  (c1 = c2 /\ pk1 = pk2 /\ x1 = x2)
  \/ hmac_collision key (to_vec (tuple_of c1 pk1 x1)) (to_vec (tuple_of c2 pk2 x2)).
Proof.
  rewrite !verify_solution_eq. intros O1 O2 E. do 2 case_bool_decide; try done. intros _ _.
  destruct_and!. destruct (authentic_cases key c1 pk1 x1 c2 pk2 x2) as [?|?]; try done; [left|by right].
  destruct_and!. split_and!; try done. destruct c1, c2; simpl in *. congruence.
Qed.
End pow_lemmas.

(** ** Witnesses *)

#[export] Instance tuple_fields : Fields Tuple := {|
  to_fields '(tag, salt, exp, difficulty, pk, context) :=
    [tag; salt; show_i exp; show_u difficulty; pk; context];
  of_fields l :=
    match l with
    | [tag; salt; exp; difficulty; pk; context] =>
        exp <-? parse_i 64 exp; difficulty <-? parse_u 64 difficulty;
        Some (tag, salt, exp, difficulty, pk, context)
    | _ => None
    end;
|}.
#[local] Existing Instance std_json.
#[local] Instance tuple_json_laws : JsonLaws Tuple.
Proof.
  apply std_json_laws. intros [[[[[tag salt] exp] d] pk] context] Hok.
  unfold rust_ok, tuple_val in Hok. to_prop. simpl. by rewrite parse_i_show, parse_u_show.
Qed.
Definition demo : Challenge := issue (bs "2123456789abcdef") (bs "key") (bs "pk") (bs "ctx") 2 100 60.
Lemma issued_challenge_accepted_witness :
  verify_solution (bs "key") demo 1 (bs "pk") (bs "ctx") 2 159 = Ok.
Proof.
  apply (issued_challenge_accepted (bs "2123456789abcdef") (bs "key") (bs "pk") (bs "ctx") 2 100 60 159 1);
    vm_compute; reflexivity.
Defined.
Lemma token_identifies_challenge_witness :
  (demo = demo /\ bs "pk" = bs "pk" /\ bs "ctx" = bs "ctx")
  \/ hmac_collision (bs "key") (to_vec (tuple_of demo (bs "pk") (bs "ctx")))
       (to_vec (tuple_of demo (bs "pk") (bs "ctx"))).
Proof.
  apply (token_identifies_challenge (bs "key") demo 1 (bs "pk") (bs "ctx") 2 100
           demo 5 (bs "pk") (bs "ctx") 2 159); vm_compute; (reflexivity || discriminate).
Defined.
Lemma verify_solution_table_witness :
  verify_solution (bs "key") demo 1 (bs "pk") (bs "other") 2 100 = BadToken
  /\ verify_solution (bs "key") demo 1 (bs "pk") (bs "ctx") 2 160 = Expired.
Proof. split; rewrite verify_solution_table; vm_compute; reflexivity. Defined.
