(* ===== verification/ReqProof.v ===== *)
(** * [proof.rs]: per-request signatures and proof of key possession

    [verify_signature] has a body per crypto back end, selected by the
    [native-crypto] feature; the functions above it take the one that was built. *)
From Stdlib Require Import ZArith Lia.
From Stdlib Require Import Strings.Byte.
From stdpp Require Import base list strings option numbers countable sets.
From S2P Require Import Prelude RustStr Crates StandIns Codec.
Local Open Scope Z_scope.

Inductive ProofCheck := Valid | Skewed | Invalid.
#[export] Instance proof_check_eq_dec : EqDecision ProofCheck.
Proof. solve_decision. Defined.

(** The signed message for [(method, path, ts)]. *)
Definition message (method path : bytes) (ts : Z) : bytes :=
  method ++ bs " " ++ path ++ bs " " ++ show_i ts.
Definition challenge_message (token : bytes) : bytes := bs "pow-gate-redeem-v2 " ++ token.

(** [cfg!(feature = "native-crypto")]. *)
Class CryptoBackend := native_crypto : bool.

Section proof.
Context {E : Ecdsa}.

Definition verify_signature_native (pk message sig : bytes) : bool :=
  let-some pk := (if (length pk =? 33)%nat
                  then key <-? vk_from_sec1 pk; Some (vk_to_uncompressed key)
                  else Some pk) else false;
  ring_verify pk message sig.
Definition verify_signature_portable (pk message sig : bytes) : bool :=
  let-some vk := vk_from_sec1 pk else false;
  let-some sig := sig_from_slice sig else false;
  vk_verify vk message sig.

Context {N : CryptoBackend}.

Definition verify_signature (pk message sig : bytes) : bool :=
  if native_crypto then verify_signature_native pk message sig
  else verify_signature_portable pk message sig.

Definition check (pk_sec1 method path : bytes) (ts : Z) (sig : bytes) (now skew : Z) : ProofCheck :=
  if skew <? 0 then Invalid
  else if wrap_u 64 skew <? abs_diff now ts then Skewed
  else if verify_signature pk_sec1 (message method path ts) sig then Valid
  else Invalid.
Definition verify (pk_sec1 method path : bytes) (ts : Z) (sig : bytes) (now skew : Z) : bool :=
  bool_decide (check pk_sec1 method path ts sig now skew = Valid).

Definition valid_public_key (pk : bytes) : bool :=
  (length pk =? 65)%nat && bool_decide (head pk = Some Byte.x04)
  && bool_decide (is_Some (vk_from_sec1 pk)).
Definition verify_challenge (pk token sig : bytes) : bool :=
  verify_signature pk (challenge_message token) sig.
End proof.

(** ** Lemmas *)

Section proof_lemmas.
Context {E : Ecdsa} {EL : EcdsaLaws E}.

Lemma verify_signature_backends pk m s :
  verify_signature_native pk m s = verify_signature_portable pk m s.
Proof.
  unfold verify_signature_native, verify_signature_portable.
  destruct (Nat.eqb_spec (length pk) 33) as [Hl|Hl].
  - destruct (vk_from_sec1 pk) as [vk|]; [|done].
    rewrite ring_verify_spec by (rewrite vk_uncompressed_length; lia).
    rewrite vk_uncompressed_roundtrip. done.
  - rewrite ring_verify_spec by done. by destruct (vk_from_sec1 pk).
Qed.
Lemma verify_signature_eq {N : CryptoBackend} pk m s :
  verify_signature pk m s = verify_signature_portable pk m s.
Proof. unfold verify_signature. destruct native_crypto; [apply verify_signature_backends|done]. Qed.

(** The [ring] and the [p256] builds accept the same signatures: the detour that
    re-encodes a compressed key makes the native path agree with the portable one on
    every key, message and signature. *)
Theorem crypto_backends_agree pk m s :
  verify_signature_native pk m s = verify_signature_portable pk m s.
Proof. apply verify_signature_backends. Qed.
End proof_lemmas.

Lemma check_eq {E : Ecdsa} {N : CryptoBackend} pk method path ts sig now skew :
  in_i64 skew = true ->
  check pk method path ts sig now skew =
  if bool_decide (0 <= skew)
  then if bool_decide (Z.abs (now - ts) <= skew)
       then if verify_signature pk (message method path ts) sig then Valid else Invalid
       else Skewed
  else Invalid.
Proof.
  intros Hs%in_i64_iff. unfold check, abs_diff.
  destruct (Z.ltb_spec skew 0).
  - by rewrite bool_decide_eq_false_2 by lia.
  - rewrite bool_decide_eq_true_2 by lia. rewrite wrap_u_id by (apply in_u64_iff; lia).
    destruct (Z.ltb_spec skew (Z.abs (now - ts))).
    + by rewrite bool_decide_eq_false_2 by lia.
    + by rewrite bool_decide_eq_true_2 by lia.
Qed.
(** The timestamp of a message has no space, so it is the last word. *)
Lemma show_i_no_space z : " "%byte ∉ show_i z.
Proof. by apply show_i_no_byte. Qed.
Lemma message_split method path ts :
  message method path ts = (method ++ " "%byte :: path) ++ " "%byte :: show_i ts.
Proof. unfold message. by rewrite <- app_assoc. Qed.
Lemma last_word_inj (a1 a2 t1 t2 : bytes) :
  " "%byte ∉ t1 -> " "%byte ∉ t2 -> a1 ++ " "%byte :: t1 = a2 ++ " "%byte :: t2 -> a1 = a2 /\ t1 = t2.
Proof.
  intros H1 H2 E.
  assert (rsplit_once " " (a1 ++ " "%byte :: t1) = Some (a1, t1)) as R1 by by apply rsplit_once_Some.
  assert (rsplit_once " " (a2 ++ " "%byte :: t2) = Some (a2, t2)) as R2 by by apply rsplit_once_Some.
  rewrite E in R1. by simplify_eq.
Qed.
Lemma message_inj m1 p1 t1 m2 p2 t2 :
  " "%byte ∉ m1 -> " "%byte ∉ m2 -> in_i64 t1 = true -> in_i64 t2 = true ->
  message m1 p1 t1 = message m2 p2 t2 -> m1 = m2 /\ p1 = p2 /\ t1 = t2.
Proof.
  intros H1 H2 O1 O2. rewrite !message_split. intros E.
  apply last_word_inj in E as [E Et]; [|apply show_i_no_space..].
  apply show_i_inj in Et; [|done..]. by apply sep_inj in E as [-> ->].
Qed.
(** A request message has two spaces at least, a redemption message one exactly. *)
Lemma message_not_challenge m p t token :
  " "%byte ∉ m -> " "%byte ∉ token -> message m p t <> challenge_message token.
Proof.
  intros Hm Ht. rewrite message_split, <- app_assoc. unfold challenge_message.
  change (bs "pow-gate-redeem-v2 ") with (bs "pow-gate-redeem-v2" ++ bs " ").
  rewrite <- app_assoc. simpl (bs " " ++ token). intros E.
  apply sep_inj in E as [_ E]; [|done|vm_compute; set_solver]. subst token. set_solver.
Qed.

(** The per-request proof check, on every branch and for every pair of [i64] clocks: a
    negative window refuses, a timestamp further than the window from now is [Skewed]
    without looking at the signature (the distance is computed without overflow), and
    inside the window the signature over this method, path and timestamp decides. *)
Theorem proof_check_table {E : Ecdsa} {N : CryptoBackend} pk method path ts sig now skew :
  in_i64 skew = true ->
  check pk method path ts sig now skew =
  if bool_decide (0 <= skew)
  then if bool_decide (Z.abs (now - ts) <= skew)
       then if verify_signature pk (message method path ts) sig then Valid else Invalid
       else Skewed
  else Invalid.
Proof. apply check_eq. Qed.
#[local] Instance demo_backend : CryptoBackend := true.
Lemma proof_check_table_witness :
  check [] (bs "GET") (bs "/") 9223372036854775807 [] (-9223372036854775808) 60 = Skewed.
Proof.
  rewrite (proof_check_table [] (bs "GET") (bs "/") 9223372036854775807 [] (-9223372036854775808) 60);
    vm_compute; reflexivity.
Defined.

(** C16: A signature covers one request.  The signed text determines method, path and
    timestamp (HTTP methods have no space), and it is never the text that redeems a
    challenge token, so neither kind of signature can stand in for the other. *)
Theorem signed_message_unique m1 p1 t1 m2 p2 t2 token :
  " "%byte ∉ m1 -> " "%byte ∉ m2 -> " "%byte ∉ token -> in_i64 t1 = true -> in_i64 t2 = true ->
  (message m1 p1 t1 = message m2 p2 t2 -> m1 = m2 /\ p1 = p2 /\ t1 = t2)
  /\ message m1 p1 t1 <> challenge_message token.
Proof. intros. split; [by apply message_inj|by apply message_not_challenge]. Qed.
Lemma signed_message_unique_witness :
  message (bs "GET") (bs "/a b") 5 <> challenge_message (bs "dG9rZW4").
Proof.
  apply (signed_message_unique (bs "GET") (bs "/a b") 5 (bs "GET") (bs "/") 6 (bs "dG9rZW4"));
    vm_compute; try reflexivity; set_solver.
Defined.
(** A compressed key: the native build re-encodes it, the portable one reads it as it is. *)
Lemma crypto_backends_agree_witness :
  let pk := replicate 33 "k"%byte in
  let sig := std_sign (pk ++ replicate 32 Byte.x00) (bs "m") in
  verify_signature_native pk (bs "m") sig = true
  /\ verify_signature_native pk (bs "m") sig = verify_signature_portable pk (bs "m") sig.
Proof. split; [vm_compute; reflexivity|apply crypto_backends_agree]. Defined.
