(* ===== verification/Uri.v ===== *)
(** * [uri.rs]: the predicate on client-supplied paths *)
From Stdlib Require Import ZArith Lia.
From Stdlib Require Import Strings.Byte.
From stdpp Require Import base list strings option numbers countable sets.
From S2P Require Import Prelude RustStr.
Local Open Scope Z_scope.

Definition path_byte (b : byte) : bool :=
  ((33 <=? u8 b) && (u8 b <? 127))
  && negb (existsb (fun c => bool_decide (b = c)) [Byte.x22; "<"%byte; ">"%byte; "\"%byte]).
Definition same_site_path (path : bytes) : bool :=
  starts_with (bs "/") path && negb (starts_with (bs "//") path) && forallb path_byte path.

(** What a browser needs for a reference to stay on the site, and a header or an
    attribute to stay in one piece. *)
Definition harmless (b : byte) : Prop :=
  33 <= u8 b < 127 /\ b <> Byte.x22 /\ b <> "<"%byte /\ b <> ">"%byte /\ b <> "\"%byte.
Lemma path_byte_harmless b : path_byte b = true <-> harmless b.
Proof.
  unfold path_byte, harmless. rewrite andb_true_iff, negb_true_iff. cbn [existsb].
  rewrite !orb_false_iff, !bool_decide_eq_false, andb_true_iff, Z.leb_le, Z.ltb_lt.
  intuition.
Qed.
Lemma same_site_path_iff path :
  same_site_path path = true <->
  exists rest, path = "/"%byte :: rest /\ head rest <> Some "/"%byte /\ Forall harmless path.
Proof.
  unfold same_site_path. rewrite !andb_true_iff, negb_true_iff, forallb_Forall, starts_with_iff.
  assert (Forall (fun b => path_byte b = true) path <-> Forall harmless path) as ->.
  { split; intros Hf; apply (Forall_impl _ _ _ Hf); intros b; apply path_byte_harmless. }
  split.
  - intros [[[rest ->] Hs] Hf]. exists rest. split; [done|]. split; [|done].
    intros Hr. destruct rest as [|c rest]; by simplify_eq/=.
  - intros (rest & -> & Hh & Hf). split; [split; [by exists rest|]|done].
    apply not_true_iff_false. rewrite starts_with_iff. intros [r [= E]]. by rewrite E in Hh.
Qed.
Lemma same_site_path_ascii path : same_site_path path = true -> is_ascii path = true.
Proof.
  intros (rest & _ & _ & Hf)%same_site_path_iff. apply is_ascii_Forall.
  apply (Forall_impl _ _ _ Hf). intros b [? _]. lia.
Qed.
Lemma same_site_path_no_byte path c :
  same_site_path path = true -> ~ harmless c -> c ∉ path.
Proof.
  intros (rest & _ & _ & Hf)%same_site_path_iff Hc Hin. rewrite Forall_forall in Hf. auto.
Qed.

(** The paths the gate hands back to a client are exactly the absolute same-site ones
    in one piece: a single leading slash, then printable ASCII without quote, angle
    brackets or backslash, so no such path can end a header line, leave an attribute or
    name another host. *)
Theorem same_site_path_spec path :
  same_site_path path = true <->
  exists rest, path = "/"%byte :: rest /\ head rest <> Some "/"%byte /\ Forall harmless path.
Proof. apply same_site_path_iff. Qed.
