(* ===== verification/Clearance.v ===== *)
(** * [clearance.rs]: the clearance cookie

    [payload_b64 "." tag_b64], where the tag is a MAC over a domain prefix and the
    payload.  Verification decodes into a 512-byte stack buffer when the payload is
    short enough and on the heap otherwise, and hands the checked payload and the
    decoded key to a callback. *)
From Stdlib Require Import ZArith Lia.
From Stdlib Require Import Strings.Byte.
From stdpp Require Import base list strings option numbers countable sets.
From S2P Require Import Prelude RustStr Crates StandIns Codec Mac Ip Context.
Local Open Scope Z_scope.

(** [Clearance], and the borrowing [Payload] that reads the same JSON object. *)
Record Clearance := mkClearance {
  version : Z; pk : bytes; context : bytes; assurance : Assurance; iat : Z; exp : Z;
}.
#[export] Instance clearance_eq_dec : EqDecision Clearance.
Proof. solve_decision. Defined.
#[export] Instance clearance_val : RustVal Clearance := fun c =>
  in_u8 (version c) && utf8_valid (pk c) && utf8_valid (context c) && rust_ok (assurance c)
  && in_i64 (iat c) && in_i64 (exp c).

Record VerifiedClearance := mkVerified {
  payload : Clearance; public_key_buf : bytes; public_key_len : nat;
}.
Definition public_key (self : VerifiedClearance) : bytes :=
  take (public_key_len self) (public_key_buf self).
Definition into_owned (self : VerifiedClearance) : Clearance :=
  let p := payload self in
  mkClearance (version p) (pk p) (context p) (assurance p) (iat p) (exp p).

Definition MAC_PREFIX : bytes := bs "pow-gate-clearance-v2|".

Section clearance.
Context {B : Base64} {H : Hmac} {C : Subtle} {J : Json Clearance}.

Definition pk_bytes (self : Clearance) : option bytes := unb64url (pk self).

Definition issue (key pk_sec1 context : bytes) (assurance : Assurance) (iat ttl : Z) : bytes :=
  let payload := mkClearance 2 (b64url pk_sec1) context assurance iat (i64_add iat ttl) in
  let payload_b64 := b64url (to_vec payload) in
  let tag := b64url (parts (new key) [MAC_PREFIX; payload_b64]) in
  payload_b64 ++ bs "." ++ tag.

(** The buffer and length of the key, when its shape fits the assurance. *)
Definition key_shape (payload : Clearance) : option (bytes * nat) :=
  match assurance payload with
  | Pow _ =>
      pk <-? unb64url_fixed 65 (pk payload);
      if negb (bool_decide (head pk = Some Byte.x04)) then None else Some (pk, 65%nat)
  | NoJs _ =>
      if negb (beq (pk payload) []) then None else Some (replicate 65 Byte.x00, 0%nat)
  end.

Definition use_authenticated_payload {T} (decoded context : bytes) (required : Assurance)
  (now max_age : Z) (use_clearance : VerifiedClearance -> T) : option T :=
  payload <-? from_slice decoded;
  if negb (version payload =? 2) || negb (ct_eq (Clearance.context payload) context)
     || negb (satisfies (assurance payload) required)
     || (exp payload <=? now) || (now <? iat payload) || (max_age <=? 0)
  then None else
  age <-? i64_checked_sub now (iat payload);
  if max_age <=? age then None else
  ' (public_key, public_key_len) <-? key_shape payload;
  Some (use_clearance (mkVerified payload public_key public_key_len)).

Definition with_verified_prepared {T} (key : HmacKey) (token context : bytes) (required : Assurance)
  (now max_age : Z) (use_clearance : VerifiedClearance -> T) : option T :=
  if (4096 <? length token)%nat then None else
  ' (payload_b64, tag_b64) <-? split_once "." token;
  let expected := parts key [MAC_PREFIX; payload_b64] in
  tag <-? unb64url_fixed 32 tag_b64;
  if negb (ct_eq expected tag) then None else
  if (length payload_b64 <=? 512 / 3 * 4)%nat
  then decoded <-? unb64url_into payload_b64 512;
       use_authenticated_payload decoded context required now max_age use_clearance
  else decoded <-? unb64url payload_b64;
       use_authenticated_payload decoded context required now max_age use_clearance.

Definition verify_prepared (key : HmacKey) (token context : bytes) (required : Assurance)
  (now max_age : Z) : option Clearance :=
  with_verified_prepared key token context required now max_age into_owned.
Definition verify (key token context : bytes) (required : Assurance) (now max_age : Z)
  : option Clearance :=
  verify_prepared (new key) token context required now max_age.
End clearance.

(** ** Reference: what a verified token is *)

(** The key a clearance carries: 65 bytes in the uncompressed form for proof of work,
    none for a no-JS clearance. *)
Definition carries_key {B : Base64} (c : Clearance) (k : bytes) : Prop :=
  pk c = b64url k /\
  match assurance c with
  | Pow _ => length k = 65%nat /\ head k = Some Byte.x04
  | NoJs _ => k = []
  end.
(** The checks on an authentic payload. *)
Definition current (c : Clearance) (ctx : bytes) (required : Assurance) (now max_age : Z) : Prop :=
  version c = 2 /\ context c = ctx /\ satisfies (assurance c) required = true
  /\ iat c <= now < exp c /\ now - iat c < max_age.
(** The one token of a payload text. *)
Definition token_of {B : Base64} {H : Hmac} (key raw : bytes) : bytes :=
  b64url raw ++ "."%byte :: b64url (hmac_sha256 key (MAC_PREFIX ++ b64url raw)).

(** ** Lemmas *)

Section clearance_lemmas.
Context {B : Base64} {BL : Base64Laws B} {H : Hmac} {HL : HmacLaws H} {C : Subtle} {CL : SubtleLaws C}
  {J : Json Clearance} {JL : JsonLaws Clearance}.

Lemma into_owned_id c b n : into_owned (mkVerified c b n) = c.
Proof. by destruct c. Qed.

(** The stack path and the heap path compute the same. *)
Lemma with_verified_prepared_eq {T} key token ctx required now max_age (f : VerifiedClearance -> T) :
  with_verified_prepared key token ctx required now max_age f =
  if (4096 <? length token)%nat then None else
  ' (payload_b64, tag_b64) <-? split_once "." token;
  tag <-? unb64url_fixed 32 tag_b64;
  if negb (ct_eq (parts key [MAC_PREFIX; payload_b64]) tag) then None else
  decoded <-? unb64url payload_b64;
  use_authenticated_payload decoded ctx required now max_age f.
Proof.
  unfold with_verified_prepared. case_match; [done|].
  destruct (split_once "." token) as [[p t]|]; [|done].
  destruct (unb64url_fixed 32 t) as [tag|]; [|done]. case_match; [done|].
  destruct (Nat.leb_spec (length p) (512 / 3 * 4)) as [Hl|]; [|done].
  rewrite unb64url_into_eq. destruct (unb64url p) as [raw|] eqn:E; [|done].
  apply unb64url_Some in E as ->. rewrite b64url_length in Hl.
  rewrite (proj2 (Nat.leb_le _ _)); [done|].
  change (512 / 3 * 4)%nat with 680%nat in Hl.
  pose proof (Nat.div_mod (4 * length raw + 2) 3 ltac:(lia)).
  pose proof (Nat.mod_upper_bound (4 * length raw + 2) 3 ltac:(lia)). lia.
Qed.
Lemma b64url_nil_iff k : b64url k = [] <-> k = [].
Proof.
  split; [|intros ->; apply length_zero_iff_nil; by rewrite b64url_length].
  intros E%(f_equal length). rewrite b64url_length in E. change (length []) with 0%nat in E.
  destruct k as [|b k]; [done|]. exfalso. cbn [length] in E.
  pose proof (Nat.Div0.div_le_mono 6 (4 * S (length k) + 2) 3 ltac:(lia)) as Hd.
  change (6 / 3)%nat with 2%nat in Hd. lia.
Qed.
Definition verified_of (c : Clearance) (k : bytes) : VerifiedClearance :=
  mkVerified c (k ++ replicate (65 - length k) Byte.x00) (length k).
Lemma verified_of_key c k : public_key (verified_of c k) = k.
Proof. unfold public_key, verified_of. simpl. by rewrite take_app_length. Qed.
Lemma key_shape_Some c buf n :
  key_shape c = Some (buf, n) <-> exists k, carries_key c k /\ mkVerified c buf n = verified_of c k.
Proof.
  unfold key_shape, carries_key, verified_of. destruct (assurance c) as [d|d].
  - split.
    + destruct (unb64url_fixed 65 (pk c)) as [k|] eqn:Ek; [|done].
      apply unb64url_fixed_Some in Ek as [Ek Hk]. case_bool_decide; [|done]. intros [= <- <-].
      exists k. split; [done|]. rewrite Hk. simpl. by rewrite app_nil_r.
    + intros (k & (Hpk & Hk & Hh) & [= -> ->]).
      rewrite (proj2 (unb64url_fixed_Some 65 (pk c) k)), bool_decide_eq_true_2 by done.
      rewrite Hk. simpl. by rewrite app_nil_r.
  - split.
    + destruct (beq (pk c) []) eqn:Ek; [|done]. intros [= <- <-]. apply beq_true in Ek.
      exists []. split; [|done]. split; [|done]. rewrite Ek. symmetry. by apply b64url_nil_iff.
    + intros (k & [Hpk ->] & [= -> ->]). rewrite Hpk, (proj2 (b64url_nil_iff [])) by done. done.
Qed.
#[export] Instance current_dec c ctx required now max_age :
  Decision (current c ctx required now max_age).
Proof. unfold current. apply _. Defined.
(** The guards of the code are [current]; the checked subtraction never overflows where
    the guards before it pass, unless the clearance is older than any age limit. *)
Lemma use_payload_eq {T} raw ctx required now max_age (f : VerifiedClearance -> T) :
  in_i64 max_age = true -> in_i64 now = true ->
  use_authenticated_payload raw ctx required now max_age f =
  (c <-? from_slice raw;
   if bool_decide (current c ctx required now max_age)
   then ' (buf, n) <-? key_shape c; Some (f (mkVerified c buf n)) else None).
Proof.
  intros Hmax%in_i64_iff Hnow%in_i64_iff. unfold use_authenticated_payload.
  destruct (from_slice raw) as [c|] eqn:E; [|done].
  rewrite ct_eq_beq. unfold beq, i64_checked_sub.
  destruct (bool_decide (current c ctx required now max_age)) eqn:Hc;
    [apply bool_decide_eq_true in Hc|apply bool_decide_eq_false in Hc]; unfold current in Hc.
  - destruct Hc as (Hv & Hctx & -> & Hi & Ha). rewrite bool_decide_eq_true_2 by done.
    rewrite (proj2 (Z.eqb_eq _ _)), (proj2 (Z.leb_gt (exp c) now)), (proj2 (Z.ltb_ge now (iat c))),
      (proj2 (Z.leb_gt max_age 0)) by lia. simpl.
    rewrite (proj2 (in_i64_iff (now - iat c))), (proj2 (Z.leb_gt max_age (now - iat c))) by lia.
    done.
  - destruct (Z.eqb_spec (version c) 2); [|done]. case_bool_decide; [|done].
    destruct (satisfies (assurance c) required); [|done].
    destruct (Z.leb_spec (exp c) now); [done|]. destruct (Z.ltb_spec now (iat c)); [done|].
    destruct (Z.leb_spec max_age 0); [done|]. simpl. destruct (in_i64 (now - iat c)); [|done].
    destruct (Z.leb_spec max_age (now - iat c)); [done|]. exfalso. apply Hc. split_and!; done || lia.
Qed.
(** The token check alone: an accepted token is the one token of its payload. *)
Lemma with_verified_Some {T} key token ctx required now max_age (f : VerifiedClearance -> T) x :
  in_i64 max_age = true -> in_i64 now = true ->
  with_verified_prepared (new key) token ctx required now max_age f = Some x <->
  (length token <= 4096)%nat /\
  exists raw c k, token = token_of key raw /\ from_slice raw = Some c
    /\ current c ctx required now max_age /\ carries_key c k /\ x = f (verified_of c k).
Proof.
  intros Hmax Hnow. rewrite with_verified_prepared_eq. unfold token_of. split.
  - case_match eqn:Hl; [done|]. to_prop. intros Hx. split; [done|].
    destruct (split_once "." token) as [[p t]|] eqn:Es; [|done].
    apply split_once_Some in Es as [-> _].
    destruct (unb64url_fixed 32 t) as [tag|] eqn:Et; [|done].
    apply unb64url_fixed_Some in Et as [-> _]. rewrite parts_eq in Hx.
    destruct (ct_eq _ tag) eqn:Ect; [|done]. apply ct_eq_true in Ect as <-. simpl in Hx.
    destruct (unb64url p) as [raw|] eqn:Ep; [|done]. apply unb64url_Some in Ep as ->.
    rewrite use_payload_eq in Hx by done. destruct (from_slice raw) as [c|] eqn:Ej; [|done].
    case_bool_decide as Hcur; [|done]. destruct (key_shape c) as [[buf n]|] eqn:Ek; [|done].
    apply key_shape_Some in Ek as (k & Hk & Hv). rewrite Hv in Hx.
    exists raw, c, k. split_and!; try done; [|congruence]. simpl concat. by rewrite app_nil_r.
  - intros (Hl & raw & c & k & -> & Ej & Hcur & Hk & ->).
    rewrite (proj2 (Nat.ltb_ge _ _)) by done.
    rewrite split_once_app by auto with pow.
    rewrite (proj2 (unb64url_fixed_Some 32 _ (hmac_sha256 key (MAC_PREFIX ++ b64url raw))))
      by (split; [done|apply hmac_length]).
    rewrite parts_eq. simpl (concat _). rewrite app_nil_r, ct_eq_refl. simpl negb. cbv iota.
    rewrite unb64url_b64url, use_payload_eq, Ej, bool_decide_eq_true_2 by done.
    destruct (key_shape c) as [[buf n]|] eqn:Ek.
    + apply key_shape_Some in Ek as (k' & [Hk' _] & ->). destruct Hk as [Hk _].
      rewrite Hk in Hk'. by apply b64url_inj in Hk' as ->.
    + assert (key_shape c = Some (k ++ replicate (65 - length k) Byte.x00, length k)); [|congruence].
      apply key_shape_Some. by exists k.
Qed.
Lemma verify_Some key token ctx required now max_age c :
  in_i64 max_age = true -> in_i64 now = true ->
  verify key token ctx required now max_age = Some c <->
  (length token <= 4096)%nat /\
  exists raw k, token = token_of key raw /\ from_slice raw = Some c
    /\ current c ctx required now max_age /\ carries_key c k.
Proof.
  intros Hmax Hnow. unfold verify, verify_prepared. rewrite with_verified_Some by done.
  split; intros [Hl Hx]; (split; [done|]).
  - destruct Hx as (raw & c' & k & Ht & Ej & Hc & Hk & ->). unfold verified_of.
    rewrite into_owned_id. by exists raw, k.
  - destruct Hx as (raw & k & Ht & Ej & Hc & Hk). exists raw, c, k. unfold verified_of.
    by rewrite into_owned_id.
Qed.
Lemma issue_token_of key pk_sec1 ctx a iat ttl :
  issue key pk_sec1 ctx a iat ttl =
  token_of key (to_vec (mkClearance 2 (b64url pk_sec1) ctx a iat (i64_add iat ttl))).
Proof. unfold issue, token_of. rewrite parts_eq. simpl. by rewrite app_nil_r. Qed.
Lemma token_of_inj key r1 r2 : token_of key r1 = token_of key r2 -> r1 = r2.
Proof.
  unfold token_of. intros E. apply sep_inj in E as [E _]; [|auto with pow..]. by apply b64url_inj.
Qed.

(** C9: Exactly which cookies are accepted, and as what.  The token is at most 4096 bytes and
    is the one token of its payload under the key (no second spelling of payload or tag
    passes), and the payload says version 2, this context, a sufficient assurance, an
    interval that contains now, an age below the limit, and a key of the right shape. *)
Theorem clearance_accepted_iff key token ctx required now max_age c :
  in_i64 max_age = true -> in_i64 now = true ->
  verify key token ctx required now max_age = Some c <->
  (length token <= 4096)%nat /\
  exists raw k, token = token_of key raw /\ from_slice raw = Some c
    /\ current c ctx required now max_age /\ carries_key c k.
Proof. apply verify_Some. Qed.

(** C10: A clearance the server issued is accepted back for its whole life: with the context
    and an assurance it satisfies, from the second of issue until the earlier of its own
    expiry and the age limit, and the clearance read back is the one that was issued. *)
Theorem clearance_roundtrip key k ctx a required iat ttl now max_age :
  let c := mkClearance 2 (b64url k) ctx a iat (iat + ttl) in
  let token := issue key k ctx a iat ttl in
  (length token <= 4096)%nat -> utf8_valid ctx = true -> rust_ok a = true ->
  in_i64 iat = true -> in_i64 (iat + ttl) = true -> in_i64 max_age = true -> in_i64 now = true ->
  carries_key c k -> satisfies a required = true ->
  iat <= now < iat + ttl -> now - iat < max_age ->
  verify key token ctx required now max_age = Some c.
Proof.
  intros c token Hl Hu Ha Hi He Hm Hn Hk Hs Ht Hage. apply verify_Some; [done..|].
  split; [done|]. exists (to_vec c), k. unfold token. rewrite issue_token_of, i64_add_id by done.
  split; [done|]. split; [|by unfold current; simpl; split_and!; try lia].
  apply json_roundtrip. unfold rust_ok, clearance_val. cbn. all_true; try done. apply b64url_utf8.
Qed.

(** Verification with the 512-byte stack buffer is verification without it: for every
    token and callback the result is the callback's on the accepted clearance, and the key
    the callback sees is the decoded key of that clearance. *)
Theorem clearance_callback key token ctx required now max_age {T} (f : VerifiedClearance -> T) :
  in_i64 max_age = true -> in_i64 now = true ->
  match verify key token ctx required now max_age with
  | Some c => exists v, with_verified_prepared (new key) token ctx required now max_age f = Some (f v)
                /\ payload v = c /\ carries_key c (public_key v)
  | None => with_verified_prepared (new key) token ctx required now max_age f = None
  end.
Proof.
  intros Hm Hn. destruct (verify _ _ _ _ _ _) as [c|] eqn:E.
  - apply verify_Some in E as (Hl & raw & k & Ht & Ej & Hc & Hk); [|done..].
    exists (verified_of c k). rewrite verified_of_key. split; [|done].
    apply with_verified_Some; [done..|]. split; [done|]. by exists raw, c, k.
  - destruct (with_verified_prepared _ _ _ _ _ _ f) as [x|] eqn:Ef; [|done].
    apply with_verified_Some in Ef as (Hl & raw & c & k & Ht & Ej & Hc & Hk & _); [|done..].
    enough (verify key token ctx required now max_age = Some c) by congruence.
    apply verify_Some; [done..|]. split; [done|]. by exists raw, k.
Qed.

(** A cookie belongs to one context.  Whatever the requirement, the clock and the age
    limit, a token accepted for two contexts is accepted for one context as one clearance. *)
Theorem clearance_one_context key token x1 r1 t1 m1 c1 x2 r2 t2 m2 c2 :
  in_i64 m1 = true -> in_i64 t1 = true -> in_i64 m2 = true -> in_i64 t2 = true ->
  verify key token x1 r1 t1 m1 = Some c1 -> verify key token x2 r2 t2 m2 = Some c2 ->
  x1 = x2 /\ c1 = c2.
Proof.
  intros ? ? ? ? E1 E2.
  apply verify_Some in E1 as (_ & raw1 & k1 & Ht1 & Ej1 & Hc1 & _); [|done..].
  apply verify_Some in E2 as (_ & raw2 & k2 & Ht2 & Ej2 & Hc2 & _); [|done..].
  rewrite Ht1 in Ht2. apply token_of_inj in Ht2 as ->. unfold current in *.
  rewrite Ej1 in Ej2. injection Ej2 as ->. split; [|done].
  destruct Hc1 as (_ & <- & _). by destruct Hc2 as (_ & <- & _).
Qed.
End clearance_lemmas.

(** ** Witnesses *)

#[export] Instance clearance_fields : Fields Clearance := {|
  to_fields c :=
    [show_u (version c); pk c; context c;
     match assurance c with Pow _ => bs "pow" | NoJs _ => bs "no_js" end;
     match assurance c with Pow d => show_u d | NoJs d => show_i d end;
     show_i (iat c); show_i (exp c)];
  of_fields l :=
    match l with
    | [version; pk; context; kind; amount; iat; exp] =>
        version <-? parse_u 8 version; iat <-? parse_i 64 iat; exp <-? parse_i 64 exp;
        a <-? (if beq kind (bs "pow") then d <-? parse_u 64 amount; Some (Pow d)
               else d <-? parse_i 64 amount; Some (NoJs d));
        Some (mkClearance version pk context a iat exp)
    | _ => None
    end;
|}.
Definition demo_json : Json Clearance := std_json.
Lemma demo_json_laws : JsonLaws Clearance (J := demo_json).
Proof.
  apply std_json_laws. intros [v p x a i e] Hok.
  unfold rust_ok, clearance_val, rust_ok, assurance_val in Hok. cbn in Hok. to_prop.
  destruct a as [d|d]; simpl; rewrite ?parse_i_show by done; rewrite ?parse_u_show by done; simpl; rewrite ?parse_i_show, ?parse_u_show by done; done.
Qed.
#[local] Existing Instance demo_json.
#[local] Existing Instance demo_json_laws.
Definition demo_key : bytes := Byte.x04 :: replicate 64 "k"%byte.
Definition demo_clearance : Clearance :=
  mkClearance 2 (b64url demo_key) (bs "ctx") (Pow 50000) 1000 4600.
Definition demo_token : bytes :=
  Eval vm_compute in issue (bs "key") demo_key (bs "ctx") (Pow 50000) 1000 3600.

Lemma clearance_roundtrip_witness :
  verify (bs "key") (issue (bs "key") demo_key (bs "ctx") (Pow 50000) 1000 3600) (bs "ctx")
    (Pow 20000) 4599 86400 = Some demo_clearance.
Proof.
  apply (clearance_roundtrip (bs "key") demo_key (bs "ctx") (Pow 50000) (Pow 20000) 1000 3600 4599 86400);
    try (vm_compute; reflexivity); try lia.
  - apply Nat.leb_le. vm_compute. reflexivity.
  - repeat split; vm_compute; reflexivity.
Defined.
Lemma clearance_accepted_iff_witness :
  (length demo_token <= 4096)%nat /\
  exists raw k, demo_token = token_of (bs "key") raw /\ from_slice raw = Some demo_clearance
    /\ current demo_clearance (bs "ctx") (Pow 20000) 4599 86400 /\ carries_key demo_clearance k.
Proof.
  apply (clearance_accepted_iff (bs "key") demo_token (bs "ctx") (Pow 20000) 4599 86400 demo_clearance);
    vm_compute; reflexivity.
Defined.
Lemma clearance_callback_witness :
  exists v, with_verified_prepared (new (bs "key")) demo_token (bs "ctx") (Pow 20000) 4599 86400 public_key
            = Some (public_key v) /\ payload v = demo_clearance /\ carries_key demo_clearance (public_key v).
Proof.
  pose proof (clearance_callback (bs "key") demo_token (bs "ctx") (Pow 20000) 4599 86400 public_key
                eq_refl eq_refl) as Hcb.
  replace (verify (bs "key") demo_token (bs "ctx") (Pow 20000) 4599 86400) with (Some demo_clearance)
    in Hcb by (vm_compute; reflexivity).
  exact Hcb.
Defined.
Lemma clearance_one_context_witness : bs "ctx" = bs "ctx" /\ demo_clearance = demo_clearance.
Proof.
  apply (clearance_one_context (bs "key") demo_token (bs "ctx") (Pow 20000) 4599 86400 demo_clearance
           (bs "ctx") (Pow 1) 1000 1 demo_clearance); vm_compute; reflexivity.
Defined.
