(* ===== verification/Nojs.v ===== *)
(** * [nojs.rs]: the meta-refresh grant

    A signed return path with a minimum wait.  [verify] tells an authentic grant that
    waited long enough from one that did not, and refuses everything else. *)
From Stdlib Require Import ZArith Lia.
From Stdlib Require Import Strings.Byte.
From stdpp Require Import base list strings option numbers countable sets.
From S2P Require Import Prelude RustStr Crates StandIns Codec Mac Ip Context Uri Clearance.
Local Open Scope Z_scope.

Definition NOJS_GRACE : Z := 120.

Record Grant := mkGrant {
  path : bytes; context : bytes; id : bytes; version : Z; iat : Z; delay : Z;
}.
#[export] Instance grant_eq_dec : EqDecision Grant.
Proof. solve_decision. Defined.
#[export] Instance grant_val : RustVal Grant := fun g =>
  utf8_valid (path g) && utf8_valid (context g) && utf8_valid (id g) && in_u8 (version g)
  && in_i64 (iat g) && in_i64 (delay g).
Inductive Verdict := Ok (g : Grant) | TooEarly (g : Grant) | Bad.
#[export] Instance verdict_eq_dec : EqDecision Verdict.
Proof. solve_decision. Defined.

Definition mac_input (payload_b64 : bytes) : bytes := bs "nojs-v2|" ++ payload_b64.
Definition path_ok (path : bytes) : bool := same_site_path path.

Section nojs.
Context {B : Base64} {H : Hmac} {C : Subtle} {J : Json Grant}.

(** [rid] is what the OS random generator wrote. *)
Definition issue (rid key path : bytes) (delay now : Z) (context : bytes) : bytes :=
  let grant := mkGrant (if path_ok path then path else bs "/") context (b64url rid) 2 now delay in
  let payload_b64 := b64url (to_vec grant) in
  let tag := b64url (hmac key (mac_input payload_b64)) in
  payload_b64 ++ bs "." ++ tag.

Definition verify (key token : bytes) (now : Z) (context : bytes) : Verdict :=
  if 8192 <? Z.of_nat (length token) then Bad else
  let-some parts := split_once "." token else Bad;
  let '(payload_b64, tag_b64) := parts in
  let expected := hmac key (mac_input payload_b64) in
  let-some provided := unb64url tag_b64 else Bad;
  if negb (ct_eq expected provided) then Bad else
  let-some raw := unb64url payload_b64 else Bad;
  let-some grant := from_slice raw else Bad;
  if negb (version grant =? 2) || negb (ct_eq (Nojs.context grant) context)
     || negb (path_ok (path grant)) || negb ((1 <=? delay grant) && (delay grant <=? 30))
     || (now <? iat grant) || (wrap_u 64 NOJS_GRACE <=? abs_diff now (iat grant))
  then Bad
  else if now <? i64_add (iat grant) (delay grant) then TooEarly grant
  else Ok grant.
End nojs.

(** ** Reference *)

Definition grant_token {B : Base64} {H : Hmac} (key raw : bytes) : bytes :=
  b64url raw ++ "."%byte :: b64url (hmac_sha256 key (bs "nojs-v2|" ++ b64url raw)).
(** A grant that is redeemable now or will be: ours, for this context, within the grace. *)
Definition live (g : Grant) (ctx : bytes) (now : Z) : Prop :=
  version g = 2 /\ context g = ctx /\ same_site_path (path g) = true
  /\ 1 <= delay g <= 30 /\ iat g <= now < iat g + 120.

Section nojs_lemmas.
Context {B : Base64} {BL : Base64Laws B} {H : Hmac} {HL : HmacLaws H} {C : Subtle} {CL : SubtleLaws C}
  {J : Json Grant} {JL : JsonLaws Grant}.

#[export] Instance live_dec g ctx now : Decision (live g ctx now).
Proof. unfold live. apply _. Defined.

(** The checks after the MAC. *)
Lemma grant_checks (g : Grant) ctx now :
  rust_ok g = true -> in_i64 (now + 30) = true ->
  (if negb (version g =? 2) || negb (ct_eq (context g) ctx)
      || negb (path_ok (path g)) || negb ((1 <=? delay g) && (delay g <=? 30))
      || (now <? iat g) || (wrap_u 64 NOJS_GRACE <=? abs_diff now (iat g))
   then Bad
   else if now <? i64_add (iat g) (delay g) then TooEarly g else Ok g)
  = if bool_decide (live g ctx now)
    then if now <? iat g + delay g then TooEarly g else Ok g
    else Bad.
Proof.
  intros Hty Hnow%in_i64_iff. unfold rust_ok, grant_val in Hty. to_prop.
  repeat match goal with X : in_i64 _ = true |- _ => apply in_i64_iff in X end.
  rewrite ct_eq_beq. unfold beq, abs_diff, path_ok. change (wrap_u 64 NOJS_GRACE) with 120.
  destruct (bool_decide (live g ctx now)) eqn:Hl;
    [apply bool_decide_eq_true in Hl|apply bool_decide_eq_false in Hl]; unfold live in Hl.
  - destruct Hl as (Hv & Hc & -> & Hd & Hi). rewrite bool_decide_eq_true_2 by done.
    rewrite (proj2 (Z.eqb_eq _ _)), (proj2 (Z.leb_le 1 (delay g))), (proj2 (Z.leb_le (delay g) 30)),
      (proj2 (Z.ltb_ge now (iat g))), (proj2 (Z.leb_gt 120 (Z.abs (now - iat g)))) by lia. simpl.
    by rewrite i64_add_id by (apply in_i64_iff; lia).
  - destruct (Z.eqb_spec (version g) 2); [|done]. case_bool_decide; [|done].
    destruct (same_site_path (path g)); [|done]. destruct (Z.leb_spec 1 (delay g)); [|done].
    destruct (Z.leb_spec (delay g) 30); [|done]. destruct (Z.ltb_spec now (iat g)); [done|].
    simpl. destruct (Z.leb_spec 120 (Z.abs (now - iat g))); [done|].
    exfalso. apply Hl. split_and!; done || lia.
Qed.
Lemma verify_authentic key raw now ctx :
  Z.of_nat (length (grant_token key raw)) <= 8192 -> in_i64 (now + 30) = true ->
  verify key (grant_token key raw) now ctx =
  match from_slice raw with
  | Some g => if bool_decide (live g ctx now)
              then if now <? iat g + delay g then TooEarly g else Ok g
              else Bad
  | None => Bad
  end.
Proof.
  intros Hl Hnow. unfold verify, grant_token in *. rewrite (proj2 (Z.ltb_ge _ _)) by done.
  rewrite split_once_app by auto with pow.
  rewrite unb64url_b64url, hmac_eq, ct_eq_refl, unb64url_b64url. simpl negb. cbv iota.
  destruct (from_slice raw) as [g|] eqn:E; [|done]. apply json_typed in E. by apply grant_checks.
Qed.
Lemma verify_not_bad key token now ctx :
  verify key token now ctx <> Bad ->
  Z.of_nat (length token) <= 8192 /\ exists raw, token = grant_token key raw.
Proof.
  unfold verify, grant_token. case_match eqn:Hl; [done|]. to_prop. intros Hx. split; [done|].
  destruct (split_once "." token) as [[p t]|] eqn:Es; [|done].
  apply split_once_Some in Es as [-> _].
  destruct (unb64url t) as [tag|] eqn:Et; [|done]. apply unb64url_Some in Et as ->.
  rewrite hmac_eq in Hx. destruct (ct_eq _ tag) eqn:Ect; [|done]. apply ct_eq_true in Ect as <-.
  simpl in Hx. destruct (unb64url p) as [raw|] eqn:Ep; [|done]. apply unb64url_Some in Ep as ->.
  by exists raw.
Qed.
Lemma verify_eq key token now ctx :
  in_i64 (now + 30) = true ->
  verify key token now ctx = Bad \/
  exists raw g, Z.of_nat (length token) <= 8192 /\ token = grant_token key raw /\ from_slice raw = Some g
    /\ live g ctx now /\ verify key token now ctx = if now <? iat g + delay g then TooEarly g else Ok g.
Proof.
  intros Hnow. destruct (decide (verify key token now ctx = Bad)) as [|Hb]; [by left|right].
  destruct (verify_not_bad _ _ _ _ Hb) as (Hl & raw & ->). rewrite verify_authentic in * by done.
  destruct (from_slice raw) as [g|] eqn:E; [|done]. case_bool_decide; [|done]. by exists raw, g.
Qed.
Lemma issue_token rid key p d now ctx :
  issue rid key p d now ctx =
  grant_token key (to_vec (mkGrant (if path_ok p then p else bs "/") ctx (b64url rid) 2 now d)).
Proof. unfold issue, grant_token. by rewrite hmac_eq. Qed.
Lemma issued_path_ok p : same_site_path (if path_ok p then p else bs "/") = true.
Proof. unfold path_ok. destruct (same_site_path p) eqn:E; [done|reflexivity]. Qed.

(** C17: A grant is redeemed exactly when it is authentic, at most 8192 bytes, for this
    context, names a safe same-site path and a wait of 1 to 30 seconds, and between
    [delay] and 120 seconds have passed since it was issued. *)
Theorem grant_redeemed_iff key token now ctx g :
  in_i64 (now + 30) = true ->
  verify key token now ctx = Ok g <->
  Z.of_nat (length token) <= 8192 /\
  exists raw, token = grant_token key raw /\ from_slice raw = Some g
    /\ version g = 2 /\ context g = ctx /\ same_site_path (path g) = true
    /\ 1 <= delay g <= 30 /\ iat g + delay g <= now < iat g + 120.
Proof.
  intros Hnow. split.
  - intros E. destruct (verify_eq key token now ctx Hnow) as [Hb|(raw & g' & Hl & Ht & Ej & Hv & Hr)];
      [congruence|]. rewrite Hr in E. destruct (Z.ltb_spec now (iat g' + delay g')); [done|].
    injection E as ->. split; [done|]. exists raw. unfold live in Hv. destruct_and!. by split_and!.
  - intros (Hl & raw & -> & Ej & Hv & Hc & Hp & Hd & Hi). rewrite verify_authentic, Ej by done.
    rewrite bool_decide_eq_true_2 by (unfold live; split_and!; done || lia).
    by rewrite (proj2 (Z.ltb_ge _ _)) by lia.
Qed.

(** A grant the server issued makes the client wait and then lets it through: for every
    path, [TooEarly] before the delay is over, [Ok] from then until 120 seconds after
    issue, and refused afterwards; an unsafe return path has become [/]. *)
Theorem issued_grant_timeline rid key p d now ctx now' :
  let g := mkGrant (if path_ok p then p else bs "/") ctx (b64url rid) 2 now d in
  let token := issue rid key p d now ctx in
  Z.of_nat (length token) <= 8192 -> utf8_valid ctx = true -> 1 <= d <= 30 -> in_i64 now = true ->
  in_i64 (now' + 30) = true -> now <= now' ->
  verify key token now' ctx =
  (if now' <? now + d then TooEarly g else if now' <? now + 120 then Ok g else Bad)
  /\ same_site_path (path g) = true.
Proof.
  intros g token Hl Hu Hd Hn Hn' Hle. split; [|apply issued_path_ok].
  unfold token in *. rewrite issue_token in *. fold g in Hl |- *. rewrite verify_authentic by done.
  rewrite json_roundtrip.
  - unfold live. simpl. destruct (Z.ltb_spec now' (now + 120)).
    + rewrite bool_decide_eq_true_2; [by destruct (now' <? now + d)|].
      split_and!; try done; try lia. apply issued_path_ok.
    + rewrite bool_decide_eq_false_2 by lia. by rewrite (proj2 (Z.ltb_ge _ _)) by lia.
  - unfold rust_ok, grant_val. cbn [path context id version iat delay g]. all_true; try done.
    + apply utf8_valid_ascii, same_site_path_ascii, issued_path_ok.
    + apply b64url_utf8.
    + apply in_i64_iff. lia.
Qed.

(** Where a client is sent after the wait: only to a same-site path that holds no control
    byte, space, quote, angle bracket or backslash, whatever the token says. *)
Theorem grant_redirect_safe key token now ctx g :
  in_i64 (now + 30) = true ->
  verify key token now ctx = Ok g \/ verify key token now ctx = TooEarly g ->
  exists rest, path g = "/"%byte :: rest /\ head rest <> Some "/"%byte /\ Forall harmless (path g).
Proof.
  intros Hnow E. destruct (verify_eq key token now ctx Hnow) as [Hb|(raw & g' & _ & _ & _ & Hv & Hr)].
  - by destruct E; congruence.
  - unfold live in Hv. destruct_and!. rewrite Hr in E.
    assert (g = g') as -> by (destruct E, (now <? _); congruence). by apply same_site_path_iff.
Qed.

(** C18: Domain separation of grants and clearances.  Under one key no token is taken both as
    a grant (ripe or early) and as a clearance, unless the two prefixed payloads, which
    differ, have one MAC. *)
Theorem grant_clearance_separation `{JC : !Json Clearance.Clearance} `{!JsonLaws Clearance.Clearance}
  key token now ctx ctx' required now' max_age :
  in_i64 max_age = true -> in_i64 now' = true ->
  verify key token now ctx = Bad
  \/ Clearance.verify key token ctx' required now' max_age = None
  \/ exists raw, token = grant_token key raw /\
       hmac_collision key (bs "nojs-v2|" ++ b64url raw) (MAC_PREFIX ++ b64url raw).
Proof.
  intros Hm Hn. destruct (decide (verify key token now ctx = Bad)) as [|Hb]; [by left|].
  destruct (Clearance.verify key token ctx' required now' max_age) as [c|] eqn:Hc; [|by auto].
  right; right. destruct (verify_not_bad _ _ _ _ Hb) as (_ & raw & Ht).
  exists raw. split; [done|]. apply Clearance.verify_Some in Hc as (_ & raw' & _ & Ht' & _); [|done..].
  rewrite Ht in Ht'. unfold grant_token, token_of in Ht'.
  apply sep_inj in Ht' as [E1 E2]; [|auto with pow..]. apply b64url_inj in E1 as <-.
  apply b64url_inj in E2. split; [done|exact E2].
Qed.
End nojs_lemmas.

(** ** Witnesses *)

#[export] Instance grant_fields : Fields Grant := {|
  to_fields g := [path g; context g; id g; show_u (version g); show_i (iat g); show_i (delay g)];
  of_fields l :=
    match l with
    | [path; context; id; version; iat; delay] =>
        version <-? parse_u 8 version; iat <-? parse_i 64 iat; delay <-? parse_i 64 delay;
        Some (mkGrant path context id version iat delay)
    | _ => None
    end;
|}.
Definition demo_json : Json Grant := std_json.
Lemma demo_json_laws' : JsonLaws Grant (J := demo_json).
Proof.
  apply std_json_laws. intros [p x i v t d] Hok.
  unfold rust_ok, grant_val in Hok. cbn in Hok. to_prop. simpl.
  by rewrite parse_u_show, !parse_i_show.
Qed.
#[local] Existing Instance demo_json.
#[local] Existing Instance demo_json_laws'.
Definition demo_grant : Grant := mkGrant (bs "/a?b=1") (bs "ctx") (b64url (bs "0123456789abcdef")) 2 1000 3.
Definition demo_token : bytes :=
  Eval vm_compute in issue (bs "0123456789abcdef") (bs "key") (bs "/a?b=1") 3 1000 (bs "ctx").

Lemma grant_redeemed_iff_witness :
  Z.of_nat (length demo_token) <= 8192 /\
  exists raw, demo_token = grant_token (bs "key") raw /\ from_slice raw = Some demo_grant
    /\ version demo_grant = 2 /\ context demo_grant = bs "ctx"
    /\ same_site_path (path demo_grant) = true
    /\ 1 <= delay demo_grant <= 30 /\ iat demo_grant + delay demo_grant <= 1003 < iat demo_grant + 120.
Proof.
  apply (grant_redeemed_iff (bs "key") demo_token 1003 (bs "ctx") demo_grant); vm_compute; reflexivity.
Defined.
Lemma issued_grant_timeline_witness :
  verify (bs "key") (issue (bs "0123456789abcdef") (bs "key") (bs "//evil") 3 1000 (bs "ctx")) 1002 (bs "ctx")
  = TooEarly (mkGrant (bs "/") (bs "ctx") (b64url (bs "0123456789abcdef")) 2 1000 3).
Proof.
  apply (issued_grant_timeline (bs "0123456789abcdef") (bs "key") (bs "//evil") 3 1000 (bs "ctx") 1002);
    first [lia|vm_compute; congruence].
Defined.
Lemma grant_redirect_safe_witness :
  exists rest, path demo_grant = "/"%byte :: rest /\ head rest <> Some "/"%byte
               /\ Forall harmless (path demo_grant).
Proof.
  apply (grant_redirect_safe (bs "key") demo_token 1003 (bs "ctx") demo_grant); [vm_compute; reflexivity|].
  left. vm_compute. reflexivity.
Defined.
Lemma grant_clearance_separation_witness :
  Clearance.verify (J := Clearance.demo_json) (bs "key") demo_token (bs "ctx") (Pow 1) 1003 60 = None
  \/ exists raw, demo_token = grant_token (bs "key") raw /\
       hmac_collision (bs "key") (bs "nojs-v2|" ++ b64url raw) (MAC_PREFIX ++ b64url raw).
Proof.
  destruct (grant_clearance_separation (JC := Clearance.demo_json)
    (JsonLaws0 := Clearance.demo_json_laws) (bs "key") demo_token 1003 (bs "ctx") (bs "ctx")
    (Pow 1) 1003 60) as [Hb|Hc]; [vm_compute; reflexivity..| |exact Hc].
  exfalso. vm_compute in Hb. discriminate.
Defined.
