(* ===== verification/Redemption.v ===== *)
(** * [redemption.rs] of the engine: the bounded one-use ledger

    An open-addressed table of fixed size.  [consume] looks at no more than 64 slots from
    the slot the identifier hashes to, never evicts a live entry, and reuses expired
    slots.  The file ends with the abstract store the ledger implements. *)
From Stdlib Require Import ZArith Lia.
From Stdlib Require Import Strings.Byte.
From stdpp Require Import base list strings option numbers countable sets gmap.
From S2P Require Import Prelude RustStr Crates StandIns.
Local Open Scope Z_scope.

Record Entry := mkEntry { entry_id : bytes; expires : Z }.
#[export] Instance entry_eq_dec : EqDecision Entry.
Proof. solve_decision. Defined.
Definition default_entry : Entry := mkEntry (replicate 32 Byte.x00) 0.

Inductive Outcome := Accepted | Reused | Full | Expired.
#[export] Instance outcome_eq_dec : EqDecision Outcome.
Proof. solve_decision. Defined.

Definition id {S : Sha256} (token : bytes) : bytes := sha_digest token.

(** [u64::from_be_bytes(id[..8]) as usize % entries.len()]; [usize] is 64 bits wide. *)
Definition start_of (id : bytes) (len : nat) : nat :=
  Z.to_nat (be_val (take 8 id) mod Z.of_nat len).
(** The loop over the probes: [None] is the early return of [Reused], [Some free] the
    first expired slot seen. *)
Fixpoint probe_loop (entries : list Entry) (id : bytes) (now : Z) (start : nat)
  (probes : list nat) (free : option nat) : option (option nat) :=
  match probes with
  | [] => Some free
  | probe :: probes' =>
      let index := ((start + probe) mod length entries)%nat in
      let entry := nth index entries default_entry in
      if (now <? expires entry) && beq (entry_id entry) id then None else
      let free := if (expires entry <=? now) && bool_decide (free = None) then Some index else free in
      probe_loop entries id now start probes' free
  end.
Definition consume (entries : list Entry) (id : bytes) (expires now : Z) : Outcome * list Entry :=
  if expires <=? now then (Expired, entries)
  else if (length entries =? 0)%nat then (Full, entries)
  else
    let start := start_of id (length entries) in
    match probe_loop entries id now start (seq 0 (Nat.min (length entries) 64)) None with
    | None => (Reused, entries)
    | Some (Some index) => (Accepted, <[index := mkEntry id expires]> entries)
    | Some None => (Full, entries)
    end.

(** [issuer]: 32 bytes of the OS random generator, or nothing when it fails. *)
Definition issuer (random : option bytes) : option bytes := id <-? random; Some id.

(** ** The probe window *)

(** The slots [consume] may look at for an identifier, in order. *)
Definition window (len : nat) (id : bytes) : list nat :=
  map (fun probe => ((start_of id len + probe) mod len)%nat) (seq 0 (Nat.min len 64)).
Definition slot (entries : list Entry) (i : nat) : Entry := nth i entries default_entry.
Definition live (now : Z) (e : Entry) : Prop := now < expires e.
#[export] Instance live_dec now e : Decision (live now e).
Proof. unfold live. apply _. Defined.

(** Every live entry is where a lookup of its identifier will see it, once. *)
Record wf (entries : list Entry) (now : Z) : Prop := mkWf {
  wf_window i e : entries !! i = Some e -> live now e -> i ∈ window (length entries) (entry_id e);
  wf_unique i j d e : entries !! i = Some d -> entries !! j = Some e ->
    live now d -> live now e -> entry_id d = entry_id e -> i = j;
}.
(** The identifier is in the table and unexpired. *)
Definition spent (entries : list Entry) (now : Z) (id : bytes) (e : Z) : Prop :=
  exists i, entries !! i = Some (mkEntry id e) /\ now < e.

(** ** Lemmas on the loop *)

Lemma slot_lookup entries i : (i < length entries)%nat -> entries !! i = Some (slot entries i).
Proof.
  intros Hi. destruct (lookup_lt_is_Some_2 entries i Hi) as [e E]. unfold slot.
  by rewrite E, (nth_lookup_Some _ _ _ _ E).
Qed.
Lemma window_lt len id i : i ∈ window len id -> (i < len)%nat.
Proof.
  unfold window. rewrite list_elem_of_fmap. intros (p & -> & Hp%elem_of_seq).
  apply Nat.mod_upper_bound. lia.
Qed.
Lemma window_length len id : (length (window len id) <= 64)%nat.
Proof. unfold window. rewrite length_map, length_seq. lia. Qed.
(** What the loop computes, in terms of the slots it visits. *)
Definition hit (entries : list Entry) (now : Z) (id : bytes) (i : nat) : Prop :=
  live now (slot entries i) /\ entry_id (slot entries i) = id.
#[export] Instance hit_dec entries now id i : Decision (hit entries now id i).
Proof. unfold hit. apply _. Defined.
Definition first_free (entries : list Entry) (now : Z) (w : list nat) : option nat :=
  '(_, i) <-? list_find (fun i => ~ live now (slot entries i)) w; Some i.

Lemma probe_loop_eq entries id now start ps free :
  let w := map (fun p => ((start + p) mod length entries)%nat) ps in
  probe_loop entries id now start ps free =
  if bool_decide (Exists (hit entries now id) w) then None
  else Some (match free with Some i => Some i | None => first_free entries now w end).
Proof.
  revert free. induction ps as [|p ps IH]; intros free; cbn [map probe_loop].
  - rewrite bool_decide_eq_false_2 by (intros Hx; inversion Hx). by destruct free.
  - set (i := ((start + p) mod length entries)%nat). fold (slot entries i).
    set (w := map _ ps) in *. cbv zeta in IH.
    destruct ((now <? expires (slot entries i)) && beq (entry_id (slot entries i)) id) eqn:Hh.
    + to_prop. rewrite bool_decide_eq_true_2; [done|]. left. split; [done|by apply beq_true].
    + rewrite IH.
      assert (~ hit entries now id i) as Hn.
      { intros [Hl He]. apply Z.ltb_lt in Hl. rewrite Hl in Hh. simpl in Hh.
        by apply beq_false in Hh. }
      assert (bool_decide (Exists (hit entries now id) (i :: w))
              = bool_decide (Exists (hit entries now id) w)) as ->.
      { apply bool_decide_ext. rewrite Exists_cons. tauto. }
      case_match; [done|]. f_equal. unfold first_free. cbn [list_find].
      destruct free as [j|].
      * rewrite (bool_decide_eq_false_2 (Some j = None)), andb_false_r by done. done.
      * rewrite (bool_decide_eq_true_2 (None = None)), andb_true_r by done.
        unfold live. destruct (Z.leb_spec (expires (slot entries i)) now) as [Hl|Hl].
        -- rewrite decide_True by lia. done.
        -- rewrite decide_False by lia. destruct (list_find _ w) as [[? ?]|]; done.
Qed.
Lemma first_free_Some entries now w i :
  first_free entries now w = Some i -> i ∈ w /\ ~ live now (slot entries i).
Proof.
  unfold first_free. destruct (list_find _ w) as [[k j]|] eqn:E; [|done]. intros [= ->].
  apply list_find_Some in E as (Hk & Hl & _). split; [|done]. by eapply list_elem_of_lookup_2.
Qed.
Lemma first_free_None entries now w :
  first_free entries now w = None <-> Forall (fun i => live now (slot entries i)) w.
Proof.
  unfold first_free. destruct (list_find _ w) as [[k j]|] eqn:E.
  - split; [done|]. intros Hf. apply list_find_Some in E as (Hk & Hl & _).
    rewrite Forall_lookup in Hf. by apply Hf in Hk.
  - split; [|done]. intros _. apply list_find_None in E. apply (Forall_impl _ _ _ E).
    intros i. apply dec_stable.
Qed.
Lemma window_nil len id : window len id = [] -> len = 0%nat.
Proof. unfold window. intros E%(f_equal length). rewrite length_map, length_seq in E. simpl in E. lia. Qed.

(** [consume] without the loop: expiry, then a hit in the window, then the first slot of
    the window that is not live. *)
Lemma consume_eq entries id e now :
  consume entries id e now =
  let w := window (length entries) id in
  if e <=? now then (Expired, entries)
  else if bool_decide (Exists (hit entries now id) w) then (Reused, entries)
  else match first_free entries now w with
       | Some i => (Accepted, <[i := mkEntry id e]> entries)
       | None => (Full, entries)
       end.
Proof.
  unfold consume. cbv zeta. case_match; [done|].
  destruct (Nat.eqb_spec (length entries) 0) as [Hz|Hz].
  - rewrite Hz. done.
  - rewrite probe_loop_eq. fold (window (length entries) id). destruct (bool_decide _); [done|].
    by destruct (first_free _ _ _).
Qed.

(** ** The invariant *)

Lemma wf_later entries now now' : now <= now' -> wf entries now -> wf entries now'.
Proof.
  intros Hle [Hw Hu]. split; unfold live in *.
  - intros i e E Hl. apply Hw; [done|lia].
  - intros i j d e E1 E2 H1 H2. apply Hu; [done|done|lia|lia].
Qed.
Lemma spent_later entries now now' id e : now <= now' < e -> spent entries now id e -> spent entries now' id e.
Proof. intros Hle (i & E & _). exists i. split; [done|lia]. Qed.
Lemma hit_spent entries now id :
  wf entries now ->
  Exists (hit entries now id) (window (length entries) id) <-> exists e, spent entries now id e.
Proof.
  intros [Hw _]. rewrite Exists_exists. split.
  - intros (i & Hi & Hl & <-). exists (expires (slot entries i)), i. split; [|done].
    rewrite slot_lookup by (by eapply window_lt). by destruct (slot entries i).
  - intros (e & i & E & Hl). exists i. split; [by apply (Hw i (mkEntry id e))|].
    unfold hit, slot. by rewrite (nth_lookup_Some _ _ _ _ E).
Qed.
(** What an accepted entry does to the table. *)
Lemma spent_insert entries now id e i id' x :
  wf entries now -> (i < length entries)%nat -> ~ live now (slot entries i) -> now < e ->
  (forall y, ~ spent entries now id y) ->
  spent (<[i := mkEntry id e]> entries) now id' x
  <-> (id' = id /\ x = e) \/ (id' <> id /\ spent entries now id' x).
Proof.
  intros Hwf Hi Hfree He Hno. split.
  - intros (j & E & Hx). rewrite list_lookup_insert in E. case_decide as Hij.
    + injection E as -> ->. by left.
    + right. assert (spent entries now id' x) as Hs by (by exists j). split; [|done].
      intros ->. by apply (Hno x).
  - intros [[-> ->]|[Hne (j & E & Hx)]].
    + exists i. split; [|done]. by apply list_lookup_insert_eq.
    + exists j. split; [|done]. rewrite list_lookup_insert_ne; [done|]. intros ->.
      apply Hfree. unfold slot, live. by rewrite (nth_lookup_Some _ _ _ _ E).
Qed.
Lemma wf_insert entries now id e i :
  wf entries now -> i ∈ window (length entries) id -> (forall y, ~ spent entries now id y) ->
  wf (<[i := mkEntry id e]> entries) now.
Proof.
  intros [Hw Hu] Hi Hno.
  assert (forall j d, entries !! j = Some d -> live now d -> entry_id d <> id) as Hother.
  { intros j [d x] E Hl <-. apply (Hno x). by exists j. }
  split.
  - intros j d E Hl. rewrite length_insert. rewrite list_lookup_insert in E. case_decide as Hij.
    + injection E as <-. by destruct Hij as [<- _].
    + by apply Hw.
  - intros j k c d Ej Ek Hj Hk Hid. rewrite list_lookup_insert in Ej, Ek. repeat case_decide; simplify_eq/=;
      first [by destruct_and!; subst | by destruct (Hother k d) | by destruct (Hother j c)
            | by apply (Hu _ _ c d)].
Qed.
Lemma wf_fresh n now : 0 <= now -> wf (replicate n default_entry) now.
Proof.
  intros Hn. split.
  - intros i e [-> _]%lookup_replicate Hl. unfold live, default_entry in Hl. simpl in Hl. lia.
  - intros i j d e [-> _]%lookup_replicate _ Hl. unfold live, default_entry in Hl. simpl in Hl. lia.
Qed.

(** The four outcomes under the invariant. *)
Lemma consume_cases entries id e now :
  wf entries now ->
  match consume entries id e now with
  | (Expired, es) => e <= now /\ es = entries
  | (Reused, es) => now < e /\ es = entries /\ exists x, spent entries now id x
  | (Accepted, es) => now < e /\ (forall x, ~ spent entries now id x) /\
      exists i, i ∈ window (length entries) id /\ ~ live now (slot entries i)
                /\ es = <[i := mkEntry id e]> entries
  | (Full, es) => now < e /\ es = entries /\ (forall x, ~ spent entries now id x) /\
      Forall (fun i => live now (slot entries i)) (window (length entries) id)
  end.
Proof.
  intros Hwf. rewrite consume_eq. cbv zeta. destruct (Z.leb_spec e now) as [He|He]; [done|].
  case_bool_decide as Hh; rewrite (hit_spent _ _ _ Hwf) in Hh; [done|].
  assert (forall x, ~ spent entries now id x) by (intros x Hx; apply Hh; by exists x).
  destruct (first_free _ _ _) as [i|] eqn:Ef.
  - apply first_free_Some in Ef as [Hi Hl]. split_and!; [done|done|]. by exists i.
  - apply first_free_None in Ef. done.
Qed.
Lemma consume_wf entries id e now o es :
  wf entries now -> consume entries id e now = (o, es) -> wf es now /\ length es = length entries.
Proof.
  intros Hwf E. pose proof (consume_cases entries id e now Hwf) as Hc. rewrite E in Hc.
  destruct o; [|destruct_and!; by subst..].
  destruct Hc as (_ & Hno & i & Hi & _ & ->). split; [by apply wf_insert|apply length_insert].
Qed.

(** ** Abstract store and refinement *)

(** What a one-use store promises: an identifier with an unexpired mark is refused, an
    unmarked one is marked or refused for lack of room, never silently dropped. *)
Inductive store_step (m : gmap bytes Z) (now : Z) (id : bytes) (e : Z) : Outcome -> gmap bytes Z -> Prop :=
  | step_expired : e <= now -> store_step m now id e Expired m
  | step_reused x : now < e -> m !! id = Some x -> now < x -> store_step m now id e Reused m
  | step_accepted : now < e -> (forall x, m !! id = Some x -> x <= now) ->
      store_step m now id e Accepted (<[id := e]> m)
  | step_full : now < e -> (forall x, m !! id = Some x -> x <= now) -> store_step m now id e Full m.
(** The table and the map agree on what is unexpired. *)
Definition refines (entries : list Entry) (now : Z) (m : gmap bytes Z) : Prop :=
  forall id x, spent entries now id x <-> m !! id = Some x /\ now < x.

Lemma refines_later entries now now' m : now <= now' -> refines entries now m -> refines entries now' m.
Proof.
  intros Hle HR id x. split.
  - intros (i & E & Hx). split; [|done]. apply HR. exists i. split; [done|lia].
  - intros [E Hx]. destruct (proj2 (HR id x)) as (i & Ei & _); [split; [done|lia]|]. by exists i.
Qed.
Lemma consume_refines entries now0 now m id e :
  now0 <= now -> wf entries now0 -> refines entries now0 m ->
  exists m', store_step m now id e (consume entries id e now).1 m'
    /\ refines (consume entries id e now).2 now m' /\ wf (consume entries id e now).2 now.
Proof.
  intros Hle Hwf HR. apply (wf_later _ _ _ Hle) in Hwf. apply (refines_later _ _ _ _ Hle) in HR.
  pose proof (consume_cases entries id e now Hwf) as Hc.
  destruct (consume entries id e now) as [o es] eqn:E.
  destruct (consume_wf _ _ _ _ _ _ Hwf E) as [Hwf' _]. simpl.
  assert ((forall x, ~ spent entries now id x) -> forall x, m !! id = Some x -> x <= now) as Hfresh.
  { intros Hno x Ex. destruct (decide (now < x)); [|lia]. destruct (Hno x). by apply HR. }
  destruct o.
  - destruct Hc as (He & Hno & i & Hi & Hf & ->). exists (<[id := e]> m).
    split; [by apply step_accepted; auto|]. split; [|done]. intros id' x.
    rewrite (spent_insert entries now id e i id' x Hwf (window_lt _ _ _ Hi) Hf He Hno), (HR id' x).
    destruct (decide (id' = id)) as [->|Hne].
    + rewrite lookup_insert_eq. naive_solver.
    + rewrite lookup_insert_ne by done. naive_solver.
  - destruct Hc as (He & -> & x & Hx). exists m. apply HR in Hx as [Ex Hx].
    split; [by eapply step_reused|done].
  - destruct Hc as (He & -> & Hno & _). exists m. split; [by apply step_full; auto|done].
  - destruct Hc as (He & ->). exists m. split; [by apply step_expired|done].
Qed.

(** ** Properties *)

(** C19: Every outcome of a redemption, on any table a sequence of redemptions can produce:
    [Expired] exactly at or past the expiry; [Reused] exactly when the identifier is in
    the table unexpired, wherever it sits; [Full] only when all slots of the window hold
    other live entries; otherwise one slot that was not live, and nothing else, changes. *)
Theorem consume_outcomes entries id e now :
  wf entries now ->
  match consume entries id e now with
  | (Expired, es) => e <= now /\ es = entries
  | (Reused, es) => now < e /\ es = entries /\ exists x, spent entries now id x
  | (Accepted, es) => now < e /\ (forall x, ~ spent entries now id x) /\
      exists i, i ∈ window (length entries) id /\ ~ live now (slot entries i)
                /\ es = <[i := mkEntry id e]> entries
  | (Full, es) => now < e /\ es = entries /\ (forall x, ~ spent entries now id x) /\
      Forall (fun i => live now (slot entries i)) (window (length entries) id)
  end.
Proof. apply consume_cases. Qed.
Lemma consume_outcomes_witness :
  exists x, spent (consume (replicate 4 default_entry) (bs "token-id") 50 10).2 20 (bs "token-id") x.
Proof.
  assert (wf (consume (replicate 4 default_entry) (bs "token-id") 50 10).2 20) as Hwf.
  { apply (wf_later _ 10 20); [lia|]. eapply consume_wf; [|apply surjective_pairing].
    apply wf_fresh. lia. }
  pose proof (consume_outcomes _ (bs "token-id") 50 20 Hwf) as Hc.
  destruct (consume (consume (replicate 4 default_entry) (bs "token-id") 50 10).2 (bs "token-id") 50 20)
    as [o es] eqn:E.
  assert (o = Reused) as -> by (change o with (o, es).1; rewrite <- E; vm_compute; reflexivity).
  apply Hc.
Defined.

(** C20: The bounded table implements the abstract one-use store.  From any state that agrees
    with a map of marks on what is unexpired, at any later time, a redemption returns an
    outcome and leaves a table that the abstract store allows, and the invariant holds on:
    probing at most 64 slots loses no mark. *)
Theorem ledger_refines_store entries now0 now m id e :
  now0 <= now -> wf entries now0 -> refines entries now0 m ->
  exists m', store_step m now id e (consume entries id e now).1 m'
    /\ refines (consume entries id e now).2 now m' /\ wf (consume entries id e now).2 now.
Proof. apply consume_refines. Qed.
Lemma ledger_refines_store_witness :
  exists m', store_step ∅ 10 (bs "token-id") 50 (consume (replicate 4 default_entry) (bs "token-id") 50 10).1 m'
    /\ refines (consume (replicate 4 default_entry) (bs "token-id") 50 10).2 10 m'
    /\ wf (consume (replicate 4 default_entry) (bs "token-id") 50 10).2 10.
Proof.
  apply (ledger_refines_store (replicate 4 default_entry) 0 10 ∅ (bs "token-id") 50); [lia|apply wf_fresh; lia|].
  intros i x. split; [|by intros [? _]; simplify_map_eq].
  intros (k & [E _]%lookup_replicate & Hx). injection E as _ ->. lia.
Defined.
