(* ===== verification/Store.v ===== *)
(** * The interface between redemption and its stores

    The gate redeems tokens against one of two stores: the shared-memory ledger of a
    single nginx, or a Redis primary for a cluster.  [OneUse] is what both offer,
    [OneUseLaws] what both promise, and the theorem below what a client gets from it. *)
From Stdlib Require Import ZArith Lia.
From Stdlib Require Import Strings.Byte.
From stdpp Require Import base list strings option numbers countable sets.
From S2P Require Import Prelude Redemption.
Local Open Scope Z_scope.

(** [Env] is what a call reads from outside: clocks.  [usable] bounds it where a store
    needs that. *)
Class OneUse (St Env : Type) := {
  store_inv : St -> Prop;
  usable : St -> Env -> Prop;
  store_consume : Env -> St -> bytes -> Z -> Outcome * St;
  (** This token, with this expiry, can never be accepted again. *)
  gone : St -> bytes -> Z -> Prop;
}.
Class OneUseLaws (St Env : Type) {O : OneUse St Env} : Prop := {
  consume_inv env s id e : store_inv s -> usable s env -> store_inv (store_consume env s id e).2;
  accepted_gone env s id e : store_inv s -> usable s env ->
    (store_consume env s id e).1 = Accepted -> gone (store_consume env s id e).2 id e;
  gone_stays env s id e id' e' : store_inv s -> usable s env ->
    gone s id e -> gone (store_consume env s id' e').2 id e;
  gone_refused env s id e : store_inv s -> usable s env ->
    gone s id e -> (store_consume env s id e).1 <> Accepted;
}.

Section run.
Context {St Env : Type} {O : OneUse St Env}.

(** A sequence of redemptions, by any workers in any order. *)
Fixpoint run (s : St) (ops : list (Env * bytes * Z)) : list Outcome :=
  match ops with
  | [] => []
  | (env, id, e) :: ops' =>
      (store_consume env s id e).1 :: run (store_consume env s id e).2 ops'
  end.
Fixpoint usable_run (s : St) (ops : list (Env * bytes * Z)) : Prop :=
  match ops with
  | [] => True
  | (env, id, e) :: ops' => usable s env /\ usable_run (store_consume env s id e).2 ops'
  end.

Context {L : OneUseLaws St Env}.

Lemma gone_run s ops id e j env :
  store_inv s -> usable_run s ops -> gone s id e ->
  ops !! j = Some (env, id, e) -> run s ops !! j <> Some Accepted.
Proof.
  revert s j. induction ops as [|[[w x] y] ops IH]; intros s j Hi Hu Hg Ej; [done|].
  destruct Hu as [Hu Hu']. destruct j as [|j]; simpl in Ej |- *.
  - injection Ej as -> -> ->. intros [= E]. by apply (gone_refused env s id e).
  - apply IH; [by apply consume_inv|done|by apply gone_stays|done].
Qed.
(** A token is accepted at most once. *)
Lemma run_at_most_once s ops i j id e w1 w2 :
  store_inv s -> usable_run s ops -> (i < j)%nat ->
  ops !! i = Some (w1, id, e) -> ops !! j = Some (w2, id, e) ->
  run s ops !! i = Some Accepted -> run s ops !! j <> Some Accepted.
Proof.
  revert s i j. induction ops as [|[[w x] y] ops IH]; intros s i j Hi Hu Hij Ei Ej Ea; [done|].
  destruct Hu as [Hu Hu']. destruct j as [|j]; [lia|]. destruct i as [|i]; simpl in *.
  - injection Ei as -> -> ->. injection Ea as Ea.
    eapply (gone_run _ ops id e); [by apply consume_inv|done|by apply accepted_gone|done].
  - eapply (IH _ i j); [by apply consume_inv|done|lia|done..].
Qed.
End run.
