(* ===== verification/Ledger.v ===== *)
(** * [redemption.rs] of the module: the ledger in nginx shared memory

    [State] lives in a shared zone; every worker takes the zone's mutex around
    [consume], so the redemptions of all workers are one sequence.  Each one reads the
    wall clock inside the lock and raises a shared high-water mark. *)
From Stdlib Require Import ZArith Lia.
From Stdlib Require Import Strings.Byte.
From stdpp Require Import base list strings option numbers countable sets gmap.
From S2P Require Import Prelude RustStr Crates StandIns Redemption Store.
Local Open Scope Z_scope.

Definition CAPACITY : Z := 32768.

Record State := mkState { issuer : bytes; last_now : Z; entries : list Entry }.

(** Zeroed memory with an issuer in it. *)
Definition fresh (issuer : bytes) : State :=
  mkState issuer 0 (replicate (Z.to_nat CAPACITY) default_entry).
Arguments fresh : simpl never.

(** A zone as the worker sees it: no zone or no data yet, or the state. *)
Definition Zone : Type := option State.

(** [init_zone]: keep the data of an old cycle or of an existing segment, else allocate
    zeroed memory and draw an issuer.  [existing] is what the segment holds when it
    already exists, [alloc] whether the slab allocation succeeds. *)
Definition init_zone (old existing : Zone) (exists_ alloc : bool) (random : option bytes)
  : bool * Zone :=
  match old with
  | Some _ => (true, old)
  | None =>
      if exists_ then (true, existing)
      else if negb alloc then (false, None)
      else match Redemption.issuer random with
           | None => (false, None)
           | Some issuer => (true, Some (fresh issuer))
           end
  end.

(** The critical section: clock, high-water mark, [redemption::consume]. *)
Definition locked_consume (wall : Z) (state : State) (id : bytes) (expires : Z) : Outcome * State :=
  let now := Z.max wall (last_now state) in
  let '(result, es) := Redemption.consume (entries state) id expires now in
  (result, mkState (issuer state) now es).
Definition consume {S : Sha256} (wall : Z) (zone : Zone) (token : bytes) (expires : Z) : Outcome * Zone :=
  let id := Redemption.id token in
  match zone with
  | None => (Full, zone)
  | Some state => let '(result, st) := locked_consume wall state id expires in (result, Some st)
  end.

(** A prepared response, held back until the store accepts. *)
Record Grant := mkGrant {
  cookie : bytes; redirect : option bytes; difficulty : Z; kind : bytes;
}.
#[export] Instance grant_eq_dec : EqDecision Grant.
Proof. solve_decision. Defined.

(** ** The ledger is a one-use store *)

Definition ledger_gone (s : State) (id : bytes) (e : Z) : Prop :=
  e <= last_now s \/ exists e', e <= e' /\ spent (entries s) (last_now s) id e'.
Definition ledger_inv (s : State) : Prop := wf (entries s) (last_now s).
#[export] Instance ledger_store : OneUse State Z := {|
  store_inv := ledger_inv;
  usable _ _ := True;
  store_consume := locked_consume;
  gone := ledger_gone;
|}.

Lemma locked_consume_now wall s id e :
  last_now (locked_consume wall s id e).2 = Z.max wall (last_now s).
Proof. unfold locked_consume. by destruct (Redemption.consume _ _ _ _). Qed.
Lemma locked_consume_inv wall s id e :
  ledger_inv s -> ledger_inv (locked_consume wall s id e).2.
Proof.
  unfold ledger_inv, locked_consume. intros Hwf.
  destruct (Redemption.consume _ _ _ _) as [o es] eqn:E. simpl.
  eapply consume_wf; [|exact E]. eapply wf_later; [|exact Hwf]. lia.
Qed.
(** Marks that have not expired survive every redemption. *)
Lemma spent_stays entries id e now id' e' :
  wf entries now -> spent entries now id e -> spent (Redemption.consume entries id' e' now).2 now id e.
Proof.
  intros Hwf Hs. pose proof (consume_cases entries id' e' now Hwf) as Hc.
  destruct (Redemption.consume entries id' e' now) as [[] es]; simpl; [|by destruct_and!; subst..].
  destruct Hc as (He & Hno & i & Hi & Hf & ->). apply window_lt in Hi.
  apply spent_insert; [done..|]. right. split; [|done]. intros ->. by apply (Hno e).
Qed.
#[export] Instance ledger_store_laws : OneUseLaws State Z.
Proof.
  split.
  - intros. by apply locked_consume_inv.
  - intros wall s id e Hi _. simpl. unfold ledger_gone, locked_consume.
    assert (wf (entries s) (Z.max wall (last_now s))) as Hwf by (eapply wf_later; [|exact Hi]; lia).
    pose proof (consume_cases _ id e _ Hwf) as Hc.
    destruct (Redemption.consume _ _ _ _) as [o es]. simpl. intros ->.
    destruct Hc as (He & Hno & i & Hw & Hf & ->). right. exists e. split; [done|].
    apply window_lt in Hw. apply spent_insert; auto.
  - intros wall s id e id' e' Hi _ Hg. simpl. unfold ledger_gone. rewrite locked_consume_now.
    destruct Hg as [Hg|(x & Hx & Hs)]; [left; lia|].
    destruct (decide (x <= Z.max wall (last_now s))); [left; lia|]. right. exists x. split; [done|].
    assert (wf (entries s) (Z.max wall (last_now s))) as Hwf by (eapply wf_later; [|exact Hi]; lia).
    apply (spent_later _ _ (Z.max wall (last_now s))) in Hs; [|lia].
    apply (spent_stays _ _ _ _ id' e' Hwf) in Hs. unfold locked_consume.
    by destruct (Redemption.consume _ _ _ _).
  - intros wall s id e Hi _ Hg. simpl. unfold locked_consume.
    assert (wf (entries s) (Z.max wall (last_now s))) as Hwf by (eapply wf_later; [|exact Hi]; lia).
    pose proof (consume_cases _ id e _ Hwf) as Hc.
    destruct (Redemption.consume _ _ _ _) as [o es]. simpl. intros ->.
    destruct Hc as (He & Hno & _). destruct Hg as [Hg|(x & Hx & Hs)]; [lia|].
    apply (Hno x). eapply spent_later; [|exact Hs]. lia.
Qed.

(** What one critical section does: the invariant, what is gone stays gone, and an accepted
    token was not gone before and is afterwards. *)
Lemma locked_consume_once wall s id e :
  ledger_inv s ->
  let r := locked_consume wall s id e in
  ledger_inv r.2 /\ (forall i x, ledger_gone s i x -> ledger_gone r.2 i x)
  /\ (r.1 = Accepted -> ledger_gone r.2 id e) /\ (r.1 = Accepted -> ~ ledger_gone s id e).
Proof.
  intros Hi. cbv zeta. split; [by apply locked_consume_inv|].
  split; [intros i x; by apply (gone_stays (O := ledger_store) wall s i x id e)|].
  split; [by apply (accepted_gone (O := ledger_store) wall s id e)|].
  intros Ha Hg. by apply (gone_refused (O := ledger_store) wall s id e Hi I Hg).
Qed.

(** Some slot a redemption of [id] may take is free at time [now]. *)
Definition room (entries : list Entry) (id : bytes) (now : Z) : Prop :=
  exists i, i ∈ window (length entries) id /\ ~ live now (slot entries i).
(** A token that is not spent and finds room is accepted before it expires. *)
Lemma consume_accepts {S : Sha256} wall st token e :
  let now := Z.max wall (last_now st) in let id := Redemption.id token in
  ledger_inv st -> now < e -> (forall x, ~ spent (entries st) now id x) -> room (entries st) id now ->
  (consume wall (Some st) token e).1 = Accepted.
Proof.
  intros now id Hi He Hno (i & Hw & Hl). unfold consume, locked_consume. fold id now.
  assert (wf (entries st) now) as Hwf by (eapply wf_later; [|exact Hi]; lia).
  pose proof (consume_cases (entries st) id e now Hwf) as Hc.
  destruct (Redemption.consume _ _ _ _) as [[] es]; simpl; [done|..].
  - destruct Hc as (_ & _ & x & Hx). by destruct (Hno x).
  - destruct Hc as (_ & _ & _ & Hall). rewrite Forall_forall in Hall. by destruct Hl; apply Hall.
  - destruct Hc as [Hc _]. lia.
Qed.
(** An empty table holds nothing and has room. *)
Lemma empty_room n id now :
  0 <= now -> (forall x, ~ spent (replicate n default_entry) now id x)
  /\ (n <> 0%nat -> room (replicate n default_entry) id now).
Proof.
  intros Hn. assert (forall i e, replicate n default_entry !! i = Some e -> ~ live now e) as Hd.
  { intros i e [-> _]%lookup_replicate Hl. unfold live, default_entry in Hl. simpl in Hl. lia. }
  split; [intros x (i & E & Hl); by apply (Hd _ _ E)|]. unfold room. rewrite length_replicate. intros Hne.
  destruct (window n id) as [|i w] eqn:E; [by apply window_nil in E|].
  assert (i ∈ window n id) as Hi by (rewrite E; apply list_elem_of_here).
  exists i. split; [by rewrite <- E|]. apply (Hd i), slot_lookup. rewrite length_replicate. by eapply window_lt.
Qed.

(** The memory a fresh zone starts with satisfies the invariant. *)
Lemma fresh_zone_inv random st :
  init_zone None None false true random = (true, Some st) -> ledger_inv st.
Proof.
  unfold init_zone. simpl negb. cbv iota. destruct (Redemption.issuer random) as [r|]; [|done].
  intros [_ E]%pair_equal_spec. apply Some_inj in E as <-. by apply wf_fresh.
Qed.

(** ** Properties *)

(** One use in shared memory.  Start from a fresh zone and let any number of workers
    redeem in any order, with the wall clock doing anything, jumping backwards included:
    of all redemptions of one token at most one is accepted.  (A token determines its
    expiry.) *)
Theorem token_redeemed_once random st ops i j id e w1 w2 :
  init_zone None None false true random = (true, Some st) -> (i < j)%nat ->
  ops !! i = Some (w1, id, e) -> ops !! j = Some (w2, id, e) ->
  run st ops !! i = Some Accepted -> run st ops !! j <> Some Accepted.
Proof.
  intros Hz Hij Ei Ej. apply fresh_zone_inv in Hz.
  eapply run_at_most_once; [done| |done..].
  clear. revert st. induction ops as [|[[w x] y] ops IH]; intros st; simpl; auto.
Qed.
Definition demo_ops : list (Z * bytes * Z) := [(100, bs "id-token", 160); (40, bs "id-token", 160)].
Lemma token_redeemed_once_witness :
  run (fresh (bs "issuer")) demo_ops = [Accepted; Reused]
  /\ run (fresh (bs "issuer")) demo_ops !! 1%nat <> Some Accepted.
Proof.
  assert (run (fresh (bs "issuer")) demo_ops = [Accepted; Reused]) as Hr by (vm_compute; reflexivity).
  split; [exact Hr|].
  apply (token_redeemed_once (Some (bs "issuer")) (fresh (bs "issuer")) demo_ops 0 1 (bs "id-token") 160 100 40);
    [reflexivity|lia|reflexivity|reflexivity|]. rewrite Hr. reflexivity.
Defined.

(** The shared clock never runs backwards and a token is never accepted at or past its
    expiry by that clock, whatever the wall clock of the worker says. *)
Theorem high_water_clock wall s id e :
  last_now s <= last_now (locked_consume wall s id e).2
  /\ wall <= last_now (locked_consume wall s id e).2
  /\ ((locked_consume wall s id e).1 = Accepted -> last_now (locked_consume wall s id e).2 < e)
  /\ issuer (locked_consume wall s id e).2 = issuer s.
Proof.
  rewrite locked_consume_now. unfold locked_consume, Redemption.consume.
  split; [lia|]. split; [lia|]. destruct (Z.leb_spec e (Z.max wall (last_now s))); [done|].
  split; [intros _; lia|]. by repeat case_match.
Qed.
