(* ===== verification/Redis.v ===== *)
(** * [redis.rs]: the RESP2 codec and the cluster redemption script

    [command] and [reply] are the two halves of the codec.  [consume_script] is the Lua
    text of [CONSUME], statement by statement, over the part of a Redis database it
    touches; [health_script] the text of [HEALTH].  Redis itself is not part of the
    sources: of its documented behaviour the model has [GET], [SET], [SET NX EX] and
    [TIME], with a key gone once the server clock is past its expiry. *)
From Stdlib Require Import ZArith Lia.
From Stdlib Require Import Strings.Byte.
From stdpp Require Import base list strings option numbers countable sets gmap.
From S2P Require Import Prelude RustStr Crates StandIns Codec Redemption Store.
Local Open Scope Z_scope.

Definition crlf : bytes := [Byte.x0d; Byte.x0a].

(** ** Keys and commands *)

(** [format!("powgate:{{{namespace}}}")]. *)
Definition key_base (namespace : bytes) : bytes := bs "powgate:{" ++ namespace ++ bs "}".
Definition spent_key (namespace epoch id : bytes) : bytes :=
  key_base namespace ++ bs ":" ++ epoch ++ bs ":spent:" ++ hex id.
Definition keys {S : Sha256} (namespace epoch token : bytes) : bytes * bytes * bytes :=
  let base := key_base namespace in
  let id := Redemption.id token in
  (base ++ bs ":epoch", spent_key namespace epoch id, base ++ bs ":clock").

Definition command_part (part : bytes) : bytes :=
  bs "$" ++ show_u (Z.of_nat (length part)) ++ crlf ++ part ++ crlf.
Definition command (parts : list bytes) : bytes :=
  foldl (fun out part => out ++ command_part part)
    (bs "*" ++ show_u (Z.of_nat (length parts)) ++ crlf) parts.

(** ** Replies *)

Inductive Reply := Integer (value : Z) | Ok | Null | Error.
#[export] Instance reply_eq_dec : EqDecision Reply.
Proof. solve_decision. Defined.
(** [Result<Option<(Reply, usize)>, &str>]: [inl] is an error, [inr None] "read more". *)
Definition ReplyResult : Type := bytes + option (Reply * nat).

(** [input.windows(2).position(|p| p == b"\r\n")]. *)
Fixpoint find_crlf (input : bytes) : option nat :=
  match input with
  | a :: ((b :: _) as rest) =>
      if bool_decide (a = Byte.x0d /\ b = Byte.x0a) then Some 0%nat
      else n <-? find_crlf rest; Some (S n)
  | _ => None
  end.
Definition reply (input : bytes) : ReplyResult :=
  if (1024 <? length input)%nat then inl (bs "oversized Redis reply") else
  let-some end_ := find_crlf input else inr None;
  let line := take end_ input in
  if beq line (bs "+OK") then inr (Some (Ok, (end_ + 2)%nat))
  else if beq line (bs "$-1") then inr (Some (Null, (end_ + 2)%nat))
  else if bool_decide (head line = Some "-"%byte) then inr (Some (Error, (end_ + 2)%nat))
  else if bool_decide (head line = Some ":"%byte) then
    if negb (utf8_valid (drop 1 line)) then inl (bs "invalid Redis integer") else
    let-some value := parse_i 64 (drop 1 line) else inl (bs "invalid Redis integer");
    inr (Some (Integer value, (end_ + 2)%nat))
  else inl (bs "unexpected Redis reply").

(** ** The scripts *)

(** The Lua texts, sent as they are. *)
Definition HEALTH : bytes :=
  bs "if redis.call('GET',KEYS[1])~=ARGV[1] or not tonumber(redis.call('GET',KEYS[2])) then return -2 end return 1".
Definition CONSUME : bytes :=
  bs "
if redis.call('GET',KEYS[1])~=ARGV[1] then return -2 end
local previous=tonumber(redis.call('GET',KEYS[3]))
if not previous then return -2 end
local current=tonumber(redis.call('TIME')[1])
local skew=tonumber(ARGV[3])
if math.abs(current-tonumber(ARGV[4]))>skew then return -3 end
local now=math.max(current,previous)
local expires=tonumber(ARGV[2])
if expires<=now then return -1 end
if now>previous then redis.call('SET',KEYS[3],tostring(now)) end
if redis.call('SET',KEYS[2],'1','NX','EX',expires-now+skew+1) then return 1 end
return 0
".

(** The keys of a namespace: the epoch fence, the high-water clock in seconds ([None] when
    [tonumber] gives nil), and the spent markers with the millisecond they vanish at. *)
Record Db := mkDb { epoch : option bytes; clock : option Z; markers : gmap bytes Z }.

Definition health_script (db : Db) (argv_epoch : bytes) : Z :=
  if negb (bool_decide (epoch db = Some argv_epoch)) || bool_decide (clock db = None)
  then -2 else 1.

(** [redis.call('SET', key, '1', 'NX', 'EX', ttl)] at server time [ms]. *)
Definition set_nx_ex (markers : gmap bytes Z) (ms : Z) (key : bytes) (ttl : Z) : option (gmap bytes Z) :=
  match markers !! key with
  | Some until => if ms <=? until then None else Some (<[key := ms + ttl * 1000]> markers)
  | None => Some (<[key := ms + ttl * 1000]> markers)
  end.
(** [KEYS[2]], then [ARGV]: epoch, expiry, skew and the caller's clock; [ms] is the server
    clock behind [TIME]. *)
Definition consume_script (ms : Z) (db : Db) (key argv_epoch : bytes) (expires skew caller : Z) : Z * Db :=
  if negb (bool_decide (epoch db = Some argv_epoch)) then (-2, db) else
  let-some previous := clock db else (-2, db);
  let current := ms / 1000 in
  if skew <? Z.abs (current - caller) then (-3, db) else
  let now := Z.max current previous in
  if expires <=? now then (-1, db) else
  let db := if previous <? now then mkDb (epoch db) (Some now) (markers db) else db in
  match set_nx_ex (markers db) ms key (expires - now + skew + 1) with
  | Some ms' => (1, mkDb (epoch db) (clock db) ms')
  | None => (0, db)
  end.

(** ** A reader for commands, as the server reads them *)

Definition take_line (s : bytes) : option (bytes * bytes) :=
  n <-? find_crlf s; Some (take n s, drop (n + 2) s).
Definition read_count (c : byte) (s : bytes) : option (nat * bytes) :=
  s <-? strip_prefix [c] s; '(line, rest) <-? take_line s;
  n <-? parse_u 64 line; Some (Z.to_nat n, rest).
Definition read_bulk (s : bytes) : option (bytes * bytes) :=
  '(n, rest) <-? read_count "$" s;
  if bool_decide (take 2 (drop n rest) = crlf) then Some (take n rest, drop (n + 2) rest) else None.
Fixpoint read_bulks (k : nat) (s : bytes) : option (list bytes * bytes) :=
  match k with
  | O => Some ([], s)
  | S k' => '(p, s) <-? read_bulk s; '(ps, s) <-? read_bulks k' s; Some (p :: ps, s)
  end.
Definition read_command (s : bytes) : option (list bytes * bytes) :=
  '(k, s) <-? read_count "*" s; read_bulks k s.

(** ** Lemmas on the codec *)

Lemma find_crlf_eq a b s :
  find_crlf (a :: b :: s) =
  if bool_decide (a = Byte.x0d /\ b = Byte.x0a) then Some 0%nat else n <-? find_crlf (b :: s); Some (S n).
Proof. done. Qed.
Arguments find_crlf : simpl never.
Lemma find_crlf_cons a s n :
  find_crlf (a :: s) = Some n ->
  (n = 0%nat /\ exists t, a :: s = crlf ++ t) \/ exists m, n = S m /\ find_crlf s = Some m.
Proof.
  destruct s as [|b s]; [done|]. rewrite find_crlf_eq. case_bool_decide as Hab.
  - intros [= <-]. left. destruct Hab as [-> ->]. split; [done|]. exists s. reflexivity.
  - destruct (find_crlf (b :: s)) as [m|]; [|done]. intros [= <-]. right. by exists m.
Qed.
Lemma find_crlf_Some s n :
  find_crlf s = Some n -> s = take n s ++ crlf ++ drop (n + 2) s.
Proof.
  revert n. induction s as [|a s IH]; intros n; [done|].
  intros [[-> [t E]]|(m & -> & E)]%find_crlf_cons; [rewrite E; done|].
  simpl. f_equal. by apply IH.
Qed.
(** More bytes do not move the first line end. *)
Lemma find_crlf_extend s t n : find_crlf s = Some n -> find_crlf (s ++ t) = Some n.
Proof.
  revert n. induction s as [|a s IH]; intros n; [done|].
  destruct s as [|b s]; [done|]. cbn [app] in *. rewrite !find_crlf_eq. case_bool_decide; [done|].
  destruct (find_crlf (b :: s)) as [m|]; [|done]. by rewrite (IH m).
Qed.
(** Nor are the bytes after the line end looked at. *)
Lemma find_crlf_take s n : find_crlf s = Some n -> find_crlf (take (n + 2) s) = Some n.
Proof.
  revert n. induction s as [|a s IH]; intros n; [done|]. destruct s as [|b s]; [done|].
  rewrite find_crlf_eq. case_bool_decide as Hab.
  - intros [= <-]. change (take (0 + 2) (a :: b :: s)) with [a; b]. by rewrite find_crlf_eq, bool_decide_eq_true_2.
  - destruct (find_crlf (b :: s)) as [m|] eqn:E; [|done]. intros [= <-]. specialize (IH m eq_refl).
    rewrite Nat.add_comm in IH |- *. cbn [Nat.add take] in IH |- *.
    rewrite find_crlf_eq, bool_decide_eq_false_2 by done. by rewrite IH.
Qed.
Lemma find_crlf_line d t : Byte.x0d ∉ d -> find_crlf (d ++ crlf ++ t) = Some (length d).
Proof.
  induction d as [|a d IH]; [done|]. intros Hn. apply not_elem_of_cons in Hn as [Ha Hn].
  specialize (IH Hn). cbn [app length]. destruct (d ++ crlf ++ t) as [|b r] eqn:E; [by destruct d|].
  rewrite find_crlf_eq, bool_decide_eq_false_2 by (intros [? _]; congruence). by rewrite IH.
Qed.
Lemma read_count_show c n rest :
  in_u64 (Z.of_nat n) = true -> read_count c ([c] ++ show_u (Z.of_nat n) ++ crlf ++ rest) = Some (n, rest).
Proof.
  intros Hn. unfold read_count. rewrite (proj2 (strip_prefix_Some [c] _ _) eq_refl).
  unfold take_line. rewrite find_crlf_line by (apply show_u_no_byte; [lia|done]).
  rewrite take_app_length.
  rewrite drop_app_ge by lia. rewrite Nat.add_comm, Nat.add_sub. simpl drop.
  rewrite parse_u_show by done. by rewrite Nat2Z.id.
Qed.
Lemma read_bulk_part p rest :
  in_u64 (Z.of_nat (length p)) = true -> read_bulk (command_part p ++ rest) = Some (p, rest).
Proof.
  intros Hp. unfold read_bulk, command_part.
  replace ((bs "$" ++ show_u (Z.of_nat (length p)) ++ crlf ++ p ++ crlf) ++ rest)
    with (["$"%byte] ++ show_u (Z.of_nat (length p)) ++ crlf ++ (p ++ crlf ++ rest))
    by (rewrite <- !app_assoc; done).
  rewrite read_count_show by done. rewrite drop_app_length.
  rewrite bool_decide_eq_true_2 by done. rewrite take_app_length.
  rewrite drop_app_ge by lia. by rewrite Nat.add_comm, Nat.add_sub.
Qed.
Lemma command_eq parts :
  command parts = bs "*" ++ show_u (Z.of_nat (length parts)) ++ crlf ++ concat (map command_part parts).
Proof.
  unfold command. assert (forall acc, foldl (fun out part => out ++ command_part part) acc parts
    = acc ++ concat (map command_part parts)) as E.
  { induction parts as [|p ps IH]; intros acc; simpl; [by rewrite app_nil_r|].
    rewrite IH. rewrite <- app_assoc. done. }
  by rewrite E, <- !app_assoc.
Qed.

(** No argument can change the shape of a Redis command.  Reading the bytes of a command
    back as the protocol prescribes gives exactly the arguments that were encoded, whatever
    bytes they hold, and consumes exactly the command. *)
Lemma read_command_command parts rest :
  forallb (fun p => in_u64 (Z.of_nat (length p))) parts = true -> in_u64 (Z.of_nat (length parts)) = true ->
  read_command (command parts ++ rest) = Some (parts, rest).
Proof.
  intros Hp Hn. rewrite command_eq. unfold read_command.
  replace ((bs "*" ++ show_u (Z.of_nat (length parts)) ++ crlf ++ concat (map command_part parts)) ++ rest)
    with (["*"%byte] ++ show_u (Z.of_nat (length parts)) ++ crlf ++ (concat (map command_part parts) ++ rest))
    by (rewrite <- !app_assoc; done).
  rewrite read_count_show by done. clear Hn.
  induction parts as [|p ps IH]; [done|]. cbn [forallb] in Hp. to_prop.
  cbn [length read_bulks map concat]. rewrite <- app_assoc, read_bulk_part by done.
  by rewrite IH.
Qed.

(** A reply is decided by its first line and never revised.  When the bytes read so far
    already give a reply, that reply ends at its line end inside those bytes, and reading
    more, up to the 1024-byte limit, gives the same reply. *)
Theorem reply_stable input more r n :
  reply input = inr (Some (r, n)) -> (length (input ++ more) <= 1024)%nat ->
  reply (input ++ more) = inr (Some (r, n))
  /\ (n <= length input)%nat /\ exists line, input = line ++ crlf ++ drop n input.
Proof.
  unfold reply. intros E Hl. assert (length input <= 1024)%nat by (rewrite length_app in Hl; lia).
  rewrite (proj2 (Nat.ltb_ge _ _)) in E by done. rewrite (proj2 (Nat.ltb_ge _ _)) by done.
  destruct (find_crlf input) as [k|] eqn:Ef; [|done]. rewrite (find_crlf_extend _ _ _ Ef).
  pose proof (find_crlf_Some _ _ Ef) as Hs.
  assert (k + 2 <= length input)%nat as Hk.
  { pose proof (f_equal length Hs) as Hlen. rewrite !length_app, length_take, length_drop in Hlen.
    change (length crlf) with 2%nat in Hlen. lia. }
  rewrite take_app_le by lia. assert (n = k + 2)%nat as -> by (by repeat case_match; simplify_eq).
  split; [done|]. split; [done|]. by exists (take k input).
Qed.
Lemma reply_stable_witness : reply (bs ":1" ++ crlf ++ bs "x") = inr (Some (Integer 1, 4%nat)).
Proof.
  apply (reply_stable (bs ":1" ++ crlf) (bs "x") (Integer 1) 4); [vm_compute; reflexivity|].
  apply Nat.leb_le. vm_compute. reflexivity.
Defined.

(** A reply is its line. *)
Lemma reply_exact input r n :
  reply input = inr (Some (r, n)) -> reply (take n input) = inr (Some (r, n)) /\ length (take n input) = n.
Proof.
  intros E. destruct (reply_stable input [] r n) as (_ & Hn & _); [done| |].
  { rewrite app_nil_r. unfold reply in E. destruct (Nat.ltb_spec 1024 (length input)); [done|lia]. }
  split; [|by apply length_take_le]. unfold reply in *.
  destruct (Nat.ltb_spec 1024 (length input)) as [|Hl]; [done|].
  rewrite (proj2 (Nat.ltb_ge _ _)) by (rewrite length_take; lia).
  destruct (find_crlf input) as [k|] eqn:Ef; [|done].
  assert (n = k + 2)%nat as -> by (by repeat case_match; simplify_eq).
  rewrite (find_crlf_take _ _ Ef), take_take, Nat.min_l by lia. done.
Qed.

(** ** The script as a one-use store *)

(** A call sees the server clock ([time_ms]), the caller's clock, and finds the server
    having shown, since the call before, times up to [seen_ms]; the server drops every key
    whose expiry it has passed. *)
Record RedisEnv := mkEnv { seen_ms : Z; time_ms : Z; caller_now : Z }.
(** The database and the latest time its server has shown. *)
Record Server := mkServer { db : Db; peak : Z }.
Definition drop_expired (peak : Z) (d : Db) : Db :=
  mkDb (epoch d) (clock d) (filter (fun '(_, until) => peak <= until) (markers d)).
(** The integer reply as the outcome the module takes it for. *)
Definition outcome_of (code : Z) : Outcome :=
  if code =? 1 then Accepted else if code =? 0 then Reused else if code =? -1 then Expired else Full.
(** Half of the margin the script adds to a marker's life, in milliseconds. *)
Definition slack (skew : Z) : Z := 500 * (skew + 1).

Section cluster_store.
Context (argv_epoch : bytes) (skew : Z).

(** One run of the script by the server: the integer it returns, and the server after. *)
Definition redis_eval (env : RedisEnv) (s : Server) (key : bytes) (e : Z) : Z * Server :=
  let peak := Z.max (peak s) (Z.max (seen_ms env) (time_ms env)) in
  let '(code, d) := consume_script (time_ms env) (drop_expired peak (db s)) key argv_epoch e skew
                      (caller_now env) in
  (code, mkServer d peak).
Definition redis_consume (env : RedisEnv) (s : Server) (key : bytes) (e : Z) : Outcome * Server :=
  let '(code, s) := redis_eval env s key e in (outcome_of code, s).
Definition redis_inv (s : Server) : Prop := forall p, clock (db s) = Some p -> 1000 * p <= peak s.
(** The server clock is at most [slack] behind the latest time it has shown. *)
Definition redis_usable (s : Server) (env : RedisEnv) : Prop :=
  Z.max (peak s) (seen_ms env) - time_ms env <= slack skew.
Definition redis_gone (s : Server) (key : bytes) (e : Z) : Prop :=
  1000 * e + slack skew <= peak s
  \/ exists until, markers (db s) !! key = Some until /\ 1000 * e + slack skew <= until.
#[export] Instance redis_store : OneUse Server RedisEnv := {|
  store_inv := redis_inv;
  usable := redis_usable;
  store_consume := redis_consume;
  gone := redis_gone;
|}.

(** The script in one equation: which of the replies, and what changes. *)
Lemma consume_script_cases ms d key e caller code d' :
  consume_script ms d key argv_epoch e skew caller = (code, d') ->
  (outcome_of code <> Accepted /\ markers d' = markers d /\
    (clock d' = clock d \/ exists p, clock d = Some p /\ p < ms / 1000 /\ clock d' = Some (ms / 1000)))
  \/ (code = 1 /\ exists p, clock d = Some p /\ Z.max (ms / 1000) p < e
      /\ clock d' = Some (Z.max (ms / 1000) p)
      /\ (forall until, markers d !! key = Some until -> until < ms)
      /\ markers d' = <[key := ms + (e - Z.max (ms / 1000) p + skew + 1) * 1000]> (markers d)).
Proof.
  unfold consume_script. case_match; [intros [= <- <-]; left; auto|].
  destruct (clock d) as [p|] eqn:Ec; [|intros [= <- <-]; left; auto].
  case_match; [intros [= <- <-]; left; auto|]. destruct (Z.leb_spec e (Z.max (ms / 1000) p)) as [|He];
    [intros [= <- <-]; left; auto|].
  unfold set_nx_ex. set (d1 := if p <? _ then _ else _).
  assert (markers d1 = markers d /\ clock d1 = Some (Z.max (ms / 1000) p)) as [Hm Hc].
  { unfold d1. destruct (Z.ltb_spec p (Z.max (ms / 1000) p)); simpl; [done|].
    split; [done|]. rewrite Ec. f_equal. lia. }
  assert (clock d1 = clock d \/ exists q, Some p = Some q /\ q < ms / 1000 /\ clock d1 = Some (ms / 1000)) as Hkeep.
  { rewrite Hc, Ec. destruct (Z.le_ge_cases (ms / 1000) p).
    - left. f_equal. lia.
    - destruct (decide (p = ms / 1000)); [left; f_equal; lia|]. right. exists p.
      split; [done|]. split; [lia|]. f_equal. lia. }
  rewrite Hm. destruct (markers d !! key) as [until|] eqn:Em.
  - destruct (Z.leb_spec ms until); intros [= <- <-].
    + left. rewrite Ec in Hkeep. auto.
    + right. split; [done|]. exists p. simpl. split_and!; try done. intros u [= <-]. done.
  - intros [= <- <-]. right. split; [done|]. exists p. simpl. by split_and!.
Qed.
Lemma drop_expired_lookup peak d key until :
  markers (drop_expired peak d) !! key = Some until <-> markers d !! key = Some until /\ peak <= until.
Proof. simpl. by rewrite map_lookup_filter_Some. Qed.

Context (Hskew : 0 <= skew).

Lemma redis_consume_inv env s key e : redis_inv s -> redis_inv (redis_consume env s key e).2.
Proof.
  unfold redis_inv, redis_consume, redis_eval. intros Hi.
  destruct (consume_script _ _ _ _ _ _ _) as [code d] eqn:E. simpl. intros p Hp.
  pose proof (Z.mul_div_le (time_ms env) 1000 ltac:(lia)).
  apply consume_script_cases in E as [(_ & _ & [Hc|(q & Hq & _ & Hc)])|(_ & q & Hq & _ & Hc & _)];
    simpl in *.
  - rewrite Hc in Hp. apply Hi in Hp. lia.
  - rewrite Hc in Hp. injection Hp as <-. lia.
  - rewrite Hc in Hp. injection Hp as <-. apply Hi in Hq. lia.
Qed.
Lemma redis_gone_stays env s key e key' e' :
  redis_gone s key e -> redis_gone (redis_consume env s key' e').2 key e.
Proof.
  unfold redis_gone, redis_consume, redis_eval. set (pk := Z.max (peak s) (Z.max (seen_ms env) (time_ms env))). intros Hg.
  destruct (consume_script _ _ _ _ _ _ _) as [code d] eqn:E. simpl.
  destruct Hg as [Hg|(until & Hm & Hu)]; [left; lia|].
  destruct (decide (pk <= until)) as [Hlive|]; [right|left; lia].
  assert (markers (drop_expired pk (db s)) !! key = Some until) as Hk by (by apply drop_expired_lookup).
  exists until. split; [|done].
  apply consume_script_cases in E as [(_ & Hd & _)|(_ & q & _ & _ & _ & Hold & ->)]; [by rewrite Hd|].
  rewrite lookup_insert_ne; [done|]. intros ->. apply Hold in Hk. lia.
Qed.
Lemma redis_accepted_gone env s key e :
  redis_inv s -> redis_usable s env ->
  (redis_consume env s key e).1 = Accepted -> redis_gone (redis_consume env s key e).2 key e.
Proof.
  unfold redis_gone, redis_inv, redis_usable, redis_consume, redis_eval. intros Hi Hu.
  destruct (consume_script _ _ _ _ _ _ _) as [code d] eqn:E. simpl. intros Ha.
  apply consume_script_cases in E as [(Hn & _)|(_ & q & Hq & He & _ & _ & ->)]; [done|].
  right. eexists. rewrite lookup_insert_eq. split; [done|]. simpl in Hq. apply Hi in Hq.
  pose proof (Z.mul_div_le (time_ms env) 1000 ltac:(lia)). unfold slack in *. lia.
Qed.
Lemma redis_gone_refused env s key e :
  redis_usable s env -> redis_gone s key e -> (redis_consume env s key e).1 <> Accepted.
Proof.
  unfold redis_gone, redis_usable, redis_consume, redis_eval. set (pk := Z.max (peak s) (Z.max (seen_ms env) (time_ms env))). intros Hu Hg.
  destruct (consume_script _ _ _ _ _ _ _) as [code d] eqn:E. simpl. intros Ha.
  apply consume_script_cases in E as [(Hn & _)|(_ & q & Hq & He & _ & Hold & _)]; [done|].
  assert (e <= time_ms env / 1000 -> False) as Hlate by lia.
  destruct Hg as [Hg|(until & Hm & Hun)].
  - apply Hlate, Z.div_le_lower_bound; lia.
  - destruct (decide (pk <= until)).
    + assert (until < time_ms env) by (apply Hold, drop_expired_lookup; split; [done|lia]). lia.
    + apply Hlate, Z.div_le_lower_bound; [lia|]. unfold slack in *. lia.
Qed.
Lemma redis_store_laws : OneUseLaws Server RedisEnv.
Proof.
  split; simpl; intros.
  - by apply redis_consume_inv.
  - by apply redis_accepted_gone.
  - by apply redis_gone_stays.
  - by apply redis_gone_refused.
Qed.
End cluster_store.

(** One use in a cluster.  For any sequence of redemptions by any nginx workers against
    one Redis primary whose clock never falls behind the latest time it has shown by more
    than half of the skew allowance and a second, a token is accepted at most once, with the
    epoch fence, expiring markers and the high-water clock in play. *)
Theorem cluster_token_redeemed_once argv_epoch skew s ops i j key e w1 w2 :
  let O := redis_store argv_epoch skew in
  0 <= skew -> redis_inv s -> usable_run (O := O) s ops -> (i < j)%nat ->
  ops !! i = Some (w1, key, e) -> ops !! j = Some (w2, key, e) ->
  run (O := O) s ops !! i = Some Accepted -> run (O := O) s ops !! j <> Some Accepted.
Proof.
  intros O Hs Hi Hu Hij Ei Ej. pose proof (redis_store_laws argv_epoch skew Hs).
  by eapply run_at_most_once.
Qed.
Definition demo_server : Server := mkServer (mkDb (Some (bs "e1")) (Some 100) ∅) 100000.
(** Ten seconds of clock, a step back of three, the same token three times. *)
Definition demo_ops : list (RedisEnv * bytes * Z) :=
  [(mkEnv 110500 110500 110, bs "k", 130); (mkEnv 110500 107600 108, bs "k", 130);
   (mkEnv 131000 131000 131, bs "k", 130)].
Lemma cluster_token_redeemed_once_witness :
  run (O := redis_store (bs "e1") 5) demo_server demo_ops = [Accepted; Reused; Expired]
  /\ run (O := redis_store (bs "e1") 5) demo_server demo_ops !! 1%nat <> Some Accepted.
Proof.
  assert (run (O := redis_store (bs "e1") 5) demo_server demo_ops = [Accepted; Reused; Expired]) as Hr
    by (vm_compute; reflexivity).
  split; [exact Hr|].
  apply (cluster_token_redeemed_once (bs "e1") 5 demo_server demo_ops 0 1 (bs "k") 130
           (mkEnv 110500 110500 110) (mkEnv 110500 107600 108)); [lia| | |lia|reflexivity..].
  - intros p [= <-]. vm_compute. discriminate.
  - repeat split; vm_compute; discriminate.
Defined.

(** The script for a token without a live marker, called in time. *)
Lemma redis_consume_fresh ep skew env s key e p :
  let now := Z.max (time_ms env / 1000) p in
  epoch (db s) = Some ep -> clock (db s) = Some p -> Z.abs (time_ms env / 1000 - caller_now env) <= skew ->
  now < e -> (forall until, markers (db s) !! key = Some until -> until < time_ms env) ->
  let pk := Z.max (peak s) (Z.max (seen_ms env) (time_ms env)) in
  redis_consume ep skew env s key e
  = (Accepted, mkServer (mkDb (Some ep) (Some now)
       (<[key := time_ms env + (e - now + skew + 1) * 1000]> (markers (drop_expired pk (db s))))) pk).
Proof.
  intros now He Hc Ha Hn Hm pk. unfold redis_consume, redis_eval, consume_script. fold pk.
  cbn [drop_expired epoch clock]. rewrite He, Hc, bool_decide_eq_true_2 by done. cbn [negb].
  rewrite (proj2 (Z.ltb_ge _ _)) by done. fold now. rewrite (proj2 (Z.leb_gt _ _)) by done.
  set (d1 := if p <? now then _ else _).
  assert (d1 = mkDb (Some ep) (Some now) (markers (drop_expired pk (db s)))) as ->.
  { unfold d1, drop_expired. destruct (Z.ltb_spec p now); simpl; [done|].
    rewrite He, Hc. by replace now with p by lia. }
  unfold set_nx_ex. simpl markers. destruct (filter _ _ !! key) as [until|] eqn:E; [|done].
  apply map_lookup_filter_Some in E as [E%Hm _].
  by rewrite (proj2 (Z.leb_gt _ _)).
Qed.
(** The script for a token whose marker is live, called in time. *)
Lemma redis_consume_marked ep skew env s key e p until :
  epoch (db s) = Some ep -> clock (db s) = Some p -> Z.abs (time_ms env / 1000 - caller_now env) <= skew ->
  Z.max (time_ms env / 1000) p < e -> markers (db s) !! key = Some until ->
  Z.max (peak s) (Z.max (seen_ms env) (time_ms env)) <= until ->
  (redis_consume ep skew env s key e).1 = Reused.
Proof.
  intros He Hc Ha Hn Hm Hu. unfold redis_consume, redis_eval, consume_script. set (pk := Z.max (peak s) _) in *.
  cbn [drop_expired epoch clock]. rewrite He, Hc, bool_decide_eq_true_2 by done. cbn [negb].
  rewrite (proj2 (Z.ltb_ge _ _)) by done. rewrite (proj2 (Z.leb_gt _ _)) by done.
  assert (markers (drop_expired pk (db s)) !! key = Some until) as Hk by (by apply drop_expired_lookup).
  set (d1 := if p <? _ then _ else _).
  assert (markers d1 = markers (drop_expired pk (db s))) as -> by (unfold d1; by case_match).
  unfold set_nx_ex. rewrite Hk, (proj2 (Z.leb_le _ _)) by lia. done.
Qed.

(** C21: How far a spent marker reaches when the Redis clock steps back.  The redemption of
    another token sets the high-water clock at the server time [t0]; the server clock then
    steps back, a token is redeemed at [t1 <= t0], and the clock catches up.  A second
    redemption of the same token at [t2], before its expiry [e], is refused as a reuse up to
    the millisecond [until = t1 + 1000 * (e - t0 / 1000 + skew + 1)] and accepted after it: the
    life of the marker is counted from the high-water clock but runs on the server clock, so
    it is too short by the step.  A step of at most [skew + 1] seconds is covered, since
    [until] is then past the expiry; with one of more than [skew + 2] it is before it. *)
Theorem backward_step_reopens_token ep skew s p other e' key e t0 t1 t2 c0 c1 c2 :
  epoch (db s) = Some ep -> clock (db s) = Some p -> peak s <= t0 -> p <= t0 / 1000 ->
  markers (db s) !! other = None -> markers (db s) !! key = None -> other <> key ->
  t1 <= t0 <= t2 -> t0 / 1000 < e' -> t2 / 1000 < e -> 0 <= skew ->
  Z.abs (t0 / 1000 - c0) <= skew -> Z.abs (t1 / 1000 - c1) <= skew -> Z.abs (t2 / 1000 - c2) <= skew ->
  let until := t1 + 1000 * (e - t0 / 1000 + skew + 1) in
  run (O := redis_store ep skew) s
    [(mkEnv t0 t0 c0, other, e'); (mkEnv t0 t1 c1, key, e); (mkEnv t2 t2 c2, key, e)]
  = [Accepted; Accepted; if t2 <=? until then Reused else Accepted]
  /\ (t0 / 1000 - t1 / 1000 <= skew + 1 -> t2 <= until)
  /\ (skew + 2 < t0 / 1000 - t1 / 1000 -> until < 1000 * e - 1).
Proof.
  intros He Hc Hp0 Hp Ho Hk Hne [H10 H02] He' He2 Hs A0 A1 A2 until.
  pose proof (Z.div_le_mono t1 t0 1000 ltac:(lia) H10). pose proof (Z.div_le_mono t0 t2 1000 ltac:(lia) H02).
  pose proof (Z.mul_div_le t1 1000 ltac:(lia)). pose proof (Z.mul_succ_div_gt t1 1000 ltac:(lia)).
  pose proof (Z.mul_succ_div_gt t2 1000 ltac:(lia)).
  split; [|unfold until; lia]. cbn [run store_consume redis_store].
  rewrite (redis_consume_fresh ep skew _ s other e' p) by (simpl; try done; try lia; congruence).
  cbn [fst snd time_ms seen_ms].
  replace (Z.max (t0 / 1000) p) with (t0 / 1000) by lia. replace (Z.max (peak s) (Z.max t0 t0)) with t0 by lia.
  set (m0 := <[other := _]> _). assert (m0 !! key = None) as Hm0.
  { unfold m0. rewrite lookup_insert_ne by done. simpl. apply map_lookup_filter_None. left. done. }
  rewrite (redis_consume_fresh ep skew _ (mkServer _ _) key e (t0 / 1000))
    by (simpl; try done; try lia; congruence).
  cbn [fst snd time_ms seen_ms peak db].
  replace (Z.max (t1 / 1000) (t0 / 1000)) with (t0 / 1000) by lia. replace (Z.max t0 (Z.max t0 t1)) with t0 by lia.
  set (m1 := <[key := _]> _). assert (m1 !! key = Some until) as Hm1.
  { unfold m1. rewrite lookup_insert_eq. f_equal. unfold until. lia. }
  do 3 f_equal. destruct (Z.leb_spec t2 until).
  - apply (redis_consume_marked _ _ _ _ _ _ (t0 / 1000) until); simpl; try done; lia.
  - erewrite (redis_consume_fresh ep skew _ (mkServer _ _) key e (t0 / 1000)); simpl; try done; try lia.
    rewrite Hm1. intros u [= <-]. done.
Qed.
Lemma backward_step_reopens_token_witness :
  run (O := redis_store (bs "e1") 5) demo_server
    [(mkEnv 110000 110000 110, bs "other", 150); (mkEnv 110000 100000 100, bs "k", 120);
     (mkEnv 116001 116001 116, bs "k", 120)]
  = [Accepted; Accepted; Accepted].
Proof.
  apply (backward_step_reopens_token (bs "e1") 5 demo_server 100 (bs "other") 150 (bs "k") 120
           110000 100000 116001 110 100 116); first [reflexivity|discriminate|vm_compute; intuition congruence].
Defined.

(** The three keys of a transaction are three keys, and a spent marker belongs to one
    token: within a namespace, equal marker names mean equal epochs and equal token
    identifiers (an epoch has no colon). *)
Theorem redis_keys_distinct {S : Sha256} ns ep token :
  let '(epoch_key, marker, clock_key) := keys ns ep token in
  epoch_key <> marker /\ epoch_key <> clock_key /\ marker <> clock_key
  /\ forall ep' id', ":"%byte ∉ ep -> ":"%byte ∉ ep' -> spent_key ns ep' id' = marker ->
       ep' = ep /\ id' = Redemption.id token.
Proof.
  unfold keys, spent_key.
  assert (forall x y, x ++ bs ":spent:" ++ y = bs "epoch" \/ x ++ bs ":spent:" ++ y = bs "clock" -> False) as Hno.
  { intros x y Hx. assert (":"%byte ∈ bs "epoch" \/ ":"%byte ∈ bs "clock") as [Hc|Hc]
      by (destruct Hx as [<-|<-]; [left|right]; set_solver); vm_compute in Hc; set_solver. }
  change (bs ":epoch") with (bs ":" ++ bs "epoch"). change (bs ":clock") with (bs ":" ++ bs "clock").
  split_and!.
  - intros E%app_inv_head%app_inv_head. eapply Hno. left. by symmetry.
  - intros E%app_inv_head. done.
  - intros E%app_inv_head%app_inv_head. eapply Hno. by right.
  - intros ep' id' H1 H2 E%app_inv_head%app_inv_head. apply sep_inj in E as [-> E]; [|done..].
    split; [done|]. apply (app_inv_head (bs "spent:")) in E. by apply hex_inj.
Qed.
