(* ===== verification/VerdictCache.v ===== *)
(** * [verdict_cache.rs]: the bounded cache of DNS verdicts

    [begin] answers from the cache or opens a lookup under a fresh generation;
    [complete] and [cancel] take effect only on the entry of their generation.  An
    [Instant] is a number of nanoseconds on the monotonic clock. *)
From Stdlib Require Import ZArith Lia.
From Stdlib Require Import Strings.Byte.
From stdpp Require Import base list strings option numbers countable sets gmap fin_maps.
From S2P Require Import Prelude Ip.
Local Open Scope Z_scope.

Inductive Lookup := Cached (verdict : bool) | Start (generation : Z) | Full.
Record Entry := mkEntry { verdict : bool; at_ : Z; entry_generation : Z }.

(** [now.saturating_duration_since(at)]. *)
Definition elapsed (now at_ : Z) : Z := Z.max 0 (now - at_).
Definition one_second : Z := 1000000000.

Section cache.
Context {K : Type} `{Countable K}.

Record VerdictCache := mkCache {
  entries : gmap K Entry; capacity : nat; ttl : Z; next_sweep : Z; generation : Z;
}.
Definition new (capacity : nat) (ttl now : Z) : VerdictCache := mkCache ∅ capacity ttl now 0.

Definition fresh (self : VerdictCache) (now : Z) (e : Entry) : Prop := elapsed now (at_ e) < ttl self.
#[export] Instance fresh_dec self now e : Decision (fresh self now e).
Proof. unfold fresh. apply _. Defined.
Definition with_entries (self : VerdictCache) (es : gmap K Entry) : VerdictCache :=
  mkCache es (capacity self) (ttl self) (next_sweep self) (generation self).

Definition sweep (self : VerdictCache) (now : Z) : VerdictCache :=
  if (capacity self <=? size (entries self))%nat && (next_sweep self <=? now)
  then mkCache (filter (fun '(_, e) => fresh self now e) (entries self)) (capacity self) (ttl self)
         (now + one_second) (generation self)
  else self.
Definition begin (self : VerdictCache) (key : K) (now : Z) : Lookup * VerdictCache :=
  let open_ self :=
    let self := sweep self now in
    if (capacity self <=? size (entries self))%nat then (Full, self) else
    let generation := wrap_u 64 (generation self + 1) in
    (Start generation,
     mkCache (<[key := mkEntry false now generation]> (entries self)) (capacity self) (ttl self)
       (next_sweep self) generation) in
  match entries self !! key with
  | Some entry =>
      if decide (fresh self now entry) then (Cached (verdict entry), self)
      else open_ (with_entries self (delete key (entries self)))
  | None => open_ self
  end.
Definition complete (self : VerdictCache) (key : K) (generation : Z) (verdict : bool) (now : Z) : VerdictCache :=
  match entries self !! key with
  | Some entry =>
      if entry_generation entry =? generation
      then with_entries self (<[key := mkEntry verdict now (entry_generation entry)]> (entries self))
      else self
  | None => self
  end.
Definition cancel (self : VerdictCache) (key : K) (generation : Z) : VerdictCache :=
  match entries self !! key with
  | Some entry =>
      if entry_generation entry =? generation
      then with_entries self (delete key (entries self)) else self
  | None => self
  end.
Definition len (self : VerdictCache) : nat := size (entries self).
Definition is_empty (self : VerdictCache) : bool := bool_decide (entries self = ∅).

(** ** Histories *)

Inductive Op := Begin (key : K) (now : Z) | Complete (key : K) (g : Z) (v : bool) (now : Z)
  | Cancel (key : K) (g : Z).
Definition exec (c : VerdictCache) (op : Op) : VerdictCache :=
  match op with
  | Begin key now => (begin c key now).2
  | Complete key g v now => complete c key g v now
  | Cancel key g => cancel c key g
  end.
Definition history (c : VerdictCache) (ops : list Op) : VerdictCache := foldl exec c ops.

(** ** Lemmas *)

(** Bounded size; every generation handed out is at most the counter. *)
Record inv (c : VerdictCache) : Prop := mkInv {
  inv_size : (size (entries c) <= capacity c)%nat;
  inv_generation k e : entries c !! k = Some e -> entry_generation e <= generation c;
}.
Lemma size_insert_le (m : gmap K Entry) k e : (size (<[k := e]> m) <= S (size m))%nat.
Proof.
  destruct (m !! k) eqn:E.
  - rewrite map_size_insert_Some; [lia|done].
  - rewrite map_size_insert_None; [lia|done].
Qed.
Lemma size_delete_le (m : gmap K Entry) k : (size (delete k m) <= size m)%nat.
Proof. apply map_subseteq_size, delete_subseteq. Qed.
Lemma sweep_subseteq c now : entries (sweep c now) ⊆ entries c.
Proof. unfold sweep. case_match; [apply map_filter_subseteq|done]. Qed.
Lemma sweep_fields c now :
  capacity (sweep c now) = capacity c /\ ttl (sweep c now) = ttl c
  /\ generation (sweep c now) = generation c.
Proof. unfold sweep. by case_match. Qed.

(** The three ways [begin] ends. *)
Lemma begin_cases c key now :
  (exists e, entries c !! key = Some e /\ fresh c now e /\ begin c key now = (Cached (verdict e), c))
  \/ ((forall e, entries c !! key = Some e -> ~ fresh c now e) /\
      exists c1, c1 = sweep (with_entries c (delete key (entries c))) now /\
      begin c key now =
        if (capacity c <=? size (entries c1))%nat then (Full, c1) else
        (Start (wrap_u 64 (generation c + 1)),
         mkCache (<[key := mkEntry false now (wrap_u 64 (generation c + 1))]> (entries c1)) (capacity c)
           (ttl c) (next_sweep c1) (wrap_u 64 (generation c + 1)))).
Proof.
  unfold begin. destruct (entries c !! key) as [e|] eqn:E.
  - destruct (decide (fresh c now e)) as [Hf|Hf]; [left; by exists e|right].
    split; [by intros ? [= <-]|]. eexists. split; [done|].
    destruct (sweep_fields (with_entries c (delete key (entries c))) now) as (-> & -> & ->). done.
  - right. split; [done|]. eexists. split; [done|].
    assert (with_entries c (delete key (entries c)) = c) as ->.
    { unfold with_entries. rewrite delete_id by done. by destruct c. }
    destruct (sweep_fields c now) as (-> & -> & ->). done.
Qed.
Lemma begin_inv c key now :
  0 <= generation c -> generation c + 1 < 2 ^ 64 -> inv c ->
  inv (begin c key now).2 /\ generation c <= generation (begin c key now).2 <= generation c + 1.
Proof.
  intros Hg0 Hg [Hs Hgen].
  destruct (begin_cases c key now) as [(e & _ & _ & ->)|[_ (c1 & Hc1 & ->)]];
    [split; [done|simpl; lia]|].
  assert (entries c1 ⊆ entries c) as Hsub.
  { subst c1. etransitivity; [apply sweep_subseteq|]. apply delete_subseteq. }
  assert (capacity c1 = capacity c /\ generation c1 = generation c) as [Hcap Hge].
  { subst c1. by destruct (sweep_fields (with_entries c (delete key (entries c))) now) as (-> & _ & ->). }
  assert (forall k e, entries c1 !! k = Some e -> entry_generation e <= generation c) as Hgen1.
  { intros k e Ek. eapply Hgen, lookup_weaken; done. }
  destruct (Nat.leb_spec (capacity c) (size (entries c1))) as [Hfull|Hroom]; simpl.
  - split; [|lia]. split; [rewrite Hcap|by rewrite Hge].
    etransitivity; [|exact Hs]. by apply map_subseteq_size.
  - rewrite wrap_u_id by (apply in_u_iff; lia). split; [|lia]. split; simpl.
    + pose proof (size_insert_le (entries c1) key (mkEntry false now (generation c + 1))). lia.
    + intros k e. destruct (decide (k = key)) as [->|].
      * rewrite lookup_insert_eq. intros [= <-]. simpl. lia.
      * rewrite lookup_insert_ne by done. intros Ek. apply Hgen1 in Ek. lia.
Qed.
Lemma completed_inv c key g v now : inv c -> inv (complete c key g v now).
Proof.
  intros [Hs Hgen]. unfold complete. destruct (entries c !! key) as [e|] eqn:E; [|done].
  case_match; [|done]. split; simpl.
  - by rewrite map_size_insert_Some by (by eexists).
  - intros k d. destruct (decide (k = key)) as [->|].
    + rewrite lookup_insert_eq. intros [= <-]. simpl. by apply (Hgen key).
    + rewrite lookup_insert_ne by done. apply Hgen.
Qed.
Lemma cancel_inv c key g : inv c -> inv (cancel c key g).
Proof.
  intros [Hs Hgen]. unfold cancel. destruct (entries c !! key) as [e|] eqn:E; [|done].
  case_match; [|done]. split; simpl.
  - pose proof (size_delete_le (entries c) key). lia.
  - intros k d [_ Ek]%lookup_delete_Some. by apply (Hgen k).
Qed.
Lemma history_inv c ops :
  0 <= generation c -> generation c + Z.of_nat (length ops) < 2 ^ 64 -> inv c ->
  inv (history c ops) /\ generation c <= generation (history c ops) <= generation c + Z.of_nat (length ops).
Proof.
  revert c. induction ops as [|op ops IH]; intros c Hg0 Hg Hi; [split; [done|simpl; lia]|].
  cbn [length] in Hg |- *. unfold history in *. cbn [foldl].
  assert (inv (exec c op) /\ generation c <= generation (exec c op) <= generation c + 1) as [Hi1 Hg1].
  { destruct op as [k t|k g v t|k g]; simpl.
    - apply begin_inv; [done|lia|done].
    - split; [by apply completed_inv|]. unfold complete. repeat case_match; simpl; lia.
    - split; [by apply cancel_inv|]. unfold cancel. repeat case_match; simpl; lia. }
  destruct (IH (exec c op)) as [? ?]; [lia|lia|done|]. split; [done|lia].
Qed.
Lemma exec_fields c op : capacity (exec c op) = capacity c /\ ttl (exec c op) = ttl c.
Proof.
  destruct op as [k t|k g v t|k g]; simpl.
  - destruct (begin_cases c k t) as [(e & _ & _ & ->)|[_ (c1 & -> & ->)]]; [done|].
    case_match; simpl; [|done].
    by destruct (sweep_fields (with_entries c (delete k (entries c))) t) as (-> & -> & _).
  - unfold complete. by repeat case_match.
  - unfold cancel. by repeat case_match.
Qed.
Lemma history_fields c ops :
  capacity (history c ops) = capacity c /\ ttl (history c ops) = ttl c.
Proof.
  revert c. induction ops as [|op ops IH]; intros c; [done|]. unfold history in *. simpl.
  destruct (IH (exec c op)) as [-> ->]. apply exec_fields.
Qed.
(** A positive verdict in the cache was put there by a completion under its generation. *)
Definition justified (c : VerdictCache) (ops : list Op) : Prop :=
  forall k e, entries c !! k = Some e -> verdict e = true ->
    Complete k (entry_generation e) true (at_ e) ∈ ops.
Lemma begin_justified c key now ops : justified c ops -> justified (begin c key now).2 ops.
Proof.
  intros Hj. destruct (begin_cases c key now) as [(e & _ & _ & ->)|[_ (c1 & Hc1 & ->)]]; [done|].
  assert (justified c1 ops) as Hj1.
  { intros k e Ek. apply Hj. subst c1. eapply lookup_weaken; [exact Ek|].
    etransitivity; [apply sweep_subseteq|apply delete_subseteq]. }
  case_match; simpl; [done|]. intros k e. destruct (decide (k = key)) as [->|]; simpl.
  - rewrite lookup_insert_eq. by intros [= <-].
  - rewrite lookup_insert_ne by done. apply Hj1.
Qed.
Lemma history_justified c ops past :
  justified c past -> justified (history c ops) (past ++ ops).
Proof.
  revert c past. induction ops as [|op ops IH]; intros c past Hj; [by rewrite app_nil_r|].
  replace (past ++ op :: ops) with ((past ++ [op]) ++ ops) by (by rewrite <- app_assoc).
  apply IH. assert (justified c (past ++ [op])) as Hw.
  { intros k e Ek Hv. apply elem_of_app. left. by apply Hj. }
  destruct op as [k t|k g v t|k g]; simpl.
  - by apply begin_justified.
  - unfold complete. destruct (entries c !! k) as [e|] eqn:E; [|done]. case_match eqn:Hg; [|done].
    to_prop. intros k' e'. simpl. destruct (decide (k' = k)) as [->|].
    + rewrite lookup_insert_eq. intros [= <-]. simpl. intros ->. subst g. set_solver.
    + rewrite lookup_insert_ne by done. apply Hw.
  - unfold cancel. destruct (entries c !! k) as [e|] eqn:E; [|done]. case_match; [|done].
    intros k' e'. simpl. intros [_ Ek]%lookup_delete_Some. by apply Hw.
Qed.

(** ** Properties *)

(** The cache is bounded for good: whatever sequence of lookups, completions and
    cancellations (fewer than [2^64] of them), it never holds more entries than its
    capacity, and every entry's generation was handed out before. *)
Theorem cache_bounded cap ttl t0 ops :
  Z.of_nat (length ops) < 2 ^ 64 ->
  (len (history (new cap ttl t0) ops) <= cap)%nat /\ inv (history (new cap ttl t0) ops).
Proof.
  intros Hl. destruct (history_inv (new cap ttl t0) ops) as [Hi _]; [done|simpl; lia| |].
  - split; [simpl; rewrite map_size_empty; lia|]. intros k e. simpl. by rewrite lookup_empty.
  - split; [|done]. unfold len. destruct (history_fields (new cap ttl t0) ops) as [E _].
    simpl in E. rewrite <- E at 2. apply Hi.
Qed.

(** A positive verdict is never invented and never stale.  When a lookup is answered
    [true] from the cache, the history holds a completion of that very key with [true], less
    than the time to live ago. *)
Theorem cached_true_justified cap ttl0 t0 ops key now :
  (begin (history (new cap ttl0 t0) ops) key now).1 = Cached true ->
  exists g t, Complete key g true t ∈ ops /\ elapsed now t < ttl0.
Proof.
  intros Hb. assert (justified (history (new cap ttl0 t0) ops) ([] ++ ops)) as Hj.
  { apply history_justified. intros k e. simpl. by rewrite lookup_empty. }
  destruct (begin_cases (history (new cap ttl0 t0) ops) key now)
    as [(e & Ek & Hf & E)|[_ (c1 & _ & E)]]; rewrite E in Hb.
  - injection Hb as Hv. exists (entry_generation e), (at_ e). split; [by apply Hj|].
    unfold fresh in Hf. by destruct (history_fields (new cap ttl0 t0) ops) as [_ Ht]; rewrite Ht in Hf.
  - by destruct (_ <=? _)%nat in Hb.
Qed.

(** A late answer cannot change a newer lookup: once a key has been looked up afresh,
    completing or cancelling under any earlier generation leaves the cache as it is. *)
Theorem late_reply_ignored c key now g g' v t :
  inv c -> 0 <= generation c -> generation c + 1 < 2 ^ 64 -> g <= generation c ->
  (begin c key now).1 = Start g' ->
  complete (begin c key now).2 key g v t = (begin c key now).2
  /\ cancel (begin c key now).2 key g = (begin c key now).2.
Proof.
  intros Hi Hg0 Hg Hold. destruct (begin_cases c key now) as [(e & _ & _ & ->)|[_ (c1 & _ & ->)]]; [done|].
  case_match; [done|]. intros _. simpl. unfold complete, cancel. simpl. rewrite lookup_insert_eq. simpl.
  rewrite wrap_u_id by (apply in_u_iff; lia). rewrite (proj2 (Z.eqb_neq _ _)) by lia. done.
Qed.

(** Opening a lookup never evicts a live verdict: entries of other keys that are still
    fresh are there afterwards, unchanged, also when the cache is swept or full. *)
Theorem begin_keeps_fresh c key now k e :
  k <> key -> entries c !! k = Some e -> fresh c now e -> entries (begin c key now).2 !! k = Some e.
Proof.
  intros Hk Ek Hf. destruct (begin_cases c key now) as [(d & _ & _ & ->)|[_ (c1 & -> & ->)]]; [done|].
  set (c0 := with_entries c (delete key (entries c))).
  assert (entries (sweep c0 now) !! k = Some e) as Hs.
  { unfold sweep. assert (entries c0 !! k = Some e) by (simpl; by rewrite lookup_delete_ne).
    case_match; [|done]. simpl. by apply map_lookup_filter_Some. }
  case_match; simpl; [done|]. by rewrite lookup_insert_ne.
Qed.
End cache.

(** ** Witnesses *)

Definition demo : VerdictCache (K := IpAddr) := history (new 1 1000 0) [Begin (V4 7) 10; Complete (V4 7) 1 true 20].
Lemma cache_bounded_witness : (len demo <= 1)%nat /\ inv demo.
Proof.
  apply (cache_bounded 1 1000 0 [Begin (V4 7) 10; Complete (V4 7) 1 true 20]). vm_compute. reflexivity.
Defined.
Lemma cached_true_justified_witness :
  exists g t, Complete (V4 7) g true t ∈ [Begin (V4 7) 10; Complete (V4 7) 1 true 20]
              /\ elapsed 500 t < 1000.
Proof.
  apply (cached_true_justified 1 1000 0 [Begin (V4 7) 10; Complete (V4 7) 1 true 20] (V4 7) 500).
  vm_compute. reflexivity.
Defined.
Lemma late_reply_ignored_witness :
  complete (begin demo (V4 7) 5000).2 (V4 7) 1 true 6000 = (begin demo (V4 7) 5000).2
  /\ cancel (begin demo (V4 7) 5000).2 (V4 7) 1 = (begin demo (V4 7) 5000).2.
Proof.
  apply (late_reply_ignored demo (V4 7) 5000 1 2 true 6000); try (vm_compute; congruence).
  apply history_inv; [done|vm_compute; reflexivity|].
  split; [vm_compute; lia|]. intros k e. simpl. by rewrite lookup_empty.
Defined.
Lemma begin_keeps_fresh_witness :
  entries (begin demo (V4 8) 500).2 !! V4 7 = Some (mkEntry true 20 1).
Proof. apply (begin_keeps_fresh demo (V4 8) 500); vm_compute; congruence. Defined.
