(* ===== verification/Decision.v ===== *)
(** * [decision.rs]: parsing of [pow_gate_decision] values *)
From Stdlib Require Import ZArith Lia.
From Stdlib Require Import Strings.Byte.
From stdpp Require Import base list strings option numbers countable sets.
From S2P Require Import Prelude RustStr.
Local Open Scope Z_scope.

Definition NOJS_DEFAULT_DELAY : Z := 2.
Definition NOJS_MIN_DELAY : Z := 1.
Definition NOJS_MAX_DELAY : Z := 30.

Inductive Decision :=
  | Challenge (difficulty : option Z)
  | ChallengeNoJs (delay : Z)
  | Allow
  | Deny
  | Verify (name : bytes).
#[export] Instance decision_eq_dec : EqDecision Decision.
Proof. solve_decision. Defined.

(** [i64::clamp]. *)
Definition clamp (v lo hi : Z) : Z := if v <? lo then lo else if hi <? v then hi else v.

(** The argument of [challenge:]. *)
Definition parse_challenge (arg : bytes) : Decision :=
  if beq arg (bs "js") then Challenge (Some 1)
  else if beq arg (bs "nojs") then ChallengeNoJs NOJS_DEFAULT_DELAY
  else match strip_prefix (bs "nojs:") arg with
       | Some secs =>
           ChallengeNoJs (clamp (default NOJS_DEFAULT_DELAY (parse_i 64 secs))
                            NOJS_MIN_DELAY NOJS_MAX_DELAY)
       | None =>
           match parse_u 64 arg with
           | Some n => Challenge (Some (Z.max n 1))
           | None => Challenge None
           end
       end.
Definition parse (s : bytes) : Decision :=
  if beq s (bs "allow") then Allow
  else if beq s (bs "deny") then Deny
  else if beq s [] || beq s (bs "challenge") then Challenge None
  else match split_once ":" s with
       | Some (head, arg) =>
           if beq head (bs "verify") && negb (beq arg []) then Verify arg
           else if beq head (bs "challenge") then parse_challenge arg
           else Challenge None
       | None => Challenge None
       end.

(** The grammar, as an operator writes it. *)
Definition print (d : Decision) : bytes :=
  match d with
  | Challenge None => bs "challenge"
  | Challenge (Some n) => bs "challenge:" ++ show_u n
  | ChallengeNoJs delay => bs "challenge:nojs:" ++ show_i delay
  | Allow => bs "allow"
  | Deny => bs "deny"
  | Verify name => bs "verify:" ++ name
  end.
(** The decisions a configuration can mean. *)
Definition meaningful (d : Decision) : Prop :=
  match d with
  | Challenge (Some n) => 1 <= n < 2 ^ 64
  | ChallengeNoJs delay => 1 <= delay <= 30
  | Verify name => name <> []
  | _ => True
  end.

(** ** Lemmas *)

Lemma parse_challenge_cases arg :
  (exists d, parse_challenge arg = Challenge d /\ meaningful (Challenge d))
  \/ exists d, parse_challenge arg = ChallengeNoJs d /\ meaningful (ChallengeNoJs d).
Proof.
  unfold parse_challenge. repeat case_match; try (left; by eexists); try (right; by eexists).
  - right. eexists. split; [done|]. unfold meaningful, clamp, NOJS_MIN_DELAY, NOJS_MAX_DELAY.
    repeat case_match; to_prop; lia.
  - left. eexists. split; [done|].
    match goal with E : parse_u 64 _ = Some _ |- _ => apply parse_u_range, in_u_iff in E end.
    simpl. lia.
Qed.
Lemma parse_colon head arg :
  ":"%byte ∉ head ->
  parse (head ++ ":"%byte :: arg) =
  if beq head (bs "verify") && negb (beq arg []) then Verify arg
  else if beq head (bs "challenge") then parse_challenge arg
  else Challenge None.
Proof.
  intros Hh. unfold parse.
  assert (forall w, ":"%byte ∉ w -> beq (head ++ ":"%byte :: arg) w = false) as Hw.
  { intros w Hw. apply beq_false. intros E. apply Hw. rewrite <- E. set_solver. }
  rewrite !Hw by (vm_compute; set_solver). simpl. by rewrite split_once_app.
Qed.
Lemma parse_meaningful s : meaningful (parse s).
Proof.
  unfold parse. repeat case_match; try done.
  - to_prop. simpl. by apply beq_false.
  - match goal with |- meaningful (parse_challenge ?a) =>
      destruct (parse_challenge_cases a) as [(d & -> & Hd)|(d & -> & Hd)]; exact Hd end.
Qed.
Lemma show_u_not_word n w :
  0 <= n -> Forall (fun c => is_ascii_digit c = false) w -> w <> [] -> forall r, show_u n <> w ++ r.
Proof.
  intros Hn Hw Hne r E. destruct w as [|c w]; [done|]. inversion Hw as [|? ? Hc _]; subst.
  apply (show_u_no_byte n c Hn Hc). rewrite E. set_solver.
Qed.

(** Nothing opens or closes the gate by accident.  A decision lets a client pass exactly
    when it is the word [allow], denies exactly when it is [deny], and hands over to a
    verifier exactly when it is [verify:] and a name; every other string, typos included,
    is a challenge of some kind. *)
Theorem decision_fail_safe s :
  (parse s = Allow <-> s = bs "allow") /\ (parse s = Deny <-> s = bs "deny")
  /\ (forall name, parse s = Verify name <-> name <> [] /\ s = bs "verify:" ++ name).
Proof.
  split_and!.
  - split; [|by intros ->]. unfold parse. intros E. repeat case_match; try done; [by apply beq_true|].
    match type of E with parse_challenge ?a = _ =>
      destruct (parse_challenge_cases a) as [(d & Hd & _)|(d & Hd & _)]; congruence end.
  - split; [|by intros ->]. unfold parse. intros E. repeat case_match; try done; [by apply beq_true|].
    match type of E with parse_challenge ?a = _ =>
      destruct (parse_challenge_cases a) as [(d & Hd & _)|(d & Hd & _)]; congruence end.
  - intros name. split.
    + unfold parse. intros E. repeat case_match; try done.
      * injection E as ->. to_prop. split; [by apply beq_false|].
        match goal with X : beq _ (bs "verify") = true |- _ => apply beq_true in X as -> end.
        match goal with X : split_once _ _ = Some _ |- _ => by apply split_once_Some in X as [-> _] end.
      * match type of E with parse_challenge ?a = _ =>
          destruct (parse_challenge_cases a) as [(d & Hd & _)|(d & Hd & _)]; congruence end.
    + intros [Hn ->]. change (bs "verify:" ++ name) with (bs "verify" ++ ":"%byte :: name).
      rewrite parse_colon by (vm_compute; set_solver). rewrite beq_refl.
      by rewrite (proj2 (beq_false name [])).
Qed.

(** What a decision can ask for is always in range, whatever the operator wrote: a
    difficulty override is at least 1 and a [u64], a no-JS delay between 1 and 30 seconds,
    a verifier name not empty. *)
Theorem decision_bounds s :
  match parse s with
  | Challenge (Some n) => 1 <= n < 2 ^ 64
  | ChallengeNoJs delay => 1 <= delay <= 30
  | Verify name => name <> []
  | _ => True
  end.
Proof. apply parse_meaningful. Qed.

(** C36: Every meaningful decision can be written down: printing one in the documented grammar
    and parsing it back gives the same decision. *)
Theorem decision_roundtrip d : meaningful d -> parse (print d) = d.
Proof.
  destruct d as [[n|]|delay| | |name]; cbn [print meaningful]; try done; intros Hm.
  - change (bs "challenge:" ++ show_u n) with (bs "challenge" ++ ":"%byte :: show_u n).
    rewrite parse_colon by (vm_compute; set_solver).
    change (beq (bs "challenge") (bs "verify")) with false.
    rewrite beq_refl. cbv beta iota delta [andb]. unfold parse_challenge.
    assert (forall w r, Forall (fun c => is_ascii_digit c = false) w -> w <> [] -> show_u n <> w ++ r) as Hw
      by (intros; apply show_u_not_word; [lia|done|done]).
    rewrite (proj2 (beq_false _ (bs "js"))), (proj2 (beq_false _ (bs "nojs"))).
    + destruct (strip_prefix (bs "nojs:") (show_u n)) as [r|] eqn:E.
      { apply strip_prefix_Some in E. exfalso. apply (Hw (bs "nojs:") r); [by repeat constructor|done|done]. }
      rewrite parse_u_show by (apply in_u_iff; lia). do 2 f_equal. lia.
    + rewrite <- (app_nil_r (bs "nojs")). apply Hw; [by repeat constructor|done].
    + rewrite <- (app_nil_r (bs "js")). apply Hw; [by repeat constructor|done].
  - change (bs "challenge:nojs:" ++ show_i delay) with (bs "challenge" ++ ":"%byte :: bs "nojs:" ++ show_i delay).
    rewrite parse_colon by (vm_compute; set_solver).
    change (beq (bs "challenge") (bs "verify")) with false.
    rewrite beq_refl. cbv beta iota delta [andb]. unfold parse_challenge.
    rewrite (proj2 (beq_false _ (bs "js"))), (proj2 (beq_false _ (bs "nojs"))) by done.
    rewrite (proj2 (strip_prefix_Some (bs "nojs:") _ (show_i delay))) by done.
    rewrite parse_i_show by (apply in_i64_iff; lia). simpl. f_equal.
    unfold clamp, NOJS_MIN_DELAY, NOJS_MAX_DELAY. repeat case_match; to_prop; lia.
  - change (bs "verify:" ++ name) with (bs "verify" ++ ":"%byte :: name).
    rewrite parse_colon by (vm_compute; set_solver). rewrite beq_refl.
    by rewrite (proj2 (beq_false name [])).
Qed.
Lemma decision_roundtrip_witness : parse (bs "challenge:nojs:30") = ChallengeNoJs 30.
Proof. apply (decision_roundtrip (ChallengeNoJs 30)). simpl. lia. Defined.
