(* ===== verification/Ranges.v ===== *)
(** * [ranges.rs]: address intervals, CIDR blocks, crawler feeds, rDNS suffixes *)
From Stdlib Require Import ZArith Lia.
From Stdlib Require Import Strings.Byte.
From Stdlib Require Import Sorting.Sorted Sorting.Permutation.
From stdpp Require Import base list strings option numbers countable sets sorting.
From S2P Require Import Prelude RustStr Crates StandIns Mac Ip Context.
Local Open Scope Z_scope.

(** ** Interval lists *)

(** [slice::partition_point] on a slice the predicate partitions: how many elements, from
    the front, satisfy it. *)
Fixpoint partition_point {A} (p : A -> bool) (l : list A) : nat :=
  match l with
  | x :: l' => if p x then S (partition_point p l') else 0%nat
  | [] => 0%nat
  end.
(** An inclusive interval of addresses. *)
Abbreviation interval := (Z * Z)%type.
Definition zero_interval : interval := (0, 0).

Definition contains_interval (ranges : list interval) (address : Z) : bool :=
  let i := partition_point (fun r => r.1 <=? address) ranges in
  negb (i =? 0)%nat && (address <=? (nth (i - 1) ranges zero_interval).2).

(** [ranges.splice(begin..end, [x])]: panics when the range is not one. *)
Definition splice {A} (l : list A) (begin end_ : nat) (x : A) : option (list A) :=
  if ((begin <=? end_) && (end_ <=? length l))%nat then Some (take begin l ++ x :: drop end_ l) else None.
Definition insert_interval (ranges : list interval) (iv : interval) : option (list interval) :=
  let begin := partition_point (fun r => r.2 <? iv.1) ranges in
  let end_ := partition_point (fun r => r.1 <=? iv.2) ranges in
  let iv := if (begin <? end_)%nat
            then (Z.min iv.1 (nth begin ranges zero_interval).1,
                  Z.max iv.2 (nth (end_ - 1) ranges zero_interval).2)
            else iv in
  splice ranges begin end_ iv.

(** The order of [(T, T)]. *)
Definition interval_le (a b : interval) : Prop := a.1 < b.1 \/ (a.1 = b.1 /\ a.2 <= b.2).
#[export] Instance interval_le_dec : RelDecision interval_le.
Proof. unfold interval_le. intros a b. apply _. Defined.
(** One round of the loop of [normalize], on the vector and [used]. *)
Definition normalize_step (st : list interval * nat) (i : nat) : list interval * nat :=
  let '(ranges, used) := st in
  let ri := nth i ranges zero_interval in
  let last := nth (used - 1) ranges zero_interval in
  if negb (used =? 0)%nat && (ri.1 <=? last.2)
  then (<[(used - 1)%nat := (last.1, Z.max last.2 ri.2)]> ranges, used)
  else (<[used := ri]> ranges, S used).
Definition normalize (ranges : list interval) : list interval :=
  let ranges := merge_sort interval_le ranges in
  let '(ranges, used) := foldl normalize_step (ranges, 0%nat) (seq 0 (length ranges)) in
  take used ranges.

(** ** The set *)

Record IpRangeSet := mkSet { v4 : list interval; v6 : list interval; prefixes : nat }.
Definition empty_set : IpRangeSet := mkSet [] [] 0.

(** [if bits == 0 { 0 } else { T::MAX << (w - bits) }]. *)
Definition prefix_mask (w bits : Z) : Z :=
  if bits =? 0 then 0 else wrap_u w (Z.shiftl (2 ^ w - 1) (w - bits)).
(** [!mask] on a [w]-bit integer. *)
Definition not_u (w mask : Z) : Z := 2 ^ w - 1 - mask.
Definition cidr_interval (w a bits : Z) : interval :=
  let mask := prefix_mask w bits in (Z.land a mask, Z.lor a (not_u w mask)).

(** The text before and after the slash. *)
Definition split_cidr (cidr : bytes) : option (bytes * option Z) :=
  match split_once "/" cidr with
  | Some (i, p) => bits <-? parse_u 32 (trim p); Some (trim i, Some bits)
  | None => Some (trim cidr, None)
  end.
Definition push_cidr (self : IpRangeSet) (cidr : bytes) : option IpRangeSet :=
  ' (ip_str, prefix) <-? split_cidr cidr;
  match parse_ip ip_str with
  | Some (V4 a) =>
      let bits := default 32 prefix in
      if 32 <? bits then None
      else Some (mkSet (v4 self ++ [cidr_interval 32 a bits]) (v6 self) (S (prefixes self)))
  | Some (V6 a) =>
      let bits := default 128 prefix in
      if 128 <? bits then None
      else Some (mkSet (v4 self) (v6 self ++ [cidr_interval 128 a bits]) (S (prefixes self)))
  | None => None
  end.
(** [Vec::pop]: the last element and the rest. *)
Definition pop {A} (l : list A) : option (list A * A) :=
  match reverse l with x :: r => Some (reverse r, x) | [] => None end.
(** The set afterwards and what was returned; [None] stands for a panic. *)
Definition add_cidr (self : IpRangeSet) (cidr : bytes) : option (IpRangeSet * bool) :=
  let v4_len := length (v4 self) in
  match push_cidr self cidr with
  | None => Some (self, false)
  | Some self =>
      if negb (length (v4 self) =? v4_len)%nat
      then ' (rest, interval) <-? pop (v4 self); v4' <-? insert_interval rest interval;
           Some (mkSet v4' (v6 self) (prefixes self), true)
      else ' (rest, interval) <-? pop (v6 self); v6' <-? insert_interval rest interval;
           Some (mkSet (v4 self) v6' (prefixes self), true)
  end.
Definition contains (self : IpRangeSet) (ip : IpAddr) : bool :=
  match ip with
  | V4 x => contains_interval (v4 self) x
  | V6 x => contains_interval (v6 self) x
  end.
Definition len (self : IpRangeSet) : nat := prefixes self.
Definition is_empty (self : IpRangeSet) : bool := (len self =? 0)%nat.

(** ** Feeds *)

Record Prefix := mkPrefix { ipv4Prefix : option bytes; ipv6Prefix : option bytes }.
Definition Feed : Type := list Prefix.
#[export] Instance feed_val : RustVal Feed := forallb (fun p =>
  forallb utf8_valid (option_list (ipv4Prefix p) ++ option_list (ipv6Prefix p))).

(** The loop over the prefixes: [None] is the early [return 0]. *)
Fixpoint parse_feed (feed : Feed) (parsed : IpRangeSet) (n : nat) : option (IpRangeSet * nat) :=
  match feed with
  | [] => Some (parsed, n)
  | p :: feed' =>
      if bool_decide (ipv4Prefix p = None) && bool_decide (ipv6Prefix p = None) then None else
      ' (parsed, n) <-? match ipv4Prefix p with
                        | Some c => parsed <-? push_cidr parsed c; Some (parsed, S n)
                        | None => Some (parsed, n)
                        end;
      ' (parsed, n) <-? match ipv6Prefix p with
                        | Some c => parsed <-? push_cidr parsed c; Some (parsed, S n)
                        | None => Some (parsed, n)
                        end;
      parse_feed feed' parsed n
  end.
Definition add_feed_json {J : Json Feed} (self : IpRangeSet) (input : bytes) : IpRangeSet * nat :=
  let body := match from_slice input with
              | Some feed =>
                  if 100000 <? Z.of_nat (length feed) then None else parse_feed feed empty_set 0
              | None => Some (empty_set, 0%nat)
              end in
  match body with
  | None => (self, 0%nat)
  | Some (parsed, n) =>
      (mkSet (normalize (v4 self ++ v4 parsed)) (normalize (v6 self ++ v6 parsed))
         (prefixes self + prefixes parsed), n)
  end.

(** ** Reverse DNS *)

Definition host_matches_suffix (host suffix : bytes) : bool :=
  let host := to_ascii_lowercase (trim_end_matches "." (trim host)) in
  let suffix := to_ascii_lowercase (trim_matches "." (trim suffix)) in
  if beq host [] || beq suffix [] then false
  else beq host suffix || ends_with (bs "." ++ suffix) host.
Definition fcrdns_confirms (host : bytes) (suffixes : list bytes) (ip : IpAddr)
  (forward : bytes -> list IpAddr) : bool :=
  existsb (fun s => host_matches_suffix host s) suffixes && bool_decide (ip ∈ forward host).

(** ** Lemmas on interval lists *)

Definition inside (r : interval) (x : Z) : Prop := r.1 <= x <= r.2.
Definition covers (l : list interval) (x : Z) : Prop := Exists (fun r => inside r x) l.
Definition proper (r : interval) : Prop := r.1 <= r.2.
Definition before (r s : interval) : Prop := r.2 < s.1.
(** Sorted, disjoint, each interval not empty. *)
Definition wf (l : list interval) : Prop := Forall proper l /\ StronglySorted before l.

Lemma covers_nil x : covers [] x <-> False.
Proof. apply Exists_nil. Qed.
Lemma covers_cons r l x : covers (r :: l) x <-> inside r x \/ covers l x.
Proof. apply Exists_cons. Qed.
Lemma covers_app l1 l2 x : covers (l1 ++ l2) x <-> covers l1 x \/ covers l2 x.
Proof. apply Exists_app. Qed.
Lemma covers_perm l1 l2 x : l1 ≡ₚ l2 -> covers l1 x <-> covers l2 x.
Proof. intros E. unfold covers. by rewrite E. Qed.

(** A predicate that only holds of a front part: the point is where it ends. *)
Lemma partition_point_split {A} (R : A -> A -> Prop) (p : A -> bool) l :
  StronglySorted R l -> (forall r s, r ∈ l -> s ∈ l -> R r s -> p s = true -> p r = true) ->
  exists a b, l = a ++ b /\ partition_point p l = length a
    /\ Forall (fun r => p r = true) a /\ Forall (fun r => p r = false) b.
Proof.
  induction l as [|r l IH]; intros Hs Hp; [by exists [], []|].
  apply StronglySorted_inv in Hs as [Hs Hr]. simpl. destruct (p r) eqn:E.
  - destruct IH as (a & b & -> & Hn & Ha & Hb); [done|set_solver|].
    exists (r :: a), b. simpl. split_and!; [done|lia|by constructor|done].
  - exists [], (r :: l). split_and!; [done|done|done|]. constructor; [done|].
    apply Forall_forall. intros s Hin. rewrite Forall_forall in Hr. apply not_true_is_false. intros Es.
    assert (p r = true) by (apply (Hp r s); [set_solver|set_solver|by apply Hr|done]). congruence.
Qed.
Lemma partition_point_app {A} (p : A -> bool) a b :
  Forall (fun r => p r = false) b -> partition_point p (a ++ b) = partition_point p a.
Proof.
  intros Hb. induction a as [|r a IH]; simpl; [|by rewrite IH]. destruct b as [|r b]; [done|].
  inversion Hb as [|? ? Hr]. simpl. by rewrite Hr.
Qed.
Lemma starts_split l c :
  wf l -> exists a b, l = a ++ b /\ partition_point (fun r => r.1 <=? c) l = length a
    /\ Forall (fun r => r.1 <= c) a /\ Forall (fun r => c < r.1) b.
Proof.
  intros [Hp Hs]. rewrite Forall_forall in Hp.
  destruct (partition_point_split before (fun r => r.1 <=? c) l Hs) as (a & b & Hl & Hn & Ha & Hb).
  - intros r s Hr _ Hrs Hc. unfold before, proper in *. specialize (Hp r Hr). lia.
  - exists a, b. split_and!; [done|done| |].
    + apply (Forall_impl _ _ _ Ha). intros r. apply Z.leb_le.
    + apply (Forall_impl _ _ _ Hb). intros r. apply Z.leb_gt.
Qed.
Lemma wf_app a b : wf (a ++ b) <-> wf a /\ wf b /\ forall r s, r ∈ a -> s ∈ b -> before r s.
Proof. unfold wf. rewrite Forall_app, StronglySorted_app. naive_solver. Qed.
Lemma covers_none l x : Forall (fun r => ~ inside r x) l -> covers l x <-> False.
Proof.
  intros Hf. split; [|done]. intros Hc. apply Exists_exists in Hc as (r & Hr & Hx).
  rewrite Forall_forall in Hf. by apply (Hf r).
Qed.

(** Binary search. *)
Lemma contains_iff l x : wf l -> contains_interval l x = true <-> covers l x.
Proof.
  intros Hwf. unfold contains_interval.
  destruct (starts_split l x Hwf) as (a & b & -> & -> & Ha & Hb).
  rewrite covers_app, (covers_none b) by (apply (Forall_impl _ _ _ Hb); unfold inside; lia).
  destruct a as [|r a _] using rev_ind; [simpl; rewrite covers_nil; naive_solver|].
  rewrite length_app. simpl length. replace (length a + 1 - 1)%nat with (length a) by lia.
  rewrite (proj2 (Nat.eqb_neq _ 0)) by lia. rewrite <- app_assoc. simpl.
  rewrite nth_middle, covers_app, covers_cons, covers_nil, Z.leb_le.
  apply Forall_app in Ha as [_ Hr]. inversion Hr; subst.
  apply wf_app in Hwf as [Hwf _]. apply wf_app in Hwf as (_ & _ & Hbef).
  rewrite (covers_none a); [unfold inside; naive_solver|].
  apply Forall_forall. intros s Hin Hx. specialize (Hbef s r Hin ltac:(set_solver)).
  unfold before, inside in *. lia.
Qed.

(** Insertion: the intervals left of the new one, those that touch it, those right of it. *)
Lemma insert_split l a b :
  wf l -> a <= b -> exists x m y, l = x ++ m ++ y
    /\ partition_point (fun r => r.2 <? a) l = length x
    /\ partition_point (fun r => r.1 <=? b) l = length (x ++ m)
    /\ Forall (fun r => r.2 < a) x /\ Forall (fun r => a <= r.2 /\ r.1 <= b) m
    /\ Forall (fun r => b < r.1) y.
Proof.
  intros Hwf Hab. destruct (starts_split l b Hwf) as (c & y & -> & Hn & Hc & Hy).
  apply wf_app in Hwf as ([Hp Hs] & [Hpy _] & _). rewrite Forall_forall in Hp.
  destruct (partition_point_split before (fun r => r.2 <? a) c Hs) as (x & m & -> & Hx & Hxa & Hm).
  { intros r s Hr Hin Hrs Hlt. specialize (Hp s Hin). unfold before, proper in *. lia. }
  exists x, m, y. rewrite <- app_assoc. split_and!; try done.
  - rewrite app_assoc, partition_point_app; [done|]. apply Forall_forall. intros r Hr.
    rewrite Forall_forall in Hy, Hpy. specialize (Hy r Hr). specialize (Hpy r Hr). unfold proper in *. lia.
  - by rewrite app_assoc.
  - apply (Forall_impl _ _ _ Hxa). intros r. apply Z.ltb_lt.
  - apply Forall_forall. intros r Hr. apply Forall_app in Hc as [_ Hc].
    rewrite Forall_forall in Hc, Hm. split; [|by apply Hc]. specialize (Hm r Hr). cbv beta in Hm. lia.
Qed.
(** The touched intervals and the new one fill the hull of their ends. *)
Lemma hull_covers m r0 m' m'' rl a b x :
  m = r0 :: m' -> m = m'' ++ [rl] -> wf m -> a <= b ->
  Forall (fun r => a <= r.2 /\ r.1 <= b) m ->
  inside (Z.min a r0.1, Z.max b rl.2) x <-> inside (a, b) x \/ covers m x.
Proof.
  intros E0 El Hwf Hab Hm. assert (r0 ∈ m /\ rl ∈ m) as [H0 Hl] by (split; [rewrite E0|rewrite El]; set_solver).
  rewrite Forall_forall in Hm. destruct Hwf as [Hp Hs]. rewrite Forall_forall in Hp.
  assert (forall r, r ∈ m -> r0.1 <= r.1) as Hmin.
  { intros r Hr. rewrite E0 in Hr, Hs. apply StronglySorted_inv in Hs as [_ Hs].
    rewrite Forall_forall in Hs. specialize (Hp r0 H0). unfold proper, before in *.
    apply elem_of_cons in Hr as [->|Hr]; [lia|]. specialize (Hs r Hr). lia. }
  assert (forall r, r ∈ m -> r.2 <= rl.2) as Hmax.
  { intros r Hr. rewrite El in Hr, Hs. apply StronglySorted_app in Hs as (Hs & _ & _).
    specialize (Hp rl Hl). unfold proper, before in *. apply elem_of_app in Hr as [Hr|Hr].
    - specialize (Hs r rl Hr ltac:(set_solver)). lia.
    - assert (r = rl) as -> by set_solver. lia. }
  unfold covers. rewrite Exists_exists. unfold inside. simpl. split.
  - intros Hx. destruct (decide (x < a)) as [Hlt|]; [right; exists r0; split; [done|]|
      destruct (decide (b < x)) as [Hgt|]; [right; exists rl; split; [done|]|left; lia]].
    + specialize (Hm r0 H0). lia.
    + specialize (Hm rl Hl). lia.
  - intros [Hx|(r & Hr & Hx)]; [lia|]. specialize (Hmin r Hr). specialize (Hmax r Hr). lia.
Qed.
Lemma touched_ends {A} (d r0 rl : A) x m y m' m'' :
  m = r0 :: m' -> m = m'' ++ [rl] ->
  nth (length x) (x ++ m ++ y) d = r0 /\ nth (length (x ++ m) - 1) (x ++ m ++ y) d = rl.
Proof.
  intros E0 El. split; [rewrite E0; apply nth_middle|]. rewrite El.
  replace (x ++ (m'' ++ [rl]) ++ y) with ((x ++ m'') ++ rl :: y) by (by rewrite <- !app_assoc).
  rewrite !length_app. simpl. replace (length x + (length m'' + 1) - 1)%nat with (length (x ++ m''))
    by (rewrite length_app; lia). apply nth_middle.
Qed.
(** The interval that replaces the touched ones. *)
Lemma insert_hull x m y a b :
  wf m -> a <= b -> Forall (fun r => a <= r.2 /\ r.1 <= b) m ->
  let iv := if (length x <? length (x ++ m))%nat
            then (Z.min a (nth (length x) (x ++ m ++ y) zero_interval).1,
                  Z.max b (nth (length (x ++ m) - 1) (x ++ m ++ y) zero_interval).2)
            else (a, b) in
  (forall z, inside iv z <-> inside (a, b) z \/ covers m z) /\ proper iv.
Proof.
  intros Hwm Hab Hm. destruct m as [|r0 m'].
  - rewrite app_nil_r, Nat.ltb_irrefl. split; [|done]. intros z. rewrite covers_nil. naive_solver.
  - rewrite length_app, (proj2 (Nat.ltb_lt _ _)) by (simpl; lia). rewrite <- length_app.
    destruct (exists_last (l := r0 :: m')) as (m'' & rl & El); [done|].
    destruct (touched_ends zero_interval r0 rl x (r0 :: m') y m' m'') as [-> ->]; [done|done|].
    split; [|unfold proper; simpl; lia].
    intros z. by apply (hull_covers (r0 :: m') r0 m' m'' rl a b z).
Qed.
Lemma insert_interval_ok l a b :
  wf l -> a <= b ->
  exists l', insert_interval l (a, b) = Some l' /\ wf l'
    /\ forall x, covers l' x <-> inside (a, b) x \/ covers l x.
Proof.
  intros Hwf Hab. destruct (insert_split l a b Hwf Hab) as (x & m & y & -> & Hb & He & Hx & Hm & Hy).
  apply wf_app in Hwf as (Hwx & Hwmy & Hxmy). apply wf_app in Hwmy as (Hwm & Hwy & Hmy).
  unfold insert_interval. simpl fst. simpl snd. rewrite Hb, He.
  destruct (insert_hull x m y a b Hwm Hab Hm) as [Hcov Hpr]. cbv zeta in Hcov, Hpr.
  set (iv := if (length x <? length (x ++ m))%nat then (Z.min a _, Z.max b _) else (a, b)) in *.
  unfold splice. rewrite (proj2 (Nat.leb_le _ _)) by (rewrite length_app; lia).
  rewrite (proj2 (Nat.leb_le _ _)) by (rewrite !length_app; lia). simpl andb. cbv iota.
  rewrite take_app_length. rewrite app_assoc, drop_app_length.
  eexists. split; [done|]. rewrite Forall_forall in Hx, Hy.
  assert (iv.1 <= iv.2) as Hiv by exact Hpr.
  assert (covers m iv.1 -> exists r, r ∈ m /\ inside r iv.1) as Hlo by apply Exists_exists.
  assert (covers m iv.2 -> exists r, r ∈ m /\ inside r iv.2) as Hhi by apply Exists_exists.
  assert (forall r, r ∈ x -> before r iv) as Hxiv.
  { intros r Hr. specialize (Hx r Hr). unfold before.
    destruct (proj1 (Hcov iv.1)) as [Hi|Hi]; [unfold inside; lia|unfold inside in Hi; simpl in Hi; lia|].
    destruct (Hlo Hi) as (s & Hs & Hsi). specialize (Hxmy r s Hr ltac:(set_solver)).
    unfold before, inside in *. lia. }
  assert (forall s, s ∈ y -> before iv s) as Hivy.
  { intros s Hs. specialize (Hy s Hs). unfold before.
    destruct (proj1 (Hcov iv.2)) as [Hi|Hi]; [unfold inside; lia|unfold inside in Hi; simpl in Hi; lia|].
    destruct (Hhi Hi) as (r & Hr & Hri). specialize (Hmy r s Hr Hs). unfold before, inside in *. lia. }
  split.
  - apply wf_app. split; [done|]. split.
    + destruct Hwy as [Hpy Hsy]. split; [by constructor|]. constructor; [done|]. by apply Forall_forall.
    + intros r s Hr Hs. apply elem_of_cons in Hs as [->|Hs]; [by apply Hxiv|].
      apply Hxmy; [done|set_solver].
  - intros z. rewrite covers_app, covers_cons, Hcov, !covers_app. naive_solver.
Qed.

(** Normalisation: the merge loop in place is a merge over the sorted list. *)
Fixpoint merge_go (cur : interval) (l : list interval) : list interval :=
  match l with
  | [] => [cur]
  | r :: l' => if r.1 <=? cur.2 then merge_go (cur.1, Z.max cur.2 r.2) l' else cur :: merge_go r l'
  end.
Lemma take_last {A} (l : list A) n d :
  (0 < n <= length l)%nat -> take n l = take (n - 1) l ++ [nth (n - 1) l d].
Proof.
  intros Hn. replace n with (S (n - 1)) at 1 by lia.
  apply take_S_r. destruct (lookup_lt_is_Some_2 l (n - 1)) as [x Hx]; [lia|].
  by rewrite Hx, (nth_lookup_Some _ _ _ _ Hx).
Qed.
Lemma drop_nth {A} (l : list A) i d : (i < length l)%nat -> drop i l = nth i l d :: drop (S i) l.
Proof.
  intros Hi. destruct (lookup_lt_is_Some_2 l i Hi) as [x Hx].
  rewrite (nth_lookup_Some _ _ _ _ Hx). by apply drop_S.
Qed.
Lemma nth_insert_eq {A} (l : list A) i x d : (i < length l)%nat -> nth i (<[i := x]> l) d = x.
Proof. intros Hi. apply nth_lookup_Some. by apply list_lookup_insert_eq. Qed.
Lemma normalize_loop k : forall i l used,
  (0 < used <= i)%nat -> (i + k = length l)%nat ->
  let '(l', used') := foldl normalize_step (l, used) (seq i k) in
  take used' l' = take (used - 1) l ++ merge_go (nth (used - 1) l zero_interval) (drop i l).
Proof.
  induction k as [|k IH]; intros i l used Hu Hk; cbn [seq foldl].
  { rewrite drop_ge by lia. simpl. apply take_last. lia. }
  rewrite (drop_nth l i zero_interval) by lia. unfold normalize_step at 2. cbn [merge_go].
  rewrite (proj2 (Nat.eqb_neq used 0)) by lia. cbn [negb andb].
  set (ri := nth i l zero_interval). set (last := nth (used - 1) l zero_interval).
  destruct (ri.1 <=? last.2).
  - specialize (IH (S i) (<[(used - 1)%nat := (last.1, Z.max last.2 ri.2)]> l) used).
    destruct (foldl _ _ _) as [l' u']. rewrite IH by (rewrite ?length_insert; lia).
    rewrite take_insert_ge, drop_insert_lt, nth_insert_eq by lia. done.
  - specialize (IH (S i) (<[used := ri]> l) (S used)).
    destruct (foldl _ _ _) as [l' u']. rewrite IH by (rewrite ?length_insert; lia).
    replace (S used - 1)%nat with used by lia.
    rewrite take_insert_ge, drop_insert_lt, nth_insert_eq by lia.
    rewrite (take_last l used zero_interval) by lia. by rewrite <- app_assoc.
Qed.
Lemma normalize_eq l :
  normalize l = match merge_sort interval_le l with [] => [] | r :: l' => merge_go r l' end.
Proof.
  unfold normalize. destruct (merge_sort interval_le l) as [|r s]; [done|].
  cbn [length seq foldl]. unfold normalize_step at 2. simpl.
  pose proof (normalize_loop (length s) 1 (r :: s) 1 ltac:(lia) eq_refl) as Hl.
  destruct (foldl _ _ _) as [l' u']. exact Hl.
Qed.
Definition starts_le (a b : interval) : Prop := a.1 <= b.1.
Lemma merge_go_ok cur l :
  proper cur -> Forall proper l -> StronglySorted starts_le (cur :: l) ->
  wf (merge_go cur l) /\ Forall (starts_le cur) (merge_go cur l)
  /\ forall x, covers (merge_go cur l) x <-> inside cur x \/ covers l x.
Proof.
  revert cur. induction l as [|r l IH]; intros cur Hc Hp Hs.
  { simpl. split_and!.
    - split; repeat constructor; done.
    - repeat constructor. unfold starts_le. lia.
    - intros x. by rewrite covers_cons. }
  apply Forall_cons in Hp as [Hr Hp]. apply StronglySorted_inv in Hs as [Hs Hcur].
  apply Forall_cons in Hcur as [Hcr Hcur]. assert (Hs' := Hs). apply StronglySorted_inv in Hs as [Hs Hrl].
  unfold starts_le, proper in *. cbn [merge_go]. destruct (Z.leb_spec r.1 cur.2).
  - destruct (IH (cur.1, Z.max cur.2 r.2)) as (H1 & H2 & H3); [simpl; lia|done|by constructor|].
    split_and!; [done|done|]. intros x. rewrite H3, covers_cons. unfold inside. simpl.
    split; [intros [?|?]; [|tauto]; destruct (decide (x <= cur.2)); [left|right; left]; lia|].
    intros [?|[?|?]]; [left; lia|left; lia|by right].
  - destruct (IH r) as ([H1 H2] & H3 & H4); [done|done|done|]. split_and!.
    + split; [by constructor|]. constructor; [done|]. apply (Forall_impl _ _ _ H3).
      intros s. unfold before. lia.
    + constructor; [done|]. apply (Forall_impl _ _ _ H3). intros s. lia.
    + intros x. by rewrite !covers_cons, H4.
Qed.
#[local] Instance interval_le_total : Total interval_le.
Proof. intros [a b] [c d]. unfold interval_le. simpl. lia. Qed.
#[local] Instance interval_le_trans : Transitive interval_le.
Proof. intros [a b] [c d] [e f]. unfold interval_le. simpl. lia. Qed.
Lemma normalize_ok l :
  Forall proper l -> wf (normalize l) /\ forall x, covers (normalize l) x <-> covers l x.
Proof.
  intros Hp. rewrite normalize_eq. pose proof (merge_sort_Permutation interval_le l) as Hperm.
  pose proof (StronglySorted_merge_sort interval_le l) as Hs.
  rewrite <- Hperm in Hp.
  assert (forall x, covers (merge_sort interval_le l) x <-> covers l x) as Hc
    by (intros x; by apply covers_perm).
  destruct (merge_sort interval_le l) as [|r s].
  - split; [|done]. split; constructor.
  - apply Forall_cons in Hp as [Hr Hp].
    destruct (merge_go_ok r s) as (H1 & _ & H3); [done|done| |].
    + assert (forall u, StronglySorted interval_le u -> StronglySorted starts_le u) as Hw; [|by apply Hw].
      intros u. induction 1 as [|y u Hu IHu Hy]; constructor; [done|]. apply (Forall_impl _ _ _ Hy).
      intros z. unfold interval_le, starts_le. lia.
    + split; [done|]. intros x. by rewrite H3, <- Hc, covers_cons.
Qed.

(** ** Lemmas on CIDR blocks *)

Lemma lor_ones a k : 0 <= k -> Z.lor a (Z.ones k) = a / 2 ^ k * 2 ^ k + (2 ^ k - 1).
Proof.
  intros Hk. replace (2 ^ k - 1) with (Z.ones k) by (rewrite Z.ones_equiv; lia).
  rewrite <- Z.shiftr_div_pow2, <- Z.shiftl_mul_pow2, <- Z.ldiff_ones_r by done.
  rewrite <- (Z.add_lor_land (Z.ldiff a (Z.ones k)) (Z.ones k)).
  assert (Z.land (Z.ldiff a (Z.ones k)) (Z.ones k) = 0) as ->.
  { apply Z.bits_inj'. intros n Hn. rewrite Z.land_spec, Z.ldiff_spec, Z.bits_0.
    by destruct (Z.testbit a n), (Z.testbit (Z.ones k) n). }
  rewrite Z.add_0_r. apply Z.bits_inj'. intros n Hn. rewrite !Z.lor_spec, Z.ldiff_spec.
  by destruct (Z.testbit a n), (Z.testbit (Z.ones k) n).
Qed.
Lemma prefix_mask_eq w bits :
  0 <= bits <= w -> 0 < w -> prefix_mask w bits = 2 ^ w - 2 ^ (w - bits).
Proof.
  intros Hb Hw. unfold prefix_mask. destruct (Z.eqb_spec bits 0) as [->|].
  { rewrite Z.sub_0_r. lia. }
  unfold wrap_u. rewrite Z.shiftl_mul_pow2 by lia.
  assert (0 < 2 ^ (w - bits) <= 2 ^ w)
    by (split; [apply Z.pow_pos_nonneg; lia|apply Z.pow_le_mono_r; lia]).
  symmetry. apply Z.mod_unique_pos with (2 ^ (w - bits) - 1); [lia|]. ring.
Qed.
Lemma cidr_interval_eq w a bits :
  0 <= bits <= w -> 0 < w -> in_u w a = true ->
  let k := w - bits in
  cidr_interval w a bits = (a / 2 ^ k * 2 ^ k, a / 2 ^ k * 2 ^ k + (2 ^ k - 1)).
Proof.
  intros Hb Hw Ha k. unfold cidr_interval, not_u. f_equal.
  - destruct (Z.eqb_spec bits 0) as [->|Hne].
    + unfold prefix_mask. rewrite Z.eqb_refl, Z.land_0_r. apply in_u_iff in Ha.
      subst k. rewrite Z.sub_0_r, Z.div_small by lia. lia.
    + unfold prefix_mask. rewrite (proj2 (Z.eqb_neq _ _)) by done. apply land_mask; [lia|done].
  - rewrite prefix_mask_eq by done. fold k.
    replace (2 ^ w - 1 - (2 ^ w - 2 ^ k)) with (Z.ones k) by (rewrite Z.ones_equiv; lia).
    apply lor_ones. lia.
Qed.
Lemma in_block_iff a x k : 0 <= k ->
  inside (a / 2 ^ k * 2 ^ k, a / 2 ^ k * 2 ^ k + (2 ^ k - 1)) x <-> x / 2 ^ k = a / 2 ^ k.
Proof.
  intros Hk. unfold inside. simpl. assert (0 < 2 ^ k) by (apply Z.pow_pos_nonneg; lia).
  pose proof (Z.div_mod x (2 ^ k) ltac:(lia)). pose proof (Z.mod_pos_bound x (2 ^ k) ltac:(lia)).
  split; [|intros E; rewrite <- E; lia].
  intros Hx. symmetry. apply Z.div_unique_pos with (x - a / 2 ^ k * 2 ^ k); lia.
Qed.

(** ** What a CIDR text denotes *)

Definition width (ip : IpAddr) : Z := match ip with V4 _ => 32 | V6 _ => 128 end.
(** The address and prefix length a text stands for, when it stands for one. *)
Definition cidr_of (cidr : bytes) : option (IpAddr * Z) :=
  ' (ip_str, prefix) <-? split_cidr cidr;
  ip <-? parse_ip ip_str;
  let bits := default (width ip) prefix in
  if bits <=? width ip then Some (ip, bits) else None.
(** Same family and the same leading bits. *)
Definition cidr_has (b : IpAddr * Z) (ip : IpAddr) : Prop :=
  match b.1, ip with
  | V4 a, V4 x => x / 2 ^ (32 - b.2) = a / 2 ^ (32 - b.2)
  | V6 a, V6 x => x / 2 ^ (128 - b.2) = a / 2 ^ (128 - b.2)
  | _, _ => False
  end.
Definition block_of (b : IpAddr * Z) : interval :=
  match b.1 with V4 a => cidr_interval 32 a b.2 | V6 a => cidr_interval 128 a b.2 end.
Definition push_block (s : IpRangeSet) (b : IpAddr * Z) : IpRangeSet :=
  match b.1 with
  | V4 _ => mkSet (v4 s ++ [block_of b]) (v6 s) (S (prefixes s))
  | V6 _ => mkSet (v4 s) (v6 s ++ [block_of b]) (S (prefixes s))
  end.
Lemma push_cidr_eq s c : push_cidr s c = b <-? cidr_of c; Some (push_block s b).
Proof.
  unfold push_cidr, cidr_of. destruct (split_cidr c) as [[i p]|]; [|done].
  destruct (parse_ip i) as [[a|a]|]; [| |done]; cbn [width];
    rewrite Z.ltb_antisym; by destruct (default _ p <=? _).
Qed.
Lemma split_cidr_bits c i bits : split_cidr c = Some (i, Some bits) -> 0 <= bits.
Proof.
  unfold split_cidr. destruct (split_once "/" c) as [[x y]|]; [|done].
  destruct (parse_u 32 (trim y)) eqn:E; [|done]. intros [= _ <-]. apply parse_u_range, in_u_iff in E. lia.
Qed.
Lemma cidr_of_ok c b : cidr_of c = Some b -> ip_ok b.1 = true /\ 0 <= b.2 <= width b.1.
Proof.
  unfold cidr_of. destruct (split_cidr c) as [[i p]|] eqn:Es; [|done].
  destruct (parse_ip i) as [ip|] eqn:Ei; [|done]. apply parse_ip_ok in Ei.
  destruct (Z.leb_spec (default (width ip) p) (width ip)); [|done]. intros [= <-]. split; [done|].
  simpl. split; [|done]. destruct p as [bits|]; [by apply split_cidr_bits in Es|]. by destruct ip.
Qed.
Lemma block_of_ok b :
  ip_ok b.1 = true -> 0 <= b.2 <= width b.1 ->
  (block_of b).1 <= (block_of b).2
  /\ forall x, inside (block_of b) x <-> cidr_has b (match b.1 with V4 _ => V4 x | V6 _ => V6 x end).
Proof.
  destruct b as [[a|a] bits]; cbn [fst snd ip_ok width]; intros Ha Hb; unfold block_of, cidr_has;
    cbn [fst snd]; rewrite cidr_interval_eq by (assumption || lia); (split; [|intros x; apply in_block_iff; lia]);
    cbn [fst snd].
  - assert (0 < 2 ^ (32 - bits)) by (apply Z.pow_pos_nonneg; lia). lia.
  - assert (0 < 2 ^ (128 - bits)) by (apply Z.pow_pos_nonneg; lia). lia.
Qed.

(** ** Lemmas on sets and feeds *)

Definition set_wf (s : IpRangeSet) : Prop := wf (v4 s) /\ wf (v6 s).
Lemma contains_covers s ip :
  set_wf s -> contains s ip = true <-> match ip with V4 x => covers (v4 s) x | V6 x => covers (v6 s) x end.
Proof. intros [H4 H6]. destruct ip as [x|x]; simpl; by apply contains_iff. Qed.
Lemma pop_snoc {A} (l : list A) x : pop (l ++ [x]) = Some (l, x).
Proof. unfold pop. rewrite reverse_snoc. simpl. by rewrite reverse_involutive. Qed.
Lemma add_cidr_block s c b :
  set_wf s -> cidr_of c = Some b ->
  exists s', add_cidr s c = Some (s', true) /\ set_wf s' /\ prefixes s' = S (prefixes s)
    /\ forall ip, contains s' ip = true <-> contains s ip = true \/ cidr_has b ip.
Proof.
  intros Hs Hc. unfold add_cidr. rewrite push_cidr_eq, Hc.
  destruct (cidr_of_ok _ _ Hc) as [Hok Hbits]. destruct (block_of_ok b Hok Hbits) as [Hle Hin].
  assert (Hs' := Hs). destruct Hs' as [H4 H6]. unfold push_block. destruct (block_of b) as [lo hi] eqn:Eb.
  cbn [fst snd] in Hle. destruct b as [[a|a] bits]; cbn [fst snd v4 v6 prefixes] in *.
  - rewrite length_app, (proj2 (Nat.eqb_neq _ _)) by (simpl; lia). cbn [negb]. rewrite pop_snoc.
    destruct (insert_interval_ok (v4 s) lo hi H4 Hle) as (l & -> & Hl & Hcov).
    eexists. split; [done|]. split; [by split|]. split; [done|]. intros ip.
    rewrite contains_covers by (by split). rewrite contains_covers by done. cbn [v4 v6].
    destruct ip as [x|x]; cbn [cidr_has fst]; [|by unfold cidr_has; simpl; tauto].
    rewrite Hcov, Hin. tauto.
  - rewrite Nat.eqb_refl. cbn [negb]. rewrite pop_snoc.
    destruct (insert_interval_ok (v6 s) lo hi H6 Hle) as (l & -> & Hl & Hcov).
    eexists. split; [done|]. split; [by split|]. split; [done|]. intros ip.
    rewrite contains_covers by (by split). rewrite contains_covers by done. cbn [v4 v6].
    destruct ip as [x|x]; cbn [cidr_has fst]; [by unfold cidr_has; simpl; tauto|].
    rewrite Hcov, Hin. tauto.
Qed.

(** The texts of a feed in order, and what it takes for it to be accepted. *)
Definition feed_cidrs (feed : Feed) : list bytes :=
  flat_map (fun p => option_list (ipv4Prefix p) ++ option_list (ipv6Prefix p)) feed.
Definition feed_ok (feed : Feed) : Prop :=
  Forall (fun p => ~ (ipv4Prefix p = None /\ ipv6Prefix p = None)) feed
  /\ Forall (fun c => is_Some (cidr_of c)) (feed_cidrs feed).
Definition feed_blocks (feed : Feed) : list (IpAddr * Z) := omap cidr_of (feed_cidrs feed).

Fixpoint push_all (cs : list bytes) (s : IpRangeSet) : option IpRangeSet :=
  match cs with [] => Some s | c :: cs' => s <-? push_cidr s c; push_all cs' s end.
Lemma push_all_app a b s : push_all (a ++ b) s = s <-? push_all a s; push_all b s.
Proof. revert s. induction a as [|c a IH]; intros s; simpl; [done|]. destruct (push_cidr s c); [apply IH|done]. Qed.
Lemma parse_feed_eq feed s n :
  parse_feed feed s n =
  if bool_decide (Forall (fun p => ~ (ipv4Prefix p = None /\ ipv6Prefix p = None)) feed)
  then s' <-? push_all (feed_cidrs feed) s; Some (s', (n + length (feed_cidrs feed))%nat)
  else None.
Proof.
  revert s n. induction feed as [|p feed IH]; intros s n; cbn [parse_feed].
  { simpl. by rewrite Nat.add_0_r. }
  change (feed_cidrs (p :: feed))
    with ((option_list (ipv4Prefix p) ++ option_list (ipv6Prefix p)) ++ feed_cidrs feed).
  rewrite push_all_app, !length_app.
  assert (bool_decide (Forall (fun p => ~ (ipv4Prefix p = None /\ ipv6Prefix p = None)) (p :: feed))
    = negb (bool_decide (ipv4Prefix p = None) && bool_decide (ipv6Prefix p = None))
      && bool_decide (Forall (fun p => ~ (ipv4Prefix p = None /\ ipv6Prefix p = None)) feed)) as ->.
  { apply eq_true_iff_eq.
    rewrite andb_true_iff, negb_true_iff, andb_false_iff, !bool_decide_eq_true, !bool_decide_eq_false, Forall_cons.
    destruct (ipv4Prefix p), (ipv6Prefix p); naive_solver. }
  destruct (ipv4Prefix p) as [c4|], (ipv6Prefix p) as [c6|]; simpl.
  - destruct (push_cidr s c4) as [s1|]; [|by case_match]. destruct (push_cidr s1 c6) as [s2|]; [|by case_match].
    rewrite IH. case_match; [|done]. case_match; [|done]. do 2 f_equal. lia.
  - destruct (push_cidr s c4) as [s1|]; [|by case_match].
    rewrite IH. case_match; [|done]. case_match; [|done]. do 2 f_equal. lia.
  - destruct (push_cidr s c6) as [s1|]; [|by case_match].
    rewrite IH. case_match; [|done]. case_match; [|done]. do 2 f_equal. lia.
  - done.
Qed.
(** Pushing valid texts appends their blocks. *)
Definition block_covers (bs : list (IpAddr * Z)) (ip : IpAddr) : Prop := Exists (fun b => cidr_has b ip) bs.
Definition raw_has (s : IpRangeSet) (ip : IpAddr) : Prop :=
  match ip with V4 x => covers (v4 s) x | V6 x => covers (v6 s) x end.
Definition set_proper (s : IpRangeSet) : Prop := Forall proper (v4 s) /\ Forall proper (v6 s).
Lemma push_block_ok s b :
  ip_ok b.1 = true -> 0 <= b.2 <= width b.1 -> set_proper s ->
  set_proper (push_block s b) /\ forall ip, raw_has (push_block s b) ip <-> raw_has s ip \/ cidr_has b ip.
Proof.
  intros Hok Hb [H4 H6]. destruct (block_of_ok b Hok Hb) as [Hle Hin]. unfold push_block.
  destruct b as [[a|a] bits]; cbn [fst snd] in *; (split; [split; cbn [v4 v6]; try done; apply Forall_app; by repeat constructor|]);
    intros [x|x]; cbn [raw_has v4 v6]; try (by unfold cidr_has; simpl; tauto);
    by rewrite covers_app, covers_cons, covers_nil, Hin; tauto.
Qed.
Lemma push_all_ok cs s :
  set_proper s ->
  match push_all cs s with
  | Some s' => Forall (fun c => is_Some (cidr_of c)) cs /\ set_proper s'
      /\ forall ip, raw_has s' ip <-> raw_has s ip \/ block_covers (omap cidr_of cs) ip
  | None => ~ Forall (fun c => is_Some (cidr_of c)) cs
  end.
Proof.
  revert s. induction cs as [|c cs IH]; intros s Hs; simpl.
  { split_and!; [constructor|done|]. intros ip. unfold block_covers. rewrite Exists_nil. tauto. }
  rewrite push_cidr_eq. destruct (cidr_of c) as [b|] eqn:Ec.
  - destruct (cidr_of_ok _ _ Ec) as [Hok Hb]. destruct (push_block_ok s b Hok Hb Hs) as [Hp Hc].
    specialize (IH _ Hp). destruct (push_all cs (push_block s b)) as [s'|].
    + destruct IH as (H1 & H2 & H3). split_and!; [constructor; [by rewrite Ec; eexists|done]|done|].
      intros ip. unfold block_covers in *. rewrite H3, Hc, Exists_cons. tauto.
    + intros Hf. apply IH. by inversion Hf.
  - intros Hf. inversion Hf as [|? ? [x Hx]]. congruence.
Qed.

(** ** Properties *)

(** C34: Lookup by binary search is membership: on the sorted disjoint lists the type keeps,
    an address is found exactly when some interval contains it. *)
Theorem lookup_is_membership l x : wf l -> contains_interval l x = true <-> covers l x.
Proof. apply contains_iff. Qed.
Lemma lookup_is_membership_witness :
  contains_interval [(1, 4); (10, 12)] 11 = true <-> covers [(1, 4); (10, 12)] 11.
Proof.
  apply (lookup_is_membership [(1, 4); (10, 12)] 11). unfold wf, proper, before.
  split; repeat constructor; simpl; lia.
Defined.

(** Batch normalisation keeps the addresses and restores the invariant: for any list of
    non-empty intervals, overlapping and unordered, sorting and the merge loop in place give
    a sorted disjoint list that covers exactly the same addresses. *)
Theorem normalize_correct l :
  Forall proper l -> wf (normalize l) /\ forall x, covers (normalize l) x <-> covers l x.
Proof. apply normalize_ok. Qed.
Lemma normalize_correct_witness :
  normalize [(10, 12); (1, 4); (3, 10)] = [(1, 12)] /\ wf (normalize [(10, 12); (1, 4); (3, 10)]).
Proof.
  split; [vm_compute; reflexivity|].
  apply (normalize_correct [(10, 12); (1, 4); (3, 10)]). unfold proper. repeat constructor; simpl; lia.
Defined.

(** Adding a CIDR never panics and is exact.  A text that denotes no block is refused and
    changes nothing; one that does extends the set by exactly the addresses that share the
    prefix, merging with what it touches, and the set stays sorted and disjoint. *)
Theorem add_cidr_exact s c :
  set_wf s ->
  match cidr_of c with
  | Some b => exists s', add_cidr s c = Some (s', true) /\ set_wf s' /\ prefixes s' = S (prefixes s)
      /\ forall ip, contains s' ip = true <-> contains s ip = true \/ cidr_has b ip
  | None => add_cidr s c = Some (s, false)
  end.
Proof.
  intros Hs. destruct (cidr_of c) as [b|] eqn:Ec; [by apply add_cidr_block|].
  unfold add_cidr. by rewrite push_cidr_eq, Ec.
Qed.
Lemma empty_wf : set_wf empty_set.
Proof. split; split; constructor. Qed.
Lemma add_cidr_exact_witness :
  exists s', add_cidr empty_set (bs "192.0.2.77/24") = Some (s', true) /\ set_wf s' /\ prefixes s' = 1%nat
    /\ forall ip, contains s' ip = true <-> contains empty_set ip = true \/ cidr_has (V4 3221226061, 24) ip.
Proof. apply (add_cidr_exact empty_set (bs "192.0.2.77/24") empty_wf). Defined.

(** C35: A crawler feed is taken whole or not at all.  A feed over the size limit, or with one
    prefix object without a prefix or one malformed CIDR, leaves the set untouched and
    reports zero; a valid one reports its number of prefixes and adds exactly their blocks;
    and no feed, however overlapping, breaks the sorted disjoint form. *)
Theorem feed_all_or_nothing {J : Json Feed} s input :
  set_wf s ->
  let '(s', n) := add_feed_json s input in
  set_wf s' /\
  match from_slice input with
  | None => n = 0%nat /\ forall ip, contains s' ip = contains s ip
  | Some feed =>
      (Z.of_nat (length feed) <= 100000 /\ feed_ok feed /\ n = length (feed_cidrs feed)
       /\ forall ip, contains s' ip = true <-> contains s ip = true \/ block_covers (feed_blocks feed) ip)
      \/ (~ (Z.of_nat (length feed) <= 100000 /\ feed_ok feed) /\ n = 0%nat /\ s' = s)
  end.
Proof.
  intros Hs. assert (Hs0 := Hs). destruct Hs0 as [[H4 _] [H6 _]]. unfold add_feed_json.
  assert (forall p, set_proper p ->
    set_wf (mkSet (normalize (v4 s ++ v4 p)) (normalize (v6 s ++ v6 p)) (prefixes s + prefixes p))
    /\ forall ip, contains (mkSet (normalize (v4 s ++ v4 p)) (normalize (v6 s ++ v6 p))
         (prefixes s + prefixes p)) ip = true <-> contains s ip = true \/ raw_has p ip) as Hmerge.
  { intros p [P4 P6]. destruct (normalize_ok (v4 s ++ v4 p)) as [W4 C4]; [by apply Forall_app|].
    destruct (normalize_ok (v6 s ++ v6 p)) as [W6 C6]; [by apply Forall_app|]. split; [done|].
    intros ip. rewrite contains_covers by done. rewrite contains_covers by done.
    destruct ip; cbn [v4 v6 raw_has]; [rewrite C4|rewrite C6]; apply covers_app. }
  destruct (from_slice input) as [feed|].
  - destruct (Z.ltb_spec 100000 (Z.of_nat (length feed))); [split; [done|right; split; [lia|done]]|].
    rewrite parse_feed_eq. unfold feed_ok, feed_blocks. case_bool_decide as Hne.
    + pose proof (push_all_ok (feed_cidrs feed) empty_set ltac:(split; constructor)) as Hp.
      destruct (push_all _ _) as [p|].
      * destruct Hp as (H1 & H2 & H3). destruct (Hmerge p H2) as [Hw Hc]. split; [done|]. left.
        split_and!; try done. intros ip. rewrite Hc, H3. unfold raw_has. destruct ip; simpl; rewrite covers_nil; tauto.
      * split; [done|]. right. split; [|done]. tauto.
    + split; [done|]. right. split; [|done]. tauto.
  - destruct (Hmerge empty_set) as [Hw Hc]; [split; constructor|]. split; [done|]. split; [done|].
    intros ip. apply eq_true_iff_eq. rewrite Hc. unfold raw_has. destruct ip; simpl; rewrite covers_nil; tauto.
Qed.
(** A reader for feeds of one IPv4 prefix, to evaluate on. *)
Definition one_prefix_json : Json Feed := {|
  to_vec f := concat (feed_cidrs f);
  from_slice s := Some [mkPrefix (Some s) None];
|}.
Lemma feed_all_or_nothing_witness :
  let '(s', n) := add_feed_json (J := one_prefix_json) empty_set (bs "192.0.2.0/33") in
  n = 0%nat /\ s' = empty_set.
Proof.
  pose proof (feed_all_or_nothing (J := one_prefix_json) empty_set (bs "192.0.2.0/33") empty_wf) as Hf.
  destruct (add_feed_json (J := one_prefix_json) empty_set (bs "192.0.2.0/33")) as [s' n] eqn:E.
  destruct Hf as [_ [(_ & [_ Hok] & _)|(_ & Hn & Hs)]]; [|split; assumption].
  exfalso. apply Forall_cons in Hok as [[b Hb] _]. vm_compute in Hb. discriminate.
Defined.

(** ** DNS labels *)

Lemma split_on_app_sep c a b : split_on c (a ++ c :: b) = split_on c a ++ split_on c b.
Proof.
  induction a as [|x a IH]; simpl; [by rewrite bool_decide_eq_true_2|].
  case_bool_decide; [by rewrite IH|]. rewrite IH.
  assert (split_on c a <> []) as Hne by (destruct a; simpl; [done|]; repeat case_match; done).
  by destruct (split_on c a).
Qed.
Lemma join_split c s : join_sep c (split_on c s) = s.
Proof.
  induction s as [|b s IH]; [done|]. simpl. case_bool_decide; subst.
  - unfold join_sep in *. destruct (split_on c s) as [|h t] eqn:E; [by destruct s; simpl in E; repeat case_match|].
    simpl. by rewrite IH.
  - destruct (split_on c s) as [|h t] eqn:E; [by destruct s; simpl in E; repeat case_match|].
    unfold join_sep in *. simpl. by rewrite IH.
Qed.
Lemma join_sep_app c l1 l2 :
  l1 <> [] -> l2 <> [] -> join_sep c (l1 ++ l2) = join_sep c l1 ++ c :: join_sep c l2.
Proof.
  intros H1 H2. destruct l1 as [|x l1]; [done|]. unfold join_sep. simpl. rewrite map_app, concat_app.
  destruct l2 as [|y l2]; [done|]. simpl. by rewrite <- !app_assoc.
Qed.
Lemma split_on_nonempty c s : split_on c s <> [].
Proof. destruct s; simpl; repeat case_match; done. Qed.

(** Reverse-DNS names are matched by whole labels.  A host matches a configured suffix
    exactly when, both normalised, the suffix is not empty and its labels are the last labels
    of the host: [evilgooglebot.com] can never pass for [googlebot.com]. *)
Theorem suffix_matches_labels host suffix :
  let h := to_ascii_lowercase (trim_end_matches "." (trim host)) in
  let s := to_ascii_lowercase (trim_matches "." (trim suffix)) in
  host_matches_suffix host suffix = true <->
  s <> [] /\ exists front, split_on "." h = front ++ split_on "." s.
Proof.
  intros h s. unfold host_matches_suffix. fold h s. clearbody h s. split.
  - destruct (beq h [] || beq s []) eqn:E; [done|]. apply orb_false_iff in E as [_ Hs].
    intros Hm. split; [by apply beq_false|]. apply orb_true_iff in Hm as [->%beq_true|Hm].
    + by exists [].
    + apply ends_with_iff in Hm as [r ->]. exists (split_on "." r).
      change (r ++ bs "." ++ s) with (r ++ "."%byte :: s). apply split_on_app_sep.
  - intros [Hs [front E]]. apply (f_equal (join_sep ".")) in E. rewrite join_split in E.
    rewrite (proj2 (beq_false s [])) by done. destruct front as [|x front].
    + simpl in E. rewrite join_split in E. subst h. rewrite (proj2 (beq_false s [])) by done.
      simpl. by rewrite beq_refl.
    + rewrite join_sep_app in E by (done || apply split_on_nonempty). rewrite join_split in E.
      rewrite (proj2 (beq_false h [])) by (rewrite E; by destruct (join_sep "." (x :: front))).
      simpl. apply orb_true_iff. right. apply ends_with_iff. exists (join_sep "." (x :: front)). by rewrite E.
Qed.
