(* ===== verification/Replay.v ===== *)
(** * [replay.rs] of the engine: the captured request in the challenge page *)
From Stdlib Require Import ZArith Lia.
From Stdlib Require Import Strings.Byte.
From stdpp Require Import base list strings option numbers countable sets.
From S2P Require Import Prelude RustStr Crates StandIns Codec Uri.
Local Open Scope Z_scope.

(** [serde_json::json!({ ... }).to_string()] of an object of strings. *)
Class JsonObject := json_object : list (bytes * bytes) -> bytes.

Definition SCRIPT_ID : bytes := bs "pow-replay".
Definition NEVER_REPLAYED : list bytes := map bs ["GET"; "HEAD"; "TRACE"; "CONNECT"]%string.
Definition MAX_CONTENT_TYPE : nat := 200.

Definition method_replayable (method : bytes) : bool :=
  negb (beq method []) && forallb is_ascii_alphabetic method
  && negb (existsb (fun m => eq_ignore_ascii_case m method) NEVER_REPLAYED).

Record Captured := mkCaptured { method : bytes; url : bytes; content_type : bytes; body : bytes }.

(** The printable characters are single bytes; every other character goes, with all of its
    bytes. *)
Definition sanitize_content_type (ct : bytes) : bytes :=
  take MAX_CONTENT_TYPE (List.filter (fun c => (32 <=? u8 c) && (u8 c <=? 126)) ct).
Definition Captured_new (method url content_type body : bytes) : option Captured :=
  if negb (method_replayable method) || negb (same_site_path url) then None
  else Some (mkCaptured method url (sanitize_content_type content_type) body).

Definition escape_char (c : byte) : bytes :=
  if bool_decide (c = "<"%byte) then bs "\u003c"
  else if bool_decide (c = ">"%byte) then bs "\u003e"
  else if bool_decide (c = "&"%byte) then bs "\u0026"
  else [c].
Definition escape_markup (json : bytes) : bytes := foldl (fun out c => out ++ escape_char c) [] json.

Section captured.
Context {B : Base64} {J : JsonObject}.

Definition payload (self : Captured) : bytes :=
  escape_markup (json_object [(bs "method", method self); (bs "url", url self);
                              (bs "type", content_type self); (bs "body", b64url (body self))]).
Definition quote : bytes := [Byte.x22].
Definition script_open : bytes :=
  bs "<script id=" ++ quote ++ SCRIPT_ID ++ quote ++ bs " type=" ++ quote ++ bs "application/json" ++ quote ++ bs ">".
Definition script_close : bytes := bs "</script>" ++ [Byte.x0a].
Definition script_tag (self : Captured) : bytes := script_open ++ payload self ++ script_close.
End captured.

(** [haystack[i..i + n].eq_ignore_ascii_case(needle)]. *)
Definition ci_at (haystack needle : bytes) (i : nat) : bool :=
  eq_ignore_ascii_case (take (length needle) (drop i haystack)) needle.
Definition rfind_ci (haystack needle : bytes) : option nat :=
  if beq needle [] || (length haystack <? length needle)%nat then None
  else List.find (ci_at haystack needle) (rev (seq 0 (S (length haystack - length needle)))).
Definition inject (page tag : bytes) : bytes :=
  let at_ := default (length page) (rfind_ci page (bs "</body>")) in
  take at_ page ++ tag ++ drop at_ page.

(** ** Lemmas *)

Lemma escape_markup_eq json : escape_markup json = flat_map escape_char json.
Proof.
  unfold escape_markup. assert (forall acc, foldl (fun out c => out ++ escape_char c) acc json
    = acc ++ flat_map escape_char json) as E.
  { induction json as [|c json IH]; intros acc; simpl; [by rewrite app_nil_r|].
    rewrite IH. by rewrite <- app_assoc. }
  apply E.
Qed.
Definition markup (c : byte) : bool := existsb (fun x => bool_decide (c = x)) ["<"; ">"; "&"]%byte.
Lemma escape_char_clean c : forallb (fun b => negb (markup b)) (escape_char c) = true.
Proof. revert c. byte_all (fun c => forallb (fun b => negb (markup b)) (escape_char c)). Qed.
Lemma escape_markup_clean json : forallb (fun b => negb (markup b)) (escape_markup json) = true.
Proof.
  rewrite escape_markup_eq. induction json as [|c json IH]; [done|]. simpl.
  by rewrite forallb_app, escape_char_clean, IH.
Qed.
Lemma escape_markup_no json c : markup c = true -> c ∉ escape_markup json.
Proof.
  intros Hc Hin. pose proof (escape_markup_clean json) as Hf. rewrite forallb_Forall, Forall_forall in Hf.
  apply Hf in Hin. by rewrite Hc in Hin.
Qed.

(** What a JSON reader makes of the escapes, outside of other escapes. *)
Fixpoint unescape (fuel : nat) (s : bytes) : bytes :=
  match fuel, s with
  | S f, c :: s' =>
      match strip_prefix (bs "\u003c") s, strip_prefix (bs "\u003e") s, strip_prefix (bs "\u0026") s with
      | Some r, _, _ => "<"%byte :: unescape f r
      | _, Some r, _ => ">"%byte :: unescape f r
      | _, _, Some r => "&"%byte :: unescape f r
      | _, _, _ => c :: unescape f s'
      end
  | _, _ => []
  end.
Lemma strip_prefix_head p c s : head p <> Some c -> p <> [] -> strip_prefix p (c :: s) = None.
Proof. destruct p as [|a p]; [done|]. simpl. intros Hne _. rewrite bool_decide_eq_false_2; [done|congruence]. Qed.
Lemma unescape_escape json fuel :
  "\"%byte ∉ json -> (length (escape_markup json) <= fuel)%nat -> unescape fuel (escape_markup json) = json.
Proof.
  rewrite escape_markup_eq. revert fuel. induction json as [|c json IH]; intros fuel Hb Hf.
  { by destruct fuel. }
  apply not_elem_of_cons in Hb as [Hc Hb]. cbn [flat_map] in Hf |- *. rewrite length_app in Hf.
  assert (1 <= length (escape_char c))%nat as Hl.
  { unfold escape_char. repeat case_bool_decide; simpl; lia. }
  destruct fuel as [|fuel]; [lia|]. assert (length (flat_map escape_char json) <= fuel)%nat as Hf' by lia.
  clear Hf Hl. unfold escape_char at 1. repeat case_bool_decide; subst.
  - simpl. f_equal. by apply IH.
  - simpl. f_equal. by apply IH.
  - simpl. f_equal. by apply IH.
  - cbn [app unescape]. rewrite !strip_prefix_head by (done || (intros [= <-]; done)).
    f_equal. by apply IH.
Qed.

Lemma find_last (f : nat -> bool) n :
  match List.find f (rev (seq 0 n)) with
  | Some i => (i < n)%nat /\ f i = true /\ forall j, (i < j < n)%nat -> f j = false
  | None => forall j, (j < n)%nat -> f j = false
  end.
Proof.
  induction n as [|n IH]; [simpl; lia|]. rewrite seq_S, rev_app_distr. simpl.
  destruct (f n) eqn:E; [split_and!; [lia|done|lia]|].
  destruct (List.find f (rev (seq 0 n))) as [i|].
  - destruct IH as (Hi & Hf & Hl). split_and!; [lia|done|]. intros j Hj.
    destruct (decide (j = n)) as [->|]; [done|]. apply Hl. lia.
  - intros j Hj. destruct (decide (j = n)) as [->|]; [done|]. apply IH. lia.
Qed.
Lemma ci_at_late haystack needle i :
  needle <> [] -> (length haystack < i + length needle)%nat -> ci_at haystack needle i = false.
Proof.
  intros Hn Hi. unfold ci_at, eq_ignore_ascii_case. apply beq_false. intros E%(f_equal length).
  unfold to_ascii_lowercase in E. rewrite !length_map, length_take, length_drop in E.
  destruct needle; [done|]. cbn [length] in *. lia.
Qed.
Lemma rfind_ci_spec haystack needle :
  needle <> [] ->
  match rfind_ci haystack needle with
  | Some i => (i + length needle <= length haystack)%nat /\ ci_at haystack needle i = true
      /\ forall j, (i < j)%nat -> ci_at haystack needle j = false
  | None => forall j, ci_at haystack needle j = false
  end.
Proof.
  intros Hn. unfold rfind_ci. rewrite (proj2 (beq_false needle [])) by done. cbn [orb].
  destruct (Nat.ltb_spec (length haystack) (length needle)) as [Hl|Hl].
  { intros j. apply ci_at_late; [done|lia]. }
  pose proof (find_last (ci_at haystack needle) (S (length haystack - length needle))) as Hf.
  destruct (List.find _ _) as [i|].
  - destruct Hf as (Hi & Hc & Hlast). split_and!; [lia|done|]. intros j Hj.
    destruct (decide (j < S (length haystack - length needle))%nat); [apply Hlast; lia|].
    apply ci_at_late; [done|lia].
  - intros j. destruct (decide (j < S (length haystack - length needle))%nat); [by apply Hf|].
    apply ci_at_late; [done|lia].
Qed.

(** ** Properties *)

(** C38: A captured request cannot break out of the page.  Whatever method, URL, content type
    and body were captured, the script block is the fixed opening tag, a payload without a
    single less-than, greater-than or ampersand byte, and the closing tag: the first closing
    tag a browser can see is the one written here. *)
Theorem payload_stays_inside {B : Base64} {J : JsonObject} c :
  script_tag c = script_open ++ payload c ++ script_close
  /\ ("<"%byte ∉ payload c) /\ (">"%byte ∉ payload c) /\ ("&"%byte ∉ payload c).
Proof. split; [done|]. unfold payload. split_and!; by apply escape_markup_no. Qed.

(** Escaping the markup bytes loses nothing: reading the three escapes back gives the
    document that was escaped, for any document without a backslash of its own. *)
Theorem escape_reversible json :
  "\"%byte ∉ json -> unescape (length (escape_markup json)) (escape_markup json) = json.
Proof. intros. by apply unescape_escape. Qed.
Lemma escape_reversible_witness :
  unescape (length (escape_markup (bs "</script>&"))) (escape_markup (bs "</script>&")) = bs "</script>&".
Proof. apply (escape_reversible (bs "</script>&")). vm_compute. set_solver. Defined.

(** The block is inserted and nothing else changes: the page with the block is the page
    cut in two with the block between, the cut being right before the last [</body>] in any
    mix of case, or at the end of a page that has none. *)
Theorem inject_before_last_body page tag :
  exists front back, page = front ++ back /\ inject page tag = front ++ tag ++ back
    /\ ((back = [] /\ forall j, ci_at page (bs "</body>") j = false)
        \/ (eq_ignore_ascii_case (take 7 back) (bs "</body>") = true
            /\ forall j, (length front < j)%nat -> ci_at page (bs "</body>") j = false)).
Proof.
  unfold inject. pose proof (rfind_ci_spec page (bs "</body>") ltac:(done)) as Hr.
  destruct (rfind_ci page (bs "</body>")) as [i|]; cbn [default].
  - destruct Hr as (Hi & Hc & Hl). exists (take i page), (drop i page). rewrite take_drop.
    split_and!; try done. right. split; [exact Hc|]. intros j Hj. apply Hl.
    rewrite length_take in Hj. simpl in Hi. lia.
  - exists page, []. rewrite take_ge, drop_ge, !app_nil_r by lia. auto.
Qed.

(** What is captured at all: a request is kept for replay exactly when its method is a
    plain alphabetic word other than GET, HEAD, TRACE and CONNECT in any case, and its URL a
    safe same-site path; the content type kept with it is at most 200 printable bytes. *)
Theorem captured_iff m u ct b :
  match Captured_new m u ct b with
  | Some c => method_replayable m = true /\ same_site_path u = true
      /\ method c = m /\ url c = u /\ body c = b
      /\ (length (content_type c) <= 200)%nat /\ Forall (fun x => 32 <= u8 x <= 126) (content_type c)
  | None => method_replayable m = false \/ same_site_path u = false
  end.
Proof.
  unfold Captured_new. destruct (method_replayable m), (same_site_path u); simpl; auto.
  split_and!; try done; unfold sanitize_content_type.
  - rewrite length_take. unfold MAX_CONTENT_TYPE. lia.
  - apply Forall_take, Forall_forall. intros x Hx. apply list_elem_of_In, filter_In in Hx as [_ Hx]. to_prop. lia.
Qed.
