(* ===== verification/Runtime.v ===== *)
(** * [runtime.rs]: what the gate reads off a request, and its resolved configuration

    A request is the part of [ngx_http_request_t] the module looks at.  Memory
    allocation in nginx pools is taken to succeed. *)
From Stdlib Require Import ZArith Lia.
From Stdlib Require Import Strings.Byte.
From stdpp Require Import base list strings option numbers countable sets gmap.
From S2P Require Import Prelude RustStr Crates StandIns Codec Mac Ip Context.
Local Open Scope Z_scope.

(** ** [String::from_utf8_lossy] *)

(** At the front of a text: is it a well-formed sequence, and how many bytes is it, or how
    many bytes does the replacement character stand for. *)
Definition utf8_step (b : byte) (s : bytes) : bool * nat :=
  let c1 := head s in let c2 := head (drop 1 s) in let c3 := head (drop 2 s) in
  let ok p (c : option byte) := match c with Some c => p c | None => false end in
  if u8 b <? 128 then (true, 1%nat)
  else if (194 <=? u8 b) && (u8 b <=? 223) then
    if ok utf8_cont c1 then (true, 2%nat) else (false, 1%nat)
  else if (224 <=? u8 b) && (u8 b <=? 239) then
    if negb (ok (utf8_second3 b) c1) then (false, 1%nat)
    else if negb (ok utf8_cont c2) then (false, 2%nat) else (true, 3%nat)
  else if (240 <=? u8 b) && (u8 b <=? 244) then
    if negb (ok (utf8_second4 b) c1) then (false, 1%nat)
    else if negb (ok utf8_cont c2) then (false, 2%nat)
    else if negb (ok utf8_cont c3) then (false, 3%nat) else (true, 4%nat)
  else (false, 1%nat).
Definition replacement : bytes := [Byte.xef; Byte.xbf; Byte.xbd].
Fixpoint lossy_loop (fuel : nat) (s : bytes) : bytes :=
  match fuel, s with
  | S f, b :: rest =>
      let '(good, n) := utf8_step b rest in
      (if good then take n s else replacement) ++ lossy_loop f (drop n s)
  | _, _ => []
  end.
Definition from_utf8_lossy (s : bytes) : bytes := lossy_loop (length s) s.

(** ** Requests *)

(** A buffer of the request body: in memory, or a range of a temporary file whose [pread]
    returns the bytes read, [None] for an error. *)
Inductive Buf :=
  | Memory (data : option bytes)
  | InFile (file : option (Z -> Z -> option bytes)) (file_pos file_last : Z).
Record Request := mkRequest {
  method_name : bytes; uri : bytes; args : bytes; unparsed_uri : bytes; server : bytes;
  headers_in : list (bytes * bytes);
  sockaddr : option bytes;
  content_length_n : Z;
  request_body_bufs : option (list (option Buf));
}.

Definition cookie_value (value name : bytes) : option bytes :=
  '(_, v) <-? List.find (fun kv => beq kv.1 name)
                (omap (fun pair => split_once "=" (trim pair)) (split_on ";" value));
  Some v.
(** Both arms of the code, borrowed and owned, look the name up in the decoded value. *)
Fixpoint cookie_in (headers : list (bytes * bytes)) (name : bytes) : option bytes :=
  match headers with
  | [] => None
  | (k, v) :: rest =>
      if eq_ignore_ascii_case k (bs "cookie") then
        match cookie_value (from_utf8_lossy v) name with
        | Some value => Some value
        | None => cookie_in rest name
        end
      else cookie_in rest name
  end.
Definition cookie (r : Request) (name : bytes) : option bytes := cookie_in (headers_in r) name.
Definition header (r : Request) (name : bytes) : option bytes :=
  '(_, v) <-? List.find (fun kv => eq_ignore_ascii_case kv.1 name) (headers_in r);
  Some (from_utf8_lossy v).
Definition header_limited (r : Request) (name : bytes) (limit : nat) : option bytes :=
  '(_, value) <-? List.find (fun kv => eq_ignore_ascii_case kv.1 name) (headers_in r);
  if (limit <? length value)%nat then None
  else if utf8_valid value then Some value else None.

(** [sockaddr]: the family in native (little-endian) order, then for AF_INET the address at
    offset 4, for AF_INET6 at offset 8. *)
Definition client_ip (r : Request) : option IpAddr :=
  sa <-? sockaddr r;
  let family := match sa with a :: b :: _ => u8 a + 256 * u8 b | _ => 0 end in
  if family =? 2 then Some (V4 (be_val (take 4 (drop 4 sa))))
  else if family =? 10 then Some (V6 (be_val (take 16 (drop 8 sa))))
  else None.
Definition method_and_path (r : Request) : bytes * bytes := (method_name r, uri r).
Definition content_length (r : Request) : option Z :=
  if 0 <? content_length_n r then Some (content_length_n r) else None.

(** [read_file_range]: fill a buffer of [len] bytes; each round reads at least one byte, so
    [len] rounds are enough. *)
Fixpoint read_loop (fuel : nat) (pread : Z -> Z -> option bytes) (len : nat) (offset : Z) (filled : bytes)
  : option bytes :=
  if (length filled <? len)%nat then
    match fuel with
    | O => None
    | S f =>
        match pread (Z.of_nat (len - length filled)) (offset + Z.of_nat (length filled)) with
        | Some (b :: chunk) => read_loop f pread len offset (filled ++ b :: chunk)
        | _ => None
        end
    end
  else Some filled.
Definition read_file_range (pread : Z -> Z -> option bytes) (len : nat) (offset : Z) : option bytes :=
  read_loop len pread len offset [].

Fixpoint collect_bufs (bufs : list (option Buf)) (limit : Z) (out : bytes) : option bytes :=
  match bufs with
  | [] => Some out
  | b :: bufs' =>
      out <-? match b with
              | Some (InFile file start end_) =>
                  match file with
                  | Some pread =>
                      if start <? end_ then
                        let length_ := end_ - start in
                        if Z.max 0 (limit - Z.of_nat (length out)) <? length_ then None
                        else data <-? read_file_range pread (Z.to_nat length_) start; Some (out ++ data)
                      else Some out
                  | None => Some out
                  end
              | Some (Memory (Some data)) =>
                  if (0 <? length data)%nat then
                    if Z.max 0 (limit - Z.of_nat (length out)) <? Z.of_nat (length data) then None
                    else Some (out ++ data)
                  else Some out
              | _ => Some out
              end;
      collect_bufs bufs' limit out
  end.
Definition request_body_limited (r : Request) (limit : Z) : option bytes :=
  bufs <-? request_body_bufs r; collect_bufs bufs limit [].
(** [usize::MAX] as the limit. *)
Definition request_body (r : Request) : option bytes := request_body_limited r (2 ^ 64 - 1).

(** ** Configuration *)

Definition MIN_HMAC_KEY_LEN : nat := 16.
Record CookieConfig := mkCookie {
  name : bytes; domain : option bytes; path : bytes; samesite : bytes;
  secure : bool; http_only : bool; max_age_secs : Z;
}.
(** The fields of [LocationConf] the request path reads, after the merge. *)
Record LocationConf := mkLocation {
  enabled : bool;
  difficulty : Z; hmac_key_file : bytes; clearance_ttl : Z; proof_skew : Z; require_proof : bool;
  ipv4_prefix : Z; ipv6_prefix : Z; policy : bytes; endpoint : bytes;
  replay : bool; replay_max_body : Z;
  cookie_effective_name : bytes; cookie_domain : bytes; cookie_path : bytes; cookie_samesite : bytes;
  cookie_secure : bool; cookie_httponly : bool;
  page_cache : bytes; nojs_page_cache : bytes;
}.
Definition nonempty (s default : bytes) : bytes := if beq s [] then default else s.

(** [load_key]: the worker's cache by path; a file that cannot be read or is too short is
    cached as the empty key. *)
Definition load_key (keys : gmap bytes bytes) (read : bytes -> option bytes) (path : bytes)
  : bytes * gmap bytes bytes :=
  match keys !! path with
  | Some k => (k, keys)
  | None =>
      let key := match read path with
                 | Some b => if (MIN_HMAC_KEY_LEN <=? length b)%nat then b else []
                 | None => []
                 end in
      (key, <[path := key]> keys)
  end.

Section runtime.
Context {B : Base64} {H : Hmac} {J : JsonText}.

Record Cfg := mkCfg {
  authenticator : HmacKey; scope : Scope; key : bytes; key_ok : bool;
  cfg_difficulty : Z; address : AddressPolicy; cfg_clearance_ttl : Z; cfg_proof_skew : Z;
  cfg_require_proof : bool; cfg_replay : bool; cfg_replay_max_body : Z; cfg_endpoint : bytes;
  cookie_config : CookieConfig;
}.
(** [loaded] is what [load_key] returned for the location's key file. *)
Definition build_cfg (lc : LocationConf) (loaded : bytes) : Cfg :=
  let key_ok := (MIN_HMAC_KEY_LEN <=? length loaded)%nat in
  let domain := cookie_domain lc in
  let scope := Scope_new (if beq domain [] then None else Some domain)
                 (nonempty (cookie_effective_name lc) (bs "pow_clearance"))
                 (nonempty (cookie_path lc) (bs "/")) (endpoint lc) (policy lc) in
  mkCfg (new loaded) scope loaded key_ok (wrap_u 64 (difficulty lc))
    (mkAddressPolicy (wrap_u 8 (ipv4_prefix lc)) (wrap_u 8 (ipv6_prefix lc)))
    (clearance_ttl lc) (proof_skew lc) (require_proof lc) (replay lc) (replay_max_body lc) (endpoint lc)
    (mkCookie (nonempty (cookie_effective_name lc) (bs "pow_clearance"))
       (if beq (cookie_domain lc) [] then None else Some (cookie_domain lc))
       (nonempty (cookie_path lc) (bs "/")) (nonempty (cookie_samesite lc) (bs "Lax"))
       (cookie_secure lc) (cookie_httponly lc) (clearance_ttl lc)).

(** [issuer] is [redemption::issuer()] at the time of the call. *)
Definition client_context (r : Request) (cfg : Cfg) (issuer : option bytes) : option bytes :=
  issuer <-? issuer;
  ip <-? client_ip r;
  scope <-? for_host (scope cfg) (server r);
  binding_prepared (authenticator cfg) ip (default [] (header r (bs "user-agent"))) scope issuer
    (address cfg).
End runtime.

Definition build_set_cookie (value : bytes) (c : CookieConfig) : bytes :=
  let s := name c ++ bs "=" ++ value in
  let s := s ++ bs "; Path=" ++ path c in
  let s := match domain c with Some d => s ++ bs "; Domain=" ++ d | None => s end in
  let s := s ++ bs "; Max-Age=" ++ show_i (max_age_secs c) in
  let s := s ++ bs "; SameSite=" ++ samesite c in
  let s := if secure c || eq_ignore_ascii_case (samesite c) (bs "None") then s ++ bs "; Secure" else s in
  if http_only c then s ++ bs "; HttpOnly" else s.

(** ** Lemmas *)

(** A well-formed text is a well-formed sequence and a well-formed rest. *)
Lemma utf8_valid_step b s :
  utf8_valid (b :: s) = true ->
  exists n, utf8_step b s = (true, n) /\ (0 < n)%nat /\ utf8_valid (drop n (b :: s)) = true.
Proof.
  unfold utf8_step. cbn [utf8_valid]. destruct (u8 b <? 128).
  { intros Hv. exists 1%nat. split_and!; [done|lia|done]. }
  destruct s as [|c1 s]; [done|]. destruct ((194 <=? u8 b) && (u8 b <=? 223)).
  { intros Hv. to_prop. exists 2%nat. simpl. replace (utf8_cont c1) with true by done. split_and!; [done|lia|done]. }
  destruct s as [|c2 s]; [done|]. destruct ((224 <=? u8 b) && (u8 b <=? 239)).
  { intros Hv. to_prop. exists 3%nat. simpl. replace (utf8_second3 b c1) with true by done.
    replace (utf8_cont c2) with true by done. split_and!; [done|lia|done]. }
  destruct s as [|c3 s]; [done|]. intros Hv.
  repeat (apply andb_true_iff in Hv as [Hv ?]). exists 4%nat. simpl.
  replace (240 <=? u8 b) with true by done. replace (u8 b <=? 244) with true by done.
  replace (utf8_second4 b c1) with true by done. replace (utf8_cont c2) with true by done.
  replace (utf8_cont c3) with true by done. split_and!; [done|lia|done].
Qed.
Lemma lossy_loop_id fuel s :
  (length s <= fuel)%nat -> utf8_valid s = true -> lossy_loop fuel s = s.
Proof.
  revert s. induction fuel as [|f IH]; intros [|b s] Hf Hv; try done; [simpl in Hf; lia|].
  cbn [lossy_loop]. destruct (utf8_valid_step b s Hv) as (n & -> & Hn & Hd).
  rewrite IH; [apply take_drop| |done]. rewrite length_drop. cbn [length] in *. lia.
Qed.
Lemma from_utf8_lossy_id s : utf8_valid s = true -> from_utf8_lossy s = s.
Proof. by apply lossy_loop_id. Qed.

(** Printable ASCII has nothing to trim. *)
Definition graphic (b : byte) : bool := (33 <=? u8 b) && (u8 b <=? 126).
Lemma strip_any_none ps b s :
  Forall (fun p => exists c q, p = c :: q /\ c <> b) ps -> strip_any ps (b :: s) = None.
Proof.
  induction 1 as [|p ps (c & q & -> & Hc) _ IH]; [done|]. cbn [strip_any strip_prefix].
  by rewrite bool_decide_eq_false_2.
Qed.
Lemma white_space_edges b :
  graphic b = true ->
  Forall (fun p => exists c q, p = c :: q /\ c <> b) white_space
  /\ Forall (fun p => exists c q, p = c :: q /\ c <> b) (map reverse white_space).
Proof.
  intros Hb.
  assert (forall c : Z, in_u 8 c = true -> c <= 32 \/ 127 <= c -> byte_of c <> b) as Hne.
  { intros c Hc Hr E. subst b. apply in_u_iff in Hc. unfold graphic in Hb.
    rewrite u8_byte_of_small in Hb by (change (2 ^ 8) with 256 in Hc; lia). lia. }
  split; vm_compute map; repeat constructor; eexists _, _; (split; [reflexivity|]);
    match goal with |- ?c <> _ =>
      rewrite <- (byte_of_u8 c); apply Hne; [vm_compute; reflexivity|vm_compute; first [left; discriminate|right; discriminate]]
    end.
Qed.
Lemma trim_graphic s : forallb graphic s = true -> trim s = s.
Proof.
  intros Hg. unfold trim, trim_start, trim_end. rewrite forallb_Forall in Hg.
  assert (trim_with white_space (length s) s = s) as ->.
  { destruct s as [|b s]; [done|]. apply Forall_cons in Hg as [Hb _]. cbn [length trim_with].
    by rewrite strip_any_none by (by apply white_space_edges). }
  destruct s as [|b s _] using rev_ind; [done|]. apply Forall_app in Hg as [_ Hb]. inversion Hb; subst.
  rewrite length_app, reverse_snoc. simpl length. rewrite Nat.add_1_r. cbn [trim_with].
  rewrite strip_any_none by (by apply white_space_edges). by rewrite <- reverse_snoc, reverse_involutive.
Qed.
Lemma trim_space s : forallb graphic s = true -> trim (" "%byte :: s) = s.
Proof.
  intros Hg. pose proof (trim_graphic s Hg) as Ht. unfold trim in *.
  assert (trim_start (" "%byte :: s) = trim_start s) as ->; [|done].
  unfold trim_start. cbn [length trim_with].
  replace (strip_any white_space (" "%byte :: s)) with (Some s) by reflexivity. done.
Qed.
Lemma omap_find {A C} (f : A -> option C) p l :
  List.find p (omap f l) =
  match l with
  | [] => None
  | a :: l' => match f a with
               | Some c => if p c then Some c else List.find p (omap f l')
               | None => List.find p (omap f l')
               end
  end.
Proof. destruct l as [|a l]; [done|]. simpl. by destruct (f a). Qed.

(** ** Cookies on the wire *)

(** Names and values as RFC 6265 writes them: printable, no separator. *)
Definition name_char (b : byte) : bool :=
  graphic b && negb (bool_decide (b = ";"%byte)) && negb (bool_decide (b = "="%byte)).
Definition value_char (b : byte) : bool := graphic b && negb (bool_decide (b = ";"%byte)).
Definition pair_text (kv : bytes * bytes) : bytes := kv.1 ++ "="%byte :: kv.2.
(** The Cookie header a browser sends for its cookies. *)
Definition cookie_header (pairs : list (bytes * bytes)) : bytes := join (bs "; ") (map pair_text pairs).
Definition pair_ok (kv : bytes * bytes) : bool := forallb name_char kv.1 && forallb value_char kv.2.

Lemma forallb_notin (f : byte -> bool) c s : f c = false -> forallb f s = true -> c ∉ s.
Proof. intros Hc Hs Hin. rewrite forallb_Forall, Forall_forall in Hs. apply Hs in Hin. congruence. Qed.
Lemma forallb_sub (f g : byte -> bool) s :
  (forall b, f b = true -> g b = true) -> forallb f s = true -> forallb g s = true.
Proof. rewrite !forallb_Forall. intros H Hs. by apply (Forall_impl _ _ _ Hs). Qed.
Lemma pair_text_props kv :
  pair_ok kv = true ->
  forallb graphic (pair_text kv) = true /\ (";"%byte ∉ pair_text kv)
  /\ split_once "=" (pair_text kv) = Some kv.
Proof.
  unfold pair_ok, pair_text. destruct kv as [k v]. simpl. intros [Hk Hv]%andb_true_iff.
  assert (forallb value_char k = true) as Hk'.
  { apply (forallb_sub name_char); [|done]. unfold name_char, value_char. intros b. by intros [-> _]%andb_true_iff. }
  assert (forallb value_char (k ++ "="%byte :: v) = true) as Ha
    by (rewrite forallb_app; simpl; by rewrite Hk', Hv).
  split_and!.
  - apply (forallb_sub value_char); [|done]. unfold value_char. by intros b [-> _]%andb_true_iff.
  - by apply (forallb_notin value_char).
  - apply split_once_app. by apply (forallb_notin name_char).
Qed.
(** Splitting the header at the semicolons gives the pairs back, all but the first after
    a space. *)
Lemma cookie_header_split pairs sp :
  Forall (fun kv => pair_ok kv = true) pairs -> pairs <> [] -> sp = [] \/ sp = bs " " ->
  omap (fun pair => split_once "=" (trim pair)) (split_on ";" (sp ++ cookie_header pairs)) = pairs.
Proof.
  intros Hp. revert sp. induction Hp as [|kv pairs Hkv Hp IH]; intros sp Hne Hsp; [done|].
  destruct (pair_text_props kv Hkv) as (Hg & Hsc & Hs).
  assert (split_once "=" (trim (sp ++ pair_text kv)) = Some kv) as Hone.
  { destruct Hsp as [->| ->]; [simpl; rewrite trim_graphic by done; done|].
    change (bs " " ++ pair_text kv) with (" "%byte :: pair_text kv). by rewrite trim_space. }
  assert (";"%byte ∉ sp ++ pair_text kv) as Hns by (destruct Hsp as [->| ->]; set_solver).
  destruct pairs as [|kv2 pairs].
  - unfold cookie_header. simpl. rewrite split_on_none by done. simpl. by rewrite Hone.
  - unfold cookie_header. cbn [map]. rewrite join_cons by done.
    change (bs "; " ++ ?x) with (";"%byte :: bs " " ++ x).
    rewrite app_assoc, split_on_app by done. cbn [omap list_omap]. rewrite Hone. f_equal.
    apply IH; [done|by right].
Qed.
Lemma cookie_value_lookup pairs name :
  Forall (fun kv => pair_ok kv = true) pairs ->
  cookie_value (cookie_header pairs) name = '(_, v) <-? List.find (fun kv => beq kv.1 name) pairs; Some v.
Proof.
  intros Hp. unfold cookie_value. destruct pairs as [|kv pairs]; [done|].
  pose proof (cookie_header_split (kv :: pairs) [] Hp ltac:(done) ltac:(by left)) as E.
  simpl app in E. by rewrite E.
Qed.
Lemma pair_text_ascii kv : pair_ok kv = true -> is_ascii (pair_text kv) = true.
Proof.
  intros (Hg & _)%pair_text_props. apply (forallb_sub graphic); [|done]. unfold graphic. lia.
Qed.
Lemma cookie_header_ascii pairs :
  Forall (fun kv => pair_ok kv = true) pairs -> is_ascii (cookie_header pairs) = true.
Proof.
  unfold cookie_header. induction 1 as [|kv pairs Hkv Hp IH]; [done|].
  destruct pairs as [|kv2 pairs]; [by apply pair_text_ascii|]. cbn [map] in *.
  rewrite join_cons by done. by rewrite !is_ascii_app, IH, pair_text_ascii.
Qed.

(** The attributes after the pair, in order. *)
Definition attributes (c : CookieConfig) : list bytes :=
  [bs " Path=" ++ path c]
  ++ match domain c with Some d => [bs " Domain=" ++ d] | None => [] end
  ++ [bs " Max-Age=" ++ show_i (max_age_secs c); bs " SameSite=" ++ samesite c]
  ++ (if secure c || eq_ignore_ascii_case (samesite c) (bs "None") then [bs " Secure"] else [])
  ++ (if http_only c then [bs " HttpOnly"] else []).
Definition clean (c : CookieConfig) : Prop :=
  (";"%byte ∉ path c) /\ (";"%byte ∉ samesite c) /\ (";"%byte ∉ default [] (domain c))
  /\ forallb name_char (name c) = true.

Lemma show_i_no_semicolon z : ";"%byte ∉ show_i z.
Proof. by apply show_i_no_byte. Qed.
Lemma build_set_cookie_join v c :
  build_set_cookie v c = join_sep ";" (pair_text (name c, v) :: attributes c).
Proof.
  unfold build_set_cookie, attributes, join_sep, pair_text.
  destruct (domain c), (secure c || _), (http_only c); cbn [map concat fst snd];
    rewrite <- ?app_assoc; simpl; rewrite <- ?app_assoc; simpl; rewrite ?app_nil_r, <- ?app_assoc; done.
Qed.
Lemma attributes_no_semicolon c : clean c -> Forall (fun a => ";"%byte ∉ a) (attributes c).
Proof.
  intros (Hp & Hs & Hd & _). unfold attributes.
  assert (forall p s, ";"%byte ∉ bs p -> ";"%byte ∉ s -> ";"%byte ∉ bs p ++ s) as Ha by set_solver.
  assert (forall l, beq l (bs " Secure") || beq l (bs " HttpOnly") = true -> ";"%byte ∉ l) as Hf.
  { intros l [->%beq_true | ->%beq_true]%orb_true_iff; vm_compute; set_solver. }
  repeat (apply Forall_app; split); repeat case_match; repeat constructor;
    first [by apply Hf | apply Ha; [vm_compute; set_solver | simpl in *; auto using show_i_no_semicolon]].
Qed.

(** ** Bodies *)

(** [pread] on a file that holds [data]: some of the bytes asked for, none only at the end. *)
Definition reads_file (data : bytes) (pread : Z -> Z -> option bytes) : Prop :=
  forall n off, 0 < n -> 0 <= off ->
  exists c, pread n off = Some c
    /\ c = take (length c) (drop (Z.to_nat off) data) /\ Z.of_nat (length c) <= n
    /\ (c = [] -> (length data <= Z.to_nat off)%nat).
Lemma read_loop_exact data pread len offset fuel filled :
  reads_file data pread -> 0 <= offset -> (length filled <= len)%nat -> (len - length filled <= fuel)%nat ->
  filled = take (length filled) (drop (Z.to_nat offset) data) ->
  read_loop fuel pread len offset filled =
  if (Z.to_nat offset + len <=? length data)%nat || (len =? length filled)%nat
  then Some (take len (drop (Z.to_nat offset) data)) else None.
Proof.
  intros Hr Ho. revert filled. induction fuel as [|f IH]; intros filled Hl Hf Hp; cbn [read_loop];
    destruct (Nat.ltb_spec (length filled) len) as [Hlt|Hge].
  1: lia.
  1,3: replace (length filled) with len in * by lia; rewrite Nat.eqb_refl, orb_true_r; congruence.
  destruct (Hr (Z.of_nat (len - length filled)) (offset + Z.of_nat (length filled)))
    as (c & -> & Hc & Hn & He); [lia..|].
  replace (Z.to_nat (offset + Z.of_nat (length filled))) with (Z.to_nat offset + length filled)%nat in * by lia.
  rewrite (proj2 (Nat.eqb_neq _ _)), orb_false_r by lia.
  destruct c as [|b c].
  - rewrite (proj2 (Nat.leb_gt _ _)); [done|]. specialize (He eq_refl). lia.
  - assert (filled ++ b :: c = take (length (filled ++ b :: c)) (drop (Z.to_nat offset) data)) as Hp'.
    { rewrite length_app, <- take_take_drop, drop_drop. f_equal; [done|]. by rewrite Hc at 1. }
    rewrite IH; [|rewrite length_app; simpl in *; lia..|exact Hp'].
    destruct (Nat.leb_spec (Z.to_nat offset + len) (length data)) as [|Hgt]; [done|].
    rewrite (proj2 (Nat.eqb_neq _ _)); [done|]. intros E.
    apply (f_equal length) in Hp'. rewrite length_take, length_drop in Hp'. lia.
Qed.
Lemma read_file_range_exact data pread len offset :
  reads_file data pread -> 0 <= offset -> (Z.to_nat offset + len <= length data)%nat ->
  read_file_range pread len offset = Some (take len (drop (Z.to_nat offset) data)).
Proof.
  intros Hr Ho Hl. unfold read_file_range.
  rewrite (read_loop_exact data) by (done || (simpl; lia)). by rewrite (proj2 (Nat.leb_le _ _)).
Qed.

(** What a buffer holds, and when it can be read: a file range lies inside its file. *)
Inductive holds : option Buf -> bytes -> Prop :=
  | holds_null : holds None []
  | holds_empty : holds (Some (Memory None)) []
  | holds_memory data : holds (Some (Memory (Some data))) data
  | holds_no_file s e : holds (Some (InFile None s e)) []
  | holds_no_range pread s e : e <= s -> holds (Some (InFile (Some pread) s e)) []
  | holds_range data pread s e :
      reads_file data pread -> 0 <= s < e -> e <= Z.of_nat (length data) ->
      holds (Some (InFile (Some pread) s e)) (take (Z.to_nat (e - s)) (drop (Z.to_nat s) data)).
Lemma collect_bufs_exact bufs segs limit out :
  Forall2 holds bufs segs -> Z.of_nat (length out) <= limit ->
  collect_bufs bufs limit out =
  if Z.of_nat (length (out ++ concat segs)) <=? limit then Some (out ++ concat segs) else None.
Proof.
  intros Hf. revert out. induction Hf as [|b seg bufs segs Hb Hf IH]; intros out Hl; cbn [collect_bufs concat].
  { by rewrite app_nil_r, (proj2 (Z.leb_le _ _)). }
  assert (forall data, (if Z.max 0 (limit - Z.of_nat (length out)) <? Z.of_nat (length data) then None
                        else collect_bufs bufs limit (out ++ data))
                       = if Z.of_nat (length (out ++ data ++ concat segs)) <=? limit
                         then Some (out ++ data ++ concat segs) else None) as Hstep.
  { intros data. destruct (Z.ltb_spec (Z.max 0 (limit - Z.of_nat (length out))) (Z.of_nat (length data))) as [Hgt|Hle].
    - rewrite (proj2 (Z.leb_gt _ _)); [done|]. rewrite !length_app. lia.
    - rewrite IH by (rewrite length_app; lia). by rewrite <- app_assoc. }
  destruct Hb as [| |data|s e|pread s e He|data pread s e Hr Hse He];
    [by apply IH|by apply IH| |by apply IH| |].
  - specialize (Hstep data). destruct (Nat.ltb_spec 0 (length data)) as [|H0].
    + rewrite <- Hstep. by case_match.
    + destruct data; [by apply IH|simpl in H0; lia].
  - rewrite (proj2 (Z.ltb_ge _ _)) by lia. by apply IH.
  - specialize (Hstep (take (Z.to_nat (e - s)) (drop (Z.to_nat s) data))).
    rewrite length_take_le, Z2Nat.id in Hstep by (rewrite ?length_drop; lia).
    rewrite (proj2 (Z.ltb_lt s e)) by lia. rewrite <- Hstep. case_match; [done|].
    by rewrite (read_file_range_exact data) by (done || lia).
Qed.

(** ** Properties *)

(** The Set-Cookie line splits into its pair and its attributes. *)
Lemma set_cookie_parts v c :
  clean c -> forallb value_char v = true ->
  split_on ";" (build_set_cookie v c) = pair_text (name c, v) :: attributes c.
Proof.
  intros Hc Hv.
  assert (pair_ok (name c, v) = true) as Hp by (unfold pair_ok; simpl; by rewrite Hv, (proj2 (proj2 (proj2 Hc)))).
  rewrite build_set_cookie_join, split_on_join; [done|].
  constructor; [by apply pair_text_props|by apply attributes_no_semicolon].
Qed.
(** The pair is found in a Cookie header that carries it first under its name. *)
Lemma cookie_found n v r pre post before after k :
  pair_ok (n, v) = true ->
  Forall (fun kv => pair_ok kv = true) pre -> Forall (fun kv => pair_ok kv = true) post ->
  Forall (fun kv => kv.1 <> n) pre -> eq_ignore_ascii_case k (bs "cookie") = true ->
  Forall (fun kv => eq_ignore_ascii_case kv.1 (bs "cookie") = false) before ->
  headers_in r = before ++ (k, cookie_header (pre ++ (n, v) :: post)) :: after ->
  cookie r n = Some v.
Proof.
  intros Hp Hpre Hpost Hne Hk Hb Hh. unfold cookie. rewrite Hh. clear Hh.
  induction Hb as [|[k' v'] before Hk' Hb IH]; cbn [app cookie_in]; [|simpl in Hk'; by rewrite Hk'].
  rewrite Hk.
  assert (Forall (fun kv => pair_ok kv = true) (pre ++ (n, v) :: post)) as Hall
    by (apply Forall_app; split; [done|by constructor]).
  rewrite from_utf8_lossy_id by (by apply utf8_valid_ascii, cookie_header_ascii).
  rewrite cookie_value_lookup by done. clear -Hne.
  induction Hne as [|[a b] pre Ha Hne IH]; simpl; [by rewrite beq_refl|].
  simpl in Ha. by rewrite (proj2 (beq_false _ _)).
Qed.

(** C39: The clearance cookie survives the browser.  The Set-Cookie line of a configuration
    without stray semicolons splits into the pair and exactly the configured attributes
    ([Secure] also when SameSite is None), and a request whose Cookie header carries that
    pair among any others, with none of the same name before it, yields the value. *)
Theorem cookie_comes_back v c r pre post before after k :
  clean c -> forallb value_char v = true ->
  Forall (fun kv => pair_ok kv = true) pre -> Forall (fun kv => pair_ok kv = true) post ->
  Forall (fun kv => kv.1 <> name c) pre ->
  eq_ignore_ascii_case k (bs "cookie") = true ->
  Forall (fun kv => eq_ignore_ascii_case kv.1 (bs "cookie") = false) before ->
  headers_in r = before ++ (k, cookie_header (pre ++ (name c, v) :: post)) :: after ->
  split_on ";" (build_set_cookie v c) = pair_text (name c, v) :: attributes c
  /\ cookie r (name c) = Some v.
Proof.
  intros Hc Hv Hpre Hpost Hne Hk Hb Hh. split; [by apply set_cookie_parts|].
  eapply (cookie_found _ _ r pre post before after k); try done.
  unfold pair_ok. simpl. by rewrite Hv, (proj2 (proj2 (proj2 Hc))).
Qed.
Definition demo_cookie : CookieConfig :=
  mkCookie (bs "pow_clearance") (Some (bs "example.org")) (bs "/") (bs "none") false true 3600.
Definition demo_request : Request :=
  mkRequest (bs "GET") (bs "/") [] (bs "/") (bs "example.org")
    [(bs "Host", bs "example.org"); (bs "cOOkie", bs "a=1; pow_clearance=x.y; b=2")] None 0 None.
Lemma cookie_comes_back_witness :
  split_on ";" (build_set_cookie (bs "x.y") demo_cookie)
  = map bs ["pow_clearance=x.y"; " Path=/"; " Domain=example.org"; " Max-Age=3600"; " SameSite=none";
            " Secure"; " HttpOnly"]%string
  /\ cookie demo_request (bs "pow_clearance") = Some (bs "x.y").
Proof.
  apply (cookie_comes_back (bs "x.y") demo_cookie demo_request [(bs "a", bs "1")] [(bs "b", bs "2")]
           [(bs "Host", bs "example.org")] [] (bs "cOOkie")); try (vm_compute; reflexivity).
  - unfold clean. split_and!; try (vm_compute; reflexivity); apply (bool_decide_eq_true_1 _); vm_compute; reflexivity.
  - repeat constructor.
  - repeat constructor.
  - repeat constructor. vm_compute. discriminate.
  - repeat constructor.
Defined.

(** The body of a request is what its buffers hold, in order, and no more than the
    limit: for any chain of memory and temporary-file buffers, however short the reads of
    the file come back, [request_body_limited] returns the concatenation when it fits and
    nothing when it does not. *)
Theorem body_is_the_buffers r bufs segs limit :
  request_body_bufs r = Some bufs -> Forall2 holds bufs segs -> 0 <= limit ->
  request_body_limited r limit =
  if Z.of_nat (length (concat segs)) <=? limit then Some (concat segs) else None.
Proof.
  intros Hr Hf Hl. unfold request_body_limited. rewrite Hr. by rewrite (collect_bufs_exact bufs segs).
Qed.
(** A file that gives one byte per read. *)
Definition slow_pread (data : bytes) (n off : Z) : option bytes := Some (take 1 (drop (Z.to_nat off) data)).
Definition demo_body : Request :=
  mkRequest (bs "POST") (bs "/") [] (bs "/") (bs "example.org") [] None 7
    (Some [Some (Memory (Some (bs "ab"))); None; Some (InFile (Some (slow_pread (bs "xcdefx"))) 1 5)]).
Lemma body_is_the_buffers_witness : request_body_limited demo_body 6 = Some (bs "abcdef").
Proof.
  apply (body_is_the_buffers demo_body
           [Some (Memory (Some (bs "ab"))); None; Some (InFile (Some (slow_pread (bs "xcdefx"))) 1 5)]
           [bs "ab"; []; bs "cdef"] 6); [reflexivity| |lia].
  constructor; [constructor|]. constructor; [constructor|]. constructor; [|constructor].
  apply (holds_range (bs "xcdefx")); [|lia|vm_compute; discriminate].
  intros n off Hn Ho. eexists. split; [reflexivity|].
  assert (length (take 1 (drop (Z.to_nat off) (bs "xcdefx"))) <= 1)%nat by (rewrite length_take; lia).
  split_and!; [|lia|].
  - destruct (drop (Z.to_nat off) (bs "xcdefx")); reflexivity.
  - intros E. destruct (drop (Z.to_nat off) (bs "xcdefx")) eqn:Ed; [|done].
    apply (f_equal length) in Ed. rewrite length_drop in Ed. simpl in Ed. simpl. lia.
Defined.

(** A key is all or nothing.  What [load_key] returns for a path is at least 16 bytes
    long or empty, never a prefix or a weak key; the location built from it is marked
    unusable exactly when the file was missing or short; and a later call returns the same
    key whatever has become of the file. *)
Theorem key_loaded_or_refused keys read path read' :
  (forall p k, keys !! p = Some k -> k = [] \/ (16 <= length k)%nat) ->
  let '(k, keys') := load_key keys read path in
  (k = [] \/ (16 <= length k)%nat)
  /\ (keys !! path = None ->
      (16 <=? length k)%nat = match read path with Some b => (16 <=? length b)%nat | None => false end)
  /\ load_key keys' read' path = (k, keys')
  /\ (forall p k, keys' !! p = Some k -> k = [] \/ (16 <= length k)%nat).
Proof.
  intros Hk. unfold load_key. destruct (keys !! path) as [k|] eqn:E.
  { rewrite E. split_and!; [by eapply Hk|done|done|exact Hk]. }
  rewrite lookup_insert_eq.
  assert (match read path with
          | Some b => if (MIN_HMAC_KEY_LEN <=? length b)%nat then b else [] | None => [] end = []
          \/ (16 <= length (match read path with
          | Some b => if (MIN_HMAC_KEY_LEN <=? length b)%nat then b else [] | None => [] end))%nat) as Hnew.
  { destruct (read path) as [b|]; [|by left]. case_match; to_prop; [by right|by left]. }
  split_and!; [done| |done|].
  - intros _. destruct (read path) as [b|]; [|done]. unfold MIN_HMAC_KEY_LEN. by destruct (16 <=? length b)%nat eqn:?.
  - intros p k'. destruct (decide (p = path)) as [->|]; [rewrite lookup_insert_eq; by intros [= <-]|].
    rewrite lookup_insert_ne by done. apply Hk.
Qed.
Definition demo_files (p : bytes) : option bytes :=
  if beq p (bs "/k") then Some (bs "0123456789abcdef") else if beq p (bs "/short") then Some (bs "123") else None.
Lemma key_loaded_or_refused_witness :
  (load_key ∅ demo_files (bs "/k")).1 = bs "0123456789abcdef" /\ (load_key ∅ demo_files (bs "/short")).1 = []
  /\ load_key (load_key ∅ demo_files (bs "/k")).2 (fun _ => None) (bs "/k") = load_key ∅ demo_files (bs "/k").
Proof.
  split; [reflexivity|]. split; [reflexivity|].
  pose proof (key_loaded_or_refused ∅ demo_files (bs "/k") (fun _ => None)) as Ht.
  destruct (load_key ∅ demo_files (bs "/k")) as [k ks]. apply Ht.
  intros p k' E. rewrite lookup_empty in E. discriminate.
Defined.
