(* ===== verification/Cluster.v ===== *)
(** * [cluster.rs]: the Redis back end on nginx's event loop

    A worker holds at most [connections] sockets and a queue of [queue] waiting jobs.  A
    job is a heap object reached through pointers, here keys of [heap]; the event loop
    calls the handlers below.  What nginx and the kernel answer (connect, send, receive,
    timers, clocks) is an argument of the handler that asks.  A handler that finishes
    requests returns them in order, each with its outcome and its grant: the caller runs
    [redemption::finish] on them. *)
From Stdlib Require Import ZArith Lia.
From Stdlib Require Import Strings.Byte.
From stdpp Require Import base list strings option numbers countable sets gmap.
From S2P Require Import Prelude RustStr Crates StandIns Codec Ip Redemption Store Redis Ledger.
Local Open Scope Z_scope.

(** ** Configuration *)

(** [SocketAddr] of the standard library and its [FromStr]. *)
Inductive SocketAddr := SockV4 (ip port : Z) | SockV6 (ip port scope_id : Z).
Definition read_port (s : bytes) : option (Z * bytes) :=
  s <-? read_char ":" s; read_number 10 65536 (length s) true s.
Definition read_scope_id (s : bytes) : Z * bytes :=
  match (r <-? read_char "%" s; read_number 10 (2 ^ 32) (length r) true r) with
  | Some (id, r) => (id, r)
  | None => (0, s)
  end.
Definition read_sock_v4 (s : bytes) : option (SocketAddr * bytes) :=
  '(ip, s) <-? read_v4 s; '(port, s) <-? read_port s; Some (SockV4 ip port, s).
Definition read_sock_v6 (s : bytes) : option (SocketAddr * bytes) :=
  s <-? read_char "[" s; '(ip, s) <-? read_v6 s; let '(id, s) := read_scope_id s in
  s <-? read_char "]" s; '(port, s) <-? read_port s; Some (SockV6 ip port id, s).
Definition parse_socket (s : bytes) : option SocketAddr :=
  match read_sock_v4 s with
  | Some (a, r) => match r with [] => Some a | _ => None end
  | None => match read_sock_v6 s with Some (a, []) => Some a | _ => None end
  end.

Record Config := mkConfig {
  address : SocketAddr; namespace : bytes; cfg_epoch : bytes; cfg_issuer : bytes;
  username : bytes; password : bytes; cfg_timeout : Z; connections : nat; queue : nat; skew : Z;
}.

Definition directives : list bytes :=
  map bs ["address"; "namespace"; "epoch_file"; "username"; "password_file"; "timeout";
          "connections"; "queue"; "clock_skew"]%string.
(** [inner]: one directive of the block; a second one of the same name is an error. *)
Definition inner (values : gmap bytes bytes) (args : list bytes) : option (gmap bytes bytes) :=
  match args with
  | [name; value] =>
      if negb (bool_decide (name ∈ directives)) then None
      else match values !! name with
           | Some _ => None
           | None => Some (<[name := value]> values)
           end
  | _ => None
  end.
Fixpoint parse_block (values : gmap bytes bytes) (block : list (list bytes)) : option (gmap bytes bytes) :=
  match block with
  | [] => Some values
  | args :: block' => values <-? inner values args; parse_block values block'
  end.

(** [values.remove(k).map(|s| s.parse()).transpose().ok()?.unwrap_or(d)]. *)
Definition number (parse : bytes -> option Z) (values : gmap bytes bytes) (k : string) (d : Z) : option Z :=
  match values !! bs k with
  | Some s => parse s
  | None => Some d
  end.
Definition strip_newline (b : bytes) : bytes :=
  match reverse b with
  | c :: r => if bool_decide (c = Byte.x0a) then reverse r else b
  | [] => b
  end.
Definition name_byte (b : byte) : bool :=
  is_ascii_alphanumeric b || bool_decide (b ∈ bs "_-").

Section cluster.
Context {S : Sha256}.

(** The closure of [configure]; [read] is the file system. *)
Definition parse_config (read : bytes -> option bytes) (values : gmap bytes bytes) : option Config :=
  a <-? values !! bs "address"; address <-? parse_socket a;
  namespace <-? values !! bs "namespace";
  if beq namespace [] || (64 <? length namespace)%nat || negb (forallb name_byte namespace) then None else
  f <-? values !! bs "epoch_file";
  raw <-? read f;
  if negb (utf8_valid raw) then None else
  let epoch := to_ascii_lowercase (trim raw) in
  if negb (length epoch =? 64)%nat || negb (forallb is_ascii_hexdigit epoch) then None else
  let issuer := Redemption.id (bs "redis:" ++ namespace ++ bs ":" ++ epoch) in
  password <-? match values !! bs "password_file" with
               | Some path =>
                   b <-? read path;
                   let b := strip_newline b in
                   if beq b [] || (512 <? length b)%nat then None else Some b
               | None => Some []
               end;
  let username := default [] (values !! bs "username") in
  if (128 <? length username)%nat || (negb (beq username []) && beq password []) then None else
  timeout <-? number (parse_u 64) values "timeout" 500;
  connections <-? number (parse_u 64) values "connections" 4;
  queue <-? number (parse_u 64) values "queue" 64;
  skew <-? number (parse_i 64) values "clock_skew" 5;
  let values := foldr delete values directives in
  if negb ((10 <=? timeout) && (timeout <=? 5000)) || negb ((1 <=? connections) && (connections <=? 32))
     || (1024 <? queue) || negb ((1 <=? skew) && (skew <=? 60)) || negb (bool_decide (values = ∅))
  then None
  else Some (mkConfig address namespace epoch issuer username password timeout
               (Z.to_nat connections) (Z.to_nat queue) skew).
(** [configure]: refused when the main configuration already has a cluster. *)
Definition configure (cluster : option Config) (read : bytes -> option bytes) (block : list (list bytes))
  : option Config :=
  match cluster with
  | Some _ => None
  | None => values <-? parse_block ∅ block; parse_config read values
  end.

(** ** The worker's state *)

(** [request] is the request that waits, by identity; [None] for a health check. *)
Record Job := mkJob {
  output : bytes; sent : nat; input : bytes; auth : bool;
  deadline_set : bool; connected : bool;
  request : option nat; grant : option Grant; expires : Z; health : bool;
}.
Record Runtime := mkRuntime {
  config : Config; heap : gmap nat Job; next : nat;
  pending : list nat; active : list nat;
  health_busy : bool; pumping : bool; ready : bool; fenced : bool; last_ok : Z;
}.
Definition with_heap (rt : Runtime) (h : gmap nat Job) : Runtime :=
  mkRuntime (config rt) h (next rt) (pending rt) (active rt) (health_busy rt) (pumping rt) (ready rt)
    (fenced rt) (last_ok rt).
Definition with_queues (rt : Runtime) (pending active : list nat) : Runtime :=
  mkRuntime (config rt) (heap rt) (next rt) pending active (health_busy rt) (pumping rt) (ready rt)
    (fenced rt) (last_ok rt).
Definition with_pumping (rt : Runtime) (b : bool) : Runtime :=
  mkRuntime (config rt) (heap rt) (next rt) (pending rt) (active rt) (health_busy rt) b (ready rt)
    (fenced rt) (last_ok rt).
Definition with_busy (rt : Runtime) (b : bool) : Runtime :=
  mkRuntime (config rt) (heap rt) (next rt) (pending rt) (active rt) b (pumping rt) (ready rt)
    (fenced rt) (last_ok rt).
Definition with_fenced (rt : Runtime) : Runtime :=
  mkRuntime (config rt) (heap rt) (next rt) (pending rt) (active rt) (health_busy rt) (pumping rt) false
    true (last_ok rt).
Definition with_health (rt : Runtime) (ready_ : bool) (last : Z) : Runtime :=
  mkRuntime (config rt) (heap rt) (next rt) (pending rt) (active rt) false (pumping rt) ready_
    (fenced rt) last.

(** [activate]: nothing without a cluster configuration, else a fresh runtime whose poll
    timer is armed. *)
Definition activate (cluster : option Config) : option Runtime :=
  config <-? cluster; Some (mkRuntime config ∅ 0 [] [] false false false false 0).
Definition enabled (rt : option Runtime) : bool := bool_decide (is_Some rt).
Definition issuer (rt : option Runtime) : option bytes :=
  rt <-? rt; if fenced rt then None else Some (cfg_issuer (config rt)).
(** [msec] is [ngx_current_msec]. *)
Definition ready_now (rt : Runtime) (msec : Z) : bool :=
  ready rt && negb (fenced rt) && (wrap_u 64 (msec - last_ok rt) <? 2500).
Definition available (rt : option Runtime) (msec : Z) : bool :=
  match rt with Some rt => ready_now rt msec | None => false end.

(** ** Jobs *)

(** What [make_job] writes to the socket. *)
Definition job_output (config : Config) (token : bytes) (expires : Z) (health : bool) (now : Z) : bytes :=
  let '(k0, k1, k2) := keys (namespace config) (cfg_epoch config) token in
  let auth := negb (beq (password config) []) in
  (if auth
   then command ([bs "AUTH"] ++ (if beq (username config) [] then [] else [username config])
                 ++ [password config])
   else [])
  ++ (if health
      then command [bs "EVAL"; HEALTH; bs "2"; k0; k2; cfg_epoch config]
      else command [bs "EVAL"; CONSUME; bs "3"; k0; k1; k2; cfg_epoch config; show_i expires;
                    show_i (skew config); show_i now]).
Definition make_job (config : Config) (request : option nat) (grant : option Grant) (token : bytes)
  (expires : Z) (health : bool) (now : Z) : Job :=
  mkJob (job_output config token expires health now) 0 [] (negb (beq (password config) [])) false false
    request grant expires health.

Definition set_job (rt : Runtime) (p : nat) (f : Job -> Job) : Runtime :=
  with_heap rt (alter f p (heap rt)).
Definition arm (j : Job) : Job :=
  mkJob (output j) (sent j) (input j) (auth j) true (connected j) (request j) (grant j) (expires j) (health j).
Definition plug (j : Job) : Job :=
  mkJob (output j) (sent j) (input j) (auth j) (deadline_set j) true (request j) (grant j) (expires j) (health j).
Definition progress (n : nat) (j : Job) : Job :=
  mkJob (output j) n (input j) (auth j) (deadline_set j) (connected j) (request j) (grant j) (expires j) (health j).
Definition receive (input_ : bytes) (auth_ : bool) (j : Job) : Job :=
  mkJob (output j) (sent j) input_ auth_ (deadline_set j) (connected j) (request j) (grant j) (expires j) (health j).
Definition orphan (j : Job) : Job :=
  mkJob (output j) (sent j) (input j) (auth j) (deadline_set j) (connected j) None (grant j) (expires j) (health j).

(** ** Completion, connection and the queue *)

Definition Completion : Type := nat * Outcome * Grant.
(** [ngx_event_connect_peer]: no connection object, or one with a return code. *)
Inductive Dial := NoConnection | Connection (rc : Z).
Definition NGX_OK : Z := 0.
Definition NGX_ERROR : Z := -1.
Definition NGX_AGAIN : Z := -2.
Definition NGX_BUSY : Z := -3.
Definition NGX_DONE : Z := -4.
Definition NGX_DECLINED : Z := -5.

(** The first part of [complete], up to [drop(job)]: the runtime's flags, the queues, and a
    late acceptance turned into an expiry; [now] and [msec] are the clocks. *)
Definition retire (now msec : Z) (rt : Runtime) (p : nat) (job : Job) (outcome : Outcome) (fence : bool)
  : Outcome * Runtime :=
  let rt := if fence then with_fenced rt else rt in
  let '(outcome, rt) :=
    if health job then
      let ready := bool_decide (outcome = Accepted) && negb (fenced rt) in
      (outcome, with_health rt ready (if ready then msec else last_ok rt))
    else
      (if bool_decide (outcome = Accepted) && (expires job <=? now) then Expired else outcome,
       with_queues rt (filter (fun q => q <> p) (pending rt)) (filter (fun q => q <> p) (active rt))) in
  (outcome, with_heap rt (delete p (heap rt))).
Definition answer (job : Job) (outcome : Outcome) : list Completion :=
  match request job, grant job with
  | Some r, Some g => [(r, outcome, g)]
  | _, _ => []
  end.
(** [complete]; [drain] is its loop over the queue.  A pointer that is not in the heap would
    be a use after free: no event of a reachable state has one. *)
Definition complete_with (drain : Runtime -> list Completion * Runtime) (now msec : Z)
  (rt : Runtime) (p : nat) (outcome : Outcome) (fence : bool) : list Completion * Runtime :=
  match heap rt !! p with
  | None => ([], rt)
  | Some job =>
      let '(outcome, rt) := retire now msec rt p job outcome fence in
      let '(before, rt) :=
        if pumping rt then ([], rt)
        else let '(cs, rt) := drain (with_pumping rt true) in (cs, with_pumping rt false) in
      (before ++ answer job outcome, rt)
  end.
(** [connect]; [dial p] is what the kernel answers for job [p]. *)
Definition connect_with (complete : Runtime -> nat -> Outcome -> bool -> list Completion * Runtime)
  (dial : nat -> Dial) (rt : Runtime) (p : nat) : list Completion * Runtime :=
  let rt := set_job rt p (fun j => if health j then arm j else j) in
  match dial p with
  | NoConnection => complete rt p Full false
  | Connection rc =>
      let rt := set_job rt p plug in
      if (rc =? NGX_ERROR) || (rc =? NGX_DECLINED) || (rc =? NGX_BUSY)
      then complete rt p Full false
      else ([], rt)
  end.

(** While the queue is drained [pumping] is set, so a completion inside it drains nothing. *)
Definition complete_pumping (now msec : Z) : Runtime -> nat -> Outcome -> bool -> list Completion * Runtime :=
  complete_with (fun rt => ([], rt)) now msec.
(** Each round takes a job off the queue: its length is enough fuel. *)
Fixpoint drain_loop (fuel : nat) (now msec : Z) (dial : nat -> Dial) (rt : Runtime)
  : list Completion * Runtime :=
  match fuel with
  | O => ([], rt)
  | Datatypes.S f =>
      if (length (active rt) <? connections (config rt))%nat then
        match pending rt with
        | [] => ([], rt)
        | p :: rest =>
            let rt := with_queues rt rest (active rt ++ [p]) in
            let '(cs1, rt) := connect_with (complete_pumping now msec) dial rt p in
            let '(cs2, rt) := drain_loop f now msec dial rt in
            (cs1 ++ cs2, rt)
        end
      else ([], rt)
  end.
Definition drain (now msec : Z) (dial : nat -> Dial) (rt : Runtime) : list Completion * Runtime :=
  drain_loop (length (pending rt)) now msec dial rt.
Definition complete (now msec : Z) (dial : nat -> Dial) : Runtime -> nat -> Outcome -> bool -> list Completion * Runtime :=
  complete_with (drain now msec dial) now msec.
Definition connect (now msec : Z) (dial : nat -> Dial) : Runtime -> nat -> list Completion * Runtime :=
  connect_with (complete now msec dial) dial.

Definition alloc (rt : Runtime) (job : Job) : nat * Runtime :=
  (next rt, mkRuntime (config rt) (<[next rt := job]> (heap rt)) (Datatypes.S (next rt)) (pending rt) (active rt)
              (health_busy rt) (pumping rt) (ready rt) (fenced rt) (last_ok rt)).

(** [poll]; [exiting] is any of nginx's shutdown flags. *)
Definition poll (now msec : Z) (dial : nat -> Dial) (exiting : bool) (rt : Runtime) : list Completion * Runtime :=
  if exiting then ([], rt)
  else if negb (health_busy rt) && negb (fenced rt) then
    let rt := with_busy rt true in
    let '(p, rt) := alloc rt (make_job (config rt) None None [] 0 true now) in
    connect now msec dial rt p
  else ([], rt).

(** [redeem]: the early returns finish the request at once with [Full]. *)
Definition redeem (now msec : Z) (dial : nat -> Dial) (rt : Runtime) (r : nat) (token : bytes) (expires : Z)
  (grant : Grant) : list Completion * Runtime :=
  if negb (ready_now rt msec) then ([(r, Full, grant)], rt)
  else if (connections (config rt) <=? length (active rt))%nat && (queue (config rt) <=? length (pending rt))%nat
  then ([(r, Full, grant)], rt)
  else
    let '(p, rt) := alloc rt (arm (make_job (config rt) (Some r) (Some grant) token expires false now)) in
    if (length (active rt) <? connections (config rt))%nat
    then connect now msec dial (with_queues rt (pending rt) (active rt ++ [p])) p
    else ([], with_queues rt (pending rt ++ [p]) (active rt)).

(** ** Socket events *)

(** The send loop: [send n] is the kernel's answer to a send that starts at byte [n]; each
    round sends at least a byte.  The result is the new [sent], or an outcome to complete
    with; [rearm] tells whether nginx re-arms the event. *)
Fixpoint write_loop (fuel : nat) (send : nat -> Z) (rearm_write rearm_read : bool) (out : bytes) (sent : nat)
  : nat * bool :=
  if (sent <? length out)%nat then
    match fuel with
    | O => (sent, true)
    | Datatypes.S f =>
        let n := send sent in
        if n =? NGX_AGAIN then (sent, negb rearm_write)
        else if n <=? 0 then (sent, true)
        else write_loop f send rearm_write rearm_read out (sent + Z.to_nat n)
    end
  else (sent, negb rearm_read).
Definition write (now msec : Z) (dial : nat -> Dial) (sock_error : bool) (send : nat -> Z)
  (rearm_write rearm_read : bool) (rt : Runtime) (p : nat) : list Completion * Runtime :=
  match heap rt !! p with
  | None => ([], rt)
  | Some job =>
      if sock_error then complete now msec dial rt p Full false
      else
        let '(n, failed) := write_loop (length (output job)) send rearm_write rearm_read (output job) (sent job) in
        let rt := set_job rt p (progress n) in
        if failed then complete now msec dial rt p Full false else ([], rt)
  end.

(** The replies in the buffer: [inl] the outcome and fence to complete with, [inr] the rest
    of the input and the flag of an outstanding AUTH.  Only an AUTH reply continues the
    loop, once, so two rounds are enough. *)
Fixpoint replies (fuel : nat) (input : bytes) (auth : bool) : Outcome * bool + bytes * bool :=
  match fuel with
  | O => inr (input, auth)
  | Datatypes.S f =>
      match reply input with
      | inr (Some (reply, used)) =>
          let input := drop used input in
          if auth then
            if bool_decide (reply = Redis.Ok) then replies f input false else inl (Full, false)
          else inl match reply with
                   | Integer v =>
                       if v =? 1 then (Accepted, false) else if v =? 0 then (Reused, false)
                       else if v =? -1 then (Expired, false) else if v =? -2 then (Full, true)
                       else (Full, false)
                   | _ => (Full, false)
                   end
      | inr None => inr (input, auth)
      | inl _ => inl (Full, false)
      end
  end.
(** [recv] answers: would block, closed or failed, or bytes (at most 256). *)
Inductive Recv := Again | Gone | Data (b : bytes).
(** The bytes they bring. *)
Fixpoint received (recvs : list Recv) : bytes :=
  match recvs with
  | Data b :: recvs' => b ++ received recvs'
  | _ => []
  end.
Fixpoint read_loop (recvs : list Recv) (rearm : bool) (input : bytes) (auth : bool)
  : Outcome * bool + bytes * bool :=
  match recvs with
  | Data (b :: bytes_) :: recvs' =>
      if (1024 <? length input + length (b :: bytes_))%nat then inl (Full, false)
      else match replies 2 (input ++ b :: bytes_) auth with
           | inl done => inl done
           | inr (input, auth) => read_loop recvs' rearm input auth
           end
  | Data [] :: _ | Gone :: _ => inl (Full, false)
  | Again :: _ | [] => if rearm then inr (input, auth) else inl (Full, false)
  end.
Definition read (now msec : Z) (dial : nat -> Dial) (recvs : list Recv) (rearm : bool) (rt : Runtime) (p : nat)
  : list Completion * Runtime :=
  match heap rt !! p with
  | None => ([], rt)
  | Some job =>
      match read_loop recvs rearm (input job) (auth job) with
      | inl (outcome, fence) => complete now msec dial rt p outcome fence
      | inr (input_, auth_) => ([], set_job rt p (receive input_ auth_))
      end
  end.

Definition timeout (now msec : Z) (dial : nat -> Dial) (rt : Runtime) (p : nat) : list Completion * Runtime :=
  complete now msec dial rt p Full false.
(** The client went away. *)
Definition aborted (now msec : Z) (dial : nat -> Dial) (rt : Runtime) (p : nat) : list Completion * Runtime :=
  complete now msec dial (set_job rt p orphan) p Full false.
End cluster.

(** ** Events and reachable states *)

Section events.
Context {S : Sha256}.

(** What an event sees of the world: the two clocks and the kernel's answers to connects. *)
Record World := mkWorld { now : Z; msec : Z; dial : nat -> Dial }.
Inductive Event :=
  | Poll (exiting : bool)
  | Redeem (r : nat) (token : bytes) (expires : Z) (grant : Grant)
  | Writable (p : nat) (sock_error : bool) (send : nat -> Z) (rearm_write rearm_read : bool)
  | Readable (p : nat) (recvs : list Recv) (rearm : bool)
  | Timeout (p : nat)
  | Abort (p : nat).
Definition handle (w : World) (rt : Runtime) (ev : Event) : list Completion * Runtime :=
  match ev with
  | Poll exiting => poll (now w) (msec w) (dial w) exiting rt
  | Redeem r token expires grant => redeem (now w) (msec w) (dial w) rt r token expires grant
  | Writable p err send rw rr => write (now w) (msec w) (dial w) err send rw rr rt p
  | Readable p recvs rearm => read (now w) (msec w) (dial w) recvs rearm rt p
  | Timeout p => timeout (now w) (msec w) (dial w) rt p
  | Abort p => aborted (now w) (msec w) (dial w) rt p
  end.
(** nginx delivers socket events on open connections, timeouts of armed timers, and the
    cleanup of requests that still wait. *)
Definition fires (rt : Runtime) (ev : Event) : Prop :=
  match ev with
  | Poll _ | Redeem _ _ _ _ => True
  | Writable p _ _ _ _ | Readable p _ _ => exists j, heap rt !! p = Some j /\ connected j = true
  | Timeout p => exists j, heap rt !! p = Some j /\ deadline_set j = true
  | Abort p => exists j, heap rt !! p = Some j /\ is_Some (request j)
  end.
(** The request an event brings in, and the one it takes out unanswered. *)
Definition asked (ev : Event) : list nat := match ev with Redeem r _ _ _ => [r] | _ => [] end.
Definition dropped (rt : Runtime) (ev : Event) : list nat :=
  match ev with
  | Abort p => match heap rt !! p with Some j => option_list (request j) | None => [] end
  | _ => []
  end.
(** A worker's history: its state, the requests handed in, the completions, the aborts. *)
Inductive reach (c : Config) : Runtime -> list nat -> list Completion -> list nat -> Prop :=
  | reach_start rt : activate (Some c) = Some rt -> reach c rt [] [] []
  | reach_step rt rs cs ab w ev cs' rt' :
      reach c rt rs cs ab -> fires rt ev -> handle w rt ev = (cs', rt') ->
      reach c rt' (rs ++ asked ev) (cs ++ cs') (ab ++ dropped rt ev).

(** The requests that wait. *)
Definition owed (rt : Runtime) : list nat := omap (fun kv => request kv.2) (map_to_list (heap rt)).
Definition answered (cs : list Completion) : list nat := map (fun c => c.1.1) cs.

Record core (rt : Runtime) : Prop := mkCore {
  core_nodup : NoDup (active rt ++ pending rt);
  core_queued p : p ∈ active rt ++ pending rt <-> exists j, heap rt !! p = Some j /\ health j = false;
  core_armed p j : heap rt !! p = Some j -> deadline_set j = true;
  core_kind p j : heap rt !! p = Some j -> if health j then request j = None else is_Some (grant j);
  core_next p : is_Some (heap rt !! p) -> (p < next rt)%nat;
  core_active : (length (active rt) <= connections (config rt))%nat;
  core_pending : (length (pending rt) <= queue (config rt))%nat;
  core_fenced : fenced rt = true -> ready rt = false;
  core_busy : health_busy rt = true <-> exists p j, heap rt !! p = Some j /\ health j = true;
  core_health p q j k : heap rt !! p = Some j -> heap rt !! q = Some k -> health j = true -> health k = true -> p = q;
}.
Record inv (rt : Runtime) : Prop := mkInv {
  inv_core : core rt;
  inv_pumping : pumping rt = false;
  inv_busy : pending rt <> [] -> length (active rt) = connections (config rt);
}.
(** What a handler does to the state: nothing is lost, nothing is answered twice. *)
Record moved (rt : Runtime) (cs : list Completion) (rt' : Runtime) : Prop := mkMoved {
  mv_owed : owed rt ≡ₚ answered cs ++ owed rt';
  mv_config : config rt' = config rt;
  mv_pumping : pumping rt' = pumping rt;
  mv_fenced : fenced rt = true -> fenced rt' = true;
}.
Lemma moved_refl rt : moved rt [] rt.
Proof. by split. Qed.
Lemma moved_trans rt1 cs1 rt2 cs2 rt3 :
  moved rt1 cs1 rt2 -> moved rt2 cs2 rt3 -> moved rt1 (cs1 ++ cs2) rt3.
Proof.
  intros [E1 C1 P1 F1] [E2 C2 P2 F2]. split; [|congruence..|auto].
  unfold answered in *. rewrite map_app, <- app_assoc. by rewrite E1, E2.
Qed.

Lemma owed_heap rt rt' : heap rt = heap rt' -> owed rt = owed rt'.
Proof. unfold owed. by intros ->. Qed.
Lemma owed_insert h p j :
  h !! p = None ->
  omap (fun kv => request kv.2) (map_to_list (<[p := j]> h))
  ≡ₚ option_list (request j) ++ omap (fun kv : nat * Job => request kv.2) (map_to_list h).
Proof.
  intros Hp. rewrite map_to_list_insert by done. simpl. by destruct (request j).
Qed.
Lemma owed_delete h p j :
  h !! p = Some j ->
  omap (fun kv : nat * Job => request kv.2) (map_to_list h)
  ≡ₚ option_list (request j) ++ omap (fun kv => request kv.2) (map_to_list (delete p h)).
Proof.
  intros Hp. rewrite <- owed_insert by apply lookup_delete_eq. by rewrite insert_delete_eq, insert_id.
Qed.

(** *** Writing to a job *)

Definition benign (f : Job -> Job) : Prop := forall j,
  request (f j) = request j /\ grant (f j) = grant j /\ health (f j) = health j
  /\ (deadline_set j = true -> deadline_set (f j) = true).
Lemma alter_lookup (f : Job -> Job) p (h : gmap nat Job) q j' :
  alter f p h !! q = Some j' <-> exists j, h !! q = Some j /\ j' = if decide (q = p) then f j else j.
Proof.
  destruct (decide (q = p)) as [->|].
  - rewrite lookup_alter_eq. destruct (h !! p); naive_solver.
  - rewrite lookup_alter_ne by done. naive_solver.
Qed.
Lemma owed_set_job rt p f :
  (forall j, heap rt !! p = Some j -> request (f j) = request j) -> owed (set_job rt p f) ≡ₚ owed rt.
Proof.
  intros Hf. unfold owed, set_job, with_heap. simpl. destruct (heap rt !! p) as [j|] eqn:E.
  - rewrite (owed_delete (heap rt) p j) by done.
    rewrite (owed_delete (alter f p (heap rt)) p (f j)) by (by rewrite lookup_alter_eq, E).
    rewrite Hf by done. replace (delete p (alter f p (heap rt))) with (delete p (heap rt)); [done|].
    apply map_eq. intros q. destruct (decide (q = p)) as [->|].
    + by rewrite !lookup_delete_eq.
    + by rewrite !lookup_delete_ne, lookup_alter_ne by done.
  - replace (alter f p (heap rt)) with (heap rt); [done|]. apply map_eq. intros q.
    destruct (decide (q = p)) as [->|]; [by rewrite lookup_alter_eq, E|by rewrite lookup_alter_ne].
Qed.
Lemma core_set_job rt p f : benign f -> core rt -> core (set_job rt p f).
Proof.
  intros Hf [Hnd Hq Ha Hk Hn Hla Hlp Hfe Hb Hh].
  assert (forall q j', heap (set_job rt p f) !! q = Some j' ->
          exists j, heap rt !! q = Some j /\ request j' = request j /\ grant j' = grant j
                    /\ health j' = health j /\ (deadline_set j = true -> deadline_set j' = true)) as Hl.
  { intros q j' (j & Hj & ->)%alter_lookup. exists j. split; [done|]. case_decide; [apply Hf|done]. }
  assert (forall q j, heap rt !! q = Some j -> exists j', heap (set_job rt p f) !! q = Some j' /\ health j' = health j) as Hr.
  { intros q j Hj. eexists. split; [by apply alter_lookup; eauto|]. case_decide; [apply Hf|done]. }
  split; try done.
  - intros q. simpl. rewrite Hq. split; intros (j & Hj & Ej).
    + destruct (Hr q j Hj) as (j' & Hj' & E). exists j'. split; [done|congruence].
    + destruct (Hl q j Hj) as (j0 & Hj0 & _ & _ & E & _). exists j0. split; [done|congruence].
  - intros q j (j0 & Hj & _ & _ & _ & Hd)%Hl. eauto.
  - intros q j (j0 & Hj & E1 & E2 & E3 & _)%Hl. rewrite E1, E2, E3. by eapply Hk.
  - intros q [j (j0 & Hj & _)%Hl]. simpl. apply Hn. eauto.
  - simpl. rewrite Hb. split; intros (q & j & Hj & Ej).
    + destruct (Hr q j Hj) as (j' & Hj' & E). exists q, j'. split; [done|congruence].
    + destruct (Hl q j Hj) as (j0 & Hj0 & _ & _ & E & _). exists q, j0. split; [done|congruence].
  - intros q1 q2 j1 j2 (k1 & Hk1 & _ & _ & E1 & _)%Hl (k2 & Hk2 & _ & _ & E2 & _)%Hl. rewrite E1, E2. by apply Hh.
Qed.
Lemma moved_set_job rt p f : benign f -> moved rt [] (set_job rt p f).
Proof.
  intros Hf. split; try done. simpl. symmetry. apply owed_set_job. intros j _. apply Hf.
Qed.
Lemma set_job_Some rt p f j : heap rt !! p = Some j -> heap (set_job rt p f) !! p = Some (f j).
Proof. intros E. unfold set_job. simpl. by rewrite lookup_alter_eq, E. Qed.

(** *** Retiring a job *)

Lemma filter_shorter (p : nat) l : (length (filter (fun q => q <> p) l) <= length l)%nat.
Proof. apply length_filter. Qed.
Lemma retire_heap now msec rt p job o fence :
  heap (retire now msec rt p job o fence).2 = delete p (heap rt)
  /\ config (retire now msec rt p job o fence).2 = config rt
  /\ next (retire now msec rt p job o fence).2 = next rt
  /\ pumping (retire now msec rt p job o fence).2 = pumping rt
  /\ fenced (retire now msec rt p job o fence).2 = fence || fenced rt.
Proof. unfold retire. by destruct fence, (health job). Qed.
Lemma retire_queues now msec rt p job o fence :
  (active (retire now msec rt p job o fence).2, pending (retire now msec rt p job o fence).2) =
  if health job then (active rt, pending rt)
  else (filter (fun q => q <> p) (active rt), filter (fun q => q <> p) (pending rt)).
Proof. unfold retire. by destruct fence, (health job). Qed.
Lemma retire_flags now msec rt p job o fence :
  health_busy (retire now msec rt p job o fence).2 = (if health job then false else health_busy rt)
  /\ ready (retire now msec rt p job o fence).2 =
     (if health job then bool_decide (o = Accepted) && negb (fence || fenced rt)
      else if fence then false else ready rt).
Proof. unfold retire. by destruct fence, (health job). Qed.
Lemma delete_lookup (h : gmap nat Job) p q j : delete p h !! q = Some j <-> q <> p /\ h !! q = Some j.
Proof.
  destruct (decide (q = p)) as [->|]; [rewrite lookup_delete_eq|rewrite lookup_delete_ne by done]; naive_solver.
Qed.
Lemma core_retire now msec rt p job o fence :
  core rt -> heap rt !! p = Some job -> core (retire now msec rt p job o fence).2.
Proof.
  intros [Hnd Hq Ha Hk Hn Hla Hlp Hfe Hb Hh] Hp.
  destruct (retire_heap now msec rt p job o fence) as (Eh & Ec & En & Ep & Ef).
  pose proof (retire_queues now msec rt p job o fence) as Eq.
  destruct (retire_flags now msec rt p job o fence) as [Eb Er].
  set (rt' := (retire now msec rt p job o fence).2) in *. clearbody rt'.
  assert (if health job then active rt' = active rt /\ pending rt' = pending rt
          else active rt' = filter (fun q => q <> p) (active rt)
               /\ pending rt' = filter (fun q => q <> p) (pending rt)) as Hqs
    by (destruct (health job); by injection Eq).
  assert (forall q, q ∈ active rt' ++ pending rt' <-> q ∈ active rt ++ pending rt /\ q <> p) as Hmem.
  { intros q. destruct (health job) eqn:Ehj; destruct Hqs as [-> ->].
    - split; [intros Hin; split; [done|]|tauto]. intros ->. apply Hq in Hin as (j & Hj & Hf). congruence.
    - rewrite <- filter_app, list_elem_of_filter. tauto. }
  split; rewrite ?Eh, ?Ec, ?En.
  - destruct (health job); destruct Hqs as [-> ->]; [done|]. rewrite <- filter_app. by apply NoDup_filter.
  - intros q. rewrite Hmem, Hq. setoid_rewrite delete_lookup. naive_solver.
  - intros q j [_ Hj]%delete_lookup. eauto.
  - intros q j [_ Hj]%delete_lookup. by apply Hk in Hj.
  - intros q [j [_ Hj]%delete_lookup]. eauto.
  - pose proof (filter_shorter p (active rt)). destruct (health job); destruct Hqs as [-> _]; lia.
  - pose proof (filter_shorter p (pending rt)). destruct (health job); destruct Hqs as [_ ->]; lia.
  - rewrite Ef, Er. destruct (health job), fence, (fenced rt); simpl; rewrite ?andb_false_r; first [done|auto].
  - rewrite Eb. setoid_rewrite delete_lookup. destruct (health job) eqn:Ehj.
    + split; [done|]. intros (q & j & [Hne Hj] & Hhj). exfalso. by apply Hne, (Hh q p j job).
    + rewrite Hb. split; [|naive_solver]. intros (q & j & Hj & Hhj). exists q, j. split; [|done].
      split; [|done]. intros ->. congruence.
  - intros q1 q2 j1 j2 [_ H1]%delete_lookup [_ H2]%delete_lookup. eauto.
Qed.
Lemma answered_answer rt p job o :
  core rt -> heap rt !! p = Some job -> answered (answer job o) = option_list (request job).
Proof.
  intros Hc Hp. apply (core_kind _ Hc) in Hp. unfold answer.
  destruct (health job); [by rewrite Hp|]. destruct Hp as [g ->]. by destruct (request job).
Qed.
Lemma moved_retire now msec rt p job o fence :
  core rt -> heap rt !! p = Some job ->
  moved rt (answer job (retire now msec rt p job o fence).1) (retire now msec rt p job o fence).2.
Proof.
  intros Hc Hp. destruct (retire_heap now msec rt p job o fence) as (Eh & Ec & _ & Ep & Ef).
  split; [|done..|by rewrite Ef; intros ->; rewrite orb_true_r].
  unfold owed. rewrite Eh, (owed_delete _ _ _ Hp). by rewrite (answered_answer rt p).
Qed.
Lemma core_with_pumping rt b : core rt -> core (with_pumping rt b).
Proof. by intros []. Qed.
(** A loop that may run while [pumping] is set. *)
Definition pump_ok (drain : Runtime -> list Completion * Runtime) : Prop :=
  forall rt, core rt -> pumping rt = true -> moved rt (drain rt).1 (drain rt).2 /\ core (drain rt).2.
Lemma complete_ok drain now msec rt p o fence :
  pump_ok drain -> core rt -> is_Some (heap rt !! p) ->
  moved rt (complete_with drain now msec rt p o fence).1 (complete_with drain now msec rt p o fence).2
  /\ core (complete_with drain now msec rt p o fence).2.
Proof.
  intros Hd Hc [job Hp]. unfold complete_with. rewrite Hp.
  pose proof (core_retire now msec rt p job o fence Hc Hp) as Hcr.
  pose proof (moved_retire now msec rt p job o fence Hc Hp) as Hm.
  destruct (retire now msec rt p job o fence) as [o' rt1]. simpl in Hcr, Hm.
  destruct (pumping rt1) eqn:Epump; [done|].
  destruct (Hd (with_pumping rt1 true)) as [[Ho Hcf Hpu Hfe] Hcd]; [by apply core_with_pumping|done|].
  destruct (drain (with_pumping rt1 true)) as [cs rt2]. simpl in *. split; [|by apply core_with_pumping].
  destruct Hm as [Mo Mc Mp Mf]. split; simpl; [|congruence|congruence|auto].
  unfold answered in *. rewrite map_app, <- app_assoc, Mo.
  change (owed (with_pumping rt1 true)) with (owed rt1) in Ho. rewrite Ho, !app_assoc.
  apply Permutation_app; [apply Permutation_app_comm|done].
Qed.
Lemma pump_ok_nil : pump_ok (fun rt => ([], rt)).
Proof. intros rt Hc _. split; [apply moved_refl|done]. Qed.
Lemma connect_ok complete dial rt p :
  (forall rt p, core rt -> is_Some (heap rt !! p) ->
     moved rt (complete rt p Full false).1 (complete rt p Full false).2
     /\ core (complete rt p Full false).2) ->
  core (set_job rt p (fun j => if health j then arm j else j)) -> is_Some (heap rt !! p) ->
  moved rt (connect_with complete dial rt p).1 (connect_with complete dial rt p).2
  /\ core (connect_with complete dial rt p).2.
Proof.
  intros Hcomp Hc [j Hj]. unfold connect_with.
  assert (benign (fun j => if health j then arm j else j)) as Hb1 by (intros k; by destruct (health k) eqn:?).
  assert (benign plug) as Hb2 by done.
  pose proof (moved_set_job rt p _ Hb1) as Hm. pose proof (set_job_Some rt p (fun j => if health j then arm j else j) j Hj) as Hs.
  set (rt1 := set_job rt p _) in *. clearbody rt1. clear Hj.
  destruct (dial p) as [|rc].
  - destruct (Hcomp rt1 p) as [Hm2 Hc2]; [done|by rewrite Hs|]. split; [|done].
    exact (moved_trans _ _ _ _ _ Hm Hm2).
  - pose proof (moved_set_job rt1 p _ Hb2) as Hm1. pose proof (core_set_job rt1 p _ Hb2 Hc) as Hc1.
    apply (set_job_Some rt1 p plug) in Hs. set (rt2 := set_job rt1 p plug) in *. clearbody rt2.
    pose proof (moved_trans _ _ _ _ _ Hm Hm1) as Hm3.
    destruct ((rc =? NGX_ERROR) || (rc =? NGX_DECLINED) || (rc =? NGX_BUSY)); [|by split].
    destruct (Hcomp rt2 p) as [Hm4 Hc2]; [done|by rewrite Hs|]. split; [|done].
    exact (moved_trans _ _ _ _ _ Hm3 Hm4).
Qed.
(** Moving the head of the queue to the connections. *)
Lemma core_promote rt p rest :
  core rt -> pending rt = p :: rest -> (length (active rt) < connections (config rt))%nat ->
  core (with_queues rt rest (active rt ++ [p])).
Proof.
  intros [Hnd Hq Ha Hk Hn Hla Hlp Hfe Hb Hh] Ep Hl. rewrite Ep in Hnd, Hq, Hlp.
  assert ((active rt ++ [p]) ++ rest = active rt ++ p :: rest) as E by (by rewrite <- app_assoc).
  split; simpl; rewrite ?E; try done; [rewrite length_app; simpl; lia|simpl in Hlp; lia].
Qed.
Lemma set_job_id rt p f : (forall j, heap rt !! p = Some j -> f j = j) -> core rt -> core (set_job rt p f).
Proof.
  intros Hf Hc. assert (set_job rt p f = rt) as ->; [|done].
  destruct rt. unfold set_job, with_heap. simpl. f_equal. apply map_eq. intros q.
  destruct (decide (q = p)) as [->|]; [|by rewrite lookup_alter_ne]. rewrite lookup_alter_eq.
  simpl in Hf. destruct (_ !! p) as [j|] eqn:E; [|done]. simpl. by rewrite Hf.
Qed.
Lemma drain_ok fuel now msec dial rt :
  core rt -> pumping rt = true ->
  moved rt (drain_loop fuel now msec dial rt).1 (drain_loop fuel now msec dial rt).2
  /\ core (drain_loop fuel now msec dial rt).2.
Proof.
  revert rt. induction fuel as [|f IH]; intros rt Hc Hp; cbn [drain_loop]; [by split; [apply moved_refl|]|].
  destruct (Nat.ltb_spec (length (active rt)) (connections (config rt))) as [Hl|];
    [|by split; [apply moved_refl|]].
  destruct (pending rt) as [|p rest] eqn:Ep; [by split; [apply moved_refl|]|].
  pose proof (core_promote _ _ _ Hc Ep Hl) as Hc1.
  assert (exists j, heap rt !! p = Some j /\ health j = false) as (j & Hj & Hh)
    by (apply (core_queued _ Hc); rewrite Ep; set_solver).
  set (rt1 := with_queues rt rest (active rt ++ [p])) in *.
  destruct (connect_ok (complete_pumping now msec) dial rt1 p) as [Hm2 Hc2].
  - intros rt' p' Hc' Hp'. apply complete_ok; [apply pump_ok_nil|done|done].
  - apply set_job_id; [|done]. intros k Hk. change (heap rt1) with (heap rt) in Hk.
    rewrite Hj in Hk. injection Hk as <-. by rewrite Hh.
  - change (heap rt1) with (heap rt). by rewrite Hj.
  - destruct (connect_with _ dial rt1 p) as [cs1 rt2]. simpl in Hm2, Hc2.
    assert (moved rt cs1 rt2) as Hm3 by (destruct Hm2; by split).
    destruct (IH rt2) as [Hm4 Hc4]; [done|by rewrite (mv_pumping _ _ _ Hm3)|].
    destruct (drain_loop f now msec dial rt2) as [cs2 rt3]. split; [|done].
    exact (moved_trans _ _ _ _ _ Hm3 Hm4).
Qed.
Lemma pump_ok_drain now msec dial : pump_ok (drain now msec dial).
Proof. intros rt. unfold drain. apply drain_ok. Qed.

(** *** The queue is used up *)

Lemma complete_pumping_pending now msec rt p o fence :
  (length (pending (complete_pumping now msec rt p o fence).2) <= length (pending rt))%nat.
Proof.
  unfold complete_pumping, complete_with. destruct (heap rt !! p) as [job|]; [|done].
  pose proof (retire_queues now msec rt p job o fence) as Eq. pose proof (filter_shorter p (pending rt)).
  destruct (retire now msec rt p job o fence) as [o' rt1]. simpl in Eq.
  destruct (pumping rt1); simpl; destruct (health job); injection Eq as _ ->; lia.
Qed.
Lemma connect_pumping_pending now msec dial rt p :
  (length (pending (connect_with (complete_pumping now msec) dial rt p).2) <= length (pending rt))%nat.
Proof.
  unfold connect_with. destruct (dial p) as [|rc].
  - apply (complete_pumping_pending now msec (set_job rt p _)).
  - destruct ((rc =? NGX_ERROR) || _ || _); [|done].
    apply (complete_pumping_pending now msec (set_job (set_job rt p _) p plug)).
Qed.
Lemma drain_full fuel now msec dial rt :
  core rt -> pumping rt = true -> (length (pending rt) <= fuel)%nat ->
  let rt' := (drain_loop fuel now msec dial rt).2 in
  pending rt' <> [] -> (connections (config rt') <= length (active rt'))%nat.
Proof.
  revert rt. induction fuel as [|f IH]; intros rt Hc Hp Hf; cbn [drain_loop].
  { simpl. destruct (pending rt); [done|simpl in Hf; lia]. }
  destruct (Nat.ltb_spec (length (active rt)) (connections (config rt))) as [Hl|]; [|by simpl].
  destruct (pending rt) as [|p rest] eqn:Ep; [done|].
  pose proof (core_promote _ _ _ Hc Ep Hl) as Hc1.
  assert (exists j, heap rt !! p = Some j /\ health j = false) as (j & Hj & Hh)
    by (apply (core_queued _ Hc); rewrite Ep; set_solver).
  pose proof (connect_pumping_pending now msec dial (with_queues rt rest (active rt ++ [p])) p) as Hlen.
  set (rt1 := with_queues rt rest (active rt ++ [p])) in *.
  destruct (connect_ok (complete_pumping now msec) dial rt1 p) as [Hm2 Hc2].
  - intros rt' p' Hc' Hp'. apply complete_ok; [apply pump_ok_nil|done|done].
  - apply set_job_id; [|done]. intros k Hk. change (heap rt1) with (heap rt) in Hk.
    rewrite Hj in Hk. injection Hk as <-. by rewrite Hh.
  - change (heap rt1) with (heap rt). by rewrite Hj.
  - destruct (connect_with _ dial rt1 p) as [cs1 rt2]. simpl in Hm2, Hc2, Hlen.
    specialize (IH rt2). destruct (drain_loop f now msec dial rt2) as [cs2 rt3]. simpl in *.
    apply IH; [done|rewrite (mv_pumping _ _ _ Hm2); done|lia].
Qed.
Lemma complete_inv now msec dial rt p o fence :
  core rt -> pumping rt = false -> is_Some (heap rt !! p) ->
  inv (complete now msec dial rt p o fence).2.
Proof.
  intros Hc Hpu Hp. destruct (complete_ok (drain now msec dial) now msec rt p o fence) as [Hm Hcc];
    [apply pump_ok_drain|done|done|].
  unfold complete. split; [done|by rewrite (mv_pumping _ _ _ Hm)|].
  pose proof (core_active _ Hcc) as Hle. revert Hle Hm. clear Hcc.
  destruct Hp as [job Hp]. unfold complete_with. rewrite Hp.
  pose proof (core_retire now msec rt p job o fence Hc Hp) as Hcr.
  destruct (retire_heap now msec rt p job o fence) as (_ & _ & _ & Ep & _).
  destruct (retire now msec rt p job o fence) as [o' rt1]. simpl in Hcr, Ep.
  rewrite Ep, Hpu.
  pose proof (drain_full (length (pending rt1)) now msec dial (with_pumping rt1 true)
                ltac:(by apply core_with_pumping) eq_refl ltac:(done)) as Hd.
  change (length (pending rt1)) with (length (pending (with_pumping rt1 true))) in Hd.
  change (drain_loop _ _ _ _ _) with (drain now msec dial (with_pumping rt1 true)) in Hd.
  destruct (drain now msec dial (with_pumping rt1 true)) as [cs rt2]. simpl in *.
  intros Hle _ Hne. apply Hd in Hne. lia.
Qed.
Lemma connect_inv now msec dial rt p :
  core (set_job rt p (fun j => if health j then arm j else j)) -> is_Some (heap rt !! p) -> pumping rt = false ->
  (pending rt <> [] -> length (active rt) = connections (config rt)) ->
  inv (connect now msec dial rt p).2.
Proof.
  intros Hc [j Hj] Hpu Hb. unfold connect, connect_with.
  pose proof (set_job_Some rt p (fun j => if health j then arm j else j) j Hj) as Hs.
  destruct (dial p) as [|rc]; [apply complete_inv; [done|done|by rewrite Hs]|].
  assert (benign plug) as Hbp by done.
  pose proof (core_set_job _ p _ Hbp Hc) as Hc1. apply (set_job_Some _ p plug) in Hs.
  destruct ((rc =? NGX_ERROR) || _ || _); [apply complete_inv; [done|done|by rewrite Hs]|by split].
Qed.

(** *** New jobs *)

Lemma fresh_next rt : core rt -> heap rt !! next rt = None.
Proof.
  intros Hc. destruct (heap rt !! next rt) eqn:E; [|done].
  pose proof (core_next _ Hc (next rt) ltac:(by rewrite E)). lia.
Qed.
Lemma insert_lookup (h : gmap nat Job) p q j k :
  <[p := j]> h !! q = Some k <-> (q = p /\ k = j) \/ (q <> p /\ h !! q = Some k).
Proof.
  destruct (decide (q = p)) as [->|]; [rewrite lookup_insert_eq|rewrite lookup_insert_ne by done]; naive_solver.
Qed.
Lemma core_admit rt j act pend :
  core rt -> health j = false -> deadline_set j = true -> is_Some (grant j) ->
  act ++ pend ≡ₚ next rt :: (active rt ++ pending rt) ->
  (length act <= connections (config rt))%nat -> (length pend <= queue (config rt))%nat ->
  core (with_queues (alloc rt j).2 pend act).
Proof.
  intros Hc Hj Hd Hg Hperm Hla Hlp. pose proof (fresh_next _ Hc) as Hfresh.
  destruct Hc as [Hnd Hq Ha Hk Hn _ _ Hfe Hb Hh]. split; simpl; try done.
  - rewrite Hperm. constructor; [|done]. rewrite Hq. intros (k & Hk' & _). congruence.
  - intros q. rewrite Hperm, elem_of_cons, Hq. split.
    + intros [->|(k & Hk' & Hhk)]; [exists j; by rewrite lookup_insert_eq|].
      exists k. split; [|done]. apply insert_lookup. right. split; [|done]. intros ->. congruence.
    + intros (k & [[-> ->]|[_ Hk']]%insert_lookup & Hhk); [by left|right; eauto].
  - intros q k [[-> ->]|[_ Hk']]%insert_lookup; eauto.
  - intros q k [[-> ->]|[_ Hk']]%insert_lookup; [by rewrite Hj|by eapply Hk].
  - intros q [k [[-> ->]|[_ Hk']]%insert_lookup]; [lia|].
    pose proof (Hn q ltac:(eauto)). lia.
  - rewrite Hb. split; intros (q & k & Hk' & Hhk); exists q, k.
    + split; [|done]. apply insert_lookup. right. split; [|done]. intros ->. congruence.
    + apply insert_lookup in Hk' as [[-> ->]|[_ Hk']]; [congruence|done].
  - intros q1 q2 j1 j2 [[-> ->]|[_ H1]]%insert_lookup [[-> ->]|[_ H2]]%insert_lookup; try congruence.
    by apply Hh.
Qed.
Lemma core_probe rt j :
  core rt -> health_busy rt = false -> health j = true -> request j = None ->
  core (set_job (alloc (with_busy rt true) j).2 (next rt) (fun j => if health j then arm j else j)).
Proof.
  intros Hc Hbusy Hj Hr. pose proof (fresh_next _ Hc) as Hfresh.
  destruct Hc as [Hnd Hq Ha Hk Hn Hla Hlp Hfe Hb Hh].
  assert (forall q k, heap rt !! q = Some k -> health k = true -> False) as Hno.
  { intros q k Hk1 Hk2. enough (health_busy rt = true) by congruence. apply Hb. eauto. }
  assert (alter (fun j => if health j then arm j else j) (next rt) (<[next rt := j]> (heap rt))
          = <[next rt := arm j]> (heap rt)) as E.
  { apply map_eq. intros q. destruct (decide (q = next rt)) as [->|].
    - by rewrite lookup_alter_eq, !lookup_insert_eq; simpl; rewrite Hj.
    - by rewrite lookup_alter_ne, !lookup_insert_ne. }
  unfold set_job, with_heap. simpl. rewrite E. split; simpl; try done.
  - intros q. rewrite Hq. split; intros (k & Hk' & Hhk); exists k.
    + split; [|done]. apply insert_lookup. right. split; [|done]. intros ->. congruence.
    + apply insert_lookup in Hk' as [[-> ->]|[_ Hk']]; [simpl in Hhk; congruence|done].
  - intros q k [[-> ->]|[_ Hk']]%insert_lookup; [done|eauto].
  - intros q k [[-> ->]|[_ Hk']]%insert_lookup; [by simpl; rewrite Hj|by eapply Hk].
  - intros q [k [[-> ->]|[_ Hk']]%insert_lookup]; [lia|]. pose proof (Hn q ltac:(eauto)). lia.
  - split; [|done]. intros _. exists (next rt), (arm j). by rewrite lookup_insert_eq.
  - intros q1 q2 j1 j2 [[-> ->]|[_ H1]]%insert_lookup [[-> ->]|[_ H2]]%insert_lookup; try done;
      intros; exfalso; eauto.
Qed.
Lemma owed_alloc rt j :
  core rt -> owed (alloc rt j).2 ≡ₚ option_list (request j) ++ owed rt.
Proof. intros Hc. unfold owed, alloc. simpl. apply owed_insert. by apply fresh_next. Qed.

(** ** One event *)

Record stepped (rt : Runtime) (ev : Event) (cs : list Completion) (rt' : Runtime) : Prop := mkStepped {
  st_inv : inv rt';
  st_owed : owed rt ++ asked ev ≡ₚ answered cs ++ dropped rt ev ++ owed rt';
  st_config : config rt' = config rt;
  st_fenced : fenced rt = true -> fenced rt' = true;
}.
Lemma stepped_moved rt ev cs rt' :
  asked ev = [] -> dropped rt ev = [] -> moved rt cs rt' -> inv rt' -> stepped rt ev cs rt'.
Proof.
  intros Ea Ed [Mo Mc Mp Mf] Hi. split; [done| |done|done]. by rewrite Ea, Ed, app_nil_r, Mo.
Qed.
Lemma complete_step now msec dial rt p o fence :
  core rt -> pumping rt = false -> is_Some (heap rt !! p) ->
  moved rt (complete now msec dial rt p o fence).1 (complete now msec dial rt p o fence).2
  /\ inv (complete now msec dial rt p o fence).2.
Proof.
  intros Hc Hpu Hp. split; [|by apply complete_inv]. apply complete_ok; [apply pump_ok_drain|done|done].
Qed.
Lemma connect_step now msec dial rt p :
  core (set_job rt p (fun j => if health j then arm j else j)) -> is_Some (heap rt !! p) -> pumping rt = false ->
  (pending rt <> [] -> length (active rt) = connections (config rt)) ->
  moved rt (connect now msec dial rt p).1 (connect now msec dial rt p).2
  /\ inv (connect now msec dial rt p).2.
Proof.
  intros Hc Hp Hpu Hb. split; [|by apply connect_inv]. apply connect_ok; [|done|done].
  intros. apply complete_ok; [apply pump_ok_drain|done|done].
Qed.
Lemma inv_set_job rt p f : benign f -> inv rt -> inv (set_job rt p f).
Proof. intros Hf [Hc Hp Hb]. split; [by apply core_set_job|done|done]. Qed.
Lemma set_job_step now msec dial rt p f o fence :
  benign f -> inv rt -> is_Some (heap rt !! p) ->
  moved rt (complete now msec dial (set_job rt p f) p o fence).1 (complete now msec dial (set_job rt p f) p o fence).2
  /\ inv (complete now msec dial (set_job rt p f) p o fence).2.
Proof.
  intros Hf Hi [j Hj]. pose proof (inv_set_job rt p f Hf Hi) as [Hc Hpu _].
  destruct (complete_step now msec dial (set_job rt p f) p o fence) as [Hm Hi'];
    [done|done|by rewrite (set_job_Some _ _ _ j)|].
  split; [|done]. exact (moved_trans _ _ _ _ _ (moved_set_job rt p f Hf) Hm).
Qed.
Lemma poll_step w rt exiting : inv rt -> stepped rt (Poll exiting) (handle w rt (Poll exiting)).1 (handle w rt (Poll exiting)).2.
Proof.
  intros Hi. pose proof Hi as [Hc Hp Hb]. apply stepped_moved; [done|done|..]; simpl; unfold poll.
  all: destruct exiting; [first [by apply moved_refl|done]|].
  all: destruct (negb (health_busy rt) && negb (fenced rt)) eqn:E; [|first [by apply moved_refl|done]].
  all: apply andb_true_iff in E as [Eb%negb_true_iff _]; cbn [alloc];
    set (job := make_job _ _ _ _ _ _ _);
    pose proof (core_probe rt job Hc Eb eq_refl eq_refl) as Hcp;
    pose proof (owed_alloc (with_busy rt true) job) as Ho;
    destruct (connect_step (now w) (msec w) (dial w) (alloc (with_busy rt true) job).2 (next rt)) as [Hm Hi'];
    [exact Hcp|simpl; rewrite lookup_insert_eq; by eexists|done|done|].
  - destruct Hm as [Mo Mc Mp Mf]. split; [|done..].
    rewrite <- Mo. symmetry. unfold owed. simpl. rewrite owed_insert by (by apply fresh_next). done.
  - done.
Qed.
Lemma redeem_step w rt r token e g :
  inv rt -> stepped rt (Redeem r token e g) (handle w rt (Redeem r token e g)).1 (handle w rt (Redeem r token e g)).2.
Proof.
  intros Hi. pose proof Hi as [Hc Hp Hb]. simpl. unfold redeem.
  assert (stepped rt (Redeem r token e g) [(r, Full, g)] rt) as Hfull
    by (split; [done| |done|done]; simpl; apply Permutation_app_comm).
  destruct (negb (ready_now rt (msec w))); [done|].
  destruct (_ && _) eqn:Efull; [done|]. clear Hfull.
  set (job := arm (make_job _ _ _ _ _ _ _)). cbn [alloc]. simpl.
  pose proof (core_active _ Hc) as Hla. pose proof (core_pending _ Hc) as Hlp.
  assert (owed rt ++ [r] ≡ₚ owed (alloc rt job).2) as Ho by (rewrite owed_alloc by done; apply Permutation_app_comm).
  destruct (Nat.ltb_spec (length (active rt)) (connections (config rt))) as [Hl|Hl].
  - assert (core (with_queues (alloc rt job).2 (pending rt) (active rt ++ [next rt]))) as Hca.
    { apply core_admit; try done; [rewrite <- app_assoc; simpl; symmetry; apply Permutation_middle|rewrite length_app; simpl; lia]. }
    destruct (connect_step (now w) (msec w) (dial w) (with_queues (alloc rt job).2 (pending rt) (active rt ++ [next rt])) (next rt))
      as [[Mo Mc Mp Mf] Hi'].
    + apply set_job_id; [|done]. intros k. simpl. rewrite lookup_insert_eq. by intros [= <-].
    + simpl. rewrite lookup_insert_eq. by eexists.
    + done.
    + simpl. intros Hne. apply Hb in Hne. lia.
    + split; [done| |done|done]. simpl. rewrite Ho, <- Mo. done.
  - split; [|by simpl; rewrite Ho|done|done]. split; [|done|by simpl; lia].
    apply core_admit; try done.
    + rewrite app_assoc. symmetry. apply Permutation_cons_append.
    + rewrite length_app. simpl. to_prop. apply andb_false_iff in Efull as [Hx|Hx]; to_prop; lia.
Qed.
Lemma socket_step w rt ev :
  inv rt -> fires rt ev ->
  match ev with Writable _ _ _ _ _ | Readable _ _ _ | Timeout _ => True | _ => False end ->
  stepped rt ev (handle w rt ev).1 (handle w rt ev).2.
Proof.
  intros Hi Hf Hk. pose proof Hi as [Hc Hp _].
  assert (forall p f, benign f -> moved rt [] (set_job rt p f) /\ inv (set_job rt p f)) as Hset
    by (intros p f Hben; split; [by apply moved_set_job|by apply inv_set_job]).
  assert (moved rt (handle w rt ev).1 (handle w rt ev).2 /\ inv (handle w rt ev).2) as [Hm Hi'].
  { destruct ev as [|r t e g|p err send rw rr|p recvs rearm|p|p]; try done;
      destruct Hf as (j & Hj & _); simpl; unfold write, read, timeout; rewrite ?Hj.
    - destruct err; [apply complete_step; by rewrite ?Hj|].
      destruct (write_loop _ _ _ _ _ _) as [n failed].
      destruct failed; [apply set_job_step; by rewrite ?Hj|by apply Hset].
    - destruct (read_loop _ _ _ _) as [[o fence]|[i a]]; [apply complete_step; by rewrite ?Hj|by apply Hset].
    - apply complete_step; by rewrite ?Hj. }
  apply stepped_moved; [by destruct ev|by destruct ev|done|done].
Qed.
Lemma abort_step w rt p :
  inv rt -> fires rt (Abort p) -> stepped rt (Abort p) (handle w rt (Abort p)).1 (handle w rt (Abort p)).2.
Proof.
  intros [Hc Hp Hb] (j & Hj & r & Hr). simpl. unfold aborted.
  assert (health j = false) as Hh.
  { pose proof (core_kind _ Hc p j Hj) as Hk. destruct (health j); [congruence|done]. }
  assert (owed rt ≡ₚ r :: owed (set_job rt p orphan)) as Ho.
  { unfold owed, set_job. simpl. rewrite (owed_delete _ _ _ Hj), Hr. simpl. constructor.
    rewrite (owed_delete (alter orphan p (heap rt)) p (orphan j)) by (by rewrite lookup_alter_eq, Hj). simpl.
    replace (delete p (alter orphan p (heap rt))) with (delete p (heap rt)); [done|].
    apply map_eq. intros q. destruct (decide (q = p)) as [->|].
    + by rewrite !lookup_delete_eq.
    + by rewrite !lookup_delete_ne, lookup_alter_ne by done. }
  assert (core (set_job rt p orphan)) as Hco.
  { destruct Hc as [Hnd Hq Ha Hk Hn Hla Hlp Hfe Hbu Hhe]. split; try done; simpl.
    - intros q. rewrite Hq. split.
      + intros (k & Hk' & Hhk). eexists. split; [apply alter_lookup; eauto|]. by case_decide.
      + intros (k & (k0 & Hk0 & ->)%alter_lookup & Hhk). exists k0. split; [done|]. by case_decide.
    - intros q k (k0 & Hk0 & ->)%alter_lookup. pose proof (Ha q k0 Hk0). by case_decide.
    - intros q k (k0 & Hk0 & ->)%alter_lookup. pose proof (Hk q k0 Hk0). case_decide; [|done].
      simpl. by destruct (health k0).
    - intros q [k (k0 & Hk0 & ->)%alter_lookup]. apply Hn. eauto.
    - rewrite Hbu. split.
      + intros (q & k & Hk' & Hhk). exists q. eexists. split; [apply alter_lookup; eauto|]. by case_decide.
      + intros (q & k & (k0 & Hk0 & ->)%alter_lookup & Hhk). exists q, k0. split; [done|]. by case_decide.
    - intros q1 q2 j1 j2 (k1 & H1 & ->)%alter_lookup (k2 & H2 & ->)%alter_lookup Hh1 Hh2.
      apply (Hhe q1 q2 k1 k2); [done|done|by repeat case_decide|by repeat case_decide]. }
  destruct (complete_step (now w) (msec w) (dial w) (set_job rt p orphan) p Full false) as [[Mo Mc Mp Mf] Hi'];
    [done|done|by rewrite (set_job_Some _ _ _ j)|].
  split; [done| |done|done]. simpl. rewrite Hj, Hr, app_nil_r, Ho. simpl. rewrite <- Permutation_middle. by rewrite Mo.
Qed.
Lemma handle_step w rt ev :
  inv rt -> fires rt ev -> stepped rt ev (handle w rt ev).1 (handle w rt ev).2.
Proof.
  intros Hi Hf. destruct ev; [by apply poll_step|by apply redeem_step|by apply socket_step..|by apply abort_step].
Qed.
Lemma inv_start c rt : activate (Some c) = Some rt -> inv rt.
Proof.
  intros [= <-]. split; [|done|done]. split; simpl; try done; try (intros; lia).
  - constructor.
  - intros p. split; [set_solver|]. intros (j & E & _). by rewrite lookup_empty in E.
  - intros p [j E]. by rewrite lookup_empty in E.
  - split; [done|]. intros (p & j & E & _). by rewrite lookup_empty in E.
Qed.
Lemma reach_inv c rt rs cs ab :
  reach c rt rs cs ab -> inv rt /\ config rt = c /\ rs ≡ₚ answered cs ++ ab ++ owed rt.
Proof.
  induction 1 as [rt E|rt rs cs ab w ev cs' rt' _ (Hi & Hcfg & Hp) Hf E].
  - split; [by eapply inv_start|]. injection E as <-. done.
  - pose proof (handle_step w rt ev Hi Hf) as [Hi' Ho Hc _]. rewrite E in *. simpl in *.
    split; [done|]. split; [congruence|]. unfold answered in *. rewrite map_app, Hp, <- !app_assoc.
    rewrite Ho. apply Permutation_app_head, Permutation_app_swap_app.
Qed.

(** ** Who is accepted *)

Definition all_full (cs : list Completion) : Prop := Forall (fun c => c.1.2 = Full) cs.
Lemma answer_full job : all_full (answer job Full).
Proof. unfold answer. destruct (request job), (grant job); repeat constructor. Qed.
Lemma retire_outcome now msec rt p job o fence :
  (retire now msec rt p job o fence).1 =
  if negb (health job) && bool_decide (o = Accepted) && (expires job <=? now) then Expired else o.
Proof. unfold retire. by destruct fence, (health job). Qed.
Lemma complete_pumping_full now msec rt p fence : all_full (complete_pumping now msec rt p Full fence).1.
Proof.
  unfold complete_pumping, complete_with. destruct (heap rt !! p) as [job|]; [|constructor].
  pose proof (retire_outcome now msec rt p job Full fence) as Eo.
  destruct (retire now msec rt p job Full fence) as [o' rt1].
  rewrite bool_decide_eq_false_2, andb_false_r in Eo by done. simpl in Eo. subst o'.
  destruct (pumping rt1); apply answer_full.
Qed.
Lemma connect_full complete dial rt p :
  (forall rt p, all_full (complete rt p Full false).1) -> all_full (connect_with complete dial rt p).1.
Proof.
  intros Hf. unfold connect_with. destruct (dial p); [apply Hf|].
  destruct ((_ =? NGX_ERROR) || _ || _); [apply Hf|constructor].
Qed.
Lemma drain_loop_full fuel now msec dial rt : all_full (drain_loop fuel now msec dial rt).1.
Proof.
  revert rt. induction fuel as [|f IH]; intros rt; cbn [drain_loop]; [constructor|].
  case_match; [|constructor]. destruct (pending rt) as [|p rest]; [constructor|].
  pose proof (connect_full (complete_pumping now msec) dial (with_queues rt rest (active rt ++ [p])) p) as Hf.
  destruct (connect_with _ dial _ p) as [cs1 rt2]. specialize (IH rt2).
  destruct (drain_loop f now msec dial rt2) as [cs2 rt3]. simpl in *. unfold all_full in *. apply Forall_app. split; [|done].
  apply Hf. intros. apply complete_pumping_full.
Qed.
(** What [complete] answers: failures of the queue it drains, then its own job. *)
Lemma complete_answers now msec dial rt p job o fence :
  heap rt !! p = Some job ->
  exists before, all_full before /\
  (complete now msec dial rt p o fence).1 = before ++ answer job
    (if negb (health job) && bool_decide (o = Accepted) && (expires job <=? now) then Expired else o).
Proof.
  intros Hp. unfold complete, complete_with. rewrite Hp. rewrite <- (retire_outcome now msec rt p job o fence).
  destruct (retire now msec rt p job o fence) as [o' rt1]. simpl.
  destruct (pumping rt1); [by exists []; split; [constructor|]|]. unfold drain.
  pose proof (drain_loop_full (length (pending (with_pumping rt1 true))) now msec dial (with_pumping rt1 true)) as Hf.
  destruct (drain_loop _ now msec dial (with_pumping rt1 true)) as [cs rt2]. by exists cs.
Qed.
Lemma complete_full now msec dial rt p fence : all_full (complete now msec dial rt p Full fence).1.
Proof.
  destruct (heap rt !! p) as [job|] eqn:Hp.
  - destruct (complete_answers now msec dial rt p job Full fence Hp) as (before & Hb & ->).
    rewrite bool_decide_eq_false_2, andb_false_r by done. apply Forall_app. split; [done|apply answer_full].
  - unfold complete, complete_with. rewrite Hp. constructor.
Qed.
(** The bytes [s] are what the server says to accept: the reply to AUTH while one is
    outstanding, which is [+OK], and then the integer reply 1. *)
Definition accepting (auth : bool) (s : bytes) : Prop :=
  if auth then
    exists ok one, s = ok ++ one /\ reply ok = inr (Some (Redis.Ok, length ok))
      /\ reply one = inr (Some (Integer 1, length one))
  else reply s = inr (Some (Integer 1, length s)).
Lemma replies_accepted fuel input auth fence :
  replies fuel input auth = inl (Accepted, fence) ->
  fence = false /\ exists s, s `prefix_of` input /\ accepting auth s.
Proof.
  revert input auth. induction fuel as [|f IH]; intros input auth; cbn [replies]; [done|].
  destruct (reply input) as [|[[rep used]|]] eqn:E; [done| |done].
  destruct (reply_exact _ _ _ E) as [El En]. destruct auth.
  - case_bool_decide as Hok; [|done]. subst rep. intros (-> & s & Hs & Ha)%IH. split; [done|].
    exists (take used input ++ s). split.
    + rewrite <- (take_drop used input) at 2. by apply prefix_app.
    + exists (take used input), s. by rewrite En.
  - intros H. injection H as H. destruct rep as [v| | |]; try done.
    destruct (Z.eqb_spec v 1) as [->|]; [|by repeat case_match]. injection H as <-. split; [done|].
    exists (take used input). split; [by apply prefix_take|]. simpl. by rewrite En.
Qed.
(** What is left when the replies do not decide: everything, or what follows [+OK]. *)
Lemma replies_rest fuel input auth i a :
  replies fuel input auth = inr (i, a) ->
  (i = input /\ a = auth)
  \/ (auth = true /\ a = false /\ exists ok, reply ok = inr (Some (Redis.Ok, length ok)) /\ input = ok ++ i).
Proof.
  revert input auth. induction fuel as [|f IH]; intros input auth; cbn [replies]; [intros [= <- <-]; auto|].
  destruct (reply input) as [|[[rep used]|]] eqn:E; [done| |intros [= <- <-]; auto].
  destruct auth; [|done]. case_bool_decide as Hok; [|done]. subst rep. intros Hr.
  destruct (reply_exact _ _ _ E) as [El En]. right.
  apply IH in Hr as [[-> ->]|(? & _)]; [|done]. split; [done|]. split; [done|].
  exists (take used input). rewrite En. split; [done|]. by rewrite take_drop.
Qed.
Lemma read_loop_accepted recvs rearm input auth fence :
  read_loop recvs rearm input auth = inl (Accepted, fence) ->
  fence = false /\ exists s, s `prefix_of` input ++ received recvs /\ accepting auth s.
Proof.
  revert input auth. induction recvs as [|x recvs IH]; intros input auth; cbn [read_loop received]; [by case_match|].
  destruct x as [| |[|b c]]; [by case_match|done|done|]. case_match; [done|].
  rewrite app_assoc. set (buf := input ++ b :: c).
  destruct (replies 2 buf auth) as [[o f]|[i a]] eqn:E.
  - intros [= -> ->]. apply replies_accepted in E as (-> & s & Hs & Ha). split; [done|]. exists s.
    split; [by apply prefix_app_r|done].
  - intros (-> & s & Hs & Ha)%IH. split; [done|].
    apply replies_rest in E as [[-> ->]|(-> & -> & ok & Hok & Hbuf)]; [by exists s|].
    exists (ok ++ s). split; [rewrite Hbuf, <- app_assoc; by apply prefix_app|]. by exists ok, s.
Qed.

(** The only way to an acceptance. *)
Lemma accepted_from_read w rt ev r g :
  inv rt -> fires rt ev -> (r, Accepted, g) ∈ (handle w rt ev).1 ->
  exists p recvs rearm j, ev = Readable p recvs rearm /\ heap rt !! p = Some j
    /\ request j = Some r /\ grant j = Some g /\ now w < expires j
    /\ read_loop recvs rearm (input j) (auth j) = inl (Accepted, false)
    /\ exists s, s `prefix_of` input j ++ received recvs /\ accepting (auth j) s.
Proof.
  intros Hi Hf Hin. destruct Hi as [Hc _ _].
  assert (forall cs, all_full cs -> (r, Accepted, g) ∈ cs -> False) as Hno.
  { intros cs Hall Hx. unfold all_full in Hall. rewrite Forall_forall in Hall. by apply Hall in Hx. }
  destruct ev as [exiting|r' t e g'|p err send rw rr|p recvs rearm|p|p]; simpl in Hin.
  - exfalso. eapply Hno; [|exact Hin]. unfold poll. case_match; [constructor|]. case_match; [|constructor].
    apply connect_full. intros. apply complete_full.
  - exfalso. eapply Hno; [|exact Hin]. unfold redeem. case_match; [by repeat constructor|].
    case_match; [by repeat constructor|]. cbn [alloc]. case_match; [|constructor].
    apply connect_full. intros. apply complete_full.
  - exfalso. eapply Hno; [|exact Hin]. unfold write. destruct (heap rt !! p); [|constructor].
    destruct err; [apply complete_full|]. destruct (write_loop _ _ _ _ _ _) as [n []]; [apply complete_full|constructor].
  - destruct Hf as (j & Hj & _). unfold read in Hin. rewrite Hj in Hin.
    destruct (read_loop recvs rearm (input j) (auth j)) as [[o fence]|[i a]] eqn:Er; [|set_solver].
    destruct (complete_answers (now w) (msec w) (dial w) rt p j o fence Hj) as (before & Hb & E). rewrite E in Hin.
    apply elem_of_app in Hin as [Hin|Hin]; [by exfalso; eapply Hno|]. unfold answer in Hin.
    destruct (request j) as [r0|] eqn:Hr; [|set_solver]. destruct (grant j) as [g0|] eqn:Hg; [|set_solver].
    apply list_elem_of_singleton in Hin. injection Hin as <- Ho <-.
    pose proof (core_kind _ Hc p j Hj) as Hk. destruct (health j) eqn:Hh; [congruence|]. simpl in Ho.
    destruct (bool_decide (o = Accepted)) eqn:Eo; [|simpl in Ho; subst o; by rewrite bool_decide_eq_true_2 in Eo].
    apply bool_decide_eq_true in Eo as ->. simpl in Ho. revert Ho.
    destruct (Z.leb_spec (expires j) (now w)); [done|intros _].
    destruct (read_loop_accepted _ _ _ _ _ Er) as (-> & Hbuf).
    exists p, recvs, rearm, j. split_and!; done.
  - exfalso. eapply Hno; [|exact Hin]. apply complete_full.
  - exfalso. eapply Hno; [|exact Hin]. apply complete_full.
Qed.

(** A deadline that fires answers the request of its job. *)
Lemma timeout_answers w rt p j r :
  heap rt !! p = Some j -> request j = Some r -> inv rt -> r ∈ answered (handle w rt (Timeout p)).1.
Proof.
  intros Hj Hr [Hc _ _]. simpl. unfold timeout.
  destruct (complete_answers (now w) (msec w) (dial w) rt p j Full false Hj) as (before & _ & ->).
  unfold answered. rewrite map_app, elem_of_app. right.
  fold (answered (answer j (if negb (health j) && bool_decide (Full = Accepted) && (expires j <=? now w) then Expired else Full))).
  rewrite (answered_answer rt p) by done. rewrite Hr. simpl. set_solver.
Qed.

(** ** Properties *)

(** C22: Nobody waits for ever and nobody is answered twice.  Over any history of a worker
    (polls, redemptions, socket events, timeouts, clients that leave, with any answers of
    the network), the requests handed in are exactly those answered, those that left and
    those still waiting, each once; and each one still waiting has its deadline armed, whose
    firing answers it. *)
Theorem every_redemption_answered c rt rs cs ab :
  reach c rt rs cs ab ->
  rs ≡ₚ answered cs ++ ab ++ owed rt
  /\ (forall p j r, heap rt !! p = Some j -> request j = Some r ->
        fires rt (Timeout p) /\ forall w, r ∈ answered (handle w rt (Timeout p)).1).
Proof.
  intros (Hi & _ & Hp)%reach_inv. split; [done|]. intros p j r Hj Hr. split.
  - exists j. split; [done|]. by eapply core_armed; [apply inv_core|].
  - intros w. by apply (timeout_answers w rt p j).
Qed.

(** C25: The bounds hold in every history: connections and queue stay within their
    configured sizes, a job waits in the queue only while every connection is in use, no
    queue holds a freed job or one job twice, and the worker never has more jobs than
    connections, queue places and one health check. *)
Theorem cluster_bounded c rt rs cs ab :
  reach c rt rs cs ab ->
  (length (active rt) <= connections c)%nat /\ (length (pending rt) <= queue c)%nat
  /\ (pending rt <> [] -> length (active rt) = connections c)
  /\ NoDup (active rt ++ pending rt)
  /\ Forall (fun p => is_Some (heap rt !! p)) (active rt ++ pending rt)
  /\ (size (heap rt) <= connections c + queue c + 1)%nat.
Proof.
  intros ([Hc _ Hb] & <- & _)%reach_inv.
  split; [by apply core_active|]. split; [by apply core_pending|]. split; [done|].
  split; [by apply core_nodup|]. split.
  { apply Forall_forall. intros p (j & -> & _)%(core_queued _ Hc). by eexists. }
  pose proof (core_active _ Hc). pose proof (core_pending _ Hc).
  assert (exists h, (length h <= 1)%nat /\ forall p j, heap rt !! p = Some j -> p ∈ (active rt ++ pending rt) ++ h) as (h & Hh & Hin).
  { destruct (health_busy rt) eqn:E.
    - apply (core_busy _ Hc) in E as (q & k & Hk & Hhk). exists [q]. split; [done|]. intros p j Hj.
      destruct (health j) eqn:Ej; [rewrite (core_health _ Hc p q j k) by done; set_solver|].
      apply elem_of_app. left. apply (core_queued _ Hc). eauto.
    - exists []. split; [simpl; lia|]. intros p j Hj. rewrite app_nil_r. apply (core_queued _ Hc). exists j.
      split; [done|]. destruct (health j) eqn:Ej; [|done].
      enough (health_busy rt = true) by congruence. apply (core_busy _ Hc). eauto. }
  assert ((map_to_list (heap rt)).*1 ⊆+ (active rt ++ pending rt) ++ h) as Hsub.
  { apply NoDup_submseteq; [apply NoDup_fst_map_to_list|]. intros p ([q j] & -> & Hj)%list_elem_of_fmap.
    apply elem_of_map_to_list in Hj. eauto. }
  apply submseteq_length in Hsub. rewrite length_fmap, !length_app in Hsub.
  rewrite <- length_map_to_list. lia.
Qed.

(** C23: Only the server accepts, and only in time.  If an event makes the worker answer a
    request with [Accepted], that event is input on the connection of that request's own
    job; the bytes unread on that connection, those left from earlier reads and those of this
    event, start with the line of the integer reply 1, after the line [+OK] when the reply to
    AUTH is outstanding; the token has not expired at that moment; and the grant released is
    the one that came with the request. *)
Theorem accepted_means_accepted w rt ev r g :
  inv rt -> fires rt ev -> (r, Accepted, g) ∈ (handle w rt ev).1 ->
  exists p recvs rearm j, ev = Readable p recvs rearm /\ heap rt !! p = Some j
    /\ request j = Some r /\ grant j = Some g /\ now w < expires j
    /\ read_loop recvs rearm (input j) (auth j) = inl (Accepted, false)
    /\ exists s, s `prefix_of` input j ++ received recvs /\ accepting (auth j) s.
Proof. apply accepted_from_read. Qed.

(** C24: A fence is final.  Once the server has disowned the epoch, every event leaves the
    worker fenced: no issuer identity, never available, and each redemption is refused on
    the spot. *)
Theorem fence_is_final w rt ev :
  inv rt -> fires rt ev -> fenced rt = true ->
  let rt' := (handle w rt ev).2 in
  inv rt' /\ fenced rt' = true /\ issuer (Some rt') = None
  /\ (forall msec, available (Some rt') msec = false)
  /\ (forall w' r token e g, handle w' rt' (Redeem r token e g) = ([(r, Full, g)], rt')).
Proof.
  intros Hi Hf Hfe. destruct (handle_step w rt ev Hi Hf) as [Hi' _ _ Hfe']. specialize (Hfe' Hfe). cbn zeta.
  set (rt' := (handle w rt ev).2) in *. clearbody rt'.
  assert (forall msec, ready_now rt' msec = false) as Hr
    by (intros; unfold ready_now; rewrite Hfe'; simpl; by rewrite andb_false_r).
  split_and!; [done|done|by simpl; rewrite Hfe'|done|].
  intros. simpl. unfold redeem. by rewrite Hr.
Qed.
End events.

(** ** Witnesses *)

Section exec.
Context {S : Sha256}.
Fixpoint exec (rt : Runtime) (evs : list (World * Event)) : list Completion * Runtime :=
  match evs with
  | [] => ([], rt)
  | (w, ev) :: evs' =>
      let '(cs, rt) := handle w rt ev in let '(cs', rt) := exec rt evs' in (cs ++ cs', rt)
  end.
Fixpoint fires_all (rt : Runtime) (evs : list (World * Event)) : Prop :=
  match evs with
  | [] => True
  | (w, ev) :: evs' => fires rt ev /\ fires_all (handle w rt ev).2 evs'
  end.
Lemma reach_exec c rt rs cs ab evs :
  reach c rt rs cs ab -> fires_all rt evs ->
  exists rs' ab', reach c (exec rt evs).2 (rs ++ rs') (cs ++ (exec rt evs).1) (ab ++ ab').
Proof.
  revert rt rs cs ab. induction evs as [|[w ev] evs IH]; intros rt rs cs ab Hr Hf; simpl.
  { exists [], []. by rewrite !app_nil_r. }
  destruct Hf as [Hf1 Hf2]. destruct (handle w rt ev) as [cs1 rt1] eqn:E. simpl in *.
  destruct (IH rt1 _ _ _ ltac:(by eapply reach_step) Hf2) as (rs' & ab' & Hr').
  destruct (exec rt1 evs) as [cs2 rt2]. simpl in *. exists (asked ev ++ rs'), (dropped rt ev ++ ab').
  by rewrite !app_assoc in *.
Qed.
End exec.

(** ** The configuration and the wire *)

Definition lower_hex (b : byte) : bool := is_ascii_hexdigit b && negb (is_ascii_uppercase b).
Record valid_config {S : Sha256} (c : Config) : Prop := mkValid {
  vc_timeout : 10 <= cfg_timeout c <= 5000;
  vc_connections : (1 <= connections c <= 32)%nat;
  vc_queue : (queue c <= 1024)%nat;
  vc_skew : 1 <= skew c <= 60;
  vc_namespace : namespace c <> [] /\ (length (namespace c) <= 64)%nat /\ forallb name_byte (namespace c) = true;
  vc_epoch : length (cfg_epoch c) = 64%nat /\ forallb lower_hex (cfg_epoch c) = true;
  vc_issuer : cfg_issuer c = Redemption.id (bs "redis:" ++ namespace c ++ bs ":" ++ cfg_epoch c);
  vc_username : (length (username c) <= 128)%nat;
  vc_password : (length (password c) <= 512)%nat;
  vc_login : username c <> [] -> password c <> [];
}.
Lemma lowercase_hex s :
  forallb is_ascii_hexdigit (to_ascii_lowercase s) = true -> forallb lower_hex (to_ascii_lowercase s) = true.
Proof.
  rewrite !forallb_Forall. unfold to_ascii_lowercase. rewrite !Forall_map. intros H.
  apply (Forall_impl _ _ _ H). intros b Hb. unfold lower_hex. by rewrite Hb, ascii_lower_no_upper.
Qed.
Lemma number_u_range values k d v :
  0 <= d < 2 ^ 64 -> number (parse_u 64) values k d = Some v -> 0 <= v < 2 ^ 64.
Proof.
  unfold number. intros Hd. case_match; [intros E%parse_u_range; by apply in_u_iff|by intros [= <-]].
Qed.
Lemma parse_config_valid {S : Sha256} read values c : parse_config read values = Some c -> valid_config c.
Proof.
  unfold parse_config. intros E.
  destruct (values !! bs "address") as [a|]; [|done]. destruct (parse_socket a) as [sa|]; [|done].
  destruct (values !! bs "namespace") as [ns|]; [|done].
  destruct (beq ns [] || _ || _) eqn:Ens; [done|].
  destruct (values !! bs "epoch_file") as [f|]; [|done]. destruct (read f) as [raw|]; [|done].
  destruct (utf8_valid raw); [|done]. simpl negb in E. cbv iota in E.
  set (ep := to_ascii_lowercase (trim raw)) in *.
  destruct (negb (length ep =? 64)%nat || _) eqn:Eep; [done|].
  match type of E with context [match ?x with Some password => _ | None => None end] =>
    destruct x as [pw|] eqn:Epw; [|done] end.
  destruct ((128 <? _)%nat || _) eqn:Eu; [done|].
  destruct (number (parse_u 64) values "timeout" 500) as [t|]; [|done].
  destruct (number (parse_u 64) values "connections" 4) as [cn|] eqn:Ecn; [|done].
  destruct (number (parse_u 64) values "queue" 64) as [q|] eqn:Eq; [|done].
  destruct (number (parse_i 64) values "clock_skew" 5) as [sk|]; [|done].
  match type of E with (if ?b then _ else _) = _ => destruct b eqn:Er; [done|] end. injection E as <-.
  apply number_u_range in Ecn; [|lia]. apply number_u_range in Eq; [|lia].
  repeat (apply orb_false_iff in Er as [Er ?]). to_prop.
  split; simpl; try lia.
  - split; [by apply beq_false|done].
  - split; [lia|by apply lowercase_hex].
  - done.
  - destruct (values !! bs "password_file"); [|by injection Epw as <-; simpl; lia].
    repeat split_match_in Epw. to_prop. lia.
  - intros Hu Hp. subst pw. match goal with H : (negb _ && _)%bool = false |- _ => revert H end.
    rewrite (proj2 (beq_false _ _)) by done. by rewrite beq_refl.
Qed.

(** A cluster block that is accepted is sane.  The timeout is 10 to 5000 ms, there are 1
    to 32 connections and at most 1024 queue places, the skew is 1 to 60 seconds; the
    namespace is 1 to 64 letters, digits, [-] or [_] (it cannot close the hash tag of the
    keys), the epoch 64 lower-case hex digits, the issuer the hash of both; a user name
    comes with a password; and a second block is refused. *)
Theorem cluster_config_valid {S : Sha256} cluster read block c :
  configure cluster read block = Some c -> cluster = None /\ valid_config c.
Proof.
  unfold configure. destruct cluster; [done|]. destruct (parse_block ∅ block); [|done].
  intros E. split; [done|by eapply parse_config_valid].
Qed.
Definition demo_read (p : bytes) : option bytes :=
  if beq p (bs "/epoch") then Some (replicate 63 "A"%byte ++ bs "0" ++ [Byte.x0a])
  else if beq p (bs "/pw") then Some (bs "s3cret" ++ [Byte.x0a]) else None.
Definition demo_block : list (list bytes) :=
  [[bs "address"; bs "[2001:db8::1]:6379"]; [bs "namespace"; bs "edge-1"]; [bs "epoch_file"; bs "/epoch"];
   [bs "password_file"; bs "/pw"]; [bs "connections"; bs "1"]; [bs "queue"; bs "1"]].
Definition demo_config : Config :=
  mkConfig (SockV6 (0x20010db8 * 2 ^ 96 + 1) 6379 0) (bs "edge-1") (replicate 63 "a"%byte ++ bs "0")
    (Redemption.id (bs "redis:edge-1:" ++ replicate 63 "a"%byte ++ bs "0")) [] (bs "s3cret") 500 1 1 5.
Lemma cluster_config_valid_witness : @None Config = None /\ valid_config demo_config.
Proof. apply (cluster_config_valid None demo_read demo_block demo_config). vm_compute. reflexivity. Defined.

(** Commands one after the other, as the server reads them. *)
Fixpoint read_stream (fuel : nat) (s : bytes) : option (list (list bytes)) :=
  match s, fuel with
  | [], _ => Some []
  | _, O => None
  | _, Datatypes.S f => '(c, r) <-? read_command s; l <-? read_stream f r; Some (c :: l)
  end.
(** The commands of a job: AUTH when there is a password, then the script with its keys. *)
Definition job_commands {S : Sha256} (c : Config) (token : bytes) (expires : Z) (health : bool) (now : Z)
  : list (list bytes) :=
  let '(k0, k1, k2) := keys (namespace c) (cfg_epoch c) token in
  (if beq (password c) [] then []
   else [[bs "AUTH"] ++ (if beq (username c) [] then [] else [username c]) ++ [password c]])
  ++ [if health then [bs "EVAL"; HEALTH; bs "2"; k0; k2; cfg_epoch c]
      else [bs "EVAL"; CONSUME; bs "3"; k0; k1; k2; cfg_epoch c; show_i expires; show_i (skew c); show_i now]].
Definition short (p : bytes) : bool := (length p <=? 4096)%nat.
Lemma read_stream_commands f cmds :
  Forall (fun c => c <> [] /\ (length c <= 10)%nat /\ forallb short c = true) cmds -> (length cmds <= f)%nat ->
  read_stream f (concat (map command cmds)) = Some cmds.
Proof.
  revert f. induction cmds as [|c cmds IH]; intros f Hall Hf; [by destruct f|].
  apply Forall_cons in Hall as [(Hne & Hl & Hs) Hall]. destruct f as [|f]; [simpl in Hf; lia|].
  cbn [map concat].
  assert (command c ++ concat (map command cmds) <> []) as Hc by (rewrite command_eq; done).
  cbn [read_stream]. destruct (command c ++ concat (map command cmds)) eqn:E; [done|]. rewrite <- E.
  rewrite read_command_command.
  - rewrite IH by (done || (simpl in Hf; lia)). done.
  - rewrite forallb_Forall in *. apply (Forall_impl _ _ _ Hs). unfold short. intros p Hp. to_prop.
    apply in_u64_iff. lia.
  - apply in_u64_iff. lia.
Qed.
Lemma job_output_commands {S : Sha256} c token e h now :
  job_output c token e h now = concat (map command (job_commands c token e h now)).
Proof.
  unfold job_output, job_commands. destruct (keys _ _ _) as [[k0 k1] k2].
  destruct (beq (password c) []); simpl; destruct h; by rewrite app_nil_r.
Qed.
Lemma job_commands_short {S : Sha256} {SL : Sha256Laws S} c token e h now :
  valid_config c -> in_i64 e = true -> in_i64 now = true ->
  Forall (fun cmd => cmd <> [] /\ (length cmd <= 10)%nat /\ forallb short cmd = true) (job_commands c token e h now).
Proof.
  intros Hc He Hn. unfold job_commands, keys.
  pose proof (show_i_length e He). pose proof (show_i_length now Hn).
  assert (in_i64 (skew c) = true) as Hs by (apply in_i64_iff; pose proof (vc_skew _ Hc); lia).
  pose proof (show_i_length _ Hs). pose proof (sha_length token) as Hid.
  destruct (vc_namespace _ Hc) as (_ & Hns & _). destruct (vc_epoch _ Hc) as [Hep _].
  pose proof (vc_username _ Hc). pose proof (vc_password _ Hc).
  assert (forall p, (length p <= 1000)%nat -> short p = true) as Hsh by (intros p Hp; apply Nat.leb_le; lia).
  assert (short (key_base (namespace c) ++ bs ":epoch") = true) as K0
    by (apply Hsh; unfold key_base; rewrite !length_app; simpl; lia).
  assert (short (key_base (namespace c) ++ bs ":clock") = true) as K2
    by (apply Hsh; unfold key_base; rewrite !length_app; simpl; lia).
  assert (short (spent_key (namespace c) (cfg_epoch c) (Redemption.id token)) = true) as K1.
  { apply Hsh. unfold spent_key, key_base. rewrite !length_app, hex_length. unfold Redemption.id. rewrite Hid. simpl. lia. }
  assert (short CONSUME = true) as Hcs by (vm_compute; reflexivity).
  assert (short HEALTH = true) as Hhs by (vm_compute; reflexivity).
  apply Forall_app. split.
  - destruct (beq (password c) []); [constructor|]. constructor; [|constructor].
    destruct (beq (username c) []); cbn [app length forallb]; (split; [done|]); (split; [lia|]);
      rewrite !Hsh by (simpl; lia); reflexivity.
  - constructor; [|constructor].
    destruct h; cbn [length forallb]; (split; [done|]); (split; [lia|]);
      rewrite ?K0, ?K1, ?K2, ?Hcs, ?Hhs, !Hsh by (simpl; lia); reflexivity.
Qed.

(** C26: What goes over the wire is what was meant.  Under an accepted configuration, for any
    token, reading the bytes of a job as the server does gives the AUTH command (if there is
    a password) and then one EVAL of the script with the fence, marker and clock keys and
    the epoch, and for a redemption the expiry, the skew and the caller's clock, which read
    back as those numbers. *)
Theorem redemption_on_the_wire {S : Sha256} {SL : Sha256Laws S} cluster read block c token e h now :
  configure cluster read block = Some c -> in_i64 e = true -> in_i64 now = true ->
  read_stream 2 (job_output c token e h now) = Some (job_commands c token e h now)
  /\ parse_i 64 (show_i e) = Some e /\ parse_i 64 (show_i (skew c)) = Some (skew c)
  /\ parse_i 64 (show_i now) = Some now.
Proof.
  unfold configure. destruct cluster; [done|]. destruct (parse_block ∅ block) as [values|]; [|done].
  intros Hc%parse_config_valid He Hn.
  assert (in_i64 (skew c) = true) as Hs by (apply in_i64_iff; pose proof (vc_skew _ Hc); lia).
  split_and!; [|by apply parse_i_show..]. rewrite job_output_commands. apply read_stream_commands.
  - by apply job_commands_short.
  - unfold job_commands. destruct (keys _ _ _) as [[k0 k1] k2]. rewrite length_app.
    destruct (beq (password c) []); simpl; lia.
Qed.
Lemma redemption_on_the_wire_witness :
  read_stream 2 (job_output demo_config (bs "tok") 160 false 100) = Some (job_commands demo_config (bs "tok") 160 false 100)
  /\ parse_i 64 (show_i 160) = Some 160 /\ parse_i 64 (show_i 5) = Some 5 /\ parse_i 64 (show_i 100) = Some 100.
Proof.
  apply (redemption_on_the_wire None demo_read demo_block demo_config (bs "tok") 160 false 100);
    vm_compute; reflexivity.
Defined.

(** A worker with one connection and one queue place: a health check, two redemptions (the
    second one queued), the reply to the first, and what follows. *)
Definition demo_world : World := mkWorld 100 5000 (fun _ => Connection 0).
Definition demo_grant : Grant := mkGrant (bs "c=v") None 20000 (bs "pow").
Definition ok_line : bytes := bs "+OK" ++ crlf.
Definition demo_events : list (World * Event) :=
  map (fun ev => (demo_world, ev))
    [Poll false; Writable 0 false (fun _ => 1000) true true; Readable 0 [Data ok_line; Data (bs ":1" ++ crlf)] true;
     Redeem 7 (bs "t7") 160 demo_grant; Redeem 8 (bs "t8") 160 demo_grant; Redeem 9 (bs "t9") 160 demo_grant;
     Readable 1 [Data (ok_line ++ bs ":1" ++ crlf)] true].
Definition demo_start : Runtime := mkRuntime demo_config ∅ 0 [] [] false false false false 0.
Definition demo_state : Runtime := Eval vm_compute in (exec demo_start demo_events).2.
Lemma demo_fires : fires_all demo_start demo_events.
Proof.
  repeat match goal with |- fires_all _ _ => split | |- True => exact I | |- fires_all _ [] => exact I end;
    first [exact I | eexists; split; vm_compute; reflexivity].
Qed.
Lemma demo_reach : exists rs ab, reach demo_config demo_state rs
  [(9%nat, Full, demo_grant); (7%nat, Accepted, demo_grant)] ab.
Proof.
  destruct (reach_exec demo_config demo_start [] [] [] demo_events) as (rs & ab & Hr);
    [by apply reach_start|apply demo_fires|].
  exists rs, ab. replace demo_state with (exec demo_start demo_events).2 by (vm_compute; reflexivity).
  replace [(9%nat, Full, demo_grant); (7%nat, Accepted, demo_grant)] with (exec demo_start demo_events).1
    by (vm_compute; reflexivity). exact Hr.
Qed.
Lemma every_redemption_answered_witness :
  heap demo_state !! 2%nat <> None
  /\ exists rs ab, rs ≡ₚ [9; 7]%nat ++ ab ++ owed demo_state
     /\ forall j, heap demo_state !! 2%nat = Some j -> fires demo_state (Timeout 2).
Proof.
  split; [vm_compute; discriminate|]. destruct demo_reach as (rs & ab & Hr). exists rs, ab.
  destruct (every_redemption_answered demo_config demo_state rs _ ab Hr) as [Hp Hw]. split; [exact Hp|].
  intros j Hj. destruct (Hw 2%nat j 8%nat Hj) as [Hf _]; [|exact Hf].
  revert Hj. vm_compute. intros [= <-]. reflexivity.
Defined.
Lemma cluster_bounded_witness :
  (length (active demo_state) <= 1)%nat /\ NoDup (active demo_state ++ pending demo_state)
  /\ (size (heap demo_state) <= 3)%nat.
Proof.
  destruct demo_reach as (rs & ab & Hr).
  destruct (cluster_bounded demo_config demo_state rs _ ab Hr) as (H1 & _ & _ & H2 & _ & H3).
  split; [exact H1|]. split; [exact H2|exact H3].
Defined.
Definition demo_before : Runtime := Eval vm_compute in (exec demo_start (take 6 demo_events)).2.
Lemma demo_before_inv : inv demo_before.
Proof.
  destruct (reach_exec demo_config demo_start [] [] [] (take 6 demo_events)) as (rs & ab & Hr).
  - by apply reach_start.
  - pose proof demo_fires as Hf. change demo_events with (take 6 demo_events ++ drop 6 demo_events) in Hf.
    revert Hf. generalize (drop 6 demo_events), (take 6 demo_events), demo_start. intros l2 l1.
    induction l1 as [|[w ev] l1 IH]; intros rt; simpl; [done|]. intros [Hx Hy]. split; [done|by apply IH].
  - apply reach_inv in Hr as [Hi _].
    replace demo_before with (exec demo_start (take 6 demo_events)).2 by (vm_compute; reflexivity). exact Hi.
Qed.
Lemma accepted_means_accepted_witness :
  exists p recvs rearm j, Readable 1 [Data (ok_line ++ bs ":1" ++ crlf)] true = Readable p recvs rearm
    /\ heap demo_before !! p = Some j /\ request j = Some 7%nat /\ grant j = Some demo_grant
    /\ now demo_world < expires j
    /\ read_loop recvs rearm (input j) (auth j) = inl (Accepted, false)
    /\ exists s, s `prefix_of` input j ++ received recvs /\ accepting (auth j) s.
Proof.
  apply (accepted_means_accepted demo_world demo_before); [apply demo_before_inv| |].
  - eexists. split; vm_compute; reflexivity.
  - apply (bool_decide_eq_true_1 _). vm_compute. reflexivity.
Defined.
Definition fenced_state : Runtime :=
  Eval vm_compute in (handle demo_world demo_before (Readable 1 [Data (ok_line ++ bs ":-2" ++ crlf)] true)).2.
Lemma fence_is_final_witness :
  fenced fenced_state = true
  /\ forall w r token e g, handle w (handle demo_world fenced_state (Poll false)).2 (Redeem r token e g)
                           = ([(r, Full, g)], (handle demo_world fenced_state (Poll false)).2).
Proof.
  split; [reflexivity|].
  assert (inv fenced_state) as Hi.
  { replace fenced_state with (handle demo_world demo_before (Readable 1 [Data (ok_line ++ bs ":-2" ++ crlf)] true)).2
      by (vm_compute; reflexivity).
    apply handle_step; [apply demo_before_inv|]. eexists. split; vm_compute; reflexivity. }
  apply (fence_is_final demo_world fenced_state (Poll false)); [exact Hi|exact I|reflexivity].
Defined.
