(* ===== verification/Verifier.v ===== *)
(** * [feeds.rs] and [verifier.rs]: verified good bots

    A verifier confirms an address by the operators' published ranges or by
    forward-confirmed reverse DNS.  Range feeds are fetched by a thread per verifier, DNS is
    resolved by two threads behind a queue; the request path only reads.  Each step of a
    thread that touches shared state is one event here (a DNS thread takes a job in one step
    and completes it in another), so every interleaving is a sequence of events.  HTTP, the resolver and the clocks are arguments of the events. *)
From Stdlib Require Import ZArith Lia.
From Stdlib Require Import Strings.Byte.
From stdpp Require Import base list strings option numbers countable sets gmap.
From S2P Require Import Prelude RustStr Crates StandIns Ip VerdictCache Ranges Runtime.
Local Open Scope Z_scope.

(** Durations and instants are in nanoseconds. *)
Definition from_secs (n : Z) : Z := n * one_second.

Section verifier.
Context {J : Json Feed}.

(** ** [feeds.rs] *)

Record FeedSnapshot := mkSnapshot { ranges : IpRangeSet; updated : Z }.
Definition feed_parse (body : bytes) (now : Z) : option FeedSnapshot :=
  let '(ranges, n) := add_feed_json empty_set body in
  if (n =? 0)%nat then None else Some (mkSnapshot ranges now).
Definition age (self : FeedSnapshot) (now : Z) : Z := elapsed now (updated self).
Definition feed_fresh (self : FeedSnapshot) (now max_stale : Z) : bool := age self now <? max_stale.
Definition feed_contains (self : FeedSnapshot) (ip : IpAddr) (now max_stale : Z) : bool :=
  feed_fresh self now max_stale && contains (ranges self) ip.

(** ** State *)

Definition DNS_CACHE_ENTRIES : nat := 2048.
Definition DNS_QUEUE_CAPACITY : nat := 64.
Definition DNS_THREADS : nat := 2.
Record Verifier := mkVerifier {
  feeds : list (option FeedSnapshot); max_stale : Z; urls : list bytes; refresh : Z;
  fcrdns_suffixes : list bytes; verdicts : VerdictCache (K := IpAddr);
}.
(** A queued lookup; the verifier it holds is the one registered under the name. *)
Record DnsJob := mkDnsJob { dns_verifier : bytes; dns_ip : IpAddr; dns_generation : Z }.
(** The registry of a worker, the queue of the DNS threads, the jobs those threads are
    resolving, and how many of the threads were started. *)
Record Verifiers := mkVerifiers {
  registry : gmap bytes Verifier; dns_queue : list DnsJob; dns_running : list DnsJob; dns_workers : nat;
}.
Definition with_feeds (v : Verifier) (fs : list (option FeedSnapshot)) : Verifier :=
  mkVerifier fs (max_stale v) (urls v) (refresh v) (fcrdns_suffixes v) (verdicts v).
Definition with_verdicts (v : Verifier) (c : VerdictCache) : Verifier :=
  mkVerifier (feeds v) (max_stale v) (urls v) (refresh v) (fcrdns_suffixes v) c.
Definition with_verifier (st : Verifiers) (name : bytes) (v : Verifier) : Verifiers :=
  mkVerifiers (<[name := v]> (registry st)) (dns_queue st) (dns_running st) (dns_workers st).
(** [dns_pool]: [spawned i] says whether the [i]-th thread could be started; with none there
    is no pool and no sender. *)
Definition dns_pool (spawned : nat -> bool) : nat := length (filter (fun i => spawned i = true) (seq 0 DNS_THREADS)).
(** [pool.try_send] on the bounded channel. *)
Definition try_send (st : Verifiers) (job : DnsJob) : option Verifiers :=
  if (0 <? dns_workers st)%nat && (length (dns_queue st) <? DNS_QUEUE_CAPACITY)%nat
  then Some (mkVerifiers (registry st) (dns_queue st ++ [job]) (dns_running st) (dns_workers st))
  else None.

(** ** The request path *)

Definition fcrdns_cached (st : Verifiers) (name : bytes) (v : Verifier) (ip : IpAddr) (now : Z)
  : bool * Verifiers :=
  let '(lookup, cache) := begin (verdicts v) ip now in
  let st := with_verifier st name (with_verdicts v cache) in
  match lookup with
  | Cached verdict => (verdict, st)
  | Full => (false, st)
  | Start generation =>
      match try_send st (mkDnsJob name ip generation) with
      | Some st => (false, st)
      | None => (false, with_verifier st name (with_verdicts v (cancel cache ip generation)))
      end
  end.
(** [now] is the instant of the range check, [now'] the later one of the DNS lookup. *)
Definition verifier_result (st : Verifiers) (name : bytes) (ip : IpAddr) (now now' : Z)
  : bool * bytes * Verifiers :=
  match registry st !! name with
  | None => (false, bs "unknown_verifier", st)
  | Some v =>
      let known := omap (fun f => f) (feeds v) in
      if existsb (fun feed => feed_contains feed ip now (max_stale v)) known
      then (true, bs "verified_range", st)
      else
        let '(dns, st) := if negb (bool_decide (fcrdns_suffixes v = []))
                          then fcrdns_cached st name v ip now' else (false, st) in
        if dns then (true, bs "verified_dns", st)
        else
          let stale := existsb (fun feed => negb (feed_fresh feed now (max_stale v))) known in
          (false, if stale then bs "feed_stale" else bs "verifier_unconfirmed", st)
  end.

(** ** The background threads *)

(** One source of the refresher's loop; [fetched] is the body, [None] when the request or the
    read failed.  A failed source keeps its old snapshot. *)
Definition MAX_FEED : Z := 8 * 2 ^ 20.
Definition refresh_one (v : Verifier) (index : nat) (fetched : option bytes) (now : Z) : Verifier :=
  let fresh := b <-? fetched; if MAX_FEED <? Z.of_nat (length b) then None else feed_parse b now in
  match fresh with
  | Some f => with_feeds v (<[index := Some f]> (feeds v))
  | None => v
  end.
(** [fcrdns_confirm] with the answers of the resolver. *)
Definition fcrdns_confirm (ip : IpAddr) (suffixes : list bytes) (reverse_dns : option bytes)
  (forward_dns : bytes -> list IpAddr) : bool :=
  match reverse_dns with
  | None => false
  | Some host => fcrdns_confirms host suffixes ip forward_dns
  end.
(** An idle DNS thread takes the oldest job off the channel. *)
Definition dns_take (st : Verifiers) : Verifiers :=
  match dns_queue st with
  | job :: queue =>
      if (length (dns_running st) <? dns_workers st)%nat
      then mkVerifiers (registry st) queue (dns_running st ++ [job]) (dns_workers st) else st
  | [] => st
  end.
(** The thread of the [i]-th running job has the resolver's answers and completes the job in
    the verifier's cache. *)
Definition dns_complete (st : Verifiers) (i : nat) (reverse_dns : option bytes)
  (forward_dns : bytes -> list IpAddr) (now : Z) : Verifiers :=
  match dns_running st !! i with
  | None => st
  | Some job =>
      let st := mkVerifiers (registry st) (dns_queue st) (delete i (dns_running st)) (dns_workers st) in
      match registry st !! dns_verifier job with
      | None => st
      | Some v =>
          let ok := fcrdns_confirm (dns_ip job) (fcrdns_suffixes v) reverse_dns forward_dns in
          with_verifier st (dns_verifier job)
            (with_verdicts v (complete (verdicts v) (dns_ip job) (dns_generation job) ok now))
      end
  end.

(** ** Configuration *)

(** [12h], [30m], [90s], [1d] or plain seconds; zero and more than a year are refused. *)
Definition parse_time (s : bytes) : option Z :=
  let s := trim s in
  let last := head (reverse s) in
  let cut := reverse (drop 1 (reverse s)) in
  let '(num, mult) :=
    if bool_decide (last = Some "s"%byte) then (cut, 1)
    else if bool_decide (last = Some "m"%byte) then (cut, 60)
    else if bool_decide (last = Some "h"%byte) then (cut, 3600)
    else if bool_decide (last = Some "d"%byte) then (cut, 86400)
    else (s, 1) in
  n <-? parse_u 64 (trim num);
  if in_u64 (n * mult) then
    let seconds := n * mult in
    if (seconds =? 0) || (365 * 86400 <? seconds) then None else Some (from_secs seconds)
  else None.

Record Builder := mkBuilder {
  b_name : bytes; b_urls : list bytes; b_refresh : Z; b_suffixes : list bytes; b_ttl : Z; b_max_stale : Z;
}.
Definition new_builder (name : bytes) : Builder :=
  mkBuilder name [] (from_secs (12 * 3600)) [] (from_secs 3600) (from_secs (48 * 3600)).
(** [arg(cf, i)]: lossy text of an argument. *)
Definition arg (args : list bytes) (i : nat) : option bytes := s <-? args !! i; Some (from_utf8_lossy s).
(** [verifier_inner]: one directive of the block, [None] for a configuration error. *)
Definition verifier_inner (b : Builder) (args : list bytes) : option Builder :=
  match arg args 0 with
  | None => Some b
  | Some directive =>
      if beq directive (bs "ip_ranges_url") then
        Some match arg args 1 with
             | Some u => mkBuilder (b_name b) (b_urls b ++ [u]) (b_refresh b) (b_suffixes b) (b_ttl b) (b_max_stale b)
             | None => b
             end
      else if beq directive (bs "ip_ranges_max_stale") then
        s <-? arg args 1; t <-? parse_time s;
        Some (mkBuilder (b_name b) (b_urls b) (b_refresh b) (b_suffixes b) (b_ttl b) t)
      else if beq directive (bs "ip_ranges_refresh") then
        s <-? arg args 1; t <-? parse_time s;
        Some (mkBuilder (b_name b) (b_urls b) t (b_suffixes b) (b_ttl b) (b_max_stale b))
      else if beq directive (bs "fcrdns_suffix") then
        Some (mkBuilder (b_name b) (b_urls b) (b_refresh b)
                (b_suffixes b ++ map from_utf8_lossy (drop 1 args)) (b_ttl b) (b_max_stale b))
      else if beq directive (bs "fcrdns_ttl") then
        s <-? arg args 1; t <-? parse_time s;
        Some (mkBuilder (b_name b) (b_urls b) (b_refresh b) (b_suffixes b) t (b_max_stale b))
      else None
  end.
Definition register (b : Builder) (verifiers : gmap bytes Verifier) (now : Z) : option (gmap bytes Verifier) :=
  if (32 <? length (b_urls b))%nat || (b_max_stale b <? b_refresh b) then None
  else Some (<[b_name b := mkVerifier (replicate (length (b_urls b)) None) (b_max_stale b) (b_urls b) (b_refresh b)
                             (b_suffixes b) (VerdictCache.new DNS_CACHE_ENTRIES (b_ttl b) now)]> verifiers).
Fixpoint parse_inner (b : Builder) (block : list (list bytes)) : option Builder :=
  match block with
  | [] => Some b
  | args :: block' => b <-? verifier_inner b args; parse_inner b block'
  end.
(** [pow_gate_verifier_block]: the name, then the lines of the block. *)
Definition pow_gate_verifier_block (args : list bytes) (block : list (list bytes)) (verifiers : gmap bytes Verifier)
  (now : Z) : option (gmap bytes Verifier) :=
  name <-? arg args 1; b <-? parse_inner (new_builder name) block; register b verifiers now.
(** [start_refreshers]: a worker starts from the configured registry. *)
Definition start_refreshers (configured : gmap bytes Verifier) (spawned : nat -> bool) : Verifiers :=
  mkVerifiers configured [] [] (dns_pool spawned).

(** ** Histories *)

Inductive VEvent :=
  | Query (name : bytes) (ip : IpAddr) (now now' : Z)
  | Fetch (name : bytes) (index : nat) (fetched : option bytes) (now : Z)
  | Take
  | Resolve (i : nat) (reverse_dns : option bytes) (forward_dns : bytes -> list IpAddr) (now : Z).
Definition vhandle (st : Verifiers) (ev : VEvent) : Verifiers :=
  match ev with
  | Query name ip now now' => (verifier_result st name ip now now').2
  | Fetch name index fetched now =>
      match registry st !! name with
      | Some v => with_verifier st name (refresh_one v index fetched now)
      | None => st
      end
  | Take => dns_take st
  | Resolve i rev fwd now => dns_complete st i rev fwd now
  end.
(** What the outside world said: a feed body, or the resolver's answers for an address; and
    the verdicts the DNS threads gave under the generation of their job. *)
Inductive Evidence :=
  | Fetched (name : bytes) (index : nat) (body : bytes) (at_ : Z)
  | Resolved (name : bytes) (ip : IpAddr) (host : bytes) (addrs : list IpAddr) (at_ : Z)
  | Answered (name : bytes) (ip : IpAddr) (generation : Z) (ok : bool) (at_ : Z).
Definition evidence (st : Verifiers) (ev : VEvent) : list Evidence :=
  match ev with
  | Query _ _ _ _ => []
  | Fetch name index (Some body) now => [Fetched name index body now]
  | Fetch _ _ None _ => []
  | Take => []
  | Resolve i rev fwd now =>
      match dns_running st !! i with
      | None => []
      | Some job =>
          match rev with
          | Some host => [Resolved (dns_verifier job) (dns_ip job) host (fwd host) now]
          | None => []
          end ++
          match registry st !! dns_verifier job with
          | Some v => [Answered (dns_verifier job) (dns_ip job) (dns_generation job)
                         (fcrdns_confirm (dns_ip job) (fcrdns_suffixes v) rev fwd) now]
          | None => []
          end
      end
  end.
Inductive vreach (configured : gmap bytes Verifier) : Verifiers -> list Evidence -> Prop :=
  | vreach_start spawned : vreach configured (start_refreshers configured spawned) []
  | vreach_step st log ev :
      vreach configured st log -> vreach configured (vhandle st ev) (log ++ evidence st ev).

(** ** Lemmas *)

(** What a positive verdict rests on. *)
Definition backed (P : IpAddr -> Z -> Prop) (c : VerdictCache (K := IpAddr)) : Prop :=
  forall k e, entries c !! k = Some e -> verdict e = true -> P k (at_ e).
Lemma begin_backed P c ip now : backed P c -> backed P (begin c ip now).2.
Proof.
  intros Hb. destruct (begin_cases c ip now) as [(e & _ & _ & ->)|[_ (c1 & Hc1 & ->)]]; [done|].
  assert (backed P c1) as Hb1.
  { intros k e Ek. apply Hb. subst c1. eapply lookup_weaken; [exact Ek|].
    etransitivity; [apply sweep_subseteq|apply delete_subseteq]. }
  case_match; simpl; [done|]. intros k e. simpl. destruct (decide (k = ip)) as [->|].
  - rewrite lookup_insert_eq. by intros [= <-].
  - rewrite lookup_insert_ne by done. apply Hb1.
Qed.
Lemma cancel_backed P c ip g : backed P c -> backed P (cancel c ip g).
Proof.
  intros Hb. unfold cancel. repeat case_match; try done.
  intros k e1. simpl. intros [_ Ek]%lookup_delete_Some. by apply Hb.
Qed.
Lemma complete_backed (P : IpAddr -> Z -> Prop) c ip g ok now :
  backed P c -> (ok = true -> P ip now) -> backed P (complete c ip g ok now).
Proof.
  intros Hb Hp. unfold complete. repeat case_match; try done.
  intros k e1. simpl. destruct (decide (k = ip)) as [->|].
  - rewrite lookup_insert_eq. intros [= <-]. simpl. apply Hp.
  - rewrite lookup_insert_ne by done. apply Hb.
Qed.
Lemma backed_mono (P Q : IpAddr -> Z -> Prop) c : (forall k t, P k t -> Q k t) -> backed P c -> backed Q c.
Proof. intros H Hb k e Ek Hv. eapply H, Hb; done. Qed.
Lemma begin_cached (c : VerdictCache (K := IpAddr)) ip now v c' :
  begin c ip now = (Cached v, c') -> exists e, entries c !! ip = Some e /\ verdict e = v /\ elapsed now (at_ e) < ttl c.
Proof.
  destruct (begin_cases c ip now) as [(e & E & Hf & ->)|[_ (c1 & _ & ->)]].
  - intros [= <- <-]. eauto.
  - by case_match.
Qed.
Lemma begin_ttl (c : VerdictCache (K := IpAddr)) ip now : ttl (begin c ip now).2 = ttl c.
Proof. apply (exec_fields c (Begin ip now)). Qed.

(** The evidence behind a DNS verdict of a verifier. *)
Definition dns_evidence (log : list Evidence) (name : bytes) (suffixes : list bytes) (ip : IpAddr) (t : Z) : Prop :=
  exists host addrs, Resolved name ip host addrs t ∈ log
    /\ existsb (fun s => host_matches_suffix host s) suffixes = true /\ ip ∈ addrs.
(** Freshly configured verifiers know nothing. *)
Definition blank (v : Verifier) : Prop :=
  Forall (fun f => f = None) (feeds v) /\ entries (verdicts v) = ∅.
(** A verifier as it was configured, with feeds and verdicts from the log. *)
Record sound (log : list Evidence) (name : bytes) (v0 v : Verifier) : Prop := mkSound {
  sound_stale : max_stale v = max_stale v0;
  sound_suffixes : fcrdns_suffixes v = fcrdns_suffixes v0;
  sound_ttl : ttl (verdicts v) = ttl (verdicts v0);
  sound_len : length (feeds v) = length (feeds v0);
  sound_feeds i f : feeds v !! i = Some (Some f) ->
    exists body t, Fetched name i body t ∈ log /\ feed_parse body t = Some f;
  sound_dns : backed (dns_evidence log name (fcrdns_suffixes v0)) (verdicts v);
}.
Definition sound_all (configured : gmap bytes Verifier) (log : list Evidence) (st : Verifiers) : Prop :=
  forall name v, registry st !! name = Some v -> exists v0, configured !! name = Some v0 /\ sound log name v0 v.
Lemma dns_evidence_more log more name suffixes ip t :
  dns_evidence log name suffixes ip t -> dns_evidence (log ++ more) name suffixes ip t.
Proof. intros (h & a & Hin & ? & ?). exists h, a. split; [by apply elem_of_app; left|done]. Qed.
Lemma sound_more log more name v0 v : sound log name v0 v -> sound (log ++ more) name v0 v.
Proof.
  intros [H1 H2 H3 H4 H5 H6]. split; try done.
  - intros i f (b & t & Hin & Hp)%H5. exists b, t. split; [by apply elem_of_app; left|done].
  - eapply backed_mono; [|exact H6]. intros k t. apply dns_evidence_more.
Qed.
Lemma sound_update configured log st name v v' :
  sound_all configured log st -> registry st !! name = Some v ->
  (forall v0, sound log name v0 v -> sound log name v0 v') ->
  sound_all configured log (with_verifier st name v').
Proof.
  intros Hs Hv Hup n x. simpl. destruct (decide (n = name)) as [->|].
  - rewrite lookup_insert_eq. intros [= <-]. destruct (Hs name v Hv) as (v0 & E & Hv0). eauto.
  - rewrite lookup_insert_ne by done. apply Hs.
Qed.
Lemma sound_verdicts log name v0 v c :
  ttl c = ttl (verdicts v) -> backed (dns_evidence log name (fcrdns_suffixes v0)) c ->
  sound log name v0 v -> sound log name v0 (with_verdicts v c).
Proof. intros Ht Hb [H1 H2 H3 H4 H5 H6]. split; simpl; try done. congruence. Qed.
Lemma sound_query configured log st name ip now now' :
  sound_all configured log st -> sound_all configured log (verifier_result st name ip now now').2.
Proof.
  intros Hs. unfold verifier_result. destruct (registry st !! name) as [v|] eqn:Hv; [|done].
  case_match; [done|].
  assert (sound_all configured log (fcrdns_cached st name v ip now').2) as Hc.
  { unfold fcrdns_cached. pose proof (begin_ttl (verdicts v) ip now') as Ht.
    assert (forall P, backed P (verdicts v) -> backed P (begin (verdicts v) ip now').2) as Hb
      by (intros; by apply begin_backed).
    destruct (begin (verdicts v) ip now') as [lookup cache]. simpl in *.
    assert (sound_all configured log (with_verifier st name (with_verdicts v cache))) as Hs1.
    { eapply sound_update; [done|exact Hv|]. intros v0 Hv0. apply sound_verdicts; [done|apply Hb, Hv0|done]. }
    destruct lookup as [verdict|g|]; [done| |done]. unfold try_send. case_match; case_match; simplify_eq; [done|]. simpl.
    eapply sound_update; [exact Hs1|apply lookup_insert_eq|]. intros v0 Hv0.
    apply (sound_verdicts log name v0 (with_verdicts v cache) (cancel cache ip g)) in Hv0;
      [exact Hv0|apply (exec_fields cache (Cancel ip g))|apply cancel_backed, Hv0]. }
  destruct (negb _); [|by case_match].
  destruct (fcrdns_cached st name v ip now') as [dns st']. simpl in Hc. by destruct dns.
Qed.
Lemma sound_step configured log st ev :
  sound_all configured log st -> sound_all configured (log ++ evidence st ev) (vhandle st ev).
Proof.
  intros Hs.
  assert (forall more, sound_all configured (log ++ more) st) as Hmore.
  { intros more n v (v0 & E & Hv)%Hs. exists v0. split; [done|by apply sound_more]. }
  destruct ev as [name ip now now'|name index fetched now| |i rev fwd now]; cbn [vhandle].
  - by apply sound_query.
  - destruct (registry st !! name) as [v|] eqn:Hv; [|apply Hmore].
    eapply sound_update; [apply Hmore|exact Hv|]. intros v0 Hv0. unfold refresh_one.
    destruct fetched as [b|]; [|done]. destruct (MAX_FEED <? _); [done|].
    destruct (feed_parse b now) as [f|] eqn:Ef; [|done].
    destruct Hv0 as [H1 H2 H3 H4 H5 H6]. split; simpl; try done; [by rewrite length_insert|].
    intros i f'. destruct (decide (i = index)) as [->|]; [|rewrite list_lookup_insert_ne by done; apply H5].
    destruct (decide (index < length (feeds v))%nat) as [Hl|Hl].
    + rewrite list_lookup_insert_eq by done. intros [= <-]. exists b, now. split; [set_solver|done].
    + rewrite list_insert_ge by lia. apply H5.
  - unfold dns_take. repeat case_match; apply Hmore.
  - unfold dns_complete, evidence. destruct (dns_running st !! i) as [job|] eqn:Eq; [|apply Hmore].
    assert (forall more, sound_all configured (log ++ more)
      (mkVerifiers (registry st) (dns_queue st) (delete i (dns_running st)) (dns_workers st))) as Hq
      by (intros more; apply (Hmore more)).
    cbn [registry]. destruct (registry st !! dns_verifier job) as [v|] eqn:Hv; [|apply Hq].
    eapply sound_update; [apply Hq|exact Hv|]. intros v0 Hv0. apply sound_verdicts; [|apply complete_backed; [apply Hv0|]|done].
    + apply (exec_fields (verdicts v) (Complete _ _ _ _)).
    + unfold fcrdns_confirm, fcrdns_confirms. destruct rev as [host|]; [|done].
      intros [Hm Hin]%andb_true_iff. apply bool_decide_eq_true in Hin. rewrite (sound_suffixes _ _ _ _ Hv0) in Hm.
      exists host, (fwd host). split_and!; [set_solver|done|done].
Qed.
Lemma vreach_sound configured st log :
  map_Forall (fun _ v => blank v) configured -> vreach configured st log -> sound_all configured log st.
Proof.
  intros Hb. induction 1 as [spawned|st log ev _ IH]; [|by apply sound_step].
  intros name v Hv. exists v. split; [done|]. destruct (Hb name v Hv) as [Hf He]. split; try done.
  - intros i f E. rewrite Forall_lookup in Hf. by apply Hf in E.
  - intros k e. rewrite He. by rewrite lookup_empty.
Qed.

(** ** In flight

    Every entry of a cache is either a verdict some DNS thread gave or the placeholder of a
    lookup that is still queued or being resolved. *)
Definition jobs (st : Verifiers) : list DnsJob := dns_queue st ++ dns_running st.
Definition tracked (log : list Evidence) (js : list DnsJob) (name : bytes) (ip : IpAddr) (e : Entry) : Prop :=
  Answered name ip (entry_generation e) (verdict e) (at_ e) ∈ log
  \/ (verdict e = false /\ mkDnsJob name ip (entry_generation e) ∈ js).
Definition all_tracked (log : list Evidence) (js : list DnsJob) (name : bytes) (c : VerdictCache (K := IpAddr)) : Prop :=
  map_Forall (tracked log js name) (entries c).
Record in_flight (configured : gmap bytes Verifier) (log : list Evidence) (st : Verifiers) : Prop := mkInFlight {
  flight_queue : (length (dns_queue st) <= DNS_QUEUE_CAPACITY)%nat;
  flight_running : (length (dns_running st) <= dns_workers st)%nat;
  flight_workers : (dns_workers st <= DNS_THREADS)%nat;
  flight_cache name v : registry st !! name = Some v ->
    all_tracked log (jobs st) name (verdicts v)
    /\ exists v0, configured !! name = Some v0 /\ capacity (verdicts v) = capacity (verdicts v0)
    /\ (size (entries (verdicts v)) <= capacity (verdicts v0))%nat;
}.
Lemma tracked_more log more js js' name ip e :
  js ⊆ js' -> tracked log js name ip e -> tracked (log ++ more) js' name ip e.
Proof. intros Hj [H|[Hv H]]; [left; by apply elem_of_app; left|right; split; [done|by apply Hj]]. Qed.
(** What a cache operation has to preserve for the state to stay in flight: the entries, with
    the jobs and log as they are afterwards, and the bound. *)
Lemma in_flight_update configured log more st name v c q r :
  in_flight configured log st -> registry st !! name = Some v -> capacity c = capacity (verdicts v) ->
  (length q <= DNS_QUEUE_CAPACITY)%nat -> (length r <= dns_workers st)%nat ->
  (forall n ip e, n <> name -> tracked log (jobs st) n ip e -> tracked (log ++ more) (q ++ r) n ip e) ->
  all_tracked (log ++ more) (q ++ r) name c -> (size (entries c) <= capacity c)%nat ->
  in_flight configured (log ++ more) (mkVerifiers (<[name := with_verdicts v c]> (registry st)) q r (dns_workers st)).
Proof.
  intros [H1 H2 H3 H4] Hv Hc Hq Hr Hn Ht Hs. split; try done. simpl. intros n x.
  destruct (decide (n = name)) as [->|Hne].
  - rewrite lookup_insert_eq. intros [= <-]. destruct (H4 name v Hv) as (_ & v0 & E0 & Ec & _). simpl.
    split; [done|]. exists v0. split_and!; [done| |]; congruence.
  - rewrite lookup_insert_ne by done. intros Hx. destruct (H4 n x Hx) as [Hx1 Hx2]. split; [|done].
    intros ip e Ee. apply Hn; [done|by apply Hx1].
Qed.
Lemma begin_tracked log js name c ip now :
  all_tracked log js name c -> (size (entries c) <= capacity c)%nat ->
  (size (entries (begin c ip now).2) <= capacity c)%nat /\
  match (begin c ip now).1 with
  | Start g => all_tracked log (js ++ [mkDnsJob name ip g]) name (begin c ip now).2
               /\ all_tracked log js name (cancel (begin c ip now).2 ip g)
  | _ => all_tracked log js name (begin c ip now).2
  end.
Proof.
  intros Ht Hs. destruct (begin_cases c ip now) as [(e & _ & _ & ->)|[_ (c1 & Hc1 & ->)]]; [done|].
  assert (entries c1 ⊆ entries c) as Hsub
    by (subst c1; etransitivity; [apply sweep_subseteq|apply delete_subseteq]).
  assert (all_tracked log js name c1) as Ht1 by (intros k e Ek; eapply Ht, lookup_weaken; done).
  pose proof (map_subseteq_size _ _ Hsub) as Hs1.
  destruct (Nat.leb_spec (capacity c) (size (entries c1))); simpl; [split; [lia|done]|].
  pose proof (size_insert_le (entries c1) ip (mkEntry false now (wrap_u 64 (generation c + 1)))).
  split_and!; [lia| |].
  - apply map_Forall_insert_2; [right; set_solver|]. intros k e Ek. apply Ht1 in Ek as [?|[? ?]]; [by left|right; set_solver].
  - unfold cancel. simpl. rewrite lookup_insert_eq. simpl. rewrite Z.eqb_refl. simpl.
    rewrite delete_insert_eq. by apply map_Forall_delete.
Qed.
Lemma in_flight_query configured log st name ip now now' :
  in_flight configured log st -> in_flight configured log (verifier_result st name ip now now').2.
Proof.
  intros Hf. unfold verifier_result. destruct (registry st !! name) as [v|] eqn:Hv; [|done].
  case_match; [done|].
  assert (in_flight configured log (fcrdns_cached st name v ip now').2) as Hc.
  { pose proof Hf as [H1 H2 H3 H4]. destruct (H4 name v Hv) as (Ht & v0 & _ & Ec & Hsz). rewrite <- Ec in Hsz.
    destruct (begin_tracked log (jobs st) name (verdicts v) ip now' Ht Hsz) as [Hs Hb].
    assert (capacity (begin (verdicts v) ip now').2 = capacity (verdicts v)) as Hcap
      by apply (exec_fields (verdicts v) (Begin ip now')).
    unfold fcrdns_cached. destruct (begin (verdicts v) ip now') as [lookup cache]. cbn [fst snd] in *.
    rewrite <- (app_nil_r log). rewrite <- Hcap in Hs.
    pose proof (fun c q r => in_flight_update configured log [] st name v c q r Hf Hv) as Hup.
    rewrite app_nil_r in Hup |- *.
    destruct lookup as [verdict|g|]; cbn [snd].
    - apply Hup; done.
    - unfold try_send. cbn [registry dns_queue dns_running dns_workers with_verifier].
      destruct Hb as [Hb1 Hb2]. destruct (_ && _) eqn:Eq; cbn [snd].
      + to_prop. apply Hup; try done; [rewrite length_app; simpl; lia| |].
        * intros n k e _ [?|[? ?]]; [by left|right; unfold jobs in *; set_solver].
        * intros k e Ek. apply Hb1 in Ek as [?|[? ?]]; [by left|right; unfold jobs in *; set_solver].
      + unfold with_verifier. cbn [registry dns_queue dns_running dns_workers]. rewrite insert_insert_eq.
        apply (Hup (cancel cache ip g)); try done; [rewrite <- Hcap; apply (exec_fields cache (Cancel ip g))|].
        replace (capacity (cancel cache ip g)) with (capacity cache) by (symmetry; apply (exec_fields cache (Cancel ip g))).
        etransitivity; [|exact Hs]. unfold cancel. repeat case_match; try done. apply size_delete_le.
    - apply Hup; done. }
  destruct (negb _); [|by case_match].
  destruct (fcrdns_cached st name v ip now') as [dns st']. simpl in Hc. by destruct dns.
Qed.
Lemma in_flight_more configured log more st : in_flight configured log st -> in_flight configured (log ++ more) st.
Proof.
  intros [H1 H2 H3 H4]. split; try done. intros name v Hv. destruct (H4 name v Hv) as [Ht Hc]. split; [|done].
  intros ip e Ee. by eapply tracked_more; [|apply Ht].
Qed.
Lemma in_flight_take configured log st : in_flight configured log st -> in_flight configured log (dns_take st).
Proof.
  intros Hf. pose proof Hf as [H1 H2 H3 H4]. unfold dns_take. destruct (dns_queue st) as [|job queue] eqn:Eq; [done|].
  case_match eqn:El; [|done]. to_prop. split; simpl in *; [lia|rewrite length_app; simpl; lia|done|].
  intros name v Hv. destruct (H4 name v Hv) as [Ht Hc]. split; [|done].
  intros ip e Ee. apply Ht in Ee as [?|[? Hin]]; [by left|right; split; [done|]].
  unfold jobs in *. rewrite Eq in Hin. simpl in *. set_solver.
Qed.
(** A job that is neither the [i]-th nor missing is still there when the [i]-th is done. *)
Lemma jobs_done (q r : list DnsJob) i job j : r !! i = Some job -> j ∈ q ++ r -> j = job \/ j ∈ q ++ delete i r.
Proof.
  intros Hi Hj. apply elem_of_app in Hj as [Hj|Hj]; [right; set_solver|].
  rewrite (delete_Permutation r i job Hi) in Hj. set_solver.
Qed.
Lemma in_flight_complete configured log st i rev fwd now :
  in_flight configured log st ->
  in_flight configured (log ++ evidence st (Resolve i rev fwd now)) (dns_complete st i rev fwd now).
Proof.
  intros Hf. unfold dns_complete. cbn [evidence].
  destruct (dns_running st !! i) as [job|] eqn:Ei; [|by apply in_flight_more].
  set (heard := match rev with Some _ => _ | None => _ end). cbn [registry].
  pose proof Hf as [H1 H2 H3 H4].
  assert (length (delete i (dns_running st)) <= dns_workers st)%nat as Hlen
    by (rewrite length_delete by done; lia).
  destruct (registry st !! dns_verifier job) as [v|] eqn:Hv.
  - destruct (H4 _ v Hv) as (Ht & v0 & _ & Ec & Hsz). rewrite <- Ec in Hsz.
    set (ok := fcrdns_confirm _ _ _ _). unfold with_verifier. cbn [registry dns_queue dns_running dns_workers].
    set (c := complete _ _ _ _ _).
    assert (capacity c = capacity (verdicts v)) as Hcap by apply (exec_fields (verdicts v) (Complete _ _ _ _)).
    apply in_flight_update; try done.
    + intros n k e Hn [?|[? Hin]]; [left; set_solver|right; split; [done|]].
      destruct (jobs_done _ _ _ _ _ Ei Hin) as [Ej|?]; [|done]. by rewrite <- Ej in Hn.
    + intros k e. subst c. unfold complete.
      assert (forall k e, entries (verdicts v) !! k = Some e -> mkDnsJob (dns_verifier job) k (entry_generation e) <> job ->
        tracked (log ++ heard ++ [Answered (dns_verifier job) (dns_ip job) (dns_generation job) ok now])
          (dns_queue st ++ delete i (dns_running st)) (dns_verifier job) k e) as Hother.
      { intros k' e' [?|[? Hin]]%Ht Hne; [left; set_solver|right; split; [done|]].
        by destruct (jobs_done _ _ _ _ _ Ei Hin) as [?|?]. }
      destruct (entries (verdicts v) !! dns_ip job) as [e0|] eqn:E0; [destruct (Z.eqb_spec (entry_generation e0) (dns_generation job)) as [Hg|Hg]|].
      * simpl. destruct (decide (k = dns_ip job)) as [->|Hk].
        -- rewrite lookup_insert_eq. intros [= <-]. left. simpl. rewrite Hg. set_solver.
        -- rewrite lookup_insert_ne by done. intros Ek. apply Hother; [done|]. intros Ej. apply Hk. by apply (f_equal dns_ip) in Ej.
      * intros Ek. apply Hother; [done|]. intros Ej. apply (f_equal dns_ip) in Ej as Ek1. cbn in Ek1. subst k.
        rewrite E0 in Ek. injection Ek as ->. apply Hg. by apply (f_equal dns_generation) in Ej.
      * intros Ek. apply Hother; [done|]. intros Ej%(f_equal dns_ip). cbn in Ej. subst k. by rewrite E0 in Ek.
    + rewrite Hcap. etransitivity; [|exact Hsz]. subst c. unfold complete.
      destruct (entries (verdicts v) !! dns_ip job) as [e0|] eqn:E0; [|done]. case_match; [|done]. simpl.
      by rewrite map_size_insert_Some by (by eexists).
  - rewrite app_nil_r. destruct (in_flight_more _ _ heard _ Hf) as [_ _ _ Hc]. split; try done.
    intros name v Hv'. cbn [registry] in Hv'. destruct (Hc name v Hv') as [Ht ?]. split; [|done].
    intros ip e Ee. apply Ht in Ee as [?|[? Hin]]; [by left|right; split; [done|]].
    destruct (jobs_done _ _ _ _ _ Ei Hin) as [Ej|?]; [|done]. rewrite <- Ej in Hv. cbn in Hv. by rewrite Hv in Hv'.
Qed.
Lemma vreach_in_flight configured st log :
  map_Forall (fun _ v => blank v) configured -> vreach configured st log -> in_flight configured log st.
Proof.
  intros Hb. induction 1 as [spawned|st log ev _ IH].
  - split; simpl; try lia; [unfold dns_pool; etransitivity; [apply length_filter|by rewrite length_seq]|].
    intros name v Hv. destruct (Hb name v Hv) as [_ He]. unfold all_tracked. rewrite He, map_size_empty.
    split; [apply map_Forall_empty|]. exists v. split_and!; [done|done|lia].
  - destruct ev as [name ip now now'|name index fetched now| |i rev fwd now]; cbn [vhandle].
    + apply in_flight_more. by apply in_flight_query.
    + apply in_flight_more. destruct (registry st !! name) as [v|] eqn:Hv; [|done].
      destruct IH as [H1 H2 H3 H4]. split; try done. intros n x. unfold with_verifier. cbn [registry].
      destruct (decide (n = name)) as [->|]; [|rewrite lookup_insert_ne by done; apply H4].
      rewrite lookup_insert_eq. intros [= <-]. assert (verdicts (refresh_one v index fetched now) = verdicts v) as ->;
        [unfold refresh_one; by case_match|by apply H4].
    + apply in_flight_more. by apply in_flight_take.
    + by apply in_flight_complete.
Qed.

(** ** Properties *)

(** C31: A bot is let through only on evidence, and only on recent evidence.  Over any
    interleaving of queries, feed fetches and DNS answers: if a verifier confirms an address
    by range, some body fetched for it less than its maximal staleness ago parses to ranges
    that contain the address; if by DNS, less than its time to live ago the resolver gave for
    that very address a host under a configured suffix and, for the host, the address. *)
Theorem bot_confirmed_on_evidence configured st log name ip now now' reason st' :
  map_Forall (fun _ v => blank v) configured -> vreach configured st log ->
  verifier_result st name ip now now' = (true, reason, st') ->
  exists v, configured !! name = Some v /\
  ((reason = bs "verified_range" /\ exists i body t f, Fetched name i body t ∈ log
      /\ feed_parse body t = Some f /\ contains (ranges f) ip = true /\ elapsed now t < max_stale v)
   \/ (reason = bs "verified_dns" /\ exists t, dns_evidence log name (fcrdns_suffixes v) ip t
      /\ elapsed now' t < ttl (verdicts v))).
Proof.
  intros Hb Hr%vreach_sound Hq; [|done]. unfold verifier_result in Hq.
  destruct (registry st !! name) as [v|] eqn:Hv; [|done].
  destruct (Hr name v Hv) as (v0 & E0 & [H1 H2 H3 H4 H5 H6]). exists v0. split; [done|].
  destruct (existsb _ _) eqn:Ex in Hq.
  - injection Hq as <- <-. left. split; [done|]. apply existsb_Exists, Exists_exists in Ex as (f & Hin & Hf).
    apply list_elem_of_omap in Hin as (o & Hin & ->). apply list_elem_of_lookup in Hin as (i & Hi).
    destruct (H5 i f Hi) as (body & t & Hlog & Hp). exists i, body, t, f.
    unfold feed_contains, feed_fresh, age in Hf. to_prop. split_and!; try done.
    assert (updated f = t) as <-.
    { unfold feed_parse in Hp. destruct (add_feed_json _ _) as [rs n]. case_match; [done|]. by injection Hp as <-. }
    lia.
  - right. destruct (negb (bool_decide _)) in Hq; [|done].
    unfold fcrdns_cached in Hq. destruct (begin (verdicts v) ip now') as [lookup cache] eqn:Eb.
    destruct lookup as [verdict|g|].
    + destruct verdict; [|done]. injection Hq as <- <-. split; [done|].
      apply begin_cached in Eb as (e & Ee & Hve & Hel). exists (at_ e). split; [by apply (H6 ip e)|lia].
    + by destruct (try_send _ _) in Hq.
    + done.
Qed.

(** C32: The DNS side is bounded and forgets nothing.  Over any interleaving of queries,
    fetches and the steps of the DNS threads: at most 64 lookups wait and at most one per
    thread, two in all, is being resolved; no verdict cache exceeds its capacity; and every
    entry of a cache is either the verdict a DNS thread gave under that entry's generation,
    at the time recorded, or a negative placeholder whose lookup is still waiting or being
    resolved, so no address is left unconfirmed by a lookup that was dropped. *)
Theorem dns_lookups_tracked configured st log :
  map_Forall (fun _ v => blank v) configured -> vreach configured st log ->
  (length (dns_queue st) <= DNS_QUEUE_CAPACITY)%nat
  /\ (length (dns_running st) <= dns_workers st <= DNS_THREADS)%nat
  /\ forall name v, registry st !! name = Some v ->
     (exists v0, configured !! name = Some v0 /\ (size (entries (verdicts v)) <= capacity (verdicts v0))%nat)
     /\ forall ip e, entries (verdicts v) !! ip = Some e ->
        Answered name ip (entry_generation e) (verdict e) (at_ e) ∈ log
        \/ (verdict e = false /\ mkDnsJob name ip (entry_generation e) ∈ dns_queue st ++ dns_running st).
Proof.
  intros Hb Hr. destruct (vreach_in_flight _ _ _ Hb Hr) as [H1 H2 H3 H4]. split_and!; try done.
  intros name v Hv. destruct (H4 name v Hv) as (Ht & v0 & ? & _ & ?). split; [eauto|]. apply Ht.
Qed.
Lemma register_blank b verifiers now vs :
  map_Forall (fun _ v => blank v) verifiers -> register b verifiers now = Some vs ->
  map_Forall (fun _ v => blank v) vs.
Proof.
  intros Hb. unfold register. case_match; [done|]. intros [= <-]. apply map_Forall_insert_2; [|done].
  split; [|done]. simpl. by apply Forall_replicate.
Qed.
Lemma parse_time_range s t : parse_time s = Some t -> from_secs 1 <= t <= from_secs (365 * 86400).
Proof.
  unfold parse_time. destruct (if bool_decide _ then _ else _) as [num mult].
  destruct (parse_u 64 (trim num)) as [n|]; [|done]. destruct (in_u64 (n * mult)) eqn:E; [|done].
  apply in_u_iff in E. destruct (_ || _) eqn:Er; [done|]. to_prop. intros [= <-]. unfold from_secs, one_second. lia.
Qed.
Definition sane (v : Verifier) : Prop :=
  (length (urls v) <= 32)%nat /\ from_secs 1 <= refresh v <= max_stale v
  /\ max_stale v <= from_secs (365 * 86400)
  /\ from_secs 1 <= ttl (verdicts v) <= from_secs (365 * 86400) /\ capacity (verdicts v) = DNS_CACHE_ENTRIES
  /\ length (feeds v) = length (urls v).
Definition sane_builder (b : Builder) : Prop :=
  from_secs 1 <= b_refresh b <= from_secs (365 * 86400) /\ from_secs 1 <= b_max_stale b <= from_secs (365 * 86400)
  /\ from_secs 1 <= b_ttl b <= from_secs (365 * 86400).
Lemma verifier_inner_sane b args b' : sane_builder b -> verifier_inner b args = Some b' -> sane_builder b' /\ b_name b' = b_name b.
Proof.
  intros (H1 & H2 & H3). unfold verifier_inner.
  destruct (arg args 0) as [d|]; [|by intros [= <-]].
  destruct (beq d (bs "ip_ranges_url")); [intros [= <-]; by destruct (arg args 1)|].
  repeat match goal with
  | |- context [beq d ?x] => destruct (beq d x)
  end; try done; try (by intros [= <-]);
  (destruct (arg args 1) as [s|]; [|done]); destruct (parse_time s) as [t|] eqn:Et; try done;
  intros [= <-]; apply parse_time_range in Et; unfold sane_builder; simpl; auto.
Qed.

(** A verifier block that is accepted is sane and knows nothing yet: at most 32 feeds,
    refreshed at least once per maximal staleness, all durations between a second and a
    year, a cache of 2048 verdicts, one empty slot per feed; the other verifiers stay. *)
Theorem verifier_block_sane args block vs0 now vs :
  pow_gate_verifier_block args block vs0 now = Some vs ->
  exists name v, arg args 1 = Some name /\ vs = <[name := v]> vs0 /\ sane v /\ blank v.
Proof.
  unfold pow_gate_verifier_block. destruct (arg args 1) as [name|]; [|done].
  assert (sane_builder (new_builder name)) as Hs by (unfold sane_builder, new_builder, from_secs, one_second; simpl; lia).
  destruct (parse_inner (new_builder name) block) as [b|] eqn:Eb; [|done].
  assert (sane_builder b /\ b_name b = name) as [Hb Hn].
  { change name with (b_name (new_builder name)). revert Hs Eb. generalize (new_builder name) as b0.
    induction block as [|line block IH]; intros b0 Hs Eb; simpl in Eb; [by injection Eb as <-|].
    destruct (verifier_inner b0 line) as [b1|] eqn:E1; [|done].
    apply verifier_inner_sane in E1 as [Hs1 <-]; [|done]. by apply IH. }
  unfold register. destruct (_ || _) eqn:Er; [done|]. intros [= <-]. to_prop.
  eexists name, _. rewrite Hn. split_and!; [done|done| |].
  - destruct Hb as (? & ? & ?). unfold sane, from_secs, one_second in *. simpl in *.
    rewrite length_replicate. split_and!; (done || lia).
  - split; [|done]. simpl. by apply Forall_replicate.
Qed.
End verifier.

(** ** Witnesses *)

#[local] Instance demo_feed_json : Json Feed := {|
  to_vec _ := []; from_slice b := if beq b [] then None else Some [mkPrefix (Some b) None] |}.
Definition demo_lines : list (list bytes) :=
  [[bs "ip_ranges_url"; bs "https://x/feed"]; [bs "ip_ranges_max_stale"; bs "2d"]; [bs "fcrdns_suffix"; bs "bot.org"];
   [bs "fcrdns_ttl"; bs "30m"]].
Definition demo_configured : gmap bytes Verifier :=
  default ∅ (pow_gate_verifier_block [bs "pow_gate_verifier"; bs "bot"] demo_lines ∅ 0).
Lemma default_some {A} (d : A) o : match o with Some _ => true | None => false end = true -> o = Some (default d o).
Proof. by destruct o. Qed.
Lemma verifier_block_sane_witness :
  exists name v, arg [bs "pow_gate_verifier"; bs "bot"] 1 = Some name
    /\ demo_configured = <[name := v]> ∅ /\ sane v /\ blank v.
Proof.
  apply (verifier_block_sane [bs "pow_gate_verifier"; bs "bot"] demo_lines ∅ 0 demo_configured).
  apply default_some. vm_compute. reflexivity.
Defined.
Definition demo_vevents : list VEvent :=
  [Query (bs "bot") (V4 7) 10 11; Take; Resolve 0 (Some (bs "a.bot.org")) (fun _ => [V4 7]) 20].
Fixpoint vrun (st : Verifiers) (log : list Evidence) (evs : list VEvent) : Verifiers * list Evidence :=
  match evs with [] => (st, log) | ev :: evs' => vrun (vhandle st ev) (log ++ evidence st ev) evs' end.
Lemma vrun_reach configured st log evs :
  vreach configured st log -> vreach configured (vrun st log evs).1 (vrun st log evs).2.
Proof. revert st log. induction evs as [|ev evs IH]; intros st log Hr; [done|]. simpl. by apply IH, vreach_step. Qed.
Definition demo_vstate : Verifiers * list Evidence := vrun (start_refreshers demo_configured (fun _ => true)) [] demo_vevents.
Lemma demo_configured_blank : map_Forall (fun _ v => blank v) demo_configured.
Proof.
  apply (register_blank (default (new_builder []) (parse_inner (new_builder (bs "bot")) demo_lines)) ∅ 0);
    [apply map_Forall_empty|].
  unfold demo_configured, pow_gate_verifier_block. change (arg [bs "pow_gate_verifier"; bs "bot"] 1) with (Some (bs "bot")).
  cbv beta iota. destruct (parse_inner (new_builder (bs "bot")) demo_lines) as [b|] eqn:E; [|by vm_compute in E].
  cbn [default]. apply default_some. vm_compute in E. injection E as <-. vm_compute. reflexivity.
Qed.
Lemma bot_confirmed_on_evidence_witness :
  exists v, demo_configured !! bs "bot" = Some v /\
  ((bs "verified_dns" = bs "verified_range" /\ exists i body t f, Fetched (bs "bot") i body t ∈ demo_vstate.2
      /\ feed_parse body t = Some f /\ contains (ranges f) (V4 7) = true /\ elapsed 30 t < max_stale v)
   \/ (bs "verified_dns" = bs "verified_dns" /\ exists t, dns_evidence demo_vstate.2 (bs "bot") (fcrdns_suffixes v) (V4 7) t
      /\ elapsed 31 t < ttl (verdicts v))).
Proof.
  apply (bot_confirmed_on_evidence demo_configured demo_vstate.1 demo_vstate.2 (bs "bot") (V4 7) 30 31 (bs "verified_dns")
           (verifier_result demo_vstate.1 (bs "bot") (V4 7) 30 31).2).
  - apply demo_configured_blank.
  - apply vrun_reach. apply vreach_start.
  - vm_compute. reflexivity.
Defined.
(** One lookup answered, one being resolved, one waiting. *)
Definition demo_flight : Verifiers * list Evidence :=
  vrun (start_refreshers demo_configured (fun i => (i =? 0)%nat)) []
    [Query (bs "bot") (V4 7) 10 11; Take; Query (bs "bot") (V4 8) 12 13;
     Resolve 0 None (fun _ => []) 20; Take; Query (bs "bot") (V4 9) 21 22; Take].
Example demo_flight_jobs :
  dns_queue demo_flight.1 = [mkDnsJob (bs "bot") (V4 9) 3] /\ dns_running demo_flight.1 = [mkDnsJob (bs "bot") (V4 8) 2].
Proof. vm_compute. done. Qed.
Lemma dns_lookups_tracked_witness :
  (length (dns_queue demo_flight.1) <= DNS_QUEUE_CAPACITY)%nat
  /\ (length (dns_running demo_flight.1) <= dns_workers demo_flight.1 <= DNS_THREADS)%nat
  /\ forall name v, registry demo_flight.1 !! name = Some v ->
     (exists v0, demo_configured !! name = Some v0 /\ (size (entries (verdicts v)) <= capacity (verdicts v0))%nat)
     /\ forall ip e, entries (verdicts v) !! ip = Some e ->
        Answered name ip (entry_generation e) (verdict e) (at_ e) ∈ demo_flight.2
        \/ (verdict e = false /\ mkDnsJob name ip (entry_generation e) ∈ dns_queue demo_flight.1 ++ dns_running demo_flight.1).
Proof.
  apply (dns_lookups_tracked demo_configured demo_flight.1 demo_flight.2); [apply demo_configured_blank|].
  apply vrun_reach. apply vreach_start.
Defined.
