(* ===== verification/Http.v ===== *)
(** * [response.rs], [observability.rs] and [body_limit.rs]: the nginx side of a request

    A handler is a function on the request it serves and the worker it runs in, written in
    a small state monad.  [Rq] is what a handler writes to its request; [Worker] is what it
    shares with every other request of the worker: the clock and the entropy it reads, the
    redemption stores, and the completions the cluster back end owes to other requests.
    nginx's own functions are the class [Nginx]; allocation in nginx pools succeeds. *)
From Stdlib Require Import ZArith Lia.
From Stdlib Require Import Strings.Byte.
From stdpp Require Import base list strings option numbers countable sets gmap.
From S2P Require Import Prelude RustStr Crates StandIns Redemption Redis Ledger Cluster Runtime Verifier.
Local Open Scope Z_scope.

(** ** Status codes *)

Definition OK : Z := 200.
Definition NO_CONTENT : Z := 204.
Definition MOVED_TEMPORARILY : Z := 302.
Definition BAD_REQUEST : Z := 400.
Definition FORBIDDEN : Z := 403.
Definition NOT_ALLOWED : Z := 405.
Definition CONFLICT : Z := 409.
Definition REQUEST_ENTITY_TOO_LARGE : Z := 413.
Definition INTERNAL_SERVER_ERROR : Z := 500.
Definition SERVICE_UNAVAILABLE : Z := 503.
Definition NGX_HTTP_SPECIAL_RESPONSE : Z := 300.

(** ** The request as the handlers write it *)

(** [observability::State], the module's slot of [r->ctx]. *)
Record State := mkState {
  result : bytes; reason : bytes; obs_difficulty : Z; verify_bytes : Z; verify_enabled : bool;
}.
(** What reached the client: the header as it was when it was sent, and the body with the
    flag of a private copy. *)
Record Response := mkResponse {
  r_status : Z; r_length : Z; r_type : bytes; r_charset : bytes; r_headers : list (bytes * bytes);
  r_body : option (bytes * bool);
}.
(** The body callbacks a request may be waiting for. *)
Inductive Callback := VerifyBody | BodyReady.
Record Rq := mkRq {
  self : nat;
  ctx : option State;
  status_out : Z; length_out : Z; content_type : bytes; content_type_len : nat; charset : bytes;
  headers_out : list (bytes * bytes);
  responses : list Response;
  finalized : list Z;
  waiting : option Callback;
  info_log : list (bytes * bytes * Z);
}.
Definition new_request (id : nat) : Rq := mkRq id None 0 (-1) [] 0 [] [] [] [] None [].

Class Nginx := {
  add_header_out : list (bytes * bytes) -> bytes -> bytes -> list (bytes * bytes);
  send_header : Rq -> Z;
  header_only : Rq -> bool;
  output_filter : Rq -> bytes -> Z;
  read_client_request_body : Rq -> Z;
}.
(** A header line is appended to the list of header lines. *)
Class NginxLaws (N : Nginx) : Prop := {
  add_header_out_app l k v : add_header_out l k v = l ++ [(k, v)];
}.
#[export] Instance std_nginx : Nginx := {|
  add_header_out l k v := l ++ [(k, v)];
  send_header _ := 0; header_only _ := false; output_filter _ _ := 0; read_client_request_body _ := 0;
|}.
#[export] Instance std_nginx_laws : NginxLaws std_nginx.
Proof. by split. Qed.

(** ** The worker *)

Record Worker := mkWorker {
  clock : nat -> Z; ticks : nat;
  instants : nat -> Z; instant_ticks : nat;
  entropy : nat -> bytes; draws : nat;
  zone : Zone;
  cluster : option Runtime; current_msec : Z; dials : nat -> Dial;
  outbox : list Completion;
  verifiers : Verifiers;
}.

(** ** The monad *)

Definition M (A : Type) : Type := Rq * Worker -> A * (Rq * Worker).
Definition ret {A} (a : A) : M A := fun s => (a, s).
Definition bind {A C} (m : M A) (k : A -> M C) : M C := fun s => let '(a, s) := m s in k a s.
Notation "x <~ m ; k" := (bind m (fun x => k)) (at level 20, m at level 100, k at level 200) : pow_scope.
Notation "m ;~ k" := (bind m (fun _ => k)) (at level 100, k at level 200) : pow_scope.
Definition get_rq : M Rq := fun s => (s.1, s).
Definition get_worker : M Worker := fun s => (s.2, s).
Definition put_rq (f : Rq -> Rq) : M unit := fun s => (tt, (f s.1, s.2)).
Definition put_worker (f : Worker -> Worker) : M unit := fun s => (tt, (s.1, f s.2)).

(** [runtime::now]: the next reading of the wall clock. *)
Definition tick (w : Worker) : Worker :=
  mkWorker (clock w) (S (ticks w)) (instants w) (instant_ticks w) (entropy w) (draws w) (zone w) (cluster w)
    (current_msec w) (dials w) (outbox w) (verifiers w).
Definition now : M Z := fun '(r, w) => (clock w (ticks w), (r, tick w)).
(** [Instant::now]. *)
Definition instant : M Z := fun '(r, w) =>
  (instants w (instant_ticks w),
   (r, mkWorker (clock w) (ticks w) (instants w) (S (instant_ticks w)) (entropy w) (draws w) (zone w) (cluster w)
         (current_msec w) (dials w) (outbox w) (verifiers w))).
(** The next bytes of the OS random generator. *)
Definition random : M bytes := fun '(r, w) =>
  (entropy w (draws w),
   (r, mkWorker (clock w) (ticks w) (instants w) (instant_ticks w) (entropy w) (S (draws w)) (zone w) (cluster w)
         (current_msec w) (dials w) (outbox w) (verifiers w))).
Definition with_zone (z : Zone) (w : Worker) : Worker :=
  mkWorker (clock w) (ticks w) (instants w) (instant_ticks w) (entropy w) (draws w) z (cluster w)
    (current_msec w) (dials w) (outbox w) (verifiers w).
Definition with_cluster (rt : option Runtime) (others : list Completion) (w : Worker) : Worker :=
  mkWorker (clock w) (ticks w) (instants w) (instant_ticks w) (entropy w) (draws w) (zone w) rt
    (current_msec w) (dials w) (outbox w ++ others) (verifiers w).
Definition with_verifiers (v : Verifiers) (w : Worker) : Worker :=
  mkWorker (clock w) (ticks w) (instants w) (instant_ticks w) (entropy w) (draws w) (zone w) (cluster w)
    (current_msec w) (dials w) (outbox w) v.

Definition with_ctx (s : option State) (r : Rq) : Rq :=
  mkRq (self r) s (status_out r) (length_out r) (content_type r) (content_type_len r) (charset r)
    (headers_out r) (responses r) (finalized r) (waiting r) (info_log r).
Definition with_headers (h : list (bytes * bytes)) (r : Rq) : Rq :=
  mkRq (self r) (ctx r) (status_out r) (length_out r) (content_type r) (content_type_len r) (charset r)
    h (responses r) (finalized r) (waiting r) (info_log r).
Definition with_status (st len : Z) (r : Rq) : Rq :=
  mkRq (self r) (ctx r) st len (content_type r) (content_type_len r) (charset r)
    (headers_out r) (responses r) (finalized r) (waiting r) (info_log r).
Definition with_type (t : bytes) (n : nat) (c : bytes) (r : Rq) : Rq :=
  mkRq (self r) (ctx r) (status_out r) (length_out r) t n c
    (headers_out r) (responses r) (finalized r) (waiting r) (info_log r).
Definition with_response (x : Response) (r : Rq) : Rq :=
  mkRq (self r) (ctx r) (status_out r) (length_out r) (content_type r) (content_type_len r) (charset r)
    (headers_out r) (responses r ++ [x]) (finalized r) (waiting r) (info_log r).
Definition with_final (rc : Z) (r : Rq) : Rq :=
  mkRq (self r) (ctx r) (status_out r) (length_out r) (content_type r) (content_type_len r) (charset r)
    (headers_out r) (responses r) (finalized r ++ [rc]) (waiting r) (info_log r).
Definition with_waiting (c : Callback) (r : Rq) : Rq :=
  mkRq (self r) (ctx r) (status_out r) (length_out r) (content_type r) (content_type_len r) (charset r)
    (headers_out r) (responses r) (finalized r) (Some c) (info_log r).
Definition with_log (l : bytes * bytes * Z) (r : Rq) : Rq :=
  mkRq (self r) (ctx r) (status_out r) (length_out r) (content_type r) (content_type_len r) (charset r)
    (headers_out r) (responses r) (finalized r) (waiting r) (info_log r ++ [l]).

(** ** [observability.rs] *)

Definition initial_state : State := mkState (bs "off") (bs "disabled") 0 0 false.
(** [state(r, create)]: the slot, created on demand. *)
Definition state (create : bool) (r : Rq) : option State * Rq :=
  match ctx r with
  | Some s => (Some s, r)
  | None => if create then (Some initial_state, with_ctx (Some initial_state) r) else (None, r)
  end.
Definition record_in (res rea : bytes) (difficulty : Z) (r : Rq) : Rq :=
  let '(s, r) := state (negb (beq res (bs "off"))) r in
  let r := match s with
           | Some s => with_ctx (Some (mkState res rea difficulty (verify_bytes s) (verify_enabled s))) r
           | None => r
           end in
  if beq res (bs "accepted") || beq res (bs "issued") then with_log (res, rea, difficulty) r else r.
Definition record (res rea : bytes) (difficulty : Z) : M unit := put_rq (record_in res rea difficulty).
(** The variable handler: [data] is the index of the variable. *)
Definition get (cookie_effective_name : option bytes) (data : Z) (r : Rq) : bytes :=
  let '(res, rea, difficulty) :=
    match (state false r).1 with
    | None => (bs "off", bs "disabled", 0)
    | Some s => (result s, reason s, obs_difficulty s)
    end in
  if data =? 0 then res else if data =? 1 then rea else if data =? 2 then show_u difficulty
  else default [] cookie_effective_name.

(** ** [response.rs] *)

Section response.
Context {N : Nginx}.

Definition no_store : M unit := put_rq (fun r =>
  let present := existsb (fun kv => eq_ignore_ascii_case kv.1 (bs "cache-control")) (headers_out r) in
  if negb present then with_headers (add_header_out (headers_out r) (bs "Cache-Control") (bs "no-store")) r else r).
Definition add_header (k v : bytes) : M unit := put_rq (fun r => with_headers (add_header_out (headers_out r) k v) r).
Definition clock_headers (proof_skew : bool) : M unit :=
  t <~ now;
  add_header (bs "X-Pow-Now") (show_i t) ;~
  if proof_skew then add_header (bs "X-Pow-Reason") (bs "proof_skew") else ret tt.

(** [str::find]: the first position of a pattern. *)
Fixpoint find_str (p s : bytes) : option nat :=
  if starts_with p s then Some 0%nat
  else match s with [] => None | _ :: s' => n <-? find_str p s'; Some (S n) end.
Definition set_content_type (value : bytes) : M bool := fun '(r, w) =>
  let r := match find_str (bs "; charset=") value with
           | Some offset => with_type value offset (drop (offset + length (bs "; charset=")) value) r
           | None => with_type value (length value) [] r
           end in
  (true, (r, w)).

(** The header lines of a response, skipping those already there with the same value. *)
Fixpoint add_headers (headers : list (bytes * bytes)) (out : list (bytes * bytes)) : list (bytes * bytes) :=
  match headers with
  | [] => out
  | (name, value) :: headers' =>
      let duplicate := existsb (fun kv => eq_ignore_ascii_case kv.1 name && beq kv.2 value) out in
      add_headers headers' (if duplicate then out else add_header_out out name value)
  end.
Definition response_of (body : option (bytes * bool)) (r : Rq) : Response :=
  mkResponse (status_out r) (length_out r) (content_type r) (charset r) (headers_out r) body.
(** [send_body]: the header goes out with [send_header]; the body follows unless the header
    failed, the request wants no body, or there is none. *)
Definition send_body (status : Z) (ctype body : bytes) (headers : list (bytes * bytes)) (copy_body : bool) : M Z :=
  put_rq (with_status status (Z.of_nat (length body))) ;~
  ok <~ set_content_type ctype;
  if negb ok then ret NGX_ERROR else
  put_rq (fun r => with_headers (add_headers headers (headers_out r)) r) ;~
  no_store ;~
  r <~ get_rq;
  let rc := send_header r in
  if negb (rc =? NGX_OK) || header_only r || beq body []
  then put_rq (fun r => with_response (response_of None r) r) ;~ ret rc
  else put_rq (fun r => with_response (response_of (Some (body, copy_body)) r) r) ;~ ret (output_filter r body).
Definition send_with_headers (status : Z) (ctype body : bytes) (headers : list (bytes * bytes)) : M Z :=
  send_body status ctype body headers true.
Definition send (status : Z) (ctype body : bytes) (set_cookie : option bytes) : M Z :=
  match set_cookie with
  | Some c => send_with_headers status ctype body [(bs "Set-Cookie", c)]
  | None => send_with_headers status ctype body []
  end.
Definition finalize_request (rc : Z) : M unit := put_rq (with_final rc).
Definition send_cached_and_finish (status : Z) (ctype body : bytes) (headers : list (bytes * bytes)) : M Z :=
  rc <~ send_body status ctype body headers false; finalize_request rc ;~ ret NGX_DONE.
Definition send_and_finish (status : Z) (ctype body : bytes) (set_cookie : option bytes) : M Z :=
  rc <~ send status ctype body set_cookie; finalize_request rc ;~ ret NGX_DONE.
Definition send_and_finish_with_headers (status : Z) (ctype body : bytes) (headers : list (bytes * bytes)) : M Z :=
  rc <~ send_with_headers status ctype body headers; finalize_request rc ;~ ret NGX_DONE.
End response.

(** ** [body_limit.rs] *)

Definition VERIFY_LIMIT : Z := 8192.
(** A buffer on its way to the save filter: [fb_memory] is any of the memory flags,
    [fb_span] is [last - pos] when neither is null, [fb_file] [file_last - file_pos]. *)
Record FilterBuf := mkFilterBuf { fb_memory : bool; fb_span : option Z; fb_in_file : bool; fb_file : Z }.
Definition buf_size (b : FilterBuf) : Z :=
  match (if fb_memory b then fb_span b else None) with
  | Some n => Z.max 0 n
  | None => if fb_in_file b then Z.max 0 (fb_file b) else 0
  end.
Definition counter (r : Rq) : option Z :=
  match ctx r with
  | Some s => if verify_enabled s then Some (verify_bytes s) else None
  | None => None
  end.
Definition set_counter (n : Z) (r : Rq) : Rq :=
  match ctx r with
  | Some s => with_ctx (Some (mkState (result s) (reason s) (obs_difficulty s) n (verify_enabled s))) r
  | None => r
  end.
Definition enable (r : Rq) : bool * Rq :=
  let '(s, r) := state true r in
  match s with
  | None => (false, r)
  | Some s => (true, with_ctx (Some (mkState (result s) (reason s) (obs_difficulty s) 0 true)) r)
  end.
(** The loop over the chain: [true] when a buffer does not fit. *)
Fixpoint filter_loop (input : list (option FilterBuf)) (count : Z) (r : Rq) : bool * Rq :=
  match input with
  | [] => (false, r)
  | None :: input' => filter_loop input' count r
  | Some b :: input' =>
      let size := buf_size b in
      if Z.max 0 (VERIFY_LIMIT - count) <? size
      then (true, record_in (bs "rejected") (bs "body_too_large") 0 r)
      else filter_loop input' (count + size) (set_counter (count + size) r)
  end.
(** [next_rc] is what the next body filter returns; [None] when there is none. *)
Definition filter (next_rc : option Z) (input : list (option FilterBuf)) (r : Rq) : Z * Rq :=
  match counter r with
  | Some count =>
      let '(too_large, r) := filter_loop input count r in
      if too_large then (REQUEST_ENTITY_TOO_LARGE, r) else (default NGX_ERROR next_rc, r)
  | None => (default NGX_ERROR next_rc, r)
  end.

(** ** Lemmas on responses *)

(** What [send_body] leaves behind: one response, with [no-store] unless a caching policy was
    given, and nothing else of the request changed. *)
Definition has_cache_policy (h : list (bytes * bytes)) : bool :=
  existsb (fun kv => eq_ignore_ascii_case kv.1 (bs "cache-control")) h.
Definition uncached (h : list (bytes * bytes)) : list (bytes * bytes) :=
  if has_cache_policy h then h else h ++ [(bs "Cache-Control", bs "no-store")].
Lemma uncached_policy h : has_cache_policy (uncached h) = true.
Proof.
  unfold uncached. destruct (has_cache_policy h) eqn:E; [done|]. unfold has_cache_policy.
  rewrite existsb_app. simpl. by rewrite orb_true_r.
Qed.
Lemma uncached_idemp h : uncached (uncached h) = uncached h.
Proof. unfold uncached at 1. by rewrite uncached_policy. Qed.

Section response_lemmas.
Context {N : Nginx} {NL : NginxLaws N}.

Lemma no_store_eq r w : no_store (r, w) = (tt, (with_headers (uncached (headers_out r)) r, w)).
Proof.
  unfold no_store, put_rq, uncached, has_cache_policy. simpl.
  destruct (existsb _ (headers_out r)); simpl; [by destruct r|]. by rewrite add_header_out_app.
Qed.
Lemma add_headers_in headers out kv :
  kv ∈ add_headers headers out <-> kv ∈ out \/ (kv ∈ headers /\ kv ∈ add_headers headers out).
Proof.
  split; [|by intros [?|[_ ?]]; [|done]; revert out H; induction headers as [|[k v] hs IH]; intros out Hin; simpl;
    [done|apply IH; case_match; [done|rewrite add_header_out_app; set_solver]]].
  revert out. induction headers as [|[k v] hs IH]; intros out Hin; simpl in *; [by left|].
  destruct (IH _ Hin) as [Ho|[Hh _]]; [|right; split; [by right|done]]. case_match; [by left|].
  rewrite add_header_out_app in Ho. apply elem_of_app in Ho as [Ho|Ho]; [by left|].
  apply list_elem_of_singleton in Ho as ->. right. split; [by left|done].
Qed.
(** Every header line asked for is there, under its name, with its value. *)
Lemma add_headers_present headers out k v :
  (k, v) ∈ headers ->
  existsb (fun kv => eq_ignore_ascii_case kv.1 k && beq kv.2 v) (add_headers headers out) = true.
Proof.
  assert (forall hs o, existsb (fun kv => eq_ignore_ascii_case kv.1 k && beq kv.2 v) o = true ->
          existsb (fun kv => eq_ignore_ascii_case kv.1 k && beq kv.2 v) (add_headers hs o) = true) as Hmono.
  { induction hs as [|[k' v'] hs IH]; intros o Ho; simpl; [done|]. apply IH. case_match; [done|].
    rewrite add_header_out_app, existsb_app, Ho. done. }
  revert out. induction headers as [|[k' v'] hs IH]; intros out Hin; [set_solver|]. simpl.
  apply elem_of_cons in Hin as [[= <- <-]|Hin]; [|by apply IH]. apply Hmono.
  destruct (existsb _ out) eqn:E; [done|]. rewrite add_header_out_app, existsb_app. simpl.
  unfold eq_ignore_ascii_case. by rewrite !beq_refl, orb_true_r.
Qed.
Lemma add_headers_none out : add_headers [] out = out.
Proof. done. Qed.

Definition typed (ctype : bytes) (r : Rq) : Rq :=
  match find_str (bs "; charset=") ctype with
  | Some offset => with_type ctype offset (drop (offset + length (bs "; charset=")) ctype) r
  | None => with_type ctype (length ctype) [] r
  end.
(** The request just before its header goes out. *)
Definition prepared (status : Z) (ctype body : bytes) (headers : list (bytes * bytes)) (r : Rq) : Rq :=
  let r := typed ctype (with_status status (Z.of_nat (length body)) r) in
  with_headers (uncached (add_headers headers (headers_out r))) r.
Lemma send_body_eq status ctype body headers copy r w :
  send_body status ctype body headers copy (r, w) =
  let r1 := prepared status ctype body headers r in
  if negb (send_header r1 =? NGX_OK) || header_only r1 || beq body []
  then (send_header r1, (with_response (response_of None r1) r1, w))
  else (output_filter r1 body, (with_response (response_of (Some (body, copy)) r1) r1, w)).
Proof.
  unfold send_body, bind at 1 2 3. cbn [fst snd put_rq].
  replace (set_content_type ctype (with_status status (Z.of_nat (length body)) r, w))
    with (true, (typed ctype (with_status status (Z.of_nat (length body)) r), w))
    by (unfold set_content_type, typed; by destruct (find_str _ ctype)).
  cbn [negb]. unfold bind at 1. cbn [fst snd put_rq]. unfold bind at 1. rewrite no_store_eq.
  fold (prepared status ctype body headers r). unfold bind, get_rq, put_rq, ret. cbn [fst snd headers_out with_headers].
  cbv zeta. unfold prepared. by destruct (negb _ || _ || _).
Qed.
End response_lemmas.

(** ** Lemmas on the limiter *)

Definition chain_size (input : list (option FilterBuf)) : Z :=
  foldr (fun b n => match b with Some b => buf_size b + n | None => n end) 0 input.
Lemma buf_size_nonneg b : 0 <= buf_size b.
Proof. unfold buf_size. repeat case_match; lia. Qed.
Lemma chain_size_nonneg input : 0 <= chain_size input.
Proof. induction input as [|[b|] input IH]; simpl; [lia| |done]. pose proof (buf_size_nonneg b). lia. Qed.
Lemma set_counter_counter r n c : counter r = Some c -> counter (set_counter n r) = Some n.
Proof. unfold counter, set_counter. destruct (ctx r) as [s|]; [|done]. by destruct (verify_enabled s) eqn:E; simpl; rewrite ?E. Qed.
Lemma filter_loop_eq input count r :
  counter r = Some count -> 0 <= count <= VERIFY_LIMIT ->
  (filter_loop input count r).1 = (VERIFY_LIMIT <? count + chain_size input)
  /\ (count + chain_size input <= VERIFY_LIMIT ->
      counter (filter_loop input count r).2 = Some (count + chain_size input)).
Proof.
  revert count r. induction input as [|[b|] input IH]; intros count r Hc Hr; simpl.
  - rewrite (proj2 (Z.ltb_ge _ _)) by lia. split; [done|]. by rewrite Z.add_0_r.
  - pose proof (buf_size_nonneg b). pose proof (chain_size_nonneg input).
    destruct (Z.ltb_spec (Z.max 0 (VERIFY_LIMIT - count)) (buf_size b)) as [Hgt|Hle].
    + rewrite (proj2 (Z.ltb_lt _ _)) by lia. split; [done|lia].
    + rewrite Z.add_assoc. apply IH; [by eapply set_counter_counter|lia].
  - by apply IH.
Qed.
(** The calls of the filter for the chains of one body, in order. *)
Fixpoint feed (chains : list (list (option FilterBuf))) (r : Rq) : list Z * Rq :=
  match chains with
  | [] => ([], r)
  | c :: chains' =>
      let '(rc, r) := filter (Some NGX_OK) c r in let '(rcs, r) := feed chains' r in (rc :: rcs, r)
  end.
Definition body_size (chains : list (list (option FilterBuf))) : Z := foldr (fun c n => chain_size c + n) 0 chains.
Lemma body_size_nonneg chains : 0 <= body_size chains.
Proof. induction chains as [|c chains IH]; simpl; [lia|]. pose proof (chain_size_nonneg c). lia. Qed.
Lemma feed_eq chains count r :
  counter r = Some count -> 0 <= count <= VERIFY_LIMIT ->
  if VERIFY_LIMIT <? count + body_size chains
  then exists i, (i < length chains)%nat /\ take (S i) (feed chains r).1 = replicate i NGX_OK ++ [REQUEST_ENTITY_TOO_LARGE]
       /\ count + body_size (take i chains) <= VERIFY_LIMIT < count + body_size (take (S i) chains)
  else (feed chains r).1 = replicate (length chains) NGX_OK
       /\ counter (feed chains r).2 = Some (count + body_size chains).
Proof.
  revert count r. induction chains as [|c chains IH]; intros count r Hc Hr; simpl.
  { rewrite (proj2 (Z.ltb_ge _ _)) by lia. by rewrite Z.add_0_r. }
  pose proof (chain_size_nonneg c). pose proof (body_size_nonneg chains).
  destruct (filter_loop_eq c count r Hc Hr) as [E1 E2]. unfold filter. rewrite Hc.
  destruct (filter_loop c count r) as [too_large r1]. simpl in E1, E2. subst too_large.
  destruct (Z.ltb_spec VERIFY_LIMIT (count + chain_size c)) as [Hgt|Hle].
  - rewrite (proj2 (Z.ltb_lt _ _)) by lia. exists 0%nat. destruct (feed chains r1) as [rcs r2]. simpl.
    rewrite take_0. simpl. split; [lia|]. split; [done|lia].
  - specialize (IH (count + chain_size c) r1 (E2 Hle)). rewrite Z.add_assoc.
    destruct (feed chains r1) as [rcs r2]. simpl in *. destruct (VERIFY_LIMIT <? _) eqn:E.
    + destruct IH as (i & Hi & Ht & Hb); [lia|]. exists (S i). simpl. rewrite Ht. simpl in Hb. split; [lia|].
      split; [done|lia].
    + destruct IH as [-> ->]; [lia|done].
Qed.

(** ** Properties *)

(** C40: No more than 8192 bytes of a verification body get past the limiter, whatever its
    Content-Length said.  With the limiter enabled and the body arriving in any chains of
    buffers: a body that fits passes untouched and is counted exactly; for a larger one
    there is a first chain that is refused with 413, and what passed before it fits. *)
Theorem verify_body_bounded r0 r chains :
  enable r0 = (true, r) ->
  if VERIFY_LIMIT <? body_size chains
  then exists i, (i < length chains)%nat /\ take (S i) (feed chains r).1 = replicate i NGX_OK ++ [REQUEST_ENTITY_TOO_LARGE]
       /\ body_size (take i chains) <= VERIFY_LIMIT < body_size (take (S i) chains)
  else (feed chains r).1 = replicate (length chains) NGX_OK /\ counter (feed chains r).2 = Some (body_size chains).
Proof.
  intros He. apply (feed_eq chains 0); [|unfold VERIFY_LIMIT; lia].
  unfold enable in He. destruct (state true r0) as [[s|] r1]; [|done]. by injection He as <-.
Qed.
Definition demo_chains : list (list (option FilterBuf)) :=
  [[Some (mkFilterBuf true (Some 8000) false 0)]; [None; Some (mkFilterBuf false None true 193)]].
Lemma verify_body_bounded_witness :
  exists i, (i < 2)%nat /\ take (S i) (feed demo_chains (enable (new_request 1)).2).1
                           = replicate i NGX_OK ++ [REQUEST_ENTITY_TOO_LARGE]
  /\ body_size (take i demo_chains) <= VERIFY_LIMIT < body_size (take (S i) demo_chains).
Proof. apply (verify_body_bounded (new_request 1) (enable (new_request 1)).2 demo_chains). reflexivity. Defined.

(** No response of the module is left without a caching policy.  Each call of
    [send_body] puts out exactly one response, with the status asked for and the length of
    the body; every header line asked for is in it, and a Cache-Control line; with none
    given that line is no-store.  The body goes out unless the header failed, the request
    takes no body or the body is empty. *)
Theorem response_complete {N : Nginx} {NL : NginxLaws N} status ctype body headers copy r w :
  let '(rc, (r', w')) := send_body status ctype body headers copy (r, w) in
  w' = w /\ ctx r' = ctx r /\ finalized r' = finalized r
  /\ exists x, responses r' = responses r ++ [x]
     /\ r_status x = status /\ r_length x = Z.of_nat (length body) /\ r_type x = ctype
     /\ has_cache_policy (r_headers x) = true
     /\ (has_cache_policy (add_headers headers (headers_out r)) = false ->
         (bs "Cache-Control", bs "no-store") ∈ r_headers x)
     /\ (forall k v, (k, v) ∈ headers ->
           existsb (fun kv => eq_ignore_ascii_case kv.1 k && beq kv.2 v) (r_headers x) = true)
     /\ (r_body x = Some (body, copy) \/ r_body x = None).
Proof.
  rewrite send_body_eq. cbv zeta.
  set (r1 := prepared status ctype body headers r).
  assert (headers_out r1 = uncached (add_headers headers (headers_out r))) as Hh
    by (unfold r1, prepared, typed; by destruct (find_str _ ctype)).
  assert (responses r1 = responses r /\ ctx r1 = ctx r /\ finalized r1 = finalized r /\ status_out r1 = status
          /\ length_out r1 = Z.of_nat (length body) /\ content_type r1 = ctype) as (E1 & E2 & E3 & E4 & E5 & E6)
    by (unfold r1, prepared, typed; by destruct (find_str _ ctype)).
  clearbody r1.
  assert (forall b, b = Some (body, copy) \/ b = None ->
    exists x, responses (with_response (response_of b r1) r1) = responses r ++ [x]
     /\ r_status x = status /\ r_length x = Z.of_nat (length body) /\ r_type x = ctype
     /\ has_cache_policy (r_headers x) = true
     /\ (has_cache_policy (add_headers headers (headers_out r)) = false ->
         (bs "Cache-Control", bs "no-store") ∈ r_headers x)
     /\ (forall k v, (k, v) ∈ headers ->
           existsb (fun kv => eq_ignore_ascii_case kv.1 k && beq kv.2 v) (r_headers x) = true)
     /\ (r_body x = Some (body, copy) \/ r_body x = None)) as Hx.
  { intros b Hb. exists (response_of b r1). simpl. rewrite E1, E4, E5, E6, Hh.
    split_and!; try done; [apply uncached_policy| |].
    - unfold uncached. intros ->. set_solver.
    - intros k v Hin%(add_headers_present headers (headers_out r)). unfold uncached. case_match; [done|].
      by rewrite existsb_app, Hin. }
  destruct (negb _ || _ || _); simpl; rewrite E2, E3; (split_and!; [done..|]); apply Hx; auto.
Qed.
