(* ===== verification/Challenge.v ===== *)
(** * [challenge.rs], templates: the challenge pages and the solver's cache key

    The pages and the solver are assets compiled into the module; their bytes, and the
    package version, are the class [Assets]. *)
From Stdlib Require Import ZArith Lia.
From Stdlib Require Import Strings.Byte.
From stdpp Require Import base list strings option numbers countable sets.
From S2P Require Import Prelude RustStr Crates StandIns Codec Ip.
Local Open Scope Z_scope.

Class Assets := {
  DEFAULT_PAGE : bytes; DEFAULT_NOJS_PAGE : bytes; SOLVER_JS : bytes; PKG_VERSION : bytes;
}.

(** [replace_all]: each round of the loop drops at least a byte when the needle is not empty,
    so the length of the haystack is enough fuel. *)
Fixpoint replace_loop (fuel : nat) (haystack needle with_ : bytes) : bytes :=
  match fuel, haystack with
  | S f, b :: rest =>
      match strip_prefix needle haystack with
      | Some tail => with_ ++ replace_loop f tail needle with_
      | None => b :: replace_loop f rest needle with_
      end
  | _, _ => []
  end.
Definition replace_all (haystack needle with_ : bytes) : bytes :=
  replace_loop (length haystack) haystack needle with_.

Definition dquote : bytes := [Byte.x22].
Section pages.
Context {A : Assets} {B : Base64} {S : Sha256}.

Definition solver_query : bytes := bs "v=" ++ PKG_VERSION ++ bs "-" ++ b64url (sha_digest SOLVER_JS).
(** [read] is the file system; an empty path selects the embedded page. *)
Definition load_page (read : bytes -> option bytes) (path : bytes) (difficulty : Z) (endpoint : bytes)
  : option bytes :=
  raw <-? (if (length path =? 0)%nat then Some DEFAULT_PAGE else read path);
  let versioned := bs "{{endpoint}}solver.js?" ++ solver_query in
  let raw := replace_all raw (bs "{{endpoint}}solver.js" ++ dquote) (versioned ++ dquote) in
  let raw := replace_all raw (bs "{{endpoint}}solver.js'") (versioned ++ bs "'") in
  let rendered := replace_all raw (bs "{{difficulty}}") (show_u difficulty) in
  Some (replace_all rendered (bs "{{endpoint}}") endpoint).
Definition load_nojs_page (read : bytes -> option bytes) (path : bytes) : option bytes :=
  if (length path =? 0)%nat then Some DEFAULT_NOJS_PAGE else read path.
(** The body [serve_nojs_page] renders. *)
Definition nojs_body (template pass_url : bytes) (delay : Z) : bytes :=
  replace_all (replace_all template (bs "{{pass_url}}") pass_url) (bs "{{delay}}") (show_i delay).
End pages.

(** ** Reference *)

(** The text has the needle somewhere. *)
Definition occurs (needle text : bytes) : Prop := exists a b, text = a ++ needle ++ b.
(** Leftmost occurrences: between one and the next there is none, nor one that begins before
    the cut and ends after it. *)
Inductive cut (needle : bytes) : bytes -> list bytes -> Prop :=
  | cut_last s : ~ occurs needle s -> cut needle s [s]
  | cut_next p s ps :
      (forall a b, p ++ needle ++ s = a ++ needle ++ b -> (length p <= length a)%nat) ->
      cut needle s ps -> cut needle (p ++ needle ++ s) (p :: ps).

Lemma replace_loop_fuel f g s needle with_ :
  needle <> [] -> (length s <= f)%nat -> (length s <= g)%nat ->
  replace_loop f s needle with_ = replace_loop g s needle with_.
Proof.
  intros Hn. revert g s. induction f as [|f IH]; intros g s Hf Hg.
  { destruct s; [by destruct g|simpl in Hf; lia]. }
  destruct s as [|b s]; [by destruct g|]. destruct g as [|g]; [simpl in Hg; lia|]. cbn [replace_loop].
  destruct (strip_prefix needle (b :: s)) as [tl|] eqn:E.
  - apply strip_prefix_Some in E. f_equal. apply (f_equal length) in E. rewrite length_app in E.
    destruct needle; [done|]. simpl in *. apply IH; lia.
  - f_equal. apply IH; simpl in *; lia.
Qed.
Lemma replace_all_prefix s needle with_ :
  needle <> [] -> replace_all (needle ++ s) needle with_ = with_ ++ replace_all s needle with_.
Proof.
  intros Hn. unfold replace_all. destruct needle as [|c needle]; [done|].
  change ((c :: needle) ++ s) with (c :: (needle ++ s)) at 1 2. cbn [length replace_loop].
  rewrite (proj2 (strip_prefix_Some (c :: needle) (c :: needle ++ s) s)) by done. f_equal.
  apply replace_loop_fuel; [done| |done]. rewrite length_app. lia.
Qed.
Lemma replace_all_cons b s needle with_ :
  strip_prefix needle (b :: s) = None -> replace_all (b :: s) needle with_ = b :: replace_all s needle with_.
Proof. intros E. unfold replace_all. cbn [length replace_loop]. by rewrite E. Qed.
Lemma replace_all_skip p s needle with_ :
  needle <> [] ->
  (forall a b, p ++ s = a ++ needle ++ b -> (length p <= length a)%nat) ->
  replace_all (p ++ s) needle with_ = p ++ replace_all s needle with_.
Proof.
  intros Hn. induction p as [|x p IH]; intros Hno; [done|]. rewrite <- !app_comm_cons.
  rewrite replace_all_cons.
  - f_equal. apply IH. intros a b E. specialize (Hno (x :: a) b). simpl in Hno. rewrite E in Hno.
    specialize (Hno eq_refl). lia.
  - destruct (strip_prefix needle (x :: p ++ s)) as [tl|] eqn:E; [|done].
    apply strip_prefix_Some in E. specialize (Hno [] tl E). simpl in Hno. lia.
Qed.
Lemma replace_all_none s needle with_ : needle <> [] -> ~ occurs needle s -> replace_all s needle with_ = s.
Proof.
  intros Hn Hno. rewrite <- (app_nil_r s) at 1. rewrite replace_all_skip; [apply app_nil_r|done|].
  intros a b E. rewrite app_nil_r in E. by destruct Hno; exists a, b.
Qed.
(** Every text has a cut: the loop finds it. *)
Lemma cut_exists needle s : needle <> [] -> exists ps, cut needle s ps.
Proof.
  intros Hn. induction s as [s IH] using (induction_ltof1 _ (@length byte)). unfold ltof in IH.
  assert ((~ occurs needle s) \/ exists p t, s = p ++ needle ++ t
            /\ forall a b, s = a ++ needle ++ b -> (length p <= length a)%nat) as [Hno|(p & t & -> & Hl)].
  { clear IH. induction s as [|x s IHs].
    - left. intros (a & b & E). destruct a; [|done]. by destruct needle.
    - destruct (strip_prefix needle (x :: s)) as [tl|] eqn:E.
      + apply strip_prefix_Some in E. right. exists [], tl. split; [done|]. simpl. lia.
      + destruct IHs as [Hno|(p & t & -> & Hl)].
        * left. intros (a & b & Ea). destruct a as [|y a]; [by rewrite (proj2 (strip_prefix_Some _ _ b)) in E|].
          injection Ea as -> Ea. by apply Hno; exists a, b.
        * right. exists (x :: p), t. split; [done|]. intros a b Ea.
          destruct a as [|y a]; [by rewrite (proj2 (strip_prefix_Some _ _ b)) in E|].
          injection Ea as -> Ea. apply Hl in Ea. simpl. lia. }
  - exists [s]. by constructor.
  - destruct (IH t) as [ps Hps].
    { rewrite !length_app. destruct needle; [done|simpl; lia]. }
    exists (p :: ps). by constructor.
Qed.
Lemma cut_nonempty needle s ps : cut needle s ps -> ps <> [].
Proof. by destruct 1. Qed.
Lemma replace_all_cut needle with_ s ps :
  needle <> [] -> cut needle s ps -> s = join needle ps /\ replace_all s needle with_ = join with_ ps.
Proof.
  intros Hn. induction 1 as [s Hno|p s ps Hl Hc IH].
  - split; [done|]. by apply replace_all_none.
  - destruct IH as [IH1 IH2]. pose proof (cut_nonempty _ _ _ Hc). rewrite !join_cons by done.
    split; [by rewrite <- IH1|]. rewrite replace_all_skip by done. by rewrite replace_all_prefix, IH2.
Qed.

(** ** Properties *)

(** [replace_all] is textual substitution.  Every text has a division at the leftmost,
    non-overlapping occurrences of the needle; the text is its pieces joined by the needle,
    and the result is the same pieces joined by the replacement: nothing else changes, and
    no occurrence is left out. *)
Theorem replace_all_substitutes needle with_ s :
  needle <> [] ->
  exists ps, cut needle s ps /\ s = join needle ps /\ replace_all s needle with_ = join with_ ps.
Proof.
  intros Hn. destruct (cut_exists needle s Hn) as [ps Hps]. exists ps. split; [done|].
  by apply replace_all_cut.
Qed.
Lemma replace_all_substitutes_witness :
  exists ps, cut (bs "{{x}}") (bs "a{{x}}b{{{x}}") ps /\ bs "a{{x}}b{{{x}}" = join (bs "{{x}}") ps
             /\ replace_all (bs "a{{x}}b{{{x}}") (bs "{{x}}") (bs "1") = join (bs "1") ps.
Proof. apply (replace_all_substitutes (bs "{{x}}") (bs "1") (bs "a{{x}}b{{{x}}")). vm_compute. discriminate. Defined.
Example replace_all_ex : replace_all (bs "a{{x}}b{{{x}}") (bs "{{x}}") (bs "1") = bs "a1b{1".
Proof. reflexivity. Qed.
