(* ===== verification/Gate.v ===== *)
(** * The access handler, the endpoints and the engine shells

    [access.rs], [challenge.rs] (routing and serving), [engine/clearance.rs],
    [engine/pow.rs], [engine/nojs.rs], [replay.rs] of the module and the response half of
    [redemption.rs].  Every handler is written in the monad of [Http]; reading the request
    body is asynchronous in nginx, so [verify_solution] and [capture_then_challenge] leave
    the request waiting and the body callbacks are handlers of their own. *)
From Stdlib Require Import ZArith Lia.
From Stdlib Require Import Strings.Byte.
From stdpp Require Import base list strings option numbers countable sets gmap.
From S2P Require Import Prelude RustStr Crates StandIns Codec Mac Ip Context Target Pow ReqProof Uri.
From S2P Require Import Clearance Nojs Redemption Ledger Cluster Decision Replay Runtime Verifier Http Challenge.
Local Open Scope Z_scope.

(** What [solver.js] posts to [verify]. *)
Record Submission := mkSubmission {
  sub_version : Z; sub_signature : bytes; sub_salt : bytes; sub_exp : Z; sub_token : bytes; sub_nonce : Z;
  sub_pubkey : bytes; sub_difficulty : Z;
}.
#[export] Instance submission_val : RustVal Submission := fun s =>
  in_u8 (sub_version s) && utf8_valid (sub_signature s) && utf8_valid (sub_salt s) && in_i64 (sub_exp s)
  && utf8_valid (sub_token s) && in_u64 (sub_nonce s) && utf8_valid (sub_pubkey s) && in_u64 (sub_difficulty s).

(** An nginx complex value: whether it has variables, its literal text, and what nginx
    evaluates it to for the request. *)
Record ComplexValue := mkComplex { cv_lengths : bool; cv_value : bytes; cv_eval : option bytes }.
(** A location: its merged configuration, the key [load_key] gave for it, and its two complex
    values. *)
Record Location := mkLoc {
  lc : LocationConf; loaded_key : bytes; decision : option ComplexValue; trusted : option ComplexValue;
}.

Definition CHALLENGE_GRACE : Z := 120.
Definition text_plain : bytes := bs "text/plain".
Definition text_html : bytes := bs "text/html; charset=utf-8".
Definition no_store_header : bytes * bytes := (bs "Cache-Control", bs "no-store").
(** [engine::clearance::Clearance]. *)
Inductive Check := CValid | CProofSkewed | CInvalid.
#[export] Instance check_eq_dec : EqDecision Check.
Proof. solve_decision. Defined.

Section gate.
Context {B : Base64} {H : Hmac} {C : Subtle} {S : Sha256} {E : Ecdsa} {CB : CryptoBackend} {JT : JsonText}
  {JO : JsonObject} {JC : Json Clearance.Clearance} {JG : Json Nojs.Grant} {JP : Json Pow.Tuple}
  {JS : Json Submission} {JN : Json (Pow.Challenge * Z)} {A : Assets} {N : Nginx}.

Definition resolve (l : Location) : Cfg := build_cfg (lc l) (loaded_key l).

(** ** Policy *)

Definition eval_complex_value (cv : option ComplexValue) : bytes :=
  match cv with
  | None => []
  | Some cv =>
      if negb (cv_lengths cv) then from_utf8_lossy (cv_value cv)
      else match cv_eval cv with Some v => from_utf8_lossy v | None => [] end
  end.
Definition is_trusted (cv : option ComplexValue) : bool :=
  match cv with
  | None => false
  | Some cv => match cv_eval cv with Some v => beq v (bs "1") | None => false end
  end.
Definition assurance_for (d : Decision) (cfg : Cfg) : Assurance :=
  match d with
  | ChallengeNoJs delay => NoJs delay
  | Challenge (Some n) => Pow n
  | _ => Pow (cfg_difficulty cfg)
  end.
Definition required_assurance (l : Location) : Assurance :=
  assurance_for (Decision.parse (eval_complex_value (decision l))) (resolve l).

(** ** Redemption *)

Definition worker_issuer (w : Worker) : option bytes :=
  if Cluster.enabled (cluster w) then Cluster.issuer (cluster w) else s <-? zone w; Some (Ledger.issuer s).
Definition get_context (r : Request) (cfg : Cfg) : M (option bytes) :=
  w <~ get_worker; ret (client_context r cfg (worker_issuer w)).

Definition redirect_body (path : bytes) : bytes :=
  bs "<html><body><a href=" ++ dquote ++ path ++ dquote ++ bs ">Continue</a></body></html>" ++ [Byte.x0a].
Definition finish (outcome : Outcome) (grant : Grant) : M Z :=
  match outcome with
  | Accepted =>
      record (bs "accepted") (kind grant) (Ledger.difficulty grant) ;~
      match redirect grant with
      | Some path =>
          send_and_finish_with_headers MOVED_TEMPORARILY text_html (redirect_body path)
            [(bs "Location", path); (bs "Set-Cookie", Ledger.cookie grant)]
      | None =>
          send_and_finish_with_headers NO_CONTENT text_plain [] [(bs "Set-Cookie", Ledger.cookie grant)]
      end
  | other =>
      let '(status, result, reason) :=
        match other with
        | Reused => (CONFLICT, bs "rejected", bs "replay")
        | Redemption.Expired => (BAD_REQUEST, bs "rejected", bs "expired")
        | _ => (SERVICE_UNAVAILABLE, bs "error", bs "redemption_unavailable")
        end in
      record result reason (Ledger.difficulty grant) ;~
      send_and_finish_with_headers status text_plain (bs "redemption rejected" ++ [Byte.x0a]) []
  end.
(** [redemption::consume]: the clock is read under the lock, when there is a zone. *)
Definition consume_token (token : bytes) (expires : Z) : M Outcome :=
  w <~ get_worker;
  match zone w with
  | None => ret Redemption.Full
  | Some _ =>
      t <~ now; w <~ get_worker;
      let '(o, z) := Ledger.consume t (zone w) token expires in
      put_worker (with_zone z) ;~ ret o
  end.
Fixpoint finish_all (own : list Completion) : M unit :=
  match own with
  | [] => ret tt
  | (_, o, g) :: own' => finish o g ;~ finish_all own'
  end.
(** [redemption::redeem]: completions of other requests, which a failed connect can bring
    with it, go to the outbox. *)
Definition redeem (token : bytes) (expires : Z) (grant : Grant) : M Z :=
  r <~ get_rq; w <~ get_worker;
  match cluster w with
  | Some rt =>
      let '(cs, rt') := Cluster.redeem (clock w (ticks w)) (current_msec w) (dials w) rt (self r) token expires grant in
      (if bool_decide (next rt' = next rt) then ret tt else put_worker tick) ;~
      put_worker (with_cluster (Some rt') (List.filter (fun c => negb (c.1.1 =? self r)%nat) cs)) ;~
      finish_all (List.filter (fun c => (c.1.1 =? self r)%nat) cs) ;~
      ret NGX_DONE
  | None => o <~ consume_token token expires; finish o grant
  end.

(** ** [engine/clearance.rs] *)

Definition can_carry_proof (r : Request) : bool :=
  match header r (bs "sec-fetch-dest") with
  | Some dest => eq_ignore_ascii_case dest (bs "empty")
  | None => false
  end.
Definition parse_proof (h : bytes) : option (bytes * Z) :=
  '(sig_b64, ts) <-? rsplit_once "." h;
  sig <-? unb64url_fixed 64 sig_b64;
  ts <-? parse_i 64 ts;
  Some (sig, ts).
(** The callback of [verified]: accepted, and whether only the timestamp was wrong. *)
Definition proof_accepted (r : Request) (cfg : Cfg) (t : Z) (cleared : VerifiedClearance) : bool * bool :=
  match header r (bs "x-pow-proof") with
  | Some proof_header =>
      match parse_proof proof_header with
      | None => (false, false)
      | Some (sig, ts) =>
          let '(method, path) := method_and_path r in
          match ReqProof.check (public_key cleared) method path ts sig t (cfg_proof_skew cfg) with
          | Valid => (true, false)
          | Skewed => (false, true)
          | Invalid => (false, false)
          end
      end
  | None => (negb (cfg_require_proof cfg) || negb (can_carry_proof r), false)
  end.
Definition verified (r : Request) (cfg : Cfg) (required : Assurance) : M (bool * bool) :=
  if negb (key_ok cfg) then ret (false, false) else
  t <~ now;
  match Runtime.cookie r (name (cookie_config cfg)) with
  | None => ret (false, false)
  | Some token =>
      if (4096 <? length token)%nat then ret (false, false) else
      context <~ get_context r cfg;
      match context with
      | None => ret (false, false)
      | Some context =>
          ret (default (false, false)
                 (with_verified_prepared (authenticator cfg) token context required t (cfg_clearance_ttl cfg)
                    (proof_accepted r cfg t)))
      end
  end.
Definition check_clearance (r : Request) (cfg : Cfg) (required : Assurance) : M Check :=
  v <~ verified r cfg required;
  let '(ok, skewed) := v in
  ret (if ok then CValid else if skewed then CProofSkewed else CInvalid).

(** ** Serving *)

Definition serve_nojs_page (template pass_url : bytes) (delay : Z) : M Z :=
  send_and_finish_with_headers OK text_html (nojs_body template pass_url delay) [no_store_header].
Definition serve_challenge_page (page : bytes) : M Z := send_cached_and_finish OK text_html page [].
Definition serve_solver (r : Request) : M Z :=
  let cache := if beq (args r) solver_query then bs "public, max-age=31536000, immutable" else bs "no-store" in
  send_cached_and_finish OK (bs "text/javascript; charset=utf-8") SOLVER_JS [(bs "Cache-Control", cache)].
Definition status (r : Request) (cfg : Cfg) (required : Assurance) : M Z :=
  t <~ now;
  let base := [no_store_header; (bs "X-Pow-Now", show_i t)] in
  c <~ check_clearance r cfg required;
  match c with
  | CValid => send_and_finish_with_headers NO_CONTENT text_plain [] base
  | CProofSkewed =>
      record (bs "rejected") (bs "proof_skew") 0 ;~
      send_and_finish_with_headers CONFLICT text_plain (bs "proof timestamp outside window" ++ [Byte.x0a])
        (base ++ [(bs "X-Pow-Reason", bs "proof_skew")])
  | CInvalid =>
      send_and_finish_with_headers CONFLICT text_plain (bs "clearance missing or invalid" ++ [Byte.x0a]) base
  end.

(** ** [engine/pow.rs] *)

Definition cluster_down (w : Worker) : bool :=
  Cluster.enabled (cluster w) && negb (available (cluster w) (current_msec w)).
Definition issue_challenge (r : Request) (cfg : Cfg) (required : Assurance) : M Z :=
  w <~ get_worker;
  if negb (key_ok cfg) || cluster_down w then
    record (bs "error") (bs "issuer_unavailable") 0 ;~
    send_and_finish SERVICE_UNAVAILABLE text_plain (bs "unavailable" ++ [Byte.x0a]) None
  else
    record (bs "rejected") (bs "invalid_key") 0 ;~
    match required with
    | NoJs _ => ret BAD_REQUEST
    | Pow difficulty =>
        let pk := s <-? header_limited r (bs "x-pow-key") 87;
                  if (length s =? 87)%nat then unb64url s else None in
        match (pk <-? pk; if valid_public_key pk then Some pk else None) with
        | None => ret BAD_REQUEST
        | Some pk =>
            context <~ get_context r cfg;
            match context with
            | None => ret SERVICE_UNAVAILABLE
            | Some context =>
                t <~ now; raw <~ random;
                let challenge := Pow.issue raw (Runtime.key cfg) pk context difficulty t CHALLENGE_GRACE in
                record (bs "issued") (bs "pow") difficulty ;~
                t' <~ now;
                send_and_finish_with_headers OK (bs "application/json") (to_vec (challenge, t')) [no_store_header]
            end
        end
    end.
(** [verify_solution] starts the body read; [verify_body] runs when it is done. *)
Definition verify_solution (r : Request) : M Z :=
  record (bs "rejected") (bs "invalid_submission") 0 ;~
  if VERIFY_LIMIT <? content_length_n r then ret REQUEST_ENTITY_TOO_LARGE else
  rq <~ get_rq;
  let '(ok, rq) := enable rq in
  put_rq (fun _ => rq) ;~
  if negb ok then ret SERVICE_UNAVAILABLE else
  let rc := read_client_request_body rq in
  if NGX_HTTP_SPECIAL_RESPONSE <=? rc then ret rc
  else put_rq (with_waiting VerifyBody) ;~ finalize_request NGX_DONE ;~ ret NGX_DONE.
Definition finalize_status (code : Z) : M unit :=
  rc <~ send code text_plain (bs "rejected" ++ [Byte.x0a]) None; finalize_request NGX_OK.
Definition verdict_reason (v : Pow.Verdict) : bytes :=
  match v with
  | Pow.Expired => bs "challenge_expired"
  | BadToken => bs "bad_token"
  | _ => bs "wrong_solution"
  end.
Definition verify_body (l : option Location) (r : Request) : M unit :=
  match l with
  | None => finalize_status BAD_REQUEST
  | Some l =>
      let cfg := resolve l in
      record (bs "rejected") (bs "invalid_submission") (cfg_difficulty cfg) ;~
      if negb (key_ok cfg) then finalize_status SERVICE_UNAVAILABLE else
      t <~ now;
      match request_body_limited r VERIFY_LIMIT with
      | None => finalize_status BAD_REQUEST
      | Some body =>
      match from_slice body : option Submission with
      | None => finalize_status BAD_REQUEST
      | Some sub =>
      match required_assurance l with
      | NoJs _ => finalize_status BAD_REQUEST
      | Pow difficulty =>
      match (pk <-? unb64url (sub_pubkey sub); if valid_public_key pk then Some pk else None) with
      | None => finalize_status BAD_REQUEST
      | Some pk =>
      context <~ get_context r cfg;
      match context with
      | None => finalize_status SERVICE_UNAVAILABLE
      | Some context =>
      let challenge := mkChallenge (sub_version sub) (sub_salt sub) (sub_exp sub) (sub_difficulty sub)
                         (sub_token sub) in
      let verdict := Pow.verify_solution (Runtime.key cfg) challenge (sub_nonce sub) pk context difficulty t in
      if negb (bool_decide (verdict = Pow.Ok)) then
        record (bs "rejected") (verdict_reason verdict) (cfg_difficulty cfg) ;~ finalize_status BAD_REQUEST
      else
      match unb64url (sub_signature sub) with
      | None => finalize_status BAD_REQUEST
      | Some signature =>
      if negb (verify_challenge pk (Pow.token challenge) signature) then finalize_status BAD_REQUEST
      else
        let token := Clearance.issue (Runtime.key cfg) pk context (required_assurance l) t (cfg_clearance_ttl cfg) in
        let grant := mkGrant (build_set_cookie token (cookie_config cfg)) None difficulty (bs "pow") in
        _ <~ redeem (Pow.token challenge) (Pow.exp challenge) grant; ret tt
      end end end end end end
  end.

(** ** [engine/nojs.rs] *)

Definition query_param (r : Request) (name : bytes) : option bytes :=
  '(_, v) <-? List.find (fun kv => beq kv.1 name) (omap (split_once "=") (split_on "&" (args r))); Some v.
Definition pass_url (cfg : Cfg) (grant : bytes) : bytes := cfg_endpoint cfg ++ bs "pass?t=" ++ grant.
Definition pass (r : Request) (cfg : Cfg) (nojs_template : bytes) (required : Assurance) : M Z :=
  if negb (key_ok cfg) then
    send_and_finish_with_headers SERVICE_UNAVAILABLE text_plain (bs "unavailable" ++ [Byte.x0a]) []
  else
    record (bs "rejected") (bs "invalid_grant") 0 ;~
    t <~ now;
    match required with
    | Pow _ => ret BAD_REQUEST
    | NoJs delay =>
        context <~ get_context r cfg;
        match context with
        | None => ret SERVICE_UNAVAILABLE
        | Some context =>
            let token := default [] (query_param r (bs "t")) in
            match Nojs.verify (Runtime.key cfg) token t context with
            | Nojs.Ok grant =>
                if negb (Nojs.delay grant =? delay) then ret BAD_REQUEST else
                let expires := i64_add (Nojs.iat grant) NOJS_GRACE in
                let clearance := Clearance.issue (Runtime.key cfg) [] context required t (cfg_clearance_ttl cfg) in
                redeem token expires
                  (mkGrant (build_set_cookie clearance (cookie_config cfg)) (Some (Nojs.path grant)) 0 (bs "nojs"))
            | TooEarly grant =>
                rid <~ random;
                let fresh := Nojs.issue rid (Runtime.key cfg) (Nojs.path grant) delay t context in
                serve_nojs_page nojs_template (pass_url cfg fresh) (Nojs.delay grant)
            | Bad =>
                send_and_finish_with_headers MOVED_TEMPORARILY text_html (redirect_body (bs "/"))
                  [(bs "Location", bs "/"); no_store_header]
            end
        end
    end.

(** ** Routing *)

Definition protocol_suffix (suffix : bytes) : bool :=
  existsb (fun s => beq suffix (bs s)) ["challenge"; "pass"; "status"; "verify"]%string.
Definition method_ok (suffix method : bytes) : bool :=
  if existsb (fun s => beq suffix (bs s)) ["challenge"; "pass"; "status"]%string then beq method (bs "GET")
  else if beq suffix (bs "solver.js") then beq method (bs "GET") || beq method (bs "HEAD")
  else if beq suffix (bs "verify") then beq method (bs "POST")
  else true.
Definition route_internal (r : Request) (cfg : Cfg) (suffix : bytes) (required : Assurance) (nojs_template : bytes)
  : M (option Z) :=
  let ok := method_ok suffix (method_name r) in
  (if protocol_suffix suffix || (beq suffix (bs "solver.js") && negb ok) then no_store else ret tt) ;~
  if negb ok then ret (Some NOT_ALLOWED)
  else if beq suffix (bs "challenge") then rc <~ issue_challenge r cfg required; ret (Some rc)
  else if beq suffix (bs "solver.js") then
    record (bs "asset") (bs "solver") 0 ;~ rc <~ serve_solver r; ret (Some rc)
  else if beq suffix (bs "verify") then rc <~ verify_solution r; ret (Some rc)
  else if beq suffix (bs "status") then rc <~ status r cfg required; ret (Some rc)
  else if beq suffix (bs "pass") then rc <~ pass r cfg nojs_template required; ret (Some rc)
  else ret None.

(** ** [replay.rs] of the module *)

Definition RENDERS_HTML : list bytes := map bs ["document"; "iframe"; "frame"]%string.
Definition should_capture (r : Request) (cfg : Cfg) : bool :=
  if negb (cfg_replay cfg) then false else
  match content_length r with
  | Some n =>
      if n <=? cfg_replay_max_body cfg then
        if match header r (bs "sec-fetch-dest") with
           | Some dest => negb (existsb (fun d => eq_ignore_ascii_case dest d) RENDERS_HTML)
           | None => false
           end
        then false
        else method_replayable (method_name r)
      else false
  | None => false
  end.
Definition capture_then_challenge (page : bytes) : M Z :=
  rq <~ get_rq;
  if NGX_HTTP_SPECIAL_RESPONSE <=? read_client_request_body rq then serve_challenge_page page
  else put_rq (with_waiting BodyReady) ;~ finalize_request NGX_DONE ;~ ret NGX_DONE.
Definition body_ready (l : option Location) (r : Request) : M unit :=
  match l with
  | None =>
      _ <~ send_and_finish_with_headers INTERNAL_SERVER_ERROR text_plain (bs "error" ++ [Byte.x0a]) []; ret tt
  | Some l =>
      let page := page_cache (lc l) in
      let body := default [] (request_body r) in
      let content_type := default [] (header r (bs "content-type")) in
      let rendered :=
        match Captured_new (method_name r) (unparsed_uri r) content_type body with
        | Some c => if Z.of_nat (length body) <=? cfg_replay_max_body (resolve l) then inject page (script_tag c) else page
        | None => page
        end in
      _ <~ send_and_finish_with_headers OK text_html rendered [no_store_header]; ret tt
  end.

(** ** [access.rs] *)

Definition deny : M Z := no_store ;~ record (bs "deny") (bs "policy") 0 ;~ ret FORBIDDEN.
Definition ask_verifier (name : bytes) (ip : IpAddr) : M (bool * bytes) :=
  i <~ instant; i' <~ instant; w <~ get_worker;
  let '(ok, reason, v) := verifier_result (verifiers w) name ip i i' in
  put_worker (with_verifiers v) ;~ ret (ok, reason).
Definition challenge_request (l : Location) (r : Request) (d : Decision) (required : Assurance) (difficulty : Z) : M Z :=
  let cfg := resolve l in
  clearance <~ check_clearance r cfg required;
  if bool_decide (clearance = CValid) then
    record (bs "bypass") (bs "clearance") difficulty ;~ ret NGX_DECLINED
  else
    no_store ;~
    (if bool_decide (clearance = CProofSkewed)
     then record (bs "challenge") (bs "proof_skew") difficulty ;~ clock_headers true else ret tt) ;~
    match d with
    | ChallengeNoJs delay =>
        w <~ get_worker;
        if cluster_down w then
          record (bs "error") (bs "issuer_unavailable") 0 ;~ no_store ;~ ret SERVICE_UNAVAILABLE
        else
          context <~ get_context r cfg;
          match context with
          | None => ret SERVICE_UNAVAILABLE
          | Some context =>
              t <~ now; rid <~ random;
              let grant := Nojs.issue rid (Runtime.key cfg) (unparsed_uri r) delay t context in
              record (bs "issued") (bs "nojs") 0 ;~
              serve_nojs_page (nojs_page_cache (lc l)) (pass_url cfg grant) delay
          end
    | _ =>
        if should_capture r cfg then capture_then_challenge (page_cache (lc l))
        else serve_challenge_page (page_cache (lc l))
    end.
Definition pow_gate_access (loc : option Location) (r : Request) : M Z :=
  match loc with
  | None => ret NGX_DECLINED
  | Some l =>
      if negb (Runtime.enabled (lc l)) then
        record (bs "off") (bs "disabled") 0 ;~ ret NGX_DECLINED
      else
        let cfg := resolve l in
        let d := Decision.parse (eval_complex_value (decision l)) in
        let required := assurance_for d cfg in
        let difficulty := match required with Pow n => n | NoJs _ => 0 end in
        record (bs "challenge") (bs "no_clearance") difficulty ;~
        match (if beq (cfg_endpoint cfg) [] then None else strip_prefix (cfg_endpoint cfg) (uri r)) with
        | Some suffix =>
            rc <~ route_internal r cfg suffix required (nojs_page_cache (lc l));
            ret (default NGX_DECLINED rc)
        | None =>
            if is_trusted (trusted l) then
              record (bs "bypass") (bs "trusted") difficulty ;~ ret NGX_DECLINED
            else
            match d with
            | Allow => record (bs "bypass") (bs "allow") difficulty ;~ ret NGX_DECLINED
            | Deny => deny
            | Verify name =>
                allowed <~ match client_ip r with
                           | Some ip =>
                               res <~ ask_verifier name ip;
                               let '(ok, reason) := res in
                               record (if ok then bs "bypass" else bs "challenge") reason difficulty ;~ ret ok
                           | None => ret false
                           end;
                if allowed : bool then ret NGX_DECLINED else challenge_request l r d required difficulty
            | _ => challenge_request l r d required difficulty
            end
        end
  end.
End gate.

(** ** The handlers as functions *)

Section gate_lemmas.
Context {B : Base64} {BL : Base64Laws B} {H : Hmac} {HL : HmacLaws H} {C : Subtle} {CL : SubtleLaws C}
  {S : Sha256} {E : Ecdsa} {CB : CryptoBackend} {JT : JsonText}
  {JO : JsonObject} {JC : Json Clearance.Clearance} {JCL : JsonLaws Clearance.Clearance}
  {JG : Json Nojs.Grant} {JP : Json Pow.Tuple}
  {JS : Json Submission} {JN : Json (Pow.Challenge * Z)} {A : Assets} {N : Nginx} {NL : NginxLaws N}.

(** *** Return codes *)

Definition never (c : Z) (m : M Z) : Prop := forall s, (m s).1 <> c.
Lemma never_ret c x : x <> c -> never c (ret x).
Proof. intros Hx s. done. Qed.
Lemma never_bind {X} c (m : M X) (k : X -> M Z) : (forall a, never c (k a)) -> never c (bind m k).
Proof. intros Hk s. unfold bind. destruct (m s) as [a s']. apply Hk. Qed.
Ltac nd := repeat first
  [ apply never_bind; intros ?
  | apply never_ret; done
  | match goal with
    | |- never _ (if ?b then _ else _) => destruct b eqn:?
    | |- never _ (let '(_, _) := ?p in _) => destruct p
    | |- never _ (match ?x with _ => _ end) => destruct x eqn:?
    end ].
Lemma never_finish o g : never NGX_DECLINED (finish o g).
Proof. unfold finish, send_and_finish_with_headers. nd. Qed.
Lemma never_redeem t e g : never NGX_DECLINED (redeem t e g).
Proof. unfold redeem. nd; apply never_finish. Qed.
Lemma never_issue r cfg a : never NGX_DECLINED (issue_challenge r cfg a).
Proof. unfold issue_challenge, send_and_finish, send_and_finish_with_headers. cbv zeta. nd. Qed.
Lemma never_verify r : never NGX_DECLINED (verify_solution r).
Proof.
  unfold verify_solution. cbv zeta. nd. apply never_ret. to_prop.
  unfold NGX_HTTP_SPECIAL_RESPONSE, NGX_DECLINED in *. lia.
Qed.
Lemma never_status r cfg a : never NGX_DECLINED (status r cfg a).
Proof. unfold status, send_and_finish_with_headers. cbv zeta. nd. Qed.
Lemma never_pass r cfg t a : never NGX_DECLINED (pass r cfg t a).
Proof. unfold pass, serve_nojs_page, send_and_finish_with_headers. cbv zeta. nd; apply never_finish. Qed.
Lemma never_challenge_rest l r d :
  never NGX_DECLINED
    (match d with
     | ChallengeNoJs delay =>
        w <~ get_worker;
        if cluster_down w then
          record (bs "error") (bs "issuer_unavailable") 0 ;~ no_store ;~ ret SERVICE_UNAVAILABLE
        else
          context <~ get_context r (resolve l);
          match context with
          | None => ret SERVICE_UNAVAILABLE
          | Some context =>
              t <~ now; rid <~ random;
              let grant := Nojs.issue rid (Runtime.key (resolve l)) (unparsed_uri r) delay t context in
              record (bs "issued") (bs "nojs") 0 ;~
              serve_nojs_page (nojs_page_cache (lc l)) (pass_url (resolve l) grant) delay
          end
     | _ =>
        if should_capture r (resolve l) then capture_then_challenge (page_cache (lc l))
        else serve_challenge_page (page_cache (lc l))
     end).
Proof.
  unfold capture_then_challenge, serve_challenge_page, serve_nojs_page, send_and_finish_with_headers,
    send_cached_and_finish. cbv zeta. nd.
Qed.

(** *** The clearance check *)

(** The check on what the worker knows when it starts: one reading of the clock. *)
Definition clearance_check (r : Request) (cfg : Cfg) (required : Assurance) (w : Worker) : bool * bool :=
  default (false, false)
    (if negb (key_ok cfg) then None else
     token <-? Runtime.cookie r (name (cookie_config cfg));
     if (4096 <? length token)%nat then None else
     context <-? client_context r cfg (worker_issuer w);
     with_verified_prepared (authenticator cfg) token context required (clock w (ticks w)) (cfg_clearance_ttl cfg)
       (proof_accepted r cfg (clock w (ticks w)))).
Lemma check_clearance_eq r cfg required rq w :
  (check_clearance r cfg required (rq, w)).1 =
    (let '(ok, skewed) := clearance_check r cfg required w in
     if ok then CValid else if skewed then CProofSkewed else CInvalid)
  /\ exists w', (check_clearance r cfg required (rq, w)).2 = (rq, w') /\ (w' = w \/ w' = tick w).
Proof.
  unfold check_clearance, verified, clearance_check, bind, ret, get_context, now, get_worker.
  destruct (negb (key_ok cfg)); simpl; [eauto|].
  destruct (Runtime.cookie r _) as [token|]; simpl; [|eauto].
  destruct (4096 <? length token)%nat; simpl; [eauto|].
  change (worker_issuer (tick w)) with (worker_issuer w).
  destruct (client_context r cfg (worker_issuer w)) as [ctx|]; simpl; [|eauto].
  destruct (default _ _) as [ok skewed]. simpl. eauto.
Qed.
(** The request holds a clearance: a cookie the verifier takes for this client and this
    requirement at this moment, and the proof the location asks for. *)
Definition cleared (r : Request) (cfg : Cfg) (required : Assurance) (w : Worker) : Prop :=
  key_ok cfg = true /\ exists token context raw c k,
    Runtime.cookie r (name (cookie_config cfg)) = Some token
    /\ client_context r cfg (worker_issuer w) = Some context
    /\ (length token <= 4096)%nat /\ token = token_of (Runtime.key cfg) raw /\ from_slice raw = Some c
    /\ current c context required (clock w (ticks w)) (cfg_clearance_ttl cfg) /\ carries_key c k
    /\ (proof_accepted r cfg (clock w (ticks w)) (verified_of c k)).1 = true.
Lemma clearance_check_valid l r required w :
  in_i64 (clearance_ttl (lc l)) = true -> in_i64 (clock w (ticks w)) = true ->
  (clearance_check r (resolve l) required w).1 = true <-> cleared r (resolve l) required w.
Proof.
  intros Ht Hn. unfold clearance_check, cleared. destruct (key_ok (resolve l)); simpl negb; cbv iota;
    [|split; [done|by intros [? _]]].
  destruct (Runtime.cookie r _) as [token|]; [|split; [done|by intros (_ & ? & ? & ? & ? & ? & ? & _)]].
  destruct (Nat.ltb_spec 4096 (length token)) as [Hl|Hl].
  { split; [done|]. intros (_ & t & ctx & raw & c & k & [= <-] & _ & Hle & _). lia. }
  destruct (client_context r (resolve l) (worker_issuer w)) as [ctx|];
    [|split; [done|by intros (_ & ? & ? & ? & ? & ? & _ & ? & _)]].
  change (authenticator (resolve l)) with (new (Runtime.key (resolve l))).
  destruct (with_verified_prepared _ token ctx required _ _ _) as [[ok sk]|] eqn:Ev; simpl.
  - apply with_verified_Some in Ev as (Hle & raw & c & k & Htok & Ej & Hc & Hk & Ep); [|done..].
    split.
    + intros ->. split; [done|]. exists token, ctx, raw, c, k. rewrite <- Ep. split_and!; done.
    + intros (_ & t2 & ctx2 & raw2 & c2 & k2 & [= <-] & [= <-] & _ & Ht2 & Ej2 & _ & Hk2 & Hp2).
      rewrite Htok in Ht2. apply token_of_inj in Ht2 as <-. rewrite Ej in Ej2. injection Ej2 as <-.
      assert (k = k2) as <-.
      { destruct Hk as [Ek _], Hk2 as [Ek2 _]. rewrite Ek in Ek2. by apply b64url_inj. }
      rewrite <- Ep in Hp2. done.
  - split; [done|]. intros (_ & t2 & ctx2 & raw & c & k & [= <-] & [= <-] & Hle & Htok & Ej & Hc & Hk & Hp). exfalso.
    assert (with_verified_prepared (new (Runtime.key (resolve l))) token ctx required (clock w (ticks w))
              (cfg_clearance_ttl (resolve l)) (proof_accepted r (resolve l) (clock w (ticks w)))
            = Some (proof_accepted r (resolve l) (clock w (ticks w)) (verified_of c k))) as Hs.
    { apply with_verified_Some; [done|done|]. split; [done|]. exists raw, c, k. done. }
    congruence.
Qed.

(** *** The decision *)

Lemma challenge_request_passes l r d a n rq w :
  (challenge_request l r d a n (rq, w)).1 = NGX_DECLINED <-> (clearance_check r (resolve l) a w).1 = true.
Proof.
  unfold challenge_request. destruct (check_clearance_eq r (resolve l) a rq w) as [E1 (w' & E2 & _)].
  cbv zeta. unfold bind at 1. destruct (check_clearance r (resolve l) a (rq, w)) as [c s']. simpl in E1, E2. subst s'.
  destruct (clearance_check r (resolve l) a w) as [ok sk]. simpl. rewrite E1. clear E1. destruct ok.
  - rewrite bool_decide_eq_true_2 by done. done.
  - rewrite bool_decide_eq_false_2 by (by destruct sk). split; [|done]. intros Hd. exfalso. revert Hd.
    apply never_bind. intros _. apply never_bind. intros _. apply never_challenge_rest.
Qed.
Definition endpoints : list bytes := map bs ["challenge"; "solver.js"; "verify"; "status"; "pass"]%string.
Lemma route_internal_passes r cfg suffix a t s :
  default NGX_DECLINED (route_internal r cfg suffix a t s).1 = NGX_DECLINED <-> suffix ∉ endpoints.
Proof.
  assert (forall (m : M Z) s, never NGX_DECLINED m ->
    default NGX_DECLINED ((bind m (fun rc => ret (Some rc))) s).1 = NGX_DECLINED -> False) as Hn.
  { intros m s' Hm. unfold bind, ret. specialize (Hm s'). destruct (m s') as [x s'']. done. }
  unfold route_internal. cbv zeta. unfold bind at 1.
  destruct ((if protocol_suffix suffix || _ then no_store else ret tt) s) as [u s1]. clear u.
  assert (suffix ∉ endpoints <-> beq suffix (bs "challenge") = false /\ beq suffix (bs "solver.js") = false
          /\ beq suffix (bs "verify") = false /\ beq suffix (bs "status") = false /\ beq suffix (bs "pass") = false) as ->.
  { unfold endpoints. cbn [map]. rewrite !not_elem_of_cons, !beq_false. set_solver. }
  destruct (method_ok suffix (method_name r)) eqn:Em; simpl negb; cbv iota.
  - destruct (beq suffix (bs "challenge")); [split; [intros Hx; exfalso; revert Hx; apply Hn, never_issue|naive_solver]|].
    destruct (beq suffix (bs "solver.js")).
    { split; [|naive_solver]. intros Hx. exfalso. unfold bind at 1 in Hx. cbn [record put_rq] in Hx.
      apply Hn in Hx; [done|]. unfold serve_solver, send_cached_and_finish. cbv zeta. nd. }
    destruct (beq suffix (bs "verify")); [split; [intros Hx; exfalso; revert Hx; apply Hn, never_verify|naive_solver]|].
    destruct (beq suffix (bs "status")); [split; [intros Hx; exfalso; revert Hx; apply Hn, never_status|naive_solver]|].
    destruct (beq suffix (bs "pass")); [split; [intros Hx; exfalso; revert Hx; apply Hn, never_pass|naive_solver]|].
    done.
  - split; [done|]. intros (E1 & E2 & E3 & E4 & E5). exfalso. revert Em. unfold method_ok. cbn [existsb].
    by rewrite E1, E2, E3, E4, E5.
Qed.
(** Below the endpoint prefix: the rest of the path. *)
Definition internal (cfg : Cfg) (r : Request) : option bytes :=
  if beq (cfg_endpoint cfg) [] then None else strip_prefix (cfg_endpoint cfg) (uri r).
Definition bot_confirmed (w : Worker) (name : bytes) (ip : IpAddr) : bool :=
  (verifier_result (verifiers w) name ip (instants w (instant_ticks w)) (instants w (Datatypes.S (instant_ticks w)))).1.1.
Lemma access_passes l r rq w :
  Runtime.enabled (lc l) = true ->
  (pow_gate_access (Some l) r (rq, w)).1 = NGX_DECLINED <->
  match internal (resolve l) r with
  | Some suffix => suffix ∉ endpoints
  | None =>
      let d := Decision.parse (eval_complex_value (decision l)) in
      is_trusted (trusted l) = true \/ d = Allow
      \/ (exists name ip, d = Verify name /\ client_ip r = Some ip /\ bot_confirmed w name ip = true)
      \/ (d <> Deny /\ (clearance_check r (resolve l) (required_assurance l) w).1 = true)
  end.
Proof.
  intros He. unfold pow_gate_access, internal, required_assurance. rewrite He. change (negb true) with false. cbv iota zeta.
  set (d := Decision.parse (eval_complex_value (decision l))).
  set (a := assurance_for d (resolve l)). set (n := match a with Pow n => n | NoJs _ => 0 end).
  unfold bind at 1. cbn [record put_rq fst snd].
  destruct (if beq (cfg_endpoint (resolve l)) [] then None else _) as [suffix|].
  { rewrite <- (route_internal_passes r (resolve l) suffix a (nojs_page_cache (lc l))
                  (record_in (bs "challenge") (bs "no_clearance") n rq, w)).
    unfold bind, ret. cbn [fst snd].
    by destruct (route_internal r (resolve l) suffix a (nojs_page_cache (lc l))
                   (record_in (bs "challenge") (bs "no_clearance") n rq, w)) as [rc s']. }
  destruct (is_trusted (trusted l)); [split; [by left|done]|].
  destruct d as [o|delay| | |name] eqn:Ed.
  - rewrite challenge_request_passes. naive_solver.
  - rewrite challenge_request_passes. naive_solver.
  - split; [by right; left|done].
  - unfold deny, bind, ret. destruct (no_store _) as [u s1]. simpl. split; [done|naive_solver].
  - destruct (client_ip r) as [ip|] eqn:Eip.
    + unfold bind, ask_verifier, bind, instant, get_worker. cbn [fst snd verifiers].
      unfold bot_confirmed. cbn [instants instant_ticks].
      destruct (verifier_result (verifiers w) name ip _ _) as [[ok reason] v] eqn:Ev. cbn [fst snd put_worker ret record put_rq].
      assert (bot_confirmed w name ip = ok) as Eb by (unfold bot_confirmed; by rewrite Ev).
      destruct ok.
      * split; [|done]. intros _. right. right. left. exists name, ip. split_and!; [done|done|by rewrite Ev].
      * rewrite challenge_request_passes.
        change (clearance_check r (resolve l) a (with_verifiers v _)) with (clearance_check r (resolve l) a w).
        split; [by right; right; right|]. intros [?|[?|[(n' & ip' & [= <-] & [= <-] & Hx)|[_ Hx]]]]; try done.
        by rewrite Ev in Hx.
    + unfold bind at 1, ret at 1. rewrite challenge_request_passes. split; [by right; right; right|].
      intros [?|[?|[(n' & ip' & _ & Hx & _)|[_ Hx]]]]; done.
Qed.

(** *** The verification callback *)

Lemma record_in_fields res rea d r :
  headers_out (record_in res rea d r) = headers_out r /\ responses (record_in res rea d r) = responses r
  /\ finalized (record_in res rea d r) = finalized r /\ self (record_in res rea d r) = self r
  /\ waiting (record_in res rea d r) = waiting r.
Proof.
  unfold record_in, state.
  destruct (ctx r), (negb (beq res (bs "off"))), (beq res (bs "accepted") || beq res (bs "issued")); done.
Qed.
(** The challenge a submission claims to answer. *)
Definition claimed (sub : Submission) : Pow.Challenge :=
  mkChallenge (sub_version sub) (sub_salt sub) (sub_exp sub) (sub_difficulty sub) (sub_token sub).
(** A submission that passes every check: the body parses, the key is a point, the client is
    this one, the challenge is ours, current, for this key, client and difficulty, it is
    solved, and the key's owner signed its token. *)
Record checked (l : Location) (r : Request) (w : Worker) (sub : Submission) (pk ctx : bytes) (d : Z) : Prop := mkChecked {
  ck_key : key_ok (resolve l) = true;
  ck_body : exists body, request_body_limited r VERIFY_LIMIT = Some body /\ from_slice body = Some sub;
  ck_policy : required_assurance l = Pow d;
  ck_pk : unb64url (sub_pubkey sub) = Some pk /\ valid_public_key pk = true;
  ck_context : client_context r (resolve l) (worker_issuer w) = Some ctx;
  ck_solved : Pow.verify_solution (Runtime.key (resolve l)) (claimed sub) (sub_nonce sub) pk ctx d (clock w (ticks w)) = Pow.Ok;
  ck_signed : exists sig, unb64url (sub_signature sub) = Some sig /\ verify_challenge pk (sub_token sub) sig = true;
}.
(** The clearance and the grant for it. *)
Definition earned (l : Location) (w : Worker) (pk ctx : bytes) (d : Z) : bytes :=
  Clearance.issue (Runtime.key (resolve l)) pk ctx (Pow d) (clock w (ticks w)) (cfg_clearance_ttl (resolve l)).
Definition pow_grant (l : Location) (w : Worker) (pk ctx : bytes) (d : Z) : Grant :=
  mkGrant (build_set_cookie (earned l w pk ctx d) (cookie_config (resolve l))) None d (bs "pow").
Definition opened (l : Location) (rq : Rq) : Rq :=
  record_in (bs "rejected") (bs "invalid_submission") (cfg_difficulty (resolve l)) rq.
Lemma verify_body_checked l r rq w sub pk ctx d :
  checked l r w sub pk ctx d ->
  verify_body (Some l) r (rq, w) =
  (tt, (redeem (sub_token sub) (sub_exp sub) (pow_grant l w pk ctx d) (opened l rq, tick w)).2).
Proof.
  intros [Hk (body & Hb & Hs) Hd [Hp Hv] Hc Hok (sig & Hsig & Hver)]. unfold verify_body. cbv zeta.
  unfold bind at 1. cbn [record put_rq fst snd]. rewrite Hk. cbn [negb]. unfold bind at 1, now.
  rewrite Hb, Hs, Hd, Hp. cbv beta iota. rewrite Hv. unfold get_context, bind, get_worker, ret.
  cbn [fst snd]. change (worker_issuer (tick w)) with (worker_issuer w). rewrite Hc. fold (claimed sub).
  rewrite Hok. rewrite bool_decide_eq_true_2 by done. cbn [negb]. rewrite Hsig.
  change (Pow.token (claimed sub)) with (sub_token sub). rewrite Hver. cbn [negb]. cbv beta iota zeta.
  change (Pow.exp (claimed sub)) with (sub_exp sub).
  unfold pow_grant, earned, opened. by destruct (redeem _ _ _ _) as [x s].
Qed.
(** Otherwise the answer is an error, and nothing was redeemed. *)
Lemma verify_body_unchecked l r rq w :
  (forall sub pk ctx d, ~ checked l r w sub pk ctx d) ->
  exists code rq1 w1, verify_body (Some l) r (rq, w) = finalize_status code (rq1, w1)
    /\ headers_out rq1 = headers_out rq /\ responses rq1 = responses rq /\ finalized rq1 = finalized rq
    /\ self rq1 = self rq /\ waiting rq1 = waiting rq /\ (w1 = w \/ w1 = tick w).
Proof.
  intros Hno. unfold verify_body. cbv zeta. unfold bind at 1. cbn [record put_rq fst snd].
  fold (opened l rq).
  assert (headers_out (opened l rq) = headers_out rq /\ responses (opened l rq) = responses rq
          /\ finalized (opened l rq) = finalized rq /\ self (opened l rq) = self rq
          /\ waiting (opened l rq) = waiting rq) as (E1 & E2 & E3 & E4 & E5)
    by (split_and!; apply record_in_fields).
  assert (forall code w1, w1 = w \/ w1 = tick w ->
    exists code' rq1 w1', finalize_status code (opened l rq, w1) = finalize_status code' (rq1, w1')
      /\ headers_out rq1 = headers_out rq /\ responses rq1 = responses rq /\ finalized rq1 = finalized rq
      /\ self rq1 = self rq /\ waiting rq1 = waiting rq /\ (w1' = w \/ w1' = tick w)) as Hout by (intros code w1 Hw; exists code, (opened l rq), w1; done).
  destruct (key_ok (resolve l)) eqn:Hk; cbn [negb]; [|by apply Hout; left]. unfold bind at 1, now.
  destruct (request_body_limited r VERIFY_LIMIT) as [body|] eqn:Hb; [|by apply Hout; right].
  destruct (from_slice body) as [sub|] eqn:Hs; [|by apply Hout; right].
  destruct (required_assurance l) as [d|delay] eqn:Hd; [|by apply Hout; right].
  destruct (unb64url (sub_pubkey sub)) as [pk|] eqn:Hp; [|by apply Hout; right]. cbv beta iota.
  destruct (valid_public_key pk) eqn:Hv; [|by apply Hout; right].
  unfold get_context, bind at 1 2, get_worker, ret at 1. cbn [fst snd].
  change (worker_issuer (tick w)) with (worker_issuer w).
  destruct (client_context r (resolve l) (worker_issuer w)) as [ctx|] eqn:Hc; [|by apply Hout; right].
  fold (claimed sub). destruct (bool_decide _) eqn:Hok; cbn [negb].
  - apply bool_decide_eq_true in Hok. destruct (unb64url (sub_signature sub)) as [sig|] eqn:Hsig; [|by apply Hout; right].
    destruct (verify_challenge pk (Pow.token (claimed sub)) sig) eqn:Hver; cbn [negb]; [|by apply Hout; right].
    exfalso. apply (Hno sub pk ctx d). split; try done; eauto.
  - unfold bind at 1. cbn [record put_rq fst snd]. eexists _, _, _. split; [reflexivity|].
    split_and!; [rewrite <- E1|rewrite <- E2|rewrite <- E3|rewrite <- E4|rewrite <- E5|by right]; apply record_in_fields.
Qed.

(** *** One answer *)

Definition set_cookie (v : bytes) (x : Response) : Prop := (bs "Set-Cookie", v) ∈ r_headers x.
Definition cookie_name (k : bytes) : bool := eq_ignore_ascii_case k (bs "Set-Cookie").
(** A request that has had no response; whatever header lines are prepared for it, none sets
    a cookie. *)
Definition unanswered (rq : Rq) : Prop :=
  Forall (fun kv => cookie_name kv.1 = false) (headers_out rq) /\ responses rq = [].
(** Header lines that set a cookie, under the name the module writes. *)
Definition named (h : list (bytes * bytes)) : Prop :=
  Forall (fun kv => cookie_name kv.1 = true -> kv.1 = bs "Set-Cookie") h.
Lemma unanswered_record res rea d rq : unanswered rq -> unanswered (record_in res rea d rq).
Proof. unfold unanswered. by destruct (record_in_fields res rea d rq) as (-> & -> & _). Qed.
(** The cookies of a response are those among the header lines it is given. *)
Lemma sent_cookie hs h v :
  Forall (fun kv => cookie_name kv.1 = false) h -> named hs ->
  (bs "Set-Cookie", v) ∈ uncached (add_headers hs h) <-> (bs "Set-Cookie", v) ∈ hs.
Proof.
  unfold named. intros Hh Hn. rewrite !Forall_forall in *.
  assert ((bs "Set-Cookie", v) ∈ uncached (add_headers hs h) <-> (bs "Set-Cookie", v) ∈ add_headers hs h) as ->.
  { unfold uncached. case_match; [done|]. rewrite elem_of_app, list_elem_of_singleton. split; [|by left].
    intros [?|[=]]; done. }
  split.
  - rewrite add_headers_in. intros [Hin|[Hin _]]; [by apply Hh in Hin|done].
  - intros Hin. apply (add_headers_present hs h) in Hin.
    apply existsb_Exists, Exists_exists in Hin as ([k v'] & Hin & Hk). simpl in Hk.
    apply andb_true_iff in Hk as [Hk Hv%beq_true]. subst v'.
    assert (k = bs "Set-Cookie") as ->; [|done].
    apply add_headers_in in Hin as [Hi|[Hi _]]; [apply Hh in Hi|by apply (Hn _ Hi)]. simpl in Hi. unfold cookie_name in Hi. congruence.
Qed.
Lemma sent_named hs h : Forall (fun kv => cookie_name kv.1 = false) h -> named hs -> named (uncached (add_headers hs h)).
Proof.
  unfold named. intros Hh Hn. rewrite !Forall_forall in *.
  assert (forall kv, kv ∈ add_headers hs h -> cookie_name kv.1 = true -> kv.1 = bs "Set-Cookie") as Ha.
  { intros kv [Hi|[Hi _]]%add_headers_in; [apply Hh in Hi; congruence|by apply Hn]. }
  unfold uncached. case_match; [done|]. intros kv [Hi|Hi%list_elem_of_singleton]%elem_of_app; [by apply Ha|by subst kv].
Qed.
Lemma send_finish_eq st ct body hs rq w :
  unanswered rq -> named hs ->
  exists rq' x, send_and_finish_with_headers st ct body hs (rq, w) = (NGX_DONE, (rq', w))
    /\ responses rq' = [x] /\ length (finalized rq') = (length (finalized rq) + 1)%nat /\ r_status x = st
    /\ named (r_headers x)
    /\ forall v, set_cookie v x <-> (bs "Set-Cookie", v) ∈ hs.
Proof.
  intros [Eh Er] Hn. unfold send_and_finish_with_headers, send_with_headers, bind. rewrite send_body_eq. cbv zeta.
  assert (headers_out (prepared st ct body hs rq) = uncached (add_headers hs (headers_out rq))
          /\ responses (prepared st ct body hs rq) = [] /\ finalized (prepared st ct body hs rq) = finalized rq
          /\ status_out (prepared st ct body hs rq) = st) as (E1 & E2 & E3 & E4).
  { unfold prepared, typed. destruct (find_str _ ct); simpl; by rewrite Er. }
  set (r1 := prepared st ct body hs rq) in *. clearbody r1.
  destruct (negb _ || _ || _); cbn [finalize_request put_rq fst snd ret];
    [eexists _, (response_of None r1)|eexists _, (response_of (Some (body, true)) r1)];
    (split; [reflexivity|]); unfold set_cookie; simpl; rewrite E1, E2, E3, length_app;
    (split; [done|]); (split; [done|]); (split; [done|]); (split; [by apply sent_named|]); intros v; by apply sent_cookie.
Qed.
Lemma finalize_status_eq code rq w :
  unanswered rq ->
  exists rq' x, finalize_status code (rq, w) = (tt, (rq', w))
    /\ responses rq' = [x] /\ length (finalized rq') = (length (finalized rq) + 1)%nat /\ r_status x = code
    /\ named (r_headers x) /\ forall v, ~ set_cookie v x.
Proof.
  intros Hu.
  destruct (send_finish_eq code text_plain (bs "rejected" ++ [Byte.x0a]) [] rq w Hu) as (rq' & x & Es & E1 & E2 & E3 & En & E4); [by constructor|].
  unfold finalize_status, send, bind. unfold send_and_finish_with_headers, bind in Es.
  destruct (send_with_headers code text_plain _ [] (rq, w)) as [rc [rq1 w1]]. injection Es as <- <-.
  eexists _, x. split; [reflexivity|]. simpl in *. split; [done|]. split; [by rewrite length_app in *|].
  split; [done|]. split; [done|]. intros v. rewrite E4. set_solver.
Qed.
(** A refusal carries no cookie. *)
Lemma refused_eq st res rea d rq w :
  unanswered rq ->
  exists rq' x, (record res rea d ;~
      send_and_finish_with_headers st text_plain (bs "redemption rejected" ++ [Byte.x0a]) []) (rq, w) = (NGX_DONE, (rq', w))
    /\ responses rq' = [x] /\ length (finalized rq') = (length (finalized rq) + 1)%nat
    /\ named (r_headers x) /\ forall v, ~ set_cookie v x.
Proof.
  intros Hu. destruct (record_in_fields res rea d rq) as (_ & _ & F3 & _).
  unfold bind at 1. cbn [record put_rq fst snd].
  destruct (send_finish_eq st text_plain (bs "redemption rejected" ++ [Byte.x0a]) [] (record_in res rea d rq) w)
    as (rq' & x & Es & E1 & E2 & E3 & En & E4); [by apply unanswered_record|by constructor|].
  exists rq', x. split_and!; try done; [congruence|]. intros v. rewrite E4. set_solver.
Qed.
Lemma finish_eq o g rq w :
  unanswered rq ->
  exists rq' x, finish o g (rq, w) = (NGX_DONE, (rq', w)) /\ responses rq' = [x]
    /\ length (finalized rq') = (length (finalized rq) + 1)%nat /\ named (r_headers x)
    /\ (o = Accepted -> r_status x = match redirect g with Some _ => MOVED_TEMPORARILY | None => NO_CONTENT end)
    /\ forall v, set_cookie v x <-> o = Accepted /\ v = Ledger.cookie g.
Proof.
  intros Hu. destruct (decide (o = Accepted)) as [->|Ho].
  2: { assert (forall st res rea, exists rq' x, (record res rea (Ledger.difficulty g) ;~
         send_and_finish_with_headers st text_plain (bs "redemption rejected" ++ [Byte.x0a]) []) (rq, w)
           = (NGX_DONE, (rq', w)) /\ responses rq' = [x] /\ length (finalized rq') = (length (finalized rq) + 1)%nat
         /\ named (r_headers x)
         /\ (o = Accepted -> r_status x = match redirect g with Some _ => MOVED_TEMPORARILY | None => NO_CONTENT end)
         /\ forall v, set_cookie v x <-> o = Accepted /\ v = Ledger.cookie g) as Href.
       { intros st res rea. destruct (refused_eq st res rea (Ledger.difficulty g) rq w Hu) as (rq' & x & Es & E1 & E2 & En & E3).
         exists rq', x. split_and!; try done. intros v. specialize (E3 v). tauto. }
       unfold finish. destruct o; [done|apply Href..]. }
  unfold finish. unfold bind at 1. cbn [record put_rq fst snd].
  destruct (record_in_fields (bs "accepted") (kind g) (Ledger.difficulty g) rq) as (_ & _ & F3 & _).
  apply (unanswered_record (bs "accepted") (kind g) (Ledger.difficulty g)) in Hu.
  destruct (redirect g) as [path|].
  - destruct (send_finish_eq MOVED_TEMPORARILY text_html (redirect_body path)
        [(bs "Location", path); (bs "Set-Cookie", Ledger.cookie g)] _ w Hu) as (rq' & x & Es & E1 & E2 & E3 & En & E4);
        [by repeat constructor|].
    exists rq', x. split_and!; try done; [congruence|]. intros v. rewrite E4, !elem_of_cons.
    split; [|by intros [_ ->]; right; left]. intros [[=]|[[= ->]|Hx]]; [done|set_solver].
  - destruct (send_finish_eq NO_CONTENT text_plain [] [(bs "Set-Cookie", Ledger.cookie g)] _ w Hu)
      as (rq' & x & Es & E1 & E2 & E3 & En & E4); [by repeat constructor|].
    exists rq', x. split_and!; try done; [congruence|]. intros v. rewrite E4, list_elem_of_singleton.
    split; [by intros [= ->]|by intros [_ ->]].
Qed.
(** The checks as a function: at most one submission passes. *)
Definition submission_of (l : Location) (r : Request) (w : Worker) : option (Submission * bytes * bytes * Z) :=
  if negb (key_ok (resolve l)) then None else
  body <-? request_body_limited r VERIFY_LIMIT; sub <-? from_slice body;
  match required_assurance l with
  | NoJs _ => None
  | Pow d =>
      pk <-? unb64url (sub_pubkey sub); ctx <-? client_context r (resolve l) (worker_issuer w);
      sig <-? unb64url (sub_signature sub);
      if valid_public_key pk && verify_challenge pk (sub_token sub) sig
         && bool_decide (Pow.verify_solution (Runtime.key (resolve l)) (claimed sub) (sub_nonce sub) pk ctx d
                           (clock w (ticks w)) = Pow.Ok)
      then Some (sub, pk, ctx, d) else None
  end.
Lemma submission_of_Some l r w sub pk ctx d :
  submission_of l r w = Some (sub, pk, ctx, d) <-> checked l r w sub pk ctx d.
Proof.
  unfold submission_of. split.
  - destruct (key_ok (resolve l)) eqn:Hk; cbn [negb]; [|done]. destruct (request_body_limited r _) as [body|] eqn:Hb; [|done].
    destruct (from_slice body) as [s|] eqn:Hs; [|done]. destruct (required_assurance l) as [n|] eqn:Hd; [|done].
    destruct (unb64url (sub_pubkey s)) as [k|] eqn:Hp; [|done].
    destruct (client_context r _ _) as [x|] eqn:Hc; [|done]. destruct (unb64url (sub_signature s)) as [g|] eqn:Hg; [|done].
    destruct (_ && _ && _) eqn:Hall; [|done]. intros [= -> -> -> ->]. to_prop. split; try done; eauto.
  - intros [Hk (body & Hb & Hs) Hd [Hp Hv] Hc Hok (sig & Hsig & Hver)]. rewrite Hk, Hb, Hs, Hd, Hp, Hc, Hsig. cbn [negb].
    cbv beta iota. rewrite Hv, Hver. rewrite bool_decide_eq_true_2 by done. done.
Qed.
Lemma consume_token_eq token e rq w st :
  zone w = Some st ->
  consume_token token e (rq, w) =
  ((Ledger.consume (clock w (ticks w)) (zone w) token e).1,
   (rq, with_zone (Ledger.consume (clock w (ticks w)) (zone w) token e).2 (tick w))).
Proof.
  intros Hz. destruct w as [ck tk ins it en dr zn cl ms di ob ve]. cbn in Hz. subst zn.
  unfold consume_token, bind, get_worker, now, put_worker, ret, tick.
  cbn [fst snd zone clock ticks instants instant_ticks entropy draws cluster current_msec dials outbox verifiers].
  by destruct (Ledger.consume (ck tk) (Some st) token e) as [o z].
Qed.
Lemma verify_body_local l r rq w st :
  unanswered rq -> cluster w = None -> zone w = Some st ->
  exists rq' w' x, verify_body (Some l) r (rq, w) = (tt, (rq', w')) /\ responses rq' = [x]
    /\ length (finalized rq') = (length (finalized rq) + 1)%nat /\ named (r_headers x)
    /\ (forall v, set_cookie v x -> r_status x = NO_CONTENT)
    /\ forall v, set_cookie v x <-> exists sub pk ctx d, checked l r w sub pk ctx d
         /\ (Ledger.consume (clock w (Datatypes.S (ticks w))) (zone w) (sub_token sub) (sub_exp sub)).1 = Accepted
         /\ v = build_set_cookie (earned l w pk ctx d) (cookie_config (resolve l)).
Proof.
  intros Hu Hcl Hz. destruct (submission_of l r w) as [[[[sub pk] ctx] d]|] eqn:Es.
  - pose proof (proj1 (submission_of_Some _ _ _ _ _ _ _) Es) as Hck. rewrite (verify_body_checked _ _ _ _ _ _ _ _ Hck).
    unfold redeem, bind at 1 2, get_rq, get_worker. cbn [fst snd]. change (cluster (tick w)) with (cluster w). rewrite Hcl.
    unfold bind at 1. rewrite (consume_token_eq _ _ _ _ st) by done. cbn [fst snd].
    set (o := Ledger.consume _ _ _ _).
    destruct (record_in_fields (bs "rejected") (bs "invalid_submission") (cfg_difficulty (resolve l)) rq) as (_ & _ & F3 & _).
    destruct (finish_eq o.1 (pow_grant l w pk ctx d) (opened l rq) (with_zone o.2 (tick (tick w))))
      as (rq' & x & -> & E1 & E2 & En & Est & E3); [by apply unanswered_record|].
    cbn [fst snd]. eexists rq', _, x. split; [reflexivity|]. split; [done|]. split; [by rewrite E2; unfold opened; rewrite F3|].
    split; [done|]. split; [by intros v [Ho _]%E3; apply Est|]. intros v. rewrite E3. split.
    + intros [Ho ->]. exists sub, pk, ctx, d. done.
    + intros (sub' & pk' & ctx' & d' & Hck' & Ho & ->). apply submission_of_Some in Hck'. rewrite Es in Hck'.
      injection Hck' as <- <- <- <-. done.
  - destruct (verify_body_unchecked l r rq w) as (code & rq1 & w1 & -> & F1 & F2 & F3 & _).
    { intros sub pk ctx d Hck%submission_of_Some. congruence. }
    destruct (finalize_status_eq code rq1 w1) as (rq' & x & -> & E1 & E2 & E3 & En & E4); [unfold unanswered in *; congruence|].
    exists rq', w1, x. split; [done|]. split; [done|]. split; [congruence|]. split; [done|].
    split; [by intros v ?%E4|]. intros v.
    split; [by intros ?%E4|intros (sub & pk & ctx & d & Hck%submission_of_Some & _); congruence].
Qed.
Lemma client_context_utf8 r cfg i ctx : client_context r cfg i = Some ctx -> utf8_valid ctx = true.
Proof.
  unfold client_context, binding_prepared. destruct i; [|done]. destruct (client_ip r); [|done].
  destruct (for_host _ _); [|done]. destruct (network _ _); [|done]. intros [= <-]. apply b64url_utf8.
Qed.
Lemma earned_cleared_proof l r w sub pk ctx d l' r' w' :
  checked l r w sub pk ctx d -> lc l' = lc l -> loaded_key l' = loaded_key l ->
  let t := clock w (ticks w) in let t' := clock w' (ticks w') in let ttl := clearance_ttl (lc l) in
  (length (earned l w pk ctx d) <= 4096)%nat -> in_u64 d = true ->
  in_i64 t = true -> in_i64 (t + ttl) = true -> in_i64 ttl = true -> t <= t' < t + ttl ->
  Runtime.cookie r' (name (cookie_config (resolve l'))) = Some (earned l w pk ctx d) ->
  client_context r' (resolve l') (worker_issuer w') = Some ctx ->
  satisfies (Pow d) (required_assurance l') = true ->
  (forall vc, public_key vc = pk -> (proof_accepted r' (resolve l') t' vc).1 = true) ->
  cleared r' (resolve l') (required_assurance l') w'.
Proof.
  intros [Hk _ _ [_ Hv] Hc _ _] El Ekey t t' ttl Hlen Hd Ht Htt Httl Hle Hcookie Hctx Hsat Hproof.
  assert (resolve l' = resolve l) as Er by (unfold resolve; by rewrite El, Ekey). rewrite Er in *.
  unfold valid_public_key in Hv. to_prop.
  set (c := mkClearance 2 (b64url pk) ctx (Pow d) t (t + ttl)).
  assert (earned l w pk ctx d = token_of (Runtime.key (resolve l)) (to_vec c)) as Etok.
  { unfold earned, c. rewrite issue_token_of.
    change (cfg_clearance_ttl (resolve l)) with ttl. rewrite i64_add_id by exact Htt. done. }
  split; [done|]. exists (earned l w pk ctx d), ctx, (to_vec c), c, pk.
  split_and!; try done.
  - apply json_roundtrip. unfold rust_ok, clearance_val. cbn.
    unfold rust_ok, assurance_val. rewrite b64url_utf8, (client_context_utf8 _ _ _ _ Hctx), Hd, Ht, Htt. done.
  - unfold current. simpl. split_and!; done || lia.
  - apply Hproof, verified_of_key.
Qed.
Lemma earned_cleared l r w sub pk ctx d l' r' w' :
  checked l r w sub pk ctx d -> lc l' = lc l -> loaded_key l' = loaded_key l ->
  let t := clock w (ticks w) in let t' := clock w' (ticks w') in let ttl := clearance_ttl (lc l) in
  (length (earned l w pk ctx d) <= 4096)%nat -> in_u64 d = true ->
  in_i64 t = true -> in_i64 (t + ttl) = true -> in_i64 ttl = true -> t <= t' < t + ttl ->
  Runtime.cookie r' (name (cookie_config (resolve l'))) = Some (earned l w pk ctx d) ->
  client_context r' (resolve l') (worker_issuer w') = Some ctx ->
  satisfies (Pow d) (required_assurance l') = true ->
  header r' (bs "x-pow-proof") = None -> cfg_require_proof (resolve l') && can_carry_proof r' = false ->
  cleared r' (resolve l') (required_assurance l') w'.
Proof.
  intros Hck El Ekey t t' ttl Hlen Hd Ht Htt Httl Hle Hcookie Hctx Hsat Hproof Hcarry.
  eapply earned_cleared_proof; try done. intros vc _. unfold proof_accepted. rewrite Hproof. cbn [fst].
  apply andb_false_iff in Hcarry as [-> | ->]; [done|apply orb_true_r].
Qed.

(** ** Properties *)

(** C1: Who gets through.  For a location with the gate on, a request is handed on to the
    upstream exactly when it is below the endpoint prefix without naming one of the five
    endpoints, or, elsewhere, when it comes from a trusted network, the policy allows it, a
    configured verifier confirms the bot it claims to be, or the policy does not deny it
    and it holds a clearance: a cookie of ours, for this client and at least the assurance
    required, current by the worker's clock, with the request proof the location asks for.
    Everyone else is answered by the module. *)
Theorem gate_opens_iff l r rq w :
  Runtime.enabled (lc l) = true -> in_i64 (clearance_ttl (lc l)) = true -> in_i64 (clock w (ticks w)) = true ->
  (pow_gate_access (Some l) r (rq, w)).1 = NGX_DECLINED <->
  match internal (resolve l) r with
  | Some suffix => suffix ∉ endpoints
  | None =>
      let d := Decision.parse (eval_complex_value (decision l)) in
      is_trusted (trusted l) = true \/ d = Allow
      \/ (exists name ip, d = Verify name /\ client_ip r = Some ip /\ bot_confirmed w name ip = true)
      \/ (d <> Deny /\ cleared r (resolve l) (required_assurance l) w)
  end.
Proof.
  intros He Ht Hn. rewrite access_passes by done. destruct (internal (resolve l) r); [done|]. cbv zeta.
  by rewrite clearance_check_valid.
Qed.

(** C2: A clearance is earned.  On a worker with the local ledger, a submission to [verify]
    gets exactly one answer, and the answer sets a cookie exactly when every check passed
    (body within the limit, valid key, this client's context, an authentic unexpired
    challenge for this key, client and difficulty, its solution, the key owner's signature)
    and the ledger accepted the challenge token for the first time; the cookie is the
    clearance for that key and client. *)
Theorem cookie_minted_iff l r rq w st :
  unanswered rq -> cluster w = None -> zone w = Some st ->
  exists rq' w' x, verify_body (Some l) r (rq, w) = (tt, (rq', w')) /\ responses rq' = [x]
    /\ length (finalized rq') = (length (finalized rq) + 1)%nat
    /\ forall v, set_cookie v x <-> exists sub pk ctx d, checked l r w sub pk ctx d
         /\ (Ledger.consume (clock w (Datatypes.S (ticks w))) (zone w) (sub_token sub) (sub_exp sub)).1 = Accepted
         /\ v = build_set_cookie (earned l w pk ctx d) (cookie_config (resolve l)).
Proof.
  intros Hu Hcl Hz. destruct (verify_body_local l r rq w st Hu Hcl Hz) as (rq' & w' & x & E1 & E2 & E3 & _ & _ & E4).
  by exists rq', w', x.
Qed.

(** Solving opens the gate.  A client whose submission passed the checks and who comes
    back to a location with the same configuration, within the life of the clearance, from
    the same context and with the cookie it was given, passes the gate at any page outside
    the endpoint prefix that does not ask for more assurance or deny it, on cookie alone
    unless the location insists on a proof the request could carry. *)
Theorem solving_opens_the_gate l r w sub pk ctx d l' r' rq' w' :
  checked l r w sub pk ctx d -> lc l' = lc l -> loaded_key l' = loaded_key l ->
  let t := clock w (ticks w) in let t' := clock w' (ticks w') in let ttl := clearance_ttl (lc l) in
  Runtime.enabled (lc l) = true -> (length (earned l w pk ctx d) <= 4096)%nat -> in_u64 d = true ->
  in_i64 t = true -> in_i64 t' = true -> in_i64 (t + ttl) = true -> in_i64 ttl = true -> t <= t' < t + ttl ->
  Runtime.cookie r' (name (cookie_config (resolve l'))) = Some (earned l w pk ctx d) ->
  client_context r' (resolve l') (worker_issuer w') = Some ctx ->
  satisfies (Pow d) (required_assurance l') = true ->
  Decision.parse (eval_complex_value (decision l')) <> Deny -> internal (resolve l') r' = None ->
  header r' (bs "x-pow-proof") = None -> cfg_require_proof (resolve l') && can_carry_proof r' = false ->
  (pow_gate_access (Some l') r' (rq', w')).1 = NGX_DECLINED.
Proof.
  intros Hck El Ekey t t' ttl He Hlen Hd Ht Ht' Htt Httl Hle Hcookie Hctx Hsat Hdeny Hint Hproof Hcarry.
  rewrite access_passes by (by rewrite El). rewrite Hint. cbv zeta. right. right. right. split; [done|].
  apply clearance_check_valid; [by rewrite El|done|]. by eapply earned_cleared.
Qed.

(** *** The no-JS endpoint *)

Definition nojs_expiry (g : Nojs.Grant) : Z := i64_add (Nojs.iat g) NOJS_GRACE.
(** A redeemable grant in the query of a no-JS client. *)
Definition redeemable (r : Request) (cfg : Cfg) (required : Assurance) (w : Worker) (g : Nojs.Grant) (ctx : bytes) : Prop :=
  key_ok cfg = true /\ required = NoJs (Nojs.delay g)
  /\ client_context r cfg (worker_issuer w) = Some ctx
  /\ Nojs.verify (Runtime.key cfg) (default [] (query_param r (bs "t"))) (clock w (ticks w)) ctx = Nojs.Ok g.
(** An answer without a cookie: an error status, or a page or redirect that sets none. *)
Definition no_cookie (rq' : Rq) : Prop := Forall (fun x => forall v, ~ set_cookie v x) (responses rq').
Lemma send_no_cookie st ct body hs rq w :
  unanswered rq -> Forall (fun kv => cookie_name kv.1 = false) hs ->
  no_cookie (send_and_finish_with_headers st ct body hs (rq, w)).2.1.
Proof.
  intros Hu Hhs. destruct (send_finish_eq st ct body hs rq w Hu) as (rq' & x & -> & E1 & _ & _ & _ & E4).
  { eapply Forall_impl; [exact Hhs|]. simpl. congruence. }
  unfold no_cookie. simpl. rewrite E1. constructor; [|constructor]. intros v. rewrite E4. rewrite Forall_forall in Hhs.
  by intros ?%Hhs.
Qed.
Definition nojs_grant (cfg : Cfg) (w : Worker) (required : Assurance) (ctx path : bytes) : Grant :=
  mkGrant (build_set_cookie (Clearance.issue (Runtime.key cfg) [] ctx required (clock w (ticks w)) (cfg_clearance_ttl cfg))
             (cookie_config cfg)) (Some path) 0 (bs "nojs").
Definition drawn (w : Worker) : Worker := (random (new_request 0, w)).2.2.
Lemma pass_eq r cfg template required rq w :
  pass r cfg template required (rq, w) =
  if negb (key_ok cfg) then
    send_and_finish_with_headers SERVICE_UNAVAILABLE text_plain (bs "unavailable" ++ [Byte.x0a]) [] (rq, w)
  else
    let rq1 := record_in (bs "rejected") (bs "invalid_grant") 0 rq in
    let token := default [] (query_param r (bs "t")) in
    match required with
    | Pow _ => (BAD_REQUEST, (rq1, tick w))
    | NoJs delay =>
        match client_context r cfg (worker_issuer w) with
        | None => (SERVICE_UNAVAILABLE, (rq1, tick w))
        | Some ctx =>
            match Nojs.verify (Runtime.key cfg) token (clock w (ticks w)) ctx with
            | Nojs.Ok g =>
                if negb (Nojs.delay g =? delay) then (BAD_REQUEST, (rq1, tick w))
                else redeem token (nojs_expiry g) (nojs_grant cfg w required ctx (Nojs.path g)) (rq1, tick w)
            | TooEarly g =>
                serve_nojs_page template
                  (pass_url cfg (Nojs.issue (entropy w (draws w)) (Runtime.key cfg) (Nojs.path g) delay (clock w (ticks w)) ctx))
                  (Nojs.delay g) (rq1, drawn (tick w))
            | Bad =>
                send_and_finish_with_headers MOVED_TEMPORARILY text_html (redirect_body (bs "/"))
                  [(bs "Location", bs "/"); no_store_header] (rq1, tick w)
            end
        end
    end.
Proof.
  unfold pass. destruct (negb (key_ok cfg)); [done|]. cbv zeta. unfold bind at 1. cbn [record put_rq fst snd].
  unfold bind at 1, now. destruct required as [d|delay]; [done|].
  unfold get_context, bind at 1 2, get_worker, ret at 1. cbn [fst snd].
  change (worker_issuer (tick w)) with (worker_issuer w).
  destruct (client_context r cfg (worker_issuer w)) as [ctx|]; [|done]. cbv zeta.
  destruct (Nojs.verify _ _ _ ctx) as [g|g|]; [by destruct (negb _)|done|done].
Qed.
Lemma pass_cases r cfg template required rq w :
  unanswered rq ->
  (exists g ctx, redeemable r cfg required w g ctx
     /\ pass r cfg template required (rq, w) =
        redeem (default [] (query_param r (bs "t"))) (nojs_expiry g) (nojs_grant cfg w required ctx (Nojs.path g))
          (record_in (bs "rejected") (bs "invalid_grant") 0 rq, tick w))
  \/ ((forall g ctx, ~ redeemable r cfg required w g ctx) /\ no_cookie (pass r cfg template required (rq, w)).2.1).
Proof.
  intros Hu. rewrite pass_eq. unfold redeemable.
  destruct (key_ok cfg) eqn:Hk; cbn [negb].
  2: { right. split; [by intros g ctx [? _]|]. by apply send_no_cookie. }
  cbv zeta. apply (unanswered_record (bs "rejected") (bs "invalid_grant") 0) in Hu.
  set (rq1 := record_in (bs "rejected") (bs "invalid_grant") 0 rq) in *.
  assert (no_cookie rq1) as Hnone by (unfold no_cookie; rewrite (proj2 Hu); constructor).
  destruct required as [d|delay]; [right; split; [by intros g ctx (_ & ? & _)|done]|].
  destruct (client_context r cfg (worker_issuer w)) as [ctx|] eqn:Hc;
    [|right; split; [by intros g ctx (_ & _ & ? & _)|done]].
  destruct (Nojs.verify _ _ _ ctx) as [g|g|] eqn:Hv.
  - destruct (Z.eqb_spec (Nojs.delay g) delay) as [<-|Hne]; cbn [negb].
    + left. exists g, ctx. done.
    + right. split; [|done]. intros g' ctx' (_ & [= E'] & [= <-] & Hv'). rewrite Hv in Hv'. injection Hv' as ->. done.
  - right. split; [intros g' ctx' (_ & _ & [= <-] & Hv'); congruence|].
    apply send_no_cookie; [done|by repeat constructor].
  - right. split; [intros g' ctx' (_ & _ & [= <-] & Hv'); congruence|].
    apply send_no_cookie; [done|by repeat constructor].
Qed.

(** C8: A no-JS clearance is waited for and granted once.  On a worker with the local
    ledger, [pass] sets a cookie exactly when the query carries a grant of ours for this
    client that has been waited out and not expired, with the very delay the policy asks
    for now, and the ledger accepts it for the first time; the cookie is the clearance. *)
Theorem pass_cookie_iff r cfg template required rq w st v :
  unanswered rq -> cluster w = None -> zone w = Some st ->
  let s' := (pass r cfg template required (rq, w)).2 in
  Exists (set_cookie v) (responses s'.1) <->
  exists g ctx, redeemable r cfg required w g ctx
    /\ (Ledger.consume (clock w (Datatypes.S (ticks w))) (zone w) (default [] (query_param r (bs "t"))) (nojs_expiry g)).1 = Accepted
    /\ v = build_set_cookie (Clearance.issue (Runtime.key cfg) [] ctx required (clock w (ticks w)) (cfg_clearance_ttl cfg))
             (cookie_config cfg).
Proof.
  intros Hun Hcl Hz. cbv zeta. destruct (pass_cases r cfg template required rq w Hun) as [(g & ctx & Hg & ->)|[Hno Hnone]].
  - unfold redeem, bind at 1 2, get_rq, get_worker. cbn [fst snd]. change (cluster (tick w)) with (cluster w). rewrite Hcl.
    unfold bind at 1. rewrite (consume_token_eq _ _ _ _ st) by done. set (o := Ledger.consume _ _ _ _).
    set (gr := nojs_grant _ _ _ _ _).
    destruct (finish_eq o.1 gr (record_in (bs "rejected") (bs "invalid_grant") 0 rq) (with_zone o.2 (tick (tick w))))
      as (rq' & x & -> & E1 & E2 & _ & _ & E3); [by apply unanswered_record|]. cbn [fst snd]. rewrite E1.
    rewrite Exists_cons, Exists_nil, E3. split.
    + intros [[Ho ->]|[]]. exists g, ctx. done.
    + intros (g' & ctx' & (_ & Hr' & Hc' & Hv') & Ho & ->). left.
      destruct Hg as (_ & _ & Hc & Hv). rewrite Hc in Hc'. injection Hc' as <-. rewrite Hv in Hv'. injection Hv' as <-. done.
  - split; [|intros (g & ctx & Hg & _); by apply Hno in Hg]. intros (x & Hx & Hs)%Exists_exists.
    unfold no_cookie in Hnone. rewrite Forall_forall in Hnone. by apply Hnone in Hs.
Qed.
End gate_lemmas.

(** ** Witnesses *)

#[local] Instance submission_fields : Fields Submission := {|
  to_fields s := [show_u (sub_version s); sub_signature s; sub_salt s; show_i (sub_exp s); sub_token s;
                  show_u (sub_nonce s); sub_pubkey s; show_u (sub_difficulty s)];
  of_fields l :=
    match l with
    | [v; sg; salt; e; tok; n; pk; d] =>
        v <-? parse_u 8 v; e <-? parse_i 64 e; n <-? parse_u 64 n; d <-? parse_u 64 d;
        Some (mkSubmission v sg salt e tok n pk d)
    | _ => None
    end;
|}.
#[local] Instance demo_sub_json : Json Submission := std_json.
#[local] Instance demo_sub_laws : JsonLaws Submission.
Proof.
  apply std_json_laws. intros [v sg salt e tok n pk d] Hok. unfold rust_ok, submission_val in Hok. cbn in Hok. to_prop.
  cbn [to_fields of_fields submission_fields sub_version sub_signature sub_salt sub_exp sub_token sub_nonce sub_pubkey sub_difficulty].
  by rewrite !parse_u_show, parse_i_show.
Qed.
#[local] Instance demo_tuple_json : Json Pow.Tuple := std_json.
#[local] Existing Instance Clearance.demo_json.
#[local] Existing Instance Clearance.demo_json_laws.
#[local] Existing Instance Nojs.demo_json.
#[local] Instance demo_challenge_json : Json (Pow.Challenge * Z) := {|
  to_vec c := Pow.token c.1 ++ show_i c.2; from_slice _ := None |}.
#[local] Instance demo_object : JsonObject := fun l => concat (map (fun kv => kv.1 ++ kv.2) l).
#[local] Instance demo_backend : CryptoBackend := false.
#[local] Instance demo_assets : Assets := {|
  DEFAULT_PAGE := bs "<p>"; DEFAULT_NOJS_PAGE := bs "{{pass_url}} {{delay}}"; SOLVER_JS := bs "js"; PKG_VERSION := bs "1" |}.

Definition demo_lc : LocationConf :=
  mkLocation true 2 (bs "/key") 3600 60 false 32 128 (bs "default") (bs "/.pow/") false 0
    (bs "pow_clearance") [] (bs "/") (bs "Lax") true true (bs "<body></body>") (bs "{{pass_url}} {{delay}}").
Definition demo_loc (policy : string) : Location :=
  mkLoc demo_lc (bs "0123456789abcdef") (Some (mkComplex false (bs policy) None)) None.
Definition demo_sockaddr : option bytes :=
  Some (map byte_of [2; 0; 31; 144; 192; 0; 2; 7]).
Definition demo_req (method uri args : bytes) (cookie : option bytes) (body : option (list (option Buf))) : Request :=
  mkRequest method uri args uri (bs "example.org")
    ((bs "User-Agent", bs "ua") :: match cookie with Some c => [(bs "Cookie", c)] | None => [] end)
    demo_sockaddr 0 body.
(** The wall clock reads 1000, 1001, 1002, ... *)
Definition demo_worker (t0 : Z) : Worker :=
  mkWorker (fun n => t0 + Z.of_nat n) 0 (fun n => Z.of_nat n) 0 (fun n => bs "2123456789abcdef") 0
    (Some (Ledger.fresh (replicate 32 "i"%byte))) None 0 (fun _ => NoConnection) [] (start_refreshers ∅ (fun _ => true)).
Definition demo_cfg : Cfg := resolve (demo_loc "challenge").
Definition demo_ctx : bytes :=
  Eval vm_compute in
    default [] (client_context (demo_req (bs "GET") (bs "/") [] None None) demo_cfg (worker_issuer (demo_worker 1000))).
Definition demo_challenge : Pow.Challenge :=
  Eval vm_compute in Pow.issue (bs "2123456789abcdef") (bs "0123456789abcdef") Clearance.demo_key demo_ctx 2 990 CHALLENGE_GRACE.
Definition demo_submission : Submission :=
  mkSubmission 2 (b64url (std_sign Clearance.demo_key (challenge_message (Pow.token demo_challenge))))
    (Pow.salt demo_challenge) (Pow.exp demo_challenge) (Pow.token demo_challenge) 1 (b64url Clearance.demo_key) 2.
Definition demo_verify : Request :=
  demo_req (bs "POST") (bs "/.pow/verify") [] None (Some [Some (Memory (Some (to_vec demo_submission)))]).
Lemma demo_checked : checked (demo_loc "challenge") demo_verify (demo_worker 1000) demo_submission Clearance.demo_key demo_ctx 2.
Proof. apply submission_of_Some. vm_compute. reflexivity. Qed.
Definition demo_earned : bytes :=
  Eval vm_compute in earned (demo_loc "challenge") (demo_worker 1000) Clearance.demo_key demo_ctx 2.
Definition demo_back : Request :=
  demo_req (bs "GET") (bs "/page") [] (Some (bs "pow_clearance=" ++ demo_earned)) None.

Lemma gate_opens_iff_witness :
  (pow_gate_access (Some (demo_loc "challenge")) demo_back (new_request 1, demo_worker 4599)).1 = NGX_DECLINED
  <-> match internal demo_cfg demo_back with
      | Some suffix => suffix ∉ endpoints
      | None =>
          let d := Decision.parse (eval_complex_value (decision (demo_loc "challenge"))) in
          is_trusted (trusted (demo_loc "challenge")) = true \/ d = Allow
          \/ (exists name ip, d = Verify name /\ client_ip demo_back = Some ip /\ bot_confirmed (demo_worker 4599) name ip = true)
          \/ (d <> Deny /\ cleared demo_back demo_cfg (required_assurance (demo_loc "challenge")) (demo_worker 4599))
      end.
Proof.
  apply (gate_opens_iff (demo_loc "challenge") demo_back (new_request 1) (demo_worker 4599)); vm_compute; reflexivity.
Defined.
Lemma cookie_minted_iff_witness :
  exists rq' w' x, verify_body (Some (demo_loc "challenge")) demo_verify (new_request 1, demo_worker 1000) = (tt, (rq', w'))
    /\ responses rq' = [x] /\ length (finalized rq') = 1%nat
    /\ set_cookie (build_set_cookie demo_earned (cookie_config demo_cfg)) x.
Proof.
  destruct (cookie_minted_iff (demo_loc "challenge") demo_verify (new_request 1) (demo_worker 1000)
              (Ledger.fresh (replicate 32 "i"%byte))) as (rq' & w' & x & E1 & E2 & E3 & E4);
    [split; [constructor|reflexivity]|reflexivity|reflexivity|].
  exists rq', w', x. split; [exact E1|]. split; [exact E2|]. split; [exact E3|]. apply E4.
  exists demo_submission, Clearance.demo_key, demo_ctx, 2. split; [apply demo_checked|].
  split; vm_compute; reflexivity.
Defined.
Lemma solving_opens_the_gate_witness :
  (pow_gate_access (Some (demo_loc "challenge:1")) demo_back (new_request 2, demo_worker 4599)).1 = NGX_DECLINED.
Proof.
  apply (solving_opens_the_gate (demo_loc "challenge") demo_verify (demo_worker 1000) demo_submission Clearance.demo_key
           demo_ctx 2 (demo_loc "challenge:1") demo_back (new_request 2) (demo_worker 4599));
    [apply demo_checked|..]; try (vm_compute; reflexivity).
  - apply Nat.leb_le. vm_compute. reflexivity.
  - vm_compute. split; [discriminate|reflexivity].
  - vm_compute. discriminate.
Defined.
Definition demo_nojs_token : bytes :=
  Eval vm_compute in Nojs.issue (bs "2123456789abcdef") (bs "0123456789abcdef") (bs "/a") 3 990 demo_ctx.
Definition demo_pass : Request := demo_req (bs "GET") (bs "/.pow/pass") (bs "t=" ++ demo_nojs_token) None None.
Definition demo_nojs_cookie : bytes :=
  Eval vm_compute in
    build_set_cookie (Clearance.issue (bs "0123456789abcdef") [] demo_ctx (NoJs 3) 1000 3600) (cookie_config demo_cfg).
Lemma pass_cookie_iff_witness :
  Exists (set_cookie demo_nojs_cookie)
    (responses (pass demo_pass demo_cfg (bs "{{pass_url}}") (NoJs 3) (new_request 3, demo_worker 1000)).2.1).
Proof.
  apply (pass_cookie_iff demo_pass demo_cfg (bs "{{pass_url}}") (NoJs 3) (new_request 3) (demo_worker 1000)
           (Ledger.fresh (replicate 32 "i"%byte)) demo_nojs_cookie); [split; [constructor|reflexivity]|reflexivity|reflexivity|].
  exists (Nojs.mkGrant (bs "/a") demo_ctx (b64url (bs "2123456789abcdef")) 2 990 3), demo_ctx.
  split; [|split; vm_compute; reflexivity]. split; [reflexivity|]. split; [reflexivity|].
  split; vm_compute; reflexivity.
Defined.
