(* ===== verification/Config.v ===== *)
(** * [config.rs]: one location's configuration, its inheritance and its validation

    [Conf] is the struct nginx allocates per location, with the unset marks of nginx;
    [create_location_conf] is the fresh one, [merge_location_conf] resolves a child against
    its parent and refuses a configuration the gate could not serve.  [location_of] is the
    view of a merged location the request path reads. *)
From Stdlib Require Import ZArith Lia.
From Stdlib Require Import Strings.Byte.
From stdpp Require Import base list strings option numbers countable sets gmap.
From S2P Require Import Prelude RustStr Crates StandIns Codec Mac Cookie Ip Context Runtime Challenge Gate.
Local Open Scope Z_scope.

Definition NGX_CONF_UNSET : Z := -1.
Definition UNSET_UINT : Z := 2 ^ 64 - 1.
Definition UNSET_SIZE : Z := 2 ^ 64 - 1.

Definition merge_flag (conf prev default : Z) : Z :=
  if conf =? NGX_CONF_UNSET then (if prev =? NGX_CONF_UNSET then default else prev) else conf.
Definition merge_uint (conf prev default : Z) : Z :=
  if conf =? UNSET_UINT then (if prev =? UNSET_UINT then default else prev) else conf.
Definition merge_size (conf prev default : Z) : Z :=
  if conf =? UNSET_SIZE then (if prev =? UNSET_SIZE then default else prev) else conf.
Definition merge_sec (conf prev default : Z) : Z :=
  if conf =? NGX_CONF_UNSET then (if prev =? NGX_CONF_UNSET then default else prev) else conf.
Definition merge_ptr {T} (conf prev : option T) : option T :=
  match conf with None => prev | Some _ => conf end.
Definition merge_str (conf prev default : bytes) : bytes :=
  if (length conf =? 0)%nat then (if negb (length prev =? 0)%nat then prev else default) else conf.

(** [LocationConf], every field a directive sets or the merge derives. *)
Record Conf := mkConf {
  c_enabled : Z; c_trusted : option ComplexValue; c_decision : option ComplexValue;
  c_page_path : bytes; c_page_cache : bytes; c_nojs_page_path : bytes; c_nojs_page_cache : bytes;
  c_difficulty : Z; c_hmac_key_file : bytes; c_clearance_ttl : Z; c_proof_skew : Z; c_require_proof : Z;
  c_ipv4_prefix : Z; c_ipv6_prefix : Z; c_policy : bytes; c_endpoint : bytes;
  c_replay : Z; c_replay_max_body : Z;
  c_cookie_name : bytes; c_cookie_effective_name : bytes; c_cookie_scope_suffix : Z;
  c_cookie_domain : bytes; c_cookie_path : bytes; c_cookie_samesite : bytes;
  c_cookie_secure : Z; c_cookie_httponly : Z;
}.

Definition create_location_conf : Conf :=
  {| c_enabled := NGX_CONF_UNSET; c_trusted := None; c_decision := None;
     c_page_path := []; c_page_cache := []; c_nojs_page_path := []; c_nojs_page_cache := [];
     c_difficulty := UNSET_UINT; c_hmac_key_file := []; c_clearance_ttl := NGX_CONF_UNSET;
     c_proof_skew := NGX_CONF_UNSET; c_require_proof := NGX_CONF_UNSET;
     c_ipv4_prefix := UNSET_UINT; c_ipv6_prefix := UNSET_UINT; c_policy := []; c_endpoint := [];
     c_replay := NGX_CONF_UNSET; c_replay_max_body := UNSET_SIZE;
     c_cookie_name := []; c_cookie_effective_name := []; c_cookie_scope_suffix := NGX_CONF_UNSET;
     c_cookie_domain := []; c_cookie_path := []; c_cookie_samesite := [];
     c_cookie_secure := NGX_CONF_UNSET; c_cookie_httponly := NGX_CONF_UNSET |}.

(** The inherited fields of a child under its parent; the derived ones are still the
    child's. *)
Definition inherit (prev conf : Conf) : Conf :=
  {| c_enabled := merge_flag (c_enabled conf) (c_enabled prev) 0;
     c_trusted := merge_ptr (c_trusted conf) (c_trusted prev);
     c_decision := merge_ptr (c_decision conf) (c_decision prev);
     c_page_path := merge_str (c_page_path conf) (c_page_path prev) [];
     c_page_cache := c_page_cache conf;
     c_nojs_page_path := merge_str (c_nojs_page_path conf) (c_nojs_page_path prev) [];
     c_nojs_page_cache := c_nojs_page_cache conf;
     c_difficulty := merge_uint (c_difficulty conf) (c_difficulty prev) 50000;
     c_hmac_key_file := merge_str (c_hmac_key_file conf) (c_hmac_key_file prev) [];
     c_clearance_ttl := merge_sec (c_clearance_ttl conf) (c_clearance_ttl prev) 43200;
     c_proof_skew := merge_sec (c_proof_skew conf) (c_proof_skew prev) 5;
     c_require_proof := merge_flag (c_require_proof conf) (c_require_proof prev) 0;
     c_ipv4_prefix := merge_uint (c_ipv4_prefix conf) (c_ipv4_prefix prev) 32;
     c_ipv6_prefix := merge_uint (c_ipv6_prefix conf) (c_ipv6_prefix prev) 128;
     c_policy := merge_str (c_policy conf) (c_policy prev) (bs "default");
     c_endpoint := merge_str (c_endpoint conf) (c_endpoint prev) (bs "/.pow/");
     c_replay := merge_flag (c_replay conf) (c_replay prev) 1;
     c_replay_max_body := merge_size (c_replay_max_body conf) (c_replay_max_body prev) (1024 * 1024);
     c_cookie_name := merge_str (c_cookie_name conf) (c_cookie_name prev) (bs "pow_clearance");
     c_cookie_effective_name := c_cookie_effective_name conf;
     c_cookie_scope_suffix := merge_flag (c_cookie_scope_suffix conf) (c_cookie_scope_suffix prev) 1;
     c_cookie_domain := merge_str (c_cookie_domain conf) (c_cookie_domain prev) [];
     c_cookie_path := merge_str (c_cookie_path conf) (c_cookie_path prev) (bs "/");
     c_cookie_samesite := merge_str (c_cookie_samesite conf) (c_cookie_samesite prev) (bs "Lax");
     c_cookie_secure := merge_flag (c_cookie_secure conf) (c_cookie_secure prev) 1;
     c_cookie_httponly := merge_flag (c_cookie_httponly conf) (c_cookie_httponly prev) 1 |}.

Section config.
Context {A : Assets} {B : Base64} {S : Sha256}.

(** The fields the name of a scoped cookie is derived from. *)
Definition scope_fields (c : Conf) : list bytes :=
  let domain := to_ascii_lowercase (trim_start_matches "."%byte (c_cookie_domain c)) in
  let same_site := to_ascii_lowercase (c_cookie_samesite c) in
  [domain; c_cookie_path c; same_site;
   if negb (c_cookie_secure c =? 0) || beq same_site (bs "none") then bs "secure" else bs "http";
   if negb (c_cookie_httponly c =? 0) then bs "httponly" else bs "readable";
   c_endpoint c; c_policy c; show_u (c_ipv4_prefix c); show_u (c_ipv6_prefix c)].
Definition effective_name (c : Conf) : bytes :=
  if negb (c_cookie_scope_suffix c =? 0) then scoped_name (c_cookie_name c) (scope_fields c)
  else c_cookie_name c.
Definition set_name (c : Conf) (n : bytes) : Conf :=
  {| c_enabled := c_enabled c; c_trusted := c_trusted c; c_decision := c_decision c;
     c_page_path := c_page_path c; c_page_cache := c_page_cache c;
     c_nojs_page_path := c_nojs_page_path c; c_nojs_page_cache := c_nojs_page_cache c;
     c_difficulty := c_difficulty c; c_hmac_key_file := c_hmac_key_file c;
     c_clearance_ttl := c_clearance_ttl c; c_proof_skew := c_proof_skew c;
     c_require_proof := c_require_proof c; c_ipv4_prefix := c_ipv4_prefix c;
     c_ipv6_prefix := c_ipv6_prefix c; c_policy := c_policy c; c_endpoint := c_endpoint c;
     c_replay := c_replay c; c_replay_max_body := c_replay_max_body c;
     c_cookie_name := c_cookie_name c; c_cookie_effective_name := n;
     c_cookie_scope_suffix := c_cookie_scope_suffix c; c_cookie_domain := c_cookie_domain c;
     c_cookie_path := c_cookie_path c; c_cookie_samesite := c_cookie_samesite c;
     c_cookie_secure := c_cookie_secure c; c_cookie_httponly := c_cookie_httponly c |}.
Definition set_pages (c : Conf) (page nojs : bytes) : Conf :=
  {| c_enabled := c_enabled c; c_trusted := c_trusted c; c_decision := c_decision c;
     c_page_path := c_page_path c; c_page_cache := page;
     c_nojs_page_path := c_nojs_page_path c; c_nojs_page_cache := nojs;
     c_difficulty := c_difficulty c; c_hmac_key_file := c_hmac_key_file c;
     c_clearance_ttl := c_clearance_ttl c; c_proof_skew := c_proof_skew c;
     c_require_proof := c_require_proof c; c_ipv4_prefix := c_ipv4_prefix c;
     c_ipv6_prefix := c_ipv6_prefix c; c_policy := c_policy c; c_endpoint := c_endpoint c;
     c_replay := c_replay c; c_replay_max_body := c_replay_max_body c;
     c_cookie_name := c_cookie_name c; c_cookie_effective_name := c_cookie_effective_name c;
     c_cookie_scope_suffix := c_cookie_scope_suffix c; c_cookie_domain := c_cookie_domain c;
     c_cookie_path := c_cookie_path c; c_cookie_samesite := c_cookie_samesite c;
     c_cookie_secure := c_cookie_secure c; c_cookie_httponly := c_cookie_httponly c |}.

(** [None] is [NGX_CONF_ERROR], on which nginx does not start; [read] is the file system at
    that time. *)
Definition merge_location_conf (read : bytes -> option bytes) (prev conf : Conf) : option Conf :=
  let conf := inherit prev conf in
  if negb ((1 <=? c_ipv4_prefix conf) && (c_ipv4_prefix conf <=? 32))
     || negb ((1 <=? c_ipv6_prefix conf) && (c_ipv6_prefix conf <=? 128)) then None else
  let conf := set_name conf (effective_name conf) in
  if negb (c_enabled conf =? 0) then
    if (c_difficulty conf =? 0) || (c_clearance_ttl conf <=? 0) then None else
    let usable := match read (c_hmac_key_file conf) with
                  | Some bytes => (MIN_HMAC_KEY_LEN <=? length bytes)%nat
                  | None => false
                  end in
    if negb usable then None else
    page <-? load_page read (c_page_path conf) (c_difficulty conf) (c_endpoint conf);
    nojs <-? load_nojs_page read (c_nojs_page_path conf);
    Some (set_pages conf page nojs)
  else Some conf.

(** What the request path reads of a merged location; [key] is what the worker's [load_key]
    gave for its key file. *)
Definition location_of (c : Conf) (key : bytes) : Location :=
  mkLoc (mkLocation (negb (c_enabled c =? 0)) (c_difficulty c) (c_hmac_key_file c) (c_clearance_ttl c)
           (c_proof_skew c) (negb (c_require_proof c =? 0)) (c_ipv4_prefix c) (c_ipv6_prefix c)
           (c_policy c) (c_endpoint c) (negb (c_replay c =? 0)) (c_replay_max_body c)
           (c_cookie_effective_name c) (c_cookie_domain c) (c_cookie_path c) (c_cookie_samesite c)
           (negb (c_cookie_secure c =? 0)) (negb (c_cookie_httponly c =? 0))
           (c_page_cache c) (c_nojs_page_cache c))
    key (c_decision c) (c_trusted c).
(** nginx merges from the outside in: each level under the result of the levels around it. *)
Fixpoint merge_chain (read : bytes -> option bytes) (outer : Conf) (levels : list Conf) : option Conf :=
  match levels with
  | [] => Some outer
  | c :: levels => m <-? merge_location_conf read outer c; merge_chain read m levels
  end.
End config.

(** ** Reference *)

(** The innermost value that is set, in a list from the outside in. *)
Fixpoint innermost {T} (set : T -> bool) (default : T) (levels : list T) : T :=
  match levels with
  | [] => default
  | x :: levels => innermost set (if set x then x else default) levels
  end.
Definition flag_set (z : Z) : bool := negb (z =? NGX_CONF_UNSET).
Definition uint_set (z : Z) : bool := negb (z =? UNSET_UINT).
Definition ptr_set {T} (x : option T) : bool := bool_decide (is_Some x).
Definition str_set (s : bytes) : bool := negb (length s =? 0)%nat.

(** Every inheritable field of [m] is the innermost one set in [levels], or the directive's
    default. *)
Record inherited (levels : list Conf) (m : Conf) : Prop := mkInherited {
  in_enabled : c_enabled m = innermost flag_set 0 (map c_enabled levels);
  in_trusted : c_trusted m = innermost ptr_set None (map c_trusted levels);
  in_decision : c_decision m = innermost ptr_set None (map c_decision levels);
  in_page_path : c_page_path m = innermost str_set [] (map c_page_path levels);
  in_nojs_page_path : c_nojs_page_path m = innermost str_set [] (map c_nojs_page_path levels);
  in_difficulty : c_difficulty m = innermost uint_set 50000 (map c_difficulty levels);
  in_hmac_key_file : c_hmac_key_file m = innermost str_set [] (map c_hmac_key_file levels);
  in_clearance_ttl : c_clearance_ttl m = innermost flag_set 43200 (map c_clearance_ttl levels);
  in_proof_skew : c_proof_skew m = innermost flag_set 5 (map c_proof_skew levels);
  in_require_proof : c_require_proof m = innermost flag_set 0 (map c_require_proof levels);
  in_ipv4_prefix : c_ipv4_prefix m = innermost uint_set 32 (map c_ipv4_prefix levels);
  in_ipv6_prefix : c_ipv6_prefix m = innermost uint_set 128 (map c_ipv6_prefix levels);
  in_policy : c_policy m = innermost str_set (bs "default") (map c_policy levels);
  in_endpoint : c_endpoint m = innermost str_set (bs "/.pow/") (map c_endpoint levels);
  in_replay : c_replay m = innermost flag_set 1 (map c_replay levels);
  in_replay_max_body : c_replay_max_body m = innermost uint_set 1048576 (map c_replay_max_body levels);
  in_cookie_name : c_cookie_name m = innermost str_set (bs "pow_clearance") (map c_cookie_name levels);
  in_cookie_scope_suffix : c_cookie_scope_suffix m = innermost flag_set 1 (map c_cookie_scope_suffix levels);
  in_cookie_domain : c_cookie_domain m = innermost str_set [] (map c_cookie_domain levels);
  in_cookie_path : c_cookie_path m = innermost str_set (bs "/") (map c_cookie_path levels);
  in_cookie_samesite : c_cookie_samesite m = innermost str_set (bs "Lax") (map c_cookie_samesite levels);
  in_cookie_secure : c_cookie_secure m = innermost flag_set 1 (map c_cookie_secure levels);
  in_cookie_httponly : c_cookie_httponly m = innermost flag_set 1 (map c_cookie_httponly levels);
}.

(** ** Lemmas *)

Lemma innermost_snoc {T} (set : T -> bool) d xs x :
  innermost set d (xs ++ [x]) = if set x then x else innermost set d xs.
Proof. revert d. induction xs as [|y xs IH]; intros d; simpl; [done|]. apply IH. Qed.
(** Inheriting under a value that already resolved the outer levels resolves one more. *)
Lemma merge_flag_innermost x p d xs :
  (if flag_set p then p else d) = innermost flag_set d xs -> merge_flag x p d = innermost flag_set d (xs ++ [x]).
Proof. intros E. rewrite innermost_snoc, <- E. unfold merge_flag, flag_set. by destruct (x =? _), (p =? _). Qed.
Lemma merge_uint_innermost x p d xs :
  (if uint_set p then p else d) = innermost uint_set d xs -> merge_uint x p d = innermost uint_set d (xs ++ [x]).
Proof. intros E. rewrite innermost_snoc, <- E. unfold merge_uint, uint_set. by destruct (x =? _), (p =? _). Qed.
Lemma merge_ptr_innermost {T} (x p : option T) xs :
  p = innermost ptr_set None xs -> merge_ptr x p = innermost ptr_set None (xs ++ [x]).
Proof. intros ->. rewrite innermost_snoc. by destruct x. Qed.
Lemma merge_str_innermost x p d xs :
  (if str_set p then p else d) = innermost str_set d xs -> merge_str x p d = innermost str_set d (xs ++ [x]).
Proof. intros E. rewrite innermost_snoc, <- E. unfold merge_str, str_set. by destruct (length x =? 0)%nat, (length p =? 0)%nat. Qed.

(** The resolved value of the levels around, or the one outermost value: with the default for
    an unset one, both are the innermost set. *)
Lemma resolved_again {T} (set : T -> bool) d xs :
  (if set (innermost set d xs) then innermost set d xs else d) = innermost set d xs.
Proof.
  destruct (set (innermost set d xs)) eqn:E; [done|]. induction xs as [|x xs IH] using rev_ind; [done|].
  revert E. rewrite innermost_snoc. destruct (set x) eqn:Ex; [congruence|done].
Qed.
Lemma ptr_alone {T} (x : option T) : x = innermost ptr_set None [x].
Proof. by destruct x. Qed.

Lemma inherit_outermost p c : inherited [p; c] (inherit p c).
Proof.
  constructor; cbn [map];
    first [ apply (merge_flag_innermost _ _ _ [_]) | apply (merge_uint_innermost _ _ _ [_])
          | apply (merge_ptr_innermost _ _ [_]) | apply (merge_str_innermost _ _ _ [_]) ];
    first [ done | apply ptr_alone ].
Qed.
Lemma inherit_next levels p c : inherited levels p -> inherited (levels ++ [c]) (inherit p c).
Proof.
  intros []. constructor; rewrite map_app; cbn [map];
    first [ apply merge_flag_innermost | apply merge_uint_innermost
          | apply merge_ptr_innermost | apply merge_str_innermost ];
    first [ done | match goal with H : ?f p = _ |- context [?f p] => rewrite H; apply resolved_again end ].
Qed.

Section lemmas.
Context {A : Assets} {B : Base64} {S : Sha256}.

Lemma set_inherited levels c n p q :
  inherited levels c -> inherited levels (set_name c n) /\ inherited levels (set_pages c p q).
Proof. intros []. by split; constructor. Qed.
(** A merge that succeeds: the inherited fields, the derived name, and the pages where the
    gate is on. *)
Definition acceptable (read : bytes -> option bytes) (c : Conf) : Prop :=
  1 <= c_ipv4_prefix c <= 32 /\ 1 <= c_ipv6_prefix c <= 128
  /\ (c_enabled c <> 0 ->
      c_difficulty c <> 0 /\ 0 < c_clearance_ttl c
      /\ (exists k, read (c_hmac_key_file c) = Some k /\ (16 <= length k)%nat)
      /\ (c_page_path c = [] \/ is_Some (read (c_page_path c)))
      /\ (c_nojs_page_path c = [] \/ is_Some (read (c_nojs_page_path c)))).
Lemma load_page_iff read path d e : is_Some (load_page read path d e) <-> path = [] \/ is_Some (read path).
Proof.
  unfold load_page. destruct path as [|x path]; [split; [by left|done]|]. cbn [length Nat.eqb].
  destruct (read (x :: path)); split; try done; [by right|]. by intros [?|[? ?]].
Qed.
Lemma load_nojs_page_iff read path : is_Some (load_nojs_page read path) <-> path = [] \/ is_Some (read path).
Proof.
  unfold load_nojs_page. destruct path as [|x path]; [split; [by left|done]|]. cbn [length Nat.eqb].
  split; [by right|by intros [?|?]].
Qed.
Lemma merge_cases read prev conf :
  let c := inherit prev conf in
  match merge_location_conf read prev conf with
  | None => ~ acceptable read c
  | Some m => acceptable read c
      /\ (m = set_name c (effective_name c)
          \/ exists p q, m = set_pages (set_name c (effective_name c)) p q)
  end.
Proof.
  intros c. unfold merge_location_conf. fold c. cbv zeta.
  pose proof (load_page_iff read (c_page_path c) (c_difficulty c) (c_endpoint c)) as Hp.
  pose proof (load_nojs_page_iff read (c_nojs_page_path c)) as Hn. unfold acceptable.
  destruct (_ || _) eqn:E1; to_prop; [lia|].
  change (c_enabled (set_name c (effective_name c))) with (c_enabled c).
  destruct (c_enabled c =? 0) eqn:E2; to_prop; cbn [negb].
  { split; [split_and!; lia|by left]. }
  change (c_difficulty (set_name c (effective_name c))) with (c_difficulty c).
  change (c_clearance_ttl (set_name c (effective_name c))) with (c_clearance_ttl c).
  change (c_hmac_key_file (set_name c (effective_name c))) with (c_hmac_key_file c).
  change (c_page_path (set_name c (effective_name c))) with (c_page_path c).
  change (c_nojs_page_path (set_name c (effective_name c))) with (c_nojs_page_path c).
  change (c_endpoint (set_name c (effective_name c))) with (c_endpoint c).
  destruct (_ || _) eqn:E3; to_prop; [lia|].
  destruct (read (c_hmac_key_file c)) as [k|] eqn:Ek; [|cbn; by intros (_ & _ & [_ [_ [(? & ? & _) _]]])].
  destruct (MIN_HMAC_KEY_LEN <=? length k)%nat eqn:El; cbn [negb]; unfold MIN_HMAC_KEY_LEN in El; to_prop.
  2:{ intros (_ & _ & [_ [_ [(k' & [= <-] & ?) _]]]); [done|lia]. }
  destruct (load_page _ _ _ _) as [p|].
  2:{ intros (_ & _ & [_ [_ [_ [Hq%Hp _]]]]); [done|]. by destruct Hq. }
  destruct (load_nojs_page _ _) as [q|].
  2:{ intros (_ & _ & [_ [_ [_ [_ Hq%Hn]]]]); [done|]. by destruct Hq. }
  split; [|right; by exists p, q]. split_and!; try lia. intros _. split_and!; try lia.
  - by exists k.
  - by apply Hp.
  - by apply Hn.
Qed.
End lemmas.

Section served.
Context {A : Assets} {B : Base64} {S : Sha256} {H : Hmac} {J : JsonText}.

Lemma merge_acceptable read prev conf m :
  merge_location_conf read prev conf = Some m ->
  acceptable read (inherit prev conf) /\ acceptable read m
  /\ c_cookie_effective_name m = effective_name m /\ effective_name m = effective_name (inherit prev conf)
  /\ forall levels, inherited levels (inherit prev conf) -> inherited levels m.
Proof.
  intros E. pose proof (merge_cases read prev conf) as Hc. rewrite E in Hc.
  destruct Hc as [Ha [->|(p & q & ->)]]; (split_and!; [done..|]); intros levels Hi.
  - by apply (set_inherited levels _ _ [] []).
  - apply (set_inherited levels _ [] p q). by apply (set_inherited levels _ _ [] []).
Qed.
Lemma acceptable_merge read prev conf :
  acceptable read (inherit prev conf) <-> is_Some (merge_location_conf read prev conf).
Proof.
  pose proof (merge_cases read prev conf) as Hc.
  destruct (merge_location_conf read prev conf) as [m|]; [|by split; [|intros []]].
  destruct Hc as [Ha _]. by split; [eauto|].
Qed.
Lemma merge_str_default x p d : d <> [] -> merge_str x p d <> [].
Proof. intros Hd. unfold merge_str. by destruct x, p. Qed.
Lemma effective_name_nonempty p c : effective_name (inherit p c) <> [].
Proof.
  assert (c_cookie_name (inherit p c) <> []) as Hn by by apply merge_str_default.
  unfold effective_name, scoped_name. case_match; [|exact Hn]. intros [E _]%app_nil. exact (Hn E).
Qed.
Lemma context_available cfg r iss ip sc :
  valid (address cfg) = true -> client_ip r = Some ip -> for_host (scope cfg) (server r) = Some sc ->
  is_Some (client_context r cfg (Some iss)).
Proof.
  intros Hv Hip Hs. unfold client_context, binding_prepared, network. rewrite Hip, Hs, Hv. cbn [negb]. eauto.
Qed.
End served.

Lemma merge_chain_inherited {A : Assets} {B : Base64} {S : Sha256} read outer c levels m :
  merge_chain read outer (c :: levels) = Some m -> inherited (outer :: c :: levels) m.
Proof.
  cbn [merge_chain]. destruct (merge_location_conf read outer c) as [p|] eqn:E; [|done].
  apply merge_acceptable in E as (_ & _ & _ & _ & Hi). specialize (Hi [outer; c] (inherit_outermost outer c)).
  intros Hm. change (outer :: c :: levels) with ([outer; c] ++ levels).
  revert Hm Hi. generalize [outer; c]. revert p. induction levels as [|x levels IH]; intros p done_ Hm Hi.
  { simplify_eq/=. by rewrite app_nil_r. }
  cbn [merge_chain] in Hm. destruct (merge_location_conf read p x) as [q|] eqn:E; [|done].
  apply merge_acceptable in E as (_ & _ & _ & _ & Hq). rewrite cons_middle, app_assoc.
  apply (IH q); [done|]. by apply Hq, inherit_next.
Qed.

(** What a worker can rely on in the configuration it resolves from a merged location. *)
Definition serves {B : Base64} {S : Sha256} {H : Hmac} {J : JsonText} (read : bytes -> option bytes) (m : Conf) : Prop :=
  let cfg := resolve (location_of m (load_key ∅ read (c_hmac_key_file m)).1) in
  valid (address cfg) = true
  /\ Context.ipv4_prefix (address cfg) = c_ipv4_prefix m
  /\ Context.ipv6_prefix (address cfg) = c_ipv6_prefix m
  /\ name (cookie_config cfg) = effective_name m
  /\ (forall r iss ip sc, client_ip r = Some ip -> for_host (scope cfg) (server r) = Some sc ->
        is_Some (client_context r cfg (Some iss)))
  /\ (c_enabled m <> 0 ->
        key_ok cfg = true /\ 1 <= cfg_difficulty cfg /\ 0 < cfg_clearance_ttl cfg).
Lemma merge_serves {A : Assets} {B : Base64} {S : Sha256} {H : Hmac} {J : JsonText} read prev conf m :
  merge_location_conf read prev conf = Some m -> in_u 64 (c_difficulty m) = true -> serves read m.
Proof.
  intros Hm Hd. unfold serves. set (cfg := resolve _).
  destruct (merge_acceptable _ _ _ _ Hm) as (_ & Ha & Hname & Heff & _).
  destruct Ha as (H4 & H6 & Hon).
  assert (Context.ipv4_prefix (address cfg) = c_ipv4_prefix m) as E4 by (apply Z.mod_small; lia).
  assert (Context.ipv6_prefix (address cfg) = c_ipv6_prefix m) as E6 by (apply Z.mod_small; lia).
  assert (valid (address cfg) = true) as Hv by (apply valid_iff; rewrite E4, E6; lia).
  split_and!; [exact Hv|exact E4|exact E6| | |].
  - change (nonempty (c_cookie_effective_name m) (bs "pow_clearance") = effective_name m).
    rewrite Hname. unfold nonempty. destruct (beq (effective_name m) []) eqn:En; [|done].
    apply beq_true in En. rewrite Heff in En. destruct (effective_name_nonempty prev conf En).
  - intros r iss ip sc. by apply context_available.
  - intros (Hnz & Ht & (k & Hk & Hl) & _)%Hon. split_and!; [|apply in_u_iff in Hd|done].
    + change ((MIN_HMAC_KEY_LEN <=? length (load_key ∅ read (c_hmac_key_file m)).1)%nat = true).
      unfold load_key. rewrite lookup_empty. cbn [fst]. rewrite Hk. unfold MIN_HMAC_KEY_LEN.
      rewrite (proj2 (Nat.leb_le 16 (length k))) by done. by apply Nat.leb_le.
    + change (1 <= wrap_u 64 (c_difficulty m)). unfold wrap_u. rewrite Z.mod_small by lia. lia.
Qed.
Lemma merge_chain_last {A : Assets} {B : Base64} {S : Sha256} read outer c levels m :
  merge_chain read outer (c :: levels) = Some m ->
  exists prev conf, merge_location_conf read prev conf = Some m.
Proof.
  revert outer c. induction levels as [|x levels IH]; intros outer c; cbn [merge_chain].
  - destruct (merge_location_conf read outer c) eqn:E; [|done]. intros [= <-]. eauto.
  - destruct (merge_location_conf read outer c) as [p|]; [|done]. apply IH.
Qed.

(** ** Properties *)

(** C30: A location nginx starts with can be served.  The merge accepts exactly the
    configurations whose address prefixes are in range and, where the gate is on, whose
    difficulty and lifetime are positive, whose key file has at least 16 bytes and whose pages
    can be read.  The configuration a worker resolves from an accepted one has a valid address
    policy, the prefixes and the cookie name of the merge (neither truncated nor replaced), a
    context for every client whose address and host can be read, and, where the gate is on, a
    usable key, a difficulty of at least 1 and a positive lifetime. *)
Theorem started_location_usable {A : Assets} {B : Base64} {S : Sha256} {H : Hmac} {J : JsonText} read prev conf :
  (acceptable read (inherit prev conf) <-> is_Some (merge_location_conf read prev conf))
  /\ forall m, merge_location_conf read prev conf = Some m -> in_u 64 (c_difficulty m) = true ->
     let cfg := resolve (location_of m (load_key ∅ read (c_hmac_key_file m)).1) in
     valid (address cfg) = true
     /\ Context.ipv4_prefix (address cfg) = c_ipv4_prefix m
     /\ Context.ipv6_prefix (address cfg) = c_ipv6_prefix m
     /\ name (cookie_config cfg) = effective_name m
     /\ (forall r iss ip sc, client_ip r = Some ip -> for_host (scope cfg) (server r) = Some sc ->
           is_Some (client_context r cfg (Some iss)))
     /\ (c_enabled m <> 0 ->
           key_ok cfg = true /\ 1 <= cfg_difficulty cfg /\ 0 < cfg_clearance_ttl cfg).
Proof. split; [apply acceptable_merge|]. intros m Hm Hd. by eapply merge_serves. Qed.
Definition demo_fs (p : bytes) : option bytes :=
  if beq p (bs "/key") then Some (bs "0123456789abcdef") else if beq p (bs "/page") then Some (bs "<p>{{difficulty}}") else None.
Definition demo_http : Conf :=
  {| c_enabled := NGX_CONF_UNSET; c_trusted := None; c_decision := Some (mkComplex false (bs "challenge") None);
     c_page_path := bs "/page"; c_page_cache := []; c_nojs_page_path := []; c_nojs_page_cache := [];
     c_difficulty := 7; c_hmac_key_file := bs "/key"; c_clearance_ttl := NGX_CONF_UNSET;
     c_proof_skew := NGX_CONF_UNSET; c_require_proof := NGX_CONF_UNSET;
     c_ipv4_prefix := 24; c_ipv6_prefix := UNSET_UINT; c_policy := []; c_endpoint := [];
     c_replay := NGX_CONF_UNSET; c_replay_max_body := UNSET_SIZE;
     c_cookie_name := []; c_cookie_effective_name := []; c_cookie_scope_suffix := NGX_CONF_UNSET;
     c_cookie_domain := []; c_cookie_path := []; c_cookie_samesite := [];
     c_cookie_secure := NGX_CONF_UNSET; c_cookie_httponly := NGX_CONF_UNSET |}.
(** [pow_gate on; pow_gate_cookie_domain <d>; pow_gate_difficulty <n>;] in a server block. *)
Definition demo_server (n : Z) (d : bytes) : Conf :=
  {| c_enabled := 1; c_trusted := None; c_decision := None;
     c_page_path := []; c_page_cache := []; c_nojs_page_path := []; c_nojs_page_cache := [];
     c_difficulty := n; c_hmac_key_file := []; c_clearance_ttl := NGX_CONF_UNSET;
     c_proof_skew := NGX_CONF_UNSET; c_require_proof := NGX_CONF_UNSET;
     c_ipv4_prefix := UNSET_UINT; c_ipv6_prefix := UNSET_UINT; c_policy := []; c_endpoint := [];
     c_replay := NGX_CONF_UNSET; c_replay_max_body := UNSET_SIZE;
     c_cookie_name := []; c_cookie_effective_name := []; c_cookie_scope_suffix := NGX_CONF_UNSET;
     c_cookie_domain := d; c_cookie_path := []; c_cookie_samesite := [];
     c_cookie_secure := NGX_CONF_UNSET; c_cookie_httponly := NGX_CONF_UNSET |}.
#[local] Instance demo_assets : Assets := {|
  DEFAULT_PAGE := bs "<p>"; DEFAULT_NOJS_PAGE := bs "{{delay}}"; SOLVER_JS := bs "js"; PKG_VERSION := bs "1" |}.
Definition demo_merged : Conf :=
  Eval vm_compute in default create_location_conf
    (merge_location_conf demo_fs demo_http (demo_server UNSET_UINT [])).
Lemma started_location_usable_witness :
  merge_location_conf demo_fs demo_http (demo_server UNSET_UINT []) = Some demo_merged
  /\ merge_location_conf demo_fs demo_http (demo_server 0 []) = None
  /\ key_ok (resolve (location_of demo_merged (load_key ∅ demo_fs (c_hmac_key_file demo_merged)).1)) = true.
Proof.
  assert (merge_location_conf demo_fs demo_http (demo_server UNSET_UINT []) = Some demo_merged) as Hm
    by (vm_compute; reflexivity).
  split; [exact Hm|]. split; [vm_compute; reflexivity|].
  destruct (started_location_usable demo_fs demo_http (demo_server UNSET_UINT [])) as [_ Ht].
  apply (Ht demo_merged Hm); [reflexivity|discriminate].
Defined.

(** Inheritance.  When nginx merges a chain of levels from the outside in (http, server,
    location, nested locations), every inheritable field of the innermost one is the innermost
    value set on the chain, and the directive's default where none is set: a value set lower
    down always wins, one set higher up is never lost, whatever the levels between. *)
Theorem inheritance {A : Assets} {B : Base64} {S : Sha256} read outer c levels m :
  merge_chain read outer (c :: levels) = Some m -> inherited (outer :: c :: levels) m.
Proof. apply merge_chain_inherited. Qed.
Lemma inheritance_witness :
  exists m, merge_chain demo_fs demo_http [demo_server UNSET_UINT []; demo_server 9 []; create_location_conf] = Some m
  /\ c_difficulty m = 9 /\ c_ipv4_prefix m = 24.
Proof.
  destruct (merge_chain demo_fs demo_http [demo_server UNSET_UINT []; demo_server 9 []; create_location_conf])
    as [m|] eqn:E; [|vm_compute in E; discriminate].
  exists m. split; [reflexivity|]. apply inheritance in E.
  rewrite (in_difficulty _ _ E), (in_ipv4_prefix _ _ E). split; reflexivity.
Defined.

(** The scope of a cookie, as a browser and the gate see it. *)
Record same_cookie_scope (a b : Conf) : Prop := mkSameScope {
  same_name : c_cookie_name a = c_cookie_name b;
  same_domain : to_ascii_lowercase (trim_start_matches "."%byte (c_cookie_domain a))
                = to_ascii_lowercase (trim_start_matches "."%byte (c_cookie_domain b));
  same_path : c_cookie_path a = c_cookie_path b;
  same_samesite : to_ascii_lowercase (c_cookie_samesite a) = to_ascii_lowercase (c_cookie_samesite b);
  same_endpoint : c_endpoint a = c_endpoint b;
  same_policy : c_policy a = c_policy b;
  same_ipv4 : c_ipv4_prefix a = c_ipv4_prefix b;
  same_ipv6 : c_ipv6_prefix a = c_ipv6_prefix b;
  same_httponly : c_cookie_httponly a = 0 <-> c_cookie_httponly b = 0;
}.
(** Scoped cookie names keep locations apart.  Two merged locations whose names carry the
    scope suffix and whose effective cookie names are the same have the same base name and the
    same cookie scope (domain, path, SameSite, HttpOnly, endpoint, policy and both address
    prefixes), or they exhibit two different messages whose SHA-256 digests agree on their
    first 96 bits. *)
Theorem cookie_names_isolate {A : Assets} {B : Base64} {S : Sha256} {SL : Sha256Laws S} read p1 c1 m1 p2 c2 m2 :
  merge_location_conf read p1 c1 = Some m1 -> merge_location_conf read p2 c2 = Some m2 ->
  c_cookie_scope_suffix m1 <> 0 -> c_cookie_scope_suffix m2 <> 0 ->
  framable (c_cookie_name m1 :: scope_fields m1) = true ->
  framable (c_cookie_name m2 :: scope_fields m2) = true ->
  c_cookie_effective_name m1 = c_cookie_effective_name m2 ->
  same_cookie_scope m1 m2
  \/ exists a b, a <> b /\ take 12 (sha_digest a) = take 12 (sha_digest b).
Proof.
  intros (_ & H1 & N1 & _)%merge_acceptable (_ & H2 & N2 & _)%merge_acceptable S1 S2 F1 F2.
  rewrite N1, N2. unfold effective_name.
  rewrite (proj2 (Z.eqb_neq _ 0) S1), (proj2 (Z.eqb_neq _ 0) S2). cbn [negb].
  intros [[Hn Hf]|?]%scoped_name_distinct; [left|by right|done|done].
  destruct H1 as (? & ? & _), H2 as (? & ? & _). unfold scope_fields in Hf.
  injection Hf as Hd Hp Hs Hsec Hh He Hpol H4 H6. constructor; try done.
  - apply show_u_inj; [lia|lia|done].
  - apply show_u_inj; [lia|lia|done].
  - destruct (c_cookie_httponly m1 =? 0) eqn:E1, (c_cookie_httponly m2 =? 0) eqn:E2; to_prop; by try lia.
Qed.
Definition demo_merged_b : Conf :=
  Eval vm_compute in default create_location_conf
    (merge_location_conf demo_fs demo_http (demo_server 9 (bs ".Example.org"))).
Lemma cookie_names_isolate_witness :
  c_cookie_effective_name demo_merged <> c_cookie_effective_name demo_merged_b
  /\ (same_cookie_scope demo_merged demo_merged
      \/ exists a b, a <> b /\ take 12 (sha_digest a) = take 12 (sha_digest b)).
Proof.
  split; [vm_compute; discriminate|].
  apply (cookie_names_isolate demo_fs demo_http (demo_server UNSET_UINT []) demo_merged
           demo_http (demo_server UNSET_UINT []) demo_merged);
    first [vm_compute; reflexivity | vm_compute; discriminate].
Defined.
