(* ===== verification/Dns.v ===== *)
(** * [verifier.rs], the resolver: socket addresses and the two libc lookups

    The C library is the class [Libc]: what [getnameinfo] leaves in the host buffer, and the
    list [getaddrinfo] builds.  A socket address is its bytes, on a little-endian machine. *)
From Stdlib Require Import ZArith Lia.
From Stdlib Require Import Strings.Byte.
From stdpp Require Import base list strings option numbers countable sets.
From S2P Require Import Prelude RustStr Crates Ip Ranges Runtime Verifier.
Local Open Scope Z_scope.

Definition AF_INET : Z := 2.
Definition AF_INET6 : Z := 10.

(** The storage is zeroed, 128 bytes; the length is that of [sockaddr_in] or [sockaddr_in6]. *)
Definition sockaddr_storage (family : Z) (offset : nat) (address : bytes) : bytes :=
  let head := [byte_of family; Byte.x00] ++ replicate (offset - 2) Byte.x00 ++ address in
  head ++ replicate (128 - length head) Byte.x00.
Definition ip_to_sockaddr (ip : IpAddr) : bytes * Z :=
  match ip with
  | V4 a => (sockaddr_storage AF_INET 4 (to_be_bytes 4 a), 16)
  | V6 a => (sockaddr_storage AF_INET6 8 (to_be_bytes 16 a), 28)
  end.
Definition sockaddr_to_ip (sa : option bytes) : option IpAddr :=
  sa <-? sa;
  let family := match sa with a :: b :: _ => u8 a + 256 * u8 b | _ => 0 end in
  if family =? AF_INET then Some (V4 (be_val (take 4 (drop 4 sa))))
  else if family =? AF_INET6 then Some (V6 (be_val (take 16 (drop 8 sa))))
  else None.

Class Libc := {
  (** return code and host buffer, for a socket address and its length, with [NI_NAMEREQD] *)
  getnameinfo : bytes -> Z -> Z * bytes;
  (** the [ai_addr] pointers of the result, in order; [None] when the call fails *)
  getaddrinfo : bytes -> option (list (option bytes));
}.
(** The string a C function left in a buffer ends before its first NUL. *)
Fixpoint c_str (buf : bytes) : bytes :=
  match buf with
  | [] => []
  | b :: buf => if bool_decide (b = Byte.x00) then [] else b :: c_str buf
  end.

Section dns.
Context {L : Libc}.

Definition reverse_dns (ip : IpAddr) : option bytes :=
  let '(ss, len) := ip_to_sockaddr ip in
  let '(rc, host) := getnameinfo ss len in
  if negb (rc =? 0) then None else Some (from_utf8_lossy (c_str host)).
Fixpoint collect_addrs (cur : list (option bytes)) (out : list IpAddr) : list IpAddr :=
  match cur with
  | [] => out
  | ai_addr :: next =>
      collect_addrs next (match sockaddr_to_ip ai_addr with Some ip => out ++ [ip] | None => out end)
  end.
(** [CString::new] refuses a name with a NUL in it. *)
Definition forward_dns (host : bytes) : list IpAddr :=
  if bool_decide (Byte.x00 ∈ host) then []
  else match getaddrinfo host with
       | None => []
       | Some res => collect_addrs res []
       end.
(** [fcrdns_confirm] as a DNS thread calls it. *)
Definition fcrdns_lookup (ip : IpAddr) (suffixes : list bytes) : bool :=
  fcrdns_confirm ip suffixes (reverse_dns ip) forward_dns.
End dns.

(** ** Lemmas *)

Lemma take_drop_mid (a b c : bytes) n m :
  length a = n -> length b = m -> take m (drop n (a ++ b ++ c)) = b.
Proof. intros <- <-. by rewrite drop_app_length, take_app_length. Qed.
Lemma be_val_to_be n z : 0 <= z < 256 ^ Z.of_nat n -> be_val (to_be_bytes n z) = z.
Proof. intros Hz. rewrite be_val_to_be_bytes. by apply Z.mod_small. Qed.
Lemma storage_address family offset address :
  (2 <= offset)%nat ->
  take (length address) (drop offset (sockaddr_storage family offset address)) = address.
Proof.
  intros Ho. unfold sockaddr_storage. rewrite <- !app_assoc.
  rewrite (app_assoc [_; _]). apply take_drop_mid; [|done].
  rewrite length_app, length_replicate. simpl. lia.
Qed.
Lemma storage_family family offset address :
  0 <= family < 256 ->
  exists t, sockaddr_storage family offset address = byte_of family :: Byte.x00 :: t
    /\ u8 (byte_of family) + 256 * u8 Byte.x00 = family.
Proof.
  intros Hf. eexists. split; [reflexivity|]. rewrite u8_byte_of_small by done. change (u8 Byte.x00) with 0. lia.
Qed.
Lemma sockaddr_to_ip_storage ip :
  ip_ok ip = true -> sockaddr_to_ip (Some (ip_to_sockaddr ip).1) = Some ip.
Proof.
  intros Hip. unfold sockaddr_to_ip. destruct ip as [a|a]; cbn [ip_to_sockaddr fst].
  - destruct (storage_family AF_INET 4 (to_be_bytes 4 a)) as (t & E & Hf); [unfold AF_INET; lia|].
    pose proof (storage_address AF_INET 4 (to_be_bytes 4 a) ltac:(lia)) as Ha.
    rewrite to_be_bytes_length in Ha. rewrite Ha, E, Hf. rewrite Z.eqb_refl. do 2 f_equal.
    apply be_val_to_be. by apply in_u_iff in Hip.
  - destruct (storage_family AF_INET6 8 (to_be_bytes 16 a)) as (t & E & Hf); [unfold AF_INET6; lia|].
    pose proof (storage_address AF_INET6 8 (to_be_bytes 16 a) ltac:(lia)) as Ha.
    rewrite to_be_bytes_length in Ha. rewrite Ha, E, Hf. cbn [AF_INET6 AF_INET Z.eqb Pos.eqb]. do 2 f_equal.
    apply be_val_to_be. by apply in_u_iff in Hip.
Qed.
Lemma collect_addrs_eq cur out : collect_addrs cur out = out ++ omap sockaddr_to_ip cur.
Proof.
  revert out. induction cur as [|sa cur IH]; intros out; simpl; [by rewrite app_nil_r|].
  rewrite IH. destruct (sockaddr_to_ip sa); [|done]. by rewrite <- app_assoc.
Qed.
Lemma c_str_no_nul buf : Byte.x00 ∉ c_str buf.
Proof.
  induction buf as [|b buf IH]; simpl; [set_solver|]. case_bool_decide; set_solver.
Qed.
Lemma lossy_no_nul fuel s : Byte.x00 ∉ s -> Byte.x00 ∉ lossy_loop fuel s.
Proof.
  revert s. induction fuel as [|f IH]; intros [|b s] Hs; simpl; try set_solver.
  destruct (utf8_step b s) as [ok n]. rewrite elem_of_app. intros [Hin|Hin].
  - destruct ok; [apply Hs; rewrite <- (take_drop n (b :: s)); set_solver|].
    vm_compute in Hin. set_solver.
  - revert Hin. apply IH. intros Hin. apply Hs. rewrite <- (take_drop n (b :: s)). set_solver.
Qed.
Lemma reverse_dns_no_nul {L : Libc} ip host : reverse_dns ip = Some host -> Byte.x00 ∉ host.
Proof.
  unfold reverse_dns. destruct (ip_to_sockaddr ip) as [ss len]. destruct (getnameinfo ss len) as [rc buf].
  destruct (negb _); [done|]. intros [= <-]. apply lossy_no_nul, c_str_no_nul.
Qed.
Lemma elem_of_forward {L : Libc} host ip :
  Byte.x00 ∉ host ->
  ip ∈ forward_dns host <->
  exists res sa, getaddrinfo host = Some res /\ sa ∈ res /\ sockaddr_to_ip sa = Some ip.
Proof.
  intros Hn. unfold forward_dns. rewrite bool_decide_false by done.
  destruct (getaddrinfo host) as [res|]; [|split; [set_solver|naive_solver]].
  rewrite collect_addrs_eq, elem_of_app, list_elem_of_omap. split.
  - intros [?|(sa & ? & ?)]; [set_solver|]. by exists res, sa.
  - intros (? & sa & [= <-] & ? & ?). right. by exists sa.
Qed.

(** ** Properties *)

(** An address survives the socket address it is put in: the module reads back the very
    address from the structure it passes to the resolver, and a connection from that
    structure has that client address.  So an address confirmed by DNS is the address the
    request came from. *)
Theorem sockaddr_roundtrip ip r :
  ip_ok ip = true -> sockaddr r = Some (ip_to_sockaddr ip).1 ->
  sockaddr_to_ip (sockaddr r) = Some ip /\ client_ip r = Some ip
  /\ length (ip_to_sockaddr ip).1 = 128%nat.
Proof.
  intros Hip E. pose proof (sockaddr_to_ip_storage ip Hip) as Hs. split; [by rewrite E|]. split.
  - unfold client_ip. rewrite E. exact Hs.
  - destruct ip; cbn [ip_to_sockaddr fst]; unfold sockaddr_storage;
      rewrite !length_app, !length_replicate, to_be_bytes_length; reflexivity.
Qed.
Lemma sockaddr_roundtrip_witness :
  let r := mkRequest [] [] [] [] [] [] (Some (ip_to_sockaddr (V4 3221225985)).1) 0 None in
  client_ip r = Some (V4 3221225985) /\ show_ip (V4 3221225985) = bs "192.0.2.1".
Proof.
  intros r. split; [|vm_compute; reflexivity].
  destruct (sockaddr_roundtrip (V4 3221225985) r) as (_ & Hc & _); [reflexivity..|exact Hc].
Defined.

(** C33: Forward-confirmed reverse DNS, down to the C library.  The lookup confirms an address
    exactly when [getnameinfo] succeeds on it with a name that matches a configured suffix,
    and [getaddrinfo] of that very name lists a socket address that reads as the address.
    The name never has a NUL byte, so the forward lookup is always made. *)
Theorem resolver_confirms_iff {L : Libc} ip suffixes :
  fcrdns_lookup ip suffixes = true <->
  exists buf res sa, getnameinfo (ip_to_sockaddr ip).1 (ip_to_sockaddr ip).2 = (0, buf)
    /\ Exists (fun s => host_matches_suffix (from_utf8_lossy (c_str buf)) s = true) suffixes
    /\ getaddrinfo (from_utf8_lossy (c_str buf)) = Some res /\ sa ∈ res
    /\ sockaddr_to_ip sa = Some ip.
Proof.
  unfold fcrdns_lookup, fcrdns_confirm. pose proof (reverse_dns_no_nul ip) as Hn. unfold reverse_dns in *.
  destruct (ip_to_sockaddr ip) as [ss len]. cbn [fst snd]. destruct (getnameinfo ss len) as [rc buf].
  destruct (rc =? 0) eqn:E; cbn [negb]; to_prop.
  2:{ split; [done|]. intros (? & ? & ? & [= ? _] & _). lia. }
  specialize (Hn _ eq_refl). unfold fcrdns_confirms.
  rewrite andb_true_iff, bool_decide_eq_true, (elem_of_forward _ _ Hn), existsb_Exists. split.
  - intros [Hs (res & sa & ?)]. exists buf, res, sa. subst rc. naive_solver.
  - intros (? & res & sa & [= _ <-] & ? & ? & ? & ?). eauto 10.
Qed.
