(* ===== verification/Directives.v ===== *)
(** * [config.rs], the directive table: what an operator writes, field by field

    [commands] is [NGX_HTTP_POW_GATE_COMMANDS]: for each directive its contexts, its arity and
    its setter with the field it writes ([offset_of!] is a [Lens]).  How nginx turns an
    argument into a value is the class [NginxConf]; that it finds a directive by name in the
    table, checks context and arity, and refuses a second one in the same block is its
    documented contract, written out in [run_line]. *)
From Stdlib Require Import ZArith Lia.
From Stdlib Require Import Strings.Byte.
From stdpp Require Import base list strings option numbers countable sets gmap.
From S2P Require Import Prelude RustStr Crates StandIns Codec Mac Cookie Ip Context Runtime Cluster Verifier.
From S2P Require Import Challenge Gate Config.
Local Open Scope Z_scope.

(** ** Fields *)

Record Lens (T : Type) := mkLens { lget : Conf -> T; lput : T -> Conf -> Conf }.
Arguments mkLens {T}.
Arguments lget {T}.
Arguments lput {T}.
Definition o_enabled : Lens Z := mkLens c_enabled (fun v '(mkConf _ f1 f2 f3 f4 f5 f6 f7 f8 f9 f10 f11 f12 f13 f14 f15 f16 f17 f18 f19 f20 f21 f22 f23 f24 f25) =>
  mkConf v f1 f2 f3 f4 f5 f6 f7 f8 f9 f10 f11 f12 f13 f14 f15 f16 f17 f18 f19 f20 f21 f22 f23 f24 f25).
Definition o_trusted : Lens (option ComplexValue) := mkLens c_trusted (fun v '(mkConf f0 _ f2 f3 f4 f5 f6 f7 f8 f9 f10 f11 f12 f13 f14 f15 f16 f17 f18 f19 f20 f21 f22 f23 f24 f25) =>
  mkConf f0 v f2 f3 f4 f5 f6 f7 f8 f9 f10 f11 f12 f13 f14 f15 f16 f17 f18 f19 f20 f21 f22 f23 f24 f25).
Definition o_decision : Lens (option ComplexValue) := mkLens c_decision (fun v '(mkConf f0 f1 _ f3 f4 f5 f6 f7 f8 f9 f10 f11 f12 f13 f14 f15 f16 f17 f18 f19 f20 f21 f22 f23 f24 f25) =>
  mkConf f0 f1 v f3 f4 f5 f6 f7 f8 f9 f10 f11 f12 f13 f14 f15 f16 f17 f18 f19 f20 f21 f22 f23 f24 f25).
Definition o_page_path : Lens bytes := mkLens c_page_path (fun v '(mkConf f0 f1 f2 _ f4 f5 f6 f7 f8 f9 f10 f11 f12 f13 f14 f15 f16 f17 f18 f19 f20 f21 f22 f23 f24 f25) =>
  mkConf f0 f1 f2 v f4 f5 f6 f7 f8 f9 f10 f11 f12 f13 f14 f15 f16 f17 f18 f19 f20 f21 f22 f23 f24 f25).
Definition o_nojs_page_path : Lens bytes := mkLens c_nojs_page_path (fun v '(mkConf f0 f1 f2 f3 f4 _ f6 f7 f8 f9 f10 f11 f12 f13 f14 f15 f16 f17 f18 f19 f20 f21 f22 f23 f24 f25) =>
  mkConf f0 f1 f2 f3 f4 v f6 f7 f8 f9 f10 f11 f12 f13 f14 f15 f16 f17 f18 f19 f20 f21 f22 f23 f24 f25).
Definition o_difficulty : Lens Z := mkLens c_difficulty (fun v '(mkConf f0 f1 f2 f3 f4 f5 f6 _ f8 f9 f10 f11 f12 f13 f14 f15 f16 f17 f18 f19 f20 f21 f22 f23 f24 f25) =>
  mkConf f0 f1 f2 f3 f4 f5 f6 v f8 f9 f10 f11 f12 f13 f14 f15 f16 f17 f18 f19 f20 f21 f22 f23 f24 f25).
Definition o_hmac_key_file : Lens bytes := mkLens c_hmac_key_file (fun v '(mkConf f0 f1 f2 f3 f4 f5 f6 f7 _ f9 f10 f11 f12 f13 f14 f15 f16 f17 f18 f19 f20 f21 f22 f23 f24 f25) =>
  mkConf f0 f1 f2 f3 f4 f5 f6 f7 v f9 f10 f11 f12 f13 f14 f15 f16 f17 f18 f19 f20 f21 f22 f23 f24 f25).
Definition o_clearance_ttl : Lens Z := mkLens c_clearance_ttl (fun v '(mkConf f0 f1 f2 f3 f4 f5 f6 f7 f8 _ f10 f11 f12 f13 f14 f15 f16 f17 f18 f19 f20 f21 f22 f23 f24 f25) =>
  mkConf f0 f1 f2 f3 f4 f5 f6 f7 f8 v f10 f11 f12 f13 f14 f15 f16 f17 f18 f19 f20 f21 f22 f23 f24 f25).
Definition o_proof_skew : Lens Z := mkLens c_proof_skew (fun v '(mkConf f0 f1 f2 f3 f4 f5 f6 f7 f8 f9 _ f11 f12 f13 f14 f15 f16 f17 f18 f19 f20 f21 f22 f23 f24 f25) =>
  mkConf f0 f1 f2 f3 f4 f5 f6 f7 f8 f9 v f11 f12 f13 f14 f15 f16 f17 f18 f19 f20 f21 f22 f23 f24 f25).
Definition o_require_proof : Lens Z := mkLens c_require_proof (fun v '(mkConf f0 f1 f2 f3 f4 f5 f6 f7 f8 f9 f10 _ f12 f13 f14 f15 f16 f17 f18 f19 f20 f21 f22 f23 f24 f25) =>
  mkConf f0 f1 f2 f3 f4 f5 f6 f7 f8 f9 f10 v f12 f13 f14 f15 f16 f17 f18 f19 f20 f21 f22 f23 f24 f25).
Definition o_ipv4_prefix : Lens Z := mkLens c_ipv4_prefix (fun v '(mkConf f0 f1 f2 f3 f4 f5 f6 f7 f8 f9 f10 f11 _ f13 f14 f15 f16 f17 f18 f19 f20 f21 f22 f23 f24 f25) =>
  mkConf f0 f1 f2 f3 f4 f5 f6 f7 f8 f9 f10 f11 v f13 f14 f15 f16 f17 f18 f19 f20 f21 f22 f23 f24 f25).
Definition o_ipv6_prefix : Lens Z := mkLens c_ipv6_prefix (fun v '(mkConf f0 f1 f2 f3 f4 f5 f6 f7 f8 f9 f10 f11 f12 _ f14 f15 f16 f17 f18 f19 f20 f21 f22 f23 f24 f25) =>
  mkConf f0 f1 f2 f3 f4 f5 f6 f7 f8 f9 f10 f11 f12 v f14 f15 f16 f17 f18 f19 f20 f21 f22 f23 f24 f25).
Definition o_policy : Lens bytes := mkLens c_policy (fun v '(mkConf f0 f1 f2 f3 f4 f5 f6 f7 f8 f9 f10 f11 f12 f13 _ f15 f16 f17 f18 f19 f20 f21 f22 f23 f24 f25) =>
  mkConf f0 f1 f2 f3 f4 f5 f6 f7 f8 f9 f10 f11 f12 f13 v f15 f16 f17 f18 f19 f20 f21 f22 f23 f24 f25).
Definition o_endpoint : Lens bytes := mkLens c_endpoint (fun v '(mkConf f0 f1 f2 f3 f4 f5 f6 f7 f8 f9 f10 f11 f12 f13 f14 _ f16 f17 f18 f19 f20 f21 f22 f23 f24 f25) =>
  mkConf f0 f1 f2 f3 f4 f5 f6 f7 f8 f9 f10 f11 f12 f13 f14 v f16 f17 f18 f19 f20 f21 f22 f23 f24 f25).
Definition o_replay : Lens Z := mkLens c_replay (fun v '(mkConf f0 f1 f2 f3 f4 f5 f6 f7 f8 f9 f10 f11 f12 f13 f14 f15 _ f17 f18 f19 f20 f21 f22 f23 f24 f25) =>
  mkConf f0 f1 f2 f3 f4 f5 f6 f7 f8 f9 f10 f11 f12 f13 f14 f15 v f17 f18 f19 f20 f21 f22 f23 f24 f25).
Definition o_replay_max_body : Lens Z := mkLens c_replay_max_body (fun v '(mkConf f0 f1 f2 f3 f4 f5 f6 f7 f8 f9 f10 f11 f12 f13 f14 f15 f16 _ f18 f19 f20 f21 f22 f23 f24 f25) =>
  mkConf f0 f1 f2 f3 f4 f5 f6 f7 f8 f9 f10 f11 f12 f13 f14 f15 f16 v f18 f19 f20 f21 f22 f23 f24 f25).
Definition o_cookie_name : Lens bytes := mkLens c_cookie_name (fun v '(mkConf f0 f1 f2 f3 f4 f5 f6 f7 f8 f9 f10 f11 f12 f13 f14 f15 f16 f17 _ f19 f20 f21 f22 f23 f24 f25) =>
  mkConf f0 f1 f2 f3 f4 f5 f6 f7 f8 f9 f10 f11 f12 f13 f14 f15 f16 f17 v f19 f20 f21 f22 f23 f24 f25).
Definition o_cookie_scope_suffix : Lens Z := mkLens c_cookie_scope_suffix (fun v '(mkConf f0 f1 f2 f3 f4 f5 f6 f7 f8 f9 f10 f11 f12 f13 f14 f15 f16 f17 f18 f19 _ f21 f22 f23 f24 f25) =>
  mkConf f0 f1 f2 f3 f4 f5 f6 f7 f8 f9 f10 f11 f12 f13 f14 f15 f16 f17 f18 f19 v f21 f22 f23 f24 f25).
Definition o_cookie_domain : Lens bytes := mkLens c_cookie_domain (fun v '(mkConf f0 f1 f2 f3 f4 f5 f6 f7 f8 f9 f10 f11 f12 f13 f14 f15 f16 f17 f18 f19 f20 _ f22 f23 f24 f25) =>
  mkConf f0 f1 f2 f3 f4 f5 f6 f7 f8 f9 f10 f11 f12 f13 f14 f15 f16 f17 f18 f19 f20 v f22 f23 f24 f25).
Definition o_cookie_path : Lens bytes := mkLens c_cookie_path (fun v '(mkConf f0 f1 f2 f3 f4 f5 f6 f7 f8 f9 f10 f11 f12 f13 f14 f15 f16 f17 f18 f19 f20 f21 _ f23 f24 f25) =>
  mkConf f0 f1 f2 f3 f4 f5 f6 f7 f8 f9 f10 f11 f12 f13 f14 f15 f16 f17 f18 f19 f20 f21 v f23 f24 f25).
Definition o_cookie_samesite : Lens bytes := mkLens c_cookie_samesite (fun v '(mkConf f0 f1 f2 f3 f4 f5 f6 f7 f8 f9 f10 f11 f12 f13 f14 f15 f16 f17 f18 f19 f20 f21 f22 _ f24 f25) =>
  mkConf f0 f1 f2 f3 f4 f5 f6 f7 f8 f9 f10 f11 f12 f13 f14 f15 f16 f17 f18 f19 f20 f21 f22 v f24 f25).
Definition o_cookie_secure : Lens Z := mkLens c_cookie_secure (fun v '(mkConf f0 f1 f2 f3 f4 f5 f6 f7 f8 f9 f10 f11 f12 f13 f14 f15 f16 f17 f18 f19 f20 f21 f22 f23 _ f25) =>
  mkConf f0 f1 f2 f3 f4 f5 f6 f7 f8 f9 f10 f11 f12 f13 f14 f15 f16 f17 f18 f19 f20 f21 f22 f23 v f25).
Definition o_cookie_httponly : Lens Z := mkLens c_cookie_httponly (fun v '(mkConf f0 f1 f2 f3 f4 f5 f6 f7 f8 f9 f10 f11 f12 f13 f14 f15 f16 f17 f18 f19 f20 f21 f22 f23 f24 _) =>
  mkConf f0 f1 f2 f3 f4 f5 f6 f7 f8 f9 f10 f11 f12 f13 f14 f15 f16 f17 f18 f19 f20 f21 f22 f23 f24 v).

(** ** Commands *)

Inductive Ctx := Http | Server | InLocation.
#[export] Instance ctx_eq_dec : EqDecision Ctx.
Proof. solve_decision. Defined.
Inductive Setter :=
  | FlagSlot (l : Lens Z)
  | NumSlot (l : Lens Z)
  | SecSlot (l : Lens Z)
  | SizeSlot (l : Lens Z)
  | StrSlot (l : Lens bytes)
  | ComplexSlot (l : Lens (option ComplexValue))
  | VerifierBlock
  | RedisBlock.
(** [type_]: the contexts, the number of arguments, and whether a block follows. *)
Record Command := mkCommand {
  cmd_name : bytes; cmd_ctx : list Ctx; cmd_args : nat; cmd_block : bool; cmd_set : Setter;
}.
Definition HTTP_SERVER_LOCATION : list Ctx := [Http; Server; InLocation].
Definition SERVER_LOCATION : list Ctx := [Server; InLocation].

(** The table, in two parts: the gate, then the cookie attributes and the blocks. *)
Definition gate_commands : list Command := [
  mkCommand (bs "pow_gate") HTTP_SERVER_LOCATION 1 false (FlagSlot o_enabled);
  mkCommand (bs "pow_gate_trusted") SERVER_LOCATION 1 false (ComplexSlot o_trusted);
  mkCommand (bs "pow_gate_decision") SERVER_LOCATION 1 false (ComplexSlot o_decision);
  mkCommand (bs "pow_gate_page") HTTP_SERVER_LOCATION 1 false (StrSlot o_page_path);
  mkCommand (bs "pow_gate_nojs_page") HTTP_SERVER_LOCATION 1 false (StrSlot o_nojs_page_path);
  mkCommand (bs "pow_gate_difficulty") HTTP_SERVER_LOCATION 1 false (NumSlot o_difficulty);
  mkCommand (bs "pow_gate_hmac_key_file") HTTP_SERVER_LOCATION 1 false (StrSlot o_hmac_key_file);
  mkCommand (bs "pow_gate_clearance_ttl") HTTP_SERVER_LOCATION 1 false (SecSlot o_clearance_ttl);
  mkCommand (bs "pow_gate_proof_skew") HTTP_SERVER_LOCATION 1 false (SecSlot o_proof_skew);
  mkCommand (bs "pow_gate_require_proof") HTTP_SERVER_LOCATION 1 false (FlagSlot o_require_proof);
  mkCommand (bs "pow_gate_ipv4_prefix") HTTP_SERVER_LOCATION 1 false (NumSlot o_ipv4_prefix);
  mkCommand (bs "pow_gate_ipv6_prefix") HTTP_SERVER_LOCATION 1 false (NumSlot o_ipv6_prefix);
  mkCommand (bs "pow_gate_policy") HTTP_SERVER_LOCATION 1 false (StrSlot o_policy);
  mkCommand (bs "pow_gate_endpoint") HTTP_SERVER_LOCATION 1 false (StrSlot o_endpoint);
  mkCommand (bs "pow_gate_replay") HTTP_SERVER_LOCATION 1 false (FlagSlot o_replay);
  mkCommand (bs "pow_gate_replay_max_body") HTTP_SERVER_LOCATION 1 false (SizeSlot o_replay_max_body)
].
Definition cookie_commands : list Command := [
  mkCommand (bs "pow_gate_cookie_name") HTTP_SERVER_LOCATION 1 false (StrSlot o_cookie_name);
  mkCommand (bs "pow_gate_cookie_scope_suffix") HTTP_SERVER_LOCATION 1 false (FlagSlot o_cookie_scope_suffix);
  mkCommand (bs "pow_gate_cookie_domain") HTTP_SERVER_LOCATION 1 false (StrSlot o_cookie_domain);
  mkCommand (bs "pow_gate_cookie_path") HTTP_SERVER_LOCATION 1 false (StrSlot o_cookie_path);
  mkCommand (bs "pow_gate_cookie_samesite") HTTP_SERVER_LOCATION 1 false (StrSlot o_cookie_samesite);
  mkCommand (bs "pow_gate_cookie_secure") HTTP_SERVER_LOCATION 1 false (FlagSlot o_cookie_secure);
  mkCommand (bs "pow_gate_cookie_httponly") HTTP_SERVER_LOCATION 1 false (FlagSlot o_cookie_httponly);
  mkCommand (bs "pow_gate_verifier") [Http] 1 true VerifierBlock;
  mkCommand (bs "pow_gate_redis") [Http] 0 true RedisBlock
].
Definition commands : list Command := gate_commands ++ cookie_commands.

(** ** Slot setters *)

(** How nginx reads the argument of a slot; [None] is a configuration error. *)
Class NginxConf := {
  flag_value : bytes -> option Z;
  num_value : bytes -> option Z;
  sec_value : bytes -> option Z;
  size_value : bytes -> option Z;
  complex_value : bytes -> option ComplexValue;
}.
(** [ngx_atoi], [ngx_parse_time] and [ngx_parse_size] give non-negative signed words. *)
Class NginxConfLaws (N : NginxConf) : Prop := {
  flag_on : flag_value (bs "on") = Some 1;
  flag_off : flag_value (bs "off") = Some 0;
  flag_bool a z : flag_value a = Some z -> z = 0 \/ z = 1;
  num_range a z : num_value a = Some z -> 0 <= z < 2 ^ 63;
  sec_range a z : sec_value a = Some z -> 0 <= z < 2 ^ 63;
  size_range a z : size_value a = Some z -> 0 <= z < 2 ^ 63;
}.

(** A line of a block; [body] are the lines of its own block. *)
Record Line := mkLine { l_name : bytes; l_args : list bytes; l_body : option (list (list bytes)) }.
(** [MainConf]; the zone is set after parsing. *)
Record MainConf := mkMain { cluster : option Cluster.Config; verifiers : gmap bytes Verifier }.
Definition create_main_conf : MainConf := mkMain None ∅.
(** A level while its block is parsed: the struct, and the strings whose pointer is set. *)
Record Level := mkLevel { lv_conf : Conf; lv_data : list bytes }.
Definition new_level : Level := mkLevel create_location_conf [].

Section directives.
Context {N : NginxConf} {S : Sha256}.

(** The slot setters: a field that is not unset any more is a duplicate. *)
Definition set_number (value : bytes -> option Z) (unset : Z) (l : Lens Z) (lv : Level) (a : bytes) : option Level :=
  if negb (lget l (lv_conf lv) =? unset) then None else
  z <-? value a; Some (mkLevel (lput l z (lv_conf lv)) (lv_data lv)).
Definition set_str (name : bytes) (l : Lens bytes) (lv : Level) (a : bytes) : option Level :=
  if bool_decide (name ∈ lv_data lv) then None
  else Some (mkLevel (lput l a (lv_conf lv)) (name :: lv_data lv)).
Definition set_complex (l : Lens (option ComplexValue)) (lv : Level) (a : bytes) : option Level :=
  match lget l (lv_conf lv) with
  | Some _ => None
  | None => v <-? complex_value a; Some (mkLevel (lput l (Some v) (lv_conf lv)) (lv_data lv))
  end.
Definition apply_setter (cmd : Command) (lv : Level) (a : bytes) : option Level :=
  match cmd_set cmd with
  | FlagSlot l => set_number flag_value NGX_CONF_UNSET l lv a
  | NumSlot l => set_number num_value UNSET_UINT l lv a
  | SecSlot l => set_number sec_value NGX_CONF_UNSET l lv a
  | SizeSlot l => set_number size_value UNSET_SIZE l lv a
  | StrSlot l => set_str (cmd_name cmd) l lv a
  | ComplexSlot l => set_complex l lv a
  | VerifierBlock | RedisBlock => None
  end.
Definition find_command (name : bytes) : option Command :=
  List.find (fun c => beq (cmd_name c) name) commands.
Definition accepts (cmd : Command) (ctx : Ctx) (line : Line) : bool :=
  bool_decide (ctx ∈ cmd_ctx cmd) && (length (l_args line) =? cmd_args cmd)%nat
  && bool_decide (cmd_block cmd = bool_decide (is_Some (l_body line))).
(** One line: [read] is the file system, [now] the clock a verifier's cache starts from. *)
Definition run_line (read : bytes -> option bytes) (now : Z) (ctx : Ctx) (st : MainConf * Level) (line : Line)
  : option (MainConf * Level) :=
  let '(main, lv) := st in
  cmd <-? find_command (l_name line);
  if negb (accepts cmd ctx line) then None else
  match cmd_set cmd with
  | VerifierBlock =>
      vs <-? pow_gate_verifier_block (l_name line :: l_args line) (default [] (l_body line)) (verifiers main) now;
      Some (mkMain (cluster main) vs, lv)
  | RedisBlock =>
      c <-? Cluster.configure (cluster main) read (default [] (l_body line));
      Some (mkMain (Some c) (verifiers main), lv)
  | _ => lv <-? apply_setter cmd lv (default [] (head (l_args line))); Some (main, lv)
  end.
Fixpoint run_lines (read : bytes -> option bytes) (now : Z) (ctx : Ctx) (st : MainConf * Level) (lines : list Line)
  : option (MainConf * Level) :=
  match lines with
  | [] => Some st
  | line :: lines => st <-? run_line read now ctx st line; run_lines read now ctx st lines
  end.
(** The blocks around a location, from the outside in, each parsed into a struct of its own. *)
Fixpoint parse_levels (read : bytes -> option bytes) (now : Z) (main : MainConf) (path : list (Ctx * list Line))
  : option (MainConf * list Conf) :=
  match path with
  | [] => Some (main, [])
  | (ctx, lines) :: path =>
      ' (main, lv) <-? run_lines read now ctx (main, new_level) lines;
      ' (main, confs) <-? parse_levels read now main path;
      Some (main, lv_conf lv :: confs)
  end.
(** A configuration file, as one location sees it: the http block, then the blocks down to
    the location, parsed and merged. *)
Definition load {A : Assets} {B : Base64} (read : bytes -> option bytes) (now : Z) (http : list Line)
  (inner : list (Ctx * list Line)) : option (MainConf * Conf) :=
  ' (main, confs) <-? parse_levels read now create_main_conf ((Http, http) :: inner);
  match confs with
  | outer :: levels => m <-? merge_chain read outer levels; Some (main, m)
  | [] => None
  end.
End directives.

(** ** Reference *)

(** The argument a block gives to a directive. *)
Definition stated (name : bytes) (lines : list Line) : option bytes :=
  line <-? List.find (fun l => beq (l_name l) name) lines; Some (default [] (head (l_args line))).
(** The innermost block that states a directive decides; a value that reads as unset (an empty
    string) states nothing. *)
Fixpoint effective {T} (set : T -> bool) (value : bytes -> option T) (name : bytes) (d : T)
  (levels : list (list Line)) : T :=
  match levels with
  | [] => d
  | lines :: levels =>
      effective set value name
        (match (a <-? stated name lines; value a) with Some v => if set v then v else d | None => d end) levels
  end.
(** A block without a line that is unknown, out of place or of the wrong shape, and without a
    setting that is stated twice (the two block directives may repeat). *)
Definition is_block (s : Setter) : bool := match s with VerifierBlock | RedisBlock => true | _ => false end.
Definition is_setting (name : bytes) : bool :=
  match find_command name with Some cmd => negb (is_block (cmd_set cmd)) | None => false end.
Definition unambiguous (block : Ctx * list Line) : Prop :=
  Forall (fun line => exists cmd, find_command (l_name line) = Some cmd /\ accepts cmd block.1 line = true) block.2
  /\ NoDup (base.filter (fun name => is_setting name = true) (map l_name block.2)).
(** What a location gets for the blocks around it: the table of [docs/configuration.md]. *)
Record configured {N : NginxConf} (levels : list (list Line)) (m : Conf) : Prop := mkConfigured {
  on_enabled : c_enabled m = effective flag_set flag_value (bs "pow_gate") 0 levels;
  on_trusted : c_trusted m = effective ptr_set (fun a => v <-? complex_value a; Some (Some v)) (bs "pow_gate_trusted") None levels;
  on_decision : c_decision m = effective ptr_set (fun a => v <-? complex_value a; Some (Some v)) (bs "pow_gate_decision") None levels;
  on_page_path : c_page_path m = effective str_set Some (bs "pow_gate_page") [] levels;
  on_nojs_page_path : c_nojs_page_path m = effective str_set Some (bs "pow_gate_nojs_page") [] levels;
  on_difficulty : c_difficulty m = effective uint_set num_value (bs "pow_gate_difficulty") 50000 levels;
  on_hmac_key_file : c_hmac_key_file m = effective str_set Some (bs "pow_gate_hmac_key_file") [] levels;
  on_clearance_ttl : c_clearance_ttl m = effective flag_set sec_value (bs "pow_gate_clearance_ttl") (12 * 3600) levels;
  on_proof_skew : c_proof_skew m = effective flag_set sec_value (bs "pow_gate_proof_skew") 5 levels;
  on_require_proof : c_require_proof m = effective flag_set flag_value (bs "pow_gate_require_proof") 0 levels;
  on_ipv4_prefix : c_ipv4_prefix m = effective uint_set num_value (bs "pow_gate_ipv4_prefix") 32 levels;
  on_ipv6_prefix : c_ipv6_prefix m = effective uint_set num_value (bs "pow_gate_ipv6_prefix") 128 levels;
  on_policy : c_policy m = effective str_set Some (bs "pow_gate_policy") (bs "default") levels;
  on_endpoint : c_endpoint m = effective str_set Some (bs "pow_gate_endpoint") (bs "/.pow/") levels;
  on_replay : c_replay m = effective flag_set flag_value (bs "pow_gate_replay") 1 levels;
  on_replay_max_body : c_replay_max_body m = effective uint_set size_value (bs "pow_gate_replay_max_body") (1024 * 1024) levels;
  on_cookie_name : c_cookie_name m = effective str_set Some (bs "pow_gate_cookie_name") (bs "pow_clearance") levels;
  on_cookie_scope_suffix : c_cookie_scope_suffix m = effective flag_set flag_value (bs "pow_gate_cookie_scope_suffix") 1 levels;
  on_cookie_domain : c_cookie_domain m = effective str_set Some (bs "pow_gate_cookie_domain") [] levels;
  on_cookie_path : c_cookie_path m = effective str_set Some (bs "pow_gate_cookie_path") (bs "/") levels;
  on_cookie_samesite : c_cookie_samesite m = effective str_set Some (bs "pow_gate_cookie_samesite") (bs "Lax") levels;
  on_cookie_secure : c_cookie_secure m = effective flag_set flag_value (bs "pow_gate_cookie_secure") 1 levels;
  on_cookie_httponly : c_cookie_httponly m = effective flag_set flag_value (bs "pow_gate_cookie_httponly") 1 levels;
}.

(** ** Lemmas *)

Lemma find_command_ok : Forall (fun c => find_command (cmd_name c) = Some c) commands.
Proof. repeat constructor. Qed.
Lemma find_command_In cmd : cmd ∈ commands -> find_command (cmd_name cmd) = Some cmd.
Proof. intros Hc. pose proof find_command_ok as Hf. rewrite Forall_forall in Hf. by apply Hf. Qed.
Lemma find_command_name name cmd : find_command name = Some cmd -> cmd ∈ commands /\ cmd_name cmd = name.
Proof.
  intros [Hin Hn]%find_some. split; [by apply list_elem_of_In|by apply beq_true in Hn].
Qed.

(** A value for any field, to compare the fields of two commands. *)
Definition put (s : Setter) (z : Z) (b : bytes) (v : option ComplexValue) (c : Conf) : Conf :=
  match s with
  | FlagSlot l | NumSlot l | SecSlot l | SizeSlot l => lput l z c
  | StrSlot l => lput l b c
  | ComplexSlot l => lput l v c
  | VerifierBlock | RedisBlock => c
  end.
Definition same_field (s : Setter) (c c' : Conf) : Prop :=
  match s with
  | FlagSlot l | NumSlot l | SecSlot l | SizeSlot l => lget l c = lget l c'
  | StrSlot l => lget l c = lget l c'
  | ComplexSlot l => lget l c = lget l c'
  | VerifierBlock | RedisBlock => True
  end.
Definition got (s : Setter) (z : Z) (b : bytes) (v : option ComplexValue) (c : Conf) : Prop :=
  match s with
  | FlagSlot l | NumSlot l | SecSlot l | SizeSlot l => lget l c = z
  | StrSlot l => lget l c = b
  | ComplexSlot l => lget l c = v
  | VerifierBlock | RedisBlock => True
  end.
Definition apart (s1 s2 : Setter) : Prop :=
  forall z b v c, same_field s2 (put s1 z b v c) c.
(** Every directive writes the field it names, and no other directive's. *)
Lemma fields_apart :
  ForallOrdPairs (fun c1 c2 => apart (cmd_set c1) (cmd_set c2) /\ apart (cmd_set c2) (cmd_set c1)) commands.
Proof.
  unfold commands, gate_commands, cookie_commands. cbn [app].
  repeat (apply FOP_cons;
    [repeat (apply List.Forall_cons; [split; intros z b v []; cbn [cmd_set]; exact eq_refl || exact I|]); apply List.Forall_nil|]).
  apply FOP_nil.
Qed.
Lemma put_got cmd z b v c : cmd ∈ commands -> got (cmd_set cmd) z b v (put (cmd_set cmd) z b v c).
Proof.
  intros Hc. revert cmd Hc. apply Forall_forall. unfold commands, gate_commands, cookie_commands. cbn [app].
  repeat (apply List.Forall_cons; [destruct c; exact eq_refl || exact I|]). apply List.Forall_nil.
Qed.
Lemma put_other c1 c2 z b v c :
  c1 ∈ commands -> c2 ∈ commands -> cmd_name c1 <> cmd_name c2 ->
  same_field (cmd_set c2) (put (cmd_set c1) z b v c) c.
Proof.
  intros H1 H2 Hn. destruct (ForallOrdPairs_In fields_apart c1 c2) as [->|[[Ha _]|[_ Ha]]];
    [by apply list_elem_of_In..|done|apply Ha|apply Ha].
Qed.

Section levels.
Context {N : NginxConf} {S : Sha256}.

Lemma apply_setter_put cmd lv a lv' :
  apply_setter cmd lv a = Some lv' ->
  (exists z b v, lv_conf lv' = put (cmd_set cmd) z b v (lv_conf lv)) /\ lv_data lv ⊆ lv_data lv'.
Proof.
  unfold apply_setter, set_number, set_str, set_complex, put. intros E.
  destruct (cmd_set cmd); repeat case_match; simplify_eq/=; split; try set_solver;
    first [by eexists _, [], None | by exists 0, a, None | by eexists 0, [], (Some _)].
Qed.
(** A line that is accepted is a known directive, and it changes its own field at most. *)
Lemma run_line_cmd read now ctx st line st' :
  run_line read now ctx st line = Some st' ->
  exists cmd, cmd ∈ commands /\ cmd_name cmd = l_name line /\ ctx ∈ cmd_ctx cmd
    /\ (exists z b v, lv_conf st'.2 = put (cmd_set cmd) z b v (lv_conf st.2))
    /\ lv_data st.2 ⊆ lv_data st'.2
    /\ (is_block (cmd_set cmd) = false -> apply_setter cmd st.2 (default [] (head (l_args line))) = Some st'.2).
Proof.
  unfold run_line. destruct st as [main lv]. destruct (find_command (l_name line)) as [cmd|] eqn:Ec; [|done].
  apply find_command_name in Ec as [Hin Hn]. destruct (accepts cmd ctx line) eqn:Ea; [|done].
  apply andb_true_iff in Ea as [[Hx _]%andb_true_iff _]. apply bool_decide_eq_true in Hx.
  cbn [negb]. intros E. exists cmd. split; [done|]. split; [done|]. split; [done|].
  destruct (is_block (cmd_set cmd)) eqn:Eb.
  - destruct (cmd_set cmd); try done; repeat case_match; simplify_eq/=; (split; [|done]); by exists 0, [], None.
  - assert (apply_setter cmd lv (default [] (head (l_args line))) = Some st'.2) as Ha.
    { destruct (cmd_set cmd); try done; destruct (apply_setter _ _ _); by simplify_eq/=. }
    destruct (apply_setter_put _ _ _ _ Ha). split; [done|]. split; done.
Qed.

Section one_field.
Context {T : Type} (get : Conf -> T) (value : bytes -> option T) (name : bytes) (seen : Level -> Prop).
Variables (read : bytes -> option bytes) (now : Z) (ctx : Ctx).
Hypothesis own : forall st line st',
  run_line read now ctx st line = Some st' -> l_name line = name ->
  ~ seen st.2 /\ seen st'.2 /\ value (default [] (head (l_args line))) = Some (get (lv_conf st'.2)).
Hypothesis other : forall st line st',
  run_line read now ctx st line = Some st' -> l_name line <> name ->
  get (lv_conf st'.2) = get (lv_conf st.2) /\ (seen st.2 -> seen st'.2).

Lemma seen_once st lines st' :
  seen st.2 -> run_lines read now ctx st lines = Some st' ->
  get (lv_conf st'.2) = get (lv_conf st.2) /\ stated name lines = None.
Proof.
  revert st. induction lines as [|line lines IH]; intros st Hs; cbn [run_lines]; [by intros [= <-]|].
  destruct (run_line read now ctx st line) as [st1|] eqn:E; [|done]. intros Hr.
  destruct (decide (l_name line = name)) as [Hn|Hn]; [by destruct (own _ _ _ E Hn)|].
  destruct (other _ _ _ E Hn) as [Hg Hk]. destruct (IH st1 (Hk Hs) Hr) as [Hg' Hst].
  split; [congruence|]. unfold stated in *. cbn [List.find]. by rewrite (proj2 (beq_false _ _) Hn).
Qed.
Lemma level_value st lines st' :
  run_lines read now ctx st lines = Some st' ->
  (a <-? stated name lines; value a) =
  match stated name lines with Some _ => Some (get (lv_conf st'.2)) | None => None end
  /\ (stated name lines = None -> get (lv_conf st'.2) = get (lv_conf st.2)).
Proof.
  revert st. induction lines as [|line lines IH]; intros st; cbn [run_lines]; [by intros [= <-]|].
  destruct (run_line read now ctx st line) as [st1|] eqn:E; [|done]. intros Hr.
  unfold stated. cbn [List.find]. destruct (decide (l_name line = name)) as [Hn|Hn].
  - rewrite (proj2 (beq_true _ _) Hn). destruct (own _ _ _ E Hn) as (_ & Hs & Hv).
    destruct (seen_once st1 lines st' Hs Hr) as [Hg _]. split; [|done]. by rewrite Hv, Hg.
  - rewrite (proj2 (beq_false _ _) Hn). destruct (other _ _ _ E Hn) as [Hg _].
    destruct (IH st1 Hr) as [H1 H2]. split; [exact H1|]. intros Hst. rewrite <- Hg. by apply H2.
Qed.
End one_field.
End levels.

Section fields.
Context {N : NginxConf} {NL : NginxConfLaws N} {S : Sha256}.
Variables (read : bytes -> option bytes) (now : Z) (ctx : Ctx).

Lemma flag_not_unset a z : flag_value a = Some z -> z <> NGX_CONF_UNSET.
Proof. intros [->| ->]%flag_bool; done. Qed.
Lemma num_not_unset a z : num_value a = Some z -> z <> UNSET_UINT.
Proof. intros H%num_range. unfold UNSET_UINT. lia. Qed.
Lemma sec_not_unset a z : sec_value a = Some z -> z <> NGX_CONF_UNSET.
Proof. intros H%sec_range. unfold NGX_CONF_UNSET. lia. Qed.
Lemma size_not_unset a z : size_value a = Some z -> z <> UNSET_SIZE.
Proof. intros H%size_range. unfold UNSET_SIZE. lia. Qed.

Lemma own_setter cmd st line st' :
  cmd ∈ commands -> is_block (cmd_set cmd) = false ->
  run_line read now ctx st line = Some st' -> l_name line = cmd_name cmd ->
  apply_setter cmd st.2 (default [] (head (l_args line))) = Some st'.2.
Proof.
  intros Hc Hb (cmd' & Hc' & Hn & _ & _ & _ & Ha)%run_line_cmd Hl.
  assert (cmd' = cmd) as ->; [|by apply Ha].
  apply find_command_In in Hc, Hc'. congruence.
Qed.
Lemma other_setter cmd st line st' :
  cmd ∈ commands -> run_line read now ctx st line = Some st' -> l_name line <> cmd_name cmd ->
  same_field (cmd_set cmd) (lv_conf st'.2) (lv_conf st.2) /\ lv_data st.2 ⊆ lv_data st'.2.
Proof.
  intros Hc (cmd' & Hc' & Hn & _ & (z & b & v & ->) & Hd & _)%run_line_cmd Hl. split; [|done].
  apply put_other; [done|done|congruence].
Qed.

(** A field that was written can be told from one that was not. *)
Definition taken (cmd : Command) (lv : Level) : Prop :=
  match cmd_set cmd with
  | FlagSlot l | SecSlot l => lget l (lv_conf lv) <> NGX_CONF_UNSET
  | NumSlot l => lget l (lv_conf lv) <> UNSET_UINT
  | SizeSlot l => lget l (lv_conf lv) <> UNSET_SIZE
  | StrSlot _ => cmd_name cmd ∈ lv_data lv
  | ComplexSlot l => is_Some (lget l (lv_conf lv))
  | VerifierBlock | RedisBlock => False
  end.
Lemma setter_takes cmd lv a lv' :
  cmd ∈ commands -> apply_setter cmd lv a = Some lv' -> ~ taken cmd lv /\ taken cmd lv'.
Proof.
  intros Hc Ha. pose proof (fun z b v => put_got cmd z b v (lv_conf lv) Hc) as Hg.
  assert (forall unset value l, (forall a z, value a = Some z -> z <> unset) ->
    (forall z, lget l (lput l z (lv_conf lv)) = z) -> set_number value unset l lv a = Some lv' ->
    ~ lget l (lv_conf lv) <> unset /\ lget l (lv_conf lv') <> unset) as Hnum.
  { intros unset value l Hv Hl. unfold set_number. destruct (lget l (lv_conf lv) =? unset) eqn:Eu; [|done]. to_prop.
    cbn [negb]. destruct (value a) as [z|] eqn:Ez; [|done]. intros [= <-]. cbn [lv_conf]. rewrite Hl.
    split; [by intros ?|by eapply Hv]. }
  unfold apply_setter, taken, got, put in *. destruct (cmd_set cmd) as [l|l|l|l|l|l| |]; try done.
  - apply (Hnum _ _ _ flag_not_unset (fun z => Hg z [] None) Ha).
  - apply (Hnum _ _ _ num_not_unset (fun z => Hg z [] None) Ha).
  - apply (Hnum _ _ _ sec_not_unset (fun z => Hg z [] None) Ha).
  - apply (Hnum _ _ _ size_not_unset (fun z => Hg z [] None) Ha).
  - unfold set_str in Ha. case_bool_decide; [done|]. injection Ha as <-. split; [done|]. cbn [lv_data]. set_solver.
  - unfold set_complex in Ha. destruct (lget l (lv_conf lv)) eqn:El; [done|].
    destruct (complex_value a) as [v|]; [|done]. injection Ha as <-. cbn [lv_conf]. rewrite (Hg 0 [] (Some v)).
    split; [by intros [? ?]|by eexists].
Qed.
Lemma other_taken cmd st line st' :
  cmd ∈ commands -> run_line read now ctx st line = Some st' -> l_name line <> cmd_name cmd ->
  taken cmd st.2 -> taken cmd st'.2.
Proof.
  intros Hc E Hn. destruct (other_setter cmd _ _ _ Hc E Hn) as [Hf Hd]. unfold taken, same_field in *.
  destruct (cmd_set cmd); rewrite ?Hf; auto.
Qed.
Lemma run_line_accepts st line st' :
  run_line read now ctx st line = Some st' ->
  exists cmd, find_command (l_name line) = Some cmd /\ accepts cmd ctx line = true.
Proof.
  unfold run_line. destruct st as [main lv]. destruct (find_command (l_name line)) as [cmd|]; [|done].
  destruct (accepts cmd ctx line) eqn:Ea; [|done]. by exists cmd.
Qed.
Lemma run_lines_unambiguous st lines st' :
  run_lines read now ctx st lines = Some st' ->
  unambiguous (ctx, lines)
  /\ forall cmd, cmd ∈ commands -> taken cmd st.2 -> cmd_name cmd ∉ map l_name lines.
Proof.
  unfold unambiguous. cbn [fst snd]. revert st. induction lines as [|line lines IH]; intros st; cbn [run_lines].
  { intros _. split; [split; constructor|]. intros cmd _ _. apply not_elem_of_nil. }
  destruct (run_line read now ctx st line) as [st1|] eqn:E; [|done]. intros Hr. destruct (IH st1 Hr) as [[Hall Hnd] Hno].
  destruct (run_line_accepts _ _ _ E) as (cmd0 & Hf0 & Ha0). destruct (find_command_name _ _ Hf0) as [Hin0 Hn0].
  split; [split; [constructor; eauto|]|].
  - cbn [map]. rewrite filter_cons. destruct (decide _) as [Hs|]; [|done]. constructor; [|done].
    unfold is_setting in Hs. rewrite Hf0 in Hs. apply negb_true_iff in Hs.
    rewrite list_elem_of_filter. intros [_ Hin]. apply (Hno cmd0 Hin0); [|by rewrite Hn0].
    by apply (setter_takes cmd0 _ _ _ Hin0 (own_setter cmd0 _ _ _ Hin0 Hs E (eq_sym Hn0))).
  - intros cmd Hc Ht. cbn [map]. apply not_elem_of_cons. split.
    + intros Hn. destruct (is_block (cmd_set cmd)) eqn:Eb; [unfold taken in Ht; by destruct (cmd_set cmd)|].
      by apply (setter_takes cmd _ _ _ Hc (own_setter cmd _ _ _ Hc Eb E (eq_sym Hn))).
    + apply Hno; [done|]. destruct (decide (l_name line = cmd_name cmd)) as [Hn|Hn]; [|by eapply other_taken].
      destruct (is_block (cmd_set cmd)) eqn:Eb; [unfold taken in Ht; by destruct (cmd_set cmd)|].
      by apply (setter_takes cmd _ _ _ Hc (own_setter cmd _ _ _ Hc Eb E Hn)).
Qed.

(** What a block leaves in a field: the reading of the directive's argument, or unset. *)
Definition left {T} (unset : T) (value : bytes -> option T) (name : bytes) (lines : list Line) : T :=
  default unset (a <-? stated name lines; value a).

Lemma number_left cmd l value unset main lines st' :
  cmd ∈ commands -> is_block (cmd_set cmd) = false ->
  (forall lv a, apply_setter cmd lv a = set_number value unset l lv a) ->
  (forall c c', same_field (cmd_set cmd) c c' -> lget l c = lget l c') ->
  (forall z c, lget l (lput l z c) = z) ->
  (forall a z, value a = Some z -> z <> unset) -> lget l create_location_conf = unset ->
  run_lines read now ctx (main, new_level) lines = Some st' ->
  lget l (lv_conf st'.2) = left unset value (cmd_name cmd) lines.
Proof.
  intros Hc Hb Happ Hsame Hput Hval Hnew Hr. unfold left.
  destruct (level_value (lget l) value (cmd_name cmd) (fun lv => lget l (lv_conf lv) <> unset) read now ctx)
    with (st := (main, new_level)) (lines := lines) (st' := st') as [Hs Hn]; [| |done|].
  - intros st line st1 Hl E. pose proof (own_setter cmd _ _ _ Hc Hb Hl E) as Ha. rewrite Happ in Ha.
    unfold set_number in Ha. destruct (lget l (lv_conf st.2) =? unset) eqn:Eu; [|done]. cbn [negb] in Ha. to_prop.
    destruct (value _) as [z|] eqn:Ez; [|done]. injection Ha as <-. cbn [lv_conf]. rewrite Hput.
    split; [by intros ?|]. split; [by eapply Hval|done].
  - intros st line st1 Hl E. destruct (other_setter cmd _ _ _ Hc Hl E) as [Hf%Hsame _]. rewrite Hf. done.
  - rewrite Hs. destruct (stated _ lines); [done|]. rewrite Hn by done. exact Hnew.
Qed.
Lemma string_left cmd l main lines st' :
  cmd ∈ commands -> cmd_set cmd = StrSlot l -> (forall z c, lget l (lput l z c) = z) ->
  lget l create_location_conf = [] ->
  run_lines read now ctx (main, new_level) lines = Some st' ->
  lget l (lv_conf st'.2) = left [] Some (cmd_name cmd) lines.
Proof.
  intros Hc Hset Hput Hnew Hr. unfold left.
  destruct (level_value (lget l) Some (cmd_name cmd) (fun lv => cmd_name cmd ∈ lv_data lv) read now ctx)
    with (st := (main, new_level)) (lines := lines) (st' := st') as [Hs Hn]; [| |done|].
  - intros st line st1 Hl E. assert (is_block (cmd_set cmd) = false) as Hb by by rewrite Hset.
    pose proof (own_setter cmd _ _ _ Hc Hb Hl E) as Ha. unfold apply_setter in Ha. rewrite Hset in Ha.
    unfold set_str in Ha. case_bool_decide; [done|]. injection Ha as <-. cbn [lv_conf lv_data]. rewrite Hput.
    split; [done|]. split; [set_solver|done].
  - intros st line st1 Hl E. destruct (other_setter cmd _ _ _ Hc Hl E) as [Hf Hd]. rewrite Hset in Hf.
    split; [exact Hf|set_solver].
  - rewrite Hs. destruct (stated _ lines); [done|]. rewrite Hn by done. exact Hnew.
Qed.
Lemma complex_left cmd l main lines st' :
  cmd ∈ commands -> cmd_set cmd = ComplexSlot l -> (forall z c, lget l (lput l z c) = z) ->
  lget l create_location_conf = None ->
  run_lines read now ctx (main, new_level) lines = Some st' ->
  lget l (lv_conf st'.2) = left None (fun a => v <-? complex_value a; Some (Some v)) (cmd_name cmd) lines.
Proof.
  intros Hc Hset Hput Hnew Hr. unfold left.
  destruct (level_value (lget l) (fun a => v <-? complex_value a; Some (Some v)) (cmd_name cmd)
              (fun lv => is_Some (lget l (lv_conf lv))) read now ctx)
    with (st := (main, new_level)) (lines := lines) (st' := st') as [Hs Hn]; [| |done|].
  - intros st line st1 Hl E. assert (is_block (cmd_set cmd) = false) as Hb by by rewrite Hset.
    pose proof (own_setter cmd _ _ _ Hc Hb Hl E) as Ha. unfold apply_setter in Ha. rewrite Hset in Ha.
    unfold set_complex in Ha. destruct (lget l (lv_conf st.2)) eqn:Eo; [done|].
    destruct (complex_value _) as [v|]; [|done]. injection Ha as <-. cbn [lv_conf]. rewrite Hput.
    split; [by intros [? ?]|]. by split.
  - intros st line st1 Hl E. destruct (other_setter cmd _ _ _ Hc Hl E) as [Hf _]. rewrite Hset in Hf.
    unfold same_field in Hf. rewrite Hf. done.
  - rewrite Hs. destruct (stated _ lines); [done|]. rewrite Hn by done. exact Hnew.
Qed.
End fields.

Lemma effective_innermost {T} (set : T -> bool) value name d (get : Conf -> T) unset liness confs :
  set unset = false ->
  Forall2 (fun lines c => get c = left unset value name lines) liness confs ->
  innermost set d (map get confs) = effective set value name d liness.
Proof.
  intros Hu Hf. revert d. induction Hf as [|lines c liness confs Hc _ IH]; intros d; [done|].
  cbn [map innermost effective]. rewrite <- IH. f_equal. rewrite Hc. unfold left.
  destruct (a <-? stated name lines; value a) as [v|]; [done|]. cbn [default]. by rewrite Hu.
Qed.
Lemma parse_levels_runs {N : NginxConf} {S : Sha256} read now main path main' confs :
  parse_levels read now main path = Some (main', confs) ->
  Forall2 (fun p c => exists main st, run_lines read now p.1 (main, new_level) p.2 = Some st /\ c = lv_conf st.2)
    path confs.
Proof.
  revert main confs. induction path as [|[ctx lines] path IH]; intros main confs; cbn [parse_levels].
  { intros [= _ <-]. constructor. }
  destruct (run_lines read now ctx (main, new_level) lines) as [[main1 lv]|] eqn:E1; [|done].
  destruct (parse_levels read now main1 path) as [[main2 confs']|] eqn:E2; [|done]. intros [= <- <-].
  constructor; [|by eapply IH]. by exists main, (main1, lv).
Qed.

(** The [i]th command of the table. *)
Ltac nth_command i := apply (list_elem_of_lookup_2 commands i); reflexivity.
Section loaded.
Context {N : NginxConf} {NL : NginxConfLaws N} {S : Sha256} {A : Assets} {B : Base64}.

(** The left value of the [i]th command, over all blocks. *)
Lemma levels_left {T} (get : Conf -> T) unset value name read now path confs :
  (forall ctx main lines st, run_lines read now ctx (main, new_level) lines = Some st ->
     get (lv_conf st.2) = left unset value name lines) ->
  Forall2 (fun p c => exists main st, run_lines read now p.1 (main, new_level) p.2 = Some st /\ c = lv_conf st.2)
    path confs ->
  Forall2 (fun lines c => get c = left unset value name lines) (map snd path) confs.
Proof.
  intros Hl Hf. induction Hf as [|[ctx lines] c path confs (main & st & Hr & ->) _ IH]; cbn [map]; constructor; [|done].
  by eapply Hl.
Qed.
(** One field of [configured]: the inherited equation, the mark of an unset field, and the
    place of the directive in the table. *)
Ltac field_eq eq unset :=
  rewrite eq; apply (effective_innermost _ _ _ _ _ unset); [reflexivity|];
  eapply levels_left; [|eassumption]; intros ctx' main0 ls st.
Ltac number_field eq unset l i range :=
  field_eq eq unset; eapply (number_left _ _ _ (mkCommand _ _ _ _ _) l);
  [nth_command i|reflexivity|reflexivity|intros ? ? E'; exact E'|by intros ? []|apply range|reflexivity].
Ltac string_field eq l i :=
  field_eq eq (@nil byte); eapply (string_left _ _ _ (mkCommand _ _ _ _ _) l);
  [nth_command i|reflexivity|by intros ? []|reflexivity].
Ltac complex_field eq l i :=
  field_eq eq (@None ComplexValue); eapply (complex_left _ _ _ (mkCommand _ _ _ _ _) l);
  [nth_command i|reflexivity|by intros ? []|reflexivity].
Lemma load_configured read now http ctx lines inner main m :
  load read now http ((ctx, lines) :: inner) = Some (main, m) ->
  configured (http :: lines :: map snd inner) m.
Proof.
  unfold load. destruct (parse_levels _ _ _ _) as [[main' confs]|] eqn:E; [|done].
  pose proof (parse_levels_runs _ _ _ _ _ _ E) as Hf.
  destruct confs as [|outer levels]; [done|].
  destruct (merge_chain read outer levels) as [m'|] eqn:Em; [|done]. intros [= _ ->].
  assert (inherited (outer :: levels) m) as Hi.
  { apply Forall2_cons_inv_l in Hf as (? & ? & _ & Hf & E'). injection E' as -> ->.
    apply Forall2_cons_inv_l in Hf as (? & ? & _ & _ & ->). by eapply merge_chain_inherited. }
  change (http :: lines :: map snd inner) with (map snd ((Http, http) :: (ctx, lines) :: inner)).
  constructor.
  - number_field (in_enabled _ _ Hi) NGX_CONF_UNSET o_enabled 0%nat flag_not_unset.
  - complex_field (in_trusted _ _ Hi) o_trusted 1%nat.
  - complex_field (in_decision _ _ Hi) o_decision 2%nat.
  - string_field (in_page_path _ _ Hi) o_page_path 3%nat.
  - string_field (in_nojs_page_path _ _ Hi) o_nojs_page_path 4%nat.
  - number_field (in_difficulty _ _ Hi) UNSET_UINT o_difficulty 5%nat num_not_unset.
  - string_field (in_hmac_key_file _ _ Hi) o_hmac_key_file 6%nat.
  - number_field (in_clearance_ttl _ _ Hi) NGX_CONF_UNSET o_clearance_ttl 7%nat sec_not_unset.
  - number_field (in_proof_skew _ _ Hi) NGX_CONF_UNSET o_proof_skew 8%nat sec_not_unset.
  - number_field (in_require_proof _ _ Hi) NGX_CONF_UNSET o_require_proof 9%nat flag_not_unset.
  - number_field (in_ipv4_prefix _ _ Hi) UNSET_UINT o_ipv4_prefix 10%nat num_not_unset.
  - number_field (in_ipv6_prefix _ _ Hi) UNSET_UINT o_ipv6_prefix 11%nat num_not_unset.
  - string_field (in_policy _ _ Hi) o_policy 12%nat.
  - string_field (in_endpoint _ _ Hi) o_endpoint 13%nat.
  - number_field (in_replay _ _ Hi) NGX_CONF_UNSET o_replay 14%nat flag_not_unset.
  - number_field (in_replay_max_body _ _ Hi) UNSET_SIZE o_replay_max_body 15%nat size_not_unset.
  - string_field (in_cookie_name _ _ Hi) o_cookie_name 16%nat.
  - number_field (in_cookie_scope_suffix _ _ Hi) NGX_CONF_UNSET o_cookie_scope_suffix 17%nat flag_not_unset.
  - string_field (in_cookie_domain _ _ Hi) o_cookie_domain 18%nat.
  - string_field (in_cookie_path _ _ Hi) o_cookie_path 19%nat.
  - string_field (in_cookie_samesite _ _ Hi) o_cookie_samesite 20%nat.
  - number_field (in_cookie_secure _ _ Hi) NGX_CONF_UNSET o_cookie_secure 21%nat flag_not_unset.
  - number_field (in_cookie_httponly _ _ Hi) NGX_CONF_UNSET o_cookie_httponly 22%nat flag_not_unset.
Qed.
Lemma load_unambiguous read now http inner main m :
  load read now http inner = Some (main, m) -> Forall unambiguous ((Http, http) :: inner).
Proof.
  unfold load. destruct (parse_levels _ _ _ _) as [[main' confs]|] eqn:E; [|done]. intros _.
  apply parse_levels_runs in E. induction E as [|[ctx lines] c path confs (main0 & st & Hr & _) _ IH]; constructor; [|done].
  by apply run_lines_unambiguous in Hr as [? _].
Qed.

Lemma effective_in {T} (P : T -> Prop) set value name d levels :
  P d -> (forall a v, value a = Some v -> P v) -> P (effective set value name d levels).
Proof.
  intros Hd Hv. revert d Hd. induction levels as [|lines levels IH]; intros d Hd; [done|].
  cbn [effective]. apply IH. destruct (stated name lines) as [a|]; [|done]. destruct (value a) as [v|] eqn:E; [|done].
  destruct (set v); [by eapply Hv|done].
Qed.
Definition flags (c : Conf) : list Z :=
  [c_enabled c; c_require_proof c; c_replay c; c_cookie_scope_suffix c; c_cookie_secure c; c_cookie_httponly c].
Definition numbers (c : Conf) : list Z :=
  [c_difficulty c; c_clearance_ttl c; c_proof_skew c; c_ipv4_prefix c; c_ipv6_prefix c; c_replay_max_body c].
Lemma configured_typed levels m :
  configured levels m ->
  Forall (fun z => z = 0 \/ z = 1) (flags m) /\ Forall (fun z => 0 <= z < 2 ^ 63) (numbers m).
Proof.
  intros []. split; repeat (apply List.Forall_cons || apply List.Forall_nil);
    match goal with H : ?f m = _ |- context [?f m] => rewrite H end; apply effective_in;
    first [lia | apply flag_bool | apply num_range | apply sec_range | apply size_range].
Qed.
Definition main_ok (main : MainConf) : Prop :=
  (forall c, cluster main = Some c -> Cluster.valid_config c)
  /\ map_Forall (fun _ v => sane v /\ blank v) (verifiers main).
Lemma run_line_main read now ctx st line st' :
  main_ok st.1 -> run_line read now ctx st line = Some st' -> main_ok st'.1.
Proof.
  destruct st as [main lv]. cbn [fst]. intros [Hc Hv]. unfold run_line.
  destruct (find_command (l_name line)) as [cmd|]; [|done]. destruct (negb _); [done|].
  destruct (cmd_set cmd); try (destruct (apply_setter _ _ _); by intros [= <-]).
  - destruct (pow_gate_verifier_block _ _ _ _) as [vs|] eqn:E; [|done]. intros [= <-].
    apply verifier_block_sane in E as (name & v & _ & -> & Hs & Hb). split; [done|].
    by apply map_Forall_insert_2.
  - unfold Cluster.configure. destruct (cluster main) eqn:Ec; [done|].
    destruct (parse_block ∅ _) as [values|]; [|done]. destruct (parse_config read values) as [c|] eqn:E; [|done].
    intros [= <-]. split; [|done]. intros c' [= <-]. by eapply parse_config_valid.
Qed.
Lemma parse_levels_main read now main path main' confs :
  main_ok main -> parse_levels read now main path = Some (main', confs) -> main_ok main'.
Proof.
  revert main confs. induction path as [|[ctx lines] path IH]; intros main confs Hm; cbn [parse_levels].
  { by intros [= <- _]. }
  destruct (run_lines read now ctx (main, new_level) lines) as [[main1 lv]|] eqn:E1; [|done].
  assert (main_ok main1) as H1.
  { change main1 with (main1, lv).1. change main with (main, new_level).1 in Hm. revert Hm E1.
    generalize (main, new_level) as st. induction lines as [|line lines IHl]; intros st Hst; cbn [run_lines].
    - by intros [= ->].
    - destruct (run_line read now ctx st line) as [st1|] eqn:E; [|done]. apply IHl. by eapply run_line_main. }
  destruct (parse_levels read now main1 path) as [[main2 confs']|] eqn:E2; [|done]. intros [= <- _].
  by eapply IH.
Qed.
End loaded.

(** ** Properties *)

(** C28: What the operator writes is what a location gets.  Over the blocks around a location,
    from the http block inwards, each of the 23 inheritable settings is the reading of the
    argument the innermost block gives to its directive, and the documented default where no
    block states it; an empty string states nothing.  The reading is unambiguous: every line
    of every block is a directive of the module in a context that allows it, with its number
    of arguments, and no block states a setting twice. *)
Theorem operator_value_wins {N : NginxConf} {NL : NginxConfLaws N} {S : Sha256} {A : Assets} {B : Base64}
  read now http ctx lines inner main m :
  load read now http ((ctx, lines) :: inner) = Some (main, m) ->
  configured (http :: lines :: map snd inner) m /\ Forall unambiguous ((Http, http) :: (ctx, lines) :: inner).
Proof. intros E. split; [by eapply load_configured|by eapply load_unambiguous]. Qed.

(** C29: Every configuration nginx accepts is well typed and can be served.  Whatever the text,
    a location that is loaded has flags that are 0 or 1 and numbers that fit a signed word,
    serves (valid address policy, no truncation, usable key, positive difficulty and
    lifetime where the gate is on), its cluster, if any, has a valid configuration, and every
    verifier is sane and starts without knowledge. *)
Theorem accepted_configuration_typed {N : NginxConf} {NL : NginxConfLaws N} {S : Sha256} {A : Assets} {B : Base64}
  {H : Hmac} {J : JsonText} read now http ctx lines inner main m :
  load read now http ((ctx, lines) :: inner) = Some (main, m) ->
  Forall (fun z => z = 0 \/ z = 1) (flags m) /\ Forall (fun z => 0 <= z < 2 ^ 63) (numbers m)
  /\ serves read m /\ main_ok main.
Proof.
  intros E. pose proof (load_configured _ _ _ _ _ _ _ _ E) as Hc.
  destruct (configured_typed _ _ Hc) as [Hf Hn]. split; [done|]. split; [done|]. unfold load in E.
  destruct (parse_levels _ _ _ _) as [[main' confs]|] eqn:Ep; [|done].
  assert (main_ok create_main_conf) as Hm0 by (split; [done|apply map_Forall_empty]).
  pose proof (parse_levels_main _ _ _ _ _ _ Hm0 Ep) as Hm. apply parse_levels_runs in Ep.
  apply Forall2_cons_inv_l in Ep as (outer & ? & _ & Ep & ->). apply Forall2_cons_inv_l in Ep as (c & levels & _ & _ & ->).
  destruct (merge_chain read outer (c :: levels)) as [m'|] eqn:Em; [|done]. injection E as <- ->.
  split; [|done]. apply merge_chain_last in Em as (prev & conf & Em). eapply merge_serves; [exact Em|].
  apply in_u_iff. apply Forall_inv in Hn. lia.
Qed.

(** A reading of arguments that satisfies the laws: decimal numbers, literal complex values. *)
#[export] Instance std_nginx_conf : NginxConf := {|
  flag_value a := if beq a (bs "on") then Some 1 else if beq a (bs "off") then Some 0 else None;
  num_value a := parse_u 63 a; sec_value a := parse_u 63 a; size_value a := parse_u 63 a;
  complex_value a := Some (mkComplex false a None) |}.
#[export] Instance std_nginx_conf_laws : NginxConfLaws std_nginx_conf.
Proof.
  split; [reflexivity|reflexivity| | | |].
  - intros a z. simpl. repeat case_match; intros [= <-]; auto.
  - intros a z Hz%parse_u_range. by apply in_u_iff in Hz.
  - intros a z Hz%parse_u_range. by apply in_u_iff in Hz.
  - intros a z Hz%parse_u_range. by apply in_u_iff in Hz.
Qed.
#[local] Instance demo_assets : Assets := {|
  DEFAULT_PAGE := bs "<p>"; DEFAULT_NOJS_PAGE := bs "{{delay}}"; SOLVER_JS := bs "js"; PKG_VERSION := bs "1" |}.
Definition line (name arg : string) : Line := mkLine (bs name) [bs arg] None.
Definition demo_http_block : list Line :=
  [line "pow_gate_hmac_key_file" "/key"; line "pow_gate_difficulty" "7";
   mkLine (bs "pow_gate_verifier") [bs "google"] (Some [[bs "fcrdns_suffix"; bs "googlebot.com"]])].
Definition demo_inner : list (Ctx * list Line) :=
  [(Server, [line "pow_gate" "on"; line "pow_gate_decision" "challenge"]);
   (InLocation, [line "pow_gate_difficulty" "9"; line "pow_gate_policy" ""])].
Lemma operator_value_wins_witness :
  exists main m, load demo_fs 0 demo_http_block demo_inner = Some (main, m)
  /\ c_difficulty m = 9 /\ c_enabled m = 1 /\ c_policy m = bs "default"
  /\ load demo_fs 0 demo_http_block [(Server, [line "pow_gate" "on"; line "pow_gate" "off"])] = None.
Proof.
  destruct (load demo_fs 0 demo_http_block demo_inner) as [[main m]|] eqn:E; [|vm_compute in E; discriminate].
  exists main, m. split; [reflexivity|]. apply operator_value_wins in E as [E _].
  rewrite (on_difficulty _ _ E), (on_enabled _ _ E), (on_policy _ _ E). vm_compute. auto.
Defined.
Lemma accepted_configuration_typed_witness :
  exists main m, load demo_fs 0 demo_http_block demo_inner = Some (main, m) /\ serves demo_fs m.
Proof.
  destruct (load demo_fs 0 demo_http_block demo_inner) as [[main m]|] eqn:E; [|vm_compute in E; discriminate].
  exists main, m. split; [reflexivity|].
  destruct (accepted_configuration_typed _ _ _ _ _ _ _ _ E) as (_ & _ & Hs & _). exact Hs.
Defined.
