(* ===== verification/Startup.v ===== *)
(** * [lib.rs], [engine/mod.rs], zone and handler registration: the life of the module in nginx

    nginx loads a configuration into a cycle, forks workers from the active cycle, and on a
    reload builds a new cycle while old workers finish.  The module's part is its hooks
    ([NGX_HTTP_POW_GATE_MODULE_CTX]: [register], [postconfiguration] with [configure],
    [install] and [install_access_handler]), the zone's init and, in a worker,
    [init_process].  [load_cycle] and [sstep] are nginx around them: when it runs which hook,
    and what survives a load that fails.  Shared memory is a store of segments; a process
    holds the static variables of the module and nginx's chain of request body filters,
    which is global: a load that fails after the chain was rebuilt does not restore it. *)
From Stdlib Require Import ZArith Lia.
From Stdlib Require Import Strings.Byte.
From stdpp Require Import base list strings option numbers countable sets gmap infinite.
From S2P Require Import Prelude RustStr Crates StandIns Redemption Store Ledger Cluster Verifier Config Directives.
Local Open Scope Z_scope.

Inductive Filter := PowFilter | CoreFilter.
Inductive Handler := PowGateAccess | OtherHandler (n : nat).

(** A zone structure: its [data], a segment. *)
Record ShmZone := mkZone { zone_data : option nat }.
Record Cycle := mkCycle {
  cy_main : MainConf; cy_zone : option ShmZone; cy_handlers : list Handler; cy_variables : list (bytes * nat);
}.
(** The statics [ZONE] and [RUNTIME], the verifier registry, and nginx's body filter chain
    ([NEXT] is what is below our filter). *)
Record Process := mkProcess {
  ZONE : option ShmZone; RUNTIME : option Cluster.Runtime; verifier_registry : Verifiers; body_filters : list Filter;
}.

(** ** Registration *)

Definition variables : list bytes :=
  map bs ["pow_gate_result"; "pow_gate_reason"; "pow_gate_difficulty"; "pow_gate_cookie_name"]%string.
(** [register]: [add] is [ngx_http_add_variable]. *)
Fixpoint register_loop (add : bytes -> bool) (data : nat) (names : list bytes) (vars : list (bytes * nat))
  : option (list (bytes * nat)) :=
  match names with
  | [] => Some vars
  | name :: names =>
      if add name then register_loop add (S data) names (vars ++ [(name, data)]) else None
  end.
Definition register (add : bytes -> bool) : option (list (bytes * nat)) := register_loop add 0 variables [].
(** [redemption::configure]: whether a zone is wanted; [None] for an error.  [added] is what
    [ngx_shared_memory_add] answers. *)
Definition configure (added : bool) (main : MainConf) : option bool :=
  match cluster main with
  | Some _ => Some false
  | None => if added then Some true else None
  end.
Definition install (p : Process) : Process :=
  mkProcess (ZONE p) (RUNTIME p) (verifier_registry p) (PowFilter :: body_filters p).
(** [install_access_handler]: the core configuration is found, and the push succeeds. *)
Definition install_access_handler (core push : bool) (handlers : list Handler) : option (list Handler) :=
  if negb core then None else if negb push then None else Some (handlers ++ [PowGateAccess]).

(** What nginx answers during a load; [le_main] is the parsed main configuration, [le_others]
    whether the modules it asks before this one accept theirs. *)
Record LoadEnv := mkLoadEnv {
  le_add : bytes -> bool; le_main : option MainConf; le_others : bool; le_added : bool; le_core : bool; le_push : bool;
  le_handlers : list Handler; le_slab : bool; le_random : option bytes;
}.
Definition postconfiguration (env : LoadEnv) (main : MainConf) (p : Process) : option (bool * list Handler) * Process :=
  match configure (le_added env) main with
  | None => (None, p)
  | Some wanted =>
      let p := install p in
      match install_access_handler (le_core env) (le_push env) (le_handlers env) with
      | None => (None, p)
      | Some handlers => (Some (wanted, handlers), p)
      end
  end.

(** [ngx_http_module_t]: the hooks of an HTTP module, each of which may be absent; the merge
    has the compiled-in pages, the crates it calls and the file system as arguments. *)
Record ngx_http_module_t := mkModule {
  preconfiguration_hook : option ((bytes -> bool) -> option (list (bytes * nat)));
  postconfiguration_hook : option (LoadEnv -> MainConf -> Process -> option (bool * list Handler) * Process);
  create_main_conf_hook : option MainConf;
  init_main_conf_hook : option (MainConf -> option MainConf);
  create_srv_conf_hook : option unit;
  merge_srv_conf_hook : option unit;
  create_loc_conf_hook : option Conf;
  merge_loc_conf_hook : option (Challenge.Assets -> Base64 -> Sha256 -> (bytes -> option bytes) -> Conf -> Conf -> option Conf);
}.
Definition NGX_HTTP_POW_GATE_MODULE_CTX : ngx_http_module_t := {|
  preconfiguration_hook := Some register;
  postconfiguration_hook := Some postconfiguration;
  create_main_conf_hook := Some create_main_conf;
  init_main_conf_hook := None;
  create_srv_conf_hook := None;
  merge_srv_conf_hook := None;
  create_loc_conf_hook := Some create_location_conf;
  merge_loc_conf_hook := Some (@merge_location_conf);
|}.
(** nginx runs a hook that is there. *)
Definition preconfigure (m : ngx_http_module_t) (add : bytes -> bool) : option (list (bytes * nat)) :=
  match preconfiguration_hook m with Some f => f add | None => Some [] end.
Definition postconfigure (m : ngx_http_module_t) (env : LoadEnv) (main : MainConf) (p : Process)
  : option (bool * list Handler) * Process :=
  match postconfiguration_hook m with Some f => f env main p | None => (Some (false, le_handlers env), p) end.

(** ** Cycles *)

(** nginx hands the zone of the old cycle, of the same name and size, to [init_zone]. *)
Definition zone_init (env : LoadEnv) (mem : gmap nat State) (old : option nat) : option (nat * gmap nat State) :=
  match old with
  | Some seg => Some (seg, mem)
  | None =>
      match init_zone None None false (le_slab env) (le_random env) with
      | (true, Some st) => let seg := base.fresh (dom mem : gset nat) in Some (seg, <[seg := st]> mem)
      | _ => None
      end
  end.
Definition old_data (c : option Cycle) : option nat := c <-? c; z <-? cy_zone c; zone_data z.
(** A load in the master: on any error the active cycle stays.  nginx's core, whose
    [postconfiguration] is the first, starts the chain of body filters anew with its own. *)
Definition load_cycle (env : LoadEnv) (active : option Cycle) (mem : gmap nat State) (p : Process)
  : option (Cycle * gmap nat State) * Process :=
  match preconfigure NGX_HTTP_POW_GATE_MODULE_CTX (le_add env), le_main env with
  | Some vars, Some main =>
      let p := mkProcess (ZONE p) (RUNTIME p) (verifier_registry p) [CoreFilter] in
      if negb (le_others env) then (None, p) else
      let '(r, p) := postconfigure NGX_HTTP_POW_GATE_MODULE_CTX env main p in
      match r with
      | None => (None, p)
      | Some (false, handlers) => (Some (mkCycle main None handlers vars, mem), p)
      | Some (true, handlers) =>
          match zone_init env mem (old_data active) with
          | None => (None, p)
          | Some (seg, mem) => (Some (mkCycle main (Some (mkZone (Some seg))) handlers vars, mem), p)
          end
      end
  | _, _ => (None, p)
  end.

(** ** Workers *)

(** [redemption::activate] and [init_process], in a process forked from the master. *)
Definition activate (cycle : option Cycle) (p : Process) : bool * Process :=
  match cycle with
  | None => (false, p)
  | Some c =>
      let p := mkProcess (cy_zone c) (Cluster.activate (cluster (cy_main c))) (verifier_registry p) (body_filters p) in
      if Cluster.enabled (RUNTIME p) then (true, p)
      else match ZONE p with
           | None => (false, p)
           | Some z => (bool_decide (is_Some (zone_data z)), p)
           end
  end.
Definition init_process (cycle : option Cycle) (spawned : nat -> bool) (p : Process) : bool * Process :=
  let '(ok, p) := activate cycle p in
  if negb ok then (false, p)
  else (true, mkProcess (ZONE p) (RUNTIME p)
                (match cycle with Some c => start_refreshers (verifiers (cy_main c)) spawned | None => verifier_registry p end)
                (body_filters p)).

(** ** The system *)

Record System := mkSystem {
  memory : gmap nat State; active : option Cycle; master : Process; workers : gmap nat Process;
}.
Inductive SEvent :=
  | Load (env : LoadEnv)
  | Spawn (w : nat) (spawned : nat -> bool)
  | Exit (w : nat)
  | Redemption (w : nat) (wall : Z) (token : bytes) (expires : Z).
(** A redemption by a worker without a cluster, on the segment of its zone. *)
Record Entry := mkLog { lg_segment : nat; lg_token : bytes; lg_expires : Z; lg_outcome : Outcome }.

Section system.
Context {S : Sha256}.

Definition worker_segment (p : Process) : option nat :=
  if Cluster.enabled (RUNTIME p) then None else z <-? ZONE p; zone_data z.
Definition sstep (sys : System) (ev : SEvent) : System * list Entry :=
  match ev with
  | Load env =>
      let '(r, p) := load_cycle env (active sys) (memory sys) (master sys) in
      (match r with
       | None => mkSystem (memory sys) (active sys) p (workers sys)
       | Some (c, mem) => mkSystem mem (Some c) p (workers sys)
       end, [])
  | Spawn w spawned =>
      let '(ok, p) := init_process (active sys) spawned (master sys) in
      (mkSystem (memory sys) (active sys) (master sys) (if ok then <[w := p]> (workers sys) else workers sys), [])
  | Exit w => (mkSystem (memory sys) (active sys) (master sys) (delete w (workers sys)), [])
  | Redemption w wall token e =>
      match (p <-? workers sys !! w; worker_segment p) with
      | None => (sys, [])
      | Some seg =>
          let '(o, z) := Ledger.consume wall (memory sys !! seg) token e in
          (mkSystem (match z with Some st => <[seg := st]> (memory sys) | None => memory sys end)
             (active sys) (master sys) (workers sys), [mkLog seg token e o])
      end
  end.
Fixpoint srun (sys : System) (evs : list SEvent) : System * list Entry :=
  match evs with
  | [] => (sys, [])
  | ev :: evs => let '(sys1, l1) := sstep sys ev in let '(sys2, l2) := srun sys1 evs in (sys2, l1 ++ l2)
  end.
(** The master before its first load. *)
Definition power_on : System := mkSystem ∅ None (mkProcess None None (start_refreshers ∅ (fun _ => false)) []) ∅.
End system.

(** ** Reference *)

(** The tokens that were accepted, with the segment that did. *)
Definition accepted (log : list Entry) : list (nat * bytes * Z) :=
  omap (fun en => if bool_decide (lg_outcome en = Accepted)
                  then Some (lg_segment en, lg_token en, lg_expires en) else None) log.
Definition accepted_tokens (log : list Entry) : list (bytes * Z) :=
  map (fun k => (k.1.2, k.2)) (accepted log).
(** No configuration of the history has a cluster. *)
Definition local_only (evs : list SEvent) : Prop :=
  Forall (fun ev => match ev with Load env => forall m, le_main env = Some m -> cluster m = None | _ => True end) evs.

(** ** Invariant *)

Record cycle_ok (mem : gmap nat State) (c : Cycle) : Prop := mkCycleOk {
  co_zone : match cluster (cy_main c) with
            | None => exists seg, cy_zone c = Some (mkZone (Some seg)) /\ is_Some (mem !! seg)
            | Some _ => cy_zone c = None
            end;
  co_handler : PowGateAccess ∈ cy_handlers c;
  co_variables : cy_variables c = zip variables (seq 0 4);
}.
Section invariant.
Context {S : Sha256}.

Record good (sys : System) (log : list Entry) : Prop := mkGood {
  good_memory : map_Forall (fun _ st => ledger_inv st) (memory sys);
  good_workers w p seg : workers sys !! w = Some p -> worker_segment p = Some seg -> is_Some (memory sys !! seg);
  good_active c : active sys = Some c -> cycle_ok (memory sys) c;
  good_gone seg token e : (seg, token, e) ∈ accepted log ->
    exists st, memory sys !! seg = Some st /\ ledger_gone st (id token) e;
  good_once : NoDup (accepted log);
}.
Lemma good_power_on : good power_on [].
Proof. split; [apply map_Forall_empty|done|done|set_solver|constructor]. Qed.

Lemma register_vars add vars : register add = Some vars -> vars = zip variables (seq 0 4).
Proof.
  unfold register, variables. cbn [map register_loop]. repeat (case_match; [|done]). by intros [= <-].
Qed.
Lemma zone_init_cases env mem old seg mem' :
  zone_init env mem old = Some (seg, mem') ->
  (old = Some seg /\ mem' = mem)
  \/ (old = None /\ mem !! seg = None /\ exists st, mem' = <[seg := st]> mem /\ ledger_inv st).
Proof.
  unfold zone_init. destruct old as [s|]; [intros [= -> ->]; by left|].
  destruct (le_slab env); [|done].
  destruct (init_zone None None false true (le_random env)) as [[] [st|]] eqn:E; [|done..].
  intros [= <- <-]. right. split; [done|]. split.
  - apply (not_elem_of_dom_1 (D := gset nat)). apply is_fresh.
  - exists st. split; [done|]. by eapply fresh_zone_inv.
Qed.
(** A load that succeeds gives a cycle that can be served, and touches no segment in use. *)
Lemma load_cycle_ok env act mem p c mem' p' :
  (forall c0, act = Some c0 -> cycle_ok mem c0) ->
  load_cycle env act mem p = (Some (c, mem'), p') ->
  cycle_ok mem' c /\ mem ⊆ mem' /\ (forall seg st, mem' !! seg = Some st -> mem !! seg = Some st \/ ledger_inv st)
  /\ le_main env = Some (cy_main c) /\ body_filters p' = [PowFilter; CoreFilter]
  /\ (mem' = mem \/ (cluster (cy_main c) = None /\ old_data act = None /\ exists seg st, mem' = <[seg := st]> mem)).
Proof.
  intros Hact. unfold load_cycle, preconfigure, postconfigure. cbn [preconfiguration_hook postconfiguration_hook NGX_HTTP_POW_GATE_MODULE_CTX].
  destruct (register (le_add env)) as [vars|] eqn:Er; [|done].
  apply register_vars in Er as ->. destruct (le_main env) as [main|]; [|done]. destruct (le_others env); [|done]. cbn [negb].
  unfold postconfiguration. destruct (configure (le_added env) main) as [wanted|] eqn:Ec; [|done].
  destruct (install_access_handler _ _ _) as [hs|] eqn:Eh; [|done].
  assert (PowGateAccess ∈ hs) as Hhs.
  { unfold install_access_handler in Eh. repeat case_match; simplify_eq. set_solver. }
  unfold configure in Ec. destruct wanted.
  - destruct (zone_init env mem (old_data act)) as [[seg mem1]|] eqn:Ez; [|done]. intros [= <- <- <-].
    destruct (cluster main) eqn:Em; [done|].
    destruct (zone_init_cases _ _ _ _ _ Ez) as [[Ho ->]|(Ho & Hfresh & st & -> & Hst)].
    + split_and!; [|done|auto|done|done|by left]. split; [|done|done]. cbn [cy_main cy_zone]. rewrite Em.
      exists seg. split; [done|]. unfold old_data in Ho. destruct act as [c0|]; [|done].
      destruct (Hact c0 eq_refl) as [Hz _ _]. destruct (cluster (cy_main c0)); [by rewrite Hz in Ho|].
      destruct Hz as (s & Hz & ?). rewrite Hz in Ho. by simplify_eq/=.
    + split_and!; [|by apply insert_subseteq| |done|done|right; split_and!; [done..|by exists seg, st]].
      * split; [|done|done]. cbn [cy_main cy_zone]. rewrite Em. exists seg. split; [done|]. by rewrite lookup_insert_eq.
      * intros s st0 [[<- <-]|[_ ?]]%lookup_insert_Some; auto.
  - intros [= <- <- <-]. split_and!; [|done|auto|done|done|by left]. split; [|done|done]. cbn [cy_main cy_zone].
    by destruct (cluster main), (le_added env).
Qed.

Lemma accepted_app l1 l2 : accepted (l1 ++ l2) = accepted l1 ++ accepted l2.
Proof. unfold accepted. by rewrite omap_app. Qed.
Lemma good_mono sys sys' log :
  good sys log -> memory sys ⊆ memory sys' ->
  map_Forall (fun _ st => ledger_inv st) (memory sys') ->
  (forall c, active sys' = Some c -> cycle_ok (memory sys') c) ->
  (forall w p, workers sys' !! w = Some p -> workers sys !! w = Some p
     \/ forall seg, worker_segment p = Some seg -> is_Some (memory sys' !! seg)) ->
  good sys' log.
Proof.
  intros [Gm Gw Ga Gg Go] Hsub Hm Ha Hw. split; [done| |done| |done].
  - intros w p seg Hp Hseg. destruct (Hw w p Hp) as [Hp'|Hs]; [|by apply Hs].
    destruct (Gw w p seg Hp' Hseg) as [st Hst]. exists st. by eapply lookup_weaken.
  - intros seg token e Hin. destruct (Gg seg token e Hin) as (st & Hst & Hg). exists st. split; [|done].
    by eapply lookup_weaken.
Qed.
Lemma activate_segment c spawned p p' seg mem :
  cycle_ok mem c -> init_process (Some c) spawned p = (true, p') -> worker_segment p' = Some seg -> is_Some (mem !! seg).
Proof.
  intros [Hz _ _]. unfold init_process, activate, worker_segment. cbn [RUNTIME ZONE].
  destruct (cluster (cy_main c)) as [cl|]; [by intros [= <-]|]. destruct Hz as (s & -> & Hs). cbn [Cluster.activate].
  intros [= <-]. cbn. by intros [= <-].
Qed.
(** What any load leaves in the master: the statics, and the chain of body filters, which is
    ours on top of the core's as soon as this module's [postconfiguration] had its zone. *)
Definition installs (env : LoadEnv) : bool :=
  le_others env && match le_main env with Some main => bool_decide (is_Some (configure (le_added env) main)) | None => true end.
Lemma load_cycle_master env act mem p :
  let p' := (load_cycle env act mem p).2 in
  ZONE p' = ZONE p /\ RUNTIME p' = RUNTIME p /\ verifier_registry p' = verifier_registry p
  /\ body_filters p' =
     (if bool_decide (is_Some (register (le_add env)) /\ is_Some (le_main env))
      then if installs env then [PowFilter; CoreFilter] else [CoreFilter] else body_filters p).
Proof.
  unfold load_cycle, preconfigure, postconfigure, installs. cbn [preconfiguration_hook postconfiguration_hook NGX_HTTP_POW_GATE_MODULE_CTX].
  destruct (register (le_add env)) as [vars|]; [|rewrite bool_decide_eq_false_2; [done|by intros [[] _]]].
  destruct (le_main env) as [main|]; [|rewrite bool_decide_eq_false_2; [done|by intros [_ []]]].
  rewrite bool_decide_eq_true_2 by (split; by eexists). destruct (le_others env); [|done]. cbn [negb andb].
  unfold postconfiguration. destruct (configure (le_added env) main) as [wanted|]; [|by rewrite bool_decide_eq_false_2 by (by intros [])].
  rewrite bool_decide_eq_true_2 by (by eexists).
  destruct (install_access_handler _ _ _); [|done]. destruct wanted; [|done]. by destruct (zone_init _ _ _) as [[]|].
Qed.
Lemma load_cycle_installs env act mem p c mem' p' :
  load_cycle env act mem p = (Some (c, mem'), p') -> body_filters p' = [PowFilter; CoreFilter].
Proof.
  unfold load_cycle, preconfigure, postconfigure. cbn [preconfiguration_hook postconfiguration_hook NGX_HTTP_POW_GATE_MODULE_CTX].
  unfold postconfiguration. intros E. repeat case_match; simplify_eq; done.
Qed.
(** The one-use argument: an accepted token is gone from its segment, and stays gone. *)
Lemma good_redemption sys log w wall token e :
  good sys log -> good (sstep sys (Redemption w wall token e)).1 (log ++ (sstep sys (Redemption w wall token e)).2).
Proof.
  intros G. cbn [sstep]. destruct (workers sys !! w) as [p|] eqn:Hp; [|by rewrite app_nil_r].
  destruct (worker_segment p) as [seg|] eqn:Hseg; [|by rewrite app_nil_r].
  destruct (good_workers _ _ G _ _ _ Hp Hseg) as [st Hst]. rewrite Hst. unfold Ledger.consume.
  destruct (locked_consume wall st (id token) e) as [o st'] eqn:E. cbn [fst snd].
  destruct (locked_consume_once wall st (id token) e (good_memory _ _ G _ _ Hst)) as (Hinv' & Hstay & Hacc & Hnew).
  rewrite E in Hinv', Hstay, Hacc, Hnew. cbn [fst snd] in *.
  destruct G as [Gm Gw Ga Gg Go]. split.
  - by apply map_Forall_insert_2.
  - intros w' p' s Hp' Hs. apply lookup_insert_is_Some'. right. by eapply Gw.
  - intros c Hc. destruct (Ga c Hc) as [Hz Hh Hv]. split; [|done|done]. destruct (cluster (cy_main c)); [done|].
    destruct Hz as (s & ? & ?). exists s. split; [done|]. apply lookup_insert_is_Some'. by right.
  - intros s t x. rewrite accepted_app, elem_of_app. cbn [memory]. intros [Hin|Hin].
    + destruct (Gg s t x Hin) as (st0 & Hs0 & Hg). destruct (decide (s = seg)) as [->|Hne].
      * rewrite Hst in Hs0. injection Hs0 as <-. exists st'. rewrite lookup_insert_eq. auto.
      * exists st0. by rewrite lookup_insert_ne.
    + unfold accepted in Hin. cbn in Hin. case_bool_decide as Ho; cbn in Hin; [|set_solver].
      apply list_elem_of_singleton in Hin. injection Hin as -> -> ->. exists st'. rewrite lookup_insert_eq. auto.
  - rewrite accepted_app. unfold accepted at 2. cbn. case_bool_decide as Ho; [|by rewrite app_nil_r].
    cbn. apply NoDup_app. split; [done|]. split; [|apply NoDup_singleton].
    intros k Hk Hin. apply list_elem_of_singleton in Hin as ->. destruct (Gg _ _ _ Hk) as (st0 & Hs0 & Hg).
    rewrite Hst in Hs0. injection Hs0 as <-.
    by apply Hnew.
Qed.
Lemma good_step sys log ev : good sys log -> good (sstep sys ev).1 (log ++ (sstep sys ev).2).
Proof.
  intros G. destruct ev as [env|w spawned|w|w wall token e]; [..|by apply good_redemption]; cbn [sstep].
  - destruct (load_cycle env (active sys) (memory sys) (master sys)) as [[[c mem]|] p] eqn:E; cbn [fst snd]; rewrite app_nil_r.
    + destruct (load_cycle_ok _ _ _ _ _ _ _ (good_active _ _ G) E) as (Hc & Hsub & Hnew & _).
      apply (good_mono sys); cbn; [done|done| |by intros c' [= <-]|by left].
      intros s st Hs. destruct (Hnew s st Hs) as [Hs'|]; [|done]. exact (good_memory _ _ G _ _ Hs').
    + apply (good_mono sys); cbn; [done|done|apply G|apply G|by left].
  - destruct (init_process (active sys) spawned (master sys)) as [ok p] eqn:E. cbn [fst snd]. rewrite app_nil_r.
    apply (good_mono sys); cbn; [done|done|apply G|apply G|]. intros w' p' Hp. destruct ok; [|by left].
    apply lookup_insert_Some in Hp as [[<- <-]|[_ ?]]; [|by left]. right. intros seg Hs.
    destruct (active sys) as [c|] eqn:Ea; [|by unfold init_process in E].
    eapply activate_segment; [by apply (good_active _ _ G)|exact E|exact Hs].
  - rewrite app_nil_r. apply (good_mono sys); cbn; [done|done|apply G|apply G|].
    intros w' p Hp. left. by apply lookup_delete_Some in Hp as [_ ?].
Qed.
Lemma srun_good sys log evs : good sys log -> good (srun sys evs).1 (log ++ (srun sys evs).2).
Proof.
  revert sys log. induction evs as [|ev evs IH]; intros sys log G; cbn [srun]; [by rewrite app_nil_r|].
  pose proof (good_step sys log ev G) as G1. destruct (sstep sys ev) as [sys1 l1]. cbn [fst snd] in G1.
  pose proof (IH sys1 (log ++ l1) G1) as G2. destruct (srun sys1 evs) as [sys2 l2]. cbn [fst snd] in *.
  by rewrite app_assoc.
Qed.
End invariant.

Section one_segment.
Context {S : Sha256}.

(** While every configuration is local, there is one segment. *)
Record single (sys : System) : Prop := mkSingle {
  single_active : match active sys with None => memory sys = ∅ | Some c => cluster (cy_main c) = None end;
  single_segment s1 s2 : is_Some (memory sys !! s1) -> is_Some (memory sys !! s2) -> s1 = s2;
}.
Lemma single_step sys log ev : good sys log -> local_only [ev] -> single sys -> single (sstep sys ev).1.
Proof.
  intros G Hl [Ha Hs]. apply Forall_inv in Hl. destruct ev as [env|w spawned|w|w wall token e]; cbn [sstep].
  - destruct (load_cycle env (active sys) (memory sys) (master sys)) as [[[c mem]|] p] eqn:E; [|by split].
    destruct (load_cycle_ok _ _ _ _ _ _ _ (good_active _ _ G) E) as (_ & _ & _ & Hm & _ & Hc). split; cbn [fst active memory].
    + by apply Hl.
    + destruct Hc as [->|(_ & Ho & seg & st & ->)]; [done|].
      destruct (active sys) as [c0|] eqn:Ec.
      * destruct (good_active _ _ G c0 Ec) as [Hz _ _]. rewrite Ha in Hz. destruct Hz as (s & Hz & _).
        unfold old_data in Ho. by rewrite Hz in Ho.
      * rewrite Ha. intros s1 s2 [<-|[? H1]]%lookup_insert_is_Some' [<-|[? H2]]%lookup_insert_is_Some';
          [done|by rewrite lookup_empty in *..].
  - destruct (init_process _ _ _) as [[] p]; by split.
  - by split.
  - destruct (workers sys !! w) as [p|] eqn:Hp; [|by split]. destruct (worker_segment p) as [seg|] eqn:Hseg; [|by split].
    destruct (good_workers _ _ G _ _ _ Hp Hseg) as [st Hst]. rewrite Hst. unfold Ledger.consume.
    destruct (locked_consume wall st (id token) e) as [o st']. split; cbn [fst active memory].
    + destruct (active sys); [done|]. by rewrite Ha, lookup_empty in Hst.
    + intros s1 s2 [<-|H1]%lookup_insert_is_Some' [<-|H2]%lookup_insert_is_Some'; eauto.
Qed.
Lemma srun_single sys log evs :
  good sys log -> local_only evs -> single sys -> single (srun sys evs).1.
Proof.
  revert sys log. induction evs as [|ev evs IH]; intros sys log G Hl Hs; [done|]. cbn [srun].
  apply Forall_cons in Hl as [H1 H2].
  pose proof (good_step sys log ev G) as G1. pose proof (single_step sys log ev G (Forall_cons_2 _ _ _ H1 (Forall_nil_2 _)) Hs) as S1.
  destruct (sstep sys ev) as [sys1 l1]. cbn [fst snd] in *. pose proof (IH sys1 _ G1 H2 S1) as S2.
  by destruct (srun sys1 evs) as [sys2 l2].
Qed.
End one_segment.

(** ** Properties *)

(** C7: One use through the whole life of nginx.  Over any history of loads, failed loads,
    workers that start, crash and are replaced, old workers that go on after a reload, and
    redemptions by any of them with any wall clock, no segment accepts one token twice; and
    as long as no loaded configuration has a cluster, there is one segment through every
    reload, so no token is accepted twice at all. *)
Theorem one_use_across_reloads {S : Sha256} evs :
  NoDup (accepted (srun power_on evs).2)
  /\ (local_only evs -> NoDup (accepted_tokens (srun power_on evs).2)).
Proof.
  pose proof (srun_good power_on [] evs good_power_on) as G. cbn [app] in G. split; [apply G|]. intros Hl.
  assert (single power_on) as Hp by (split; [done|intros s1 s2 [st E]; discriminate E]).
  pose proof (srun_single power_on [] evs good_power_on Hl Hp) as Hs.
  apply NoDup_fmap_2_strong; [|apply G]. intros [[s1 t1] e1] [[s2 t2] e2] H1 H2 [= -> ->].
  destruct (good_gone _ _ G _ _ _ H1) as (st1 & E1 & _). destruct (good_gone _ _ G _ _ _ H2) as (st2 & E2 & _).
  do 2 f_equal. apply (single_segment _ Hs); eauto.
Qed.
Definition demo_env (main : option MainConf) : LoadEnv :=
  mkLoadEnv (fun _ => true) main true true true true [] true (Some (replicate 32 "i"%byte)).
(** Load, two workers, a redemption, a failed and a good reload, a new worker: the old and the
    new worker try the token again. *)
Definition demo_history : list SEvent :=
  [Load (demo_env (Some create_main_conf)); Spawn 1 (fun _ => true); Spawn 2 (fun _ => true); Redemption 1 100 (bs "token") 160;
   Load (demo_env None); Load (demo_env (Some create_main_conf)); Spawn 3 (fun _ => true);
   Redemption 2 90 (bs "token") 160; Redemption 3 100 (bs "token") 160].
Lemma one_use_across_reloads_witness :
  map lg_outcome (srun power_on demo_history).2 = [Accepted; Reused; Reused]
  /\ NoDup (accepted_tokens (srun power_on demo_history).2).
Proof.
  split; [vm_compute; reflexivity|]. apply one_use_across_reloads.
  repeat constructor; intros m [= <-]; reflexivity.
Defined.

(** A load of the history that succeeded, and none after it did. *)
Definition load_result {S : Sha256} (evs : list SEvent) (env : LoadEnv) : option (Cycle * gmap nat State) :=
  let sys := (srun power_on evs).1 in (load_cycle env (active sys) (memory sys) (master sys)).1.
Definition last_loaded {S : Sha256} (evs : list SEvent) (env : LoadEnv) (c : Cycle) : Prop :=
  exists evs1 evs2, evs = evs1 ++ Load env :: evs2 /\ (exists mem, load_result evs1 env = Some (c, mem))
  /\ forall evs3 env' evs4, evs2 = evs3 ++ Load env' :: evs4 -> load_result (evs1 ++ Load env :: evs3) env' = None.
Lemma srun_snoc {S : Sha256} sys evs ev : (srun sys (evs ++ [ev])).1 = (sstep (srun sys evs).1 ev).1.
Proof.
  revert sys. induction evs as [|e evs IH]; intros sys; cbn [srun app].
  - cbn [fst]. by destruct (sstep sys ev) as [sys1 l1].
  - specialize (IH (sstep sys e).1). destruct (sstep sys e) as [sys1 l1]. cbn [fst] in IH.
    destruct (srun sys1 (evs ++ [ev])), (srun sys1 evs). done.
Qed.
Lemma active_last {S : Sha256} evs c :
  active (srun power_on evs).1 = Some c -> exists env, last_loaded evs env c /\ le_main env = Some (cy_main c).
Proof.
  induction evs as [|ev evs IH] using rev_ind; [done|]. rewrite srun_snoc.
  pose proof (srun_good power_on [] evs good_power_on) as G. set (sys := (srun power_on evs).1) in *.
  assert (active sys = Some c -> (forall env, ev = Load env -> load_result evs env = None) ->
    exists env, last_loaded (evs ++ [ev]) env c /\ le_main env = Some (cy_main c)) as Hkeep.
  { intros Hc Hev. destruct (IH Hc) as (env & (evs1 & evs2 & E & Hm & Hl) & Hmain). exists env. split; [|done].
    exists evs1, (evs2 ++ [ev]). split; [by rewrite E, <- app_assoc|]. split; [done|]. intros evs3 env' evs4 E4.
    destruct evs4 as [|x evs4 _] using rev_ind.
    - apply app_inj_tail in E4 as [-> ->]. rewrite <- E. by apply Hev.
    - rewrite app_comm_cons, app_assoc in E4. apply app_inj_tail in E4 as [-> _]. by eapply Hl. }
  destruct ev as [env|w spawned|w|w wall token e]; cbn [sstep].
  - destruct (load_cycle env (active sys) (memory sys) (master sys)) as [[[c' mem]|] p] eqn:El; cbn [fst active].
    + intros [= <-]. exists env.
      destruct (load_cycle_ok _ _ _ _ _ _ _ (good_active _ _ G) El) as (_ & _ & _ & Hm & _). split; [|done].
      exists evs, []. split; [done|]. split; [|by intros [] ? ?].
      exists mem. unfold load_result. fold sys. by rewrite El.
    + intros Hc. apply Hkeep; [done|]. intros env' [= <-]. unfold load_result. fold sys. by rewrite El.
  - destruct (init_process _ _ _) as [[] p]; cbn [fst active]; intros Hc; by apply Hkeep.
  - intros Hc. by apply Hkeep.
  - intros Hc. apply Hkeep; [|done]. repeat case_match; by simplify_eq/=.
Qed.
(** Every load of the history that rebuilt the chain of filters had our filter installed. *)
Definition always_installs (evs : list SEvent) : Prop :=
  Forall (fun ev => match ev with Load env => installs env = true | _ => True end) evs.
Lemma master_filters {S : Sha256} evs :
  always_installs evs -> is_Some (active (srun power_on evs).1) ->
  body_filters (master (srun power_on evs).1) = [PowFilter; CoreFilter].
Proof.
  induction evs as [|ev evs IH] using rev_ind; [by intros _ []|]. rewrite srun_snoc.
  intros [He Hev]%Forall_app. apply Forall_inv in Hev. specialize (IH He). set (sys := (srun power_on evs).1) in *.
  destruct ev as [env|w spawned|w|w wall token e]; cbn [sstep].
  - pose proof (load_cycle_master env (active sys) (memory sys) (master sys)) as (_ & _ & _ & Hf).
    destruct (load_cycle _ _ _ _) as [[[c mem]|] p] eqn:El; cbn [fst snd active master] in *.
    + intros _. by eapply load_cycle_installs.
    + intros Ha. rewrite Hf, Hev. case_bool_decide; [done|]. by apply IH.
  - by destruct (init_process _ _ _) as [[] p].
  - done.
  - by repeat case_match.
Qed.

(** C27: A worker starts from the last load that succeeded, and can always start.  After any
    history in which the master has an active cycle, that cycle is the one of the last
    successful load of the history, with its configuration, the access handler and the four
    variables; and a process forked from the master comes up with the zone, the cluster
    client and the verifiers of that cycle and of no other, and with a ledger in shared
    memory where there is no cluster.  The body limiter is on top of its chain, once, unless
    some load of the history failed between nginx's rebuilding of the chain and this module's
    turn ([always_installs]: another module refused, or the zone could not be added); such a
    load, whose chain the master keeps, is the only thing a failed load can change in a
    worker that starts later: the chain after any load is stated exactly. *)
Theorem workers_start_from_active_cycle {S : Sha256} evs c spawned :
  let sys := (srun power_on evs).1 in
  active sys = Some c ->
  (exists env, last_loaded evs env c /\ le_main env = Some (cy_main c))
  /\ PowGateAccess ∈ cy_handlers c /\ cy_variables c = zip variables (seq 0 4)
  /\ (exists p, init_process (active sys) spawned (master sys) = (true, p)
     /\ ZONE p = cy_zone c /\ RUNTIME p = Cluster.activate (cluster (cy_main c))
     /\ verifier_registry p = start_refreshers (verifiers (cy_main c)) spawned
     /\ (cluster (cy_main c) = None ->
         exists seg st, worker_segment p = Some seg /\ memory sys !! seg = Some st)
     /\ body_filters p = body_filters (master sys)
     /\ (always_installs evs -> body_filters p = [PowFilter; CoreFilter]))
  /\ forall env, body_filters (master (sstep sys (Load env)).1) =
       (if bool_decide (is_Some (register (le_add env)) /\ is_Some (le_main env))
        then if installs env then [PowFilter; CoreFilter] else [CoreFilter] else body_filters (master sys)).
Proof.
  intros sys Ha. pose proof (srun_good power_on [] evs good_power_on) as G. fold sys in G.
  destruct (good_active _ _ G c Ha) as [Hz Hh Hv]. split; [by apply active_last|]. split; [done|]. split; [done|].
  pose proof (master_filters evs) as Hf. fold sys in Hf. split.
  - rewrite Ha in *. unfold init_process, activate, worker_segment. cbn [RUNTIME ZONE].
    destruct (cluster (cy_main c)) as [cl|] eqn:Ec; cbn [Cluster.activate].
    + eexists. split; [reflexivity|]. split_and!; [done..|by intros ?|done|]. intros Hi. by apply Hf.
    + destruct Hz as (seg & -> & st & Hst). eexists. split; [reflexivity|]. split_and!; [done..| |done|].
      * intros _. by exists seg, st.
      * intros Hi. by apply Hf.
  - intros env. pose proof (load_cycle_master env (active sys) (memory sys) (master sys)) as (_ & _ & _ & Hl).
    rewrite <- Hl. cbn [sstep]. by destruct (load_cycle _ _ _ _) as [[[]|] p].
Qed.
Lemma workers_start_from_active_cycle_witness :
  exists p, init_process (active (srun power_on demo_history).1) (fun _ => true) (master (srun power_on demo_history).1) = (true, p)
  /\ ZONE p = Some (mkZone (Some 0%nat)) /\ body_filters p = [PowFilter; CoreFilter].
Proof.
  assert (exists c, active (srun power_on demo_history).1 = Some c /\ cy_zone c = Some (mkZone (Some 0%nat))) as (c & Ha & Hz)
    by (eexists; split; vm_compute; reflexivity).
  destruct (workers_start_from_active_cycle demo_history c (fun _ => true) Ha)
    as (_ & _ & _ & (p & Hp & Hzone & _ & _ & _ & _ & Hf) & _).
  exists p. split; [exact Hp|]. split; [rewrite Hzone; exact Hz|]. apply Hf. repeat constructor.
Defined.
