(* ===== verification/Fleet.v ===== *)
(** * A fleet of workers and one Redis primary

    Any number of nginx workers, on any machines, redeem against one Redis: each runs the
    event loop of [Cluster] and talks to the server over one TCP connection per job.  Here
    the parts meet: the bytes a worker writes are the bytes the server reads, the server
    runs the scripts of [Redis] on them in whatever order they arrive, and the worker reads
    what the server wrote.  Bytes are delivered in order but arbitrarily late; a job that
    timed out, or whose client left, may still be executed; a worker that crashed is one
    that has no more events. *)
From Stdlib Require Import ZArith Lia.
From Stdlib Require Import Strings.Byte.
From stdpp Require Import base list strings option numbers countable sets gmap.
From S2P Require Import Prelude RustStr Crates StandIns Codec Redemption Store Redis Ledger Cluster.
Local Open Scope Z_scope.

(** ** The server's end of a connection *)

Definition integer_line (v : Z) : bytes := bs ":" ++ show_i v ++ crlf.
Definition error_line : bytes := bs "-ERR" ++ crlf.
Definition auth_line : bytes := bs "+OK" ++ crlf.
Definition is_eval (c script n : bytes) (want : bytes) (keys : string) : bool :=
  beq c (bs "EVAL") && beq script want && beq n (bs keys).
(** One command on the keys of namespace [ns]: the reply, and the server after.  [seen] and
    [ms] are the server's clock, as in [RedisEnv]. *)
Definition execute (ns : bytes) (seen ms : Z) (s : Server) (cmd : list bytes) : bytes * Server :=
  match cmd with
  | [c; script; n; k0; k1; k2; ep; e; sk; caller] =>
      if is_eval c script n CONSUME "3" && beq k0 (key_base ns ++ bs ":epoch") && beq k2 (key_base ns ++ bs ":clock")
      then match parse_i 64 e, parse_i 64 sk, parse_i 64 caller with
           | Some e, Some sk, Some caller =>
               let '(code, s) := redis_eval ep sk (mkEnv seen ms caller) s k1 e in (integer_line code, s)
           | _, _, _ => (error_line, s)
           end
      else (error_line, s)
  | [c; script; n; k0; k2; ep] =>
      if is_eval c script n HEALTH "2" && beq k0 (key_base ns ++ bs ":epoch") && beq k2 (key_base ns ++ bs ":clock")
      then (integer_line (health_script (db s) ep), s)
      else (error_line, s)
  | c :: _ => if beq c (bs "AUTH") then (auth_line, s) else (error_line, s)
  | [] => (error_line, s)
  end.

(** ** The fleet *)

(** The connection of a job: what the job was for, the bytes on their way to the server and
    the bytes on their way back. *)
Record Link := mkLink {
  lk_token : bytes; lk_expires : Z; lk_now : Z; lk_health : bool; lk_request : option nat;
  lk_in : bytes; lk_out : bytes;
}.
Definition push_in (b : bytes) (lk : Link) : Link :=
  mkLink (lk_token lk) (lk_expires lk) (lk_now lk) (lk_health lk) (lk_request lk) (lk_in lk ++ b) (lk_out lk).
Definition pull_out (n : nat) (lk : Link) : Link :=
  mkLink (lk_token lk) (lk_expires lk) (lk_now lk) (lk_health lk) (lk_request lk) (lk_in lk) (drop n (lk_out lk)).
Definition serve_link (rest line : bytes) (lk : Link) : Link :=
  mkLink (lk_token lk) (lk_expires lk) (lk_now lk) (lk_health lk) (lk_request lk) rest (lk_out lk ++ line).

(** Workers and jobs are numbered, so a job is a pair.  [tickets] remembers what each request
    redeemed, [spent] the jobs the server accepted, [won] the requests that were answered
    [Accepted], which is when [redemption::finish] sets the cookie. *)
Record Fleet := mkFleet {
  workers : nat -> Runtime; server : Server; links : gmap (nat * nat) Link;
  tickets : gmap (nat * nat) (bytes * Z); spent : list (nat * nat); won : list (nat * nat);
}.
Inductive FEvent :=
  | Work (w : nat) (world : World) (ev : Event)
  | Serve (w p : nat) (refuse : bool) (seen ms : Z).

(** The bytes a write event hands to the kernel, and those a read event takes from it. *)
Definition written (j : Job) (err : bool) (send : nat -> Z) (rw rr : bool) : bytes :=
  if err then []
  else let n := (write_loop (length (output j)) send rw rr (output j) (sent j)).1 in
       take (n - sent j) (drop (sent j) (output j)).
Section fleet.
Context {S : Sha256}.

(** What an event of worker [w] does to the connections. *)
Definition relink (w : nat) (world : World) (rt rt' : Runtime) (ev : Event) (ls : gmap (nat * nat) Link)
  : gmap (nat * nat) Link :=
  match ev with
  | Poll _ =>
      if (next rt' =? next rt)%nat then ls
      else <[(w, next rt) := mkLink [] 0 (now world) true None [] []]> ls
  | Redeem r token e _ =>
      if (next rt' =? next rt)%nat then ls
      else <[(w, next rt) := mkLink token e (now world) false (Some r) [] []]> ls
  | Writable p err send rw rr =>
      match heap rt !! p with
      | Some j => alter (push_in (written j err send rw rr)) (w, p) ls
      | None => ls
      end
  | Readable p recvs _ => alter (pull_out (length (received recvs))) (w, p) ls
  | Timeout _ | Abort _ => ls
  end.
Definition reticket (w : nat) (ev : Event) (ts : gmap (nat * nat) (bytes * Z)) : gmap (nat * nat) (bytes * Z) :=
  match ev with
  | Redeem r token e _ => <[(w, r) := (Redemption.id token, e)]> ts
  | _ => ts
  end.
Definition winners (w : nat) (cs : list Completion) : list (nat * nat) :=
  map (fun c => (w, c.1.1)) (filter (fun c : Completion => c.1.2 = Accepted) cs).
Definition fstep (ns : bytes) (fs : Fleet) (ev : FEvent) : Fleet :=
  match ev with
  | Work w world ev =>
      let rt := workers fs w in
      let '(cs, rt') := handle world rt ev in
      mkFleet (fun x => if (x =? w)%nat then rt' else workers fs x) (server fs)
        (relink w world rt rt' ev (links fs)) (reticket w ev (tickets fs)) (spent fs) (won fs ++ winners w cs)
  | Serve w p refuse seen ms =>
      match links fs !! (w, p) with
      | None => fs
      | Some lk =>
          match read_command (lk_in lk) with
          | None => fs
          | Some (cmd, rest) =>
              let '(line, s) := if refuse then (error_line, server fs) else execute ns seen ms (server fs) cmd in
              mkFleet (workers fs) s (<[(w, p) := serve_link rest line lk]> (links fs)) (tickets fs)
                (if bool_decide (length cmd = 10%nat /\ line = integer_line 1) then spent fs ++ [(w, p)] else spent fs)
                (won fs)
          end
      end
  end.
(** When an event can happen: nginx delivers what [fires] says, a request redeems once, what
    is read is what the server wrote, clocks are 64-bit, and the server's clock is at most
    the allowed step behind itself. *)
Definition may (sk : Z) (fs : Fleet) (ev : FEvent) : Prop :=
  match ev with
  | Work w world ev =>
      fires (workers fs w) ev /\ in_i64 (now world) = true /\
      match ev with
      | Redeem r _ e _ => tickets fs !! (w, r) = None /\ in_i64 e = true
      | Readable p recvs _ => exists lk, links fs !! (w, p) = Some lk /\ received recvs `prefix_of` lk_out lk
      | _ => True
      end
  | Serve _ _ _ seen ms => redis_usable sk (server fs) (mkEnv seen ms 0)
  end.
(** The configurations of one deployment agree on the namespace, the epoch and the skew. *)
Definition deployment (cfg : nat -> Config) (ns ep : bytes) (sk : Z) : Prop :=
  forall w, valid_config (cfg w) /\ namespace (cfg w) = ns /\ cfg_epoch (cfg w) = ep /\ skew (cfg w) = sk.
Definition boot (cfg : nat -> Config) (s : Server) : Fleet :=
  mkFleet (fun w => mkRuntime (cfg w) ∅ 0 [] [] false false false false 0) s ∅ ∅ [] [].
Inductive freach (cfg : nat -> Config) (ns : bytes) (sk : Z) (s : Server) : Fleet -> Prop :=
  | freach_boot : freach cfg ns sk s (boot cfg s)
  | freach_step fs ev : freach cfg ns sk s fs -> may sk fs ev -> freach cfg ns sk s (fstep ns fs ev).
End fleet.

(** ** Reading commands and replies off a stream *)

Lemma take_line_extend s t l r : take_line s = Some (l, r) -> take_line (s ++ t) = Some (l, r ++ t).
Proof.
  unfold take_line. destruct (find_crlf s) as [n|] eqn:E; [|done]. intros [= <- <-].
  rewrite (find_crlf_extend _ _ _ E). pose proof (f_equal length (find_crlf_Some _ _ E)) as Hl.
  rewrite !length_app, length_take, length_drop in Hl. change (length crlf) with 2%nat in Hl.
  by rewrite take_app_le, drop_app_le by lia.
Qed.
Lemma read_count_extend c s t n r : read_count c s = Some (n, r) -> read_count c (s ++ t) = Some (n, r ++ t).
Proof.
  unfold read_count. destruct (strip_prefix [c] s) as [s'|] eqn:E; [|done]. apply strip_prefix_Some in E as ->.
  rewrite <- app_assoc, (proj2 (strip_prefix_Some [c] _ _) eq_refl).
  destruct (take_line s') as [[l r']|] eqn:El; [|done]. rewrite (take_line_extend _ t _ _ El).
  destruct (parse_u 64 l); [|done]. by intros [= <- <-].
Qed.
Lemma read_bulk_extend s t p r : read_bulk s = Some (p, r) -> read_bulk (s ++ t) = Some (p, r ++ t).
Proof.
  unfold read_bulk. destruct (read_count "$" s) as [[n rest]|] eqn:E; [|done]. rewrite (read_count_extend _ _ t _ _ E).
  case_bool_decide as Hc; [|done]. intros [= <- <-].
  assert (n + 2 <= length rest)%nat as Hl.
  { apply (f_equal length) in Hc. rewrite length_take, length_drop in Hc. change (length crlf) with 2%nat in Hc. lia. }
  rewrite bool_decide_eq_true_2; [by rewrite take_app_le, drop_app_le by lia|].
  rewrite drop_app_le by lia. rewrite take_app_le; [done|]. rewrite length_drop. lia.
Qed.
Lemma read_bulks_extend k s t ps r : read_bulks k s = Some (ps, r) -> read_bulks k (s ++ t) = Some (ps, r ++ t).
Proof.
  revert s ps r. induction k as [|k IH]; intros s ps r; simpl; [by intros [= <- <-]|].
  destruct (read_bulk s) as [[p s1]|] eqn:E; [|done]. rewrite (read_bulk_extend _ t _ _ E).
  destruct (read_bulks k s1) as [[ps1 s2]|] eqn:Es; [|done]. rewrite (IH _ _ _ Es). by intros [= <- <-].
Qed.
(** A command is read the same whatever follows it: the server never acts on half of one. *)
Lemma read_command_extend s t c r : read_command s = Some (c, r) -> read_command (s ++ t) = Some (c, r ++ t).
Proof.
  unfold read_command. destruct (read_count "*" s) as [[k s1]|] eqn:E; [|done]. rewrite (read_count_extend _ _ t _ _ E).
  apply read_bulks_extend.
Qed.
(** A reply line, and the lines on their way. *)
Definition is_line (l : bytes) : Prop := exists d, l = d ++ crlf /\ Byte.x0d ∉ d.
(** The buffer holds no whole line, or the first line and more. *)
Lemma first_line input rest l ls :
  is_line l -> input ++ rest = l ++ ls ->
  find_crlf input = None \/ exists more, input = l ++ more /\ more ++ rest = ls.
Proof.
  intros (d & -> & Hd) E. destruct (decide (length d + 2 <= length input)%nat) as [Hl|Hl].
  - right. exists (drop (length d + 2) input).
    assert (take (length d + 2) input = d ++ crlf) as Ht.
    { rewrite <- (take_app_le input rest) by done. rewrite E, take_app_le by (rewrite length_app; simpl; lia).
      apply take_ge. rewrite length_app. simpl. lia. }
    rewrite <- Ht at 1. rewrite take_drop. split; [done|].
    rewrite <- (take_drop (length d + 2) input), Ht, <- app_assoc in E. by apply app_inv_head in E.
  - left. destruct (find_crlf input) as [n|] eqn:Ef; [|done]. exfalso. apply Hd.
    pose proof (find_crlf_Some _ _ Ef) as Hs. pose proof (f_equal length Hs) as Hn.
    rewrite !length_app, length_take, length_drop in Hn. change (length crlf) with 2%nat in Hn.
    apply (list_elem_of_lookup_2 _ n). rewrite <- (lookup_app_l d (crlf ++ ls)) by lia.
    rewrite app_assoc, <- E, lookup_app_l by lia. rewrite Hs.
    rewrite lookup_app_r by (rewrite length_take; lia). rewrite length_take.
    replace (n - n `min` length input)%nat with 0%nat by lia. done.
Qed.
Lemma reply_line l more rep n :
  is_line l -> reply (l ++ more) = inr (Some (rep, n)) -> n = length l /\ reply l = inr (Some (rep, n)).
Proof.
  intros (d & -> & Hd) E. unfold reply in *.
  destruct (Nat.ltb_spec 1024 (length ((d ++ crlf) ++ more))) as [|Hl]; [done|].
  rewrite (proj2 (Nat.ltb_ge _ _)) by (rewrite length_app in Hl; lia).
  pose proof (find_crlf_line d [] Hd) as F0. rewrite app_nil_r in F0.
  rewrite (find_crlf_extend _ more _ F0) in E. rewrite F0. rewrite <- app_assoc in E.
  rewrite take_app_length in E |- *. rewrite length_app. change (length crlf) with 2%nat.
  repeat case_match; simplify_eq; done.
Qed.

(** The replies of a job on their way: the lines of the commands the server has served and
    the worker has not read, [a] being AUTH and [c] the script. *)
Definition stream (Q : Prop) (a c : list bytes) (input rest : bytes) (auth : bool) (todo : list (list bytes))
  (pend : list (list bytes * bytes)) : Prop :=
  input ++ rest = concat (map snd pend) /\ map fst pend ++ todo = (if auth then [a; c] else [c])
  /\ Forall (fun x => is_line x.2 /\ (x.1 = c -> forall n, reply x.2 = inr (Some (Integer 1, n)) -> Q)) pend.
(** What a worker makes of them: an acceptance only of the script's reply 1. *)
Definition reads_well (Q : Prop) (a c : list bytes) (rest : bytes) (todo : list (list bytes))
  (res : Outcome * bool + bytes * bool) : Prop :=
  match res with
  | inl (o, _) => o = Accepted -> Q
  | inr (input, auth) => exists pend, stream Q a c input rest auth todo pend
  end.
Lemma replies_stream Q a c fuel input rest auth todo pend :
  stream Q a c input rest auth todo pend -> reads_well Q a c rest todo (replies fuel input auth).
Proof.
  revert input auth pend. induction fuel as [|f IH]; intros input auth pend Hs; cbn [replies]; [by exists pend|].
  pose proof Hs as (Hb & Hc & Hf). destruct pend as [|[cmd l] pend].
  - simpl in Hb. apply app_nil in Hb as [-> ->]. by exists [].
  - apply Forall_cons in Hf as [[Hl Hq] Hf]. cbn [map concat fst snd] in Hb, Hl, Hq.
    destruct (first_line _ _ _ _ Hl Hb) as [Hn|(more & -> & Hm)].
    + unfold reply. rewrite Hn. destruct (1024 <? length input)%nat; [by intros [=]|]. by exists ((cmd, l) :: pend).
    + destruct (reply (l ++ more)) as [|[[rep used]|]] eqn:E; [by intros [=]| |by exists ((cmd, l) :: pend)].
      apply reply_line in E as [-> E]; [|done]. rewrite drop_app_length. cbn [map app fst] in Hc.
      destruct auth; injection Hc as -> Hc.
      * case_bool_decide; [|by intros [=]]. apply (IH more false pend). by split_and!.
      * destruct rep as [v| | |]; try by intros [=]. destruct (Z.eqb_spec v 1) as [->|]; [intros _; by eapply Hq|].
        repeat case_match; by intros [=].
Qed.
Lemma read_loop_stream Q a c recvs rearm input rest auth todo pend :
  stream Q a c input (received recvs ++ rest) auth todo pend ->
  reads_well Q a c rest todo (read_loop recvs rearm input auth).
Proof.
  revert input auth pend. induction recvs as [|x recvs IH]; intros input auth pend Hs; cbn [read_loop].
  - destruct rearm; [by exists pend|by intros [=]].
  - destruct x as [| |[|b bs]]; try by intros [=].
    { destruct rearm; [by exists pend|by intros [=]]. }
    case_match; [by intros [=]|]. pose proof (replies_stream Q a c 2 (input ++ b :: bs) (received recvs ++ rest) auth todo pend) as Hr.
    cbn [received] in Hs. unfold stream in Hr, Hs. rewrite <- !app_assoc in Hr. rewrite <- !app_assoc in Hs.
    specialize (Hr Hs). destruct (replies 2 _ auth) as [[o fe]|[i a']]; [done|]. destruct Hr as [pend' Hs']. by eapply IH.
Qed.

(** ** What the event loop does to the jobs *)

Definition wire_of (j : Job) : bytes * nat * bytes * bool * Z * bool * option nat * option Grant :=
  (output j, sent j, input j, auth j, expires j, health j, request j, grant j).
Definition kept (rt rt' : Runtime) : Prop :=
  config rt' = config rt /\ next rt' = next rt
  /\ forall q j', heap rt' !! q = Some j' -> exists j, heap rt !! q = Some j /\ wire_of j' = wire_of j.
Lemma kept_refl rt : kept rt rt.
Proof. split_and!; eauto. Qed.
Lemma kept_trans rt1 rt2 rt3 : kept rt1 rt2 -> kept rt2 rt3 -> kept rt1 rt3.
Proof.
  intros (C1 & N1 & H1) (C2 & N2 & H2). split_and!; [congruence..|].
  intros q j3 (j2 & E2 & W2)%H2. apply H1 in E2 as (j1 & E1 & W1). exists j1. split; [done|congruence].
Qed.
Lemma kept_gone rt rt' q : kept rt rt' -> heap rt !! q = None -> heap rt' !! q = None.
Proof. intros (_ & _ & H) E. destruct (heap rt' !! q) eqn:E'; [|done]. apply H in E' as (? & ? & _). congruence. Qed.
Lemma kept_set_job rt p f : (forall j, wire_of (f j) = wire_of j) -> kept rt (set_job rt p f).
Proof.
  intros Hf. split_and!; [done..|]. intros q j' (j & Hj & ->)%alter_lookup. exists j. split; [done|]. by case_decide.
Qed.
Lemma kept_retire now msec rt p job o fence : kept rt (retire now msec rt p job o fence).2.
Proof.
  destruct (retire_heap now msec rt p job o fence) as (Eh & Ec & En & _). split_and!; [done..|].
  rewrite Eh. intros q j' [_ Hj]%delete_lookup. eauto.
Qed.
Lemma kept_complete_with drain now msec rt p o fence :
  (forall rt, kept rt (drain rt).2) ->
  kept rt (complete_with drain now msec rt p o fence).2 /\ heap (complete_with drain now msec rt p o fence).2 !! p = None.
Proof.
  intros Hd. unfold complete_with. destruct (heap rt !! p) as [job|] eqn:Hp; [|split; [apply kept_refl|done]].
  pose proof (kept_retire now msec rt p job o fence) as Hk.
  destruct (retire_heap now msec rt p job o fence) as (Eh & _).
  destruct (retire now msec rt p job o fence) as [o' rt1]. simpl in *.
  assert (heap rt1 !! p = None) as Hn by (rewrite Eh; apply lookup_delete_eq).
  destruct (pumping rt1); [done|]. specialize (Hd (with_pumping rt1 true)).
  destruct (drain (with_pumping rt1 true)) as [cs rt2]. simpl in *.
  assert (kept rt1 (with_pumping rt2 false)) as Hk2 by (destruct Hd as (? & ? & ?); by split_and!).
  split; [by eapply kept_trans|by eapply kept_gone].
Qed.
Lemma kept_connect_with complete dial rt p :
  (forall rt p, kept rt (complete rt p Full false).2) -> kept rt (connect_with complete dial rt p).2.
Proof.
  intros Hc. unfold connect_with.
  assert (kept rt (set_job rt p (fun j => if health j then arm j else j))) as H1
    by (apply kept_set_job; intros j; by destruct (health j) eqn:?).
  destruct (dial p); [eapply kept_trans; [exact H1|apply Hc]|].
  assert (forall rt, kept rt (set_job rt p plug)) as H2 by (intros; by apply kept_set_job).
  case_match; [eapply kept_trans; [|apply Hc]|]; (eapply kept_trans; [exact H1|apply H2]).
Qed.
Lemma kept_drain_loop fuel now msec dial rt : kept rt (drain_loop fuel now msec dial rt).2.
Proof.
  revert rt. induction fuel as [|f IH]; intros rt; cbn [drain_loop]; [apply kept_refl|].
  case_match; [|apply kept_refl]. destruct (pending rt) as [|p rest]; [apply kept_refl|].
  pose proof (kept_connect_with (complete_pumping now msec) dial (with_queues rt rest (active rt ++ [p])) p) as Hk.
  destruct (connect_with _ dial _ p) as [cs1 rt2]. specialize (IH rt2).
  destruct (drain_loop f now msec dial rt2) as [cs2 rt3]. simpl in *.
  eapply kept_trans; [|exact IH]. apply Hk. intros. apply kept_complete_with. intros. apply kept_refl.
Qed.
Lemma kept_complete now msec dial rt p o fence :
  kept rt (complete now msec dial rt p o fence).2 /\ heap (complete now msec dial rt p o fence).2 !! p = None.
Proof. apply kept_complete_with. intros. apply kept_drain_loop. Qed.
Lemma kept_connect now msec dial rt p : kept rt (connect now msec dial rt p).2.
Proof. apply kept_connect_with. intros. apply kept_complete. Qed.

Section evolution.
Context {S : Sha256}.

Definition created (w : World) (rt : Runtime) (ev : Event) : option Job :=
  match ev with
  | Poll _ => Some (make_job (config rt) None None [] 0 true (now w))
  | Redeem r token e g => Some (make_job (config rt) (Some r) (Some g) token e false (now w))
  | _ => None
  end.
Definition target (ev : Event) : option nat :=
  match ev with
  | Poll _ | Redeem _ _ _ _ => None
  | Writable p _ _ _ _ | Readable p _ _ | Timeout p | Abort p => Some p
  end.
(** Where a job that is there after an event comes from. *)
Inductive evolves (w : World) (rt : Runtime) (ev : Event) (grown : bool) (q : nat) (j' : Job) : Prop :=
  | ev_kept j : heap rt !! q = Some j -> target ev <> Some q -> wire_of j' = wire_of j -> evolves w rt ev grown q j'
  | ev_new j : grown = true -> q = next rt -> created w rt ev = Some j -> wire_of j' = wire_of j ->
      evolves w rt ev grown q j'
  | ev_sent j send rw rr : ev = Writable q false send rw rr -> heap rt !! q = Some j ->
      wire_of j' = wire_of (progress (write_loop (length (output j)) send rw rr (output j) (sent j)).1 j) ->
      evolves w rt ev grown q j'
  | ev_read j recvs rearm i a : ev = Readable q recvs rearm -> heap rt !! q = Some j ->
      read_loop recvs rearm (input j) (auth j) = inr (i, a) -> wire_of j' = wire_of (receive i a j) ->
      evolves w rt ev grown q j'.
Record evolved (w : World) (rt : Runtime) (ev : Event) (rt' : Runtime) : Prop := mkEvolved {
  evd_config : config rt' = config rt;
  evd_next : next rt' = next rt \/ (next rt' = Datatypes.S (next rt) /\ is_Some (created w rt ev));
  evd_jobs q j' : heap rt' !! q = Some j' -> evolves w rt ev (negb (next rt' =? next rt)%nat) q j';
}.
Lemma evolved_kept w rt ev rt' :
  kept rt rt' -> (forall q, target ev = Some q -> heap rt' !! q = None) -> evolved w rt ev rt'.
Proof.
  intros (Hc & Hn & Hj) Ht. split; [done|by left|]. intros q j' E. destruct (Hj q j' E) as (j & Ej & Hw).
  eapply ev_kept; [done| |done]. intros Hq. apply Ht in Hq. congruence.
Qed.
Lemma evolved_new w rt ev j rt1 rt' :
  created w rt ev = Some j -> target ev = None ->
  config rt1 = config rt -> next rt1 = Datatypes.S (next rt) ->
  (forall q k, heap rt1 !! q = Some k -> (q = next rt /\ wire_of k = wire_of j) \/ heap rt !! q = Some k) ->
  kept rt1 rt' -> evolved w rt ev rt'.
Proof.
  intros Hcr Ht C1 N1 H1 (Hc & Hn & Hj). split; [congruence|right; split; [congruence|by eexists]|].
  assert (negb (next rt' =? next rt)%nat = true) as -> by (apply negb_true_iff, Nat.eqb_neq; lia).
  intros q j' E. destruct (Hj q j' E) as (k & Ek & Hw). destruct (H1 q k Ek) as [[-> Hk]|Hk].
  - eapply ev_new; [done..|congruence].
  - eapply ev_kept; [done|by rewrite Ht|done].
Qed.
Lemma alter_other {A} (f : A -> A) (m : gmap nat A) p q : q <> p -> alter f p m !! q = m !! q.
Proof. intros. by apply lookup_alter_ne. Qed.
Lemma handle_evolved w rt ev : evolved w rt ev (handle w rt ev).2.
Proof.
  destruct ev as [exiting|r token e g|p err send rw rr|p recvs rearm|p|p]; simpl.
  - unfold poll. destruct exiting; [by apply evolved_kept; [apply kept_refl|]|].
    destruct (negb _ && _); [|by apply evolved_kept; [apply kept_refl|]]. cbn [alloc].
    eapply evolved_new; [done|done| | | |apply kept_connect]; [done|done|].
    simpl. intros q k [[-> ->]|[_ Hk]]%insert_lookup; [by left|by right].
  - unfold redeem. case_match; [by apply evolved_kept; [apply kept_refl|]|].
    case_match; [by apply evolved_kept; [apply kept_refl|]|]. cbn [alloc].
    case_match.
    + eapply evolved_new; [done|done| | | |apply kept_connect]; [done|done|].
      simpl. intros q k [[-> ->]|[_ Hk]]%insert_lookup; [by left|by right].
    + eapply evolved_new; [done|done| | | |apply kept_refl]; [done|done|].
      simpl. intros q k [[-> ->]|[_ Hk]]%insert_lookup; [by left|by right].
  - unfold write. destruct (heap rt !! p) as [j|] eqn:Hj;
      [|apply evolved_kept; [apply kept_refl|by intros q [= <-]]].
    destruct err.
    { destruct (kept_complete (now w) (msec w) (dial w) rt p Full false). apply evolved_kept; [done|by intros q [= <-]]. }
    destruct (write_loop _ _ _ _ _ _) as [n failed] eqn:Ew. destruct failed.
    + destruct (kept_complete (now w) (msec w) (dial w) (set_job rt p (progress n)) p Full false) as [(Hc & Hn & Hk) Hg].
      split; [done|by left|]. intros q j' E. destruct (Hk q j' E) as (k & Ek & Hw). simpl in Ek.
      destruct (decide (q = p)) as [->|Hq]; [congruence|]. rewrite alter_other in Ek by done.
      eapply ev_kept; [done|simpl; congruence|done].
    + split; [done|by left|]. simpl. intros q j' (k & Hk & ->)%alter_lookup. case_decide as Hq.
      * subst q. rewrite Hj in Hk. injection Hk as <-. eapply ev_sent; [done|done|by rewrite Ew].
      * eapply ev_kept; [done|simpl; congruence|done].
  - unfold read. destruct (heap rt !! p) as [j|] eqn:Hj;
      [|apply evolved_kept; [apply kept_refl|by intros q [= <-]]].
    destruct (read_loop recvs rearm (input j) (auth j)) as [[o fence]|[i a]] eqn:Er.
    + destruct (kept_complete (now w) (msec w) (dial w) rt p o fence). apply evolved_kept; [done|by intros q [= <-]].
    + split; [done|by left|]. simpl. intros q j' (k & Hk & ->)%alter_lookup. case_decide as Hq.
      * subst q. rewrite Hj in Hk. injection Hk as <-. by eapply ev_read.
      * eapply ev_kept; [done|simpl; congruence|done].
  - destruct (kept_complete (now w) (msec w) (dial w) rt p Full false). apply evolved_kept; [done|by intros q [= <-]].
  - unfold aborted. destruct (kept_complete (now w) (msec w) (dial w) (set_job rt p orphan) p Full false) as [(Hc & Hn & Hk) Hg].
    split; [done|by left|]. intros q j' E. destruct (Hk q j' E) as (k & Ek & Hw). simpl in Ek.
    destruct (decide (q = p)) as [->|Hq]; [congruence|]. rewrite alter_other in Ek by done.
    eapply ev_kept; [done|simpl; congruence|done].
Qed.
Lemma write_loop_ge fuel send rw rr out sent : (sent <= (write_loop fuel send rw rr out sent).1)%nat.
Proof.
  revert sent. induction fuel as [|f IH]; intros n; simpl; [by case_match|].
  case_match; [|done]. case_match; [done|]. case_match; [done|]. etransitivity; [|apply IH]. lia.
Qed.
End evolution.

(** ** One connection *)

Section link.
Context {S : Sha256} {SL : Sha256Laws S}.

Definition login (c : Config) : list bytes :=
  [bs "AUTH"] ++ (if beq (username c) [] then [] else [username c]) ++ [password c].
Definition script (c : Config) (lk : Link) : list bytes :=
  let '(k0, k1, k2) := keys (namespace c) (cfg_epoch c) (lk_token lk) in
  if lk_health lk then [bs "EVAL"; HEALTH; bs "2"; k0; k2; cfg_epoch c]
  else [bs "EVAL"; CONSUME; bs "3"; k0; k1; k2; cfg_epoch c; show_i (lk_expires lk); show_i (skew c); show_i (lk_now lk)].
Definition commands (c : Config) (lk : Link) : list (list bytes) :=
  job_commands c (lk_token lk) (lk_expires lk) (lk_health lk) (lk_now lk).
Lemma commands_eq c lk : commands c lk = if negb (beq (password c) []) then [login c; script c lk] else [script c lk].
Proof.
  unfold commands, job_commands, login, script. destruct (keys _ _ _) as [[k0 k1] k2].
  destruct (beq (password c) []); by destruct (lk_health lk).
Qed.
Definition ranged (lk : Link) : Prop := in_i64 (lk_expires lk) = true /\ in_i64 (lk_now lk) = true.

(** The job of a connection: it is what the connection was opened for, [unsent] is what it
    has not written, and the replies it has not read are those of the commands served. *)
Record job_ok (c : Config) (Q : Prop) (lk : Link) (todo : list (list bytes)) (unsent : bytes) (j : Job) : Prop := mkJobOk {
  jo_health : health j = lk_health lk;
  jo_expires : expires j = lk_expires lk;
  jo_request : request j = lk_request lk;
  jo_unsent : unsent = drop (sent j) (output j);
  jo_stream : exists pend, stream Q (login c) (script c lk) (input j) (lk_out lk) (auth j) todo pend;
}.
(** [spent] says whether the server has accepted the job: it is the last thing it does. *)
Definition link_wire (c : Config) (spent : Prop) (lk : Link) (oj : option Job) : Prop :=
  exists served todo unsent, commands c lk = served ++ todo /\ lk_in lk ++ unsent = concat (map command todo)
    /\ (spent -> todo = [])
    /\ forall j, oj = Some j -> job_ok c (lk_health lk = false -> spent) lk todo unsent j.
Lemma job_ok_wire c Q lk todo u j j' : wire_of j' = wire_of j -> job_ok c Q lk todo u j -> job_ok c Q lk todo u j'.
Proof.
  unfold wire_of. intros [= Ho Hs Hi Ha He Hh Hr] [H1 H2 H3 H4 H5].
  split; [congruence..|]. destruct H5 as [pend H5]. exists pend. congruence.
Qed.
Lemma stream_mono (Q Q' : Prop) a c input rest auth todo pend :
  (Q -> Q') -> stream Q a c input rest auth todo pend -> stream Q' a c input rest auth todo pend.
Proof.
  intros HQ (H1 & H2 & H3). split_and!; [done..|]. eapply Forall_impl; [exact H3|]. intros x [Hl Hx].
  split; [done|]. intros Hc n Hr. by eapply HQ, Hx.
Qed.
Lemma link_wire_kept c spent lk oj oj' :
  (forall j', oj' = Some j' -> exists j, oj = Some j /\ wire_of j' = wire_of j) ->
  link_wire c spent lk oj -> link_wire c spent lk oj'.
Proof.
  intros Hk (sv & todo & u & Hc & Hi & Hs & Hj). exists sv, todo, u. split_and!; [done..|].
  intros j' (j & Ej & Hw)%Hk. eapply job_ok_wire; eauto.
Qed.
Lemma link_wire_new c lk j w r g :
  lk_in lk = [] -> lk_out lk = [] -> lk_request lk = r ->
  j = make_job c r g (lk_token lk) (lk_expires lk) (lk_health lk) w -> lk_now lk = w ->
  forall (spent : Prop) oj', (spent -> False) -> (forall j', oj' = Some j' -> wire_of j' = wire_of j) ->
  link_wire c spent lk oj'.
Proof.
  intros Hi Ho <- -> <- spent oj' Hns Hk. exists [], (commands c lk), (job_output c (lk_token lk) (lk_expires lk) (lk_health lk) (lk_now lk)).
  split_and!; [done|by rewrite Hi; apply job_output_commands|by intros ?%Hns|]. intros j' Hw%Hk.
  eapply job_ok_wire; [exact Hw|]. split; [done..|]. exists []. rewrite Ho. split_and!; [done| |constructor].
  simpl. apply commands_eq.
Qed.
Lemma written_unsent j err send rw rr :
  exists u, written j err send rw rr ++ u = drop (sent j) (output j)
  /\ (err = false -> u = drop (write_loop (length (output j)) send rw rr (output j) (sent j)).1 (output j)).
Proof.
  unfold written. destruct err; [by eexists|].
  pose proof (write_loop_ge (length (output j)) send rw rr (output j) (sent j)) as Hge.
  set (n := (write_loop _ _ _ _ _ _).1) in *. exists (drop n (output j)). split; [|done].
  replace (drop n (output j)) with (drop (n - sent j) (drop (sent j) (output j)));
    [apply take_drop|rewrite drop_drop; f_equal; lia].
Qed.
Lemma link_wire_written c spent lk j err send rw rr oj' :
  (forall j', oj' = Some j' -> err = false /\
     wire_of j' = wire_of (progress (write_loop (length (output j)) send rw rr (output j) (sent j)).1 j)) ->
  link_wire c spent lk (Some j) -> link_wire c spent (push_in (written j err send rw rr) lk) oj'.
Proof.
  intros Hk (sv & todo & u & Hc & Hi & Hs & Hj). destruct (Hj j eq_refl) as [H1 H2 H3 H4 H5].
  destruct (written_unsent j err send rw rr) as (u' & Hu & Hu'). exists sv, todo, u'.
  split_and!; [done|simpl; by rewrite <- app_assoc, Hu, <- H4|done|].
  intros j' [He Hw]%Hk. eapply job_ok_wire; [exact Hw|]. split; [done..|by apply Hu'|done].
Qed.
Lemma link_wire_read c spent lk j recvs rearm oj' :
  received recvs `prefix_of` lk_out lk ->
  (forall j', oj' = Some j' -> exists i a, read_loop recvs rearm (input j) (auth j) = inr (i, a)
     /\ wire_of j' = wire_of (receive i a j)) ->
  link_wire c spent lk (Some j) ->
  link_wire c spent (pull_out (length (received recvs)) lk) oj'
  /\ (forall fence, read_loop recvs rearm (input j) (auth j) = inl (Accepted, fence) -> lk_health lk = false -> spent).
Proof.
  intros [rest Ho] Hk (sv & todo & u & Hc & Hi & Hs & Hj). destruct (Hj j eq_refl) as [H1 H2 H3 H4 [pend H5]].
  rewrite Ho in H5. pose proof (read_loop_stream _ _ _ recvs rearm _ rest _ _ _ H5) as Hr. split.
  - exists sv, todo, u. split_and!; [done..|]. intros j' (i & a & Er & Hw)%Hk. rewrite Er in Hr.
    eapply job_ok_wire; [exact Hw|]. split; [done..|]. destruct Hr as [pend' Hr]. exists pend'. simpl.
    by rewrite Ho, drop_app_length.
  - intros fence Er. rewrite Er in Hr. by apply Hr.
Qed.

(** *** What the server answers *)

Lemma integer_line_ok v : is_line (integer_line v).
Proof.
  exists (bs ":" ++ show_i v). split; [by rewrite <- app_assoc|]. apply not_elem_of_app. split; [|by apply show_i_no_byte].
  vm_compute. set_solver.
Qed.
Lemma fixed_lines_ok : is_line error_line /\ is_line auth_line.
Proof. split; eexists; (split; [reflexivity|]); vm_compute; set_solver. Qed.
Lemma integer_line_one v n : in_i64 v = true -> reply (integer_line v) = inr (Some (Integer 1, n)) -> v = 1.
Proof.
  intros Hv. unfold reply, integer_line.
  replace (bs ":" ++ show_i v ++ crlf) with ((bs ":" ++ show_i v) ++ crlf ++ []) by (by rewrite app_nil_r, <- app_assoc).
  rewrite find_crlf_line by (apply not_elem_of_app; split; [vm_compute; set_solver|by apply show_i_no_byte]).
  rewrite take_app_length. case_match; [done|].
  change (beq (bs ":" ++ show_i v) (bs "+OK")) with false. change (beq (bs ":" ++ show_i v) (bs "$-1")) with false.
  cbn [head app bs drop]. cbv iota.
  rewrite bool_decide_eq_false_2, bool_decide_eq_true_2 by done.
  change (drop 1 (bs ":" ++ show_i v)) with (show_i v). case_match; [done|]. rewrite parse_i_show by done. by intros [= ->].
Qed.
Lemma consume_script_code ms d key ep e sk caller : in_i64 (consume_script ms d key ep e sk caller).1 = true.
Proof. unfold consume_script. repeat case_match; reflexivity. Qed.
Lemma redis_eval_code ep sk env s key e : in_i64 (redis_eval ep sk env s key e).1 = true.
Proof.
  unfold redis_eval. set (pk := Z.max _ _).
  pose proof (consume_script_code (time_ms env) (drop_expired pk (db s)) key ep e sk (caller_now env)) as Hc.
  by destruct (consume_script _ _ _ _ _ _ _).
Qed.
Lemma health_script_code d e : in_i64 (health_script d e) = true.
Proof. unfold health_script. by case_match. Qed.
Lemma commands_suffix c lk served cmd todo :
  commands c lk = served ++ cmd :: todo -> (cmd = script c lk /\ todo = []) \/ (cmd = login c /\ todo = [script c lk]).
Proof.
  rewrite commands_eq. destruct (negb _).
  - destruct served as [|x [|y [|z served]]]; simpl; intros [=]; auto; by destruct served.
  - destruct served as [|x [|y served]]; simpl; intros [=]; auto; by destruct served.
Qed.
Lemma login_length c : length (login c) <> 10%nat.
Proof. unfold login. by destruct (beq (username c) []). Qed.
Lemma script_length c lk : lk_health lk = false -> length (script c lk) = 10%nat.
Proof. unfold script. destruct (keys _ _ _) as [[? ?] ?]. by intros ->. Qed.
Lemma execute_login c ns seen ms s : execute ns seen ms s (login c) = (auth_line, s).
Proof. unfold login. by destruct (beq (username c) []). Qed.
Lemma execute_script c lk seen ms s :
  valid_config c -> ranged lk ->
  execute (namespace c) seen ms s (script c lk) =
  if lk_health lk then (integer_line (health_script (db s) (cfg_epoch c)), s)
  else let '(code, s) := redis_eval (cfg_epoch c) (skew c) (mkEnv seen ms (lk_now lk)) s
                           (spent_key (namespace c) (cfg_epoch c) (Redemption.id (lk_token lk))) (lk_expires lk) in
       (integer_line code, s).
Proof.
  intros Hc [He Hn]. assert (in_i64 (skew c) = true) as Hs by (apply in_i64_iff; pose proof (vc_skew _ Hc); lia).
  unfold script, keys, execute, is_eval. destruct (lk_health lk); rewrite !beq_refl; [done|].
  cbn [andb]. by rewrite !parse_i_show.
Qed.
(** The server reads a command of a connection: it is the next one of that connection. *)
Lemma link_wire_next c spent lk oj cmd rest :
  valid_config c -> ranged lk -> link_wire c spent lk oj -> read_command (lk_in lk) = Some (cmd, rest) ->
  (spent -> False) /\ (cmd = script c lk \/ cmd = login c) /\
  exists served todo unsent, commands c lk = served ++ cmd :: todo /\ rest ++ unsent = concat (map command todo)
    /\ (length cmd = 10%nat -> todo = [])
    /\ forall j, oj = Some j -> job_ok c (lk_health lk = false -> spent) lk (cmd :: todo) unsent j.
Proof.
  intros Hv [He Hn] (sv & todo & u & Hc & Hi & Hs & Hj) Hr.
  apply (read_command_extend _ u) in Hr. rewrite Hi in Hr.
  destruct todo as [|x todo]; [done|]. pose proof (commands_suffix _ _ _ _ _ Hc) as Hx.
  assert (x = cmd /\ rest ++ u = concat (map command todo)) as [-> Hrest].
  { pose proof (job_commands_short c (lk_token lk) (lk_expires lk) (lk_health lk) (lk_now lk) Hv He Hn) as Hsh.
    fold (commands c lk) in Hsh. rewrite Hc in Hsh. apply Forall_app in Hsh as [_ Hsh].
    apply Forall_cons in Hsh as [(_ & Hlen & Hsh) _].
    cbn [map concat] in Hr. rewrite read_command_command in Hr; [by injection Hr| |apply in_u64_iff; lia].
    rewrite forallb_Forall in *. apply (Forall_impl _ _ _ Hsh). unfold short. intros p Hp. to_prop. apply in_u64_iff. lia. }
  split_and!; [by intros ?%Hs|tauto|]. exists sv, todo, u. split_and!; [done..| |done].
  intros Hlen. destruct Hx as [[_ ->]|[-> _]]; [done|by apply login_length in Hlen].
Qed.
Lemma link_wire_served c (spent spent' : Prop) lk oj cmd rest line :
  valid_config c -> ranged lk -> link_wire c spent lk oj -> read_command (lk_in lk) = Some (cmd, rest) ->
  is_line line -> (spent -> spent') -> (spent' -> spent \/ length cmd = 10%nat) ->
  (cmd = script c lk -> forall n, reply line = inr (Some (Integer 1, n)) -> lk_health lk = false -> spent') ->
  link_wire c spent' (serve_link rest line lk) oj.
Proof.
  intros Hv Hg Hw Hr Hl Hss Hs' Hq.
  destruct (link_wire_next _ _ _ _ _ _ Hv Hg Hw Hr) as (Hns & _ & sv & todo & u & Hc & Hrest & Hlast & Hj).
  exists (sv ++ [cmd]), todo, u. split_and!; [by rewrite <- app_assoc|done|by intros [?%Hns|?]%Hs'; auto|].
  intros j Ej. destruct (Hj j Ej) as [H1 H2 H3 H4 [pend H5]]. split; [done..|]. exists (pend ++ [(cmd, line)]).
  apply (stream_mono _ (lk_health lk = false -> spent')) in H5 as (S1 & S2 & S3); [|auto]. split_and!.
  - simpl. rewrite app_assoc, S1, map_app, concat_app. simpl. by rewrite app_nil_r.
  - rewrite map_app, <- app_assoc. exact S2.
  - apply Forall_app. split; [exact S3|]. constructor; [|constructor]. split; [done|]. exact Hq.
Qed.
Lemma link_wire_iff c (spent spent' : Prop) lk oj :
  (spent <-> spent') -> link_wire c spent lk oj -> link_wire c spent' lk oj.
Proof.
  intros Hs (sv & todo & u & Hc & Hi & Hl & Hj). exists sv, todo, u. split_and!; [done..|by intros ?%Hs; auto|].
  intros j Ej. destruct (Hj j Ej) as [H1 H2 H3 H4 [pend H5]]. split; [done..|]. exists pend.
  eapply stream_mono; [|exact H5]. tauto.
Qed.
End link.

(** ** The books of a fleet

    What the connections were opened for, what was redeemed, and what the server accepted. *)
Definition static (lk : Link) : Link :=
  mkLink (lk_token lk) (lk_expires lk) (lk_now lk) (lk_health lk) (lk_request lk) [] [].
Definition info (ls : gmap (nat * nat) Link) (k : nat * nat) : option Link := static <$> ls !! k.

Section books.
Context {S : Sha256} (ns ep : bytes) (sk : Z).

Definition marker (lk : Link) : bytes := spent_key ns ep (Redemption.id (lk_token lk)).
Definition ticket_of (lk : Link) : bytes * Z := (Redemption.id (lk_token lk), lk_expires lk).
Record books (at_ : nat * nat -> option Link) (ts : gmap (nat * nat) (bytes * Z)) (s : Server)
  (sp : list (nat * nat)) : Prop := mkBooks {
  bk_request w p lk : at_ (w, p) = Some lk ->
    if lk_health lk then lk_request lk = None
    else exists r, lk_request lk = Some r /\ ts !! (w, r) = Some (ticket_of lk);
  bk_one_job w p p' lk lk' r : at_ (w, p) = Some lk -> at_ (w, p') = Some lk' ->
    lk_request lk = Some r -> lk_request lk' = Some r -> p = p';
  bk_spent k : k ∈ sp -> exists lk, at_ k = Some lk /\ lk_health lk = false
    /\ redis_gone sk s (marker lk) (lk_expires lk);
  bk_once k k' lk lk' : k ∈ sp -> k' ∈ sp -> at_ k = Some lk -> at_ k' = Some lk' ->
    ticket_of lk = ticket_of lk' -> k = k';
}.
Lemma books_ext at_ at' ts s sp : (forall k, at' k = at_ k) -> books at_ ts s sp -> books at' ts s sp.
Proof.
  intros He [H1 H2 H3 H4]. split.
  - intros w p lk. rewrite He. apply H1.
  - intros w p p' lk lk' r. rewrite !He. apply H2.
  - intros k Hk. destruct (H3 k Hk) as (lk & ? & ?). exists lk. by rewrite He.
  - intros k k' lk lk'. rewrite !He. apply H4.
Qed.
(** A request is noted, with or without a new connection. *)
Lemma books_ticket at_ ts s sp w r v :
  ts !! (w, r) = None -> books at_ ts s sp -> books at_ (<[(w, r) := v]> ts) s sp.
Proof.
  intros Hf [H1 H2 H3 H4]. split; [|done..]. intros w0 p lk Hk. specialize (H1 w0 p lk Hk).
  destruct (lk_health lk); [done|]. destruct H1 as (r0 & ? & Ht). exists r0. split; [done|].
  rewrite lookup_insert_ne by congruence. done.
Qed.
Lemma books_open at_ at' ts s sp w n lk :
  at_ (w, n) = None -> (forall k, at' k = if decide (k = (w, n)) then Some lk else at_ k) ->
  (if lk_health lk then lk_request lk = None
   else exists r, lk_request lk = Some r /\ ts !! (w, r) = Some (ticket_of lk)
        /\ forall p lk', at_ (w, p) = Some lk' -> lk_request lk' = Some r -> False) ->
  books at_ ts s sp -> books at' ts s sp.
Proof.
  intros Hn He Hlk [H1 H2 H3 H4].
  assert (forall k, k ∈ sp -> at' k = at_ k) as Hsp.
  { intros k (l & Hl & _)%H3. rewrite He. case_decide; [congruence|done]. }
  split.
  - intros w0 p l. rewrite He. case_decide as Hd; [|apply H1]. intros [= <-]. injection Hd as -> ->.
    destruct (lk_health lk); [done|]. destruct Hlk as (r & ? & ? & _). eauto.
  - assert (forall p lk' r, at_ (w, p) = Some lk' -> lk_request lk = Some r -> lk_request lk' = Some r -> False) as Hno.
    { intros p lk' r Hp Hr. destruct (lk_health lk); [congruence|]. destruct Hlk as (r0 & Hr0 & _ & Hu).
      assert (r0 = r) as -> by congruence. by eapply Hu. }
    intros w0 p p' l l' r. rewrite !He. repeat case_decide; intros; simplify_eq; [done|exfalso; eauto..|by eapply H2].
  - intros k Hk. rewrite Hsp by done. by apply H3.
  - intros k k' l l' Hk Hk'. rewrite !Hsp by done. by apply H4.
Qed.
Lemma books_server at_ ts s s' sp :
  (forall key e, redis_gone sk s key e -> redis_gone sk s' key e) -> books at_ ts s sp -> books at_ ts s' sp.
Proof.
  intros Hg [H1 H2 H3 H4]. split; [done..| |done]. intros k (lk & ? & ? & ?)%H3. eauto 10.
Qed.
(** The server accepts the job of a connection whose ticket is not spent. *)
Lemma books_accept at_ ts s sp k lk :
  at_ k = Some lk -> lk_health lk = false -> redis_gone sk s (marker lk) (lk_expires lk) ->
  (forall k' lk', k' ∈ sp -> at_ k' = Some lk' -> ticket_of lk' = ticket_of lk -> False) ->
  books at_ ts s sp -> books at_ ts s (sp ++ [k]).
Proof.
  intros Hk Hh Hg Hn [H1 H2 H3 H4]. split; [done..| |].
  - intros k' [Hin|Hin%list_elem_of_singleton]%elem_of_app; [by apply H3|subst k'; eauto].
  - intros k1 k2 l1 l2 [Hi1|Hi1%list_elem_of_singleton]%elem_of_app [Hi2|Hi2%list_elem_of_singleton]%elem_of_app E1 E2 Ht;
      subst; [by eapply H4|assert (l2 = lk) by congruence; subst; exfalso; by eapply Hn
             |assert (l1 = lk) by congruence; subst; exfalso; by eapply Hn|done].
Qed.
End books.

(** ** The fleet stays consistent *)

Section invariant.
Context {S : Sha256} {SL : Sha256Laws S} (cfg : nat -> Config) (ns ep : bytes) (sk : Z).
Context (Hdep : deployment cfg ns ep sk).

Definition wired (w : nat) (rt : Runtime) (sp : list (nat * nat)) (ls : gmap (nat * nat) Link) : Prop :=
  (forall p j, heap rt !! p = Some j -> is_Some (ls !! (w, p)))
  /\ forall p lk, ls !! (w, p) = Some lk ->
       (p < next rt)%nat /\ ranged lk /\ link_wire (cfg w) ((w, p) ∈ sp) lk (heap rt !! p).
Record fleet_ok (fs : Fleet) : Prop := mkFleetOk {
  fo_inv w : inv (workers fs w) /\ config (workers fs w) = cfg w;
  fo_wired w : wired w (workers fs w) (spent fs) (links fs);
  fo_server : redis_inv (server fs);
  fo_books : books ns ep sk (info (links fs)) (tickets fs) (server fs) (spent fs);
  fo_won w r : (w, r) ∈ won fs -> exists p lk, info (links fs) (w, p) = Some lk /\ lk_request lk = Some r
    /\ (w, p) ∈ spent fs /\ heap (workers fs w) !! p = None;
  fo_won_nodup : NoDup (won fs);
}.
Lemma boot_ok s : redis_inv s -> fleet_ok (boot cfg s).
Proof.
  intros Hs. split; simpl.
  - intros w. split; [|done]. by apply (inv_start (cfg w)).
  - by split.
  - done.
  - by split; unfold info; simpl; intros *; rewrite ?lookup_empty; try done; set_solver.
  - intros w r Hin. set_solver.
  - constructor.
Qed.

(** *** The server serves *)

Lemma execute_line w lk seen ms s cmd :
  ranged lk -> cmd = script (cfg w) lk \/ cmd = login (cfg w) ->
  is_line (execute ns seen ms s cmd).1 /\
  forall n, reply (execute ns seen ms s cmd).1 = inr (Some (Integer 1, n)) -> (execute ns seen ms s cmd).1 = integer_line 1.
Proof.
  intros Hr Hcmd. destruct (Hdep w) as (Hv & <- & _). destruct Hcmd as [-> | ->].
  - rewrite execute_script by done. destruct (lk_health lk); simpl.
    + split; [apply integer_line_ok|]. intros n E. by apply integer_line_one in E as ->; [|apply health_script_code].
    + pose proof (redis_eval_code (cfg_epoch (cfg w)) (skew (cfg w)) (mkEnv seen ms (lk_now lk)) s
        (spent_key (namespace (cfg w)) (cfg_epoch (cfg w)) (Redemption.id (lk_token lk))) (lk_expires lk)) as Hc.
      destruct (redis_eval _ _ _ _ _ _) as [code s1]. split; [apply integer_line_ok|]. intros n E.
      by apply integer_line_one in E as ->.
  - rewrite execute_login. simpl. split; [apply fixed_lines_ok|]. intros n. vm_compute. done.
Qed.
(** What serving a command does to the server and what it means. *)
Lemma serve_effect w lk (refuse : bool) seen ms s cmd line s' :
  ranged lk -> redis_inv s -> redis_usable sk s (mkEnv seen ms 0) ->
  cmd = script (cfg w) lk \/ cmd = login (cfg w) ->
  (if refuse then (error_line, s) else execute ns seen ms s cmd) = (line, s') ->
  is_line line /\ (forall n, reply line = inr (Some (Integer 1, n)) -> line = integer_line 1)
  /\ redis_inv s' /\ (forall key e, redis_gone sk s key e -> redis_gone sk s' key e)
  /\ (length cmd = 10%nat -> line = integer_line 1 -> lk_health lk = false
      /\ redis_gone sk s' (marker ns ep lk) (lk_expires lk)
      /\ (redis_gone sk s (marker ns ep lk) (lk_expires lk) -> False)).
Proof.
  intros Hr Hi Hu Hcmd E. destruct refuse.
  { injection E as <- <-. split_and!; [apply fixed_lines_ok| |done|done|].
    - intros n Hn. vm_compute in Hn. done.
    - intros _ Hn. vm_compute in Hn. done. }
  destruct (execute_line w lk seen ms s cmd Hr Hcmd) as [Hl1 Hl2]. rewrite E in Hl1, Hl2. simpl in Hl1, Hl2.
  split; [done|]. split; [done|]. destruct (Hdep w) as (Hv & Hns & Hep & Hsk). destruct Hcmd as [-> | ->].
  2: { rewrite execute_login in E. injection E as <- <-. split_and!; [done|done|]. by intros ?%login_length. }
  rewrite <- Hns, execute_script in E by done. destruct (lk_health lk) eqn:Hh.
  { injection E as <- <-. split_and!; [done|done|]. unfold script. rewrite Hh. by destruct (keys _ _ _) as [[? ?] ?]. }
  rewrite Hns, Hep, Hsk in E. fold (marker ns ep lk) in E. set (env := mkEnv seen ms (lk_now lk)) in E.
  assert (redis_usable sk s env) as Hu' by exact Hu.
  assert (0 <= sk) as H0 by (rewrite <- Hsk; pose proof (vc_skew _ Hv); lia).
  pose proof (redis_consume_inv ep sk env s (marker ns ep lk) (lk_expires lk) Hi) as Hinv.
  pose proof (fun key e => redis_gone_stays ep sk env s key e (marker ns ep lk) (lk_expires lk)) as Hstay.
  pose proof (redis_accepted_gone ep sk H0 env s (marker ns ep lk) (lk_expires lk) Hi Hu') as Hacc.
  pose proof (redis_gone_refused ep sk H0 env s (marker ns ep lk) (lk_expires lk) Hu') as Href.
  pose proof (redis_eval_code ep sk env s (marker ns ep lk) (lk_expires lk)) as Hcode. unfold redis_consume in *.
  destruct (redis_eval ep sk env s (marker ns ep lk) (lk_expires lk)) as [code s1]. injection E as <- <-. simpl in *.
  split_and!; [done|done|]. intros _ Hone.
  assert (code = 1) as -> by (eapply (integer_line_one code 4); [done|rewrite Hone; vm_compute; reflexivity]).
  split_and!; [done|by apply Hacc|]. intros Hg. by apply Href.
Qed.
Lemma info_serve ls k lk rest line :
  ls !! k = Some lk -> forall k', info (<[k := serve_link rest line lk]> ls) k' = info ls k'.
Proof.
  intros Hk k'. unfold info. destruct (decide (k' = k)) as [->|]; [by rewrite lookup_insert_eq, Hk|by rewrite lookup_insert_ne].
Qed.
Lemma serve_ok fs w p refuse seen ms :
  fleet_ok fs -> may sk fs (Serve w p refuse seen ms) -> fleet_ok (fstep ns fs (Serve w p refuse seen ms)).
Proof.
  intros [F1 F2 F3 F4 F5 F6] Hu. cbn [fstep may] in *. destruct (links fs !! (w, p)) as [lk|] eqn:Hlk; [|by split].
  destruct (read_command (lk_in lk)) as [[cmd rest]|] eqn:Hcmd; [|by split].
  destruct (proj2 (F2 w) p lk Hlk) as (Hn & Hr & Hw). destruct (Hdep w) as (Hv & _).
  destruct (link_wire_next _ _ _ _ _ _ Hv Hr Hw Hcmd) as (Hns & Hwhich & _).
  destruct (if refuse then _ else _) as [line s'] eqn:Hres.
  destruct (serve_effect w lk refuse seen ms (server fs) cmd line s' Hr F3 Hu Hwhich Hres)
    as (Hline & Hone & Hinv & Hstay & Hacc).
  set (sp := if bool_decide _ then _ else _).
  assert (forall k, k ∈ sp <-> k ∈ spent fs \/ (k = (w, p) /\ length cmd = 10%nat /\ line = integer_line 1)) as Hsp.
  { intros k. subst sp. case_bool_decide; rewrite ?elem_of_app, ?list_elem_of_singleton; tauto. }
  split; simpl; [done| |done| | |done].
  - intros w0. destruct (F2 w0) as [J1 J2]. split.
    + intros q j [l Hl]%J1. destruct (decide ((w0, q) = (w, p))) as [E|E]; [rewrite E, lookup_insert_eq; eauto|].
      rewrite lookup_insert_ne by done. eauto.
    + intros q l. destruct (decide ((w0, q) = (w, p))) as [E|E].
      * injection E as -> ->. rewrite lookup_insert_eq. intros [= <-]. split_and!; [done|exact Hr|].
        eapply link_wire_served; [done|done|exact Hw|done|done|rewrite Hsp; tauto|rewrite Hsp; tauto|].
        intros -> n Hi Hh. rewrite Hsp. right. split_and!; [done|by apply script_length|by eapply Hone].
      * rewrite lookup_insert_ne by done. intros Hl. destruct (J2 q l Hl) as (? & ? & Hwq). split_and!; [done..|].
        eapply link_wire_iff; [|exact Hwq]. rewrite Hsp. split; [tauto|]. by intros [?|[? _]].
  - eapply books_ext; [by apply info_serve|]. pose proof F4 as Hold. apply (books_server ns ep sk _ _ _ s') in F4; [|done].
    subst sp. case_bool_decide as Hb; [|done]. destruct Hb as [Hlen Hl1]. destruct (Hacc Hlen Hl1) as (Hh & Hg & Hng).
    eapply (books_accept ns ep sk _ _ _ _ (w, p) (static lk)); [by unfold info; rewrite Hlk|done|done| |done].
    intros k' lk' Hk' Hlk' [Hid He]%pair_eq. apply Hng. destruct (bk_spent _ _ _ _ _ _ _ Hold k' Hk') as (l & Hl & _ & Hgl).
    rewrite Hlk' in Hl. injection Hl as <-. unfold marker in *. cbn in Hid, He. by rewrite <- Hid, <- He.
  - intros w0 r (q & l & ? & ? & ? & ?)%F5. exists q, l. split_and!; [by rewrite info_serve|done|apply Hsp; tauto|done].
Qed.

(** *** A worker works *)

(** The connection of a job after an event that did not open it. *)
Definition relink1 (rt : Runtime) (ev : Event) (p : nat) (lk : Link) : Link :=
  match ev with
  | Writable q err send rw rr =>
      if decide (p = q) then match heap rt !! q with Some j => push_in (written j err send rw rr) lk | None => lk end
      else lk
  | Readable q recvs _ => if decide (p = q) then pull_out (length (received recvs)) lk else lk
  | _ => lk
  end.
Definition opened_link (world : World) (ev : Event) : option Link :=
  match ev with
  | Poll _ => Some (mkLink [] 0 (now world) true None [] [])
  | Redeem r token e _ => Some (mkLink token e (now world) false (Some r) [] [])
  | _ => None
  end.
Definition grown (rt rt' : Runtime) : bool := negb (next rt' =? next rt)%nat.
Lemma alter_pair {A} (f : A -> A) (m : gmap (nat * nat) A) w p k :
  alter f (w, p) m !! k = (if decide (k = (w, p)) then f else (fun x => x)) <$> m !! k.
Proof.
  case_decide as Hk; [subst; by rewrite lookup_alter_eq|]. rewrite lookup_alter_ne by done. by destruct (m !! k).
Qed.
Lemma relink_lookup w world rt rt' ev ls k :
  relink w world rt rt' ev ls !! k =
  if decide (k.1 = w) then
    if decide (k.2 = next rt /\ grown rt rt' = true /\ is_Some (opened_link world ev)) then opened_link world ev
    else relink1 rt ev k.2 <$> ls !! k
  else ls !! k.
Proof.
  destruct k as [w0 p]. cbn [fst snd]. unfold grown.
  assert (forall g (f : Link -> Link), alter f (w, g) ls !! (w0, p)
    = if decide (w0 = w) then (fun lk => if decide (p = g) then f lk else lk) <$> ls !! (w0, p) else ls !! (w0, p)) as Ha.
  { intros g f. rewrite alter_pair. destruct (decide (w0 = w)) as [->|Hw].
    - destruct (ls !! (w, p)); [|done]. simpl. f_equal. repeat case_decide; naive_solver.
    - rewrite decide_False by congruence. by destruct (ls !! (w0, p)). }
  assert (forall lk, <[(w, next rt) := lk]> ls !! (w0, p)
    = if decide (w0 = w) then if decide (p = next rt) then Some lk else ls !! (w0, p) else ls !! (w0, p)) as Hi.
  { intros lk. destruct (decide (w0 = w)) as [->|]; [|by rewrite lookup_insert_ne by congruence].
    case_decide; [subst; apply lookup_insert_eq|by rewrite lookup_insert_ne by congruence]. }
  assert (forall o : option Link, (fun lk => lk) <$> o = o) as Hid by (by intros []).
  destruct ev as [x|r tok e g|q err send rw rr|q recvs rearm|q|q]; simpl relink; simpl opened_link.
  - destruct (next rt' =? next rt)%nat; [|rewrite Hi]; repeat case_decide; naive_solver.
  - destruct (next rt' =? next rt)%nat; [|rewrite Hi]; repeat case_decide; naive_solver.
  - rewrite (decide_False (P := p = next rt /\ _ /\ is_Some None)) by (by intros (_ & _ & [])).
    unfold relink1. destruct (heap rt !! q) eqn:Hq; [apply Ha|]. case_decide; [|done].
    destruct (decide (p = q)); by rewrite Hid.
  - rewrite (decide_False (P := p = next rt /\ _ /\ is_Some None)) by (by intros (_ & _ & [])). apply Ha.
  - rewrite (decide_False (P := p = next rt /\ _ /\ is_Some None)) by (by intros (_ & _ & [])). rewrite Hid. by case_decide.
  - rewrite (decide_False (P := p = next rt /\ _ /\ is_Some None)) by (by intros (_ & _ & [])). rewrite Hid. by case_decide.
Qed.
Lemma relink1_static rt ev p lk : static (relink1 rt ev p lk) = static lk.
Proof. unfold relink1. by repeat case_match. Qed.
(** What [may] says of an event's bytes and numbers. *)
Definition io_ok (w : nat) (world : World) (ls : gmap (nat * nat) Link) (ev : Event) : Prop :=
  in_i64 (now world) = true /\
  match ev with
  | Redeem _ _ e _ => in_i64 e = true
  | Readable p recvs _ => exists lk, ls !! (w, p) = Some lk /\ received recvs `prefix_of` lk_out lk
  | _ => True
  end.
Lemma opened_created world rt ev lk :
  opened_link world ev = Some lk ->
  lk_in lk = [] /\ lk_out lk = [] /\ lk_now lk = now world /\ target ev = None
  /\ exists g, created world rt ev
     = Some (make_job (config rt) (lk_request lk) g (lk_token lk) (lk_expires lk) (lk_health lk) (now world)).
Proof. destruct ev; intros [= <-]; split_and!; try done; eexists; reflexivity. Qed.
Lemma created_opened world rt ev j : created world rt ev = Some j -> is_Some (opened_link world ev).
Proof. destruct ev; try done; by eexists. Qed.
(** A connection that was there keeps its bytes in order. *)
Lemma wired_old w world rt ev sp ls p lk :
  config rt = cfg w -> fires rt ev -> io_ok w world ls ev -> wired w rt sp ls -> ls !! (w, p) = Some lk ->
  link_wire (cfg w) ((w, p) ∈ sp) (relink1 rt ev p lk) (heap (handle world rt ev).2 !! p).
Proof.
  intros Hc Hf [Hnow Hio] [J1 J2] Hlk. destruct (handle_evolved world rt ev) as [_ _ Ej].
  destruct (J2 p lk Hlk) as (Hp & Hr & Hw). set (rt' := (handle world rt ev).2) in *.
  destruct (decide (target ev = Some p)) as [Ht|Ht].
  - destruct ev as [x|r tok e g|q err send rw rr|q recvs rearm|q|q]; try done; injection Ht as ->; simpl; rewrite ?decide_True by done.
    + destruct Hf as (j & Hj & _). rewrite Hj in Hw |- *. eapply link_wire_written; [|exact Hw].
      intros j' [k ? ? ?|k ? ? ? ?|k s a b Hev Hk Hwire|k rs ra i a Hev ? ? ?]%Ej; [done|lia| |done].
      injection Hev as -> -> -> ->. rewrite Hj in Hk. injection Hk as ->. done.
    + destruct Hf as (j & Hj & _). rewrite Hj in Hw. destruct Hio as (lk0 & Hlk0 & Hpre). rewrite Hlk in Hlk0. injection Hlk0 as <-.
      refine (proj1 (link_wire_read _ _ lk j recvs rearm _ Hpre _ Hw)).
      intros j' [k ? ? ?|k ? ? ? ?|k s a b Hev Hk Hwire|k rs ra i a Hev Hk Hread Hwire]%Ej; [done|lia|done|].
      injection Hev as <- <-. rewrite Hj in Hk. injection Hk as ->. eauto.
    + eapply link_wire_kept; [|exact Hw]. intros j' [k ? ? ?|k ? ? ? ?|k s a b Hev Hk Hwire|k rs ra i a Hev ? ? ?]%Ej; (done || lia).
    + eapply link_wire_kept; [|exact Hw]. intros j' [k ? ? ?|k ? ? ? ?|k s a b Hev Hk Hwire|k rs ra i a Hev ? ? ?]%Ej; (done || lia).
  - assert (relink1 rt ev p lk = lk) as ->.
    { destruct ev; simpl in *; rewrite ?decide_False by congruence; done. }
    eapply link_wire_kept; [|exact Hw].
    intros j' [k ? ? ?|k ? ? ? ?|k s a b Hev Hk Hwire|k rs ra i a Hev ? ? ?]%Ej; [eauto|lia|by subst ev|by subst ev].
Qed.
Lemma wired_work w world rt ev sp ls :
  inv rt -> config rt = cfg w -> fires rt ev -> io_ok w world ls ev -> wired w rt sp ls ->
  (forall k, k ∈ sp -> is_Some (ls !! k)) ->
  wired w (handle world rt ev).2 sp (relink w world rt (handle world rt ev).2 ev ls).
Proof.
  intros Hi Hc Hf Hio Hw Hsp. destruct (handle_evolved world rt ev) as [_ En Ej].
  pose proof (fun p lk => wired_old w world rt ev sp ls p lk Hc Hf Hio Hw) as Hold.
  destruct Hw as [J1 J2]. set (rt' := (handle world rt ev).2) in *.
  assert (ls !! (w, next rt) = None) as Hfresh.
  { destruct (ls !! (w, next rt)) as [l|] eqn:E; [|done]. destruct (J2 _ _ E) as [? _]. lia. }
  pose proof (fresh_next rt (inv_core _ Hi)) as Hnext. split.
  - intros p j' Hj'. rewrite relink_lookup, decide_True by done. cbn [snd].
    assert (forall j, heap rt !! p = Some j -> is_Some (ls !! (w, p)) /\ p <> next rt) as Hin.
    { intros j Hj. split; [by eapply J1|]. intros ->. congruence. }
    destruct (Ej p j' Hj') as [j Hj ? ?|j Hg -> Hcr ?|j send rw rr Hev Hj ?|j recvs ra i a Hev Hj ? ?].
    + destruct (Hin j Hj) as [[l ->] ?]. rewrite decide_False by tauto. by eexists.
    + rewrite decide_True; [by eapply created_opened|]. split_and!; [done|done|by eapply created_opened].
    + destruct (Hin j Hj) as [[l ->] ?]. rewrite decide_False by tauto. by eexists.
    + destruct (Hin j Hj) as [[l ->] ?]. rewrite decide_False by tauto. by eexists.
  - intros p lk'. rewrite relink_lookup, decide_True by done. cbn [snd]. case_decide as Hd.
    + destruct Hd as (-> & Hg & _). intros Ho. destruct (opened_created world rt ev lk' Ho) as (Hin & Hout & Hn & Ht & g & Hcr).
      split_and!.
      * unfold grown in Hg. apply negb_true_iff, Nat.eqb_neq in Hg. destruct En as [?|[? _]]; lia.
      * destruct Hio as [Hnow Hev]. destruct ev; try done; injection Ho as <-; by split.
      * rewrite Hc in Hcr. eapply (link_wire_new (cfg w) lk' _ (now world) (lk_request lk') g); [done..|by intros [? ?]%Hsp; congruence|].
        intros j' Hj'. destruct (Ej _ j' Hj') as [j Hj ? ?|j _ _ Hcr' Hw'|j send rw rr Hev Hj ?|j recvs ra i a Hev Hj ? ?]; try congruence.
    + intros [lk [Hlk ->]]%fmap_Some. destruct (J2 p lk Hlk) as (Hp & Hr & _). split_and!.
      * destruct En as [?|[? _]]; lia.
      * unfold relink1. by repeat case_match.
      * by apply Hold.
Qed.
Lemma info_relink w world rt rt' ev ls k :
  info (relink w world rt rt' ev ls) k =
  if decide (k = (w, next rt) /\ grown rt rt' = true /\ is_Some (opened_link world ev))
  then static <$> opened_link world ev else info ls k.
Proof.
  unfold info. rewrite relink_lookup. destruct k as [w0 p]. cbn [fst snd].
  destruct (decide (w0 = w)) as [->|]; [|rewrite decide_False by naive_solver; done].
  destruct (decide (p = next rt /\ _)) as [Hd|Hd]; [rewrite decide_True by naive_solver; done|].
  rewrite decide_False by naive_solver. rewrite <- option_fmap_compose. destruct (ls !! (w, p)); [|done].
  simpl. f_equal. apply relink1_static.
Qed.
Lemma books_work w world rt rt' ev ls ts s sp :
  ls !! (w, next rt) = None ->
  match ev with Redeem r _ _ _ => ts !! (w, r) = None | _ => True end ->
  books ns ep sk (info ls) ts s sp ->
  books ns ep sk (info (relink w world rt rt' ev ls)) (reticket w ev ts) s sp.
Proof.
  intros Hn Hev Hb.
  assert (books ns ep sk (info ls) (reticket w ev ts) s sp) as Hb' by (destruct ev; [done|by apply books_ticket|done..]).
  destruct (decide (grown rt rt' = true /\ is_Some (opened_link world ev))) as [[Hg [lk Ho]]|Hd].
  - eapply (books_open ns ep sk (info ls) _ _ _ _ w (next rt) (static lk)); [by unfold info; rewrite Hn| | |exact Hb'].
    + intros k. rewrite info_relink, Hg, Ho. repeat case_decide; naive_solver.
    + destruct ev as [x|r tok e g| | | |]; try done; injection Ho as <-; simpl; [done|].
      exists r. split_and!; [done|apply lookup_insert_eq|].
      intros p lk' Hp Hr. pose proof (bk_request _ _ _ _ _ _ _ Hb w p lk' Hp) as Hq.
      destruct (lk_health lk'); [congruence|]. destruct Hq as (r0 & ? & ?). congruence.
  - eapply books_ext; [|exact Hb']. intros k. rewrite info_relink, decide_False by naive_solver. done.
Qed.
Lemma accepted_none cs : all_full cs -> filter (fun c : Completion => c.1.2 = Accepted) cs = [].
Proof. induction 1 as [|c cs Hc _ IH]; [done|]. rewrite filter_cons_False by congruence. exact IH. Qed.
(** An event makes at most one winner, and says which. *)
Lemma winners_cases w world rt ev :
  inv rt -> fires rt ev ->
  winners w (handle world rt ev).1 = [] \/
  exists r p recvs rearm j, winners w (handle world rt ev).1 = [(w, r)] /\ ev = Readable p recvs rearm
    /\ heap rt !! p = Some j /\ request j = Some r /\ health j = false
    /\ read_loop recvs rearm (input j) (auth j) = inl (Accepted, false).
Proof.
  intros Hi Hf. unfold winners. destruct (filter _ (handle world rt ev).1) as [|[[r o] g] l] eqn:Ef; [by left|right].
  pose proof (eq_ind_r (fun x : list Completion => (r, o, g) ∈ x) (list_elem_of_here (r, o, g) l) Ef) as Hin.
  apply list_elem_of_filter in Hin as [Ho Hin]. cbn in Ho. subst o.
  destruct (accepted_from_read world rt ev r g Hi Hf Hin) as (p & recvs & rearm & j & -> & Hj & Hr & Hg & He & Hrd & _).
  exists r, p, recvs, rearm, j. pose proof (core_kind _ (inv_core _ Hi) p j Hj) as Hk.
  assert (health j = false) as Hh by (destruct (health j); [congruence|done]).
  split_and!; try done. simpl in Ef. unfold read in Ef. rewrite Hj, Hrd in Ef.
  destruct (complete_answers (now world) (msec world) (dial world) rt p j Accepted false Hj) as (before & Hb & E).
  rewrite E, filter_app, (accepted_none _ Hb) in Ef. unfold answer in Ef. rewrite Hr, Hg in Ef. simpl in Ef.
  rewrite Hh, (proj2 (Z.leb_gt _ _)) in Ef by lia. rewrite filter_cons_True in Ef by done. by injection Ef as <-.
Qed.
Lemma work_ok fs w world ev :
  fleet_ok fs -> may sk fs (Work w world ev) -> fleet_ok (fstep ns fs (Work w world ev)).
Proof.
  intros [F1 F2 F3 F4 F5 F6] (Hf & Hnow & Hg). cbn [fstep]. destruct (F1 w) as [Hi Hc].
  assert (io_ok w world (links fs) ev) as Hio by (split; [done|]; destruct ev; try done; by destruct Hg).
  assert (forall k, k ∈ spent fs -> is_Some (links fs !! k)) as Hsp.
  { intros k (lk & Hk & _)%(bk_spent _ _ _ _ _ _ _ F4). unfold info in Hk. by apply fmap_Some in Hk as (? & -> & _). }
  pose proof (wired_work w world _ ev _ _ Hi Hc Hf Hio (F2 w) Hsp) as Hw.
  pose proof (winners_cases w world _ ev Hi Hf) as Hwin. pose proof (handle_step world _ ev Hi Hf) as [Hi' _ Hc' _].
  pose proof (handle_evolved world (workers fs w) ev) as [_ _ Hev].
  set (rt := workers fs w) in *. destruct (handle world rt ev) as [cs rt'] eqn:Eh. cbn [fst snd] in *.
  assert (links fs !! (w, next rt) = None) as Hfresh.
  { destruct (links fs !! (w, next rt)) as [l|] eqn:E; [|done]. destruct (proj2 (F2 w) _ _ E) as [? _]. subst rt. lia. }
  assert (forall k lk, info (links fs) k = Some lk -> info (relink w world rt rt' ev (links fs)) k = Some lk) as Hinfo.
  { intros k lk Hk. rewrite info_relink, decide_False; [done|]. intros (-> & _). unfold info in Hk. by rewrite Hfresh in Hk. }
  assert (forall p lk, info (links fs) (w, p) = Some lk -> heap rt !! p = None -> heap rt' !! p = None) as Hgone.
  { intros p lk Hp Hn. destruct (heap rt' !! p) as [j'|] eqn:E; [|done].
    destruct (Hev p j' E) as [j Hj ? ?|j _ -> ? ?|j ? ? ? ? Hj ?|j ? ? ? ? ? Hj ? ?]; try congruence.
    unfold info in Hp. by rewrite Hfresh in Hp. }
  assert (forall r, (w, r) ∈ winners w cs -> exists p lk, info (links fs) (w, p) = Some lk /\ lk_request lk = Some r
    /\ (w, p) ∈ spent fs /\ heap rt' !! p = None /\ is_Some (heap rt !! p)) as Hnew.
  { intros r Hr. destruct Hwin as [Ew|(r0 & p & recvs & rearm & j & Ew & -> & Hj & Hrq & Hh & Hrd)]; rewrite Ew in Hr; [set_solver|].
    apply list_elem_of_singleton in Hr. injection Hr as ->.
    destruct Hio as (_ & lk & Hlk & Hpre). destruct (proj2 (F2 w) p lk Hlk) as (_ & _ & Hwire). subst rt. rewrite Hj in Hwire.
    destruct (link_wire_read _ _ lk j recvs rearm None Hpre ltac:(done) Hwire) as [_ Hs].
    destruct Hwire as (? & ? & ? & _ & _ & _ & Hjo). destruct (Hjo j eq_refl) as [Jh _ Jr _ _].
    exists p, (static lk). split_and!; [by unfold info; rewrite Hlk|simpl; congruence|eapply Hs; [done|congruence]| |by rewrite Hj].
    destruct (heap rt' !! p) as [j'|] eqn:E; [|done]. exfalso.
    destruct (Hev p j' E) as [k Hk Ht ?|k ? ? Hcr ?|k ? ? ? Hx ? ?|k rs ra i a Hx Hk Hrd' ?]; try done.
    injection Hx as <- <-. rewrite Hj in Hk. injection Hk as <-. congruence. }
  split; simpl.
  - intros w0. destruct (Nat.eqb_spec w0 w) as [->|]; [split; [done|congruence]|apply F1].
  - intros w0. destruct (Nat.eqb_spec w0 w) as [->|Hne]; [done|]. destruct (F2 w0) as [J1 J2].
    assert (forall p, relink w world rt rt' ev (links fs) !! (w0, p) = links fs !! (w0, p)) as Hsame
      by (intros p; rewrite relink_lookup, decide_False by done; done).
    split; [intros p j; rewrite Hsame; apply J1|intros p lk; rewrite Hsame; apply J2].
  - done.
  - apply books_work; [done|by destruct ev; try done; destruct Hg|done].
  - intros w0 r [Hin|Hin]%elem_of_app.
    + destruct (F5 w0 r Hin) as (p & lk & H1 & H2 & H3 & H4). exists p, lk. split_and!; [by apply Hinfo|done|done|].
      destruct (Nat.eqb_spec w0 w) as [->|]; [by eapply Hgone|done].
    + assert (w0 = w) as -> by (unfold winners in Hin; apply list_elem_of_In, in_map_iff in Hin as (? & [= <- _] & _); done).
      rewrite Nat.eqb_refl. destruct (Hnew r Hin) as (p & lk & H1 & H2 & H3 & H4 & _). exists p, lk. split_and!; try done. by apply Hinfo.
  - apply NoDup_app. split_and!; [done| |].
    + intros [w0 r] Hold Hin.
      assert (w0 = w) as -> by (unfold winners in Hin; apply list_elem_of_In, in_map_iff in Hin as (? & [= <- _] & _); done).
      destruct (F5 w r Hold) as (p & lk & H1 & H2 & _ & H4). destruct (Hnew r Hin) as (p' & lk' & H1' & H2' & _ & _ & [j Hj]).
      assert (p = p') as -> by (by eapply (bk_one_job _ _ _ _ _ _ _ F4)). subst rt. congruence.
    + destruct Hwin as [->|(r & ? & ? & ? & ? & -> & _)]; [constructor|]. apply NoDup_singleton.
Qed.
Lemma freach_ok s fs : redis_inv s -> freach cfg ns sk s fs -> fleet_ok fs.
Proof.
  intros Hs. induction 1 as [|fs ev _ IH Hm]; [by apply boot_ok|]. destruct ev; [by apply work_ok|by apply serve_ok].
Qed.
(** The winners redeemed different tokens. *)
Lemma fleet_ok_won fs :
  fleet_ok fs ->
  Forall (fun wr => is_Some (tickets fs !! wr)) (won fs)
  /\ NoDup (map (fun wr => tickets fs !! wr) (won fs)).
Proof.
  intros [_ _ _ Hb Hw Hnd].
  assert (forall wr, wr ∈ won fs -> exists p lk, info (links fs) (wr.1, p) = Some lk /\ lk_request lk = Some wr.2
    /\ (wr.1, p) ∈ spent fs /\ tickets fs !! wr = Some (ticket_of lk)) as Ht.
  { intros [w r] (p & lk & H1 & H2 & H3 & _)%Hw. exists p, lk. split_and!; try done.
    pose proof (bk_request _ _ _ _ _ _ _ Hb w p lk H1) as Hq. destruct (lk_health lk); [congruence|].
    destruct Hq as (r0 & ? & ?). congruence. }
  split; [apply Forall_forall; intros wr (p & lk & _ & _ & _ & ->)%Ht; by eexists|].
  apply NoDup_fmap_2_strong; [|done]. intros x y Hx Hy E.
  destruct (Ht x Hx) as (p & lk & H1 & H2 & H3 & H4). destruct (Ht y Hy) as (q & lk' & H1' & H2' & H3' & H4').
  rewrite H4, H4' in E. injection E as Ei Ee.
  assert ((x.1, p) = (y.1, q)) as Hk by (eapply (bk_once _ _ _ _ _ _ _ Hb); try done; unfold ticket_of; congruence).
  destruct x as [w r], y as [w' r']. simpl in *. injection Hk as -> ->. rewrite H1 in H1'. injection H1' as ->. congruence.
Qed.
End invariant.

(** ** Properties *)

(** C4: One cookie per token across a whole fleet.  Any number of workers redeem against one
    Redis primary, each over its own connections, with requests that time out or are
    abandoned, commands the server executes late or refuses, replies that arrive in pieces
    or never, and workers that stop at any point.  Whatever the interleaving, the requests
    that are answered [Accepted], and so get the cookie, all redeemed different tokens (a
    token being known by its hash and its expiry), as long as the server clock never steps
    back by more than the allowance of the script. *)
Theorem fleet_one_cookie_per_token {S : Sha256} {SL : Sha256Laws S} cfg ns ep sk s fs :
  deployment cfg ns ep sk -> redis_inv s -> freach cfg ns sk s fs ->
  Forall (fun wr => is_Some (tickets fs !! wr)) (won fs)
  /\ NoDup (map (fun wr => tickets fs !! wr) (won fs)).
Proof.
  intros Hdep Hs Hr. eapply fleet_ok_won. by eapply freach_ok.
Qed.

(** ** Witness *)

Fixpoint frun {S : Sha256} (ns : bytes) (fs : Fleet) (evs : list FEvent) : Fleet :=
  match evs with [] => fs | ev :: evs' => frun ns (fstep ns fs ev) evs' end.
Fixpoint may_all {S : Sha256} (ns : bytes) (sk : Z) (fs : Fleet) (evs : list FEvent) : Prop :=
  match evs with [] => True | ev :: evs' => may sk fs ev /\ may_all ns sk (fstep ns fs ev) evs' end.
Lemma freach_run {S : Sha256} cfg ns sk s fs evs :
  freach cfg ns sk s fs -> may_all ns sk fs evs -> freach cfg ns sk s (frun ns fs evs).
Proof. revert fs. induction evs as [|ev evs IH]; intros fs Hr Hm; [done|]. destruct Hm. apply IH; [by apply freach_step|done]. Qed.
(** Two workers check the server's health and then redeem one token at the same time. *)
Definition demo_write (p : nat) : Event := Writable p false (fun _ => 10000) true true.
Definition demo_cfg (w : nat) : Config := demo_config.
Definition demo_primary : Server := mkServer (mkDb (Some (cfg_epoch demo_config)) (Some 99) ∅) 100000.
Definition demo_serve (w p : nat) : list FEvent := [Serve w p false 100000 100000; Serve w p false 100000 100000].
Definition demo_fevents : list FEvent :=
  concat (map (fun w => [Work w demo_world (Poll false); Work w demo_world (demo_write 0)] ++ demo_serve w 0
    ++ [Work w demo_world (Readable 0 [Data (auth_line ++ bs ":"); Data (bs "1" ++ crlf)] true)]) [0; 1]%nat)
  ++ [Work 0 demo_world (Redeem 7 (bs "tok") 160 demo_grant); Work 1 demo_world (Redeem 8 (bs "tok") 160 demo_grant);
      Work 0 demo_world (demo_write 1); Work 1 demo_world (demo_write 1)]
  ++ demo_serve 1 1 ++ demo_serve 0 1
  ++ [Work 0 demo_world (Readable 1 [Data (auth_line ++ integer_line 0)] true);
      Work 1 demo_world (Readable 1 [Data (auth_line ++ integer_line 1)] true)].
Definition demo_fleet : Fleet := frun (bs "edge-1") (boot demo_cfg demo_primary) demo_fevents.
Example demo_fleet_won : won demo_fleet = [(1, 8)]%nat /\ spent demo_fleet = [(1, 1)]%nat.
Proof. vm_compute. done. Qed.
Lemma demo_deployment : deployment demo_cfg (bs "edge-1") (cfg_epoch demo_config) 5.
Proof.
  intros w. split_and!; [|done..]. apply (parse_config_valid demo_read (default ∅ (parse_block ∅ demo_block))).
  vm_compute. reflexivity.
Qed.
Lemma prefix_decided (a b : bytes) : bool_decide (a `prefix_of` b) = true -> a `prefix_of` b.
Proof. apply bool_decide_eq_true_1. Qed.
Ltac demo_may :=
  repeat match goal with
  | |- may_all _ _ _ [] => exact I
  | |- may_all _ _ _ (_ :: _) => split
  | |- may _ _ (Serve _ _ _ _ _) => vm_compute; discriminate
  | |- may _ _ (Work _ _ _) => split; [|split; [reflexivity|]]
  | |- fires _ _ => first [exact I | eexists; split; vm_compute; reflexivity]
  | |- True => exact I
  | |- _ /\ _ => split; vm_compute; reflexivity
  | |- exists lk, _ => eexists; split; [vm_compute; reflexivity|apply prefix_decided; vm_compute; reflexivity]
  end.
Lemma demo_fleet_reach : freach demo_cfg (bs "edge-1") 5 demo_primary demo_fleet.
Proof. apply freach_run; [apply freach_boot|]. unfold demo_fevents, demo_serve, demo_write. cbn [concat map app]. demo_may. Qed.
Lemma fleet_one_cookie_per_token_witness :
  won demo_fleet = [(1, 8)]%nat
  /\ Forall (fun wr => is_Some (tickets demo_fleet !! wr)) (won demo_fleet)
  /\ NoDup (map (fun wr => tickets demo_fleet !! wr) (won demo_fleet)).
Proof.
  split; [vm_compute; reflexivity|].
  apply (fleet_one_cookie_per_token demo_cfg (bs "edge-1") (cfg_epoch demo_config) 5 demo_primary demo_fleet).
  - apply demo_deployment.
  - intros p [= <-]. vm_compute. discriminate.
  - apply demo_fleet_reach.
Defined.
