(* ===== verification/Client.v ===== *)
(** * [perf/src/main.rs]: the client of the gate

    The load generator is the repository's native client: it fetches a challenge, searches
    the nonce, posts the solution and keeps the cookie ([handshake]), and it signs requests
    ([proof_header]).  Here its side of the protocol meets the server's: the search loop
    ends, and what the client sends is what the gate accepts.  [ureq] is the transport, an
    argument; the threads and the statistics of [run_mode] are in [LoadTool]. *)
From Stdlib Require Import ZArith Lia.
From Stdlib Require Import Strings.Byte.
From stdpp Require Import base list strings option numbers countable sets gmap.
From S2P Require Import Prelude RustStr Crates StandIns Codec Mac Ip Context Target Pow ReqProof Uri.
From S2P Require Import Clearance Nojs Redemption Ledger Cluster Decision Replay Runtime Verifier Http Challenge Gate.
Local Open Scope Z_scope.

(** ** Signing ([p256::ecdsa]) *)

Class Signer (E : Ecdsa) := {
  SigningKey : Type;
  verifying_key : SigningKey -> VerifyingKey;
  sign : SigningKey -> bytes -> Signature;
  sig_to_bytes : Signature -> bytes;
}.
(** A signature verifies under its key and is 64 bytes; a key's uncompressed point starts
    with the tag 4. *)
Class SignerLaws {E : Ecdsa} (G : Signer E) : Prop := {
  sign_verifies sk m : vk_verify (verifying_key sk) m (sign sk m) = true;
  sign_bytes sk m : sig_from_slice (sig_to_bytes (sign sk m)) = Some (sign sk m);
  sign_length sk m : length (sig_to_bytes (sign sk m)) = 64%nat;
  uncompressed_tag sk : head (vk_to_uncompressed (verifying_key sk)) = Some Byte.x04;
}.

(** ** The client *)

Record ClientChallenge := mkClientChallenge {
  ch_version : Z; ch_salt : bytes; ch_exp : Z; ch_difficulty : Z; ch_token : bytes;
}.
(** [into_json::<Challenge>()]: [serde] takes the fields it knows and ignores the rest. *)
Class ClientJson := read_challenge : bytes -> option ClientChallenge.
Definition of_server (c : Pow.Challenge) : ClientChallenge :=
  mkClientChallenge (Pow.version c) (Pow.salt c) (Pow.exp c) (Pow.difficulty c) (Pow.token c).
#[export] Instance sent_challenge_val : RustVal (Pow.Challenge * Z) := fun '(c, now) =>
  in_u8 (Pow.version c) && utf8_valid (Pow.salt c) && in_i64 (Pow.exp c) && in_u64 (Pow.difficulty c)
  && utf8_valid (Pow.token c) && in_i64 now.
Class ClientJsonLaws (R : ClientJson) (JN : Json (Pow.Challenge * Z)) : Prop := {
  read_challenge_sent c now : rust_ok (c, now) = true -> read_challenge (to_vec (c, now)) = Some (of_server c);
}.
Inductive Mode := Baseline | ChallengeMode | Cleared | Proof.
Definition mode_name (m : Mode) : bytes :=
  match m with
  | Baseline => bs "baseline" | ChallengeMode => bs "challenge" | Cleared => bs "cleared" | Proof => bs "proof"
  end.
Definition mode_parse (s : bytes) : option Mode :=
  if beq s (bs "baseline") then Some Baseline
  else if beq s (bs "challenge") then Some ChallengeMode
  else if beq s (bs "cleared") then Some Cleared
  else if beq s (bs "proof") then Some Proof
  else None.
(** The modes of [PERF_MODES]. *)
Definition modes (csv : bytes) : list Mode := omap mode_parse (split_on "," csv).

Section client.
Context {B : Base64} {S : Sha256} {E : Ecdsa} {G : Signer E} {R : ClientJson} {JS : Json Submission}.

Record Identity := mkIdentity { id_cookie : bytes; signing : SigningKey }.
Definition public_bytes (sk : SigningKey) : bytes := vk_to_uncompressed (verifying_key sk).
(** The search loop, with [fuel] more rounds to go. *)
Fixpoint search (fuel : nat) (salt : bytes) (difficulty nonce : Z) : option Z :=
  if solution_valid salt nonce difficulty then Some nonce
  else match fuel with
       | O => None
       | Datatypes.S f => search f salt difficulty (wrap_u 64 (nonce + 1))
       end.
Definition submission (sk : SigningKey) (ch : ClientChallenge) (nonce : Z) : Submission :=
  mkSubmission (ch_version ch) (b64_encode (sig_to_bytes (sign sk (challenge_message (ch_token ch)))))
    (ch_salt ch) (ch_exp ch) (ch_token ch) nonce (b64_encode (public_bytes sk)) (ch_difficulty ch).
(** [set_cookie.split(';').next().unwrap_or("")]. *)
Definition cookie_of (set_cookie : bytes) : bytes := default [] (head (split_on ";" set_cookie)).
(** What the client reads of an answer: its text and its [set-cookie] header. *)
Record Answer := mkAnswer { a_text : bytes; a_set_cookie : option bytes }.
(** A call of [ureq] by method, URL, headers and body; [None] where the client panics: no
    answer, or one whose status is an error. *)
Definition Transport : Type := bytes -> bytes -> list (bytes * bytes) -> option bytes -> option Answer.
(** [base] is [BASE_URL], [sk] the random key; [None] also when [fuel] rounds of the search
    were not enough. *)
Definition handshake (fuel : nat) (base : bytes) (sk : SigningKey) (call : Transport) : option Identity :=
  answer <-? call (bs "GET") (base ++ bs "/.pow/challenge") [(bs "X-Pow-Key", b64_encode (public_bytes sk))] None;
  ch <-? read_challenge (a_text answer);
  nonce <-? search fuel (ch_salt ch) (ch_difficulty ch) 0;
  answer <-? call (bs "POST") (base ++ bs "/.pow/verify") [(bs "Content-Type", bs "application/json")]
               (Some (to_vec (submission sk ch nonce)));
  set_cookie <-? a_set_cookie answer;
  Some (mkIdentity (cookie_of set_cookie) sk).
(** [ts] is the client's clock. *)
Definition proof_header (ts : Z) (id : Identity) (method path : bytes) : bytes :=
  let sig := sign (signing id) (method ++ bs " " ++ path ++ bs " " ++ show_i ts) in
  b64_encode (sig_to_bytes sig) ++ bs "." ++ show_i ts.
(** The path and the headers of a request of [one_request]. *)
Definition mode_request (ts : Z) (id : Identity) (m : Mode) : bytes * list (bytes * bytes) :=
  match m with
  | Baseline => (bs "/healthz", [])
  | ChallengeMode => (bs "/", [(bs "User-Agent", bs "perf")])
  | Cleared => (bs "/", [(bs "Cookie", id_cookie id)])
  | Proof => (bs "/", [(bs "Cookie", id_cookie id); (bs "X-Pow-Proof", proof_header ts id (bs "GET") (bs "/"))])
  end.
(** [preview.windows(marker.len()).any(|window| window == marker)]. *)
Definition contains_window (marker preview : bytes) : bool := bool_decide (is_Some (find_str marker preview)).
(** Whether an answer counts: 200, and the body of its mode. *)
Definition answer_valid (m : Mode) (status : Z) (preview : bytes) : bool :=
  (status =? 200) &&
  match m with
  | Baseline => beq preview (bs "ok") || beq preview (bs "ok" ++ [Byte.x0a])
  | ChallengeMode => contains_window (bs "solver.js") preview
  | Cleared | Proof => contains_window (bs "upstream-content") preview
  end.
End client.

Lemma mode_parse_name m : mode_parse (mode_name m) = Some m.
Proof. by destruct m. Qed.

(** ** The search ends *)

Section search.
Context {S : Sha256}.

Lemma search_none fuel salt d k :
  0 <= k -> k + Z.of_nat fuel < 2 ^ 64 ->
  (forall n, k <= n <= k + Z.of_nat fuel -> solution_valid salt n d = false) -> search fuel salt d k = None.
Proof.
  revert k. induction fuel as [|f IH]; intros k Hk Hb Hn; cbn [search].
  - by rewrite Hn by lia.
  - rewrite Hn by lia. rewrite wrap_u_id by (apply in_u_iff; lia). apply IH; [lia|lia|]. intros n Hr. apply Hn. lia.
Qed.
Lemma search_least fuel salt d k n :
  0 <= k <= n -> n < 2 ^ 64 -> solution_valid salt n d = true ->
  (forall m, k <= m < n -> solution_valid salt m d = false) -> n - k <= Z.of_nat fuel ->
  search fuel salt d k = Some n.
Proof.
  revert k. induction fuel as [|f IH]; intros k Hk Hn Hs Hl Hf; cbn [search].
  - replace k with n by lia. by rewrite Hs.
  - destruct (decide (k = n)) as [->|]; [by rewrite Hs|]. rewrite Hl by lia.
    rewrite wrap_u_id by (apply in_u_iff; lia). apply IH; try lia; [done|]. intros m Hm. apply Hl. lia.
Qed.
(** What the loop stops at solves the challenge. *)
Lemma search_sound fuel salt d k n :
  0 <= k < 2 ^ 64 -> search fuel salt d k = Some n -> solution_valid salt n d = true /\ 0 <= n < 2 ^ 64.
Proof.
  revert k. induction fuel as [|f IH]; intros k Hk; cbn [search]; (destruct (solution_valid salt k d) eqn:E; [by intros [= <-]|]).
  - done.
  - apply IH. unfold wrap_u. apply Z.mod_pos_bound. lia.
Qed.
(** Among finitely many numbers with a solution there is a first one. *)
Lemma least_solution salt d n :
  0 <= n -> solution_valid salt n d = true ->
  exists m, 0 <= m <= n /\ solution_valid salt m d = true /\ forall k, 0 <= k < m -> solution_valid salt k d = false.
Proof.
  intros Hn Hs.
  assert (forall k : nat, (exists m, 0 <= m < Z.of_nat k /\ solution_valid salt m d = true
            /\ forall j, 0 <= j < m -> solution_valid salt j d = false)
          \/ (forall j, 0 <= j < Z.of_nat k -> solution_valid salt j d = false)) as Hk.
  { induction k as [|k [(m & ? & ? & ?)|Hno]]; [right; lia|left; exists m; split_and!; (done || lia)|].
    destruct (solution_valid salt (Z.of_nat k) d) eqn:E; [left; exists (Z.of_nat k); split_and!; (done || lia)|right].
    intros j Hj. destruct (decide (j = Z.of_nat k)) as [->|]; [done|]. apply Hno. lia. }
  destruct (Hk (Z.to_nat (n + 1))) as [(m & ? & ? & ?)|Hno]; [exists m; split_and!; (done || lia)|].
  rewrite Hno in Hs by lia. done.
Qed.

(** C37: The search terminates, with the first solution, exactly when there is one.  With
    the [u64] nonce that starts at 0 and counts up, some number of rounds ends the loop if
    and only if some 64-bit nonce solves the challenge; then the loop returns the least
    such nonce, after that many rounds and not earlier. *)
Theorem search_terminates_iff salt d :
  ((exists fuel n, search fuel salt d 0 = Some n) <-> exists n, 0 <= n < 2 ^ 64 /\ solution_valid salt n d = true)
  /\ forall n, 0 <= n < 2 ^ 64 -> solution_valid salt n d = true ->
     exists m, 0 <= m <= n /\ solution_valid salt m d = true
     /\ (forall k, 0 <= k < m -> solution_valid salt k d = false)
     /\ forall fuel, search fuel salt d 0 = if (Z.to_nat m <=? fuel)%nat then Some m else None.
Proof.
  assert (forall n, 0 <= n < 2 ^ 64 -> solution_valid salt n d = true ->
     exists m, 0 <= m <= n /\ solution_valid salt m d = true
     /\ (forall k, 0 <= k < m -> solution_valid salt k d = false)
     /\ forall fuel, search fuel salt d 0 = if (Z.to_nat m <=? fuel)%nat then Some m else None) as Hfind.
  { intros n Hn Hs. destruct (least_solution salt d n) as (m & Hm & Hms & Hl); [lia|done|]. exists m. split_and!; try (done || lia).
    intros fuel. destruct (Nat.leb_spec (Z.to_nat m) fuel).
    - apply search_least; (done || lia).
    - apply search_none; try lia. intros k Hk. apply Hl. lia. }
  split; [|done]. split.
  - intros (fuel & n & [Hs Hr]%search_sound); [by exists n|lia].
  - intros (n & Hn & Hs). destruct (Hfind n Hn Hs) as (m & Hm & _ & _ & Hf). exists (Z.to_nat m), m.
    by rewrite Hf, Nat.leb_refl.
Qed.
End search.

(** ** The server's side of the handshake *)

Section server.
Context {B : Base64} {BL : Base64Laws B} {H : Hmac} {HL : HmacLaws H} {C : Subtle} {CL : SubtleLaws C}
  {S : Sha256} {E : Ecdsa} {EL : EcdsaLaws E} {CB : CryptoBackend} {JT : JsonText}
  {JO : JsonObject} {JC : Json Clearance.Clearance} {JCL : JsonLaws Clearance.Clearance}
  {JG : Json Nojs.Grant} {JP : Json Pow.Tuple} {JS : Json Submission} {JSL : JsonLaws Submission}
  {JN : Json (Pow.Challenge * Z)} {A : Assets} {N : Nginx} {NL : NginxLaws N}.

(** A request of the client: [base] is what its connection and [ureq] put into every one. *)
Definition visit (base : Request) (method uri : bytes) (extra : list (bytes * bytes)) (body : option bytes) : Request :=
  mkRequest method uri [] uri (server base) (headers_in base ++ extra) (sockaddr base)
    (match body with Some b => Z.of_nat (length b) | None => -1 end)
    (match body with Some b => Some [Some (Memory (Some b))] | None => None end).
(** nginx sends headers and bodies, and reads a request body. *)
Definition delivers : Prop :=
  forall rq, send_header rq = NGX_OK /\ header_only rq = false /\ read_client_request_body rq < NGX_HTTP_SPECIAL_RESPONSE.
Definition response_text (x : Response) : bytes := match r_body x with Some (b, _) => b | None => [] end.
Definition successful (x : Response) : bool := (200 <=? r_status x) && (r_status x <? 300).
(** [res.header("set-cookie")]: the first one, names compared without case. *)
Definition cookie_header_of (x : Response) : option bytes :=
  '(_, v) <-? List.find (fun kv => cookie_name kv.1) (r_headers x); Some v.
(** A worker serves a request at a path: the access handler, and the callback once the body
    is there; then what [ureq] hands to the client. *)
Definition serve (l : Location) (base : Request) (w : Worker) (method path : bytes) (extra : list (bytes * bytes))
  (body : option bytes) : option Answer :=
  let r := visit base method path extra body in
  let '(_, (rq, w)) := pow_gate_access (Some l) r (new_request 1, w) in
  let rq := match waiting rq with
            | Some VerifyBody => (verify_body (Some l) r (rq, w)).2.1
            | _ => rq
            end in
  x <-? head (responses rq);
  if successful x then Some (mkAnswer (response_text x) (cookie_header_of x)) else None.
(** The way to the site: [base_url] names its root, and [who] says which worker, in which
    state, serves a request by method and path. *)
Definition transport (base_url : bytes) (l : Location) (base : Request) (who : bytes -> bytes -> Worker) : Transport :=
  fun method url extra body =>
    path <-? strip_prefix base_url url; serve l base (who method path) method path extra body.

(** *** Headers *)

Definition absent (names : list bytes) (base : Request) : Prop :=
  Forall (fun kv => forallb (fun n => negb (eq_ignore_ascii_case kv.1 n)) names = true) (headers_in base).
Lemma find_absent names base n extra :
  absent names base -> n ∈ names ->
  List.find (fun kv => eq_ignore_ascii_case kv.1 n) (headers_in base ++ extra)
  = List.find (fun kv : bytes * bytes => eq_ignore_ascii_case kv.1 n) extra.
Proof.
  unfold absent. intros Ha Hn. induction Ha as [|kv hs Hkv _ IH]; [done|]. cbn [app List.find].
  apply forallb_Forall in Hkv. rewrite Forall_forall in Hkv. apply Hkv, negb_true_iff in Hn as Hf. by rewrite Hf.
Qed.
Lemma find_other base n extra :
  List.find (fun kv : bytes * bytes => eq_ignore_ascii_case kv.1 n) extra = None ->
  List.find (fun kv => eq_ignore_ascii_case kv.1 n) (headers_in base ++ extra)
  = List.find (fun kv : bytes * bytes => eq_ignore_ascii_case kv.1 n) (headers_in base).
Proof. intros He. induction (headers_in base) as [|kv hs IH]; [done|]. cbn [app List.find]. by case_match. Qed.
Lemma visit_context base m u extra body cfg i :
  List.find (fun kv : bytes * bytes => eq_ignore_ascii_case kv.1 (bs "user-agent")) extra = None ->
  client_context (visit base m u extra body) cfg i = client_context base cfg i.
Proof.
  intros He. unfold client_context, header, client_ip. cbn [visit headers_in sockaddr server]. by rewrite find_other.
Qed.

(** *** Routing to the two endpoints *)

Definition arrived (l : Location) (rq : Rq) : Rq :=
  let rq := record_in (bs "challenge") (bs "no_clearance") (match required_assurance l with Pow n => n | NoJs _ => 0 end) rq in
  with_headers (uncached (headers_out rq)) rq.
Lemma arrived_unanswered l n : unanswered (arrived l (new_request n)).
Proof.
  unfold arrived. set (rq := record_in _ _ _ _).
  assert (headers_out rq = [] /\ responses rq = []) as [Eh Er] by (split; apply record_in_fields).
  split; cbn [headers_out responses with_headers]; [|done]. rewrite Eh. by repeat constructor.
Qed.
Lemma access_endpoint l r rq w suffix (m : M Z) :
  Runtime.enabled (lc l) = true -> internal (resolve l) r = Some suffix ->
  (forall s, route_internal r (resolve l) suffix (required_assurance l) (nojs_page_cache (lc l)) s
             = (no_store ;~ rc <~ m; ret (Some rc)) s) ->
  pow_gate_access (Some l) r (rq, w) = m (arrived l rq, w).
Proof.
  intros He Hi Hr. unfold pow_gate_access, internal in *. rewrite He. change (negb true) with false. cbv iota zeta.
  unfold bind at 1. cbn [record put_rq fst snd]. rewrite Hi.
  change (assurance_for (Decision.parse (eval_complex_value (decision l))) (resolve l)) with (required_assurance l).
  unfold bind at 1. rewrite Hr. unfold bind at 1. rewrite no_store_eq. unfold arrived. unfold bind, ret.
  by destruct (m _) as [rc s].
Qed.
Lemma access_challenge l r rq w :
  Runtime.enabled (lc l) = true -> internal (resolve l) r = Some (bs "challenge") -> method_name r = bs "GET" ->
  pow_gate_access (Some l) r (rq, w) = issue_challenge r (resolve l) (required_assurance l) (arrived l rq, w).
Proof. intros He Hi Hm. apply (access_endpoint l r rq w (bs "challenge")); [done|done|]. intros s. unfold route_internal. by rewrite Hm. Qed.
Lemma access_verify l r rq w :
  Runtime.enabled (lc l) = true -> internal (resolve l) r = Some (bs "verify") -> method_name r = bs "POST" ->
  pow_gate_access (Some l) r (rq, w) = verify_solution r (arrived l rq, w).
Proof. intros He Hi Hm. apply (access_endpoint l r rq w (bs "verify")); [done|done|]. intros s. unfold route_internal. by rewrite Hm. Qed.

(** *** What the endpoints do *)

Lemma send_finish_text st ct body hs rq w :
  delivers -> responses rq = [] ->
  exists rq' x, send_and_finish_with_headers st ct body hs (rq, w) = (NGX_DONE, (rq', w))
    /\ responses rq' = [x] /\ waiting rq' = waiting rq /\ r_status x = st /\ response_text x = body.
Proof.
  intros Hd Er. unfold send_and_finish_with_headers, send_with_headers, bind. rewrite send_body_eq. cbv zeta.
  assert (responses (prepared st ct body hs rq) = [] /\ waiting (prepared st ct body hs rq) = waiting rq
          /\ status_out (prepared st ct body hs rq) = st) as (E2 & <- & E4).
  { unfold prepared, typed. destruct (find_str _ ct); simpl; by rewrite Er. }
  set (r1 := prepared st ct body hs rq) in *. clearbody r1. destruct (Hd r1) as (Hs & Ho & _). rewrite Hs, Ho. cbn [negb orb].
  change (negb (NGX_OK =? NGX_OK)) with false. cbn [orb].
  destruct (beq body []) eqn:Eb; cbn [finalize_request put_rq fst snd ret].
  - apply beq_true in Eb as ->. eexists _, (response_of None r1). split; [reflexivity|]. simpl. by rewrite E2.
  - eexists _, (response_of (Some (body, true)) r1). split; [reflexivity|]. simpl. by rewrite E2.
Qed.
(** The challenge a worker issues now. *)
Definition issued_now (l : Location) (w : Worker) (pk ctx : bytes) (d : Z) : Pow.Challenge :=
  Pow.issue (entropy w (draws w)) (Runtime.key (resolve l)) pk ctx d (clock w (ticks w)) CHALLENGE_GRACE.
Lemma issue_challenge_eq l r rq w pk ctx d :
  key_ok (resolve l) = true -> cluster w = None -> delivers -> responses rq = [] ->
  header_limited r (bs "x-pow-key") 87 = Some (b64url pk) -> length (b64url pk) = 87%nat -> valid_public_key pk = true ->
  client_context r (resolve l) (worker_issuer w) = Some ctx ->
  exists rq' w' x, issue_challenge r (resolve l) (Pow d) (rq, w) = (NGX_DONE, (rq', w')) /\ responses rq' = [x]
    /\ waiting rq' = waiting rq /\ r_status x = OK /\ response_text x = to_vec (issued_now l w pk ctx d, clock w (Datatypes.S (ticks w))).
Proof.
  intros Hk Hcl Hd Hr Hh Hlen Hv Hc. unfold issue_challenge. unfold bind at 1, get_worker. cbn [fst snd].
  assert (cluster_down w = false) as -> by (unfold cluster_down; by rewrite Hcl). rewrite Hk. cbn [negb orb].
  unfold bind at 1. cbn [record put_rq fst snd]. rewrite Hh. cbv beta iota. rewrite Hlen, Nat.eqb_refl, unb64url_b64url.
  cbv beta iota. rewrite Hv. unfold get_context, bind at 1 2, get_worker, ret at 1. cbn [fst snd].
  rewrite Hc. unfold bind at 1, now, bind at 1, random. cbv zeta. unfold bind at 1. cbn [record put_rq fst snd].
  unfold bind at 1, now. cbn [fst snd].
  match goal with |- context [send_and_finish_with_headers _ _ _ _ (?rq1, ?w1)] => set (rq2 := rq1); set (w2 := w1) end.
  assert (responses rq2 = [] /\ waiting rq2 = waiting rq) as [Hr2 <-].
  { subst rq2. destruct (record_in_fields (bs "issued") (bs "pow") d (record_in (bs "rejected") (bs "invalid_key") 0 rq)) as (_ & -> & _ & _ & ->).
    destruct (record_in_fields (bs "rejected") (bs "invalid_key") 0 rq) as (_ & -> & _ & _ & ->). done. }
  destruct (send_finish_text OK (bs "application/json")
    (to_vec (issued_now l w pk ctx d, clock w (Datatypes.S (ticks w)))) [no_store_header] rq2 w2 Hd Hr2) as (rq' & x & Es & E1 & Ew & E2 & E3).
  exists rq', w2, x. split_and!; [exact Es|done..].
Qed.
Lemma verify_solution_waits r rq w :
  delivers -> content_length_n r <= VERIFY_LIMIT ->
  exists rq', verify_solution r (rq, w) = (NGX_DONE, (rq', w)) /\ headers_out rq' = headers_out rq
    /\ responses rq' = responses rq /\ waiting rq' = Some VerifyBody.
Proof.
  intros Hd Hl. unfold verify_solution. unfold bind at 1. cbn [record put_rq fst snd].
  rewrite (proj2 (Z.ltb_ge _ _)) by done. unfold bind at 1, get_rq. cbn [fst snd].
  destruct (record_in_fields (bs "rejected") (bs "invalid_submission") 0 rq) as (F1 & F2 & _).
  set (rq1 := record_in _ _ _ rq) in *. clearbody rq1.
  assert (exists rq2, enable rq1 = (true, rq2) /\ headers_out rq2 = headers_out rq1 /\ responses rq2 = responses rq1)
    as (rq2 & -> & G1 & G2) by (unfold enable, state; destruct (ctx rq1); eexists; by split_and!).
  unfold bind, put_rq, finalize_request, put_rq, ret. cbn [fst snd negb].
  destruct (Hd rq2) as (_ & _ & Hb). rewrite (proj2 (Z.leb_gt _ _)) by done.
  eexists. split; [reflexivity|]. simpl. rewrite G1, G2, F1, F2. done.
Qed.
Lemma cookie_header_found x v0 :
  named (r_headers x) -> (forall v, set_cookie v x <-> v = v0) -> cookie_header_of x = Some v0.
Proof.
  unfold named, cookie_header_of. intros Hn Hv. destruct (List.find _ (r_headers x)) as [[k v]|] eqn:Ef.
  - apply find_some in Ef as [Hin%list_elem_of_In Hk]. rewrite Forall_forall in Hn.
    pose proof (Hn _ Hin Hk) as Hkk. simpl in Hkk. subst k. f_equal. by apply Hv.
  - exfalso. pose proof (proj2 (Hv v0) eq_refl) as Hin. unfold set_cookie in Hin. apply list_elem_of_In in Hin.
    by pose proof (find_none _ _ Ef _ Hin).
Qed.
Lemma token_chars key raw : forallb value_char (token_of key raw) = true.
Proof.
  assert (forall c, implb (b64_char c) (value_char c) = true) as Hc by (byte_all (fun c => implb (b64_char c) (value_char c))).
  assert (forall b, forallb value_char (b64url b) = true) as Hb.
  { intros b. apply forallb_Forall. eapply Forall_impl; [apply b64_encode_alphabet|]. intros c Hx. specialize (Hc c).
    simpl in Hx. by rewrite Hx in Hc. }
  unfold token_of. rewrite forallb_app. cbn [forallb]. by rewrite !Hb.
Qed.
End server.

(** ** The handshake *)

Section handshake.
Context {B : Base64} {BL : Base64Laws B} {H : Hmac} {HL : HmacLaws H} {C : Subtle} {CL : SubtleLaws C}
  {S : Sha256} {E : Ecdsa} {EL : EcdsaLaws E} {G : Signer E} {GL : SignerLaws G} {CB : CryptoBackend} {JT : JsonText}
  {JO : JsonObject} {JC : Json Clearance.Clearance} {JCL : JsonLaws Clearance.Clearance}
  {JG : Json Nojs.Grant} {JP : Json Pow.Tuple} {JS : Json Submission} {JSL : JsonLaws Submission}
  {JN : Json (Pow.Challenge * Z)} {R : ClientJson} {RL : ClientJsonLaws R JN} {A : Assets} {N : Nginx} {NL : NginxLaws N}.

(** A client with key [sk] behind one address and user agent; a location that keeps the
    default endpoint, with a policy that asks for a proof of work of difficulty [d]; and the
    workers that see its three requests: the challenge at [t1], the solution at [t2], a page
    at [t3].  They share a ledger and have no cluster; the ledger, as the second of them finds
    it, has not spent the token of the challenge and has a free slot for it. *)
Record scenario (l : Location) (base : Request) (sk : SigningKey) (w1 w2 w3 : Worker) (ctx : bytes) (d n : Z) (page : bytes)
  : Prop := mkScenario {
  sc_on : Runtime.enabled (lc l) = true;
  sc_key : key_ok (resolve l) = true;
  sc_endpoint : cfg_endpoint (resolve l) = bs "/.pow/";
  sc_policy : required_assurance l = Pow d;
  sc_deny : Decision.parse (eval_complex_value (decision l)) <> Deny;
  sc_difficulty : 0 < d /\ in_u64 d = true;
  sc_cookie : clean (cookie_config (resolve l));
  sc_base : absent (map bs ["cookie"; "x-pow-key"; "x-pow-proof"; "sec-fetch-dest"]%string) base;
  sc_context : Forall (fun w => client_context base (resolve l) (worker_issuer w) = Some ctx) [w1; w2; w3];
  sc_local : cluster w1 = None /\ cluster w2 = None;
  sc_times : let t1 := clock w1 (ticks w1) in let t2 := clock w2 (ticks w2) in let t3 := clock w3 (ticks w3) in
    let ttl := clearance_ttl (lc l) in
    in_i64 (t1 + CHALLENGE_GRACE) = true /\ in_i64 (clock w1 (Datatypes.S (ticks w1))) = true /\ t2 < t1 + CHALLENGE_GRACE /\ in_i64 t2 = true /\ in_i64 t3 = true
    /\ in_i64 ttl = true /\ in_i64 (t2 + ttl) = true /\ t2 <= t3 < t2 + ttl;
  sc_ledger : exists st, zone w2 = Some st /\ ledger_inv st /\
    let now := Z.max (clock w2 (Datatypes.S (ticks w2))) (last_now st) in
    let id := Redemption.id (Pow.token (issued_now l w1 (public_bytes sk) ctx d)) in
    now < clock w1 (ticks w1) + CHALLENGE_GRACE /\ (forall x, ~ spent (entries st) now id x) /\ room (entries st) id now;
  sc_solvable : 0 <= n < 2 ^ 64 /\ solution_valid (hex (entropy w1 (draws w1))) n d = true;
  sc_body : forall nonce, 0 <= nonce <= n ->
    Z.of_nat (length (to_vec (submission sk (of_server (issued_now l w1 (public_bytes sk) ctx d)) nonce))) <= VERIFY_LIMIT;
  sc_token : (length (earned l w2 (public_bytes sk) ctx d) <= 4096)%nat;
  sc_page : strip_prefix (bs "/.pow/") page = None;
}.
Lemma public_valid sk : valid_public_key (public_bytes sk) = true /\ length (b64url (public_bytes sk)) = 87%nat.
Proof.
  unfold valid_public_key, public_bytes. rewrite vk_uncompressed_length, uncompressed_tag, vk_uncompressed_roundtrip.
  split; [done|]. unfold b64url. rewrite b64_encode_length, vk_uncompressed_length. done.
Qed.
Lemma signed_valid sk m : verify_signature (public_bytes sk) m (sig_to_bytes (sign sk m)) = true.
Proof.
  rewrite verify_signature_eq. unfold verify_signature_portable, public_bytes.
  by rewrite vk_uncompressed_roundtrip, sign_bytes, sign_verifies.
Qed.
Lemma visit_internal l base m extra body suffix :
  cfg_endpoint (resolve l) = bs "/.pow/" ->
  internal (resolve l) (visit base m (bs "/.pow/" ++ suffix) extra body) = Some suffix.
Proof. intros He. unfold internal. rewrite He. cbn [visit uri]. by apply strip_prefix_Some. Qed.
(** The header of [send_json]. *)
Definition json_header : list (bytes * bytes) := [(bs "Content-Type", bs "application/json")].
Lemma serve_challenge l base sk w1 w2 w3 ctx d n page :
  delivers -> scenario l base sk w1 w2 w3 ctx d n page ->
  exists cookie, serve l base w1 (bs "GET") (bs "/.pow/challenge") [(bs "X-Pow-Key", b64url (public_bytes sk))] None
  = Some (mkAnswer (to_vec (issued_now l w1 (public_bytes sk) ctx d, clock w1 (Datatypes.S (ticks w1)))) cookie).
Proof.
  intros Hd [? ? ? ? ? ? ? Hb Hctx [Hcl _] ? ? ? ? ? ?]. unfold serve. cbv zeta.
  set (r := visit _ _ _ _ _). rewrite (access_challenge l r); [|done|by apply visit_internal|done].
  rewrite sc_policy0. destruct (public_valid sk) as [Hv Hlen].
  destruct (issue_challenge_eq l r (arrived l (new_request 1)) w1 (public_bytes sk) ctx d) as (rq' & w' & x & -> & E1 & Ew & E2 & E3); try done.
  - unfold header_limited. cbn [r visit headers_in].
    rewrite (find_absent (map bs ["cookie"; "x-pow-key"; "x-pow-proof"; "sec-fetch-dest"]%string)); [|done|set_solver].
    cbn [List.find fst]. change (eq_ignore_ascii_case (bs "X-Pow-Key") (bs "x-pow-key")) with true. cbv iota.
    rewrite Hlen. change (87 <? 87)%nat with false. cbv iota. by rewrite b64url_utf8.
  - subst r. rewrite visit_context by done. by apply Forall_inv in Hctx.
  - assert (waiting rq' = None) as ->.
    { rewrite Ew. destruct (record_in_fields (bs "challenge") (bs "no_clearance")
        (match required_assurance l with Pow n => n | NoJs _ => 0 end) (new_request 1)) as (_ & _ & _ & _ & Ewt). exact Ewt. }
    rewrite E1. simpl. unfold successful. rewrite E2, E3. by eexists.
Qed.
Lemma submission_checked l base sk w1 w2 w3 ctx d n page nonce :
  scenario l base sk w1 w2 w3 ctx d n page ->
  let c := issued_now l w1 (public_bytes sk) ctx d in
  let sub := submission sk (of_server c) nonce in
  solution_valid (Pow.salt c) nonce d = true -> 0 <= nonce <= n ->
  checked l (visit base (bs "POST") (bs "/.pow/verify") json_header (Some (to_vec sub))) w2 sub
    (public_bytes sk) ctx d.
Proof.
  intros [? ? ? Hpol ? [Hd Hdu] ? ? Hctx ? (T1 & _ & T2 & _) ? [Hnr _] Hbody ? ?] c sub Hsol Hnn.
  assert (in_u64 nonce = true) as Hn by (apply in_u64_iff; lia).
  destruct (public_valid sk) as [Hv Hlen]. split; try done.
  - exists (to_vec sub). split.
    + unfold request_body_limited. cbn [visit request_body_bufs collect_bufs].
      destruct (Nat.ltb_spec 0 (length (to_vec sub))) as [Hl|Hl].
      * rewrite (proj2 (Z.ltb_ge _ _)); [done|]. specialize (Hbody nonce Hnn). fold c sub in Hbody. cbn [length]. lia.
      * by destruct (to_vec sub); [|simpl in Hl; lia].
    + apply json_roundtrip. unfold rust_ok, submission_val, sub, submission, of_server, c, issued_now, Pow.issue.
      cbn [ch_version ch_salt ch_exp ch_token ch_difficulty sub_version sub_signature sub_salt sub_exp sub_token sub_nonce
           sub_pubkey sub_difficulty Pow.version Pow.salt Pow.exp Pow.token Pow.difficulty].
      rewrite i64_add_id by exact T1. rewrite !b64_encode_utf8, hex_utf8, ?b64url_utf8, T1, Hn, Hdu. done.
  - split; [|done]. apply unb64url_b64url.
  - rewrite visit_context by done. by apply Forall_inv_tail, Forall_inv in Hctx.
  - change (claimed sub) with c. change (sub_nonce sub) with nonce. rewrite verify_solution_eq, bool_decide_eq_true_2.
    + change (Pow.exp c) with (i64_add (clock w1 (ticks w1)) CHALLENGE_GRACE). rewrite i64_add_id by exact T1.
      rewrite (proj2 (Z.leb_gt _ _)) by done. change (Pow.difficulty c) with d. by rewrite Hsol.
    + split_and!; [done|simpl; lia|done|apply issue_authentic].
  - eexists. split; [apply unb64url_b64url|]. apply signed_valid.
Qed.
Lemma serve_solution l base sk w1 w2 w3 ctx d n page nonce :
  delivers -> scenario l base sk w1 w2 w3 ctx d n page ->
  let c := issued_now l w1 (public_bytes sk) ctx d in
  solution_valid (Pow.salt c) nonce d = true -> 0 <= nonce <= n ->
  exists text, serve l base w2 (bs "POST") (bs "/.pow/verify") json_header (Some (to_vec (submission sk (of_server c) nonce)))
  = Some (mkAnswer text (Some (build_set_cookie (earned l w2 (public_bytes sk) ctx d) (cookie_config (resolve l))))).
Proof.
  intros Hd Hsc c Hsol Hn. pose proof (submission_checked _ _ _ _ _ _ _ _ _ _ nonce Hsc Hsol Hn) as Hck. fold c in Hck.
  pose proof Hsc as [? ? ? ? ? ? ? ? ? (_ & Hcl) (T1 & _) (st & Hz & Hinv & Hnow & Hno & Hroom) ? Hbody ? ?].
  specialize (Hbody nonce Hn). fold c in Hbody, Hno, Hroom.
  assert ((Ledger.consume (clock w2 (Datatypes.S (ticks w2))) (zone w2) (Pow.token c) (Pow.exp c)).1 = Accepted) as Hun.
  { rewrite Hz. apply consume_accepts; [done| |done|done].
    change (Pow.exp c) with (i64_add (clock w1 (ticks w1)) CHALLENGE_GRACE). by rewrite i64_add_id by exact T1. }
  unfold serve. cbv zeta. set (sub := submission sk (of_server c) nonce) in *. set (r := visit _ _ _ _ _) in *.
  rewrite (access_verify l r); [|done|by apply visit_internal|done].
  destruct (verify_solution_waits r (arrived l (new_request 1)) w2) as (rq & -> & G1 & G2 & ->); [done|exact Hbody|].
  destruct (arrived_unanswered l 1) as [U1 U2].
  destruct (verify_body_local l r rq w2 st) as (rq' & w' & x & -> & E1 & _ & En & Est & Ev);
    [split; [by rewrite G1|congruence]|done|done|]. cbn [snd fst]. rewrite E1. cbn [head].
  assert (forall v, set_cookie v x <-> v = build_set_cookie (earned l w2 (public_bytes sk) ctx d) (cookie_config (resolve l))) as Hv.
  { intros v. rewrite Ev. split.
    - intros (sub' & pk' & ctx' & d' & Hck' & _ & ->). apply submission_of_Some in Hck, Hck'. rewrite Hck in Hck'.
      by injection Hck' as <- <- <- <-.
    - intros ->. by exists sub, (public_bytes sk), ctx, d. }
  exists (response_text x). unfold successful. rewrite (Est _ (proj2 (Hv _) eq_refl)). cbn.
  by rewrite (cookie_header_found x _ En Hv).
Qed.
Lemma issued_now_ok l base sk w1 w2 w3 ctx d n page :
  scenario l base sk w1 w2 w3 ctx d n page ->
  rust_ok (issued_now l w1 (public_bytes sk) ctx d, clock w1 (Datatypes.S (ticks w1))) = true.
Proof.
  intros [? ? ? ? ? [_ Hdu] ? ? ? ? (T1 & T2 & _) ? ? ? ? ?]. unfold rust_ok, sent_challenge_val, issued_now, Pow.issue.
  cbn [Pow.version Pow.salt Pow.exp Pow.difficulty Pow.token]. rewrite i64_add_id by exact T1.
  by rewrite hex_utf8, b64url_utf8, T1, T2, Hdu.
Qed.
(** The header of [proof_header] reads back as the signature and the time. *)
Lemma proof_header_parse ts id m path :
  in_i64 ts = true ->
  parse_proof (proof_header ts id m path)
  = Some (sig_to_bytes (sign (signing id) (message m path ts)), ts).
Proof.
  intros Ht. unfold parse_proof, proof_header. cbv zeta. fold (message m path ts).
  set (sig := sig_to_bytes _).
  assert (rsplit_once "." (b64_encode sig ++ bs "." ++ show_i ts) = Some (b64_encode sig, show_i ts)) as ->.
  { apply rsplit_once_Some. split; [done|]. by apply show_i_no_byte. }
  rewrite unb64url_fixed_eq, unb64url_b64url. cbv beta iota. subst sig. rewrite sign_length, Nat.eqb_refl.
  by rewrite parse_i_show.
Qed.
Lemma show_i_ascii z : is_ascii (show_i z) = true.
Proof.
  apply is_ascii_Forall, Forall_forall. intros c Hc. destruct (decide (u8 c < 128)); [done|]. exfalso. revert Hc.
  apply show_i_no_byte; [|by intros ->]. unfold is_ascii_digit. rewrite (proj2 (Z.leb_gt (u8 c) 57)) by lia.
  apply andb_false_r.
Qed.
Lemma proof_header_ascii ts id m path : utf8_valid (proof_header ts id m path) = true.
Proof.
  apply utf8_valid_ascii. unfold proof_header. cbv zeta. rewrite !is_ascii_app, b64_encode_ascii. cbn [andb].
  by apply show_i_ascii.
Qed.
Lemma proof_header_accepted r cfg t ts id path vc :
  header r (bs "x-pow-proof") = Some (proof_header ts id (bs "GET") path) -> method_and_path r = (bs "GET", path) ->
  public_key vc = public_bytes (signing id) -> in_i64 ts = true ->
  in_i64 (cfg_proof_skew cfg) = true -> Z.abs (t - ts) <= cfg_proof_skew cfg ->
  (proof_accepted r cfg t vc).1 = true.
Proof.
  intros Hh Hm Hpk Hts Hs Ha. unfold proof_accepted. rewrite Hh, proof_header_parse, Hm, Hpk by done.
  rewrite check_eq by done. rewrite !bool_decide_eq_true_2 by lia. by rewrite signed_valid.
Qed.
(** The page request of a client that holds the cookie. *)
Lemma page_passes l base sk w1 w2 w3 ctx d n page nonce extra rq :
  scenario l base sk w1 w2 w3 ctx d n page ->
  let c := issued_now l w1 (public_bytes sk) ctx d in
  solution_valid (Pow.salt c) nonce d = true -> 0 <= nonce <= n ->
  let r := visit base (bs "GET") page
             ((bs "Cookie", pair_text (name (cookie_config (resolve l)), earned l w2 (public_bytes sk) ctx d)) :: extra) None in
  List.find (fun kv : bytes * bytes => eq_ignore_ascii_case kv.1 (bs "user-agent")) extra = None ->
  (forall vc, public_key vc = public_bytes sk -> (proof_accepted r (resolve l) (clock w3 (ticks w3)) vc).1 = true) ->
  (pow_gate_access (Some l) r (rq, w3)).1 = NGX_DECLINED.
Proof.
  intros Hsc c Hsol Hn r Hua Hproof. pose proof (submission_checked _ _ _ _ _ _ _ _ _ _ nonce Hsc Hsol Hn) as Hck. fold c in Hck.
  destruct Hsc as [? ? ? Hpol ? [Hd Hdu] Hclean Hbase Hctx ? (T1 & _ & T2 & T3 & T4 & T5 & T6 & T7) ? ? ? Hlen ?].
  assert (internal (resolve l) r = None) as Hint.
  { unfold internal. by rewrite sc_endpoint0. }
  rewrite access_passes by done. rewrite Hint. cbv zeta. right. right. right. split; [done|].
  apply clearance_check_valid; [done|done|]. eapply earned_cleared_proof; try done.
  - assert (earned l w2 (public_bytes sk) ctx d = token_of (Runtime.key (resolve l)) (to_vec
      (mkClearance 2 (b64url (public_bytes sk)) ctx (Pow d) (clock w2 (ticks w2))
        (i64_add (clock w2 (ticks w2)) (cfg_clearance_ttl (resolve l)))))) as Etok by apply issue_token_of.
    eapply (cookie_found _ _ r [] [] (headers_in base) extra (bs "Cookie")); try done.
    + unfold pair_ok. cbn [fst snd]. rewrite Etok, token_chars. by rewrite (proj2 (proj2 (proj2 Hclean))).
    + unfold absent in Hbase. eapply Forall_impl; [exact Hbase|]. intros kv Hkv. apply forallb_Forall in Hkv.
      rewrite Forall_forall in Hkv. apply negb_true_iff, Hkv. set_solver.
  - subst r. rewrite visit_context; [by do 2 apply Forall_inv_tail in Hctx; apply Forall_inv in Hctx|done].
  - rewrite Hpol. simpl. rewrite Z.leb_refl, andb_true_r. by apply Z.ltb_lt.
Qed.

(** C6: The client of the repository gets through.  Take a site that keeps the default
    endpoint [/.pow/], where the client asks, a policy that wants a proof of work, and
    workers without a cluster that share a ledger.  When some 64-bit nonce solves the
    challenge it is given, a client that does the handshake (key in the header, search,
    signed solution, cookie kept up to the first semicolon) ends with an identity, whichever
    workers serve its steps, provided the solution arrives within the life of the challenge
    and the ledger has a free slot for its token, which was not redeemed before; and until
    the clearance expires its requests for any page outside the endpoint prefix are handed
    on, with the cookie alone and with the cookie and the request proof it signs, when its
    clock is within the allowed skew. *)
Theorem handshake_opens_the_gate base_url l base sk who w3 ctx d n page ts rq :
  let w1 := who (bs "GET") (bs "/.pow/challenge") in let w2 := who (bs "POST") (bs "/.pow/verify") in
  delivers -> scenario l base sk w1 w2 w3 ctx d n page ->
  in_i64 ts = true -> in_i64 (proof_skew (lc l)) = true -> Z.abs (clock w3 (ticks w3) - ts) <= proof_skew (lc l) ->
  exists id, signing id = sk
    /\ (forall fuel, n <= Z.of_nat fuel -> handshake fuel base_url sk (transport base_url l base who) = Some id)
    /\ (pow_gate_access (Some l) (visit base (bs "GET") page [(bs "Cookie", id_cookie id)] None) (rq, w3)).1 = NGX_DECLINED
    /\ (pow_gate_access (Some l) (visit base (bs "GET") page
          [(bs "Cookie", id_cookie id); (bs "X-Pow-Proof", proof_header ts id (bs "GET") page)] None) (rq, w3)).1 = NGX_DECLINED.
Proof.
  intros w1 w2 Hdel Hsc Hts Hskew Habs. destruct (sc_solvable _ _ _ _ _ _ _ _ _ _ Hsc) as [Hn Hs].
  set (c := issued_now l w1 (public_bytes sk) ctx d). set (tok := earned l w2 (public_bytes sk) ctx d).
  destruct (least_solution (Pow.salt c) d n) as (m & Hm & Hms & Hleast); [lia|exact Hs|].
  set (id := mkIdentity (pair_text (name (cookie_config (resolve l)), tok)) sk). exists id. split; [done|].
  assert (Forall (fun kv => forallb (fun x => negb (eq_ignore_ascii_case kv.1 x))
    (map bs ["cookie"; "x-pow-key"; "x-pow-proof"; "sec-fetch-dest"]%string) = true) (headers_in base)) as Hbase by apply Hsc.
  split_and!.
  - intros fuel Hf. unfold handshake, transport. rewrite !(proj2 (strip_prefix_Some base_url _ _) eq_refl). fold w1 w2.
    change (b64_encode (public_bytes sk)) with (b64url (public_bytes sk)). fold json_header.
    destruct (serve_challenge l base sk w1 w2 w3 ctx d n page Hdel Hsc) as (cookie & ->). cbn [a_text].
    fold c. rewrite (read_challenge_sent c) by (by eapply issued_now_ok). change (ch_salt (of_server c)) with (Pow.salt c). change (ch_difficulty (of_server c)) with d.
    rewrite (search_least fuel (Pow.salt c) d 0 m); [|lia|lia|done|done|lia].
    destruct (serve_solution l base sk w1 w2 w3 ctx d n page m Hdel Hsc Hms Hm) as (text & Hpost). fold c in Hpost.
    rewrite Hpost. cbn [a_set_cookie]. f_equal. unfold id. f_equal. unfold cookie_of.
    rewrite set_cookie_parts; [done|apply Hsc|]. unfold earned. rewrite issue_token_of. apply token_chars.
  - apply (page_passes l base sk w1 w2 w3 ctx d n page m []); try done. intros vc _. unfold proof_accepted, can_carry_proof, header.
    cbn [visit headers_in]. rewrite !(find_absent (map bs ["cookie"; "x-pow-key"; "x-pow-proof"; "sec-fetch-dest"]%string));
      [|done|set_solver|done|set_solver]. cbn. by rewrite orb_true_r.
  - apply (page_passes l base sk w1 w2 w3 ctx d n page m [(bs "X-Pow-Proof", proof_header ts id (bs "GET") page)]); try done.
    intros vc Hvc. eapply (proof_header_accepted _ _ _ ts id page); try done. unfold header. cbn [visit headers_in].
    rewrite (find_absent (map bs ["cookie"; "x-pow-key"; "x-pow-proof"; "sec-fetch-dest"]%string)); [|done|set_solver].
    cbn [List.find fst]. change (eq_ignore_ascii_case (bs "Cookie") (bs "x-pow-proof")) with false.
    change (eq_ignore_ascii_case (bs "X-Pow-Proof") (bs "x-pow-proof")) with true. cbv iota.
    by rewrite from_utf8_lossy_id by apply proof_header_ascii.
Qed.
End handshake.

(** ** Witness *)

#[local] Instance std_signer : Signer std_ecdsa := {|
  SigningKey := sig (fun k : bytes => bool_decide (length k = 65%nat /\ head k = Some Byte.x04) = true);
  verifying_key sk := (`sk) ↾ (bool_decide_eq_true_2 (length (`sk) = 65%nat)
                                (proj1 (bool_decide_eq_true_1 _ (proj2_sig sk))));
  sign sk m := std_sign (`sk) m;
  sig_to_bytes s := s;
|}.
#[local] Instance std_signer_laws : SignerLaws std_signer.
Proof.
  assert (forall k m, length (std_sign k m) = 64%nat) as Hl
    by (intros k m; unfold std_sign; by rewrite length_app, !checksum_length).
  split.
  - intros [k Hk] m. simpl. apply beq_refl.
  - intros [k Hk] m. unfold sig_from_slice, std_ecdsa, sig_to_bytes, sign, std_signer. cbn [proj1_sig]. by rewrite Hl.
  - intros [k Hk] m. apply Hl.
  - intros [k Hk]. simpl. by apply bool_decide_eq_true_1 in Hk as [_ ?].
Qed.
#[local] Existing Instance Gate.submission_fields.
#[local] Existing Instance Gate.demo_sub_json.
#[local] Existing Instance Gate.demo_sub_laws.
#[local] Existing Instance Gate.demo_tuple_json.
#[local] Existing Instance Clearance.demo_json.
#[local] Existing Instance Clearance.demo_json_laws.
#[local] Existing Instance Nojs.demo_json.
#[local] Existing Instance Gate.demo_object.
#[local] Existing Instance Gate.demo_backend.
#[local] Existing Instance Gate.demo_assets.
(** The challenge with the server's clock, field by field; the client skips the clock. *)
#[local] Instance demo_sent_json : Json (Pow.Challenge * Z) := {|
  to_vec c := concat (map std_quote [show_u (Pow.version c.1); Pow.salt c.1; show_i (Pow.exp c.1);
                                     show_u (Pow.difficulty c.1); Pow.token c.1; show_i c.2]);
  from_slice _ := None |}.
#[local] Instance demo_client_json : ClientJson := fun s =>
  l <-? unquote_all [] s;
  match l with
  | [v; salt; e; d; tok; _] =>
      v <-? parse_u 8 v; e <-? parse_i 64 e; d <-? parse_u 64 d; Some (mkClientChallenge v salt e d tok)
  | _ => None
  end.
#[local] Instance demo_client_laws : ClientJsonLaws demo_client_json demo_sent_json.
Proof.
  split. intros [v salt e d tok] now Hok. unfold rust_ok, sent_challenge_val in Hok. cbn in Hok. to_prop.
  unfold read_challenge, demo_client_json, to_vec, demo_sent_json. rewrite unquote_all_concat.
  cbn [fst snd Pow.version Pow.salt Pow.exp Pow.difficulty Pow.token]. cbv beta iota. by rewrite !parse_u_show, parse_i_show.
Qed.
Definition demo_sk : SigningKey := Clearance.demo_key ↾ eq_refl.
Definition demo_base : Request :=
  mkRequest [] [] [] [] (bs "example.org") [(bs "User-Agent", bs "ua"); (bs "Accept", bs "*/*")] demo_sockaddr 0 None.
Lemma demo_scenario :
  scenario (demo_loc "challenge") demo_base demo_sk (demo_worker 990) (demo_worker 1000) (demo_worker 4599) demo_ctx 2 1
    (bs "/page").
Proof.
  split.
  - reflexivity.
  - vm_compute. reflexivity.
  - vm_compute. reflexivity.
  - vm_compute. reflexivity.
  - vm_compute. discriminate.
  - by split.
  - unfold clean. split_and!; try (vm_compute; reflexivity); apply (bool_decide_eq_true_1 _); vm_compute; reflexivity.
  - repeat constructor.
  - repeat constructor; vm_compute; reflexivity.
  - by split.
  - cbv zeta. split_and!; vm_compute; (reflexivity || discriminate).
  - exists (Ledger.fresh (replicate 32 "i"%byte)). split; [reflexivity|]. split; [by apply wf_fresh|]. cbv zeta.
    destruct (empty_room (Z.to_nat CAPACITY)
      (Redemption.id (Pow.token (issued_now (demo_loc "challenge") (demo_worker 990) (public_bytes demo_sk) demo_ctx 2)))
      1001) as [Hno Hroom]; [lia|].
    split; [vm_compute; reflexivity|]. split; [exact Hno|]. apply Hroom. unfold CAPACITY. lia.
  - split; [done|]. vm_compute. reflexivity.
  - intros nonce Hn. apply Z.leb_le. assert (nonce = 0 \/ nonce = 1) as [-> | ->] by lia; vm_compute; reflexivity.
  - apply Nat.leb_le. vm_compute. reflexivity.
  - vm_compute. reflexivity.
Qed.
Definition demo_who (method _ : bytes) : Worker := demo_worker (if beq method (bs "GET") then 990 else 1000).
Lemma handshake_opens_the_gate_witness :
  let base_url := bs "http://localhost:8080" in
  exists id, signing id = demo_sk
    /\ handshake 1 base_url demo_sk (transport base_url (demo_loc "challenge") demo_base demo_who) = Some id
    /\ (pow_gate_access (Some (demo_loc "challenge")) (visit demo_base (bs "GET") (bs "/page")
          [(bs "Cookie", id_cookie id); (bs "X-Pow-Proof", proof_header 4570 id (bs "GET") (bs "/page"))] None)
          (new_request 3, demo_worker 4599)).1 = NGX_DECLINED.
Proof.
  intros base_url.
  destruct (handshake_opens_the_gate base_url (demo_loc "challenge") demo_base demo_sk demo_who
    (demo_worker 4599) demo_ctx 2 1 (bs "/page") 4570 (new_request 3)) as (id & H1 & H2 & _ & H4);
    [intros rq; split; [reflexivity|split; reflexivity]|apply demo_scenario|reflexivity|reflexivity|vm_compute; discriminate|].
  exists id. split; [exact H1|]. split; [|exact H4]. apply H2. vm_compute. discriminate.
Defined.
