(* ===== verification/LoadTool.v ===== *)
(** * The load tool: threads and statistics

    The second half of [perf/src/main.rs] ([Client] has the first): threads that send one
    request after another until a flag is set, and the figures made of their latencies.  What
    [one_request] returns is an argument, one result per round of a thread; doubles are the
    executable binary64 of the Standard Library. *)
From Stdlib Require Import ZArith Lia SpecFloat.
From stdpp Require Import base list option numbers sorting.
From S2P Require Import Prelude RustStr Crates Client.
Local Open Scope Z_scope.

(** ** binary64 *)

Definition f64 : Type := spec_float.
(** [n as f64] and [x as usize]: the cast back truncates and saturates. *)
Definition f64_of (n : Z) : f64 := binary_normalize 53 1024 n 0 false.
Definition usize_max : Z := 2 ^ 64 - 1.
Definition f64_as_usize (x : f64) : Z :=
  match x with
  | S754_finite false m e => Z.min usize_max (Z.shiftl (Zpos m) e)
  | S754_infinity false => usize_max
  | _ => 0
  end.
Definition f64_mul : f64 -> f64 -> f64 := SFmul 53 1024.
Definition f64_div : f64 -> f64 -> f64 := SFdiv 53 1024.
(** The literals 0.50, 0.95 and 0.99. *)
Definition P50 : f64 := S754_finite false 4503599627370496 (-53).
Definition P95 : f64 := S754_finite false 8556839292003942 (-53).
Definition P99 : f64 := S754_finite false 8917127262193582 (-53).

(** ** The threads *)

(** A round of a thread: what the flag reads, and what the request gives when it is sent (its
    microseconds, or a failure). *)
Definition Round : Type := bool * option Z.
Fixpoint thread_loop (rounds : list Round) (lats : list Z) (errors : Z) : list Z * Z :=
  match rounds with
  | [] => (lats, errors)
  | (stop, result) :: rounds' =>
      if stop then (lats, errors)
      else match result with
           | Some d => thread_loop rounds' (lats ++ [d]) errors
           | None => thread_loop rounds' lats (wrap_u 64 (errors + 1))
           end
  end.
Record Stats := mkStats {
  requests : Z; elapsed_secs : f64; errors : Z; rps : f64; p50 : Z; p95 : Z; p99 : Z; max : Z;
}.
Fixpoint collect (handles : list (list Z * Z)) (all : list Z) (errors : Z) : list Z * Z :=
  match handles with
  | [] => (all, errors)
  | (lats, e) :: handles' => collect handles' (all ++ lats) (wrap_u 64 (errors + e))
  end.
Definition pct (all : list Z) (p : f64) : Z :=
  let len := Z.of_nat (length all) in
  if len =? 0 then 0
  else default 0 (all !! Z.to_nat (Z.min (f64_as_usize (f64_mul (f64_of len) p)) (len - 1))).
Definition run_mode (threads : list (list Round)) (elapsed : f64) : Stats :=
  let '(all, errors) := collect (map (fun rounds => thread_loop rounds [] 0) threads) [] 0 in
  let all := merge_sort Z.le all in
  let len := Z.of_nat (length all) in
  mkStats len elapsed errors (f64_div (f64_of len) elapsed) (pct all P50) (pct all P95) (pct all P99)
    (default 0 (last all)).
(** The rows of a run, one per mode of the list, and the throughput of the last baseline. *)
Fixpoint run_modes (run : Mode -> Stats) (ms : list Mode) (baseline_rps : option f64)
  : list (bytes * Stats) * option f64 :=
  match ms with
  | [] => ([], baseline_rps)
  | m :: ms' =>
      let s := run m in
      let baseline_rps := match m with Baseline => Some (rps s) | _ => baseline_rps end in
      let '(rows, b) := run_modes run ms' baseline_rps in ((mode_name m, s) :: rows, b)
  end.
Definition number_or (default : Z) (s : bytes) : Z := match parse_u 64 s with Some n => n | None => default end.

(** ** Lemmas *)

(** The requests a thread sends: its rounds up to the first that finds the flag set. *)
Fixpoint sent_rounds (rounds : list Round) : list (option Z) :=
  match rounds with
  | (false, result) :: rounds' => result :: sent_rounds rounds'
  | _ => []
  end.
Definition latencies (results : list (option Z)) : list Z := omap id results.
Definition failures (results : list (option Z)) : Z := Z.of_nat (length results) - Z.of_nat (length (latencies results)).
Lemma wrap_wrap a b : wrap_u 64 (wrap_u 64 a + b) = wrap_u 64 (a + b).
Proof. unfold wrap_u. by rewrite Z.add_mod_idemp_l by done. Qed.
Lemma thread_loop_eq rounds lats e :
  thread_loop rounds lats (wrap_u 64 e)
  = (lats ++ latencies (sent_rounds rounds), wrap_u 64 (e + failures (sent_rounds rounds))).
Proof.
  revert lats e. unfold failures. induction rounds as [|[[] [d|]] rounds IH]; intros lats e; cbn [thread_loop sent_rounds latencies omap list_omap id];
    rewrite ?app_nil_r; try (f_equal; f_equal; simpl; lia).
  - rewrite IH, <- app_assoc. f_equal. f_equal. cbn [length]. unfold latencies, id. lia.
  - rewrite wrap_wrap, IH. f_equal. f_equal. cbn [length]. unfold latencies, id. lia.
Qed.
Lemma collect_eq handles all e :
  collect handles all (wrap_u 64 e)
  = (all ++ concat (map fst handles), wrap_u 64 (e + foldr (fun h s => h.2 + s) 0 handles)).
Proof.
  revert all e. induction handles as [|[l n] hs IH]; intros all e; cbn [collect map concat foldr fst snd]; [by rewrite app_nil_r, Z.add_0_r|].
  rewrite wrap_wrap, IH, <- app_assoc, Z.add_assoc. done.
Qed.
Lemma latencies_app a b : latencies (a ++ b) = latencies a ++ latencies b.
Proof. unfold latencies. by rewrite omap_app. Qed.
Lemma failures_app a b : failures (a ++ b) = failures a + failures b.
Proof. unfold failures. rewrite latencies_app, !length_app. lia. Qed.
Lemma threads_eq threads :
  collect (map (fun rounds => thread_loop rounds [] 0) threads) [] 0
  = (latencies (concat (map sent_rounds threads)), wrap_u 64 (failures (concat (map sent_rounds threads)))).
Proof.
  change 0 with (wrap_u 64 0) at 2. rewrite collect_eq. cbn [app]. f_equal.
  - induction threads as [|t ts IH]; [done|]. cbn [map concat]. rewrite latencies_app, <- IH. f_equal.
    change 0 with (wrap_u 64 0). by rewrite thread_loop_eq.
  - rewrite Z.add_0_l. induction threads as [|t ts IH]; [done|]. cbn [map concat foldr]. rewrite failures_app.
    change 0 with (wrap_u 64 0) at 1. rewrite thread_loop_eq. cbn [snd]. rewrite Z.add_0_l, wrap_wrap.
    rewrite !(Z.add_comm (failures (sent_rounds t))), <- wrap_wrap, IH, wrap_wrap. done.
Qed.
(** The largest of a sorted list is its last. *)
Lemma sorted_last l m : Sorted Z.le l -> last l = Some m -> Forall (fun d => d <= m) l.
Proof.
  intros Hs%(Sorted_StronglySorted _). induction Hs as [|a l Hs IH Hf]; [constructor|].
  destruct l as [|b l]; [intros [= ->]; repeat constructor; lia|]. intros Hm. specialize (IH Hm). constructor; [|done].
  apply Forall_cons in Hf as [Hab _]. apply Forall_cons in IH as [Hb _]. lia.
Qed.
Lemma pct_in all p m : last all = Some m -> pct all p ∈ all.
Proof.
  intros Hm. assert (0 < Z.of_nat (length all)) as Hl by (destruct all; [done|simpl; lia]).
  unfold pct. rewrite (proj2 (Z.eqb_neq _ _)) by lia.
  destruct (all !! _) as [d|] eqn:E; [by eapply list_elem_of_lookup_2|]. apply lookup_ge_None in E. lia.
Qed.
(** The figures are those of the run: every request that was sent is counted once, as a
    latency or as an error; the latencies are those the threads measured; with at least one,
    each percentile and the maximum is a measured latency and none is above the maximum; with
    none they are 0, and nothing is read out of range. *)
Theorem statistics_of_the_run threads elapsed :
  let sent := concat (map sent_rounds threads) in
  let s := run_mode threads elapsed in
  requests s + failures sent = Z.of_nat (length sent)
  /\ requests s = Z.of_nat (length (latencies sent)) /\ errors s = wrap_u 64 (failures sent)
  /\ (latencies sent = [] -> p50 s = 0 /\ p95 s = 0 /\ p99 s = 0 /\ max s = 0)
  /\ (latencies sent <> [] ->
      Forall (fun d => d ∈ latencies sent) [p50 s; p95 s; p99 s; max s] /\ Forall (fun d => d <= max s) (latencies sent)).
Proof.
  cbv zeta. unfold run_mode. rewrite threads_eq. set (sent := concat _).
  pose proof (merge_sort_Permutation Z.le (latencies sent)) as Hp. pose proof (Sorted_merge_sort Z.le (latencies sent)) as Hs.
  set (all := merge_sort Z.le (latencies sent)) in *. cbn [requests errors p50 p95 p99 max].
  rewrite (Permutation_length Hp). split; [unfold failures; lia|]. split; [done|]. split; [done|]. split.
  - intros Hn. rewrite Hn in Hp. apply Permutation_nil_r in Hp. by rewrite Hp.
  - intros Hn. destruct (last all) as [m|] eqn:Hm.
    + assert (forall p, pct all p ∈ latencies sent) as Hin by (intros p; rewrite <- Hp; by eapply pct_in).
      assert (m ∈ latencies sent) as Hmin by (rewrite <- Hp; apply last_Some in Hm as [l ->]; apply elem_of_app; right; left).
      split; [by repeat constructor|]. rewrite <- Hp. by apply sorted_last.
    + apply last_None in Hm. rewrite Hm in Hp. symmetry in Hp. by apply Permutation_nil_r in Hp.
Qed.
(** Twenty requests of 1 to 20 microseconds in two threads, one of which also fails once. *)
Example demo_run :
  let s := run_mode [map (fun n => (false, Some (Z.of_nat n))) (seq 1 12) ++ [(true, None)];
                     (false, None) :: map (fun n => (false, Some (Z.of_nat n))) (seq 13 8)] (S754_finite false 1 1) in
  (requests s, errors s, p50 s, p95 s, p99 s, max s) = (20, 1, 11, 20, 20, 20) /\ f64_as_usize (rps s) = 10.
Proof. vm_compute. done. Qed.
