(* ===== verification/Fates.v ===== *)
(** * What becomes of a request

    Every handler of [Gate] does one of four things to a request it is given unanswered: it
    leaves it to nginx with a return code, answers it once without a cookie, waits for its
    body, or hands a token to the redemption store.  [fate] is that classification, with
    what the handler leaves alone; [Site] runs histories of many requests on it. *)
From Stdlib Require Import ZArith Lia.
From Stdlib Require Import Strings.Byte.
From stdpp Require Import base list strings option numbers countable sets gmap.
From S2P Require Import Prelude RustStr Crates StandIns Codec Mac Ip Context Target Pow ReqProof Uri.
From S2P Require Import Clearance Nojs Redemption Ledger Cluster Decision Replay Runtime Verifier Http Challenge Gate.
Local Open Scope Z_scope.

(** A request nothing was sent for, and nothing is awaited for. *)
Definition idle (rq : Rq) : Prop := unanswered rq /\ waiting rq = None.
(** What a handler leaves alone: only clock, entropy and verifiers move. *)
Record same (s s' : Rq * Worker) : Prop := mkSame {
  same_self : self s'.1 = self s.1;
  same_clock : clock s'.2 = clock s.2;
  same_zone : zone s'.2 = zone s.2;
  same_cluster : cluster s'.2 = cluster s.2;
  same_msec : current_msec s'.2 = current_msec s.2;
  same_dials : dials s'.2 = dials s.2;
  same_outbox : outbox s'.2 = outbox s.2;
}.
#[export] Instance same_preorder : PreOrder same.
Proof. split; [by split|]. intros x y z [] []. split; congruence. Qed.

Section fates.
Context {B : Base64} {BL : Base64Laws B} {H : Hmac} {HL : HmacLaws H} {C : Subtle} {CL : SubtleLaws C}
  {S : Sha256} {E : Ecdsa} {CB : CryptoBackend} {JT : JsonText}
  {JO : JsonObject} {JC : Json Clearance.Clearance} {JCL : JsonLaws Clearance.Clearance}
  {JG : Json Nojs.Grant} {JP : Json Pow.Tuple}
  {JS : Json Submission} {JN : Json (Pow.Challenge * Z)} {A : Assets} {N : Nginx} {NL : NginxLaws N}.

(** Why a token may be redeemed, on a worker in state [wk], and for what grant. *)
Definition Reason : Type := Worker -> bytes -> Z -> Grant -> Prop.
Inductive fate (W : Prop) (J : Reason) (s : Rq * Worker) (rc : Z) (s' : Rq * Worker) : Prop :=
  | LeftToNginx : rc <> NGX_DONE -> idle s'.1 -> same s s' -> fate W J s rc s'
  | Answered x : rc = NGX_DONE -> responses s'.1 = [x] -> (forall v, ~ set_cookie v x) -> waiting s'.1 = None ->
      same s s' -> fate W J s rc s'
  | AwaitsBody cb : W -> rc = NGX_DONE -> unanswered s'.1 -> waiting s'.1 = Some cb -> same s s' -> fate W J s rc s'
  | Redeems wk token e g s1 : rc = NGX_DONE -> J wk token e g -> clock wk = clock s.2 -> cluster wk = cluster s.2 -> idle s1.1 -> same s s1 ->
      s' = (redeem token e g s1).2 -> fate W J s rc s'.
(** A step on the way, and a handler; [W] says whether it may wait for the body. *)
Definition mild {X} (m : M X) : Prop := forall s, idle s.1 -> idle (m s).2.1 /\ same s (m s).2.
Definition fated (W : Prop) (J : Reason) (m : M Z) : Prop := forall s, idle s.1 -> fate W J s (m s).1 (m s).2.

(** ** Composition *)

Lemma mild_ret {X} (x : X) : mild (ret x).
Proof. intros s Hs. by split. Qed.
Lemma mild_bind {X Y} (m : M X) (k : X -> M Y) : mild m -> (forall a, mild (k a)) -> mild (bind m k).
Proof.
  intros Hm Hk s Hs. unfold bind. destruct (Hm s Hs) as [H1 E1]. destruct (m s) as [a s1]. simpl in *.
  destruct (Hk a s1 H1) as [H2 E2]. split; [done|by etransitivity].
Qed.
Lemma fate_after W J s s1 rc s' : same s s1 -> fate W J s1 rc s' -> fate W J s rc s'.
Proof.
  intros Hs [Hr Hi Hk|x Hr Hx Hn Hw Hk|cb HW Hr Hu Hw Hk|wk t e g s2 Hr HJ Hc Hcl Hi Hk ->].
  - apply LeftToNginx; [done|done|by etransitivity].
  - eapply Answered; try done. by etransitivity.
  - eapply AwaitsBody; try done. by etransitivity.
  - eapply Redeems; try done; [by rewrite Hc; apply Hs|by rewrite Hcl; apply Hs|by etransitivity].
Qed.
Lemma fated_bind {X} W J (m : M X) (k : X -> M Z) : mild m -> (forall a, fated W J (k a)) -> fated W J (bind m k).
Proof.
  intros Hm Hk s Hs. unfold bind. destruct (Hm s Hs) as [H1 E1]. destruct (m s) as [a s1]. simpl in *.
  eapply fate_after; [exact E1|]. by apply Hk.
Qed.
Lemma fated_ext W J (m m' : M Z) : (forall s, m s = m' s) -> fated W J m' -> fated W J m.
Proof. intros Hm Hf s Hs. rewrite Hm. by apply Hf. Qed.
Lemma fated_mono (W : Prop) (J J' : Reason) m : (forall wk t e g, J wk t e g -> J' wk t e g) -> fated W J m -> fated W J' m.
Proof.
  intros HJ Hf s Hs. destruct (Hf s Hs); [by apply LeftToNginx|by eapply Answered|by eapply AwaitsBody|].
  eapply Redeems; try done. by apply HJ.
Qed.
Lemma fated_ret W J rc : rc <> NGX_DONE -> fated W J (ret rc).
Proof. intros Hr s Hs. by apply LeftToNginx. Qed.

(** ** The steps *)

Lemma mild_put_rq f :
  (forall rq, headers_out (f rq) = headers_out rq /\ responses (f rq) = responses rq /\ waiting (f rq) = waiting rq
     /\ self (f rq) = self rq) -> mild (put_rq f).
Proof.
  intros Hf [rq w] [[Hh Hr] Hw]. simpl in *. destruct (Hf rq) as (E1 & E2 & E3 & E4).
  split; [|by split]. unfold idle, unanswered. by rewrite E1, E2, E3.
Qed.
Lemma mild_record res rea d : mild (record res rea d).
Proof.
  apply mild_put_rq. intros rq. by destruct (record_in_fields res rea d rq) as (? & ? & _ & ? & ?).
Qed.
Lemma mild_no_store : mild no_store.
Proof.
  intros [rq w] [[Hh Hr] Hw]. rewrite no_store_eq. split; [|by split]. split; [split|]; simpl in *; try done.
  unfold uncached. case_match; [done|]. apply Forall_app. split; [done|]. by repeat constructor.
Qed.
Lemma mild_get_worker : mild get_worker.
Proof. intros [rq w] Hs. by split. Qed.
Lemma mild_get_rq : mild get_rq.
Proof. intros [rq w] Hs. by split. Qed.
Lemma mild_now : mild now.
Proof. intros [rq w] Hs. by split. Qed.
Lemma mild_instant : mild instant.
Proof. intros [rq w] Hs. by split. Qed.
Lemma mild_random : mild random.
Proof. intros [rq w] Hs. by split. Qed.
Lemma mild_verifiers v : mild (put_worker (with_verifiers v)).
Proof. intros [rq w] Hs. by split. Qed.
Lemma mild_clock_headers b : mild (clock_headers b).
Proof.
  assert (forall k v, cookie_name k = false -> mild (add_header k v)) as Ha.
  { intros k v Hk [rq w] [[Hh Hr] Hw]. simpl in *. split; [|by split]. split; [split|]; simpl; try done.
    rewrite add_header_out_app. apply Forall_app. split; [done|]. by repeat constructor. }
  unfold clock_headers. apply mild_bind; [apply mild_now|intros t]. apply mild_bind; [by apply Ha|intros _].
  destruct b; [by apply Ha|apply mild_ret].
Qed.

(** ** Answers *)

(** [send_body] makes one response, whose cookies are those it is given. *)
Lemma send_body_answer st ct body hs copy rq w :
  unanswered rq -> named hs ->
  exists rc rq' x, send_body st ct body hs copy (rq, w) = (rc, (rq', w)) /\ responses rq' = [x]
    /\ self rq' = self rq /\ waiting rq' = waiting rq
    /\ forall v, set_cookie v x <-> (bs "Set-Cookie", v) ∈ hs.
Proof.
  intros [Eh Er] Hn. rewrite send_body_eq. cbv zeta.
  assert (headers_out (prepared st ct body hs rq) = uncached (add_headers hs (headers_out rq))
          /\ responses (prepared st ct body hs rq) = [] /\ self (prepared st ct body hs rq) = self rq
          /\ waiting (prepared st ct body hs rq) = waiting rq) as (E1 & E2 & E3 & E4).
  { unfold prepared, typed. destruct (find_str _ ct); simpl; by rewrite Er. }
  set (r1 := prepared st ct body hs rq) in *. clearbody r1.
  destruct (negb _ || _ || _); [eexists _, _, (response_of None r1)|eexists _, _, (response_of (Some (body, copy)) r1)];
    (split; [reflexivity|]); unfold set_cookie; simpl; rewrite E1, E2, E3, E4;
    (split; [done|]); (split; [done|]); (split; [done|]); intros v; by apply sent_cookie.
Qed.
Lemma answer_finish W J st ct body hs copy :
  Forall (fun kv => cookie_name kv.1 = false) hs ->
  fated W J (bind (send_body st ct body hs copy) (fun rc => finalize_request rc ;~ ret NGX_DONE)).
Proof.
  intros Hhs [rq w] [Hu Hw].
  destruct (send_body_answer st ct body hs copy rq w Hu) as (rc & rq' & x & E0 & E1 & E2 & E3 & E4).
  { eapply Forall_impl; [exact Hhs|]. simpl. congruence. }
  replace (bind _ _ (rq, w)) with (NGX_DONE, (with_final rc rq', w)) by (unfold bind; by rewrite E0).
  eapply (Answered _ _ _ _ _ x); [done|done| |simpl in *; congruence|by split].
  intros v Hv%E4. rewrite Forall_forall in Hhs. by apply Hhs in Hv.
Qed.
Lemma answer_headers W J st ct body hs :
  Forall (fun kv => cookie_name kv.1 = false) hs -> fated W J (send_and_finish_with_headers st ct body hs).
Proof. apply answer_finish. Qed.
Lemma answer_cached W J st ct body hs :
  Forall (fun kv => cookie_name kv.1 = false) hs -> fated W J (send_cached_and_finish st ct body hs).
Proof. apply answer_finish. Qed.
Lemma answer_plain W J st ct body : fated W J (send_and_finish st ct body None).
Proof. by apply answer_finish. Qed.
Lemma fated_wait (W : Prop) J cb : W -> fated W J (put_rq (with_waiting cb) ;~ finalize_request NGX_DONE ;~ ret NGX_DONE).
Proof. intros HW [rq w] [Hu Hw]. by eapply (AwaitsBody _ _ _ _ _ cb). Qed.
Lemma mild_context r cfg : mild (get_context r cfg).
Proof. apply mild_bind; [apply mild_get_worker|intros w; apply mild_ret]. Qed.
End fates.
Create HintDb fates discriminated.
#[export] Hint Constants Opaque : fates.
#[export] Hint Resolve mild_ret mild_record mild_no_store mild_get_worker mild_get_rq mild_now mild_instant mild_random
  mild_verifiers mild_clock_headers mild_context : fates.

(** Handlers are taken apart along their binds and tests. *)
Ltac milds :=
  repeat lazymatch goal with
    | |- mild (bind _ _) => apply mild_bind; [|intros ?]
    | |- mild (if ?b then _ else _) => destruct b
    | |- mild (let '(_, _) := ?p in _) => destruct p
    | |- mild (match ?x with _ => _ end) => destruct x
    | |- mild _ => solve [eauto with fates]
    end.
Ltac fates :=
  repeat lazymatch goal with
    | |- fated _ _ (ret _) => apply fated_ret; done
    | |- fated _ _ (send_and_finish _ _ _ _) => apply answer_plain
    | |- fated _ _ (send_and_finish_with_headers _ _ _ _) => apply answer_headers; solve [repeat constructor]
    | |- fated _ _ (send_cached_and_finish _ _ _ _) => apply answer_cached; solve [repeat constructor]
    | |- fated _ _ (bind _ _) => apply fated_bind; [solve [milds]|intros ?]
    | |- fated _ _ (if ?b then _ else _) => destruct b eqn:?
    | |- fated _ _ (let '(_, _) := ?p in _) => destruct p
    | |- fated _ _ (match ?x with _ => _ end) => destruct x eqn:?
    | |- fated _ _ _ => solve [eauto with fates]
    end.

Section handlers.
Context {B : Base64} {BL : Base64Laws B} {H : Hmac} {HL : HmacLaws H} {C : Subtle} {CL : SubtleLaws C}
  {S : Sha256} {E : Ecdsa} {CB : CryptoBackend} {JT : JsonText}
  {JO : JsonObject} {JC : Json Clearance.Clearance} {JCL : JsonLaws Clearance.Clearance}
  {JG : Json Nojs.Grant} {JP : Json Pow.Tuple}
  {JS : Json Submission} {JN : Json (Pow.Challenge * Z)} {A : Assets} {N : Nginx} {NL : NginxLaws N}.

Lemma mild_check_clearance r cfg required : mild (check_clearance r cfg required).
Proof. unfold check_clearance, verified. milds. Qed.
Hint Resolve mild_check_clearance : fates.
Lemma mild_ask_verifier name ip : mild (ask_verifier name ip).
Proof. unfold ask_verifier. milds. Qed.
Hint Resolve mild_ask_verifier : fates.

Lemma issue_fate W J r cfg a : fated W J (issue_challenge r cfg a).
Proof. unfold issue_challenge. cbv zeta. fates. Qed.
Lemma nojs_page_fate W J t u d : fated W J (serve_nojs_page t u d).
Proof. apply answer_headers; repeat constructor. Qed.
Lemma solver_fate W J r : fated W J (serve_solver r).
Proof. unfold serve_solver. cbv zeta. fates. Qed.
Lemma status_fate W J r cfg a : fated W J (status r cfg a).
Proof. unfold status. cbv zeta. fates. Qed.
Lemma enable_fields rq :
  headers_out (enable rq).2 = headers_out rq /\ responses (enable rq).2 = responses rq
  /\ waiting (enable rq).2 = waiting rq /\ self (enable rq).2 = self rq.
Proof. unfold enable, state. by destruct (ctx rq). Qed.
Lemma verify_solution_fate (W : Prop) J r : W -> fated W J (verify_solution r).
Proof.
  intros HW. unfold verify_solution. apply fated_bind; [milds|intros _]. destruct (_ <? _); [by apply fated_ret|].
  apply (fated_ext _ _ _ (bind (fun s => (enable s.1, ((enable s.1).2, s.2))) (fun '(ok, rq) =>
    if negb ok then ret SERVICE_UNAVAILABLE else
    if NGX_HTTP_SPECIAL_RESPONSE <=? read_client_request_body rq then ret (read_client_request_body rq)
    else put_rq (with_waiting VerifyBody) ;~ finalize_request NGX_DONE ;~ ret NGX_DONE))).
  { intros [rq w]. cbv beta iota delta [bind get_rq put_rq fst snd]. by destruct (enable rq) as [[] ?]. }
  apply fated_bind.
  - intros [rq w] [[Hh Hr] Hw]. cbn [fst snd] in *. destruct (enable_fields rq) as (E1 & E2 & E3 & E4).
    split; [|by split]. unfold idle, unanswered. by rewrite E1, E2, E3.
  - intros [[] rq]; cbn [negb]; [|by apply fated_ret].
    destruct (Z.leb_spec NGX_HTTP_SPECIAL_RESPONSE (read_client_request_body rq)); [|by apply fated_wait].
    apply fated_ret. unfold NGX_HTTP_SPECIAL_RESPONSE, NGX_DONE in *. lia.
Qed.
Lemma capture_fate (W : Prop) J page : W -> fated W J (capture_then_challenge page).
Proof.
  intros HW. unfold capture_then_challenge, serve_challenge_page. apply fated_bind; [milds|intros rq].
  destruct (_ <=? _); [apply answer_cached; constructor|by apply fated_wait].
Qed.
Hint Resolve issue_fate nojs_page_fate solver_fate status_fate verify_solution_fate capture_fate : fates.
Lemma challenge_fate (W : Prop) J l r d a n : W -> fated W J (challenge_request l r d a n).
Proof. intros HW. unfold challenge_request, serve_challenge_page. cbv zeta. fates. Qed.
Hint Resolve challenge_fate : fates.

(** Why [pass] and [verify_body] redeem. *)
Definition waited (r : Request) (cfg : Cfg) (required : Assurance) : Reason := fun wk token e g =>
  exists grant ctx, redeemable r cfg required wk grant ctx /\ token = default [] (query_param r (bs "t"))
    /\ e = nojs_expiry grant /\ g = nojs_grant cfg wk required ctx (Nojs.path grant).
Definition worked (l : Location) (r : Request) : Reason := fun wk token e g =>
  exists sub pk ctx d, checked l r wk sub pk ctx d /\ token = sub_token sub /\ e = sub_exp sub
    /\ g = pow_grant l wk pk ctx d.
Lemma redeem_done token e g s : idle s.1 -> (redeem token e g s).1 = NGX_DONE.
Proof.
  intros [Hu _]. destruct s as [rq w]. unfold redeem, bind at 1 2, get_rq, get_worker. cbn [fst snd].
  destruct (cluster w) as [rt|].
  - destruct (Cluster.redeem _ _ _ _ _ _ _ _) as [cs rt']. unfold bind.
    destruct (_ (rq, w)) as [u s1]. destruct (put_worker _ s1) as [u2 s2]. by destruct (finish_all _ s2).
  - unfold bind. assert ((consume_token token e (rq, w)).2.1 = rq) as Hrq.
    { unfold consume_token, bind, get_worker, now, put_worker, ret. cbn [fst snd]. destruct (zone w); [|done].
      cbn [fst snd]. by destruct (Ledger.consume _ _ _ _). }
    destruct (consume_token token e (rq, w)) as [o [rq1 w1]]. simpl in Hrq. subst rq1.
    by destruct (finish_eq o g rq w1 Hu) as (rq' & x & -> & _).
Qed.
Lemma pass_fate W r cfg t a : fated W (waited r cfg a) (pass r cfg t a).
Proof.
  intros [rq w] Hs. rewrite pass_eq. destruct (key_ok cfg) eqn:Hk; cbn [negb]; [|apply answer_headers; [repeat constructor|done]]. cbv zeta.
  assert (idle (record_in (bs "rejected") (bs "invalid_grant") 0 rq)
    /\ same (rq, w) (record_in (bs "rejected") (bs "invalid_grant") 0 rq, w)) as [H1 E1] by exact (mild_record (bs "rejected") (bs "invalid_grant") 0 (rq, w) Hs).
  set (rq1 := record_in _ _ _ rq) in *. clearbody rq1.
  assert (same (rq, w) (rq1, tick w)) as E2 by (destruct E1; by split).
  assert (forall rc, rc <> NGX_DONE -> fate W (waited r cfg a) (rq, w) rc (rq1, tick w)) as Hleft by (intros; by apply LeftToNginx).
  destruct a as [d|delay]; [by apply Hleft|]. destruct (client_context _ _ _) as [ctx|] eqn:Hc; [|by apply Hleft].
  destruct (Nojs.verify _ _ _ ctx) as [g|g|] eqn:Hv.
  - destruct (Z.eqb_spec (Nojs.delay g) delay) as [<-|]; [|by apply Hleft]. cbn [negb].
    eapply (Redeems _ _ _ _ _ w _ _ _ (rq1, tick w)); try done; [by apply redeem_done|].
    exists g, ctx. by split_and!.
  - eapply fate_after; [|by apply nojs_page_fate]. destruct E2. by split.
  - eapply fate_after; [exact E2|]. apply answer_headers; [repeat constructor|done].
Qed.
(** What a request can redeem when it arrives, and when its body is there. *)
Definition on_arrival (loc : option Location) (r : Request) : Reason := fun wk token e g =>
  exists l, loc = Some l /\ internal (resolve l) r = Some (bs "pass") /\ method_name r = bs "GET"
    /\ waited r (resolve l) (required_assurance l) wk token e g.
Definition on_body (loc : option Location) (r : Request) : Reason := fun wk token e g =>
  exists l, loc = Some l /\ worked l r wk token e g.
Lemma fated_default W J (m : M Z) :
  fated W J m -> fated W J (rc <~ (rc <~ m; ret (Some rc)); ret (default NGX_DECLINED rc)).
Proof. apply fated_ext. intros s. unfold bind, ret. by destruct (m s). Qed.
Lemma bind_assoc {X Y Z} (m : M X) (k : X -> M Y) (h : Y -> M Z) s :
  bind (bind m k) h s = bind m (fun x => bind (k x) h) s.
Proof. unfold bind. by destruct (m s). Qed.
Lemma route_fate r cfg suffix a t :
  fated True (fun wk token e g => suffix = bs "pass" /\ method_name r = bs "GET" /\ waited r cfg a wk token e g)
    (rc <~ route_internal r cfg suffix a t; ret (default NGX_DECLINED rc)).
Proof.
  unfold route_internal. cbv zeta. eapply fated_ext; [intros s; apply bind_assoc|].
  apply fated_bind; [destruct (_ || _); milds|intros _]. unfold method_ok.
  destruct (negb _) eqn:Hok; [eapply (fated_ext _ _ _ (ret NOT_ALLOWED)); [done|by apply fated_ret]|].
  destruct (beq suffix (bs "challenge")); [apply fated_default, issue_fate|].
  destruct (beq suffix (bs "solver.js")).
  { eapply fated_ext; [intros s; apply bind_assoc|]. apply fated_bind; [milds|intros _]. apply fated_default, solver_fate. }
  destruct (beq suffix (bs "verify")); [by apply fated_default, verify_solution_fate|].
  destruct (beq suffix (bs "status")); [apply fated_default, status_fate|].
  destruct (beq suffix (bs "pass")) eqn:Hp.
  - apply fated_default. eapply fated_mono; [|apply pass_fate]. intros wk tok e g Hw. apply beq_true in Hp as ->.
    split; [done|]. split; [|done]. apply negb_false_iff in Hok. by apply beq_true.
  - eapply (fated_ext _ _ _ (ret NGX_DECLINED)); [done|by apply fated_ret].
Qed.
Lemma deny_fate W J : fated W J deny.
Proof. unfold deny. fates. Qed.
Lemma access_fate loc r : fated True (on_arrival loc r) (pow_gate_access loc r).
Proof.
  destruct loc as [l|]; [|by apply fated_ret]. unfold pow_gate_access. destruct (negb _); [by fates|]. cbv zeta.
  apply fated_bind; [milds|intros _]. fold (internal (resolve l) r). fold (required_assurance l).
  destruct (internal (resolve l) r) as [suffix|] eqn:Hi.
  - eapply fated_mono; [|apply route_fate]. intros wk t e g (-> & ? & ?). by exists l.
  - destruct (is_trusted (trusted l)); [by fates|]. pose proof (deny_fate True) as Hdeny.
    destruct (Decision.parse _); fates.
Qed.
Lemma verify_body_fate loc r : fated False (on_body loc r) (verify_body loc r ;~ ret NGX_DONE).
Proof.
  intros [rq w] Hs.
  replace (bind _ _ (rq, w)) with (NGX_DONE, (verify_body loc r (rq, w)).2)
    by (unfold bind, ret; by destruct (verify_body loc r (rq, w))).
  cbn [fst snd]. assert (forall code rq1 w1, idle rq1 -> same (rq, w) (rq1, w1) ->
    fate False (on_body loc r) (rq, w) NGX_DONE (finalize_status code (rq1, w1)).2) as Hout.
  { intros code rq1 w1 [Hu Hw] E1. unfold finalize_status, send, bind.
    destruct (send_body_answer code text_plain (bs "rejected" ++ [Byte.x0a]) [] true rq1 w1 Hu) as (rc & rq' & x & E0 & F1 & F2 & F3 & F4);
      [by constructor|]. unfold send_with_headers. rewrite E0. cbn [snd].
    eapply (Answered _ _ _ _ _ x); [done|done| |simpl in *; congruence|etransitivity; [exact E1|by split]].
    intros v Hv%F4. set_solver. }
  destruct loc as [l|]; [|exact (Hout BAD_REQUEST rq w Hs ltac:(reflexivity))].
  destruct (submission_of l r w) as [[[[sub pk] ctx] d]|] eqn:Es.
  - apply submission_of_Some in Es. rewrite (verify_body_checked _ _ _ _ _ _ _ _ Es). cbn [snd].
    destruct (mild_record (bs "rejected") (bs "invalid_submission") (cfg_difficulty (resolve l)) (rq, w) Hs) as [H1 E1].
    eapply (Redeems _ _ _ _ _ w _ _ _ (opened l rq, tick w)); [done| |done|done|done| |done].
    + exists l. split; [done|]. exists sub, pk, ctx, d. by split_and!.
    + destruct E1. by split.
  - destruct (verify_body_unchecked l r rq w) as (code & rq1 & w1 & -> & F1 & F2 & _ & F4 & F5 & F6).
    { intros sub pk ctx d Hck%submission_of_Some. congruence. }
    apply Hout; [destruct Hs as [[? ?] ?]; unfold idle, unanswered; simpl in *; by rewrite F1, F2, F5|].
    by destruct F6 as [-> | ->]; split.
Qed.
Lemma body_ready_fate loc r : fated False (on_body loc r) (body_ready loc r ;~ ret NGX_DONE).
Proof.
  assert (forall st ct b hs, Forall (fun kv => cookie_name kv.1 = false) hs ->
    fated False (on_body loc r) (bind (_ <~ send_and_finish_with_headers st ct b hs; ret tt) (fun _ => ret NGX_DONE))) as Hout.
  { intros st ct b hs Hhs. eapply fated_ext; [|apply (answer_headers False (on_body loc r) st ct b hs Hhs)]. intros s.
    unfold send_and_finish_with_headers, bind, ret. by destruct (send_with_headers _ _ _ _ s). }
  unfold body_ready. destruct loc as [l|]; apply Hout; repeat constructor.
Qed.
End handlers.
