(* ===== verification/Site.v ===== *)
(** * A site: HTTP requests, workers and the redemption store together

    Workers serve many requests at a time: a request arrives and runs the access handler, its
    body comes in and the callback runs, a socket of the Redis client becomes ready, a timer
    fires, a client leaves, Redis executes a command.  [hstep] is one such event with the
    handlers of [Gate] and the event loop of [Cluster]; completions are answered by [finish]
    on the request they belong to (the program calls it inside [complete]; it touches nothing
    but that request, so its place among the other steps of the event does not matter).  A
    handler runs to its end before the next event of its worker; of what workers share it
    reads and writes only the zone, in the one critical section of [Ledger.consume], so a
    handler is one step of the history.  The store is the shared zone or one Redis primary,
    whose clock steps back by no more than the script allows for ([can]).
    The clustered site refines [Fleet]; the tickets of the proofs are nowhere in the program. *)
From Stdlib Require Import ZArith Lia.
From Stdlib Require Import Strings.Byte.
From stdpp Require Import base list strings option numbers countable sets gmap.
From S2P Require Import Prelude RustStr Crates StandIns Codec Mac Ip Context Target Pow ReqProof Uri.
From S2P Require Import Clearance Nojs Redemption Store Redis Ledger Cluster Decision Replay Runtime Verifier Http Challenge.
From S2P Require Import Gate Fleet Fates.
Local Open Scope Z_scope.

(** A request in flight: its location, what it asks, the return code of its handler, what was
    written to it, and whether its client left while it waited for Redis. *)
Record Visit := mkVisit {
  v_loc : option Location; v_req : Request; v_rc : Z; v_rq : Rq; v_gone : bool;
}.
(** What nginx's clock, the kernel and the background threads give a worker for an event. *)
Record Turn := mkTurn { t_msec : Z; t_dials : nat -> Dial; t_verifiers : Verifiers -> Verifiers }.
(** [crew] are the workers, [store] the shared zone, [wires] the bytes under way to and from
    Redis per worker and job, [visits] the requests per worker. *)
Record Site := mkSite {
  crew : nat -> Worker; store : Zone; redis : Server;
  wires : gmap (nat * nat) (bytes * bytes); visits : gmap (nat * nat) Visit;
}.
Inductive Happening :=
  | Arrive (w r : nat) (t : Turn) (loc : option Location) (req : Request)
  | BodyRead (w r : nat) (t : Turn)
  | Network (w : nat) (t : Turn) (ev : Event)
  | RedisServes (w p : nat) (refuse : bool) (seen ms : Z).

Definition with_rq (v : Visit) (rc : Z) (rq : Rq) : Visit := mkVisit (v_loc v) (v_req v) rc rq (v_gone v).
Definition set_gone (v : Visit) : Visit := mkVisit (v_loc v) (v_req v) (v_rc v) (v_rq v) true.
(** nginx calls the body callback once. *)
Definition resumed (r : Rq) : Rq :=
  mkRq (self r) (ctx r) (status_out r) (length_out r) (content_type r) (content_type_len r) (charset r)
    (headers_out r) (responses r) (finalized r) None (info_log r).
Definition enter (t : Turn) (z : Zone) (wk : Worker) : Worker :=
  mkWorker (clock wk) (ticks wk) (instants wk) (instant_ticks wk) (entropy wk) (draws wk) z (cluster wk)
    (t_msec t) (t_dials t) [] (t_verifiers t (verifiers wk)).
Definition set_worker (w : nat) (wk : Worker) (crew : nat -> Worker) : nat -> Worker :=
  fun x => if (x =? w)%nat then wk else crew x.
Definition world_of (wk : Worker) : World := mkWorld (clock wk (ticks wk)) (current_msec wk) (dials wk).

Section site.
Context {B : Base64} {H : Hmac} {C : Subtle} {S : Sha256} {E : Ecdsa} {CB : CryptoBackend} {JT : JsonText}
  {JO : JsonObject} {JC : Json Clearance.Clearance} {JG : Json Nojs.Grant} {JP : Json Pow.Tuple}
  {JS : Json Submission} {JN : Json (Pow.Challenge * Z)} {A : Assets} {N : Nginx}.

(** Every completion answers its request. *)
Definition own (r : nat) (cs : list Completion) : list Completion := List.filter (fun c => (c.1.1 =? r)%nat) cs.
Definition deliver (w : nat) (wk : Worker) (cs : list Completion) (vs : gmap (nat * nat) Visit) : gmap (nat * nat) Visit :=
  map_imap (fun k v => Some (if (k.1 =? w)%nat
                             then with_rq v (v_rc v) (finish_all (own k.2 cs) (v_rq v, wk)).2.1 else v)) vs.
(** A job that was created has a connection. *)
Definition dialled (w : nat) (rt rt' : option Runtime) (ws : gmap (nat * nat) (bytes * bytes))
  : gmap (nat * nat) (bytes * bytes) :=
  match rt, rt' with
  | Some rt, Some rt' => if (next rt' =? next rt)%nat then ws else <[(w, next rt) := ([], [])]> ws
  | _, _ => ws
  end.
Definition rewire (w : nat) (rt rt' : Runtime) (ev : Event) (ws : gmap (nat * nat) (bytes * bytes))
  : gmap (nat * nat) (bytes * bytes) :=
  match ev with
  | Poll _ | Redeem _ _ _ _ => dialled w (Some rt) (Some rt') ws
  | Writable p err send rw rr =>
      match heap rt !! p with
      | Some j => alter (fun io => (io.1 ++ written j err send rw rr, io.2)) (w, p) ws
      | None => ws
      end
  | Readable p recvs _ => alter (fun io => (io.1, drop (length (received recvs)) io.2)) (w, p) ws
  | Timeout _ | Abort _ => ws
  end.
Definition leave (w : nat) (rt : Runtime) (ev : Event) (vs : gmap (nat * nat) Visit) : gmap (nat * nat) Visit :=
  match ev with
  | Abort p => match (j <-? heap rt !! p; request j) with Some r => alter set_gone (w, r) vs | None => vs end
  | _ => vs
  end.
(** A handler runs for a request, and what it completed for others is delivered. *)
Definition serve (site : Site) (w r : nat) (t : Turn) (v : Visit) (m : M Z) : Site :=
  let wk0 := enter t (store site) (crew site w) in
  let '(rc, (rq, wk)) := m (v_rq v, wk0) in
  mkSite (set_worker w wk (crew site)) (zone wk) (redis site) (dialled w (cluster wk0) (cluster wk) (wires site))
    (deliver w wk (outbox wk) (<[(w, r) := with_rq v rc rq]> (visits site))).
Definition callback (cb : Callback) (loc : option Location) (req : Request) : M Z :=
  match cb with VerifyBody => verify_body loc req | BodyReady => body_ready loc req end ;~ ret NGX_DONE.
Definition hstep (ns : bytes) (site : Site) (h : Happening) : Site :=
  match h with
  | Arrive w r t loc req =>
      serve site w r t (mkVisit loc req 0 (new_request r) false) (pow_gate_access loc req)
  | BodyRead w r t =>
      match visits site !! (w, r) with
      | Some v =>
          match waiting (v_rq v) with
          | Some cb => serve site w r t (with_rq v (v_rc v) (resumed (v_rq v))) (callback cb (v_loc v) (v_req v))
          | None => site
          end
      | None => site
      end
  | Network w t ev =>
      let wk := enter t (store site) (crew site w) in
      match cluster wk with
      | None => site
      | Some rt =>
          let '(cs, rt') := handle (world_of wk) rt ev in
          mkSite (set_worker w (tick (with_cluster (Some rt') [] wk)) (crew site)) (store site) (redis site)
            (rewire w rt rt' ev (wires site)) (deliver w wk cs (leave w rt ev (visits site)))
      end
  | RedisServes w p refuse seen ms =>
      match (io <-? wires site !! (w, p); '(cmd, rest) <-? read_command io.1; Some (cmd, rest, io.2)) with
      | None => site
      | Some (cmd, rest, out) =>
          let '(line, s) := if refuse then (error_line, redis site) else execute ns seen ms (redis site) cmd in
          mkSite (crew site) (store site) s (<[(w, p) := (rest, out ++ line)]> (wires site)) (visits site)
      end
  end.
(** When an event can happen.  Of the Redis server it asks that its clock is never further
    behind the latest time it has shown than the script allows for; without it a token can
    be redeemed twice. *)
Definition can (sk : Z) (site : Site) (h : Happening) : Prop :=
  match h with
  | Arrive w r _ _ _ => visits site !! (w, r) = None
  | BodyRead w r _ => exists v, visits site !! (w, r) = Some v /\ is_Some (waiting (v_rq v))
  | Network w _ ev =>
      exists rt, cluster (crew site w) = Some rt /\ fires rt ev
      /\ match ev with
         | Redeem _ _ _ _ => False
         | Readable p recvs _ => exists io, wires site !! (w, p) = Some io /\ received recvs `prefix_of` io.2
         | _ => True
         end
  | RedisServes _ _ _ seen ms => redis_usable sk (redis site) (mkEnv seen ms 0)
  end.
Inductive hreach (ns : bytes) (sk : Z) (start : Site) : Site -> Prop :=
  | hreach_start : hreach ns sk start start
  | hreach_step site h : hreach ns sk start site -> can sk site h -> hreach ns sk start (hstep ns site h).
(** A site opens with its workers started and no request; the workers share a ledger, or each
    has a client of the same cluster. *)
Definition local_start (site : Site) : Prop :=
  (forall w, cluster (crew site w) = None) /\ (exists st, store site = Some st /\ ledger_inv st) /\ visits site = ∅.
Definition cluster_start (cfg : nat -> Config) (ns ep : bytes) (sk : Z) (site : Site) : Prop :=
  deployment cfg ns ep sk /\ redis_inv (redis site)
  /\ (forall w, cluster (crew site w) = activate (Some (cfg w))) /\ (forall w n, in_i64 (clock (crew site w) n) = true)
  /\ wires site = ∅ /\ visits site = ∅.
End site.

(** ** Completions carry the grants they were given *)

Section grants.
Context {S : Sha256}.

Definition from_heap (rt : Runtime) (c : Completion) : Prop :=
  exists p j, heap rt !! p = Some j /\ request j = Some c.1.1 /\ grant j = Some c.2.
Lemma from_kept rt rt' cs : kept rt rt' -> Forall (from_heap rt') cs -> Forall (from_heap rt) cs.
Proof.
  intros (_ & _ & Hk) Hf. eapply Forall_impl; [exact Hf|]. intros c (p & j' & Hj & Hr & Hg). apply Hk in Hj as (j & Hj & [= _ _ _ _ _ _ Er Eg]).
  exists p, j. split_and!; [done|congruence|congruence].
Qed.
Lemma from_complete_with drain now msec rt p o fence :
  (forall rt, kept rt (drain rt).2 /\ Forall (from_heap rt) (drain rt).1) ->
  Forall (from_heap rt) (complete_with drain now msec rt p o fence).1.
Proof.
  intros Hd. unfold complete_with. destruct (heap rt !! p) as [job|] eqn:Hp; [|constructor].
  pose proof (kept_retire now msec rt p job o fence) as Hk. destruct (retire now msec rt p job o fence) as [o' rt1]. simpl in Hk.
  assert (Forall (from_heap rt) (answer job o')) as Ha.
  { unfold answer. destruct (request job) as [r|] eqn:Hr; [|constructor]. destruct (grant job) as [g|] eqn:Hg; [|constructor].
    constructor; [|constructor]. by exists p, job. }
  destruct (pumping rt1); [exact Ha|]. destruct (Hd (with_pumping rt1 true)) as [_ Hf].
  destruct (drain (with_pumping rt1 true)) as [cs rt2]. simpl in *. apply Forall_app. split; [|done].
  eapply from_kept; [exact Hk|]. exact Hf.
Qed.
Lemma from_connect_with complete dial rt p :
  (forall rt p, Forall (from_heap rt) (complete rt p Full false).1) -> Forall (from_heap rt) (connect_with complete dial rt p).1.
Proof.
  intros Hc. unfold connect_with.
  assert (kept rt (set_job rt p (fun j => if health j then arm j else j))) as H1
    by (apply kept_set_job; intros j; by destruct (health j) eqn:?).
  destruct (dial p); [eapply from_kept; [exact H1|apply Hc]|].
  case_match; [|constructor]. eapply from_kept; [|apply Hc]. eapply kept_trans; [exact H1|by apply kept_set_job].
Qed.
Lemma from_drain_loop fuel now msec dial rt : Forall (from_heap rt) (drain_loop fuel now msec dial rt).1.
Proof.
  revert rt. induction fuel as [|f IH]; intros rt; cbn [drain_loop]; [constructor|].
  case_match; [|constructor]. destruct (pending rt) as [|p rest]; [constructor|].
  set (rt1 := with_queues rt rest (active rt ++ [p])).
  pose proof (kept_connect_with (complete_pumping now msec) dial rt1 p) as Hk.
  pose proof (from_connect_with (complete_pumping now msec) dial rt1 p) as Hf.
  destruct (connect_with _ dial _ p) as [cs1 rt2]. specialize (IH rt2).
  destruct (drain_loop f now msec dial rt2) as [cs2 rt3]. simpl in *. apply Forall_app. split.
  - apply Hf. intros. apply from_complete_with. intros. split; [apply kept_refl|constructor].
  - eapply (from_kept rt1); [|exact IH]. apply Hk. intros. apply kept_complete_with. intros. apply kept_refl.
Qed.
Lemma from_complete now msec dial rt p o fence : Forall (from_heap rt) (complete now msec dial rt p o fence).1.
Proof. apply from_complete_with. intros. split; [apply kept_drain_loop|apply from_drain_loop]. Qed.
Lemma from_connect now msec dial rt p : Forall (from_heap rt) (connect now msec dial rt p).1.
Proof. apply from_connect_with. intros. apply from_complete. Qed.
(** Every completion is that of a waiting job, or of the redemption the event asks for. *)
Lemma handle_grants world rt ev q o g :
  (q, o, g) ∈ (handle world rt ev).1 ->
  (exists p j, heap rt !! p = Some j /\ request j = Some q /\ grant j = Some g) \/ exists t e, ev = Redeem q t e g.
Proof.
  assert (forall (rt1 : Runtime) cs, Forall (from_heap rt1) cs -> (q, o, g) ∈ cs ->
    exists p j, heap rt1 !! p = Some j /\ request j = Some q /\ grant j = Some g) as Hin.
  { intros rt1 cs Hf Hc. rewrite Forall_forall in Hf. by apply Hf in Hc. }
  destruct ev as [exiting|r token e g'|p err send rw rr|p recvs rearm|p|p]; simpl.
  - unfold poll. destruct exiting; [set_solver|]. destruct (negb _ && _); [|set_solver]. cbn [alloc].
    intros (p & j & Hj & Hr & Hg)%(Hin _ _ (from_connect _ _ _ _ _)). left. simpl in Hj.
    apply insert_lookup in Hj as [[_ ->]|[_ Hj]]; [done|by exists p, j].
  - unfold Cluster.redeem. case_match; [intros [= -> -> ->]%list_elem_of_singleton; right; by exists token, e|].
    case_match; [intros [= -> -> ->]%list_elem_of_singleton; right; by exists token, e|]. cbn [alloc].
    case_match; [|set_solver].
    intros (p & j & Hj & Hr & Hg)%(Hin _ _ (from_connect _ _ _ _ _)). simpl in Hj.
    apply insert_lookup in Hj as [[_ ->]|[_ Hj]]; [right|left; by exists p, j]. injection Hr as ->. injection Hg as ->. by exists token, e.
  - unfold write. destruct (heap rt !! p) as [k|] eqn:Hk; [|set_solver].
    destruct err; [intros Hc; left; eapply Hin; [apply from_complete|exact Hc]|].
    destruct (write_loop _ _ _ _ _ _) as [n []]; [|set_solver]. intros Hc. left.
    destruct (Hin _ _ (from_complete _ _ _ _ _ _ _) Hc) as (p1 & j' & (j & Hj & ->)%alter_lookup & Hr & Hg).
    exists p1, j. by case_decide.
  - unfold Cluster.read. destruct (heap rt !! p) as [k|] eqn:Hk; [|set_solver].
    destruct (Cluster.read_loop _ _ _ _) as [[o' f]|[i a]]; [|set_solver]. intros Hc. left. eapply Hin; [apply from_complete|exact Hc].
  - intros Hc. left. eapply Hin; [apply from_complete|exact Hc].
  - intros Hc. destruct (Hin _ _ (from_complete _ _ _ _ _ _ _) Hc) as (p1 & j & Hj & Hr & Hg). left. simpl in Hj.
    apply alter_lookup in Hj as (k & Hk & ->). case_decide; [done|]. by exists p1, k.
Qed.
(** The jobs that are left keep their grants. *)
Definition granted (rt : Runtime) (q : nat) (g : Grant) : Prop :=
  forall p j, heap rt !! p = Some j -> request j = Some q -> grant j = Some g.
Definition staged (rt : Runtime) (ev : Event) (q : nat) (g : Grant) : Prop :=
  granted rt q g /\ forall t e g', ev = Redeem q t e g' -> g' = g.
Lemma handle_granted world rt ev q g : staged rt ev q g -> granted (handle world rt ev).2 q g.
Proof.
  intros [Hg Hr] p j' Hj' Hq. destruct (handle_evolved world rt ev) as [_ _ Ej].
  destruct (Ej p j' Hj') as [j Hj _ Hw|j _ _ Hcr Hw|j send rw rr _ Hj Hw|j recvs rearm i a _ Hj _ Hw];
    injection Hw as _ _ _ _ _ _ Er Eg; rewrite Eg.
  - eapply Hg; [done|congruence].
  - destruct ev as [|r t e g'| | | |]; try done; injection Hcr as <-; simpl in *; [congruence|].
    f_equal. eapply Hr. repeat f_equal; congruence.
  - eapply Hg; [done|]. simpl in Er. congruence.
  - eapply Hg; [done|]. simpl in Er. congruence.
Qed.
End grants.

(** ** Answering *)

Section answers.
Context {B : Base64} {BL : Base64Laws B} {H : Hmac} {HL : HmacLaws H} {C : Subtle} {CL : SubtleLaws C}
  {S : Sha256} {E : Ecdsa} {CB : CryptoBackend} {JT : JsonText}
  {JO : JsonObject} {JC : Json Clearance.Clearance} {JCL : JsonLaws Clearance.Clearance}
  {JG : Json Nojs.Grant} {JP : Json Pow.Tuple}
  {JS : Json Submission} {JN : Json (Pow.Challenge * Z)} {A : Assets} {N : Nginx} {NL : NginxLaws N}.

(** A handler that only writes to its request. *)
Definition rq_only {X} (m : M X) : Prop :=
  exists f : Rq -> X * Rq, (forall rq w, m (rq, w) = ((f rq).1, ((f rq).2, w)))
    /\ forall rq, self (f rq).2 = self rq /\ waiting (f rq).2 = waiting rq.
Lemma rq_only_bind {X Y} (m : M X) (k : X -> M Y) : rq_only m -> (forall a, rq_only (k a)) -> rq_only (bind m k).
Proof.
  intros (f & Hf & Ff) Hk.
  exists (fun rq => let '(a, rq1) := f rq in ((k a (rq1, mkWorker (fun _ => 0) 0 (fun _ => 0) 0 (fun _ => []) 0 None None 0
    (fun _ => NoConnection) [] (start_refreshers ∅ (fun _ => false)))).1,
    (k a (rq1, mkWorker (fun _ => 0) 0 (fun _ => 0) 0 (fun _ => []) 0 None None 0
    (fun _ => NoConnection) [] (start_refreshers ∅ (fun _ => false)))).2.1)).
  split.
  - intros rq w. unfold bind. rewrite Hf. destruct (f rq) as [a rq1]. simpl. destruct (Hk a) as (h & Hh & _). by rewrite !Hh.
  - intros rq. destruct (Ff rq) as [F1 F2]. destruct (f rq) as [a rq1]. destruct (Hk a) as (h & Hh & Fh). rewrite !Hh. simpl in *.
    destruct (Fh rq1). split; congruence.
Qed.
Lemma rq_only_put f : (forall rq, self (f rq) = self rq /\ waiting (f rq) = waiting rq) -> rq_only (put_rq f).
Proof. intros Hf. exists (fun rq => (tt, f rq)). by split. Qed.
Lemma rq_only_ret {X} (x : X) : rq_only (ret x).
Proof. by exists (fun rq => (x, rq)). Qed.
Lemma rq_only_send st ct body hs : rq_only (send_and_finish_with_headers st ct body hs).
Proof.
  unfold send_and_finish_with_headers, send_with_headers. apply rq_only_bind.
  - exists (fun rq => let r1 := prepared st ct body hs rq in
      if negb (send_header r1 =? NGX_OK) || header_only r1 || beq body []
      then (send_header r1, with_response (response_of None r1) r1)
      else (output_filter r1 body, with_response (response_of (Some (body, true)) r1) r1)).
    split; [intros rq w; rewrite send_body_eq; cbv zeta; by destruct (negb _ || _ || _)|]. intros rq. cbv zeta.
    unfold prepared, typed. destruct (negb _ || _ || _); simpl; by destruct (find_str _ ct).
  - intros rc. apply rq_only_bind; [by apply rq_only_put|intros _; apply rq_only_ret].
Qed.
Lemma rq_only_finish o g : rq_only (finish o g).
Proof.
  assert (forall res rea d, rq_only (record res rea d)) as Hr.
  { intros res rea d. apply rq_only_put. intros rq. by destruct (record_in_fields res rea d rq) as (_ & _ & _ & ? & ?). }
  unfold finish. destruct o; [apply rq_only_bind; [apply Hr|intros _; destruct (redirect g); apply rq_only_send]|..];
    (apply rq_only_bind; [apply Hr|intros _; apply rq_only_send]).
Qed.
Lemma rq_only_finish_all cs : rq_only (finish_all cs).
Proof.
  induction cs as [|[[r o] g] cs IH]; simpl; [apply rq_only_ret|]. apply rq_only_bind; [apply rq_only_finish|intros _; exact IH].
Qed.
(** The answer of one completion. *)
Lemma finish_one o g rq w :
  idle rq ->
  exists rq' x, finish o g (rq, w) = (NGX_DONE, (rq', w)) /\ responses rq' = [x] /\ waiting rq' = None /\ self rq' = self rq
    /\ forall v, set_cookie v x <-> o = Accepted /\ v = Ledger.cookie g.
Proof.
  intros [Hu Hw]. destruct (finish_eq o g rq w Hu) as (rq' & x & Ef & E1 & _ & _ & _ & E3). exists rq', x.
  destruct (rq_only_finish o g) as (f & Hf & Ff). pose proof (Hf rq w) as Hf'. rewrite Ef in Hf'. injection Hf' as _ Eq.
  destruct (Ff rq) as [Fs Fw]. rewrite <- Eq in Fs, Fw. split_and!; try done. congruence.
Qed.
(** Redemption with the local ledger, and with the cluster. *)
Lemma redeem_local token e g rq w st :
  cluster w = None -> zone w = Some st -> idle rq ->
  let '(o, z) := Ledger.consume (clock w (ticks w)) (zone w) token e in
  exists rq' x, (redeem token e g (rq, w)).2 = (rq', with_zone z (tick w)) /\ responses rq' = [x] /\ waiting rq' = None
    /\ self rq' = self rq /\ forall v, set_cookie v x <-> o = Accepted /\ v = Ledger.cookie g.
Proof.
  intros Hc Hz Hi. unfold redeem, bind at 1 2, get_rq, get_worker. cbn [fst snd]. rewrite Hc.
  unfold bind. rewrite (consume_token_eq _ _ _ _ st) by done. destruct (Ledger.consume _ _ _ _) as [o z]. cbn [fst snd].
  destruct (finish_one o g rq (with_zone z (tick w)) Hi) as (rq' & x & -> & ?). by exists rq', x.
Qed.
Lemma redeem_cluster token e g rq w rt :
  cluster w = Some rt -> 
  let '(cs, rt') := handle (world_of w) rt (Redeem (self rq) token e g) in
  exists w', (redeem token e g (rq, w)).2 = ((finish_all (own (self rq) cs) (rq, w)).2.1, w')
    /\ cluster w' = Some rt' /\ zone w' = zone w /\ clock w' = clock w
    /\ outbox w' = outbox w ++ List.filter (fun c => negb (c.1.1 =? self rq)%nat) cs.
Proof.
  intros Hc. cbn [handle world_of now msec dial]. unfold redeem, bind at 1 2, get_rq, get_worker. cbn [fst snd]. rewrite Hc.
  destruct (Cluster.redeem _ _ _ _ _ _ _ _) as [cs rt']. fold (own (self rq) cs).
  destruct (rq_only_finish_all (own (self rq) cs)) as (f & Hf & _). rewrite Hf. cbn [fst snd].
  unfold bind. destruct (bool_decide _); cbn [ret put_worker fst snd]; rewrite Hf; eexists; split; [reflexivity| |reflexivity|];
    done.
Qed.
End answers.

(** ** The state of a visit *)

Section visits.
Context {B : Base64} {BL : Base64Laws B} {H : Hmac} {HL : HmacLaws H} {C : Subtle} {CL : SubtleLaws C}
  {S : Sha256} {E : Ecdsa} {CB : CryptoBackend} {JT : JsonText}
  {JO : JsonObject} {JC : Json Clearance.Clearance} {JCL : JsonLaws Clearance.Clearance}
  {JG : Json Nojs.Grant} {JP : Json Pow.Tuple}
  {JS : Json Submission} {JSL : JsonLaws Submission} {JN : Json (Pow.Challenge * Z)} {A : Assets} {N : Nginx} {NL : NginxLaws N}.

Definition reasons (v : Visit) : Reason := fun wk t e g =>
  on_arrival (v_loc v) (v_req v) wk t e g \/ on_body (v_loc v) (v_req v) wk t e g.
Lemma reasons_i64 v wk t e g : reasons v wk t e g -> in_i64 e = true.
Proof.
  intros [(l & _ & _ & _ & gr & ctx & _ & _ & -> & _)|(l & _ & sub & pk & ctx & d & Hck & _ & -> & _)].
  - unfold nojs_expiry, i64_add. apply wrap_i_range. lia.
  - destruct (ck_body _ _ _ _ _ _ _ Hck) as (body & _ & Hs). apply json_typed in Hs. unfold rust_ok, submission_val in Hs.
    to_prop. tauto.
Qed.
(** The worker a site started with, at some moment of the history. *)
Definition works_as (w0 wk : Worker) : Prop :=
  clock wk = clock w0 /\ config <$> cluster wk = config <$> cluster w0.
(** The six states.  [P] holds of the worker that redeemed.  [tk] is the ticket of the visit, the hash and expiry of the token it
    redeems; [won] says whether the store accepted it, [owed] whether the answer is pending,
    [gr] what grant may be pending. *)
Inductive visit_ok (P : Worker -> Prop) (tk : option (bytes * Z)) (won owed : Prop) (gr : Grant -> Prop) (v : Visit) : Prop :=
  | VLeft : tk = None -> v_rc v <> NGX_DONE -> idle (v_rq v) -> visit_ok P tk won owed gr v
  | VAnswered x : tk = None -> v_rc v = NGX_DONE -> responses (v_rq v) = [x] -> (forall c, ~ set_cookie c x) ->
      waiting (v_rq v) = None -> visit_ok P tk won owed gr v
  | VBody cb : tk = None -> v_rc v = NGX_DONE -> unanswered (v_rq v) -> waiting (v_rq v) = Some cb ->
      visit_ok P tk won owed gr v
  | VPending wk t e g : tk = Some (Redemption.id t, e) -> reasons v wk t e g -> P wk -> v_rc v = NGX_DONE ->
      idle (v_rq v) -> gr g -> ~ won -> owed -> visit_ok P tk won owed gr v
  | VGone wk t e g : tk = Some (Redemption.id t, e) -> reasons v wk t e g -> P wk -> v_rc v = NGX_DONE ->
      idle (v_rq v) -> v_gone v = true -> ~ won -> ~ owed -> visit_ok P tk won owed gr v
  | VRedeemed wk t e g x : tk = Some (Redemption.id t, e) -> reasons v wk t e g -> P wk -> v_rc v = NGX_DONE ->
      responses (v_rq v) = [x] -> waiting (v_rq v) = None ->
      (forall c, set_cookie c x <-> won /\ c = Ledger.cookie g) -> ~ owed -> visit_ok P tk won owed gr v.
Lemma visit_ok_iff P tk (won won' owed owed' : Prop) (gr gr' : Grant -> Prop) v :
  (won <-> won') -> (owed <-> owed') -> (forall g, gr g -> gr' g) ->
  visit_ok P tk won owed gr v -> visit_ok P tk won' owed' gr' v.
Proof.
  intros Hw Ho Hg [?|x ? ? ? ? ?|cb ? ? ? ?|wk t e g ? ? ? ? ? ? ? ?|wk t e g ? ? ? ? ? ? ? ?|wk t e g x ? ? ? ? ? ? Hx ?].
  - by apply VLeft.
  - by eapply VAnswered.
  - by eapply VBody.
  - eapply VPending; try done; [by apply Hg|tauto..].
  - eapply VGone; try done; tauto.
  - eapply VRedeemed; try done; [|tauto]. intros c. by rewrite Hx, Hw.
Qed.
Lemma with_rq_id v : with_rq v (v_rc v) (v_rq v) = v.
Proof. by destruct v. Qed.

(** *** Completions of one request *)

Lemma own_nil q cs : q ∉ answered cs -> own q cs = [].
Proof.
  unfold own, answered. induction cs as [|c cs IH]; [done|]. cbn [map List.filter]. intros [Hq Hc]%not_elem_of_cons.
  destruct (Nat.eqb_spec c.1.1 q); [by subst|by apply IH].
Qed.
Lemma own_one q cs : NoDup (answered cs) -> q ∈ answered cs -> exists o g, own q cs = [(q, o, g)] /\ forall o' g', (q, o', g') ∈ cs <-> o' = o /\ g' = g.
Proof.
  unfold own, answered. induction cs as [|[[r o] g] cs IH]; [set_solver|]. cbn [map List.filter fst].
  intros [Hr Hn]%NoDup_cons [->|Hq]%elem_of_cons.
  - rewrite Nat.eqb_refl. exists o, g. split; [f_equal; by apply own_nil|]. intros o' g'. rewrite elem_of_cons. split; [|by intros [-> ->]; left].
    intros [[= -> ->]|Hin]; [done|]. exfalso. apply Hr. apply list_elem_of_In, in_map_iff.
    exists (r, o', g'). split; [done|by apply list_elem_of_In].
  - destruct (Nat.eqb_spec r q); [by subst|]. destruct (IH Hn Hq) as (o' & g' & E1 & E2). exists o', g'. split; [done|].
    intros o2 g2. rewrite elem_of_cons, E2. split; [|by right]. by intros [[=]|?].
Qed.
Lemma own_others q r cs : own q (List.filter (fun c : Completion => negb (c.1.1 =? r)%nat) cs) = if (q =? r)%nat then [] else own q cs.
Proof.
  unfold own. induction cs as [|c cs IH]; [by destruct (q =? r)%nat|]. cbn [List.filter].
  destruct (Nat.eqb_spec c.1.1 r); cbn [negb List.filter].
  - rewrite IH. destruct (Nat.eqb_spec q r); [done|]. destruct (Nat.eqb_spec c.1.1 q); [congruence|done].
  - rewrite IH. destruct (Nat.eqb_spec q r); [|done]. destruct (Nat.eqb_spec c.1.1 q); [congruence|done].
Qed.
Lemma deliver_lookup w wk cs vs w' q :
  deliver w wk cs vs !! (w', q) =
  (fun v => if (w' =? w)%nat then with_rq v (v_rc v) (finish_all (own q cs) (v_rq v, wk)).2.1 else v) <$> vs !! (w', q).
Proof. unfold deliver. rewrite map_lookup_imap. by destruct (vs !! (w', q)). Qed.
(** One event of the Redis client, as one of its requests sees it. *)
Lemma delivered P world rt ev q v tk (won : Prop) wk :
  inv rt -> fires rt ev -> NoDup (owed rt ++ asked ev) ->
  (tk = None -> q ∉ owed rt ++ asked ev) -> (q ∈ dropped rt ev -> v_gone v = true) ->
  visit_ok P tk won (q ∈ owed rt ++ asked ev) (staged rt ev q) v ->
  let cs := (handle world rt ev).1 in let rt' := (handle world rt ev).2 in
  visit_ok P tk (won \/ exists g, (q, Accepted, g) ∈ cs) (q ∈ owed rt') (granted rt' q)
    (with_rq v (v_rc v) (finish_all (own q cs) (v_rq v, wk)).2.1).
Proof.
  intros Hi Hf Hnd Hno Hdrop Hv. cbv zeta. destruct (handle_step world rt ev Hi Hf) as [_ Hp _ _].
  pose proof (fun g => handle_granted world rt ev q g) as Hgr. pose proof (fun o g => handle_grants world rt ev q o g) as Hfrom.
  set (cs := (handle world rt ev).1) in *. set (rt' := (handle world rt ev).2) in *. clearbody cs rt'.
  rewrite Hp in Hnd. apply NoDup_app in Hnd as (Hnd & Hdis & (_ & Hdo & _)%NoDup_app).
  assert (forall g o, (q, o, g) ∈ cs -> q ∈ answered cs) as Hans.
  { intros g o Hc. apply list_elem_of_In, in_map_iff. exists (q, o, g). split; [done|by apply list_elem_of_In]. }
  (* a request that is not answered stays as it was *)
  assert (q ∉ answered cs ->
    with_rq v (v_rc v) (finish_all (own q cs) (v_rq v, wk)).2.1 = v
    /\ ((won \/ exists g, (q, Accepted, g) ∈ cs) <-> won)) as Hstay.
  { intros Hq. rewrite own_nil by done. split; [apply with_rq_id|]. split; [|by left]. intros [?|[g ?%Hans]]; done. }
  assert (forall x : nat, x ∈ owed rt ++ asked ev <-> x ∈ answered cs \/ x ∈ dropped rt ev \/ x ∈ owed rt') as Hmem
    by (intros x; rewrite Hp, !elem_of_app; done).
  destruct Hv as [Ht ? ?|x Ht ? ? ? ?|cb Ht ? ? ?|wk0 t e g Ht Hr Hc Hrc Hidle Hg Hw Ho|wk0 t e g Ht Hr Hc Hrc Hidle Hg Hw Ho
                 |wk0 t e g x Ht Hr Hc Hrc Hx Hwt Hset Ho].
  1-3: destruct Hstay as [-> _]; [by intros Hq; apply (Hno Ht), Hmem; left|].
  1: by apply VLeft.
  1: by eapply VAnswered.
  1: by eapply VBody.
  - destruct (decide (q ∈ answered cs)) as [Hq|Hq].
    + destruct (own_one q cs Hnd Hq) as (o & g' & -> & Hin). assert (g' = g) as ->.
      { destruct Hg as [Hg1 Hg2]. assert ((q, o, g') ∈ cs) as Hc' by by apply Hin.
        destruct (Hfrom o g' Hc') as [(p & j & Hj & Hrj & Hgj)|(t' & e' & Hev)];
          [specialize (Hg1 p j Hj Hrj); congruence|by eapply Hg2]. }
      cbn [finish_all]. unfold bind. destruct (finish_one o g (v_rq v) wk Hidle) as (rq' & x & -> & E1 & E2 & _ & E4).
      cbn [fst snd ret]. eapply (VRedeemed _ _ _ _ _ _ wk0 t e g x); try done.
      * intros c. rewrite E4. setoid_rewrite Hin. naive_solver.
      * intros Hn. apply (Hdis q Hq). rewrite elem_of_app. by right.
    + destruct (Hstay Hq) as [-> Hwon]. apply Hmem in Ho as [?|[Ho|Ho]]; [done| |].
      * eapply (VGone _ _ _ _ _ _ wk0 t e g); try done; [by apply Hdrop|by rewrite Hwon|].
        by apply Hdo.
      * eapply (VPending _ _ _ _ _ _ wk0 t e g); try done; [by apply Hgr|by rewrite Hwon].
  - destruct Hstay as [-> Hwon]; [intros Hq; apply Ho, Hmem; by left|].
    eapply (VGone _ _ _ _ _ _ wk0 t e g); try done; [by rewrite Hwon|]. intros Hn. apply Ho, Hmem. auto.
  - destruct Hstay as [-> Hwon]; [intros Hq; apply Ho, Hmem; by left|].
    eapply (VRedeemed _ _ _ _ _ _ wk0 t e g x); try done; [|intros Hn; apply Ho, Hmem; auto].
    intros c. by rewrite Hset, Hwon.
Qed.
End visits.

(** ** The clustered site refines the fleet *)

Section refinement.
Context {B : Base64} {BL : Base64Laws B} {H : Hmac} {HL : HmacLaws H} {C : Subtle} {CL : SubtleLaws C}
  {S : Sha256} {SL : Sha256Laws S} {E : Ecdsa} {CB : CryptoBackend} {JT : JsonText}
  {JO : JsonObject} {JC : Json Clearance.Clearance} {JCL : JsonLaws Clearance.Clearance}
  {JG : Json Nojs.Grant} {JP : Json Pow.Tuple}
  {JS : Json Submission} {JSL : JsonLaws Submission} {JN : Json (Pow.Challenge * Z)} {A : Assets} {N : Nginx} {NL : NginxLaws N}.
Context (cfg : nat -> Config) (ns ep : bytes) (sk : Z) (start : Site) (Hstart : cluster_start cfg ns ep sk start).

Record refines (site : Site) (fs : Fleet) : Prop := mkRefines {
  rf_fleet : freach cfg ns sk (redis start) fs;
  rf_server : redis site = server fs;
  rf_workers w : cluster (crew site w) = Some (workers fs w);
  rf_clock w : clock (crew site w) = clock (crew start w);
  rf_wires k : wires site !! k = (fun lk => (lk_in lk, lk_out lk)) <$> links fs !! k;
  rf_owed w : NoDup (owed (workers fs w));
  rf_owed_ticket w r : r ∈ owed (workers fs w) -> is_Some (tickets fs !! (w, r));
  rf_won_ticket k : k ∈ won fs -> is_Some (tickets fs !! k);
  rf_tickets k : is_Some (tickets fs !! k) -> is_Some (visits site !! k);
  rf_visits w r v : visits site !! (w, r) = Some v -> self (v_rq v) = r
    /\ visit_ok (works_as (crew start w)) (tickets fs !! (w, r)) ((w, r) ∈ won fs) (r ∈ owed (workers fs w))
         (granted (workers fs w) r) v;
}.
Lemma refines_start : refines start (boot cfg (redis start)).
Proof.
  destruct Hstart as (_ & _ & Hw & _ & Hio & Hv). split; simpl; try done.
  - apply freach_boot.
  - intros k. by rewrite Hio.
  - intros w. apply NoDup_nil_2.
  - intros w r Hr. by apply elem_of_nil in Hr.
  - intros k Hk. by apply elem_of_nil in Hk.
  - intros k [x Hx]. done.
  - intros w r v. by rewrite Hv.
Qed.
Lemma refines_inv site fs w : refines site fs -> inv (workers fs w).
Proof.
  intros R. destruct Hstart as (Hd & Hs & _).
  by destruct (freach_ok cfg ns ep sk Hd _ _ Hs (rf_fleet _ _ R)) as [F _ _ _ _ _]; destruct (F w).
Qed.
Lemma refines_works_as site fs w wk :
  refines site fs -> clock wk = clock (crew site w) -> cluster wk = cluster (crew site w) -> works_as (crew start w) wk.
Proof.
  intros R Ec El. destruct Hstart as (Hd & Hs & Hw & _). split; [rewrite Ec; apply R|].
  destruct (freach_ok cfg ns ep sk Hd _ _ Hs (rf_fleet _ _ R)) as [F _ _ _ _ _]. destruct (F w) as [_ Hc].
  rewrite El, (rf_workers _ _ R), Hw. simpl. by rewrite Hc.
Qed.
Lemma elem_of_winners w cs w' r : (w', r) ∈ winners w cs <-> w' = w /\ exists g, (r, Accepted, g) ∈ cs.
Proof.
  unfold winners. rewrite list_elem_of_In, in_map_iff. setoid_rewrite <- list_elem_of_In. split.
  - intros ([[q o] g] & [= -> ->] & [Ho Hin]%list_elem_of_filter). simpl in Ho. subst o. eauto.
  - intros (-> & g & Hin). exists (r, Accepted, g). split; [done|]. by apply list_elem_of_filter.
Qed.
Lemma elem_of_answered r cs : r ∈ answered cs <-> exists o g, (r, o, g) ∈ cs.
Proof.
  unfold answered. rewrite list_elem_of_In, in_map_iff. setoid_rewrite <- list_elem_of_In. split.
  - intros ([[q o] g] & Hq & Hin). simpl in Hq. subst q. eauto.
  - intros (o & g & Hin). by exists (r, o, g).
Qed.
Lemma rewire_relink (w : nat) (world : World) (rt rt' : Runtime) (ev : Event) (ls : gmap (nat * nat) Link) (ws : gmap (nat * nat) (bytes * bytes)) :
  (forall k : nat * nat, ws !! k = (fun lk => (lk_in lk, lk_out lk)) <$> ls !! k) ->
  forall k : nat * nat, rewire w rt rt' ev ws !! k = (fun lk => (lk_in lk, lk_out lk)) <$> relink w world rt rt' ev ls !! k.
Proof.
  intros Hw k. destruct ev as [ex|r t e g|p err send rw rr|p recvs ra|p|p]; cbn [rewire relink dialled]; try apply Hw.
  1-2: destruct (_ =? _)%nat; [apply Hw|]; destruct (decide (k = (w, next rt))) as [->|Hne];
    [by rewrite !lookup_insert_eq|by rewrite !lookup_insert_ne].
  - destruct (heap rt !! p); [|apply Hw]. destruct (decide (k = (w, p))) as [->|Hne].
    + rewrite !lookup_alter_eq, Hw. by destruct (ls !! (w, p)).
    + by rewrite !lookup_alter_ne.
  - destruct (decide (k = (w, p))) as [->|Hne].
    + rewrite !lookup_alter_eq, Hw. by destruct (ls !! (w, p)).
    + by rewrite !lookup_alter_ne.
Qed.
Lemma finish_all_worker cs rq wk wk' : (finish_all cs (rq, wk)).2.1 = (finish_all cs (rq, wk')).2.1.
Proof. destruct (rq_only_finish_all cs) as (f & Hf & _). by rewrite !Hf. Qed.
Lemma finish_all_self cs rq wk : self (finish_all cs (rq, wk)).2.1 = self rq.
Proof. destruct (rq_only_finish_all cs) as (f & Hf & Ff). rewrite Hf. apply Ff. Qed.

(** An event of a worker's client, on the visits [vs] as the event finds them. *)
Lemma refine_work site fs w world ev site' wk vs :
  refines site fs -> may sk fs (Work w world ev) ->
  let rt := workers fs w in let fs' := fstep ns fs (Work w world ev) in
  redis site' = redis site ->
  (forall x, x <> w -> crew site' x = crew site x) ->
  cluster (crew site' w) = Some (handle world rt ev).2 -> clock (crew site' w) = clock (crew site w) ->
  wires site' = rewire w rt (handle world rt ev).2 ev (wires site) ->
  visits site' = deliver w wk (handle world rt ev).1 vs ->
  (forall k, k.1 <> w -> vs !! k = visits site !! k) ->
  (forall k, is_Some (visits site !! k) -> is_Some (vs !! k)) ->
  match ev with Redeem r _ _ _ => is_Some (vs !! (w, r)) | _ => True end ->
  (forall q v, vs !! (w, q) = Some v -> self (v_rq v) = q /\ (q ∈ dropped rt ev -> v_gone v = true)
     /\ visit_ok (works_as (crew start w)) (tickets fs' !! (w, q)) ((w, q) ∈ won fs) (q ∈ owed rt ++ asked ev) (staged rt ev q) v) ->
  refines site' fs'.
Proof.
  intros R Hm. cbv zeta. intros Er Ecrew Ecl Eck Ew Ev Hvs1 Hvs2 Hvr Hvs.
  pose proof (refines_inv _ _ w R) as Hi. pose proof Hm as (Hf & _ & Hmay).
  assert (Hfr : freach cfg ns sk (redis start) (fstep ns fs (Work w world ev))) by (apply freach_step; [apply R|done]).
  destruct R as [_ R2 R3 R4 R5 R6 R7 R8 R9 R10].
  assert (NoDup (owed (workers fs w) ++ asked ev)) as Hnd.
  { apply NoDup_app. split; [apply R6|]. destruct ev; cbn [asked] in *; try (split; [by intros ? _ ?%elem_of_nil|constructor]).
    split; [|apply NoDup_singleton]. intros q Hq ->%list_elem_of_singleton. apply R7 in Hq as [? ?]. destruct Hmay as [? _]. congruence. }
  destruct (handle_step world _ ev Hi Hf) as [_ Hp _ _].
  pose proof (fun q v tk wn => delivered (works_as (crew start w)) world (workers fs w) ev q v tk wn wk Hi Hf Hnd) as Hdel.
  assert (forall k, is_Some (reticket w ev (tickets fs) !! k) <->
    is_Some (tickets fs !! k) \/ k.1 = w /\ k.2 ∈ asked ev) as Htk.
  { intros [w0 q]. destruct ev as [|r t e g| | | |]; cbn [reticket asked]; try (rewrite elem_of_nil; tauto).
    rewrite lookup_insert_is_Some', list_elem_of_singleton. simpl. split; [intros [[= -> ->]|?]; auto|intros [?|[-> ->]]; auto]. }
  cbn [fstep] in *. destruct (handle world (workers fs w) ev) as [cs rt']. cbn [fst snd] in *.
  assert (forall q, q ∈ owed (workers fs w) ++ asked ev -> is_Some (reticket w ev (tickets fs) !! (w, q))) as Hasked.
  { intros q [?|?]%elem_of_app; apply Htk; [left; by apply R7|by right]. }
  assert (forall q, q ∈ answered cs \/ q ∈ owed rt' -> is_Some (reticket w ev (tickets fs) !! (w, q))) as Hafter.
  { intros q Hq. apply Hasked. rewrite Hp, !elem_of_app. tauto. }
  split; cbn [server workers links tickets won]; [done|congruence|..].
  - intros x. destruct (Nat.eqb_spec x w) as [->|]; [done|]. by rewrite Ecrew.
  - intros x. destruct (decide (x = w)) as [->|]; [by rewrite Eck|]. by rewrite Ecrew.
  - rewrite Ew. by apply rewire_relink.
  - intros x. destruct (Nat.eqb_spec x w) as [->|]; [|done]. rewrite Hp in Hnd.
    apply NoDup_app in Hnd as (_ & _ & Hnd). by apply NoDup_app in Hnd as (_ & _ & Hnd).
  - intros x r Hr. destruct (Nat.eqb_spec x w) as [->|]; [by apply Hafter; right|]. apply Htk. left. by apply R7.
  - intros [x r] [Hk|[-> [g Hg]]%elem_of_winners]%elem_of_app; [apply Htk; left; by apply R8|].
    apply Hafter. left. apply elem_of_answered. eauto.
  - intros [x r] Hk. rewrite Ev, deliver_lookup. apply fmap_is_Some. apply Htk in Hk as [Hk|[Hx Hq]]; [by apply Hvs2, R9|].
    simpl in *. subst x. destruct ev; cbn [asked] in Hq; try by apply elem_of_nil in Hq. apply list_elem_of_singleton in Hq as ->. done.
  - intros x r v'. rewrite Ev, deliver_lookup. destruct (Nat.eqb_spec x w) as [->|Hx].
    + intros (v & Hv & ->)%fmap_Some. destruct (Hvs r v Hv) as (Hself & Hdrop & Hok).
      split; [cbn [with_rq v_rq]; by rewrite finish_all_self|].
      assert (reticket w ev (tickets fs) !! (w, r) = None -> r ∉ owed (workers fs w) ++ asked ev) as Hno.
      { intros Hn [? ?]%Hasked. congruence. }
      eapply visit_ok_iff; [| | |exact (Hdel r v _ _ Hno Hdrop Hok)]; [|done|done].
      rewrite elem_of_app, elem_of_winners. split; [intros [?|?]; auto|intros [?|[? ?]]; auto].
    + rewrite option_fmap_id. rewrite Hvs1 by done. intros Hv. destruct (R10 x r v' Hv) as [? Hok]. split; [done|].
      assert (reticket w ev (tickets fs) !! (x, r) = tickets fs !! (x, r)) as ->
        by (destruct ev; cbn [reticket]; try done; rewrite lookup_insert_ne; congruence).
      eapply visit_ok_iff; [| | |exact Hok]; [|done|done]. rewrite elem_of_app, elem_of_winners. split; [auto|by intros [?|[? _]]].
Qed.

(** *** Handlers *)

Lemma owed_job rt p j q : heap rt !! p = Some j -> request j = Some q -> q ∈ owed rt.
Proof. intros Hj Hr. unfold owed. apply list_elem_of_omap. exists (p, j). split; [by apply elem_of_map_to_list|done]. Qed.
Lemma deliver_nil w wk vs : deliver w wk [] vs = vs.
Proof.
  apply map_eq. intros [w' q]. rewrite deliver_lookup. destruct (vs !! _) as [v|]; [|done]. cbn [fmap option_fmap option_map].
  f_equal. destruct (_ =? _)%nat; [|done]. apply with_rq_id.
Qed.
Lemma dialled_same w rt ws : dialled w rt rt ws = ws.
Proof. destruct rt; cbn [dialled]; [by rewrite Nat.eqb_refl|done]. Qed.
(** What a redemption completes, for its own request at once and for others afterwards. *)
Lemma deliver_own w wk wk' r cs v rq vs :
  deliver w wk' (List.filter (fun c : Completion => negb (c.1.1 =? r)%nat) cs)
    (<[(w, r) := with_rq v NGX_DONE (finish_all (own r cs) (rq, wk)).2.1]> vs)
  = deliver w wk cs (<[(w, r) := with_rq v NGX_DONE rq]> vs).
Proof.
  apply map_eq. intros [w' q]. rewrite !deliver_lookup, own_others.
  destruct (decide ((w, r) = (w', q))) as [[= <- <-]|Hne].
  - rewrite !lookup_insert_eq, !Nat.eqb_refl. done.
  - rewrite !lookup_insert_ne by done. destruct (vs !! (w', q)) as [v'|]; [|done]. cbn [fmap option_fmap option_map].
    f_equal. destruct (Nat.eqb_spec w' w) as [->|]; [|done]. destruct (Nat.eqb_spec q r) as [->|]; [done|].
    f_equal. apply finish_all_worker.
Qed.
(** A request with no ticket changes state without the store. *)
Lemma refine_quiet site fs w r site' v' :
  refines site fs -> redis site' = redis site ->
  (forall x, cluster (crew site' x) = cluster (crew site x) /\ clock (crew site' x) = clock (crew site x)) ->
  wires site' = wires site -> visits site' = <[(w, r) := v']> (visits site) -> self (v_rq v') = r ->
  visit_ok (works_as (crew start w)) (tickets fs !! (w, r)) ((w, r) ∈ won fs) (r ∈ owed (workers fs w)) (granted (workers fs w) r) v' ->
  refines site' fs.
Proof.
  intros [R1 R2 R3 R4 R5 R6 R7 R8 R9 R10] Er Ec Ew Ev Hself Hok. split; try done; try congruence.
  - intros x. destruct (Ec x) as [-> _]. done.
  - intros x. destruct (Ec x) as [_ ->]. done.
  - intros k Hk. rewrite Ev. apply lookup_insert_is_Some'. right. by apply R9.
  - intros w' q v. rewrite Ev. intros [[[= <- <-] <-]|[_ Hv]]%lookup_insert_Some; [done|]. by apply R10.
Qed.
Lemma crew_same w wk (crew : nat -> Worker) :
  cluster wk = cluster (crew w) -> clock wk = clock (crew w) ->
  forall x, cluster (set_worker w wk crew x) = cluster (crew x) /\ clock (set_worker w wk crew x) = clock (crew x).
Proof. intros E1 E2 x. unfold set_worker. destruct (Nat.eqb_spec x w) as [->|]; done. Qed.
Lemma set_worker_other w wk (crew : nat -> Worker) x : x <> w -> set_worker w wk crew x = crew x.
Proof. intros Hx. unfold set_worker. by destruct (Nat.eqb_spec x w). Qed.
Lemma set_worker_self w wk (crew : nat -> Worker) : set_worker w wk crew w = wk.
Proof. unfold set_worker. by rewrite Nat.eqb_refl. Qed.
(** A handler that hands a token to the cluster. *)
Lemma refine_redeem site fs w r t v rq1 w1 wk1 tok e g :
  let wk0 := enter t (store site) (crew site w) in
  refines site fs -> tickets fs !! (w, r) = None -> same (v_rq v, wk0) (rq1, w1) -> idle rq1 -> self (v_rq v) = r ->
  reasons v wk1 tok e g -> works_as (crew start w) wk1 ->
  let '(rq, wk) := (redeem tok e g (rq1, w1)).2 in
  exists fs', refines (mkSite (set_worker w wk (crew site)) (zone wk) (redis site) (dialled w (cluster wk0) (cluster wk) (wires site))
    (deliver w wk (outbox wk) (<[(w, r) := with_rq v NGX_DONE rq]> (visits site)))) fs'.
Proof.
  cbv zeta. set (wk0 := enter t (store site) (crew site w)). intros R Ht [E1 E2 E3 E4 E5 E6 E7] Hid Hs HJ HP. cbn [fst snd] in *.
  assert (self rq1 = r) as Hs1 by congruence.
  assert (cluster w1 = Some (workers fs w)) as Hcl by (rewrite E4; apply (rf_workers _ _ R)).
  pose proof (redeem_cluster tok e g rq1 w1 _ Hcl) as Hrd. rewrite Hs1 in Hrd.
  destruct (handle (world_of w1) (workers fs w) (Redeem r tok e g)) as [cs rt'] eqn:Eh.
  destruct Hrd as (wk & -> & F1 & F2 & F3 & F4).
  exists (fstep ns fs (Work w (world_of w1) (Redeem r tok e g))).
  assert (r ∉ owed (workers fs w)) as Hnot by (intros [? ?]%(rf_owed_ticket _ _ R); congruence).
  rewrite F1, F4, E7. cbn [wk0 enter outbox app cluster]. rewrite deliver_own, (rf_workers _ _ R).
  apply (refine_work site fs w (world_of w1) (Redeem r tok e g) _ w1 (<[(w, r) := with_rq v NGX_DONE rq1]> (visits site)));
    rewrite ?Eh; cbn [fst snd crew redis wires visits]; try done.
  - split; [done|]. split; [|by split; [|by eapply reasons_i64]]. cbn [world_of Cluster.now]. rewrite E2. cbn [wk0 enter clock].
    rewrite (rf_clock _ _ R). by destruct Hstart as (_ & _ & _ & ? & _).
  - intros x Hx. by apply set_worker_other.
  - by rewrite set_worker_self.
  - rewrite set_worker_self. by rewrite F3, E2.
  - intros [w' q] Hne. rewrite lookup_insert_ne; [done|]. intros [= -> _]. done.
  - intros k Hk. apply lookup_insert_is_Some'. by right.
  - rewrite lookup_insert_eq. done.
  - intros q v' Hv'. cbn [dropped asked fstep]. rewrite Eh. cbn [tickets reticket].
    apply lookup_insert_Some in Hv' as [[Eq <-]|[Hne Hv']]; [injection Eq as <-|].
    + split; [done|]. split; [by intros ?%elem_of_nil|]. rewrite lookup_insert_eq.
      eapply (VPending _ _ _ _ _ _ wk1 tok e g); try done.
      * split; [|by intros ? ? ? [= _ _ ->]]. intros p j Hj Hq. exfalso. apply Hnot. by eapply owed_job.
      * intros [? ?]%(rf_won_ticket _ _ R). congruence.
      * apply elem_of_app. right. by apply list_elem_of_singleton.
    + destruct (rf_visits _ _ R w q v' Hv') as [? Hok]. split; [done|]. split; [by intros ?%elem_of_nil|].
      rewrite lookup_insert_ne by done. eapply visit_ok_iff; [| | |exact Hok]; [done| |].
      * rewrite elem_of_app, list_elem_of_singleton. split; [auto|]. intros [?| ->]; [done|congruence].
      * intros g' Hg'. split; [done|]. intros ? ? ? [= -> _ _]. congruence.
Qed.
Lemma refine_serve W site fs w r t v m :
  refines site fs -> tickets fs !! (w, r) = None -> idle (v_rq v) -> self (v_rq v) = r -> fated W (reasons v) m ->
  exists fs', refines (serve site w r t v m) fs'.
Proof.
  intros R Ht Hi Hs Hm. unfold serve. set (wk0 := enter t (store site) (crew site w)).
  pose proof (Hm (v_rq v, wk0) Hi) as Hf. destruct (m (v_rq v, wk0)) as [rc [rq wk]]. cbn [fst snd] in Hf.
  assert (same (v_rq v, wk0) (rq, wk) ->
    visit_ok (works_as (crew start w)) None ((w, r) ∈ won fs) (r ∈ owed (workers fs w)) (granted (workers fs w) r) (with_rq v rc rq) ->
    refines (mkSite (set_worker w wk (crew site)) (zone wk) (redis site) (dialled w (cluster wk0) (cluster wk) (wires site))
      (deliver w wk (outbox wk) (<[(w, r) := with_rq v rc rq]> (visits site)))) fs) as Hquiet.
  { intros [E1 E2 _ E4 _ _ E7] Hok. cbn [fst snd] in *. rewrite E7. cbn [wk0 enter outbox]. rewrite deliver_nil, E4, dialled_same.
    eapply (refine_quiet site fs w r); [done|done| |done|done|simpl; congruence|by rewrite Ht]. by apply crew_same. }
  destruct Hf as [Hrc Hid Hk|x Hrc Hx Hno Hw Hk|cb _ Hrc Hu Hw Hk|wk1 tok e g [rq1 w1] Hrc HJ Hc Hc' Hid Hk Hred].
  - exists fs. apply Hquiet; [done|]. by apply VLeft.
  - exists fs. apply Hquiet; [done|]. by eapply VAnswered.
  - exists fs. apply Hquiet; [done|]. by eapply VBody.
  - pose proof (refine_redeem site fs w r t v rq1 w1 wk1 tok e g R Ht Hk Hid Hs HJ) as Hr. rewrite <- Hred, <- Hrc in Hr.
    apply Hr. by eapply (refines_works_as site fs).
Qed.

(** *** Every event *)

Lemma arrival_fated loc req v : v_loc v = loc -> v_req v = req -> fated True (reasons v) (pow_gate_access loc req).
Proof. intros <- <-. eapply fated_mono; [|apply access_fate]. by left. Qed.
Lemma callback_fated cb v : fated False (reasons v) (callback cb (v_loc v) (v_req v)).
Proof.
  unfold callback. destruct cb; eapply fated_mono; [|apply verify_body_fate| |apply body_ready_fate]; by right.
Qed.
(** A request whose body is awaited has no ticket, and is as it came when the body is there. *)
Lemma awaited P tk (won owed : Prop) gr v cb :
  visit_ok P tk won owed gr v -> waiting (v_rq v) = Some cb -> tk = None /\ idle (resumed (v_rq v)).
Proof.
  intros [? ? [_ Hw]|? ? ? ? ? Hw|? ? ? Hu ?|? ? ? ? ? ? ? ? [_ Hw] ? ? ?|? ? ? ? ? ? ? ? [_ Hw] ? ? ?|? ? ? ? ? ? ? ? ? ? Hw ? ?];
    try congruence. by intros _.
Qed.
Lemma visit_ok_gone P tk (won owed : Prop) gr v : visit_ok P tk won owed gr v -> visit_ok P tk won owed gr (set_gone v).
Proof.
  intros [?|x ? ? ? ? ?|cb ? ? ? ?|wk t e g ? ? ? ? ? ? ? ?|wk t e g ? ? ? ? ? ? ? ?|wk t e g x ? ? ? ? ? ? ? ?].
  - by apply VLeft.
  - by eapply VAnswered.
  - by eapply VBody.
  - by eapply VPending.
  - by eapply VGone.
  - by eapply VRedeemed.
Qed.
(** Those who leave are those an event drops. *)
Lemma leave_lookup w rt ev vs k :
  leave w rt ev vs !! k =
  (fun v => if bool_decide (k.1 = w /\ k.2 ∈ dropped rt ev) then set_gone v else v) <$> vs !! k.
Proof.
  destruct k as [w' q]. cbn [fst snd]. assert ((fun v : Visit => v) <$> vs !! (w', q) = vs !! (w', q)) as Hid by apply option_fmap_id.
  destruct ev as [| | | | |p]; cbn [leave dropped]; try (rewrite bool_decide_eq_false_2 by (intros [_ []%not_elem_of_nil]); done).
  destruct (heap rt !! p) as [j|];
    [|rewrite bool_decide_eq_false_2 by (intros [_ []%not_elem_of_nil]); done].
  destruct (request j) as [r|]; cbn [option_list];
    [|rewrite bool_decide_eq_false_2 by (intros [_ []%not_elem_of_nil]); done].
  destruct (decide ((w, r) = (w', q))) as [[= <- <-]|Hne].
  - rewrite lookup_alter_eq, bool_decide_eq_true_2; [done|]. split; [done|]. by apply list_elem_of_singleton.
  - rewrite lookup_alter_ne, bool_decide_eq_false_2; [done| |done]. intros [-> ->%list_elem_of_singleton]. done.
Qed.
Lemma refine_network site fs w t ev :
  refines site fs -> can sk site (Network w t ev) -> exists fs', refines (hstep ns site (Network w t ev)) fs'.
Proof.
  intros R (rt & Hrt & Hf & Hev). rewrite (rf_workers _ _ R) in Hrt. injection Hrt as <-. cbn [hstep].
  set (wk := enter t (store site) (crew site w)). assert (cluster wk = Some (workers fs w)) as Hcl by apply (rf_workers _ _ R).
  rewrite Hcl. exists (fstep ns fs (Work w (world_of wk) ev)).
  destruct (handle (world_of wk) (workers fs w) ev) as [cs rt'] eqn:Eh.
  assert (asked ev = [] /\ forall ts, reticket w ev ts = ts) as [Ha Ht] by (destruct ev; done).
  apply (refine_work site fs w (world_of wk) ev _ wk (leave w (workers fs w) ev (visits site)));
    rewrite ?Eh; cbn [fst snd crew redis wires visits]; try done.
  - split; [done|]. split.
    + cbn [world_of Cluster.now wk enter clock]. rewrite (rf_clock _ _ R). by destruct Hstart as (_ & _ & _ & ? & _).
    + destruct ev as [|r tok e g| |p recvs ra| |]; try done. destruct Hev as (io & Hio & Hp).
      rewrite (rf_wires _ _ R) in Hio. apply fmap_Some in Hio as (lk & Hlk & ->). by exists lk.
  - intros x Hx. by apply set_worker_other.
  - by rewrite set_worker_self.
  - by rewrite set_worker_self.
  - intros [w' q] Hne. rewrite leave_lookup, bool_decide_eq_false_2; [apply option_fmap_id|]. by intros [? _].
  - intros k Hk. rewrite leave_lookup. by apply fmap_is_Some.
  - by destruct ev.
  - intros q v. rewrite leave_lookup. cbn [fst snd]. intros (v0 & Hv0 & ->)%fmap_Some. cbn [fstep]. rewrite Eh. cbn [tickets].
    rewrite Ht, Ha, app_nil_r. destruct (rf_visits _ _ R w q v0 Hv0) as [Hs Hok].
    assert (visit_ok (works_as (crew start w)) (tickets fs !! (w, q)) ((w, q) ∈ won fs) (q ∈ owed (workers fs w))
      (staged (workers fs w) ev q) v0) as Hok'.
    { eapply visit_ok_iff; [| | |exact Hok]; [done|done|]. intros g Hg. split; [done|]. by intros ? ? ? ->. }
    case_bool_decide as Hd.
    + split; [done|]. split; [done|]. by apply visit_ok_gone.
    + split; [done|]. split; [|done]. intros Hq. by destruct Hd.
Qed.
Lemma refine_redis site fs w p refuse seen ms :
  refines site fs -> can sk site (RedisServes w p refuse seen ms) ->
  exists fs', refines (hstep ns site (RedisServes w p refuse seen ms)) fs'.
Proof.
  intros R Hu. exists (fstep ns fs (Serve w p refuse seen ms)). cbn [can hstep] in *.
  assert (freach cfg ns sk (redis start) (fstep ns fs (Serve w p refuse seen ms))) as Hfr.
  { apply freach_step; [apply R|]. cbn [may]. by rewrite <- (rf_server _ _ R). }
  pose proof R as [_ R2 R3 R4 R5 R6 R7 R8 R9 R10]. cbn [fstep] in *. rewrite R5.
  destruct (links fs !! (w, p)) as [lk|] eqn:Hlk; cbn [fmap option_fmap option_map fst snd]; [|exact R].
  destruct (read_command (lk_in lk)) as [[cmd rest]|]; [|exact R]. rewrite R2.
  destruct (if refuse then _ else _) as [line s].
  split; cbn [server workers links tickets won crew redis wires visits]; try done.
  intros k. destruct (decide (k = (w, p))) as [->|Hne]; [by rewrite !lookup_insert_eq|by rewrite !lookup_insert_ne].
Qed.
Lemma refine_step site fs h : refines site fs -> can sk site h -> exists fs', refines (hstep ns site h) fs'.
Proof.
  intros R Hcan. destruct h as [w r t loc req|w r t|w t ev|w p refuse seen ms].
  - apply (refine_serve True site fs); try done; [|by apply arrival_fated].
    destruct (tickets fs !! (w, r)) eqn:Ht; [|done]. cbn [can] in Hcan.
    destruct (rf_tickets _ _ R (w, r)) as [v Hv]; [by rewrite Ht|congruence].
  - destruct Hcan as (v & Hv & cb & Hcb). cbn [hstep]. rewrite Hv, Hcb.
    destruct (rf_visits _ _ R w r v Hv) as [Hs Hok]. destruct (awaited _ _ _ _ _ _ _ Hok Hcb) as [Ht Hid].
    apply (refine_serve False site fs); try done.
    apply (callback_fated cb (with_rq v (v_rc v) (resumed (v_rq v)))).
  - by apply (refine_network site fs).
  - by apply (refine_redis site fs).
Qed.
Lemma refine_reach site : hreach ns sk start site -> exists fs, refines site fs.
Proof.
  induction 1 as [|site h _ [fs R] Hcan]; [exists (boot cfg (redis start)); apply refines_start|]. by eapply refine_step.
Qed.
End refinement.

(** ** The site with the local ledger *)

Section shared.
Context {B : Base64} {BL : Base64Laws B} {H : Hmac} {HL : HmacLaws H} {C : Subtle} {CL : SubtleLaws C}
  {S : Sha256} {E : Ecdsa} {CB : CryptoBackend} {JT : JsonText}
  {JO : JsonObject} {JC : Json Clearance.Clearance} {JCL : JsonLaws Clearance.Clearance}
  {JG : Json Nojs.Grant} {JP : Json Pow.Tuple}
  {JS : Json Submission} {JSL : JsonLaws Submission} {JN : Json (Pow.Challenge * Z)} {A : Assets} {N : Nginx} {NL : NginxLaws N}.
Context (start : Site) (Hstart : local_start start).

(** What the ledger has recorded: the accepted requests redeemed different tokens, all gone. *)
Record ledgered (st : Ledger.State) (tk : gmap (nat * nat) (bytes * Z)) (won : gset (nat * nat)) : Prop := mkLedgered {
  lg_inv : ledger_inv st;
  lg_gone k : k ∈ won -> exists i e, tk !! k = Some (i, e) /\ ledger_gone st i e;
  lg_once k k' : k ∈ won -> k' ∈ won -> tk !! k = tk !! k' -> k = k';
}.
Record shares (site : Site) (tk : gmap (nat * nat) (bytes * Z)) (won : gset (nat * nat)) : Prop := mkShares {
  sh_cluster w : cluster (crew site w) = None;
  sh_clock w : clock (crew site w) = clock (crew start w);
  sh_store : exists st, store site = Some st /\ ledgered st tk won;
  sh_tickets k : is_Some (tk !! k) -> is_Some (visits site !! k);
  sh_visits w r v : visits site !! (w, r) = Some v -> self (v_rq v) = r
    /\ visit_ok (works_as (crew start w)) (tk !! (w, r)) ((w, r) ∈ won) False (fun _ => False) v;
}.
Lemma shares_start : shares start ∅ ∅.
Proof.
  destruct Hstart as (Hc & (st & Hst & Hi) & Hv). split; try done.
  - exists st. split; [done|]. split; [done|..]; set_solver.
  - intros k [? ?]. done.
  - intros w r v. by rewrite Hv.
Qed.
(** One redemption under the lock. *)
Lemma ledgered_consume wall st tk won k t e o st' :
  ledgered st tk won -> tk !! k = None -> locked_consume wall st (Redemption.id t) e = (o, st') ->
  ledgered st' (<[k := (Redemption.id t, e)]> tk) (if decide (o = Accepted) then {[k]} ∪ won else won).
Proof.
  intros [Li Lg Lo] Hk Ec. destruct (locked_consume_once wall st (Redemption.id t) e Li) as (Hi & Hstay & Hacc & Hnew).
  rewrite Ec in Hi, Hstay, Hacc, Hnew. cbn [fst snd] in *.
  assert (forall k', k' ∈ won -> k' <> k) as Hne by (intros k' (? & ? & ? & _)%Lg ->; congruence).
  assert (forall k', k' ∈ won -> <[k := (Redemption.id t, e)]> tk !! k' = tk !! k') as Hold
    by (intros k' Hk'; apply lookup_insert_ne; intros ->; by apply (Hne k')).
  assert (forall k', k' ∈ won -> exists i x, <[k := (Redemption.id t, e)]> tk !! k' = Some (i, x) /\ ledger_gone st' i x) as Hg.
  { intros k' Hk'. rewrite Hold by done. destruct (Lg k' Hk') as (i & x & ? & ?). eauto. }
  destruct (decide (o = Accepted)) as [Ho|Ho]; [|split; [done|done|]; intros k1 k2 H1 H2; rewrite !Hold by done; by apply Lo].
  assert (forall k', k' ∈ won -> <[k := (Redemption.id t, e)]> tk !! k' <> Some (Redemption.id t, e)) as Hdiff.
  { intros k' Hk'. rewrite Hold by done. destruct (Lg k' Hk') as (i & x & -> & Hx). intros [= -> ->]. by apply Hnew. }
  split; [done|..].
  - intros k' [->%elem_of_singleton|Hk']%elem_of_union; [|by apply Hg]. rewrite lookup_insert_eq. eauto.
  - intros k1 k2 [->%elem_of_singleton|H1]%elem_of_union [->%elem_of_singleton|H2]%elem_of_union; rewrite ?lookup_insert_eq.
    + done.
    + intros Hx. by destruct (Hdiff k2 H2).
    + intros Hx. by destruct (Hdiff k1 H1).
    + rewrite !Hold by done. by apply Lo.
Qed.
(** The worker and the visit of one handler are put back; the rest of the site is as it was. *)
Lemma share_post site tk won tk' won' w r wk ws v' :
  shares site tk won -> cluster wk = None -> clock wk = clock (crew site w) ->
  (exists st', zone wk = Some st' /\ ledgered st' tk' won') ->
  (forall k, k <> (w, r) -> tk' !! k = tk !! k /\ (k ∈ won' <-> k ∈ won)) ->
  self (v_rq v') = r ->
  visit_ok (works_as (crew start w)) (tk' !! (w, r)) ((w, r) ∈ won') False (fun _ => False) v' ->
  shares (mkSite (set_worker w wk (crew site)) (zone wk) (redis site) ws (<[(w, r) := v']> (visits site))) tk' won'.
Proof.
  intros [R1 R2 _ R4 R5] Ecl Eck Hst Hoth Hself Hok. split; cbn [crew store visits].
  - intros x. unfold set_worker. by destruct (x =? w)%nat.
  - intros x. unfold set_worker. destruct (Nat.eqb_spec x w) as [->|]; [by rewrite Eck|done].
  - done.
  - intros k Hk. apply lookup_insert_is_Some'. destruct (decide (k = (w, r))) as [->|Hne]; [by left|right].
    destruct (Hoth k Hne) as [Ek _]. rewrite Ek in Hk. by apply R4.
  - intros w' q v1. intros [[Eq <-]|[Hne Hv]]%lookup_insert_Some; [by injection Eq as <- <-|].
    destruct (Hoth (w', q) (not_eq_sym Hne)) as [-> Hwon]. destruct (R5 w' q v1 Hv) as [? Hok1]. split; [done|].
    by eapply visit_ok_iff; [| | |exact Hok1].
Qed.
Lemma share_serve W site tk won w r t v m :
  shares site tk won -> tk !! (w, r) = None -> idle (v_rq v) -> self (v_rq v) = r -> fated W (reasons v) m ->
  exists tk' won', shares (serve site w r t v m) tk' won'.
Proof.
  intros R Ht Hi Hs Hm. unfold serve. set (wk0 := enter t (store site) (crew site w)).
  pose proof (Hm (v_rq v, wk0) Hi) as Hf. destruct (m (v_rq v, wk0)) as [rc [rq wk]]. cbn [fst snd] in Hf.
  destruct (sh_store _ _ _ R) as (st & Rst & Rl).
  assert (same (v_rq v, wk0) (rq, wk) ->
    visit_ok (works_as (crew start w)) None ((w, r) ∈ won) False (fun _ => False) (with_rq v rc rq) ->
    exists tk' won', shares (mkSite (set_worker w wk (crew site)) (zone wk) (redis site) (dialled w (cluster wk0) (cluster wk) (wires site))
      (deliver w wk (outbox wk) (<[(w, r) := with_rq v rc rq]> (visits site)))) tk' won') as Hquiet.
  { intros [E1 E2 E3 E4 _ _ E7] Hok. cbn [fst snd] in *. exists tk, won. rewrite E7. cbn [wk0 enter outbox]. rewrite deliver_nil.
    apply (share_post _ tk won); try done; [by rewrite E4; apply R|exists st; by rewrite E3|simpl; congruence|by rewrite Ht]. }
  destruct Hf as [Hrc Hid Hk|x Hrc Hx Hno Hw Hk|cb _ Hrc Hu Hw Hk|wk1 tok e g [rq1 w1] Hrc HJ Hc Hc' Hid Hk Hred].
  - apply Hquiet; [done|]. by apply VLeft.
  - apply Hquiet; [done|]. by eapply VAnswered.
  - apply Hquiet; [done|]. by eapply VBody.
  - clear Hquiet. destruct Hk as [E1 E2 E3 E4 E5 E6 E7]. cbn [fst snd] in *.
    assert (cluster w1 = None) as Hcl by (rewrite E4; apply R).
    assert (zone w1 = Some st) as Hz by (by rewrite E3).
    pose proof (redeem_local tok e g rq1 w1 st Hcl Hz Hid) as Hrd. unfold Ledger.consume in Hrd. rewrite Hz in Hrd.
    destruct (locked_consume (clock w1 (ticks w1)) st (Redemption.id tok) e) as [o st'] eqn:El.
    destruct Hrd as (rq' & x & Hr & F1 & F2 & F3 & F4). rewrite Hr in Hred. injection Hred as -> ->.
    exists (<[(w, r) := (Redemption.id tok, e)]> tk), (if decide (o = Accepted) then {[(w, r)]} ∪ won else won).
    cbn [with_zone tick outbox]. rewrite E7. cbn [wk0 enter outbox]. rewrite deliver_nil.
    eapply (share_post _ tk won); try done.
    + exists st'. split; [done|]. by eapply ledgered_consume.
    + intros k Hne. rewrite lookup_insert_ne by done. split; [done|]. case_decide; [|done]. rewrite elem_of_union, elem_of_singleton.
      split; [by intros [?|?]|auto].
    + simpl. congruence.
    + rewrite lookup_insert_eq. eapply (VRedeemed _ _ _ _ _ _ wk1 tok e g x); try done.
      * split; [rewrite Hc; apply R|]. rewrite Hc'. cbn [wk0 enter cluster snd]. rewrite (sh_cluster _ _ _ R). by destruct Hstart as [-> _].
      * intros c. rewrite F4. case_decide as Ho; [set_solver|]. split; [by intros [? _]|]. intros [Hin _].
        destruct (lg_gone _ _ _ Rl _ Hin) as (? & ? & ? & _). congruence.
      * by intros [].
Qed.
Lemma share_step ns sk site tk won h :
  shares site tk won -> can sk site h -> exists tk' won', shares (hstep ns site h) tk' won'.
Proof.
  intros R Hcan. destruct h as [w r t loc req|w r t|w t ev|w p refuse seen ms].
  - apply (share_serve True site tk won); try done; [|by apply arrival_fated].
    destruct (tk !! (w, r)) eqn:Ht; [|done]. cbn [can] in Hcan.
    destruct (sh_tickets _ _ _ R (w, r)) as [v Hv]; [by rewrite Ht|congruence].
  - destruct Hcan as (v & Hv & cb & Hcb). cbn [hstep]. rewrite Hv, Hcb.
    destruct (sh_visits _ _ _ R w r v Hv) as [Hs Hok]. destruct (awaited _ _ _ _ _ _ _ Hok Hcb) as [Ht Hid].
    apply (share_serve False site tk won); try done.
    apply (callback_fated cb (with_rq v (v_rc v) (resumed (v_rq v)))).
  - destruct Hcan as (rt & Hrt & _). rewrite (sh_cluster _ _ _ R) in Hrt. done.
  - exists tk, won. cbn [hstep]. repeat case_match; try done; by destruct R.
Qed.
Lemma share_reach ns sk site : hreach ns sk start site -> exists tk won, shares site tk won.
Proof.
  induction 1 as [|site h _ (tk & won & R) Hcan]; [exists ∅, ∅; apply shares_start|]. by eapply share_step.
Qed.
End shared.

(** ** Any site *)

Section site_properties.
Context {B : Base64} {BL : Base64Laws B} {H : Hmac} {HL : HmacLaws H} {C : Subtle} {CL : SubtleLaws C}
  {S : Sha256} {SL : Sha256Laws S} {E : Ecdsa} {CB : CryptoBackend} {JT : JsonText}
  {JO : JsonObject} {JC : Json Clearance.Clearance} {JCL : JsonLaws Clearance.Clearance}
  {JG : Json Nojs.Grant} {JP : Json Pow.Tuple}
  {JS : Json Submission} {JSL : JsonLaws Submission} {JN : Json (Pow.Challenge * Z)} {A : Assets} {N : Nginx} {NL : NginxLaws N}.

(** A handler that must not wait for a body does not. *)
Lemma redeem_waiting token e g s : idle s.1 -> waiting (redeem token e g s).2.1 = None.
Proof.
  intros [_ Hw]. destruct s as [rq w]. cbn [fst] in Hw. destruct (cluster w) as [rt|] eqn:Hc.
  - pose proof (redeem_cluster token e g rq w rt Hc) as Hr.
    destruct (handle (world_of w) rt _) as [cs rt']. destruct Hr as (w' & -> & _). cbn [fst].
    destruct (rq_only_finish_all (own (self rq) cs)) as (f & Hf & Ff). rewrite Hf. cbn [snd fst]. by rewrite (proj2 (Ff rq)).
  - unfold redeem, bind at 1 2, get_rq, get_worker. cbn [fst snd]. rewrite Hc. unfold bind.
    assert ((consume_token token e (rq, w)).2.1 = rq) as Hrq.
    { unfold consume_token, bind, get_worker, now, put_worker, ret. cbn [fst snd]. destruct (zone w); [|done].
      cbn [fst snd]. by destruct (Ledger.consume _ _ _ _). }
    destruct (consume_token token e (rq, w)) as [o [rq1 w1]]. cbn [fst snd] in Hrq. subst rq1.
    destruct (rq_only_finish o g) as (f & Hf & Ff). rewrite Hf. cbn [snd fst]. by rewrite (proj2 (Ff rq)).
Qed.
Lemma fated_no_wait J (m : M Z) s : fated False J m -> idle s.1 -> waiting (m s).2.1 = None.
Proof.
  intros Hm Hs. destruct (Hm s Hs) as [_ [_ ?] _|x _ _ _ ? _|cb [] |wk t e g s1 _ _ _ _ Hi _ ->]; try done. by apply redeem_waiting.
Qed.
Lemma body_settles ns site w r t v cb :
  visits site !! (w, r) = Some v -> waiting (v_rq v) = Some cb -> unanswered (v_rq v) ->
  exists v', visits (hstep ns site (BodyRead w r t)) !! (w, r) = Some v' /\ waiting (v_rq v') = None.
Proof.
  intros Hv Hcb Hu. cbn [hstep]. rewrite Hv, Hcb. unfold serve. set (wk0 := enter t (store site) (crew site w)).
  pose proof (fated_no_wait _ _ (resumed (v_rq v), wk0) (callback_fated cb (with_rq v (v_rc v) (resumed (v_rq v))))) as Hw.
  cbn [with_rq v_loc v_req v_rq] in *. destruct (callback cb (v_loc v) (v_req v) (resumed (v_rq v), wk0)) as [rc [rq wk]].
  cbn [fst snd visits] in *. rewrite deliver_lookup, lookup_insert_eq, Nat.eqb_refl. eexists. split; [reflexivity|].
  cbn [with_rq v_rq]. destruct (rq_only_finish_all (own r (outbox wk))) as (f & Hf & Ff). rewrite Hf. cbn [snd fst].
  rewrite (proj2 (Ff rq)). apply Hw. by split.
Qed.
Lemma timeout_settles site w r t v rt p j ns :
  cluster (crew site w) = Some rt -> inv rt -> NoDup (owed rt) -> heap rt !! p = Some j -> request j = Some r ->
  visits site !! (w, r) = Some v -> idle (v_rq v) ->
  exists v' x, visits (hstep ns site (Network w t (Timeout p))) !! (w, r) = Some v' /\ responses (v_rq v') = [x].
Proof.
  intros Hc Hi Hn Hj Hr Hv Hid. cbn [hstep]. set (wk := enter t (store site) (crew site w)).
  assert (cluster wk = Some rt) as -> by done.
  pose proof (timeout_answers (world_of wk) rt p j r Hj Hr Hi) as Hans.
  assert (fires rt (Timeout p)) as Hf by (exists j; split; [done|]; by eapply core_armed; [apply inv_core|]).
  destruct (handle_step (world_of wk) rt (Timeout p) Hi Hf) as [_ Hp _ _]. cbn [asked] in Hp. rewrite app_nil_r in Hp.
  destruct (handle (world_of wk) rt (Timeout p)) as [cs rt']. cbn [fst snd leave visits] in *.
  rewrite Hp in Hn. apply NoDup_app in Hn as (Hn & _).
  destruct (own_one r cs Hn Hans) as (o & g & Ho & _).
  rewrite deliver_lookup, Hv, Nat.eqb_refl. cbn [fmap option_fmap option_map]. rewrite Ho. cbn [finish_all].
  destruct (finish_one o g (v_rq v) wk Hid) as (rq' & x & Ef & E1 & _). eexists _, x. split; [reflexivity|].
  cbn [with_rq v_rq]. unfold bind. rewrite Ef. exact E1.
Qed.

(** What both kinds of site keep true: who redeemed what, who was accepted, who waits. *)
Record settled (ns : bytes) (start site : Site) (tk : gmap (nat * nat) (bytes * Z)) (won owed : nat * nat -> Prop) : Prop := mkSettled {
  se_visits w r v : visits site !! (w, r) = Some v ->
    exists gr, visit_ok (works_as (crew start w)) (tk !! (w, r)) (won (w, r)) (owed (w, r)) gr v;
  se_once k k' : won k -> won k' -> tk !! k = tk !! k' -> k = k';
  se_owed w r : owed (w, r) -> exists rt p j, cluster (crew site w) = Some rt /\ inv rt /\ NoDup (Cluster.owed rt)
    /\ heap rt !! p = Some j /\ request j = Some r;
}.
Definition opened_as (cfg : nat -> Config) (ns ep : bytes) (sk : Z) (start : Site) : Prop :=
  local_start start \/ cluster_start cfg ns ep sk start.
Lemma site_settled cfg ns ep sk start site :
  opened_as cfg ns ep sk start -> hreach ns sk start site -> exists tk won owed, settled ns start site tk won owed.
Proof.
  intros [Hs|Hs] Hr.
  - destruct (share_reach start Hs ns sk site Hr) as (tk & won & R). exists tk, (fun k => k ∈ won), (fun _ => False). split; [|..|done].
    + intros w r v Hv. destruct (sh_visits _ _ _ _ R w r v Hv) as [_ ?]. by eexists.
    + destruct R as [_ _ (st & _ & [_ _ Ho]) _ _]. apply Ho.
  - destruct (refine_reach cfg ns ep sk start Hs site Hr) as [fs R].
    exists (tickets fs), (fun k => k ∈ won fs), (fun k => k.2 ∈ owed (workers fs k.1)). split.
    + intros w r v Hv. destruct (rf_visits _ _ _ _ _ _ R w r v Hv) as [_ ?]. by eexists.
    + pose proof Hs as (Hd & Hi & _).
      destruct (fleet_ok_won cfg ns ep sk fs (freach_ok cfg ns ep sk Hd _ _ Hi (rf_fleet _ _ _ _ _ _ R))) as [_ Hnd].
      intros k k' Hk Hk' Ht. by eapply (NoDup_map_inj (fun wr => tickets fs !! wr)).
    + intros w r Ho. cbn [fst snd] in Ho. apply list_elem_of_omap in Ho as ([p j] & Hj & Hrq). apply elem_of_map_to_list in Hj.
      exists (workers fs w), p, j. split; [apply R|]. split; [by eapply (refines_inv cfg ns ep sk start Hs)|]. by split; [apply R|].
Qed.
(** A response to request [k] that sets cookie [c]. *)
Definition cookied (site : Site) (k : nat * nat) (c : bytes) : Prop :=
  exists v x, visits site !! k = Some v /\ x ∈ responses (v_rq v) /\ set_cookie c x.
Lemma visit_cookied P tk (won owed : Prop) gr v x c :
  visit_ok P tk won owed gr v -> x ∈ responses (v_rq v) -> set_cookie c x ->
  exists wk t e g, tk = Some (Redemption.id t, e) /\ reasons v wk t e g /\ P wk /\ c = Ledger.cookie g /\ won.
Proof.
  intros [_ _ [[_ Hr] _]|y _ _ Hr Hno _|cb _ _ [_ Hr] _|wk t e g _ _ _ _ [[_ Hr] _] _ _ _|wk t e g _ _ _ _ [[_ Hr] _] _ _ _
         |wk t e g y Ht Hrs HP _ Hr _ Hset _]; rewrite Hr; try (by intros ?%elem_of_nil).
  - intros ->%list_elem_of_singleton Hc. by apply Hno in Hc.
  - intros ->%list_elem_of_singleton [Hw ->]%Hset. by exists wk, t, e, g.
Qed.

(** C3: One cookie per proof, over a whole site.  Let requests come in at any workers, in any
    order, with bodies that arrive late, clients that leave, and either the shared ledger or
    a Redis primary behind any network whose clock is never behind the latest time it has
    shown by more than the allowance of the script, [500 * (skew + 1)] milliseconds ([can]; a
    larger step back can reopen a token, see [Redis]).  Then whenever a response sets a cookie, its request
    carried a submission or a grant that this worker verified at some moment (its address,
    difficulty, signatures, waits and all: [checked] and [redeemable]), the cookie is the
    clearance for exactly that, and no two such responses in the whole history redeemed the
    same token with the same expiry. *)
Theorem site_one_cookie_per_proof cfg ns ep sk start site :
  opened_as cfg ns ep sk start -> hreach ns sk start site ->
  exists tickets : gmap (nat * nat) (bytes * Z),
    (forall w r c, cookied site (w, r) c -> exists v wk t e g,
       visits site !! (w, r) = Some v /\ tickets !! (w, r) = Some (Redemption.id t, e)
       /\ reasons v wk t e g /\ works_as (crew start w) wk /\ c = Ledger.cookie g)
    /\ (forall k k' c c', cookied site k c -> cookied site k' c' -> tickets !! k = tickets !! k' -> k = k').
Proof.
  intros Ho Hr. destruct (site_settled cfg ns ep sk start site Ho Hr) as (tk & won & ow & [Hv Honce _]). exists tk.
  assert (forall w r c, cookied site (w, r) c -> exists v wk t e g,
       visits site !! (w, r) = Some v /\ tk !! (w, r) = Some (Redemption.id t, e)
       /\ reasons v wk t e g /\ works_as (crew start w) wk /\ c = Ledger.cookie g /\ won (w, r)) as Hc.
  { intros w r c (v & x & Hk & Hx & Hset). destruct (Hv w r v Hk) as [gr Hok].
    destruct (visit_cookied _ _ _ _ _ v x c Hok Hx Hset) as (wk & t & e & g & ?). by exists v, wk, t, e, g. }
  split.
  - intros w r c (v & wk & t & e & g & ? & ? & ? & ? & ? & _)%Hc. by exists v, wk, t, e, g.
  - intros [w r] [w' r'] c c' (? & ? & ? & ? & ? & _ & _ & _ & _ & _ & H1)%Hc (? & ? & ? & ? & ? & _ & _ & _ & _ & _ & H2)%Hc. by apply Honce.
Qed.

(** C5: Every request comes to one end.  At any moment of the history of a site (with the Redis
    clock as in [can]) a request that
    came in has been left to nginx, answered exactly once, waits for its body (and no longer
    does once that is there), has lost its client, or waits for Redis with a deadline that
    can fire and then answers it, exactly once. *)
Theorem site_requests_settle cfg ns ep sk start site w r v :
  opened_as cfg ns ep sk start -> hreach ns sk start site -> visits site !! (w, r) = Some v ->
  (v_rc v <> NGX_DONE /\ responses (v_rq v) = [] /\ waiting (v_rq v) = None)
  \/ v_rc v = NGX_DONE /\
     ((exists x, responses (v_rq v) = [x]) /\ waiting (v_rq v) = None
      \/ responses (v_rq v) = [] /\
         ((exists cb, waiting (v_rq v) = Some cb) /\
            (forall t, exists v', visits (hstep ns site (BodyRead w r t)) !! (w, r) = Some v' /\ waiting (v_rq v') = None)
          \/ waiting (v_rq v) = None /\
             (v_gone v = true
              \/ exists p, forall t, can sk site (Network w t (Timeout p)) /\ exists v' x,
                   visits (hstep ns site (Network w t (Timeout p))) !! (w, r) = Some v' /\ responses (v_rq v') = [x]))).
Proof.
  intros Ho Hr Hv. destruct (site_settled cfg ns ep sk start site Ho Hr) as (tk & won & ow & [Hvs _ How]).
  destruct (Hvs w r v Hv) as [gr [? ? [[_ ?] ?]|x ? ? ? ? ?|cb ? ? Hu ?|wk t e g ? ? ? ? Hid ? ? Hown|wk t e g ? ? ? ? [[_ ?] ?] ? ? ?
         |wk t e g x ? ? ? ? ? ? ? ?]].
  - by left.
  - right. split; [done|]. left. eauto.
  - right. split; [done|]. right. split; [apply Hu|]. left. split; [eauto|]. intros t. by eapply body_settles.
  - right. split; [done|]. right. split; [apply Hid|]. right. split; [apply Hid|]. right.
    destruct (How w r Hown) as (rt & p & j & Hc & Hi & Hn & Hj & Hrq). exists p. intros t0. split.
    + exists rt. split; [done|]. split; [|done]. exists j. split; [done|]. by eapply core_armed; [apply inv_core|].
    + by eapply (timeout_settles site w r t0 v rt p j).
  - right. split; [done|]. right. split; [done|]. right. split; [done|]. by left.
  - right. split; [done|]. left. eauto.
Qed.
End site_properties.

(** ** Witnesses *)

#[local] Existing Instance Gate.submission_fields.
#[local] Existing Instance Gate.demo_sub_json.
#[local] Existing Instance Gate.demo_sub_laws.
#[local] Existing Instance Gate.demo_tuple_json.
#[local] Existing Instance Clearance.demo_json.
#[local] Existing Instance Clearance.demo_json_laws.
#[local] Existing Instance Nojs.demo_json.
#[local] Existing Instance Gate.demo_challenge_json.
#[local] Existing Instance Gate.demo_object.
#[local] Existing Instance Gate.demo_backend.
#[local] Existing Instance Gate.demo_assets.

(** Two workers of one cluster; the wall clocks read 1000. *)
Definition site_worker : Worker :=
  mkWorker (fun _ => 1000) 0 (fun n => Z.of_nat n) 0 (fun n => bs "2123456789abcdef") 0
    None (activate (Some demo_config)) 0 (fun _ => NoConnection) [] (start_refreshers ∅ (fun _ => true)).
Definition site_primary : Server := mkServer (mkDb (Some (cfg_epoch demo_config)) (Some 999) ∅) 1000000.
Definition site_start : Site := mkSite (fun _ => site_worker) None site_primary ∅ ∅.
Definition demo_turn : Turn := mkTurn 5000 (fun _ => Connection 0) (fun vs => vs).
Fixpoint hrun (site : Site) (hs : list Happening) : Site :=
  match hs with [] => site | h :: hs' => hrun (hstep (bs "edge-1") site h) hs' end.
Definition site_served (w p : nat) : list Happening :=
  [RedisServes w p false 1000000 1000000; RedisServes w p false 1000000 1000000].
Definition site_health (w : nat) : list Happening :=
  [Network w demo_turn (Poll false); Network w demo_turn (demo_write 0)] ++ site_served w 0
  ++ [Network w demo_turn (Readable 0 [Data (auth_line ++ integer_line 1)] true)].
Definition site_ready : Site := hrun site_start (site_health 0 ++ site_health 1).
Definition site_ctx : bytes :=
  Eval vm_compute in
    default [] (client_context (demo_req (bs "GET") (bs "/") [] None None) Gate.demo_cfg (worker_issuer (crew site_ready 0))).
Definition site_challenge : Pow.Challenge :=
  Eval vm_compute in Pow.issue (bs "2123456789abcdef") (bs "0123456789abcdef") Clearance.demo_key site_ctx 2 990 CHALLENGE_GRACE.
Definition site_submission : Submission :=
  mkSubmission 2 (b64url (std_sign Clearance.demo_key (challenge_message (Pow.token site_challenge))))
    (Pow.salt site_challenge) (Pow.exp site_challenge) (Pow.token site_challenge) 0 (b64url Clearance.demo_key) 2.
Definition site_verify : Request :=
  demo_req (bs "POST") (bs "/.pow/verify") [] None (Some [Some (Memory (Some (to_vec site_submission)))]).
(** The same solution is handed to both workers, and Redis runs the second worker's command
    first. *)
Definition site_both : list Happening :=
  concat (map (fun '(w, r) => [Arrive w r demo_turn (Some (demo_loc "challenge")) site_verify; BodyRead w r demo_turn;
    Network w demo_turn (demo_write 1)]) [(0, 7); (1, 8)]%nat).
Definition site_answers : list Happening :=
  site_served 1 1 ++ site_served 0 1
  ++ [Network 0 demo_turn (Readable 1 [Data (auth_line ++ integer_line 0)] true);
      Network 1 demo_turn (Readable 1 [Data (auth_line ++ integer_line 1)] true)].
Definition site_waiting : Site := hrun site_ready site_both.
Definition site_done : Site := hrun site_waiting site_answers.
(** [can], decided. *)
Definition fires_b (rt : Runtime) (ev : Event) : bool :=
  match ev with
  | Poll _ => true
  | Redeem _ _ _ _ => false
  | Writable p _ _ _ _ | Readable p _ _ => match heap rt !! p with Some j => connected j | None => false end
  | Timeout p => match heap rt !! p with Some j => deadline_set j | None => false end
  | Abort p => match heap rt !! p with Some j => bool_decide (request j <> None) | None => false end
  end.
Definition can_b (sk : Z) (site : Site) (h : Happening) : bool :=
  match h with
  | Arrive w r _ _ _ => match visits site !! (w, r) with Some _ => false | None => true end
  | BodyRead w r _ => match visits site !! (w, r) with Some v => bool_decide (waiting (v_rq v) <> None) | None => false end
  | Network w _ ev =>
      match cluster (crew site w) with
      | Some rt => fires_b rt ev
          && match ev with
             | Readable p recvs _ =>
                 match wires site !! (w, p) with Some io => bool_decide (received recvs `prefix_of` io.2) | None => false end
             | _ => true
             end
      | None => false
      end
  | RedisServes _ _ _ seen ms => Z.max (peak (redis site)) seen - ms <=? slack sk
  end.
Lemma can_b_can sk site h : can_b sk site h = true -> can sk site h.
Proof.
  destruct h as [w r t loc req|w r t|w t ev|w p refuse seen ms]; cbn [can_b can].
  - by destruct (visits site !! (w, r)).
  - destruct (visits site !! (w, r)) as [v|]; [|done]. intros Hb%bool_decide_eq_true. exists v. split; [done|]. by apply not_eq_None_Some.
  - destruct (cluster (crew site w)) as [rt|]; [|done]. intros [Hf Hr]%andb_true_iff. exists rt. split; [done|].
    destruct ev as [| |p|p recvs rearm|p|p]; cbn [fires_b fires] in *; try done;
      try (destruct (heap rt !! p) as [j|]; [|done]); split; try done; try (by exists j).
    + destruct (wires site !! (w, p)) as [io|]; [|done]. apply bool_decide_eq_true in Hr. by exists io.
    + exists j. split; [done|]. apply bool_decide_eq_true in Hf. by apply not_eq_None_Some.
  - apply Z.leb_le.
Qed.
Fixpoint all_can (site : Site) (hs : list Happening) : bool :=
  match hs with [] => true | h :: hs' => can_b 5 site h && all_can (hstep (bs "edge-1") site h) hs' end.
Lemma hreach_run site hs :
  hreach (bs "edge-1") 5 site_start site -> all_can site hs = true -> hreach (bs "edge-1") 5 site_start (hrun site hs).
Proof.
  revert site. induction hs as [|h hs IH]; intros site Hr Hc; [done|]. apply andb_true_iff in Hc as [Hh Hc].
  apply IH; [|done]. apply hreach_step; [done|by apply can_b_can].
Qed.
Lemma site_opened : cluster_start Fleet.demo_cfg (bs "edge-1") (cfg_epoch demo_config) 5 site_start.
Proof.
  split; [apply demo_deployment|]. split; [intros p [= <-]; vm_compute; discriminate|]. by split_and!.
Qed.
Lemma site_waiting_reach : hreach (bs "edge-1") 5 site_start site_waiting.
Proof. apply hreach_run; [apply hreach_run; [apply hreach_start|]|]; vm_compute; reflexivity. Qed.
Lemma site_done_reach : hreach (bs "edge-1") 5 site_start site_done.
Proof. apply hreach_run; [apply site_waiting_reach|vm_compute; reflexivity]. Qed.
Definition site_cookie : bytes :=
  Eval vm_compute in Ledger.cookie (pow_grant (demo_loc "challenge") (crew site_ready 1%nat) Clearance.demo_key site_ctx 2).
Definition sets_cookie (site : Site) (k : nat * nat) (c : bytes) : bool :=
  match visits site !! k with
  | Some v => match responses (v_rq v) with x :: _ => bool_decide ((bs "Set-Cookie", c) ∈ r_headers x) | [] => false end
  | None => false
  end.
Lemma sets_cookie_cookied site k c : sets_cookie site k c = true -> cookied site k c.
Proof.
  unfold sets_cookie, cookied. destruct (visits site !! k) as [v|]; [|done].
  destruct (responses (v_rq v)) as [|x l] eqn:Hr; [done|]. intros Hc%bool_decide_eq_true. exists v, x. rewrite Hr. split_and!; [done|left|done].
Qed.
Lemma site_cookied : cookied site_done (1, 8)%nat site_cookie.
Proof. apply sets_cookie_cookied. vm_compute. reflexivity. Qed.
Definition visit_state (v : Visit) : Z * nat * option Callback * bool :=
  (v_rc v, length (responses (v_rq v)), waiting (v_rq v), v_gone v).
Lemma site_pending : visit_state <$> visits site_waiting !! (0, 7)%nat = Some (NGX_DONE, 0%nat, None, false).
Proof. vm_compute. reflexivity. Qed.
Lemma site_one_cookie_per_proof_witness :
  cookied site_done (1, 8)%nat site_cookie
  /\ exists tickets : gmap (nat * nat) (bytes * Z),
       (exists t e, tickets !! (1, 8)%nat = Some (Redemption.id t, e))
       /\ forall k c, cookied site_done k c -> tickets !! k = tickets !! (1, 8)%nat -> k = (1, 8)%nat.
Proof.
  split; [exact site_cookied|].
  destruct (site_one_cookie_per_proof Fleet.demo_cfg (bs "edge-1") (cfg_epoch demo_config) 5 site_start site_done
    (or_intror site_opened) site_done_reach) as (tickets & H1 & H2).
  exists tickets. split.
  - destruct (H1 1%nat 8%nat site_cookie site_cookied) as (v & wk & t & e & g & _ & Ht & _). exists t, e. exact Ht.
  - intros k c Hk Ht. exact (H2 k (1, 8)%nat c site_cookie Hk site_cookied Ht).
Defined.
(** The two requests wait for Redis; nobody else's event is needed to end that. *)
Lemma site_requests_settle_witness :
  exists p, forall t, can 5 site_waiting (Network 0 t (Timeout p)) /\ exists v' x,
    visits (hstep (bs "edge-1") site_waiting (Network 0 t (Timeout p))) !! (0, 7)%nat = Some v' /\ responses (v_rq v') = [x].
Proof.
  destruct (proj1 (fmap_Some _ _ _) site_pending) as (v & Hv & Es). injection Es as E1 E2 E3 E4.
  destruct (site_requests_settle Fleet.demo_cfg (bs "edge-1") (cfg_epoch demo_config) 5 site_start site_waiting 0%nat 7%nat v
    (or_intror site_opened) site_waiting_reach Hv)
    as [[F _]|[_ [[[x F] _]|[_ [[[cb F] _]|[_ [F|F]]]]]]]; [congruence|rewrite F in E2; discriminate E2|congruence..|exact F].
Defined.
